(* ===== verification/_CoqProject ===== *)
-Q . S2P
Prelude.v
Words.v
Digits.v
Carry.v
Shift.v
DivWord.v
Memory.v
Logic.v
NatCore.v
Loops.v
NatAdd.v
NatSub.v
NatShift.v
NatMul.v
NatSqrSpec.v
NatDiv.v
DivArith.v
NatDivSpec.v
NatConv.v
NatExpSpec.v
NatText.v
NatConvSpec.v
DivisorsSpec.v
ConvertSpec.v
BigInt.v
BigText.v
BigTest.v
FibText.v
Monad.v
Bytes.v
Ctx.v
Coroutine.v
CoMain.v
CoSpec.v
CoSim.v
CoApi.v
CoLive.v
C11Threads.v
CoThreads.v
RpcBuffer.v
RpcWire.v
RpcServer.v
RpcClient.v
RpcMain.v
RpcRun.v
TryCatch.v
Swiss.v
SwissProbe.v
SwissSpec.v
SwissMap.v
SwissRefine.v
SwissMain.v
Iocp.v
IocpSafe.v
IocpClient.v
IocpEx.v
IocpExSafe.v
IoUring.v
Cobj.v
CobjSpec.v
CobjCC.v
GrpcClient.v
GrpcRules.v
GrpcServer.v
GrpcServe.v
Sexagenary.v
FzTry.v
AsioNet.v
GlibTests.v
PdfObjects.v
PrintText.v
ReplaceFonts.v
