(* ===== verification/Prelude.v ===== *)
(** * Verification of the C programs of the demo repository

    The repository collects small programs.  Those that carry a core of their
    own in C are modelled here: the arbitrary-precision integers of
    src/cmake/bigint, the coroutine library of src/cmake/coroutine, the remote
    procedure calls of src/cmake/rpc_c, the exceptions of
    src/cmake/c_try_catch, the hash table of src/cmake/swissmap, the two
    completion-port servers of src/cmake/iocp and their client, the objects of
    src/cmake/cobj in C and in C++, the gRPC client and server of
    src/xmake/grpc-c, the three programs of src/mupdf, the message server of
    src/cmake/asio, the reader of src/cmake/io_uring, the tests of
    src/cmake/pkg, and two programs of one function each.  They do not call each
    other; they share the vocabulary of this file and of Words, Bytes and Monad.

    ** Conventions

    A C operation yields a value or one of the errors of [error] below: a
    failing [assert], an access outside every live object, a null pointer, a
    read of an indeterminate value and so on.  Undefined behaviour is an error
    and not a value, so a theorem that an operation returns [OK] includes that
    it has none; the two exceptions, which have the value that compilers give
    them, are a [memcpy] of an area onto itself and the macro [_M] of nat.h.
    Behaviour that is an error of the program but defined (a lost object, a
    socket closed twice) is recorded in the state.  Unsigned integers are elements of [Z] with the reduction
    modulo the width written out ([wrap], [u16], [u32], [u64] of Words).
    Allocation may fail: what [malloc] answers is a parameter.

    ** bigint

    - Words: base.c, the primitives on 8 to 64 bits (lengths, leading and
      trailing zeros, the byte tables, carries, double-width products and
      quotients).  The class [Target] selects the 32-bit or the 64-bit word of
      nat.h and [UInt] is that word.
    - Digits: the value of a list of words; Carry: what the carry chains of the
      source compute, exactly when they are right; Shift, DivWord, DivArith:
      arithmetic of shifts, of [divWW] with its reciprocal, and of Knuth's
      estimate, without memory.
    - Memory: a store of word blocks and objects with allocation, release and
      bounds; the monad [M].  Logic: a separation logic for it (Iris), with
      [wp] for executions that succeed and [wpe] for those that fail, and its
      adequacy.
    - NatCore (nat.h, nat.c), Loops, NatAdd, NatSub, NatShift, NatMul, NatDiv,
      NatDivSpec, NatConv (the files of the same names): slices of words and the
      operations on them, with a [wp] rule for each.  NatSqrSpec: squares and
      NatExpSpec: powers, both of which the text conversion needs;
      DivisorsSpec: its table of divisors.  NatText: numerals, and windows of a
      buffer filled from their end; NatConvSpec: the digits that the leaf loop
      and the bases that are powers of two write; ConvertSpec: the recursion of
      [convertWords], which splits number and window at a divisor.  BigInt:
      bigint.c and the loop of the Fibonacci program of test.c; BigText: the
      text of a signed integer; BigTest: the comparison of a text with a file in
      test.c; FibText: that program from its loop to the comparison.
    - Theorems: addition, subtraction, multiplication and division are exact and
      leave their operands intact, where they are; carries that travel past the
      first high digit are counted twice by [addVW] and [subVW], which is
      characterised exactly; what goes wrong beyond that is shown on concrete
      numbers.  Exactness of the product is proved below the Karatsuba
      threshold (40 digits), of the square below its own (260), of the quotient
      below 100 digits of divisor, because the code above them relies on
      [addVW].  The text is proved to be the numeral of the number in every
      base for numbers of at most 129 words: then the table has at most four
      divisors, of at most 64 words and a bit, and every product, square and
      quotient of the conversion stays below those thresholds.  For the program
      of test.c that covers [Fibonacci(1)], but not [Fibonacci(10)].
    - Fuel: the correction loops of [U64Div] and of Knuth's estimate run at most
      three times ([div_fuel], [qhat_fuel]; proved).  The recursions of
      Karatsuba multiplication, of recursive division and of text conversion
      have fuel that bounds their depth, which at least halves or decrements at
      each level.

    ** coroutine

    - Ctx: ctx.c and swap_ctx_x64.asm, the registers a switch saves and loads.
      Coroutine: all of co.c without [USE_NATIVE_CO], for one thread ([env] is
      thread-local).  A coroutine body is a tree [prog] of its actions between
      library calls; its variables are bytes of the shared stack, so what it
      reads after a switch is what [restore_stack] has put back.  CoMain: the
      thread function of main.c and its coroutines.
    - CoSpec: the specification, in which every coroutine keeps its frames for
      itself; CoSim: the relation between the two and the simulation of each
      operation; CoApi: sessions of a client, the invariant of reachable
      states, and the failures; CoLive: termination of [co_wait], and the output
      of a thread of the example program; C11Threads: the functions of
      c11_threads.h, over the class [Pthreads] of systems; CoThreads: main with
      its ten threads, whose lines interleave.
    - Theorems: while allocations succeed, the library refines the
      specification, errors included; the invariant of its states; [co_wait]
      ends, for bodies that create no coroutines; main with its threads,
      whatever is allocated for each; which slot [co_new] takes and
      when it reads past the table; what is left behind by failing allocations;
      mutual exclusion, by the results the threads get.
    - Fuel: [_align] doubles at most 17 times (the capacity has 16 bits);
      [co_wait] makes at most [n + 2] passes when each body swaps out at most
      [n] times, and a pass visits at most the capacity; [co_join] may run for
      ever with a body that does, and says so by running out of fuel.

    ** rpc_c

    - RpcBuffer: buffers, readers and sockets of rpc_util.c; a socket delivers
      its input in arbitrary chunks, [stream] is what they add up to.  RpcWire:
      the argument macros of rpc_c.h, [buffer_append_dt] and the parser; the
      class [Abi] says whether [int64_t] is [long long] or [long], which decides
      what [GET_TYPE] makes of it; an array of characters ([VArr]) is appended
      from where it lies and not through a pointer.  RpcServer: rpc_server.c; RpcClient:
      rpc_client.c and the responses; RpcMain: the functions and calls of
      main.c, end to end; RpcRun: time limits, the server from its socket to
      its end, and main.
    - Theorems: what the macros write the parser reads back, while strings and
      messages are below 64 KiB (beyond that it is out of step); no input makes
      the parser fail, or the server, unless a registered function does; what is
      handed to a function of any input; a call of each registered function from the
      request to the decoded response; the calls that go wrong.
    - Fuel: [read_loop] has one unit per byte still to come, and a round that
      goes on has read at least one.

    ** c_try_catch

    - TryCatch: except.h, except.c and main.c.  A program is a tree of prints,
      throws, returns, calls and TRY/CATCH or TRY/EXCEPT blocks; the macros run
      on the array of 256 jump buffers and its depth, with [longjmp] as the
      outcome that unwinds to the block whose context is on top.
    - Theorems: with well nested blocks and no return out of one, the macros are
      exceptions in the usual sense ([macros_are_exceptions]); the output of
      main.c; the 257th nested block leaves the array.

    ** swissmap

    - Swiss: swissmap.h with its template parameters as Section variables (keys
      with a decidable equality, the hash a parameter); SwissProbe: the probe
      sequence visits every group; SwissSpec: the invariant of the control
      bytes and slots; SwissMap: each operation against it; SwissRefine: the
      table as a finite map; SwissMain: main.cc.  The counter of [rehash] is an
      [int], as in the source.  [room] is what the comparison with the abstract
      map needs of the counters, [roomy] what keeps an empty slot in reach.
    - Theorems: up to 2^28 insertions, erasures and look-ups refine those of a
      finite map; as many insertions and look-ups always end; a table of more
      slots than an [int] counts cannot be moved ([rehash_overflows]); after enough erasures a look-up does
      not; foreach calls its function for each pair; the program of main.cc
      ends, with nothing left for the destructor to destroy.
    - Fuel: how many groups a search may look at is the parameter [probes]: one
      for each group is enough while an empty byte is left
      ([inserts_always_succeed]), and without one no number is
      ([churn_hangs]).  [find] calls itself and [rehash] at most three levels
      deep ([find_fuel]), because a grown table has room for the old keys.

    ** iocp

    - Iocp: server.c as a step relation: the main thread, the worker threads, the
      kernel, which completes operations in any order, and the clients.  Every
      block of an operation belongs to one of them at a time; a failed
      operation delivers 0 bytes; sockets get fresh numbers.  IocpSafe: the
      invariant of reachable states.
    - Theorems: no interleaving makes the server fail unless a client fills a
      whole buffer, which does; what is answered; one worker leaves its loop.
    - IocpEx: server_ex.c, where the main thread accepts with an overlapped
      operation and waits for it, and a signal handler closes the socket it
      waits on.  A socket closed while it is not open is recorded ([stale]), as
      its number may have a new owner; a block released under an accept that is
      still under way is an error; the handler runs once, as [signal] resets it.
      IocpExSafe: the invariant, now with the event of each accept.
    - Theorems: the four ways to go wrong; what the signal does to the sockets; the event
      of every served connection is lost; every worker is told to leave.
    - IocpClient: client.c, over the answers of [recv].  Theorems: its dialogue;
      with the invariant of the server, that it prints its own messages.

    ** cobj

    - Cobj: shape.h, shape.c and main.c.  A block holds the common part of an
      object, which names its table of functions, and the members of one class;
      a function that casts to the wrong class reads out of bounds.  The area
      of a circle is computed in binary64.  CobjSpec: objects as shapes with a
      color, and sessions of a client.
    - Theorems: sessions refine the specification, failures and lack of memory
      included, and leave no block behind; tables fit members; the area of a
      circle is exact up to a radius of 1000.
    - CobjCC: shape.cc, the same classes in C++; a virtual call goes by the class
      of the object.  Theorem: the C classes have the same sessions.

    ** grpc-c

    - GrpcClient: client.c as the tree of its calls of the gRPC and protobuf-c
      libraries, with a branch for each answer.  GrpcRules: the rules these
      libraries state for their objects, as a monitor of the calls: what a call
      needs, that nothing is released that a pending batch holds, that a queue
      is shut down and drained before it is destroyed, and that everything is
      gone when the library is shut down.
      GrpcServer: server.c, whose event loop is a step relation: the library
      ends the operations under way in any order and with any outcome.
      GrpcServe: the invariant of its tags, calls and buffers.
    - Theorems: which rules the client breaks and what it leaves, by the failure
      it meets; how the answers of the libraries decide its exit code and what it
      prints; the server does not fail, and loses nothing while it serves but
      the readers of its requests; what it answers; a refused request leaves it
      deaf.
    - Fuel: the last loop of the client runs until the queue says that it has
      shut down, and is given enough for that.

    ** mupdf, names of years

    - FzTry: the exceptions of MuPDF as a second way for a computation to end,
      with proof rules for both.  PrintText: print_text.c.  ReplaceFonts:
      replace_builtin.c over an interface of PDF objects, the classes [Pdf] and
      [PdfLaws] (keys keep their order in dictionaries of at most a hundred
      entries), with a document that satisfies them.  PdfObjects: t.c.
      Sexagenary: the names of years in the cycle of sixty, and [sum_positive]
      of go/cgo/sum.c.
    - Theorems: what is printed and what is released when MuPDF throws; which
      fonts are replaced, up to which call, and what is saved; which objects are
      held when; the names are right from the year 4 on.

    ** asio, io_uring, pkg

    - AsioNet: net.cc; the two coroutines of each session are states, and the
      steps are what one runs between two suspensions, or what the network does.
      IoUring: main.c, over the answers of the system.  GlibTests: main.c, over
      the class [IntTable] of a hash table that reads its keys through pointers.
    - Theorems: a session handles one message and is never closed after it; what
      [initNet] returns; the reader of the ring releases everything on every
      path; the tests pass in any order, with any table that keeps its promises.

    ** Not modelled

    Of these programs: the Windows and the 32-bit variants of the coroutines
    and of c_try_catch; the templates of swissmap/main.cc; the helper for a
    debugger in t.c; the insides of protobuf-c (packing and unpacking are
    parameters; the memory an unpacked message takes is not counted); a SIGPIPE when a client closes early; the logarithm of the C
    library used by natconv.c (a parameter); formatting by [printf] (the printed
    values are kept instead).  Texts of numbers of more than 129 words are
    modelled, but not proved: their squares and quotients are computed by the
    code that relies on [addVW].  Of the repository: cgo.c and the build
    demonstrations, of a few lines each; generated code; the C++ demonstrations
    of modules, gtest and gRPC; Go, Python and assembly. *)

From Stdlib Require Export ZArith Lia.
From stdpp Require Export prelude list gmap.

#[global] Open Scope Z_scope.

(** ** Results of C code

    A C operation either yields a value or runs into one of the errors below,
    which is also what undefined behaviour is. *)

Inductive error : Type :=
  | AssertFail    (* an [assert] of the source does not hold *)
  | OutOfBounds   (* an access outside every live object *)
  | NullDeref     (* an access through a null pointer *)
  | BadFree       (* [free] of something that is not the start of a live block *)
  | Uninit        (* a read of an indeterminate value *)
  | DivByZero     (* a division by zero *)
  | BadShift      (* a shift by at least the width of the word *)
  | IntOverflow   (* an overflow of a signed integer *)
  | OutOfFuel.    (* the bound chosen for a loop was too small *)

#[export] Instance error_eq_dec : EqDecision error.
Proof. solve_decision. Defined.

Inductive res (A : Type) : Type :=
  | OK (a : A)
  | Er (e : error).
Arguments OK {A} a.
Arguments Er {A} e.

Definition res_bind {A B} (r : res A) (f : A -> res B) : res B :=
  match r with
  | OK a => f a
  | Er e => Er e
  end.

Definition res_assert (b : bool) : res unit := if b then OK tt else Er AssertFail.

Declare Scope res_scope.
Delimit Scope res_scope with res.
Notation "'let?' x := r 'in' k" := (res_bind r (fun x => k))
  (at level 10, x binder, r at level 100, k at level 200) : res_scope.
Notation "'let?' ( x , y ) := r 'in' k" := (res_bind r (fun '(x, y) => k))
  (at level 10, x name, y name, r at level 100, k at level 200) : res_scope.

#[export] Instance res_eq_dec {A} `{EqDecision A} : EqDecision (res A).
Proof. solve_decision. Defined.

Lemma res_bind_ret {A B} (a : A) (f : A -> res B) : res_bind (OK a) f = f a.
Proof. reflexivity. Qed.

Lemma res_assert_true (b : bool) : b = true -> res_assert b = OK tt.
Proof. intros ->. reflexivity. Qed.

Lemma res_bind_OK {A B} (r : res A) (f : A -> res B) b :
  res_bind r f = OK b -> exists a, r = OK a /\ f a = OK b.
Proof. destruct r; simpl; [eauto | discriminate]. Qed.

(** ** Automation *)

Create HintDb cword discriminated.

(** Splits the boolean comparisons of the goal and of the hypotheses into the
    arithmetic facts they decide. *)
Ltac bool_to_prop :=
  repeat match goal with
  | H : context [andb _ _ = true] |- _ => rewrite andb_true_iff in H
  | H : context [orb _ _ = true] |- _ => rewrite orb_true_iff in H
  | H : context [orb _ _ = false] |- _ => rewrite orb_false_iff in H
  | H : context [negb _ = true] |- _ => rewrite negb_true_iff in H
  | H : context [negb _ = false] |- _ => rewrite negb_false_iff in H
  | H : (_ <? _) = true |- _ => apply Z.ltb_lt in H
  | H : (_ <? _) = false |- _ => apply Z.ltb_ge in H
  | H : (_ <=? _) = true |- _ => apply Z.leb_le in H
  | H : (_ <=? _) = false |- _ => apply Z.leb_gt in H
  | H : (_ =? _) = true |- _ => apply Z.eqb_eq in H
  | H : (_ =? _) = false |- _ => apply Z.eqb_neq in H
  | H : (_ >=? _) = _ |- _ => rewrite Z.geb_leb in H
  | H : (_ >? _) = _ |- _ => rewrite Z.gtb_ltb in H
  | H : _ /\ _ |- _ => destruct H
  end.

(** Case analysis on the first [if] of the goal, the condition being turned
    into arithmetic. *)
Ltac case_if :=
  match goal with
  | |- context [if ?b then _ else _] =>
      let H := fresh "Hif" in destruct b eqn:H; bool_to_prop
  end.

(** ** Integers *)

Lemma div_unique_range (a b q : Z) : 0 < b -> 0 <= a - q * b < b -> a / b = q.
Proof. intros Hb Ha. symmetry. apply (Z.div_unique_pos a b q (a - q * b)); lia. Qed.

Lemma mod_unique_range (a b q : Z) : 0 < b -> 0 <= a - q * b < b -> a mod b = a - q * b.
Proof. intros Hb Ha. symmetry. apply (Z.mod_unique_pos a b q (a - q * b)); lia. Qed.

Lemma mod_sub_once (a m : Z) : 0 < m -> m <= a < 2 * m -> a mod m = a - m.
Proof. intros. rewrite (mod_unique_range a m 1); lia. Qed.

Lemma mod_add_once (a m : Z) : 0 < m -> - m <= a < 0 -> a mod m = a + m.
Proof. intros. rewrite (mod_unique_range a m (-1)); lia. Qed.

Lemma mul_range (a c m n : Z) : 0 <= a < m -> 0 <= c < n -> 0 <= a * c < m * n.
Proof. intros. split; [apply Z.mul_nonneg_nonneg; lia|apply Z.mul_lt_mono_nonneg; lia]. Qed.

Lemma mul_range_le (a c m n : Z) : 0 <= a <= m -> 0 <= c <= n -> 0 <= a * c <= m * n.
Proof. intros. split; [apply Z.mul_nonneg_nonneg; lia|apply Z.mul_le_mono_nonneg; lia]. Qed.

(** A bitwise or of a multiple of [2^k] and a number below [2^k] is a sum. *)
Lemma lor_shifted_add (a b k : Z) :
  0 <= k -> 0 <= b < 2 ^ k -> Z.lor (a * 2 ^ k) b = a * 2 ^ k + b.
Proof.
  intros Hk Hb. pose proof (Z.add_lor_land (a * 2 ^ k) b) as He.
  enough (Z.land (a * 2 ^ k) b = 0) by lia.
  apply Z.bits_inj'. intros n Hn. rewrite Z.land_spec, Z.bits_0.
  destruct (Z.ltb_spec n k).
  - rewrite Z.mul_pow2_bits_low by lia. done.
  - rewrite <- (Z.mod_small b (2 ^ k)), Z.mod_pow2_bits_high by lia.
    apply andb_false_r.
Qed.

(** A mask of low bits, and the test for one *)
Lemma land_mask (k x : Z) : 0 <= k -> Z.land x (2 ^ k - 1) = x mod 2 ^ k.
Proof. intros Hk. replace (2 ^ k - 1) with (Z.ones k) by (rewrite Z.ones_equiv; lia). by apply Z.land_ones. Qed.

Lemma land_mask_small (k x : Z) : 0 <= k -> 0 <= x <= 2 ^ k - 1 -> Z.land x (2 ^ k - 1) = x.
Proof. intros Hk Hx. rewrite land_mask by done. apply Z.mod_small. lia. Qed.

Lemma land_pow_mask (k : Z) : 0 <= k -> Z.land (2 ^ k) (2 ^ k - 1) = 0.
Proof. intros Hk. rewrite land_mask by done. apply Z.mod_same. lia. Qed.

(** The most significant bit of a [w]-bit number. *)
Lemma testbit_top (w x : Z) :
  0 < w -> 0 <= x < 2 ^ w -> Z.testbit x (w - 1) = (2 ^ (w - 1) <=? x).
Proof.
  intros Hw Hx. assert (2 ^ w = 2 * 2 ^ (w - 1)) as Hp.
  { rewrite <- Z.pow_succ_r by lia. f_equal. lia. }
  assert (0 < 2 ^ (w - 1)) by (apply Z.pow_pos_nonneg; lia).
  rewrite Z.testbit_eqb by lia.
  destruct (Z.leb_spec (2 ^ (w - 1)) x).
  - rewrite (div_unique_range x (2 ^ (w - 1)) 1) by lia. done.
  - rewrite Z.div_small by lia. done.
Qed.

Lemma land_bit v k : 0 <= k -> (Z.land v (2 ^ k) =? 0) = negb (Z.testbit v k).
Proof.
  intros Hk. destruct (Z.testbit v k) eqn:Hb; cbn [negb].
  - apply Z.eqb_neq. intros H0. apply (f_equal (fun z => Z.testbit z k)) in H0.
    rewrite Z.land_spec, Hb, Z.pow2_bits_true, Z.bits_0 in H0 by done. done.
  - apply Z.eqb_eq, Z.bits_inj'. intros i Hi. rewrite Z.land_spec, Z.bits_0, Z.pow2_bits_eqb by done.
    destruct (Z.eqb_spec k i) as [->|]; [by rewrite Hb|apply andb_false_r].
Qed.

(** One bit more of a prefix *)
Lemma shiftr_bit y k : 0 <= k -> Z.shiftr y k = 2 * Z.shiftr y (k + 1) + Z.b2z (Z.testbit y k).
Proof.
  intros Hk. rewrite (Z.div2_odd (Z.shiftr y k)) at 1. rewrite Z.div2_spec, Z.shiftr_shiftr by lia.
  rewrite <- Z.bit0_odd, Z.shiftr_spec by lia. by rewrite Z.add_0_l.
Qed.

Lemma shiftr_top (w e : Z) :
  0 < w -> 0 <= e < 2 ^ w -> Z.shiftr e (w - 1) = Z.b2z (Z.testbit e (w - 1)).
Proof.
  intros Hw He. assert (2 ^ w = 2 * 2 ^ (w - 1)) as Hp.
  { rewrite <- Z.pow_succ_r by lia. f_equal. lia. }
  assert (0 < 2 ^ (w - 1)) by (apply Z.pow_pos_nonneg; lia).
  rewrite testbit_top, Z.shiftr_div_pow2 by lia.
  destruct (Z.leb_spec (2 ^ (w - 1)) e); simpl.
  - apply div_unique_range; lia.
  - apply Z.div_small; lia.
Qed.

Lemma lor_range (w x y : Z) :
  0 <= w -> 0 <= x < 2 ^ w -> 0 <= y < 2 ^ w -> 0 <= Z.lor x y < 2 ^ w.
Proof.
  intros Hw Hx Hy. split; [apply Z.lor_nonneg; lia|].
  destruct (Z.eq_dec (Z.lor x y) 0) as [->|]; [apply Z.pow_pos_nonneg; lia|].
  assert (0 <= Z.lor x y) by (apply Z.lor_nonneg; lia).
  apply Z.log2_lt_pow2; [lia|]. rewrite Z.log2_lor by lia.
  apply Z.max_lub_lt.
  - destruct (Z.eq_dec x 0) as [->|]; [|apply Z.log2_lt_pow2; lia].
    destruct (Z.eq_dec w 0) as [->|]; [|simpl; lia].
    change (2 ^ 0) with 1 in *. assert (y = 0) as -> by lia. done.
  - destruct (Z.eq_dec y 0) as [->|]; [|apply Z.log2_lt_pow2; lia].
    destruct (Z.eq_dec w 0) as [->|]; [|simpl; lia].
    change (2 ^ 0) with 1 in *. assert (x = 0) as -> by lia. done.
Qed.

Lemma land_range (w x y : Z) :
  0 <= w -> 0 <= x < 2 ^ w -> 0 <= y < 2 ^ w -> 0 <= Z.land x y < 2 ^ w.
Proof.
  intros Hw Hx Hy. assert (0 <= Z.land x y) by (apply Z.land_nonneg; lia).
  split; [done|]. destruct (Z.eq_dec (Z.land x y) 0) as [->|]; [lia|].
  apply Z.log2_lt_pow2; [lia|].
  assert (x <> 0) by (intros ->; rewrite Z.land_0_l in *; lia).
  assert (y <> 0) by (intros ->; rewrite Z.land_0_r in *; lia).
  assert (Z.log2 x < w) by (apply Z.log2_lt_pow2; lia).
  pose proof (Z.log2_land x y). lia.
Qed.

#[export] Hint Resolve lor_range land_range : cword.

(** ** Sums over lists *)

Fixpoint zsum {A} (f : A -> Z) (l : list A) : Z :=
  match l with [] => 0 | a :: l => f a + zsum f l end.

Section zsum.
Context {A : Type} (f : A -> Z).

Lemma zsum_app l1 l2 : zsum f (l1 ++ l2) = zsum f l1 + zsum f l2.
Proof. induction l1; simpl; lia. Qed.

Lemma zsum_replicate n a : f a = 0 -> zsum f (replicate n a) = 0.
Proof. intros Ha. induction n; simpl; lia. Qed.

Lemma zsum_insert l i a b : l !! i = Some a -> zsum f (<[i:=b]> l) = zsum f l - f a + f b.
Proof.
  revert i. induction l as [|c l IH]; intros [|i]; simpl; intros Hi; try done.
  - injection Hi as ->. lia.
  - rewrite (IH i Hi). lia.
Qed.

Lemma zsum_nonneg l : (forall a, a ∈ l -> 0 <= f a) -> 0 <= zsum f l.
Proof.
  induction l as [|a l IH]; simpl; [lia|]. intros H.
  assert (0 <= f a) by (apply H; set_solver).
  assert (0 <= zsum f l) by (apply IH; set_solver). lia.
Qed.

Lemma zsum_member l i a :
  l !! i = Some a -> (forall a, a ∈ l -> 0 <= f a) -> f a <= zsum f l.
Proof.
  revert i. induction l as [|c l IH]; intros [|i] Hi H; simpl in *; try done.
  - injection Hi as ->. assert (0 <= zsum f l) by (apply zsum_nonneg; set_solver). lia.
  - assert (0 <= f c) by (apply H; set_solver).
    specialize (IH i Hi ltac:(set_solver)). lia.
Qed.

Lemma zsum_bound l c : (forall a, a ∈ l -> f a <= c) -> zsum f l <= c * Z.of_nat (length l).
Proof.
  induction l as [|a l IH]; intros H; [simpl; lia|].
  cbn [zsum length]. assert (f a <= c) by (apply H; set_solver).
  specialize (IH ltac:(set_solver)). lia.
Qed.
End zsum.
