(* ===== verification/Words.v ===== *)
(** * Machine words and the word primitives of [cmake/bigint/src/base.c]

    Unsigned C integers of [w] bits are the [Z] in [0, 2^w); every operation
    that can leave the range wraps explicitly.  The functions of base.c keep
    their names; an [uint64_t*] out-parameter becomes a second component of
    the result.  Table lookups and [assert]s make a function return [res]. *)

From S2P Require Import Prelude.

Local Open Scope Z_scope.
Local Open Scope res_scope.

(** ** Unsigned arithmetic at width [w] *)

Definition wrap (w x : Z) : Z := x mod 2 ^ w.
Definition w_not (w x : Z) : Z := wrap w (Z.lnot x).
Definition w_neg (w x : Z) : Z := wrap w (- x).
Definition w_shl (w x s : Z) : Z := wrap w (Z.shiftl x s).
Abbreviation u8 := (wrap 8).
Abbreviation u16 := (wrap 16).
Abbreviation u32 := (wrap 32).
Abbreviation u64 := (wrap 64).

(** [word w x]: [x] is a value of an unsigned integer type of [w] bits. *)
Definition word (w x : Z) : Prop := 0 <= x < 2 ^ w.

(** The largest [int] *)
Definition INT_MAX : Z := 2 ^ 31 - 1.

(** Reading a constant table; reading past its end is an error. *)
Definition tab_get (t : list Z) (i : Z) : res Z :=
  if (0 <=? i) && (i <? Z.of_nat (length t))
  then OK (t !!! Z.to_nat i) else Er OutOfBounds.

(** The tables are string literals, so each has a terminating zero. *)

Definition ntz8tab : list Z := [
  8; 0; 1; 0; 2; 0; 1; 0; 3; 0; 1; 0; 2; 0; 1; 0;
  4; 0; 1; 0; 2; 0; 1; 0; 3; 0; 1; 0; 2; 0; 1; 0;
  5; 0; 1; 0; 2; 0; 1; 0; 3; 0; 1; 0; 2; 0; 1; 0;
  4; 0; 1; 0; 2; 0; 1; 0; 3; 0; 1; 0; 2; 0; 1; 0;
  6; 0; 1; 0; 2; 0; 1; 0; 3; 0; 1; 0; 2; 0; 1; 0;
  4; 0; 1; 0; 2; 0; 1; 0; 3; 0; 1; 0; 2; 0; 1; 0;
  5; 0; 1; 0; 2; 0; 1; 0; 3; 0; 1; 0; 2; 0; 1; 0;
  4; 0; 1; 0; 2; 0; 1; 0; 3; 0; 1; 0; 2; 0; 1; 0;
  7; 0; 1; 0; 2; 0; 1; 0; 3; 0; 1; 0; 2; 0; 1; 0;
  4; 0; 1; 0; 2; 0; 1; 0; 3; 0; 1; 0; 2; 0; 1; 0;
  5; 0; 1; 0; 2; 0; 1; 0; 3; 0; 1; 0; 2; 0; 1; 0;
  4; 0; 1; 0; 2; 0; 1; 0; 3; 0; 1; 0; 2; 0; 1; 0;
  6; 0; 1; 0; 2; 0; 1; 0; 3; 0; 1; 0; 2; 0; 1; 0;
  4; 0; 1; 0; 2; 0; 1; 0; 3; 0; 1; 0; 2; 0; 1; 0;
  5; 0; 1; 0; 2; 0; 1; 0; 3; 0; 1; 0; 2; 0; 1; 0;
  4; 0; 1; 0; 2; 0; 1; 0; 3; 0; 1; 0; 2; 0; 1; 0;
  0
].

Definition pop8tab : list Z := [
  0; 1; 1; 2; 1; 2; 2; 3; 1; 2; 2; 3; 2; 3; 3; 4;
  1; 2; 2; 3; 2; 3; 3; 4; 2; 3; 3; 4; 3; 4; 4; 5;
  1; 2; 2; 3; 2; 3; 3; 4; 2; 3; 3; 4; 3; 4; 4; 5;
  2; 3; 3; 4; 3; 4; 4; 5; 3; 4; 4; 5; 4; 5; 5; 6;
  1; 2; 2; 3; 2; 3; 3; 4; 2; 3; 3; 4; 3; 4; 4; 5;
  2; 3; 3; 4; 3; 4; 4; 5; 3; 4; 4; 5; 4; 5; 5; 6;
  2; 3; 3; 4; 3; 4; 4; 5; 3; 4; 4; 5; 4; 5; 5; 6;
  3; 4; 4; 5; 4; 5; 5; 6; 4; 5; 5; 6; 5; 6; 6; 7;
  1; 2; 2; 3; 2; 3; 3; 4; 2; 3; 3; 4; 3; 4; 4; 5;
  2; 3; 3; 4; 3; 4; 4; 5; 3; 4; 4; 5; 4; 5; 5; 6;
  2; 3; 3; 4; 3; 4; 4; 5; 3; 4; 4; 5; 4; 5; 5; 6;
  3; 4; 4; 5; 4; 5; 5; 6; 4; 5; 5; 6; 5; 6; 6; 7;
  2; 3; 3; 4; 3; 4; 4; 5; 3; 4; 4; 5; 4; 5; 5; 6;
  3; 4; 4; 5; 4; 5; 5; 6; 4; 5; 5; 6; 5; 6; 6; 7;
  3; 4; 4; 5; 4; 5; 5; 6; 4; 5; 5; 6; 5; 6; 6; 7;
  4; 5; 5; 6; 5; 6; 6; 7; 5; 6; 6; 7; 6; 7; 7; 8;
  0
].

Definition rev8tab : list Z := [
  0; 128; 64; 192; 32; 160; 96; 224; 16; 144; 80; 208; 48; 176; 112; 240;
  8; 136; 72; 200; 40; 168; 104; 232; 24; 152; 88; 216; 56; 184; 120; 248;
  4; 132; 68; 196; 36; 164; 100; 228; 20; 148; 84; 212; 52; 180; 116; 244;
  12; 140; 76; 204; 44; 172; 108; 236; 28; 156; 92; 220; 60; 188; 124; 252;
  2; 130; 66; 194; 34; 162; 98; 226; 18; 146; 82; 210; 50; 178; 114; 242;
  10; 138; 74; 202; 42; 170; 106; 234; 26; 154; 90; 218; 58; 186; 122; 250;
  6; 134; 70; 198; 38; 166; 102; 230; 22; 150; 86; 214; 54; 182; 118; 246;
  14; 142; 78; 206; 46; 174; 110; 238; 30; 158; 94; 222; 62; 190; 126; 254;
  1; 129; 65; 193; 33; 161; 97; 225; 17; 145; 81; 209; 49; 177; 113; 241;
  9; 137; 73; 201; 41; 169; 105; 233; 25; 153; 89; 217; 57; 185; 121; 249;
  5; 133; 69; 197; 37; 165; 101; 229; 21; 149; 85; 213; 53; 181; 117; 245;
  13; 141; 77; 205; 45; 173; 109; 237; 29; 157; 93; 221; 61; 189; 125; 253;
  3; 131; 67; 195; 35; 163; 99; 227; 19; 147; 83; 211; 51; 179; 115; 243;
  11; 139; 75; 203; 43; 171; 107; 235; 27; 155; 91; 219; 59; 187; 123; 251;
  7; 135; 71; 199; 39; 167; 103; 231; 23; 151; 87; 215; 55; 183; 119; 247;
  15; 143; 79; 207; 47; 175; 111; 239; 31; 159; 95; 223; 63; 191; 127; 255;
  0
].

Definition len8tab : list Z := [
  0; 1; 2; 2; 3; 3; 3; 3; 4; 4; 4; 4; 4; 4; 4; 4;
  5; 5; 5; 5; 5; 5; 5; 5; 5; 5; 5; 5; 5; 5; 5; 5;
  6; 6; 6; 6; 6; 6; 6; 6; 6; 6; 6; 6; 6; 6; 6; 6;
  6; 6; 6; 6; 6; 6; 6; 6; 6; 6; 6; 6; 6; 6; 6; 6;
  7; 7; 7; 7; 7; 7; 7; 7; 7; 7; 7; 7; 7; 7; 7; 7;
  7; 7; 7; 7; 7; 7; 7; 7; 7; 7; 7; 7; 7; 7; 7; 7;
  7; 7; 7; 7; 7; 7; 7; 7; 7; 7; 7; 7; 7; 7; 7; 7;
  7; 7; 7; 7; 7; 7; 7; 7; 7; 7; 7; 7; 7; 7; 7; 7;
  8; 8; 8; 8; 8; 8; 8; 8; 8; 8; 8; 8; 8; 8; 8; 8;
  8; 8; 8; 8; 8; 8; 8; 8; 8; 8; 8; 8; 8; 8; 8; 8;
  8; 8; 8; 8; 8; 8; 8; 8; 8; 8; 8; 8; 8; 8; 8; 8;
  8; 8; 8; 8; 8; 8; 8; 8; 8; 8; 8; 8; 8; 8; 8; 8;
  8; 8; 8; 8; 8; 8; 8; 8; 8; 8; 8; 8; 8; 8; 8; 8;
  8; 8; 8; 8; 8; 8; 8; 8; 8; 8; 8; 8; 8; 8; 8; 8;
  8; 8; 8; 8; 8; 8; 8; 8; 8; 8; 8; 8; 8; 8; 8; 8;
  8; 8; 8; 8; 8; 8; 8; 8; 8; 8; 8; 8; 8; 8; 8; 8;
  0
].

(** ** Bit lengths *)

Definition Len8 (x : Z) : res Z := tab_get len8tab x.

Definition Len16 (x : Z) : res Z :=
  let '(x, n) := if 2 ^ 8 <=? x then (Z.shiftr x 8, 8) else (x, 0) in
  let? l := tab_get len8tab x in OK (n + l).

Definition Len32 (x : Z) : res Z :=
  let '(x, n) := if 2 ^ 16 <=? x then (Z.shiftr x 16, 16) else (x, 0) in
  let '(x, n) := if 2 ^ 8 <=? x then (Z.shiftr x 8, n + 8) else (x, n) in
  let? l := tab_get len8tab x in OK (n + l).

Definition Len64 (x : Z) : res Z :=
  let '(x, n) := if 2 ^ 32 <=? x then (Z.shiftr x 32, 32) else (x, 0) in
  let '(x, n) := if 2 ^ 16 <=? x then (Z.shiftr x 16, n + 16) else (x, n) in
  let '(x, n) := if 2 ^ 8 <=? x then (Z.shiftr x 8, n + 8) else (x, n) in
  let? l := tab_get len8tab x in OK (n + l).

Definition LeadingZeros8 (x : Z) : res Z := let? l := Len8 x in OK (8 - l).
Definition LeadingZeros16 (x : Z) : res Z := let? l := Len16 x in OK (16 - l).
Definition LeadingZeros32 (x : Z) : res Z := let? l := Len32 x in OK (32 - l).
Definition LeadingZeros64 (x : Z) : res Z := let? l := Len64 x in OK (64 - l).

Definition deBruijn32 : Z := 0x077CB531.
Definition deBruijn32tab : list Z := [
  0; 1; 28; 2; 29; 14; 24; 3; 30; 22; 20; 15; 25; 17; 4; 8;
  31; 27; 13; 23; 21; 19; 16; 7; 26; 12; 18; 6; 11; 5; 10; 9
].
Definition deBruijn64 : Z := 0x03f79d71b4ca8b09.
Definition deBruijn64tab : list Z := [
  0; 1; 56; 2; 57; 49; 28; 3; 61; 58; 42; 50; 38; 29; 17; 4;
  62; 47; 59; 36; 45; 43; 51; 22; 53; 39; 33; 30; 24; 18; 12; 5;
  63; 55; 48; 27; 60; 41; 37; 16; 46; 35; 44; 21; 52; 32; 23; 11;
  54; 26; 40; 15; 34; 20; 31; 10; 25; 14; 19; 9; 13; 8; 7; 6
].

Definition TrailingZeros8 (x : Z) : res Z := tab_get ntz8tab x.

(** [deBruijn32] is declared [uint64_t], so the product below is a 64-bit
    product: it is not reduced modulo [2^32] before the shift. *)
Definition TrailingZeros16 (x : Z) : res Z :=
  if x =? 0 then OK 16
  else tab_get deBruijn32tab
         (Z.shiftr (u64 (Z.land x (w_neg 32 x) * deBruijn32)) (32 - 5)).

Definition TrailingZeros32 (x : Z) : res Z :=
  if x =? 0 then OK 32
  else tab_get deBruijn32tab
         (Z.shiftr (u64 (Z.land x (w_neg 32 x) * deBruijn32)) (32 - 5)).

Definition TrailingZeros64 (x : Z) : res Z :=
  if x =? 0 then OK 64
  else tab_get deBruijn64tab
         (Z.shiftr (u64 (Z.land x (w_neg 64 x) * deBruijn64)) (64 - 6)).

(** ** Addition and subtraction with carry *)

Definition U32Add (x y carray : Z) : Z * Z :=
  let sum64 := u64 (x + y) in
  let sum64 := u64 (sum64 + carray) in
  (u32 sum64, u32 (Z.shiftr sum64 32)).

Definition U64Add (x y carray : Z) : Z * Z :=
  let sum := u64 (x + y + carray) in
  (sum, Z.shiftr (Z.lor (Z.land x y) (Z.land (Z.lor x y) (w_not 64 sum))) 63).

Definition U32Sub (a b borrow : Z) : Z * Z :=
  let diff := u32 (a - b - borrow) in
  (diff, Z.shiftr (Z.lor (Z.land (w_not 32 a) b)
                         (Z.land (w_not 32 (Z.lxor a b)) diff)) 31).

Definition U64Sub (x y borrow : Z) : Z * Z :=
  let diff := u64 (x - y - borrow) in
  (diff, Z.shiftr (Z.lor (Z.land (w_not 64 x) y)
                         (Z.land (w_not 64 (Z.lxor x y)) diff)) 63).

(** ** Multiplication: the low word, then the high word *)

Definition U32Mul (x y : Z) : Z * Z :=
  let tmp := u64 (x * y) in
  (u32 tmp, u32 (Z.shiftr tmp 32)).

Definition U64Mul (x y : Z) : Z * Z :=
  let mask32 := u64 (Z.shiftl 1 32) - 1 in
  let x0 := Z.land x mask32 in
  let x1 := Z.shiftr x 32 in
  let y0 := Z.land y mask32 in
  let y1 := Z.shiftr y 32 in
  let w0 := u64 (x0 * y0) in
  let t := u64 (u64 (x1 * y0) + Z.shiftr w0 32) in
  let w1 := Z.land t mask32 in
  let w2 := Z.shiftr t 32 in
  let w1 := u64 (w1 + u64 (x0 * y1)) in
  let hi := u64 (u64 (u64 (x1 * y1) + w2) + Z.shiftr w1 32) in
  (u64 (x * y), hi).

(** ** Division of a double word: the quotient, then the remainder *)

Definition U32Div (hi lo y : Z) : res (Z * Z) :=
  let? _ := res_assert (negb (y =? 0)) in
  let? _ := res_assert (hi <? y) in
  let z := Z.lor (u64 (Z.shiftl hi 32)) lo in
  OK (u32 (z / y), u32 (z mod y)).

Definition two32 : Z := 2 ^ 32.
Definition mask32 : Z := two32 - 1.

(** The two [while] loops of [U64Div] have the same body: decrement the
    estimate [q] until [q * yn0 <= two32 * rhat + un].  [rhat] grows by
    [yn1 >= 2^31] per round, so three rounds always suffice. *)
Fixpoint div_adjust (fuel : nat) (q rhat yn1 yn0 un : Z) : res (Z * Z) :=
  match fuel with
  | O => Er OutOfFuel
  | S fuel =>
      if (two32 <=? q) || (u64 (u64 (two32 * rhat) + un) <? u64 (q * yn0)) then
        let q := u64 (q - 1) in
        let rhat := u64 (rhat + yn1) in
        if two32 <=? rhat then OK (q, rhat)
        else div_adjust fuel q rhat yn1 yn0 un
      else OK (q, rhat)
  end.

Definition div_fuel : nat := 3.

Definition U64Div (hi lo y : Z) : res (Z * Z) :=
  let? _ := res_assert (negb (y =? 0)) in
  let? _ := res_assert (hi <? y) in
  if hi =? 0 then OK (lo / y, lo mod y) else
  let? s := LeadingZeros64 y in
  let s := u32 s in
  let y := w_shl 64 y s in
  let yn1 := Z.shiftr y 32 in
  let yn0 := Z.land y mask32 in
  let un32 := w_shl 64 hi s in
  let un32 := if negb (s =? 0) then Z.lor un32 (Z.shiftr lo (64 - s)) else un32 in
  let un10 := if s <? 64 then w_shl 64 lo s else 0 in
  let un1 := Z.shiftr un10 32 in
  let un0 := Z.land un10 mask32 in
  if yn1 =? 0 then Er DivByZero else
  let q1 := un32 / yn1 in
  let rhat := u64 (un32 - q1 * yn1) in
  let? (q1, rhat) := div_adjust div_fuel q1 rhat yn1 yn0 un1 in
  let un21 := u64 (un32 * two32 + un1 - q1 * y) in
  let q0 := un21 / yn1 in
  let rhat := u64 (un21 - q0 * yn1) in
  let? (q0, rhat) := div_adjust div_fuel q0 rhat yn1 yn0 un0 in
  OK (u64 (q1 * two32 + q0), Z.shiftr (u64 (un21 * two32 + un0 - q0 * y)) s).

Definition U32Rem (hi lo y : Z) : res Z :=
  let? (_, rem) := U32Div hi lo y in OK rem.

Definition U64Rem (hi lo y : Z) : res Z :=
  let? (_, rem) := U64Div hi lo y in OK rem.

(** ** The native word

    [UintSize] is the width of [size_t]: 32 or 64 bits, by target. *)

Class Target := { UintSize : Z; UintSize_cases : UintSize = 32 \/ UintSize = 64 }.

Definition target64 : Target := {| UintSize := 64; UintSize_cases := or_intror eq_refl |}.
Definition target32 : Target := {| UintSize := 32; UintSize_cases := or_introl eq_refl |}.

Section native.
Context `{T : Target}.

Definition Len (x : Z) : res Z :=
  if UintSize =? 32 then Len32 (u32 x) else Len64 x.

Definition LeadingZeros (x : Z) : res Z := let? l := Len x in OK (UintSize - l).

Definition TrailingZeros (x : Z) : res Z :=
  if UintSize =? 32 then TrailingZeros32 (u32 x) else TrailingZeros64 x.

Definition UIntAdd (x y carry : Z) : Z * Z :=
  if UintSize =? 32 then U32Add (u32 x) (u32 y) (u32 carry) else U64Add x y carry.

Definition UIntSub (x y borrow : Z) : Z * Z :=
  if UintSize =? 32 then U32Sub (u32 x) (u32 y) (u32 borrow) else U64Sub x y borrow.

Definition UIntMul (x y : Z) : Z * Z :=
  if UintSize =? 32 then U32Mul (u32 x) (u32 y) else U64Mul x y.

Definition UIntDiv (hi lo y : Z) : res (Z * Z) :=
  if UintSize =? 32 then U32Div (u32 hi) (u32 lo) (u32 y) else U64Div hi lo y.

Definition UIntRem (hi lo y : Z) : res Z :=
  if UintSize =? 32 then U32Rem (u32 hi) (u32 lo) (u32 y) else U64Rem hi lo y.

End native.

(** ** Ranges *)

Lemma pow2_pos (w : Z) : 0 <= w -> 0 < 2 ^ w.
Proof. intros. apply Z.pow_pos_nonneg; lia. Qed.

Lemma pow2_top (w : Z) : 0 < w -> 2 ^ w = 2 * 2 ^ (w - 1).
Proof. intros. rewrite <- Z.pow_succ_r by lia. f_equal. lia. Qed.

Lemma wrap_word (w x : Z) : 0 <= w -> word w (wrap w x).
Proof. intros. apply Z.mod_pos_bound, pow2_pos. done. Qed.

Lemma wrap_small (w x : Z) : word w x -> wrap w x = x.
Proof. intros. apply Z.mod_small. done. Qed.

#[export] Hint Resolve wrap_word : cword.

Lemma w_not_eq (w x : Z) : 0 <= w -> word w x -> w_not w x = 2 ^ w - 1 - x.
Proof.
  intros Hw Hx. unfold w_not, wrap, Z.lnot. unfold word in *.
  rewrite (mod_unique_range _ _ (-1)); lia.
Qed.

Lemma shiftr_word (w x s : Z) : 0 <= w -> 0 <= s -> word w x -> word w (Z.shiftr x s).
Proof.
  unfold word. intros. rewrite Z.shiftr_div_pow2 by lia.
  pose proof (pow2_pos s). split; [apply Z.div_pos; lia|].
  apply Z.le_lt_trans with x; [|lia]. apply Z.div_le_upper_bound; nia.
Qed.

(** ** Carry and borrow bits *)

Lemma carry_bit (w x y c : Z) :
  0 < w -> word w x -> word w y -> 0 <= c <= 1 ->
  Z.shiftr (Z.lor (Z.land x y) (Z.land (Z.lor x y) (w_not w (wrap w (x + y + c))))) (w - 1)
  = (x + y + c) / 2 ^ w.
Proof.
  intros Hw Hx Hy Hc. pose proof (pow2_top w Hw) as Hp. pose proof (pow2_pos (w - 1)).
  assert (word w (wrap w (x + y + c))) as Hs by (apply wrap_word; lia).
  rewrite w_not_eq by (done || lia). set (s := wrap w (x + y + c)) in *.
  unfold word in *.
  assert (s = x + y + c - 2 ^ w * ((x + y + c) / 2 ^ w)) as Heq by (apply Z.mod_eq; lia).
  assert (0 <= (x + y + c) / 2 ^ w <= 1) as Hq.
  { split; [apply Z.div_pos; lia|]. apply Z.lt_succ_r, Z.div_lt_upper_bound; lia. }
  rewrite shiftr_top; [|lia|].
  2: { apply lor_range; [lia|apply land_range; lia|].
       apply land_range; [lia|apply lor_range; lia|lia]. }
  rewrite Z.lor_spec, !Z.land_spec, Z.lor_spec, !testbit_top by lia.
  set (q := (x + y + c) / 2 ^ w) in *. clearbody q s.
  destruct (Z.leb_spec (2 ^ (w - 1)) x), (Z.leb_spec (2 ^ (w - 1)) y),
    (Z.leb_spec (2 ^ (w - 1)) (2 ^ w - 1 - s)); simpl; nia.
Qed.

Lemma lxor_word (w x y : Z) : 0 <= w -> word w x -> word w y -> word w (Z.lxor x y).
Proof.
  unfold word. intros. split; [apply Z.lxor_nonneg; lia|].
  rewrite <- Z.sub_lor_land. pose proof (lor_range w x y). pose proof (land_range w x y). lia.
Qed.

Lemma borrow_bit (w x y b : Z) :
  0 < w -> word w x -> word w y -> 0 <= b <= 1 ->
  Z.shiftr (Z.lor (Z.land (w_not w x) y)
                  (Z.land (w_not w (Z.lxor x y)) (wrap w (x - y - b)))) (w - 1)
  = - ((x - y - b) / 2 ^ w).
Proof.
  intros Hw Hx Hy Hb. pose proof (pow2_top w Hw) as Hp. pose proof (pow2_pos (w - 1)).
  assert (word w (wrap w (x - y - b))) as Hs by (apply wrap_word; lia).
  assert (word w (Z.lxor x y)) as Hxy by (apply lxor_word; done || lia).
  rewrite !w_not_eq by (done || lia). set (d := wrap w (x - y - b)) in *.
  unfold word in *.
  assert (d = x - y - b - 2 ^ w * ((x - y - b) / 2 ^ w)) as Heq by (apply Z.mod_eq; lia).
  assert (-1 <= (x - y - b) / 2 ^ w <= 0) as Hq.
  { split; [apply Z.div_le_lower_bound; lia|].
    apply Z.lt_succ_r, Z.div_lt_upper_bound; lia. }
  rewrite shiftr_top; [|lia|].
  2: { apply lor_range; [lia|apply land_range; lia|apply land_range; lia]. }
  rewrite Z.lor_spec, !Z.land_spec.
  rewrite (testbit_top w (2 ^ w - 1 - Z.lxor x y)) by lia.
  assert ((2 ^ (w - 1) <=? 2 ^ w - 1 - Z.lxor x y) = negb (Z.testbit (Z.lxor x y) (w - 1)))
    as ->.
  { rewrite testbit_top by lia. destruct (Z.leb_spec (2 ^ (w - 1)) (Z.lxor x y)),
      (Z.leb_spec (2 ^ (w - 1)) (2 ^ w - 1 - Z.lxor x y)); simpl; lia || done. }
  rewrite Z.lxor_spec, !testbit_top by lia.
  set (q := (x - y - b) / 2 ^ w) in *. clearbody q d.
  destruct (Z.leb_spec (2 ^ (w - 1)) x), (Z.leb_spec (2 ^ (w - 1)) y),
    (Z.leb_spec (2 ^ (w - 1)) d), (Z.leb_spec (2 ^ (w - 1)) (2 ^ w - 1 - x)); simpl; nia.
Qed.

(** ** The 32- and 64-bit primitives compute the exact result *)

Lemma shiftr_wrap_hi (w x : Z) : 0 <= w -> Z.shiftr x w = x / 2 ^ w.
Proof. intros. apply Z.shiftr_div_pow2. done. Qed.

Lemma wrap_idem (v w x : Z) : 0 <= v <= w -> wrap v (wrap w x) = wrap v x.
Proof.
  intros. unfold wrap. replace w with ((w - v) + v) by lia. rewrite Z.pow_add_r by lia.
  symmetry. rewrite (Z.mul_comm (2 ^ (w - v))). pose proof (pow2_pos v). pose proof (pow2_pos (w - v)).
  rewrite Z.rem_mul_r by lia. rewrite (Z.mul_comm (2 ^ v)), Z.mod_add, Z.mod_mod by lia. done.
Qed.

Lemma U32Add_eq (x y c : Z) : word 32 x -> word 32 y -> 0 <= c <= 1 ->
  U32Add x y c = ((x + y + c) mod 2 ^ 32, (x + y + c) / 2 ^ 32).
Proof.
  unfold word, U32Add. intros.
  rewrite (wrap_small 64 (x + y)), (wrap_small 64 (x + y + c)) by (unfold word; lia).
  rewrite shiftr_wrap_hi by lia. f_equal. apply wrap_small. unfold word.
  split; [apply Z.div_pos; lia|apply Z.div_lt_upper_bound; lia].
Qed.

Lemma U64Add_eq (x y c : Z) : word 64 x -> word 64 y -> 0 <= c <= 1 ->
  U64Add x y c = ((x + y + c) mod 2 ^ 64, (x + y + c) / 2 ^ 64).
Proof. intros. unfold U64Add. f_equal. apply (carry_bit 64); done || lia. Qed.

Lemma U32Sub_eq (x y b : Z) : word 32 x -> word 32 y -> 0 <= b <= 1 ->
  U32Sub x y b = ((x - y - b) mod 2 ^ 32, - ((x - y - b) / 2 ^ 32)).
Proof. intros. unfold U32Sub. f_equal. apply (borrow_bit 32); done || lia. Qed.

Lemma U64Sub_eq (x y b : Z) : word 64 x -> word 64 y -> 0 <= b <= 1 ->
  U64Sub x y b = ((x - y - b) mod 2 ^ 64, - ((x - y - b) / 2 ^ 64)).
Proof. intros. unfold U64Sub. f_equal. apply (borrow_bit 64); done || lia. Qed.

Lemma U32Mul_eq (x y : Z) : word 32 x -> word 32 y ->
  U32Mul x y = ((x * y) mod 2 ^ 32, (x * y) / 2 ^ 32).
Proof.
  unfold word, U32Mul. intros. rewrite (wrap_small 64) by (unfold word; nia).
  rewrite shiftr_wrap_hi by lia. f_equal. apply wrap_small. unfold word.
  split; [apply Z.div_pos; nia|apply Z.div_lt_upper_bound; nia].
Qed.

(** Splitting both factors in halves, no intermediate sum wraps. *)
Lemma U64Mul_eq (x y : Z) : word 64 x -> word 64 y ->
  U64Mul x y = ((x * y) mod 2 ^ 64, (x * y) / 2 ^ 64).
Proof.
  intros Hx Hy. unfold U64Mul, word in *. f_equal.
  change (u64 (Z.shiftl 1 32) - 1) with (2 ^ 32 - 1).
  rewrite !land_mask, !shiftr_wrap_hi by lia.
  set (b := 2 ^ 32) in *. assert (2 ^ 64 = b * b) as HB by reflexivity. rewrite HB in *.
  assert (0 < b) as Hb by (unfold b; lia).
  pose proof (Z.div_mod x b ltac:(lia)). pose proof (Z.mod_pos_bound x b Hb).
  pose proof (Z.div_mod y b ltac:(lia)). pose proof (Z.mod_pos_bound y b Hb).
  set (x1 := x / b) in *. set (x0 := x mod b) in *.
  set (y1 := y / b) in *. set (y0 := y mod b) in *.
  assert (0 <= x1 < b) as Hx1 by nia. assert (0 <= y1 < b) as Hy1 by nia.
  clearbody x1 x0 y1 y0. subst x y.
  assert (forall v, 0 <= v < b * b -> u64 v = v) as Hsm
    by (intros; apply wrap_small; unfold word; rewrite HB; done).
  pose proof (mul_range_le x0 y0 (b - 1) (b - 1) ltac:(lia) ltac:(lia)).
  pose proof (mul_range_le x1 y0 (b - 1) (b - 1) ltac:(lia) ltac:(lia)).
  pose proof (mul_range_le x0 y1 (b - 1) (b - 1) ltac:(lia) ltac:(lia)).
  pose proof (mul_range_le x1 y1 (b - 1) (b - 1) ltac:(lia) ltac:(lia)).
  rewrite (Hsm (x0 * y0)), (Hsm (x1 * y0)), (Hsm (x0 * y1)), (Hsm (x1 * y1)) by nia.
  pose proof (Z.div_mod (x0 * y0) b ltac:(lia)). pose proof (Z.mod_pos_bound (x0 * y0) b Hb).
  set (c0 := x0 * y0 / b) in *. set (d0 := (x0 * y0) mod b) in *. clearbody c0 d0.
  assert (0 <= c0 <= b - 1) by nia.
  rewrite (Hsm (x1 * y0 + c0)) by nia.
  set (t := x1 * y0 + c0) in *.
  pose proof (Z.div_mod t b ltac:(lia)). pose proof (Z.mod_pos_bound t b Hb).
  set (w2 := t / b) in *. set (w1 := t mod b) in *.
  assert (0 <= w2 <= b - 1) by (unfold t in *; nia). clearbody w1 w2.
  rewrite (Hsm (w1 + x0 * y1)) by nia.
  set (s := w1 + x0 * y1) in *.
  pose proof (Z.div_mod s b ltac:(lia)). pose proof (Z.mod_pos_bound s b Hb).
  set (e1 := s / b) in *. set (e0 := s mod b) in *.
  assert (0 <= e1) by (unfold s in *; nia). clearbody e0 e1.
  assert ((b * x1 + x0) * (b * y1 + y0) = (x1 * y1 + w2 + e1) * (b * b) + (e0 * b + d0)) as Heq
    by (unfold s, t in *; nia).
  assert (0 <= e0 * b + d0 < b * b) by nia.
  assert ((b * x1 + x0) * (b * y1 + y0) < (b * b) * (b * b)) by nia.
  assert (0 <= x1 * y1 + w2 + e1 < b * b) by nia.
  rewrite (Hsm (x1 * y1 + w2)), Hsm by nia.
  symmetry. apply div_unique_range; [nia|]. rewrite Heq. nia.
Qed.

Lemma U32Div_eq (hi lo y : Z) : word 32 hi -> word 32 lo -> word 32 y -> hi < y ->
  U32Div hi lo y = OK ((hi * 2 ^ 32 + lo) / y, (hi * 2 ^ 32 + lo) mod y).
Proof.
  unfold word, U32Div. intros Hhi Hlo Hy Hlt.
  rewrite (proj2 (Z.eqb_neq y 0)), (proj2 (Z.ltb_lt hi y)) by lia. simpl.
  rewrite (wrap_small 64) by (unfold word; rewrite Z.shiftl_mul_pow2; lia).
  rewrite Z.shiftl_mul_pow2, lor_shifted_add by lia.
  pose proof (Z.mod_pos_bound (hi * 2 ^ 32 + lo) y ltac:(lia)).
  rewrite !wrap_small; [done| |]; unfold word; [lia|].
  split; [apply Z.div_pos; lia|apply Z.div_lt_upper_bound; nia].
Qed.

(** ** Bit lengths: the tables and the halving steps *)

(** The number of significant bits. *)
Definition bitlen (x : Z) : Z := if x =? 0 then 0 else Z.log2 x + 1.

(** A property of all indices of a 256-entry table, decided by computation. *)
Lemma byte_cases (P : Z -> bool) :
  forallb P (seqZ 0 256) = true -> forall x, word 8 x -> P x = true.
Proof.
  intros Hall x Hx. rewrite forallb_forall in Hall. apply Hall.
  apply list_elem_of_In, elem_of_seqZ. unfold word in Hx. lia.
Qed.

Definition res_is (r : res Z) (v : Z) : bool :=
  match r with OK x => x =? v | Er _ => false end.

Lemma res_is_OK r v : res_is r v = true -> r = OK v.
Proof. destruct r; simpl; [|done]. intros ->%Z.eqb_eq. done. Qed.

Lemma len8tab_bitlen (x : Z) : word 8 x -> tab_get len8tab x = OK (bitlen x).
Proof.
  intros Hx. apply res_is_OK.
  apply (byte_cases (fun x => res_is (tab_get len8tab x) (bitlen x))); [|done].
  vm_compute. done.
Qed.

Lemma bitlen_shift (k x : Z) : 0 <= k -> 2 ^ k <= x -> k + bitlen (Z.shiftr x k) = bitlen x.
Proof.
  intros Hk Hx. pose proof (pow2_pos k Hk).
  assert (0 < Z.shiftr x k) as Hs.
  { rewrite Z.shiftr_div_pow2 by lia. apply Z.div_str_pos. lia. }
  unfold bitlen. rewrite !(proj2 (Z.eqb_neq _ 0)) by lia.
  assert (Z.log2 x >= k) by (apply Z.le_ge, Z.log2_le_pow2; lia).
  rewrite Z.log2_shiftr by lia. lia.
Qed.

Lemma shiftr_bound (w k x : Z) : 0 <= k <= w -> word w x -> word (w - k) (Z.shiftr x k).
Proof.
  unfold word. intros. rewrite Z.shiftr_div_pow2 by lia. pose proof (pow2_pos k ltac:(lia)).
  split; [apply Z.div_pos; lia|]. apply Z.div_lt_upper_bound; [lia|].
  rewrite <- Z.pow_add_r by lia. replace (k + (w - k)) with w by lia. lia.
Qed.

Lemma Len8_eq (x : Z) : word 8 x -> Len8 x = OK (bitlen x).
Proof. apply len8tab_bitlen. Qed.

Ltac len_step :=
  match goal with |- context [if ?c <=? ?x then _ else _] =>
    destruct (Z.leb_spec c x) end.

Lemma Len16_eq (x : Z) : word 16 x -> Len16 x = OK (bitlen x).
Proof.
  intros Hx. unfold Len16. len_step.
  - rewrite len8tab_bitlen by (apply (shiftr_bound 16 8); done || lia). simpl.
    rewrite <- (bitlen_shift 8 x) by lia. done.
  - rewrite len8tab_bitlen by (unfold word in *; lia). done.
Qed.

Lemma Len32_eq (x : Z) : word 32 x -> Len32 x = OK (bitlen x).
Proof.
  intros Hx. unfold Len32.
  assert (forall v n, word 16 v -> (let '(x, n) := if 2 ^ 8 <=? v then (Z.shiftr v 8, n + 8) else (v, n) in
     let? l := tab_get len8tab x in OK (n + l)) = OK (n + bitlen v)) as Hstep.
  { intros v n Hv. len_step.
    - rewrite len8tab_bitlen by (apply (shiftr_bound 16 8); done || lia). simpl.
      rewrite <- (bitlen_shift 8 v) by lia. f_equal. lia.
    - rewrite len8tab_bitlen by (unfold word in *; lia). done. }
  len_step; rewrite Hstep.
  - rewrite (bitlen_shift 16 x) by lia. done.
  - apply (shiftr_bound 32 16); done || lia.
  - done.
  - unfold word in *; lia.
Qed.

Lemma Len64_Len32 (x : Z) : word 64 x ->
  Len64 x = if 2 ^ 32 <=? x then (let? l := Len32 (Z.shiftr x 32) in OK (32 + l)) else Len32 x.
Proof.
  intros Hx. unfold Len64, Len32. destruct (2 ^ 32 <=? x);
    repeat len_step; try done; destruct (tab_get _ _); simpl; try done; f_equal; lia.
Qed.

Lemma Len64_eq (x : Z) : word 64 x -> Len64 x = OK (bitlen x).
Proof.
  intros Hx. rewrite Len64_Len32 by done. len_step.
  - rewrite Len32_eq by (apply (shiftr_bound 64 32); done || lia). simpl.
    rewrite bitlen_shift by lia. done.
  - apply Len32_eq. unfold word in *. lia.
Qed.

(** Shifting a non-zero word by its number of leading zeros sets its top bit. *)
Lemma normalize_bounds (w x : Z) : 0 < w -> 0 < x < 2 ^ w ->
  0 <= w - bitlen x < w /\ 2 ^ (w - 1) <= x * 2 ^ (w - bitlen x) < 2 ^ w.
Proof.
  intros Hw Hx. unfold bitlen. rewrite (proj2 (Z.eqb_neq _ 0)) by lia.
  pose proof (Z.log2_spec x ltac:(lia)) as [Hlo Hhi].
  assert (Z.log2 x < w) by (apply Z.log2_lt_pow2; lia).
  pose proof (Z.log2_nonneg x). split; [lia|].
  replace (w - 1) with (Z.log2 x + (w - (Z.log2 x + 1))) by lia.
  replace (2 ^ w) with (2 ^ (Z.succ (Z.log2 x) + (w - (Z.log2 x + 1)))) by (f_equal; lia).
  rewrite !Z.pow_add_r by lia. pose proof (pow2_pos (w - (Z.log2 x + 1))).
  split; [apply Z.mul_le_mono_nonneg_r; lia|apply Z.mul_lt_mono_pos_r; lia].
Qed.

(** ** The tables hold what their names promise *)

Fixpoint popcount (n : nat) (x : Z) : Z :=
  match n with O => 0 | S n => x mod 2 + popcount n (x / 2) end.
Fixpoint bitrev (n : nat) (x : Z) : Z :=
  match n with O => 0 | S n => (x mod 2) * 2 ^ Z.of_nat n + bitrev n (x / 2) end.
Fixpoint ctz (n : nat) (x : Z) : Z :=
  match n with O => 0 | S n => if x mod 2 =? 0 then 1 + ctz n (x / 2) else 0 end.

(** The four byte tables of base.c hold, for every byte, the number of
    trailing zeros, the number of set bits, the reversed byte and the bit
    length. *)
Theorem byte_tables_ok (x : Z) : word 8 x ->
  tab_get ntz8tab x = OK (ctz 8 x) /\ tab_get pop8tab x = OK (popcount 8 x) /\
  tab_get rev8tab x = OK (bitrev 8 x) /\ tab_get len8tab x = OK (bitlen x).
Proof.
  intros Hx. repeat split; apply res_is_OK;
    match goal with |- res_is ?r ?v = true =>
      let r' := eval pattern x in r in let v' := eval pattern x in v in
      match r' with ?R _ => match v' with ?V _ =>
        apply (byte_cases (fun x => res_is (R x) (V x))); [vm_compute; done | done] end end
    end.
Qed.

Lemma byte_tables_ok_witness :
  tab_get ntz8tab 40 = OK 3 /\ tab_get pop8tab 40 = OK 2 /\
  tab_get rev8tab 40 = OK 20 /\ tab_get len8tab 40 = OK 6.
Proof. apply (byte_tables_ok 40). unfold word. lia. Defined.

Lemma lowest_bit (w m k : Z) :
  0 <= k < w -> word w (2 ^ k * (2 * m + 1)) ->
  Z.land (2 ^ k * (2 * m + 1)) (w_neg w (2 ^ k * (2 * m + 1))) = 2 ^ k.
Proof.
  intros Hk Hx. set (x := 2 ^ k * (2 * m + 1)) in *. pose proof (pow2_pos k ltac:(lia)).
  assert (x <> 0) by (apply Z.neq_mul_0; lia).
  assert (w_neg w x = Z.land (Z.lnot (x - 1)) (Z.ones w)) as ->.
  { unfold w_neg, wrap. rewrite Z.land_ones by lia. f_equal. unfold Z.lnot. lia. }
  apply Z.bits_inj'. intros n Hn. rewrite !Z.land_spec.
  assert (forall b n, 0 <= n -> 0 <= b < 2 ^ k -> k < n ->
    Z.testbit (2 ^ k * (2 * m + 1) + (b - 2 ^ k)) n = Z.testbit m (n - k - 1) /\
    Z.testbit (2 ^ k * (2 * m + 1)) n = Z.testbit m (n - k - 1)) as Hhigh.
  { clear - Hk. intros b n Hn Hb Hlt. pose proof (pow2_pos k ltac:(lia)).
    assert (2 ^ (k + 1) = 2 * 2 ^ k) as Hp by (rewrite Z.pow_add_r by lia; lia).
    replace n with ((n - k - 1) + (k + 1)) at 1 3 by lia.
    rewrite <- !Z.div_pow2_bits by lia. rewrite Hp.
    rewrite (div_unique_range _ _ m), (div_unique_range _ _ m) by nia. done. }
  destruct (Z.lt_trichotomy n k) as [Hlt|[->|Hgt]].
  - rewrite Z.pow2_bits_false by lia. unfold x. rewrite Z.mul_comm, Z.mul_pow2_bits_low by lia. done.
  - rewrite Z.pow2_bits_true by lia. rewrite Z.lnot_spec, Z.ones_spec_low by lia.
    assert (Z.testbit x k = true) as ->.
    { unfold x. rewrite Z.testbit_eqb, (Z.mul_comm (2 ^ k)) by lia.
      replace ((2 * m + 1) * 2 ^ k / 2 ^ k) with (2 * m + 1) by (rewrite Z.div_mul; lia).
      apply Z.eqb_eq. rewrite Z.add_comm, Z.mul_comm, Z.mod_add by lia. done. }
    assert (Z.testbit (x - 1) k = false) as ->; [|done].
    rewrite Z.testbit_eqb by lia. apply Z.eqb_neq.
    rewrite (div_unique_range (x - 1) (2 ^ k) (2 * m)) by (unfold x; nia).
    rewrite Z.mul_comm, Z.mod_mul by lia. done.
  - rewrite Z.pow2_bits_false by lia. rewrite Z.lnot_spec by lia.
    destruct (Hhigh (2 ^ k - 1) n) as [H1 H2]; [lia..|]. fold x in H1, H2. rewrite H2.
    replace (x + (2 ^ k - 1 - 2 ^ k)) with (x - 1) in H1 by lia. rewrite H1.
    destruct (Z.testbit m (n - k - 1)); done.
Qed.

Lemma odd_part (x : Z) : 0 < x -> exists k m, 0 <= k /\ 0 <= m /\ x = 2 ^ k * (2 * m + 1).
Proof.
  destruct x as [|p|p]; [lia| |lia]. intros _. induction p as [p _|p IH|].
  - exists 0, (Zpos p). lia.
  - destruct IH as (k & m & Hk & Hm & Heq). exists (k + 1), m.
    split; [lia|]. split; [lia|]. rewrite Z.pow_add_r by lia. lia.
  - exists 0, 0. lia.
Qed.

(** [TrailingZeros64] returns the exponent of the largest power of two that
    divides a non-zero word, and 64 for zero. *)
Theorem TrailingZeros64_correct (x : Z) : word 64 x ->
  exists k, TrailingZeros64 x = OK k /\
    ((x = 0 /\ k = 64) \/ (0 <= k < 64 /\ exists m, 0 <= m /\ x = 2 ^ k * (2 * m + 1))).
Proof.
  intros Hx. unfold TrailingZeros64. case_if; [eauto 10|].
  destruct (odd_part x) as (k & m & Hk & Hm & Heq); [unfold word in *; lia|].
  assert (k < 64).
  { apply Znot_ge_lt. intros Hge. unfold word in Hx.
    assert (2 ^ 64 <= 2 ^ k) by (apply Z.pow_le_mono_r; lia). nia. }
  exists k. split; [|right; eauto 10 with lia].
  rewrite Heq, lowest_bit; [|lia|rewrite <- Heq; done].
  apply res_is_OK. clear - Hk H.
  assert (forallb (fun k => res_is (tab_get deBruijn64tab
    (Z.shiftr (u64 (2 ^ k * deBruijn64)) (64 - 6))) k) (seqZ 0 64) = true) as Hall
    by (vm_compute; done).
  rewrite forallb_forall in Hall. apply Hall, list_elem_of_In, elem_of_seqZ. lia.
Qed.

Lemma TrailingZeros64_correct_witness : exists k, TrailingZeros64 (2 ^ 40 * 3) = OK k /\
  ((2 ^ 40 * 3 = 0 /\ k = 64) \/
   (0 <= k < 64 /\ exists m, 0 <= m /\ 2 ^ 40 * 3 = 2 ^ k * (2 * m + 1))).
Proof. apply (TrailingZeros64_correct (2 ^ 40 * 3)). unfold word. lia. Defined.

(** A table index formed without the 32-bit reduction leaves [deBruijn32tab]
    as soon as the lowest set bit is bit 6 or higher. *)
Theorem TrailingZeros32_behaviour (k m : Z) :
  0 <= k -> 0 <= m -> word 32 (2 ^ k * (2 * m + 1)) ->
  TrailingZeros32 (2 ^ k * (2 * m + 1)) = if k <=? 5 then OK k else Er OutOfBounds.
Proof.
  intros Hk Hm Hx. pose proof (pow2_pos k Hk).
  assert (k < 32).
  { apply Znot_ge_lt. intros Hge. unfold word in Hx.
    assert (2 ^ 32 <= 2 ^ k) by (apply Z.pow_le_mono_r; lia). nia. }
  unfold TrailingZeros32. rewrite lowest_bit by (done || lia).
  rewrite (proj2 (Z.eqb_neq _ 0)) by (apply Z.neq_mul_0; lia).
  assert (forallb (fun k => bool_decide (tab_get deBruijn32tab
    (Z.shiftr (u64 (2 ^ k * deBruijn32)) (32 - 5)) = if k <=? 5 then OK k else Er OutOfBounds))
    (seqZ 0 32) = true) as Hall by (vm_compute; done).
  rewrite forallb_forall in Hall. eapply bool_decide_eq_true, Hall, list_elem_of_In, elem_of_seqZ.
  lia.
Qed.

Lemma TrailingZeros32_behaviour_witness :
  TrailingZeros32 (2 ^ 5 * (2 * 1 + 1)) = OK 5 /\
  TrailingZeros32 (2 ^ 6 * (2 * 1 + 1)) = Er OutOfBounds.
Proof.
  split; [apply (TrailingZeros32_behaviour 5 1)|apply (TrailingZeros32_behaviour 6 1)];
    unfold word; lia.
Defined.

(** ** The correction loop of [U64Div]

    [q, rhat] is the quotient and remainder of [u] by the top half of the
    divisor; the loop turns [q] into the quotient digit of the full divisor. *)
Lemma div_adjust_inv (fuel : nat) (q rhat yn1 yn0 un u : Z) :
  let b := two32 in let y := yn1 * b + yn0 in
  2 ^ 31 <= yn1 < b -> 0 <= yn0 < b -> 0 <= un < b -> 0 <= u < y ->
  q * yn1 + rhat = u -> 0 <= rhat < b -> (u * b + un) / y <= q <= b + 1 ->
  b <= rhat + Z.of_nat fuel * 2 ^ 31 ->
  exists rhat', div_adjust fuel q rhat yn1 yn0 un = OK ((u * b + un) / y, rhat').
Proof.
  cbv zeta. revert q rhat. induction fuel as [|fuel IH];
    intros q rhat Hyn1 Hyn0 Hun Hu Hq Hr Hqs Hfuel; [lia|].
  simpl div_adjust. unfold two32 in *. set (b := 2 ^ 32) in *.
  assert (2 ^ 64 = b * b) as HB by reflexivity.
  set (y := yn1 * b + yn0) in *. set (qs := (u * b + un) / y) in *.
  assert (0 < b) as Hb by (unfold b; lia). assert (0 < y) as Hy by lia.
  assert (0 <= qs < b) as Hqsb.
  { unfold qs. split; [apply Z.div_pos; nia|apply Z.div_lt_upper_bound; nia]. }
  assert (qs * y <= u * b + un < qs * y + y) as Hqsp.
  { pose proof (Z.div_mod (u * b + un) y ltac:(lia)).
    pose proof (Z.mod_pos_bound (u * b + un) y Hy). fold qs in H. lia. }
  assert (forall v, 0 <= v < b * b -> u64 v = v) as Hsm
    by (intros; apply wrap_small; unfold word; rewrite HB; done).
  assert (forall n, n * y <= u * b + un -> n <= qs) as Hle by (intros; nia).
  assert (forall n, u * b + un < n * y -> qs < n) as Hgt by (intros; nia).
  rewrite (Hsm (b * rhat)), (Hsm (b * rhat + un)) by nia.
  destruct ((b <=? q) || (b * rhat + un <? u64 (q * yn0))) eqn:Hc.
  - assert (qs < q) as Hlt.
    { apply orb_true_iff in Hc as [Hc|Hc].
      - apply Z.leb_le in Hc. lia.
      - destruct (Z.leb_spec b q); [lia|]. rewrite Hsm in Hc by (apply mul_range; lia).
        apply Z.ltb_lt in Hc. apply Hgt. unfold y. nia. }
    rewrite (Hsm (q - 1)), (Hsm (rhat + yn1)) by nia.
    destruct (Z.leb_spec b (rhat + yn1)).
    + exists (rhat + yn1). do 2 f_equal. apply Z.le_antisymm; [|lia].
      apply Hle. unfold y. pose proof (mul_range_le (q - 1) yn0 b b ltac:(lia) ltac:(lia)).
      replace ((q - 1) * (yn1 * b + yn0)) with (((q - 1) * yn1) * b + (q - 1) * yn0) by ring.
      replace ((q - 1) * yn1) with (u - (rhat + yn1)) by lia. nia.
    + apply IH; try done; lia.
  - exists rhat. do 2 f_equal. apply orb_false_iff in Hc as [Hc1 Hc2].
    apply Z.leb_gt in Hc1. rewrite Hsm in Hc2 by (apply mul_range; lia). apply Z.ltb_ge in Hc2.
    apply Z.le_antisymm; [|lia]. apply Hle. unfold y. nia.
Qed.

Lemma div_adjust_spec (yn1 yn0 un u : Z) :
  let b := two32 in let y := yn1 * b + yn0 in
  2 ^ 31 <= yn1 < b -> 0 <= yn0 < b -> 0 <= un < b -> 0 <= u < y ->
  exists rhat', div_adjust div_fuel (u / yn1) (u64 (u - u / yn1 * yn1)) yn1 yn0 un
                = OK ((u * b + un) / y, rhat').
Proof.
  cbv zeta. intros Hyn1 Hyn0 Hun Hu.
  pose proof (Z.div_mod u yn1 ltac:(lia)). pose proof (Z.mod_pos_bound u yn1 ltac:(lia)).
  assert (u - u / yn1 * yn1 = u mod yn1) as -> by lia.
  rewrite wrap_small by (unfold word, two32 in *; lia).
  apply div_adjust_inv; try done; unfold two32, div_fuel in *; try lia.
  split.
  - apply Z.lt_succ_r, Z.div_lt_upper_bound; [lia|].
    set (q := u / yn1) in *. set (r := u mod yn1) in *. clearbody q r. nia.
  - apply Z.lt_succ_r, Z.div_lt_upper_bound; lia.
Qed.

(** Long division by [y] of [u * b^2 + d1 * b + d0], one base-[b] digit at a
    time. *)
Lemma two_digit_division (b y u d1 d0 : Z) :
  0 < b -> 0 <= u < y -> 0 <= d1 < b -> 0 <= d0 < b ->
  let q1 := (u * b + d1) / y in let r1 := u * b + d1 - q1 * y in
  let q0 := (r1 * b + d0) / y in let r0 := r1 * b + d0 - q0 * y in
  0 <= q1 < b /\ 0 <= r1 < y /\ 0 <= q0 < b /\ 0 <= r0 < y /\
  (u * b * b + d1 * b + d0) / y = q1 * b + q0 /\ (u * b * b + d1 * b + d0) mod y = r0.
Proof.
  cbv zeta. intros Hb Hu Hd1 Hd0.
  set (q1 := (u * b + d1) / y). set (r1 := u * b + d1 - q1 * y).
  set (q0 := (r1 * b + d0) / y). set (r0 := r1 * b + d0 - q0 * y).
  assert (0 <= q1 < b).
  { split; [apply Z.div_pos; nia|apply Z.div_lt_upper_bound; nia]. }
  assert (0 <= r1 < y) as Hr1.
  { unfold r1, q1. rewrite (Z.mul_comm _ y), <- Z.mod_eq by lia. apply Z.mod_pos_bound; lia. }
  assert (0 <= q0 < b).
  { split; [apply Z.div_pos; nia|apply Z.div_lt_upper_bound; nia]. }
  assert (0 <= r0 < y) as Hr0.
  { unfold r0, q0. rewrite (Z.mul_comm _ y), <- Z.mod_eq by lia. apply Z.mod_pos_bound; lia. }
  assert (u * b * b + d1 * b + d0 - (q1 * b + q0) * y = r0) as Heq by (unfold r0, r1; ring).
  rewrite (div_unique_range _ y (q1 * b + q0)), (mod_unique_range _ y (q1 * b + q0)) by lia.
  auto 10.
Qed.

(** The shifted dividend of [U64Div]. *)
Lemma shift_two_words (hi lo y s : Z) :
  word 64 hi -> word 64 lo -> hi < y -> 0 <= s < 64 -> y * 2 ^ s < 2 ^ 64 ->
  let un32 := w_shl 64 hi s in
  let un32 := if negb (s =? 0) then Z.lor un32 (Z.shiftr lo (64 - s)) else un32 in
  let un10 := if s <? 64 then w_shl 64 lo s else 0 in
  0 <= un32 < y * 2 ^ s /\ word 64 un10 /\
  un32 * 2 ^ 64 + un10 = (hi * 2 ^ 64 + lo) * 2 ^ s.
Proof.
  cbv zeta. unfold word. intros Hhi Hlo Hlt Hs Hy.
  pose proof (pow2_pos s ltac:(lia)). pose proof (pow2_pos (64 - s) ltac:(lia)).
  assert (2 ^ 64 = 2 ^ (64 - s) * 2 ^ s) as Hsplit.
  { rewrite <- Z.pow_add_r by lia. f_equal. lia. }
  rewrite (proj2 (Z.ltb_lt s 64)) by lia.
  assert (w_shl 64 hi s = hi * 2 ^ s) as ->.
  { unfold w_shl. rewrite Z.shiftl_mul_pow2 by lia. apply wrap_small. unfold word. nia. }
  assert ((if negb (s =? 0) then Z.lor (hi * 2 ^ s) (Z.shiftr lo (64 - s)) else hi * 2 ^ s)
    = hi * 2 ^ s + lo / 2 ^ (64 - s)) as ->.
  { destruct (Z.eqb_spec s 0) as [->|]; simpl.
    - rewrite (Z.div_small lo) by (simpl; lia). lia.
    - rewrite Z.shiftr_div_pow2 by lia. apply lor_shifted_add; [lia|].
      split; [apply Z.div_pos; lia|apply Z.div_lt_upper_bound; lia]. }
  unfold w_shl, wrap. rewrite Z.shiftl_mul_pow2 by lia.
  assert ((lo * 2 ^ s) mod 2 ^ 64 = (lo mod 2 ^ (64 - s)) * 2 ^ s) as ->.
  { rewrite Hsplit. apply Z.mul_mod_distr_r; lia. }
  pose proof (Z.div_mod lo (2 ^ (64 - s)) ltac:(lia)).
  pose proof (Z.mod_pos_bound lo (2 ^ (64 - s)) ltac:(lia)).
  set (l1 := lo / 2 ^ (64 - s)) in *. set (l0 := lo mod 2 ^ (64 - s)) in *.
  clearbody l1 l0. set (p := 2 ^ s) in *. set (r := 2 ^ (64 - s)) in *.
  assert (0 <= l1 < p) by nia.
  split; [|split].
  - nia.
  - rewrite Hsplit. nia.
  - rewrite Hsplit. nia.
Qed.

Lemma U64Div_eq (hi lo y : Z) : word 64 hi -> word 64 lo -> word 64 y -> hi < y ->
  U64Div hi lo y = OK ((hi * 2 ^ 64 + lo) / y, (hi * 2 ^ 64 + lo) mod y).
Proof.
  intros Hhi Hlo Hy Hlt. assert (0 < y) by (unfold word in *; lia).
  unfold U64Div. rewrite (proj2 (Z.eqb_neq y 0)), (proj2 (Z.ltb_lt hi y)) by lia.
  rewrite !res_assert_true, !res_bind_ret by done. destruct (Z.eqb_spec hi 0) as [->|]; [done|].
  destruct (normalize_bounds 64 y) as [Hs Hn]; [lia|unfold word in *; lia|].
  unfold LeadingZeros64. rewrite Len64_eq by done. rewrite !res_bind_ret.
  set (s := 64 - bitlen y) in *.
  rewrite (wrap_small 32 s) by (unfold word; lia).
  pose proof (shift_two_words hi lo y s Hhi Hlo Hlt Hs ltac:(lia)) as Hsh.
  cbv zeta in Hsh.
  assert (w_shl 64 y s = y * 2 ^ s) as ->.
  { unfold w_shl. rewrite Z.shiftl_mul_pow2 by lia. apply wrap_small. unfold word. lia. }
  set (un32 := if negb (s =? 0) then _ else _) in *.
  set (un10 := if s <? 64 then _ else _) in *.
  destruct Hsh as (Hun32 & Hun10 & Hval). cbv zeta.
  set (y' := y * 2 ^ s) in *. unfold mask32, two32.
  rewrite !shiftr_wrap_hi, !land_mask by lia.
  change (2 ^ 64) with (2 ^ 32 * 2 ^ 32) in *. change (2 ^ (64 - 1)) with (2 ^ 31 * 2 ^ 32) in *.
  pose proof (div_adjust_spec (y' / 2 ^ 32) (y' mod 2 ^ 32)) as Hadj.
  pose proof (Z.div_mod y' (2 ^ 32) ltac:(lia)) as Hy'.
  pose proof (Z.mod_pos_bound y' (2 ^ 32) ltac:(lia)).
  pose proof (Z.div_mod un10 (2 ^ 32) ltac:(lia)) as Hun10'.
  pose proof (Z.mod_pos_bound un10 (2 ^ 32) ltac:(lia)).
  unfold word in Hun10. change (2 ^ 64) with (2 ^ 32 * 2 ^ 32) in Hun10.
  set (yn1 := y' / 2 ^ 32) in *. set (yn0 := y' mod 2 ^ 32) in *.
  set (d1 := un10 / 2 ^ 32) in *. set (d0 := un10 mod 2 ^ 32) in *.
  assert (2 ^ 31 <= yn1 < 2 ^ 32) by lia. assert (0 <= d1 < 2 ^ 32) by lia.
  destruct (two_digit_division (2 ^ 32) y' un32 d1 d0) as (Hq1 & Hr1 & Hq0 & Hr0 & Hdiv & Hmod);
    [lia..|].
  cbv zeta in Hadj. unfold two32 in Hadj.
  rewrite (Z.mul_comm yn1), <- Hy' in Hadj.
  rewrite (proj2 (Z.eqb_neq yn1 0)) by lia.
  destruct (Hadj d1 un32) as [rh1 ->]; [lia..|]. rewrite res_bind_ret; cbv zeta.
  assert (forall v, 0 <= v < 2 ^ 32 * 2 ^ 32 -> u64 v = v) as Hsm
    by (intros; apply wrap_small; unfold word; done).
  set (q1 := (un32 * 2 ^ 32 + d1) / y') in *.
  rewrite (Hsm (un32 * 2 ^ 32 + d1 - q1 * y')) by lia.
  set (r1 := un32 * 2 ^ 32 + d1 - q1 * y') in *.
  destruct (Hadj d0 r1) as [rh0 ->]; [lia..|]. rewrite res_bind_ret; cbv zeta.
  set (q0 := (r1 * 2 ^ 32 + d0) / y') in *.
  rewrite (Hsm (q1 * 2 ^ 32 + q0)), (Hsm (r1 * 2 ^ 32 + d0 - q0 * y')) by lia.
  assert (un32 * 2 ^ 32 * 2 ^ 32 + d1 * 2 ^ 32 + d0
          = (hi * (2 ^ 32 * 2 ^ 32) + lo) * 2 ^ s) as Hd by lia.
  rewrite Hd in Hdiv, Hmod. unfold y' in Hdiv, Hmod.
  pose proof (pow2_pos s ltac:(lia)).
  rewrite Z.div_mul_cancel_r in Hdiv by lia. rewrite Z.mul_mod_distr_r in Hmod by lia.
  fold y' in Hmod. rewrite Hdiv, <- Hmod, Z.shiftr_div_pow2, Z.div_mul by lia. done.
Qed.

(** ** The native primitives, on both targets *)

Section native_facts.
Context `{T : Target}.

(** The base of the digit arithmetic: [2 ^ UintSize]. *)
Definition Base : Z := 2 ^ UintSize.

Lemma UintSize_pos : 32 <= UintSize <= 64.
Proof. destruct UintSize_cases; lia. Qed.

Lemma Base_pos : 2 ^ 32 <= Base.
Proof. unfold Base. apply Z.pow_le_mono_r; [lia|]. apply UintSize_pos. Qed.

Lemma Base_top : Base = 2 * 2 ^ (UintSize - 1).
Proof. unfold Base. apply pow2_top. pose proof UintSize_pos. lia. Qed.

Ltac native :=
  intros; unfold Base, word in *; destruct UintSize_cases as [Hsz|Hsz]; rewrite Hsz in *; simpl;
  rewrite ?wrap_small by (unfold word in *; lia).

Lemma UIntAdd_eq (x y c : Z) : word UintSize x -> word UintSize y -> 0 <= c <= 1 ->
  UIntAdd x y c = ((x + y + c) mod Base, (x + y + c) / Base).
Proof. unfold UIntAdd. native; [apply U32Add_eq|apply U64Add_eq]; unfold word; lia. Qed.

Lemma UIntSub_eq (x y b : Z) : word UintSize x -> word UintSize y -> 0 <= b <= 1 ->
  UIntSub x y b = ((x - y - b) mod Base, - ((x - y - b) / Base)).
Proof. unfold UIntSub. native; [apply U32Sub_eq|apply U64Sub_eq]; unfold word; lia. Qed.

Lemma UIntMul_eq (x y : Z) : word UintSize x -> word UintSize y ->
  UIntMul x y = ((x * y) mod Base, (x * y) / Base).
Proof. unfold UIntMul. native; [apply U32Mul_eq|apply U64Mul_eq]; unfold word; lia. Qed.

Lemma UIntDiv_eq (hi lo y : Z) :
  word UintSize hi -> word UintSize lo -> word UintSize y -> hi < y ->
  UIntDiv hi lo y = OK ((hi * Base + lo) / y, (hi * Base + lo) mod y).
Proof. unfold UIntDiv. native; [apply U32Div_eq|apply U64Div_eq]; unfold word; lia. Qed.

(** The same facts as balance equations. *)
Lemma UIntAdd_spec (x y c : Z) : word UintSize x -> word UintSize y -> 0 <= c <= 1 ->
  exists s c', UIntAdd x y c = (s, c') /\ 0 <= s < Base /\ 0 <= c' <= 1 /\ s + Base * c' = x + y + c.
Proof.
  intros Hx Hy Hc. do 2 eexists. split; [by apply UIntAdd_eq|]. unfold word in *.
  change (2 ^ UintSize) with Base in *. pose proof Base_pos. assert (0 < Base) as Hp by lia.
  pose proof (Z.div_mod (x + y + c) Base (Z.neq_sym _ _ (Z.lt_neq _ _ Hp))).
  pose proof (Z.mod_pos_bound (x + y + c) Base Hp). nia.
Qed.

Lemma UIntSub_spec (x y b : Z) : word UintSize x -> word UintSize y -> 0 <= b <= 1 ->
  exists d b', UIntSub x y b = (d, b') /\ 0 <= d < Base /\ 0 <= b' <= 1 /\ d - Base * b' = x - y - b.
Proof.
  intros Hx Hy Hc. do 2 eexists. split; [by apply UIntSub_eq|]. unfold word in *.
  change (2 ^ UintSize) with Base in *. pose proof Base_pos. assert (0 < Base) as Hp by lia.
  pose proof (Z.div_mod (x - y - b) Base (Z.neq_sym _ _ (Z.lt_neq _ _ Hp))).
  pose proof (Z.mod_pos_bound (x - y - b) Base Hp). nia.
Qed.

Lemma UIntMul_spec (x y : Z) : word UintSize x -> word UintSize y ->
  exists l h, UIntMul x y = (l, h) /\ 0 <= l < Base /\ 0 <= h < Base /\ l + Base * h = x * y.
Proof.
  intros Hx Hy. do 2 eexists. split; [by apply UIntMul_eq|]. unfold word in *.
  change (2 ^ UintSize) with Base in *. pose proof Base_pos. assert (0 < Base) as Hp by lia.
  pose proof (Z.div_mod (x * y) Base (Z.neq_sym _ _ (Z.lt_neq _ _ Hp))).
  pose proof (Z.mod_pos_bound (x * y) Base Hp). pose proof (mul_range x y Base Base Hx Hy). nia.
Qed.

Lemma Len_eq (x : Z) : word UintSize x -> Len x = OK (bitlen x).
Proof. unfold Len. native; [apply Len32_eq|apply Len64_eq]; unfold word; lia. Qed.

Lemma LeadingZeros_eq (x : Z) : word UintSize x -> LeadingZeros x = OK (UintSize - bitlen x).
Proof. intros. unfold LeadingZeros. rewrite Len_eq by done. done. Qed.

End native_facts.

#[global] Opaque UIntAdd UIntSub UIntMul UIntDiv.

(** ** Properties *)

(** C9: on both targets the carry, borrow and double-width primitives return
    the exact sum, difference and product: the result word together with the
    carry, borrow or high word is the mathematical value. *)
Theorem word_primitives_exact `{T : Target} (x y c : Z) :
  word UintSize x -> word UintSize y -> 0 <= c <= 1 ->
  (let '(s, c') := UIntAdd x y c in word UintSize s /\ 0 <= c' <= 1 /\ s + Base * c' = x + y + c) /\
  (let '(d, b') := UIntSub x y c in word UintSize d /\ 0 <= b' <= 1 /\ d - Base * b' = x - y - c) /\
  (let '(l, h) := UIntMul x y in word UintSize l /\ word UintSize h /\ l + Base * h = x * y).
Proof.
  intros Hx Hy Hc.
  destruct (UIntAdd_spec x y c) as (s & c' & -> & ?); [done..|].
  destruct (UIntSub_spec x y c) as (d & b' & -> & ?); [done..|].
  destruct (UIntMul_spec x y) as (l & h & -> & ?); [done..|].
  unfold word. change (2 ^ UintSize) with Base. tauto.
Qed.

Lemma word_primitives_exact_witness :
  (word 64 (2 ^ 64 - 1) /\ U64Add (2 ^ 64 - 1) 1 1 = (1, 1)) /\
  (let '(l, h) := U64Mul (2 ^ 64 - 1) (2 ^ 64 - 1) in l + 2 ^ 64 * h = (2 ^ 64 - 1) * (2 ^ 64 - 1)).
Proof.
  split; [split; [split; vm_compute; congruence|vm_compute; done]|].
  destruct (@word_primitives_exact target64 (2 ^ 64 - 1) (2 ^ 64 - 1) 0) as (_ & _ & H);
    [split; vm_compute; congruence..|lia|].
  exact (proj2 (proj2 H)).
Defined.

(** [U64Div] divides a double word: it asserts exactly when the divisor
    is zero or the quotient does not fit, and otherwise returns the exact
    quotient and remainder; its two correction loops terminate within their
    bound. *)
Theorem U64Div_correct (hi lo y : Z) : word 64 hi -> word 64 lo -> word 64 y ->
  U64Div hi lo y =
    if hi <? y then OK ((hi * 2 ^ 64 + lo) / y, (hi * 2 ^ 64 + lo) mod y) else Er AssertFail.
Proof.
  intros Hhi Hlo Hy. destruct (Z.ltb_spec hi y) as [Hlt|Hge]; [by apply U64Div_eq|].
  unfold U64Div. rewrite (proj2 (Z.ltb_ge hi y)) by lia. by destruct (y =? 0).
Qed.

Lemma U64Div_correct_witness :
  U64Div 5 7 (2 ^ 63 + 1) = OK ((5 * 2 ^ 64 + 7) / (2 ^ 63 + 1), (5 * 2 ^ 64 + 7) mod (2 ^ 63 + 1)).
Proof. rewrite U64Div_correct; [done|split; vm_compute; congruence..]. Defined.
