(* ===== verification/Digits.v ===== *)
(** * Digit lists and their values

    The words of a [nat] are the digits of a number, least significant first,
    in base [2 ^ UintSize].  This file relates lists of digits to the numbers
    they stand for; the files on nat.c, natadd.c, natsub.c, natmul.c and
    natdiv.c state their results with it. *)

From S2P Require Import Prelude Words.

Local Open Scope Z_scope.

Section digits.
Context `{T : Target}.

(** The number a digit list stands for *)
Fixpoint value (xs : list Z) : Z :=
  match xs with
  | [] => 0
  | x :: xs => x + Base * value xs
  end.

Definition digits (xs : list Z) : Prop := Forall (word UintSize) xs.

(** No leading zeros: the form [natNorm] produces *)
Definition normalized (xs : list Z) : Prop := last xs <> Some 0.

(** The digits without their leading zeros *)
Fixpoint strip (xs : list Z) : list Z :=
  match xs with
  | [] => []
  | x :: xs =>
      match strip xs with
      | [] => if x =? 0 then [] else [x]
      | ys => x :: ys
      end
  end.

(** [B ^ k] *)
Definition Bpow (k : nat) : Z := Base ^ Z.of_nat k.

(** ** Powers of the base *)

Lemma Base_gt0 : 0 < Base.
Proof. pose proof Base_pos. lia. Qed.

Lemma Bpow_0 : Bpow 0 = 1.
Proof. reflexivity. Qed.

Lemma Bpow_S k : Bpow (S k) = Base * Bpow k.
Proof. unfold Bpow. rewrite Nat2Z.inj_succ, Z.pow_succ_r by lia. done. Qed.

Lemma Bpow_add j k : Bpow (j + k) = Bpow j * Bpow k.
Proof. unfold Bpow. rewrite Nat2Z.inj_add, Z.pow_add_r by lia. done. Qed.

Lemma Bpow_gt0 k : 0 < Bpow k.
Proof. apply Z.pow_pos_nonneg; [apply Base_gt0|lia]. Qed.

Lemma Bpow_mono j k : (j <= k)%nat -> Bpow j <= Bpow k.
Proof. intros. apply Z.pow_le_mono_r; [apply Base_gt0|lia]. Qed.

Lemma word_range x : word UintSize x <-> 0 <= x < Base.
Proof. reflexivity. Qed.

(** ** Lists *)

Lemma digits_nil : digits [].
Proof. constructor. Qed.

Lemma digits_cons x xs : digits (x :: xs) <-> 0 <= x < Base /\ digits xs.
Proof. apply List.Forall_cons_iff. Qed.

Lemma digits_app xs ys : digits (xs ++ ys) <-> digits xs /\ digits ys.
Proof. apply Forall_app. Qed.

Lemma digits_snoc xs x : digits xs -> 0 <= x < Base -> digits (xs ++ [x]).
Proof. intros. apply digits_app. split; [done|]. by apply Forall_singleton. Qed.

Lemma digits_take k xs : digits xs -> digits (take k xs).
Proof. apply Forall_take. Qed.

Lemma digits_drop k xs : digits xs -> digits (drop k xs).
Proof. apply Forall_drop. Qed.

Lemma digits_replicate n : digits (replicate n 0).
Proof. apply Forall_replicate. split; [lia|]. apply pow2_pos. pose proof UintSize_pos. lia. Qed.

Lemma digits_lookup xs k x : digits xs -> xs !! k = Some x -> 0 <= x < Base.
Proof. intros Hxs Hk. exact (Forall_lookup_1 _ _ _ _ Hxs Hk). Qed.

Lemma value_cons x xs : value (x :: xs) = x + Base * value xs.
Proof. reflexivity. Qed.

Lemma value_nil : value [] = 0.
Proof. reflexivity. Qed.

Lemma value_app xs ys : value (xs ++ ys) = value xs + Bpow (length xs) * value ys.
Proof.
  induction xs as [|x xs IH]; cbn [app value length]; [rewrite Bpow_0; lia|].
  rewrite IH, Bpow_S. lia.
Qed.

Lemma value_snoc xs x : value (xs ++ [x]) = value xs + Bpow (length xs) * x.
Proof. rewrite value_app. cbn [value]. lia. Qed.

Lemma value_replicate n : value (replicate n 0) = 0.
Proof. induction n as [|n IH]; cbn [replicate value]; [done|]. rewrite IH. lia. Qed.

Lemma value_take_drop k xs : (k <= length xs)%nat ->
  value xs = value (take k xs) + Bpow k * value (drop k xs).
Proof.
  intros Hk. rewrite <- (take_drop k xs) at 1. rewrite value_app, length_take.
  by rewrite Nat.min_l by lia.
Qed.

Lemma value_take_S xs k x : xs !! k = Some x ->
  value (take (S k) xs) = value (take k xs) + Bpow k * x.
Proof.
  intros Hx. rewrite (take_S_r _ _ x) by done. rewrite value_snoc, length_take.
  apply lookup_lt_Some in Hx. by rewrite Nat.min_l by lia.
Qed.

Lemma value_bound xs : digits xs -> 0 <= value xs < Bpow (length xs).
Proof.
  induction xs as [|x xs IH]; cbn [value length]; intros Hxs; [rewrite Bpow_0; lia|].
  apply digits_cons in Hxs as [Hx Hxs]. specialize (IH Hxs). rewrite Bpow_S. nia.
Qed.

Lemma value_nonneg xs : digits xs -> 0 <= value xs.
Proof. apply value_bound. Qed.

(** Digits are determined by length and value. *)
Lemma value_inj xs ys : digits xs -> digits ys -> length xs = length ys ->
  value xs = value ys -> xs = ys.
Proof.
  revert ys. induction xs as [|x xs IH]; intros [|y ys] Hx Hy Hlen Hv; try done.
  apply digits_cons in Hx as [Hx Hxs], Hy as [Hy Hys]. cbn [value] in Hv.
  assert (value xs = value ys) as Hvs by nia.
  assert (x = y) as -> by lia. f_equal. apply IH; auto.
Qed.

(** ** Leading zeros *)

Lemma normalized_nil : normalized [].
Proof. done. Qed.

Lemma normalized_bound xs : digits xs -> normalized xs -> xs <> [] ->
  Bpow (length xs - 1) <= value xs.
Proof.
  intros Hxs Hn Hne. destruct xs as [|x xs _] using rev_ind; [done|].
  unfold normalized in Hn. rewrite last_snoc in Hn.
  apply digits_app in Hxs as [Hxs Hx]. apply digits_cons in Hx as [Hx _].
  rewrite value_snoc, length_app. cbn [length].
  replace (length xs + 1 - 1)%nat with (length xs) by lia.
  pose proof (value_nonneg xs Hxs). pose proof (Bpow_gt0 (length xs)).
  assert (x <> 0) by congruence. nia.
Qed.

(** More digits, larger number. *)
Lemma value_lt_length xs ys : digits xs -> digits ys -> normalized ys ->
  (length xs < length ys)%nat -> value xs < value ys.
Proof.
  intros Hxs Hys Hn Hlen. pose proof (value_bound xs Hxs).
  assert (ys <> []) by (intros ->; simpl in Hlen; lia).
  pose proof (normalized_bound ys Hys Hn H0).
  pose proof (Bpow_mono (length xs) (length ys - 1) ltac:(lia)). lia.
Qed.

(** The value bounds the length of a normalized list, and the other way round. *)
Lemma length_value xs n : digits xs -> normalized xs -> value xs < Bpow n -> (length xs <= n)%nat.
Proof.
  intros Hd Hn Hv. destruct (Nat.le_gt_cases (length xs) n) as [|Hgt]; [done|].
  assert (xs <> []) as Hne by (intros ->; simpl in Hgt; lia).
  pose proof (normalized_bound xs Hd Hn Hne). pose proof (Bpow_mono n (length xs - 1) ltac:(lia)). lia.
Qed.

Lemma value_length xs n : digits xs -> Bpow n <= value xs -> (n < length xs)%nat.
Proof.
  intros Hd Hv. destruct (Nat.le_gt_cases (length xs) n) as [Hle|]; [|done].
  pose proof (value_bound xs Hd). pose proof (Bpow_mono _ _ Hle). lia.
Qed.

(** A number that has not become smaller keeps its top digit. *)
Lemma normalized_larger xs ys : digits xs -> digits ys -> normalized xs -> length ys = length xs ->
  value xs <= value ys -> normalized ys.
Proof.
  intros Hx Hy Hn Hl Hv. destruct ys as [|y ys _] using rev_ind; [done|].
  unfold normalized. rewrite last_snoc. intros [= ->]. apply digits_app in Hy as [Hy _].
  rewrite length_app in Hl. cbn [length] in Hl.
  assert (xs <> []) as Hne by (intros ->; simpl in Hl; lia).
  pose proof (normalized_bound xs Hx Hn Hne) as Hb. pose proof (value_bound ys Hy) as Hys.
  replace (length xs - 1)%nat with (length ys) in Hb by lia. rewrite value_snoc in Hv. lia.
Qed.

(** The length of a power of a word *)
Lemma power_length xs x e : digits xs -> normalized xs -> 1 < x < Base -> 0 < e -> value xs = x ^ e ->
  Z.of_nat (length xs) <= e.
Proof.
  intros Hd Hn Hx He Hv. enough (length xs <= Z.to_nat e)%nat by lia. apply length_value; [done..|].
  unfold Bpow. rewrite Hv, Z2Nat.id by lia. apply Z.pow_lt_mono_l; lia.
Qed.

Lemma normalized_value_0 xs : digits xs -> normalized xs -> value xs = 0 -> xs = [].
Proof.
  intros Hxs Hn Hv. destruct (decide (xs = [])) as [|Hne]; [done|].
  pose proof (normalized_bound xs Hxs Hn Hne). pose proof (Bpow_gt0 (length xs - 1)). lia.
Qed.

(** Normalized digit lists are determined by their value. *)
Lemma normalized_inj xs ys : digits xs -> digits ys -> normalized xs -> normalized ys ->
  value xs = value ys -> xs = ys.
Proof.
  intros Hxs Hys Hnx Hny Hv. apply value_inj; try done.
  destruct (lt_eq_lt_dec (length xs) (length ys)) as [[Hlt|]|Hlt]; [|done|].
  - pose proof (value_lt_length xs ys Hxs Hys Hny Hlt). lia.
  - pose proof (value_lt_length ys xs Hys Hxs Hnx Hlt). lia.
Qed.

(** The first [i] digits with zeros after them *)
Lemma value_take_zeros i xs : (i <= length xs)%nat ->
  (forall k x, (i <= k)%nat -> xs !! k = Some x -> x = 0) -> value (take i xs) = value xs.
Proof.
  intros Hi Hz. rewrite (value_take_drop i xs) by done.
  assert (drop i xs = replicate (length xs - i) 0) as ->.
  { apply list_eq. intros k. destruct (decide (k < length xs - i)%nat) as [Hk|Hk].
    - rewrite lookup_replicate_2 by done. rewrite lookup_drop.
      destruct (lookup_lt_is_Some_2 xs (i + k)) as [x Hx]; [lia|].
      rewrite Hx. f_equal. apply (Hz (i + k)%nat); [lia|done].
    - rewrite !lookup_ge_None_2; [done|rewrite length_replicate; lia|rewrite length_drop; lia]. }
  rewrite value_replicate. lia.
Qed.

Lemma normalized_take i x xs : xs !! i = Some x -> x <> 0 -> normalized (take (S i) xs).
Proof.
  intros Hx Hnz. unfold normalized. rewrite (take_S_r _ _ x), last_snoc by done. congruence.
Qed.

Lemma strip_zeros xs : exists k, xs = strip xs ++ replicate k 0.
Proof.
  induction xs as [|x xs [k IH]]; [by exists O|]. cbn [strip].
  destruct (strip xs) as [|y ys] eqn:E.
  - destruct (Z.eqb_spec x 0) as [->|]; [|by exists k; rewrite IH at 1].
    exists (S k). simpl. by rewrite IH at 1.
  - exists k. by rewrite IH at 1.
Qed.

Lemma strip_value xs : value (strip xs) = value xs.
Proof.
  destruct (strip_zeros xs) as [k Hk]. rewrite Hk at 2.
  rewrite value_app, value_replicate. lia.
Qed.

Lemma strip_normalized xs : normalized (strip xs).
Proof.
  unfold normalized. induction xs as [|x xs IH]; [done|]. cbn [strip].
  destruct (strip xs) as [|y ys] eqn:E; [|done].
  destruct (Z.eqb_spec x 0); simpl; congruence.
Qed.

Lemma strip_length xs : (length (strip xs) <= length xs)%nat.
Proof. destruct (strip_zeros xs) as [k Hk]. rewrite Hk at 2. rewrite length_app. lia. Qed.

Lemma strip_digits xs : digits xs -> digits (strip xs).
Proof. destruct (strip_zeros xs) as [k Hk]. rewrite Hk at 1. by intros [? _]%digits_app. Qed.

Lemma strip_id xs : normalized xs -> strip xs = xs.
Proof.
  intros Hn. destruct (strip_zeros xs) as [k Hk]. destruct k as [|k].
  - rewrite app_nil_r in Hk. done.
  - exfalso. apply Hn. rewrite Hk, replicate_S_end, app_assoc, last_snoc. done.
Qed.

Lemma strip_snoc_0 xs : strip (xs ++ [0]) = strip xs.
Proof.
  induction xs as [|x xs IH]; [done|]. cbn [app strip]. by rewrite IH.
Qed.

Lemma strip_snoc xs x : x <> 0 -> strip (xs ++ [x]) = xs ++ [x].
Proof. intros. apply strip_id. unfold normalized. rewrite last_snoc. congruence. Qed.

(** Splitting off the most significant digit: comparing digit lists of the
    same length from the top. *)
Lemma value_compare_top xs ys i x y : digits xs -> digits ys -> length xs = length ys ->
  xs !! i = Some x -> ys !! i = Some y -> drop (S i) xs = drop (S i) ys ->
  x < y -> value xs < value ys.
Proof.
  intros Hxs Hys Hlen Hx Hy Hd Hlt.
  pose proof (lookup_lt_Some _ _ _ Hx). pose proof (lookup_lt_Some _ _ _ Hy).
  rewrite (value_take_drop (S i) xs), (value_take_drop (S i) ys), Hd by lia.
  rewrite (value_take_S xs i x), (value_take_S ys i y) by done.
  pose proof (value_bound (take i xs) (digits_take i xs Hxs)).
  pose proof (value_bound (take i ys) (digits_take i ys Hys)).
  rewrite length_take, Nat.min_l in * by lia. nia.
Qed.

End digits.

#[export] Hint Resolve strip_digits strip_normalized digits_nil digits_snoc digits_take digits_drop digits_replicate
  normalized_nil value_nonneg : cword.
#[global] Arguments value : simpl never.
