(* ===== verification/Carry.v ===== *)
(** * Carries and borrows along a digit list

    The arithmetic of the loops of natadd.c and natsub.c on lists of digits.
    [addVW] and [subVW] pass the carry of the previous digit both as the word
    to add and as the carry-in of [UIntAdd], so a carry that travels past the
    first digit is counted twice; [vw_fun] is the function they compute. *)

From S2P Require Import Prelude Words Digits.

Local Open Scope Z_scope.

Section carry.
Context `{T : Target}.

(** The digits and the carry of the loops of [addVW] ([sg = 1]) and [subVW]
    ([sg = -1]), with the word [c] and the carry [oc] at their start *)
Fixpoint vw_fun (sg c oc : Z) (xs : list Z) : list Z * Z :=
  match xs with
  | [] => ([], c)
  | x :: xs =>
      let s := x + sg * (c + oc) in
      let c' := sg * (s / Base) in
      let '(zs, r) := vw_fun sg c' c' xs in
      (s mod Base :: zs, r)
  end.

(** The carry of the first [length ys] digits of [xs + ys], and the borrow of
    those of [xs - ys] *)
Definition low_carry (sg : Z) (xs ys : list Z) : Z :=
  sg * ((value (take (length ys) xs) + sg * value ys) / Bpow (length ys)).

(** Adding [ys] to (or subtracting it from) the longer [xs] meets neither of
    the two defects of the loops: either no carry enters the high digits of
    [xs], or there are at most 32 of them and the carry stops at the first. *)
Definition carry_safe (sg : Z) (xs ys : list Z) : bool :=
  (low_carry sg xs ys =? 0) ||
  (Nat.leb (length xs - length ys) 32 &&
   (Nat.leb (length xs - length ys) 1 ||
    negb (xs !!! length ys =? (if sg =? 1 then Base - 1 else 0)))).

(** ** Balance equations *)

Lemma vv_balance sg outs (vx vy x y c s c' : Z) :
  value outs + sg * (Bpow (length outs) * c) = vx + sg * vy ->
  s + sg * (Base * c') = x + sg * y + sg * c ->
  value (outs ++ [s]) + sg * (Bpow (length (outs ++ [s])) * c') =
  (vx + Bpow (length outs) * x) + sg * (vy + Bpow (length outs) * y).
Proof.
  intros Hv Hs. rewrite value_snoc, length_app. cbn [length].
  rewrite Nat.add_1_r, Bpow_S. nia.
Qed.

Lemma mulVW_balance outs (vx x y r c lo c' : Z) :
  value outs + Bpow (length outs) * c = vx * y + r ->
  lo + Base * c' = x * y + c ->
  value (outs ++ [lo]) + Bpow (length (outs ++ [lo])) * c' =
  (vx + Bpow (length outs) * x) * y + r.
Proof.
  intros Hv Hs. rewrite value_snoc, length_app. cbn [length].
  rewrite Nat.add_1_r, Bpow_S. nia.
Qed.

Lemma low_carry_eq sg xs ys outs c : sg = 1 \/ sg = -1 -> digits outs ->
  length outs = length ys ->
  value outs + sg * (Bpow (length ys) * c) = value (take (length ys) xs) + sg * value ys ->
  low_carry sg xs ys = c.
Proof.
  intros Hsg Hd Hl Hv. unfold low_carry. rewrite <- Hv.
  pose proof (value_bound outs Hd) as Hb. rewrite Hl in Hb. pose proof (Bpow_gt0 (length ys)).
  rewrite (div_unique_range _ (Bpow (length ys)) (sg * c)); [destruct Hsg; subst; lia|done|].
  destruct Hsg; subst; lia.
Qed.

(** ** The carry function *)

Lemma vw_fun_length sg c oc xs : length (fst (vw_fun sg c oc xs)) = length xs.
Proof.
  revert c oc. induction xs as [|x xs IH]; intros c oc; cbn [vw_fun]; [done|]. cbv zeta.
  set (c' := sg * _). specialize (IH c' c'). destruct (vw_fun _ _ _ xs). simpl in *. lia.
Qed.

Lemma vw_fun_digits sg c oc xs : digits (fst (vw_fun sg c oc xs)).
Proof.
  revert c oc. induction xs as [|x xs IH]; intros c oc; cbn [vw_fun]; [constructor|]. cbv zeta.
  set (c' := sg * _). specialize (IH c' c'). destruct (vw_fun _ _ _ xs).
  constructor; [|done]. apply Z.mod_pos_bound, Base_gt0.
Qed.

(** One more iteration *)
Definition vw_oc (oc c1 : Z) (xs : list Z) : Z := match xs with [] => oc | _ => c1 end.

Lemma vw_fun_snoc sg c oc xs x :
  let c1 := snd (vw_fun sg c oc xs) in
  let s := x + sg * (c1 + vw_oc oc c1 xs) in
  vw_fun sg c oc (xs ++ [x]) = (fst (vw_fun sg c oc xs) ++ [s mod Base], sg * (s / Base)).
Proof.
  revert c oc. induction xs as [|a xs IH]; intros c oc; [done|].
  cbn [vw_fun app]. cbv zeta. set (c' := sg * _). specialize (IH c' c'). cbv zeta in IH.
  destruct (vw_fun sg c' c' xs) as [zs c1] eqn:E. cbn [fst snd vw_oc] in *.
  destruct xs as [|b xs]; [|by rewrite IH].
  cbn [vw_fun] in E. simplify_eq. by rewrite IH.
Qed.

Lemma carry_range sg x c : sg = 1 \/ sg = -1 -> 0 <= x < Base -> 0 <= c <= Base ->
  0 <= sg * ((x + sg * c) / Base) <= 1.
Proof.
  intros Hsg Hx Hc. pose proof Base_gt0 as HB.
  pose proof (Z.div_mod (x + sg * c) Base (Z.neq_sym _ _ (Z.lt_neq _ _ HB))).
  pose proof (Z.mod_pos_bound (x + sg * c) Base HB). destruct Hsg; subst; nia.
Qed.

Lemma vw_fun_range sg c oc xs : sg = 1 \/ sg = -1 -> digits xs -> 0 <= c -> 0 <= oc ->
  c + oc <= Base -> xs <> [] -> 0 <= snd (vw_fun sg c oc xs) <= 1.
Proof.
  intros Hsg. revert c oc. induction xs as [|x xs IH]; intros c oc Hd Hc Hoc Hle Hne; [done|].
  apply digits_cons in Hd as [Hx Hd]. cbn [vw_fun]. cbv zeta. set (c' := sg * _).
  assert (0 <= c' <= 1) as Hc' by (apply carry_range; done || lia).
  destruct xs as [|x' xs]; [done|].
  assert (2 <= Base) by (pose proof Base_pos; lia).
  specialize (IH c' c' Hd ltac:(lia) ltac:(lia) ltac:(lia) ltac:(done)).
  by destruct (vw_fun sg c' c' (x' :: xs)).
Qed.

Lemma vw_fun_0 sg xs : digits xs -> vw_fun sg 0 0 xs = (xs, 0).
Proof.
  induction xs as [|x xs IH]; [done|]. intros [Hx Hxs]%digits_cons. cbn [vw_fun].
  cbv zeta. rewrite !Z.mul_0_r, !Z.add_0_r, Z.div_small, Z.mod_small by done.
  rewrite Z.mul_0_r, IH by done. done.
Qed.

(** Every carry past the first digit is added twice: the result of [addVW] is
    never below the sum, that of [subVW] never above the difference. *)
Lemma vw_fun_excess sg c oc xs : sg = 1 \/ sg = -1 -> digits xs -> 0 <= c -> 0 <= oc ->
  xs <> [] ->
  sg * value xs + c + oc <=
  sg * value (fst (vw_fun sg c oc xs)) + Bpow (length xs) * snd (vw_fun sg c oc xs).
Proof.
  intros Hsg. revert c oc. induction xs as [|x xs IH]; intros c oc Hd Hc Hoc Hne; [done|].
  apply digits_cons in Hd as [Hx Hd]. cbn [vw_fun]. cbv zeta.
  set (s := x + sg * (c + oc)). set (c' := sg * (s / Base)). pose proof Base_gt0 as HB.
  pose proof (Z.div_mod s Base (Z.neq_sym _ _ (Z.lt_neq _ _ HB))) as Hs.
  pose proof (Z.mod_pos_bound s Base HB).
  assert (0 <= c') as Hc'. { subst c' s. destruct Hsg; subst; nia. }
  destruct xs as [|x' xs].
  - cbn [vw_fun fst snd length]. rewrite Bpow_S, Bpow_0. unfold value.
    subst c' s. destruct Hsg; subst; lia.
  - specialize (IH c' c' Hd Hc' Hc' ltac:(done)).
    destruct (vw_fun sg c' c' (x' :: xs)) as [zs r]. cbn [fst snd] in *.
    cbn [length] in *. rewrite Bpow_S.
    change (value (x :: x' :: xs)) with (x + Base * value (x' :: xs)).
    change (value (s mod Base :: zs)) with (s mod Base + Base * value zs).
    subst c' s. destruct Hsg; subst; nia.
Qed.

Lemma vw_fun_exact sg c xs x : sg = 1 \/ sg = -1 -> digits (x :: xs) -> 0 <= c < Base ->
  (value (fst (vw_fun sg c 0 (x :: xs))) +
   sg * (Bpow (length (x :: xs)) * snd (vw_fun sg c 0 (x :: xs))) = value (x :: xs) + sg * c
   <-> xs = [] \/ 0 <= x + sg * c < Base).
Proof.
  intros Hsg [Hx Hd]%digits_cons Hc. cbn [vw_fun]. cbv zeta. rewrite Z.add_0_r.
  set (s := x + sg * c) in *. set (c' := sg * (s / Base)). pose proof Base_gt0 as HB.
  pose proof (Z.div_mod s Base (Z.neq_sym _ _ (Z.lt_neq _ _ HB))) as Hs.
  pose proof (Z.mod_pos_bound s Base HB) as Hm.
  assert (0 <= c' <= 1) as Hc' by (apply carry_range; done || lia).
  destruct xs as [|x' xs].
  { cbn [vw_fun fst snd length]. rewrite Bpow_S, Bpow_0. unfold value. split; [auto|].
    intros _. subst c'. destruct Hsg; subst; lia. }
  split.
  - intros Heq. right. destruct (decide (0 <= s < Base)) as [|Hout]; [done|exfalso]. assert (c' = 1) as H1.
    { subst c' s. destruct Hsg; subst; nia. }
    rewrite H1 in *. pose proof (vw_fun_excess sg 1 1 (x' :: xs) Hsg Hd ltac:(lia) ltac:(lia) ltac:(done)).
    destruct (vw_fun sg 1 1 (x' :: xs)) as [zs r]. cbn [fst snd] in *.
    change (value (x :: x' :: xs)) with (x + Base * value (x' :: xs)) in Heq.
    change (value (s mod Base :: zs)) with (s mod Base + Base * value zs) in Heq.
    cbn [length] in *. rewrite (Bpow_S (S _)) in Heq. subst c' s. destruct Hsg; subst; nia.
  - intros [|Hlt]; [done|]. assert (c' = 0) as ->.
    { subst c'. rewrite Z.div_small by done. lia. }
    rewrite (Z.mod_small s) by lia. rewrite vw_fun_0 by done. cbn [fst snd].
    change (value (x :: x' :: xs)) with (x + Base * value (x' :: xs)).
    change (value (s :: x' :: xs)) with (s + Base * value (x' :: xs)). lia.
Qed.

(** ** Low and high digits together *)

Lemma vw_value sg c n xs vy lo : sg = 1 \/ sg = -1 -> digits xs -> 0 <= c <= 1 ->
  (n <= length xs)%nat -> length lo = n ->
  value lo + sg * (Bpow n * c) = value (take n xs) + sg * vy ->
  let r := vw_fun sg c 0 (drop n xs) in
  (value (lo ++ fst r) + sg * (Bpow (length xs) * snd r) = value xs + sg * vy <->
   c = 0 \/ (length xs - n <= 1)%nat \/ xs !!! n <> (if sg =? 1 then Base - 1 else 0)).
Proof.
  intros Hsg Hd Hc Hn Hlo Hv r. pose proof Base_pos as HB. pose proof (Bpow_gt0 n) as HP.
  rewrite value_app, Hlo, (value_take_drop n xs) by done.
  replace (length xs) with (n + (length xs - n))%nat at 1 by lia. rewrite Bpow_add.
  pose proof (digits_drop n xs Hd) as Hdd. pose proof (length_drop xs n) as Hld.
  assert (value (fst r) + sg * (Bpow (length xs - n) * snd r) = value (drop n xs) + sg * c <->
          c = 0 \/ (length xs - n <= 1)%nat \/ xs !!! n <> (if sg =? 1 then Base - 1 else 0)) as <-.
  2:{ split; intros He.
      - apply (Z.mul_reg_l _ _ (Bpow n)); [lia|]. destruct Hsg; subst sg; lia.
      - destruct Hsg; subst sg; nia. }
  subst r. rewrite <- Hld. destruct (drop n xs) as [|x hi] eqn:E.
  { cbn [vw_fun fst snd length] in *. rewrite Bpow_0. unfold value. split; [lia|]. lia. }
  rewrite vw_fun_exact by (done || lia).
  assert (xs !!! n = x) as ->.
  { apply list_lookup_total_correct. rewrite <- (take_drop n xs), E.
    rewrite lookup_app_r, length_take, Nat.min_l, Nat.sub_diag by (rewrite ?length_take; lia). done. }
  apply digits_cons in Hdd as [Hx _]. cbn [length] in *.
  assert (hi = [] <-> (S (length hi) <= 1)%nat) as Hhi by (destruct hi; simpl; split; (done || lia)).
  rewrite Hhi. destruct Hsg; subst sg; [change (1 =? 1) with true|change (-1 =? 1) with false]; cbv iota;
    clear - Hx Hc HB; split; intros H; destruct (decide (c = 0)); lia.
Qed.

Lemma carry_safe_exact sg xs ys : (length xs - length ys <= 32)%nat ->
  carry_safe sg xs ys = true <->
  low_carry sg xs ys = 0 \/ (length xs - length ys <= 1)%nat \/
  xs !!! length ys <> (if sg =? 1 then Base - 1 else 0).
Proof.
  intros H. unfold carry_safe. rewrite orb_true_iff, andb_true_iff, orb_true_iff, negb_true_iff.
  rewrite Z.eqb_eq, Z.eqb_neq, !Nat.leb_le. tauto.
Qed.

Lemma carry_safe_small sg xs ys : carry_safe sg xs ys = true ->
  (length xs - length ys <= 32)%nat \/ low_carry sg xs ys = 0.
Proof.
  unfold carry_safe. rewrite orb_true_iff, andb_true_iff, Z.eqb_eq, !Nat.leb_le. tauto.
Qed.

Lemma carry_safe_cases sg xs ys : carry_safe sg xs ys = true ->
  low_carry sg xs ys = 0 \/ (length xs - length ys <= 1)%nat \/
  xs !!! length ys <> (if sg =? 1 then Base - 1 else 0).
Proof.
  intros H. destruct (carry_safe_small _ _ _ H); [|by left]. by apply carry_safe_exact.
Qed.

End carry.
