(* ===== verification/Shift.v ===== *)
(** * Shifting words and digit lists by fewer bits than a word has *)

From S2P Require Import Prelude Words Digits.

Local Open Scope Z_scope.

(** ** One word *)

Lemma pow2_split (w s : Z) : 0 <= s <= w -> 2 ^ w = 2 ^ (w - s) * 2 ^ s.
Proof. intros. rewrite <- Z.pow_add_r by lia. f_equal. lia. Qed.

Lemma w_shl_eq (w x s : Z) : 0 <= s <= w -> w_shl w x s = (x mod 2 ^ (w - s)) * 2 ^ s.
Proof.
  intros Hs. unfold w_shl, wrap. rewrite Z.shiftl_mul_pow2 by lia.
  rewrite (pow2_split w s Hs). pose proof (pow2_pos s ltac:(lia)).
  pose proof (pow2_pos (w - s) ltac:(lia)). apply Z.mul_mod_distr_r; lia.
Qed.

(** The bits of [x] move up by [s]; the top [s] of them leave the word. *)
Lemma shl_parts (w x s : Z) : 0 <= s <= w -> 0 <= x < 2 ^ w ->
  x * 2 ^ s = w_shl w x s + 2 ^ w * Z.shiftr x (w - s) /\
  0 <= Z.shiftr x (w - s) < 2 ^ s /\ 0 <= w_shl w x s < 2 ^ w.
Proof.
  intros Hs Hx. rewrite w_shl_eq, Z.shiftr_div_pow2 by lia.
  pose proof (pow2_pos s ltac:(lia)) as Hp. pose proof (pow2_pos (w - s) ltac:(lia)) as Hq.
  pose proof (Z.div_mod x (2 ^ (w - s)) (Z.neq_sym _ _ (Z.lt_neq _ _ Hq))) as Hd.
  pose proof (Z.mod_pos_bound x (2 ^ (w - s)) Hq). rewrite (pow2_split w s Hs) in *.
  split; [nia|]. split; [|nia].
  split; [apply Z.div_pos; lia|apply Z.div_lt_upper_bound; lia].
Qed.

(** [x << s | y >> (w - s)]: the word of [x] after a shift of the pair [x, y] *)
Lemma shl_lor (w x y s : Z) : 0 <= s <= w -> 0 <= y < 2 ^ w ->
  Z.lor (w_shl w x s) (Z.shiftr y (w - s)) = w_shl w x s + Z.shiftr y (w - s).
Proof.
  intros Hs Hy. destruct (shl_parts w y s Hs Hy) as (_ & Hc & _).
  rewrite w_shl_eq by done. by apply lor_shifted_add; [lia|].
Qed.

Lemma shl_word_bound (w x c s : Z) : 0 <= s <= w -> 0 <= c < 2 ^ s ->
  0 <= w_shl w x s + c < 2 ^ w.
Proof.
  intros Hs Hc. rewrite w_shl_eq by done. rewrite (pow2_split w s Hs).
  pose proof (pow2_pos s ltac:(lia)) as Hp. pose proof (pow2_pos (w - s) ltac:(lia)) as Hq.
  pose proof (Z.mod_pos_bound x (2 ^ (w - s)) Hq). nia.
Qed.

(** [x >> s | y << (w - s)] *)
Lemma shr_lor (w x y s : Z) : 0 < s < w -> 0 <= x < 2 ^ w ->
  Z.lor (Z.shiftr x s) (w_shl w y (w - s)) = Z.shiftr x s + w_shl w y (w - s).
Proof.
  intros Hs Hx. rewrite Z.lor_comm, (w_shl_eq w y) by lia.
  destruct (shl_parts w x (w - s) ltac:(lia) Hx) as (_ & Hc & _).
  replace (w - (w - s)) with s in * by lia. rewrite lor_shifted_add by (done || lia). lia.
Qed.

(** ** Digit lists *)

Section digits.
Context `{T : Target}.

(** The digits of [value xs * 2 ^ s + c], but for those that leave the list;
    [shl_carry] is what leaves it. *)
Fixpoint shl_digits (s c : Z) (xs : list Z) : list Z :=
  match xs with
  | [] => []
  | x :: xs => w_shl UintSize x s + c :: shl_digits s (Z.shiftr x (UintSize - s)) xs
  end.

Definition shl_carry (s : Z) (xs : list Z) : Z :=
  match last xs with Some x => Z.shiftr x (UintSize - s) | None => 0 end.

Fixpoint shr_digits (s : Z) (xs : list Z) : list Z :=
  match xs with
  | [] => []
  | x :: ys =>
      Z.shiftr x s + match ys with y :: _ => w_shl UintSize y (UintSize - s) | [] => 0 end
      :: shr_digits s ys
  end.

Lemma shl_digits_length s c xs : length (shl_digits s c xs) = length xs.
Proof. revert c. induction xs as [|x xs IH]; intros c; simpl; [done|]. by rewrite IH. Qed.

Lemma shr_digits_length s xs : length (shr_digits s xs) = length xs.
Proof. induction xs as [|x xs IH]; simpl; [done|]. by rewrite IH. Qed.

Lemma shl_digits_value s c xs : 0 <= s <= UintSize -> digits xs -> 0 <= c < 2 ^ s ->
  digits (shl_digits s c xs) /\
  value (shl_digits s c xs) + Bpow (length xs) * (match xs with [] => c | _ => shl_carry s xs end) =
  value xs * 2 ^ s + c.
Proof.
  intros Hs. revert c. induction xs as [|x xs IH]; intros c Hd Hc.
  { split; [constructor|]. cbn [shl_digits length]. rewrite Bpow_0. unfold value. lia. }
  apply digits_cons in Hd as [Hx Hd]. change (0 <= x < 2 ^ UintSize) in Hx.
  destruct (shl_parts UintSize x s Hs Hx) as (Hsum & Hc' & _).
  destruct (IH _ Hd Hc') as [IHd IHv]. cbn [shl_digits]. split.
  { apply digits_cons. split; [by apply shl_word_bound|done]. }
  cbn [length]. rewrite Bpow_S.
  assert (match xs with [] => Z.shiftr x (UintSize - s) | _ => shl_carry s xs end =
    shl_carry s (x :: xs)) as He by by destruct xs.
  rewrite He in IHv. unfold value; fold value. change (2 ^ UintSize) with Base in *. nia.
Qed.

Lemma shl_carry_bound s xs : 0 <= s <= UintSize -> digits xs -> 0 <= shl_carry s xs < 2 ^ s.
Proof.
  intros Hs Hd. unfold shl_carry. pose proof (pow2_pos s ltac:(lia)).
  destruct (last xs) as [x|] eqn:E; [|lia]. apply last_Some in E as [ys ->].
  apply digits_app in Hd as [_ [Hx _]%digits_cons]. by apply (shl_parts UintSize x s).
Qed.

Lemma shl_digits_head s c x xs : shl_digits s c (x :: xs) !! O = Some (w_shl UintSize x s + c).
Proof. done. Qed.

Lemma shl_digits_lookup s c xs k x y : xs !! k = Some x -> xs !! S k = Some y ->
  shl_digits s c xs !! S k = Some (w_shl UintSize y s + Z.shiftr x (UintSize - s)).
Proof.
  revert c k. induction xs as [|a xs IH]; intros c k Hx Hy; [done|].
  destruct k as [|k]; simpl in *; [|by apply IH].
  destruct xs; simpl in *; simplify_eq. done.
Qed.

Lemma shr_digits_value s xs : 0 < s < UintSize -> digits xs ->
  digits (shr_digits s xs) /\
  value xs = value (shr_digits s xs) * 2 ^ s + match xs with [] => 0 | x :: _ => x mod 2 ^ s end.
Proof.
  intros Hs. induction xs as [|x xs IH]; intros Hd; [split; [exact digits_nil|unfold value; cbn; lia]|].
  apply digits_cons in Hd as [Hx Hd]. change (0 <= x < 2 ^ UintSize) in Hx.
  specialize (IH Hd) as [IHd IHv]. cbn [shr_digits].
  pose proof (pow2_pos s ltac:(lia)) as Hp.
  pose proof (Z.div_mod x (2 ^ s) (Z.neq_sym _ _ (Z.lt_neq _ _ Hp))) as Hxd.
  assert (0 <= s <= UintSize) as Hs1 by lia. assert (0 <= UintSize - s <= UintSize) as Hs2 by lia.
  pose proof (pow2_split UintSize s Hs1) as Hsp.
  destruct (shl_parts UintSize x (UintSize - s) Hs2 Hx) as (_ & Hb & _).
  replace (UintSize - (UintSize - s)) with s in Hb by lia.
  assert (match xs with y :: _ => w_shl UintSize y (UintSize - s) | [] => 0 end =
    (match xs with [] => 0 | y :: _ => y mod 2 ^ s end) * 2 ^ (UintSize - s)) as ->.
  { destruct xs as [|y ys]; [lia|]. rewrite w_shl_eq by lia.
    by replace (UintSize - (UintSize - s)) with s by lia. }
  set (l := match xs with [] => 0 | y :: _ => y mod 2 ^ s end) in *.
  assert (0 <= l < 2 ^ s) as Hl.
  { subst l. destruct xs; [lia|]. by apply Z.mod_pos_bound. }
  rewrite Z.shiftr_div_pow2 in * by lia. split.
  - apply digits_cons. split; [|done]. unfold Base. nia.
  - unfold value; fold value. unfold Base. nia.
Qed.

Lemma shr_digits_lookup s xs k x y : xs !! k = Some x -> xs !! S k = Some y ->
  shr_digits s xs !! k = Some (Z.shiftr x s + w_shl UintSize y (UintSize - s)).
Proof.
  revert k. induction xs as [|a xs IH]; intros k Hx Hy; [done|].
  destruct k as [|k]; simpl in *; [|by apply IH].
  destruct xs; simpl in *; simplify_eq. done.
Qed.

Lemma shr_digits_last s xs x : last xs = Some x -> last (shr_digits s xs) = Some (Z.shiftr x s).
Proof.
  induction xs as [|a xs IH]; [done|]. destruct xs as [|b xs].
  - simpl. intros [= ->]. by rewrite Z.add_0_r.
  - intros Hl. change (last (b :: xs) = Some x) in Hl. specialize (IH Hl).
    cbn [shr_digits] in *. done.
Qed.

Lemma w_shl_small x s : 0 <= s -> 0 <= x * 2 ^ s < Base -> w_shl UintSize x s = x * 2 ^ s.
Proof.
  intros Hs Hx. unfold w_shl. rewrite Z.shiftl_mul_pow2 by done. by apply wrap_small.
Qed.

(** A word that is shifted out bit by bit *)
Lemma shl_shl y s : 0 <= s -> w_shl UintSize (w_shl UintSize y s) 1 = w_shl UintSize y (s + 1).
Proof.
  intros Hs. unfold w_shl, wrap. rewrite !Z.shiftl_mul_pow2 by lia. rewrite Z.mul_mod_idemp_l.
  - rewrite Z.pow_add_r by lia. f_equal. lia.
  - pose proof Base_gt0. unfold Base in *. lia.
Qed.

Lemma shl_top y s : 0 <= s < UintSize ->
  (Z.land (w_shl UintSize y s) (w_shl UintSize 1 (UintSize - 1)) =? 0) = negb (Z.testbit y (UintSize - 1 - s)).
Proof.
  intros Hs. pose proof UintSize_pos. rewrite (w_shl_small 1).
  - rewrite Z.mul_1_l, land_bit by lia. f_equal. unfold w_shl, wrap.
    rewrite Z.mod_pow2_bits_low by lia. by rewrite Z.shiftl_spec by lia.
  - lia.
  - rewrite Z.mul_1_l. unfold Base. split; [apply Z.pow_nonneg; lia|]. apply Z.pow_lt_mono_r; lia.
Qed.

End digits.
