(* ===== verification/DivWord.v ===== *)
(** * Division of two words by one: [reciprocalWord] and [divWW] of natdiv.c

    [divWW] divides with a precomputed reciprocal, two multiplications and at
    most two corrections; [divWW_spec] proves it equal to the Euclidean
    division. *)

From S2P Require Import Prelude Words Digits Shift.

Local Open Scope Z_scope.
Local Open Scope res_scope.

Section code.
Context `{T : Target}.

Definition nlz (x : Z) : res Z := LeadingZeros x.

(** [_M]: all ones.  The macro is [_B - 1] with [_B] a shift by the full width,
    which is undefined in C; the source says beside it that such a shift of a
    constant is 0, and that is what compilers make of it. *)
Definition word_max : Z := Base - 1.

Definition reciprocalWord (d1 : Z) : res Z :=
  let? s := nlz d1 in
  let u := w_shl UintSize d1 s in
  let x1 := w_not UintSize u in
  let x0 := word_max in
  let? (q, rem) := UIntDiv x1 x0 u in
  OK q.

Definition divWW (x1 x0 y m : Z) : res (Z * Z) :=
  let? s := nlz y in
  let '(x1, x0, y) :=
    (if negb (s =? 0) then
       (Z.lor (w_shl UintSize x1 s) (Z.shiftr x0 (UintSize - s)), w_shl UintSize x0 s,
        w_shl UintSize y s)
     else (x1, x0, y)) in
  let d := y in
  let '(t0, t1) := UIntMul m x1 in
  let '(_, c) := UIntAdd t0 x0 0 in
  let '(t1, c) := UIntAdd t1 x1 c in
  let qq := t1 in
  let '(dq0, dq1) := UIntMul d qq in
  let '(r0, b) := UIntSub x0 dq0 0 in
  let '(r1, b) := UIntSub x1 dq1 b in
  let '(qq, r0) :=
    (if negb (r1 =? 0) then (wrap UintSize (qq + 1), wrap UintSize (r0 - d)) else (qq, r0)) in
  let '(qq, r0) :=
    (if d <=? r0 then (wrap UintSize (qq + 1), wrap UintSize (r0 - d)) else (qq, r0)) in
  OK (qq, Z.shiftr r0 s).

End code.

(** ** The estimate with a reciprocal *)

(** [qq] estimates the quotient of [x1 * b + x0] by a normalized [d] from the
    reciprocal of [d]; it is at most two too small. *)
Lemma reciprocal_estimate (b d x1 x0 M qq : Z) :
  0 < d < b -> b <= 2 * d -> 0 <= x1 < d -> 0 <= x0 < b ->
  M = (b * b - 1) / d -> qq = (M * x1 + x0) / b ->
  b <= M < 2 * b /\ 0 <= qq < b /\
  0 <= x1 * b + x0 - d * qq < b + d /\ x1 * b + x0 - d * qq < 3 * d.
Proof.
  intros Hd Hb2 Hx1 Hx0 HM Hqq.
  pose proof (Z.div_mod (b * b - 1) d ltac:(lia)) as HMd. rewrite <- HM in HMd.
  pose proof (Z.mod_pos_bound (b * b - 1) d ltac:(lia)) as HMr.
  pose proof (Z.div_mod (M * x1 + x0) b ltac:(lia)) as Hqd. rewrite <- Hqq in Hqd.
  pose proof (Z.mod_pos_bound (M * x1 + x0) b ltac:(lia)) as Hqr.
  set (e := (b * b - 1) mod d) in *. set (f := (M * x1 + x0) mod b) in *. clearbody e f. clear HM Hqq.
  assert (b <= M < 2 * b) as HMb.
  { split.
    - apply Z.lt_pred_le, (Z.mul_lt_mono_pos_l d); [lia|].
      pose proof (mul_range_le d (Z.pred b) (b - 1) (b - 1) ltac:(lia) ltac:(lia)). lia.
    - apply (Z.mul_lt_mono_pos_l d); [lia|]. nia. }
  assert (M * x1 <= M * (d - 1)) as H1 by (apply Z.mul_le_mono_nonneg_l; lia).
  assert (0 <= M * x1) as H2 by (apply Z.mul_nonneg_nonneg; lia).
  assert (0 <= qq < b) as Hq by nia. split; [done|]. split; [done|].
  set (R := x1 * b + x0 - d * qq).
  assert (b * R = e * x1 + x1 + (b - d) * x0 + d * f) as HR.
  { unfold R. replace (b * (x1 * b + x0 - d * qq)) with
      (b * b * x1 + b * x0 - d * (b * qq)) by lia.
    replace (b * qq) with (M * x1 + x0 - f) by lia.
    replace (b * b) with (d * M + e + 1) by lia. lia. }
  pose proof (mul_range_le e x1 (d - 1) (d - 1) ltac:(lia) ltac:(lia)) as He.
  pose proof (mul_range_le (b - d) x0 (b - d) (b - 1) ltac:(lia) ltac:(lia)) as Hf.
  pose proof (mul_range_le d f d (b - 1) ltac:(lia) ltac:(lia)) as Hg.
  assert (0 <= b * R <= b * b - b + d * d) as HbR by lia.
  assert (d * d <= (b - 1) * (b - 1)) as Hdd by (apply Z.mul_le_mono_nonneg; lia).
  assert (0 <= (2 * d - b) * (b - d)) as Hf3 by (apply Z.mul_nonneg_nonneg; lia).
  assert (d * d <= b * d) as Hbd by (apply Z.mul_le_mono_nonneg; lia).
  split; [split|].
  - apply (Z.mul_nonneg_cancel_l b); lia.
  - apply (Z.mul_lt_mono_pos_l b); lia.
  - apply (Z.mul_lt_mono_pos_l b); lia.
Qed.

(** The pair [r0, r1] is [R] itself, and [r1] one bit. *)
Lemma top_digit (B R r0 r1 b : Z) :
  0 <= R < 2 * B -> 0 <= r0 < B -> 0 <= r1 < B -> 0 <= b <= 1 -> R = r0 + B * r1 - B * (B * b) ->
  b = 0 /\ ((r1 = 0 /\ R = r0) \/ (r1 = 1 /\ R = r0 + B)).
Proof.
  intros HR Hr0 Hr1 Hb He. assert (B * r1 <= B * (B - 1)) by (apply Z.mul_le_mono_nonneg_l; lia).
  assert (b = 0 \/ b = 1) as [-> | ->] by lia; [|lia]. split; [done|].
  assert (r1 < 2) by (apply (Z.mul_lt_mono_pos_l B); lia).
  assert (r1 = 0 \/ r1 = 1) as [-> | ->] by lia; lia.
Qed.

Section proofs.
Context `{T : Target}.

Lemma nlz_eq y : 0 < y < Base ->
  nlz y = OK (UintSize - bitlen y) /\ 0 <= UintSize - bitlen y < UintSize /\
  Base <= 2 * (y * 2 ^ (UintSize - bitlen y)) /\ y * 2 ^ (UintSize - bitlen y) < Base.
Proof.
  intros Hy. pose proof UintSize_pos.
  destruct (normalize_bounds UintSize y) as [Hs Hn]; [lia|done|].
  split; [apply LeadingZeros_eq; unfold word; unfold Base in *; lia|].
  pose proof Base_top. change (2 ^ UintSize) with Base in *. lia.
Qed.

Lemma reciprocalWord_eq y : 0 < y < Base ->
  let d := y * 2 ^ (UintSize - bitlen y) in
  reciprocalWord y = OK ((Base * Base - 1) / d - Base).
Proof.
  intros Hy d. destruct (nlz_eq y Hy) as (Hnlz & Hs & Hd2 & Hd). fold d in Hd2, Hd.
  assert (0 < d) by (pose proof Base_gt0; lia).
  unfold reciprocalWord. rewrite Hnlz, res_bind_ret. rewrite w_shl_small by (fold d; lia). fold d.
  assert (w_not UintSize d = Base - 1 - d) as Hn.
  { unfold w_not, wrap, Z.lnot. change (2 ^ UintSize) with Base.
    rewrite (mod_unique_range _ Base (-1)); unfold Z.pred; lia. }
  rewrite Hn. unfold word_max. rewrite UIntDiv_eq by (unfold word; fold Base; lia).
  rewrite res_bind_ret. f_equal.
  replace ((Base - 1 - d) * Base + (Base - 1)) with (Base * Base - 1 + - Base * d) by lia.
  rewrite Z.div_add by lia. lia.
Qed.

(** The pair of words shifted as [divWW] does it *)
Lemma divWW_shift x1 x0 y s : 0 <= x1 < y -> 0 <= x0 < Base -> 0 <= s < UintSize ->
  y * 2 ^ s < Base ->
  exists u1 u0,
    (if negb (s =? 0) then
       (Z.lor (w_shl UintSize x1 s) (Z.shiftr x0 (UintSize - s)), w_shl UintSize x0 s,
        w_shl UintSize y s)
     else (x1, x0, y)) = (u1, u0, y * 2 ^ s) /\
    0 <= u1 < y * 2 ^ s /\ 0 <= u0 < Base /\ u1 * Base + u0 = (x1 * Base + x0) * 2 ^ s.
Proof.
  intros Hx1 Hx0 Hs Hy. pose proof (pow2_pos s (proj1 Hs)) as Hp. destruct (Z.eqb_spec s 0) as [->|Hs0]; simpl.
  { exists x1, x0. rewrite Z.mul_1_r in *. repeat split; lia. }
  assert (0 <= s <= UintSize) as Hs' by lia.
  destruct (shl_parts UintSize x0 s Hs' Hx0) as (Hsum & Hc & Hw).
  change (2 ^ UintSize) with Base in *.
  rewrite shl_lor by done. rewrite (w_shl_small x1 s), (w_shl_small y s) by nia.
  do 2 eexists. split; [done|]. split; [|split; [done|lia]]. nia.
Qed.

Lemma divWW_spec x1 x0 y m : 0 <= x1 < y -> y < Base -> 0 <= x0 < Base ->
  reciprocalWord y = OK m ->
  divWW x1 x0 y m = OK ((x1 * Base + x0) / y, (x1 * Base + x0) mod y).
Proof.
  intros Hx1 Hy Hx0. rewrite reciprocalWord_eq by lia. intros [= <-].
  destruct (nlz_eq y) as (Hnlz & Hs & Hd2 & Hd); [lia|].
  unfold divWW. rewrite Hnlz, res_bind_ret. set (s := UintSize - bitlen y) in *.
  destruct (divWW_shift x1 x0 y s) as (u1 & u0 & -> & Hu1 & Hu0 & HX); [lia..|].
  cbv zeta. set (d := y * 2 ^ s) in *. set (M := (Base * Base - 1) / d).
  destruct (reciprocal_estimate Base d u1 u0 M ((M * u1 + u0) / Base))
    as (HM & Hq & HR & HR3); [lia..|done|done|].
  destruct (UIntMul_spec (M - Base) u1) as (t0 & t1 & -> & Ht0 & Ht1 & Ht);
    [unfold word; fold Base; lia..|].
  destruct (UIntAdd_spec t0 u0 0) as (s0 & c & -> & Hs0 & Hc & Hsc); [done|done|lia|].
  destruct (UIntAdd_spec t1 u1 c) as (qq & c2 & -> & Hqq & Hc2 & Hqc);
    [done|unfold word; fold Base; lia|done|].
  set (q0 := (M * u1 + u0) / Base) in *.
  assert (qq = q0) as ->.
  { assert (q0 = t1 + u1 + c) as He.
    { apply div_unique_range; [apply Base_gt0|]. lia. }
    assert (c2 = 0 \/ c2 = 1) as [-> | ->] by lia; lia. }
  destruct (UIntMul_spec d q0) as (dq0 & dq1 & -> & Hdq0 & Hdq1 & Hdq);
    [unfold word; fold Base; lia..|].
  destruct (UIntSub_spec u0 dq0 0) as (r0 & b & -> & Hr0 & Hb & Hrb); [done|done|lia|].
  destruct (UIntSub_spec u1 dq1 b) as (r1 & b' & -> & Hr1 & Hb' & Hrb');
    [unfold word; fold Base; lia|done|done|].
  set (R := u1 * Base + u0 - d * q0) in *.
  assert (R = r0 + Base * r1 - Base * (Base * b')) as HRe.
  { unfold R. replace (d * q0) with (dq0 + Base * dq1) by lia.
    replace (Base * b') with (r1 - (u1 - dq1 - b)) by lia. lia. }
  destruct (top_digit Base R r0 r1 b') as [-> Hr]; [lia|done..|].
  pose proof (Z.div_mod (x1 * Base + x0) y ltac:(lia)) as Hdiv.
  pose proof (Z.mod_pos_bound (x1 * Base + x0) y ltac:(lia)) as Hmod.
  assert ((x1 + 1) * Base <= y * Base) as HXy by (apply Z.mul_le_mono_nonneg_r; lia).
  assert (forall k, 0 <= R - k * d < d ->
    q0 + k < Base /\ q0 + k = (x1 * Base + x0) / y /\
    Z.shiftr (R - k * d) s = (x1 * Base + x0) mod y) as Hfin.
  { intros k Hk. pose proof (pow2_pos s (proj1 Hs)) as Hp.
    assert (R - k * d = (x1 * Base + x0 - y * (q0 + k)) * 2 ^ s) as HRk.
    { unfold R, d. rewrite HX. lia. }
    rewrite Z.shiftr_div_pow2, HRk, Z.div_mul by lia.
    assert (0 <= x1 * Base + x0 - (q0 + k) * y < y) as Hb2.
    { split; [apply (Z.mul_nonneg_cancel_l (2 ^ s)); lia|].
      apply (Z.mul_lt_mono_pos_r (2 ^ s)); unfold d in *; lia. }
    assert (q0 + k = (x1 * Base + x0) / y) as Hqk by (symmetry; apply div_unique_range; lia).
    split; [rewrite Hqk; apply Z.div_lt_upper_bound; lia|]. split; [done|].
    rewrite (mod_unique_range _ y (q0 + k)) by lia. lia. }
  assert (forall v, 0 <= v < Base -> wrap UintSize v = v) as Hw by (intros; by apply wrap_small).
  destruct Hr as [[-> HRr] | [-> HRr]]; simpl.
  - destruct (Z.leb_spec d r0).
    + destruct (Hfin 1) as (Hqb & Hq1 & Hr1'); [lia|].
      rewrite !Hw by lia. replace (r0 - d) with (R - 1 * d) by lia. by rewrite Hr1', Hq1.
    + destruct (Hfin 0) as (_ & Hq1 & Hr1'); [lia|].
      replace r0 with (R - 0 * d) by lia. by rewrite Hr1', <- Hq1, Z.add_0_r.
  - assert (wrap UintSize (r0 - d) = R - 1 * d) as ->.
    { unfold wrap. change (2 ^ UintSize) with Base. rewrite (mod_unique_range _ Base (-1)); lia. }
    destruct (Z.leb_spec d (R - 1 * d)).
    + destruct (Hfin 2) as (Hqb & Hq1 & Hr1'); [lia|].
      rewrite (Hw (q0 + 1)), (Hw (q0 + 1 + 1)), (Hw (R - 1 * d - d)) by lia.
      replace (R - 1 * d - d) with (R - 2 * d) by lia. rewrite Hr1', <- Hq1.
      by replace (q0 + 1 + 1) with (q0 + 2) by lia.
    + destruct (Hfin 1) as (Hqb & Hq1 & Hr1'); [lia|]. rewrite Hw by lia. by rewrite Hr1', Hq1.
Qed.

End proofs.

(** ** Properties *)

(** C6: for every divisor [y > x1] the division of the words [x1, x0] by [y]
    with the reciprocal that [reciprocalWord] computes gives the exact quotient
    and remainder. *)
Theorem divWW_correct `{T : Target} (x1 x0 y : Z) : 0 <= x1 < y -> y < Base -> 0 <= x0 < Base ->
  exists m, reciprocalWord y = OK m /\
    divWW x1 x0 y m = OK ((x1 * Base + x0) / y, (x1 * Base + x0) mod y).
Proof.
  intros Hx1 Hy Hx0. eexists. split; [apply reciprocalWord_eq; lia|].
  apply divWW_spec; try lia. apply reciprocalWord_eq. lia.
Qed.

Lemma divWW_correct_witness :
  exists m, reciprocalWord (T := target64) 10 = OK m /\
    divWW (T := target64) 7 (2 ^ 64 - 1) 10 m =
    OK ((7 * 2 ^ 64 + (2 ^ 64 - 1)) / 10, (7 * 2 ^ 64 + (2 ^ 64 - 1)) mod 10).
Proof. apply (divWW_correct (T := target64)); split || idtac; by vm_compute. Defined.
