(* ===== verification/Memory.v ===== *)
(** * The memory of the big-integer component and the C statements on it

    A [nat] of [cmake/bigint/src/nat.h] is a slice: a pointer into a
    heap-allocated array of words, a length, a capacity and a flag.  Slices are
    passed by value and share their words, so the model keeps one store of
    words, addressed by block and offset, and every operation of the component
    is a function of that store.  Blocks that are freed disappear from the
    store; an access outside a live block, a second [free] or a failed [assert]
    is an error, never a value. *)

From S2P Require Import Prelude Words.

Local Open Scope Z_scope.

(** ** Pointers, slices and structs *)

Record ptr : Type := Ptr { p_blk : positive; p_off : Z }.

#[export] Instance ptr_eq_dec : EqDecision ptr.
Proof. solve_decision. Defined.

(** [&p[k]]; a null pointer stays null. *)
Definition ptr_add (p : option ptr) (k : Z) : option ptr :=
  match p with
  | Some p => Some (Ptr (p_blk p) (p_off p + k))
  | None => None
  end.

(** [struct nat] *)
Record nat_t : Type := Nat {
  data : option ptr;
  len : Z;
  cap : Z;
  part : bool
}.

#[export] Instance nat_t_eq_dec : EqDecision nat_t.
Proof. solve_decision. Defined.

(** [struct BigInt].  The fields of a freshly [malloc]ed struct are
    indeterminate ([None]). *)
Record BigInt : Type := MkBigInt {
  neg : option bool;
  abs : option nat_t
}.

#[export] Instance BigInt_eq_dec : EqDecision BigInt.
Proof. solve_decision. Defined.

(** ** The store

    [cells] holds the words, by block and index; [blocks] the size of every
    live array; [objs] the live [BigInt] structs.  Every allocation uses a new
    identifier, [next]; [oom] decides which allocations fail. *)
Record mem : Type := Mem {
  cells : gmap (positive * Z) Z;
  blocks : gmap positive Z;
  objs : gmap positive BigInt;
  next : positive;
  oom : positive -> bool
}.

Definition mem_empty : mem := Mem ∅ ∅ ∅ 1 (fun _ => false).

Definition set_cells_of (m : mem) (c : gmap (positive * Z) Z) : mem :=
  Mem c (blocks m) (objs m) (next m) (oom m).
Definition set_objs_of (m : mem) (o : gmap positive BigInt) : mem :=
  Mem (cells m) (blocks m) o (next m) (oom m).

(** ** The state and error monad of C code *)

Definition M (A : Type) : Type := mem -> res (A * mem).

Definition ret {A} (a : A) : M A := fun m => OK (a, m).
Definition bind {A B} (c : M A) (f : A -> M B) : M B := fun m =>
  match c m with
  | OK (a, m') => f a m'
  | Er e => Er e
  end.
Definition fail {A} (e : error) : M A := fun _ => Er e.
Definition lift {A} (r : res A) : M A := fun m =>
  match r with
  | OK a => OK (a, m)
  | Er e => Er e
  end.
Definition assert_ (b : bool) : M unit := if b then ret tt else fail AssertFail.

Declare Scope c_scope.
Delimit Scope c_scope with c.
Notation "'let!' x := c 'in' k" := (bind c (fun x => k))
  (at level 10, x binder, c at level 100, k at level 200) : c_scope.
Notation "'let!' ( x , y ) := c 'in' k" := (bind c (fun '(x, y) => k))
  (at level 10, x name, y name, c at level 100, k at level 200) : c_scope.
Notation "c ;! k" := (bind c (fun _ => k)) (at level 100, k at level 200, right associativity) : c_scope.
Local Open Scope c_scope.

(** ** Statements *)

(** [p[i]] *)
Definition load (p : option ptr) (i : Z) : M Z := fun m =>
  match p with
  | None => Er NullDeref
  | Some p =>
      match cells m !! (p_blk p, p_off p + i) with
      | Some v => OK (v, m)
      | None => Er OutOfBounds
      end
  end.

(** [p[i] = v] *)
Definition store (p : option ptr) (i v : Z) : M unit := fun m =>
  match p with
  | None => Er NullDeref
  | Some p =>
      let k := (p_blk p, p_off p + i) in
      match cells m !! k with
      | Some _ => OK (tt, set_cells_of m (<[k := v]> (cells m)))
      | None => Er OutOfBounds
      end
  end.

Fixpoint put_cells (b : positive) (i : Z) (vs : list Z) (c : gmap (positive * Z) Z) :=
  match vs with
  | [] => c
  | v :: vs => <[(b, i) := v]> (put_cells b (i + 1) vs c)
  end.

Fixpoint del_cells (b : positive) (i : Z) (n : nat) (c : gmap (positive * Z) Z) :=
  match n with
  | O => c
  | S n => delete (b, i) (del_cells b (i + 1) n c)
  end.

(** [calloc(n, sizeof(Word))]: [n] zero words, or null when memory is out. *)
Definition calloc_words (n : Z) : M (option ptr) := fun m =>
  let b := next m in
  if oom m b then OK (None, Mem (cells m) (blocks m) (objs m) (Pos.succ b) (oom m))
  else OK (Some (Ptr b 0),
           Mem (put_cells b 0 (replicate (Z.to_nat n) 0) (cells m))
               (<[b := n]> (blocks m)) (objs m) (Pos.succ b) (oom m)).

(** An allocation that is only used through a local variable, such as a string
    buffer: whether it succeeds *)
Definition malloc_ok : M bool := fun m =>
  OK (negb (oom m (next m)),
      Mem (cells m) (blocks m) (objs m) (Pos.succ (next m)) (oom m)).

(** [free(p)] of an array of words *)
Definition free_words (p : option ptr) : M unit := fun m =>
  match p with
  | None => OK (tt, m)
  | Some p =>
      match blocks m !! p_blk p with
      | Some n =>
          if p_off p =? 0 then
            OK (tt, Mem (del_cells (p_blk p) 0 (Z.to_nat n) (cells m))
                        (delete (p_blk p) (blocks m)) (objs m) (next m) (oom m))
          else Er BadFree
      | None => Er BadFree
      end
  end.

(** ** Loops

    [for_up lo hi a body] is [for (i = lo; i < hi; ++i)] with the mutable
    locals of the loop in [a]; the bound is not changed by any body.
    [for_down hi lo] counts [i] from [hi] down to [lo].  A body of [for_ret]
    may leave the function with a result ([inr]). *)

Fixpoint for_nat {A} (n : nat) (step i : Z) (a : A) (body : Z -> A -> M A) : M A :=
  match n with
  | O => ret a
  | S n => let! a := body i a in for_nat n step (i + step) a body
  end.

Definition for_up {A} (lo hi : Z) (a : A) (body : Z -> A -> M A) : M A :=
  for_nat (Z.to_nat (hi - lo)) 1 lo a body.

Definition for_down {A} (hi lo : Z) (a : A) (body : Z -> A -> M A) : M A :=
  for_nat (Z.to_nat (hi - lo + 1)) (-1) hi a body.

(** [for (i = lo; i < hi; i += step)] for a positive [step] *)
Definition for_step {A} (lo hi step : Z) (a : A) (body : Z -> A -> M A) : M A :=
  for_nat (Z.to_nat ((hi - lo + step - 1) / step)) step lo a body.

Fixpoint for_ret {A R} (n : nat) (i : Z) (a : A) (body : Z -> A -> M (A + R)) : M (A + R) :=
  match n with
  | O => ret (inl a)
  | S n =>
      let! r := body i a in
      match r with
      | inl a => for_ret n (i + 1) a body
      | inr v => ret (inr v)
      end
  end.

(** [memcpy(dst, src, n * sizeof(Word))]: all words are read before any is
    written.  A copy between areas that overlap is an error, but for one onto
    itself, which the source performs when a shift by 0 is done in place: it is
    undefined in C all the same, and here leaves the words as they are. *)
Definition read_words (p : option ptr) (n : Z) : M (list Z) :=
  for_up 0 n [] (fun i vs => let! v := load p i in ret (vs ++ [v])).

Fixpoint write_words (p : option ptr) (i : Z) (vs : list Z) : M unit :=
  match vs with
  | [] => ret tt
  | v :: vs => store p i v ;! write_words p (i + 1) vs
  end.

Definition overlap (dst src : option ptr) (n : Z) : bool :=
  match dst, src with
  | Some p, Some q =>
      bool_decide (p_blk p = p_blk q) && negb (p_off p =? p_off q) && (Z.abs (p_off p - p_off q) <? n)
  | _, _ => false
  end.

Definition memcpy_words (dst src : option ptr) (n : Z) : M unit :=
  if overlap dst src n then fail OutOfBounds else
  let! vs := read_words src n in write_words dst 0 vs.

(** ** BigInt structs *)

Definition malloc_obj : M (option positive) := fun m =>
  let b := next m in
  if oom m b then OK (None, Mem (cells m) (blocks m) (objs m) (Pos.succ b) (oom m))
  else OK (Some b, Mem (cells m) (blocks m) (<[b := MkBigInt None None]> (objs m))
                       (Pos.succ b) (oom m)).

Definition free_obj (p : positive) : M unit := fun m =>
  match objs m !! p with
  | Some _ => OK (tt, set_objs_of m (delete p (objs m)))
  | None => Er BadFree
  end.

(** Reading a whole live struct *)
Definition get_obj (p : positive) : M BigInt := fun m =>
  match objs m !! p with
  | Some o => OK (o, m)
  | None => Er OutOfBounds
  end.

Definition set_obj (p : positive) (o : BigInt) : M unit := fun m =>
  match objs m !! p with
  | Some _ => OK (tt, set_objs_of m (<[p := o]> (objs m)))
  | None => Er OutOfBounds
  end.

(** Using the value of a struct field; an indeterminate one is an error. *)
Definition defined {A} (o : option A) : M A :=
  match o with
  | Some a => ret a
  | None => fail Uninit
  end.
