(* ===== verification/Logic.v ===== *)
(** * A separation logic for the big-integer memory

    [wp c Φ] says that the C computation [c], run in any memory that contains
    the resources owned, terminates without error with a result and a memory
    that satisfy [Φ] (total correctness).  Ownership is Iris ghost state: one
    ghost map for the words, one for the live arrays, one for the [BigInt]
    structs.  [wp_adequacy] turns a [wp] into a fact about runs of the model. *)

From S2P Require Import Prelude Words Memory.
From iris.proofmode Require Import proofmode.
From iris.base_logic.lib Require Import own ghost_map.

Local Open Scope Z_scope.
Local Open Scope c_scope.

(** ** Ghost state *)

Class memGpreS (Σ : gFunctors) := {
  #[export] memGpreS_cells :: ghost_mapG Σ (positive * Z) Z;
  #[export] memGpreS_blocks :: ghost_mapG Σ positive Z;
  #[export] memGpreS_objs :: ghost_mapG Σ positive BigInt;
}.

Class memGS (Σ : gFunctors) := MemGS {
  #[export] memGS_pre :: memGpreS Σ;
  cells_name : gname;
  blocks_name : gname;
  objs_name : gname;
}.

Definition memΣ : gFunctors :=
  #[ghost_mapΣ (positive * Z) Z; ghost_mapΣ positive Z; ghost_mapΣ positive BigInt].

#[export] Instance subG_memΣ {Σ} : subG memΣ Σ → memGpreS Σ.
Proof. solve_inG. Qed.

(** A memory is well formed when identifiers from [next] on are unused; it has
    room when no allocation fails. *)
Record mem_wf (m : mem) : Prop := MemWf {
  wf_cells : forall b o, is_Some (cells m !! (b, o)) -> (b < next m)%positive;
  wf_blocks : forall b, is_Some (blocks m !! b) -> (b < next m)%positive;
  wf_objs : forall b, is_Some (objs m !! b) -> (b < next m)%positive
}.

Definition mem_room (m : mem) : Prop := forall b, oom m b = false.

Section logic.
Context `{!memGS Σ}.

Definition interp (m : mem) : iProp Σ :=
  ghost_map_auth cells_name 1 (cells m) ∗ ghost_map_auth blocks_name 1 (blocks m) ∗
  ghost_map_auth objs_name 1 (objs m) ∗ ⌜mem_wf m⌝ ∗ ⌜mem_room m⌝.

(** One word *)
Definition cell (p : ptr) (i : Z) (dq : dfrac) (v : Z) : iProp Σ :=
  (p_blk p, p_off p + i) ↪[cells_name]{dq} v.

(** The words at [p], [p+1], ... *)
Definition arr (p : ptr) (dq : dfrac) (vs : list Z) : iProp Σ :=
  [∗ list] k ↦ v ∈ vs, cell p (Z.of_nat k) dq v.

(** The right to free the array of [n] words that starts at block [b] *)
Definition live (b : positive) (n : Z) : iProp Σ := b ↪[blocks_name] n.

Definition obj (p : positive) (dq : dfrac) (o : BigInt) : iProp Σ := p ↪[objs_name]{dq} o.

Definition wp {A} (c : M A) (Φ : A → iProp Σ) : iProp Σ :=
  ∀ m, interp m ==∗ ∃ a m', ⌜c m = OK (a, m')⌝ ∗ interp m' ∗ Φ a.

(** ** Structural rules *)

Lemma wp_ret {A} (a : A) Φ : Φ a ⊢ wp (ret a) Φ.
Proof. iIntros "H" (m) "Hm !>". iExists a, m. by iFrame. Qed.

Lemma wp_bind {A B} (c : M A) (f : A → M B) Φ :
  wp c (λ a, wp (f a) Φ) ⊢ wp (bind c f) Φ.
Proof.
  iIntros "H" (m) "Hm". iMod ("H" with "Hm") as (a m') "(%Hc & Hm & H)".
  iMod ("H" with "Hm") as (b m'') "(%Hf & Hm & H)". iModIntro.
  iExists b, m''. iFrame. iPureIntro. unfold bind. by rewrite Hc.
Qed.

Lemma wp_wand {A} (c : M A) Φ Ψ : wp c Φ -∗ (∀ a, Φ a -∗ Ψ a) -∗ wp c Ψ.
Proof.
  iIntros "H HΨ" (m) "Hm". iMod ("H" with "Hm") as (a m') "(%Hc & Hm & H)".
  iModIntro. iExists a, m'. iFrame. iSplit; [done|]. by iApply "HΨ".
Qed.

Lemma wp_upd {A} (c : M A) Φ : (|==> wp c Φ) ⊢ wp c Φ.
Proof. iIntros "H" (m) "Hm". iMod "H". by iApply "H". Qed.

Lemma wp_post {A} (c : M A) Φ : wp c (λ a, |==> Φ a) ⊢ wp c Φ.
Proof.
  iIntros "H" (m) "Hm". iMod ("H" with "Hm") as (a m') "(%Hc & Hm & >H)".
  iModIntro. iExists a, m'. by iFrame.
Qed.

#[export] Instance elim_modal_bupd_wp {A} p P (c : M A) Φ :
  ElimModal True p false (|==> P) P (wp c Φ) (wp c Φ).
Proof.
  rewrite /ElimModal bi.intuitionistically_if_elim. iIntros (_) "[H HP]".
  iApply wp_upd. iMod "H". iModIntro. by iApply "HP".
Qed.

#[export] Instance frame_wp {A} p R (c : M A) Φ Ψ :
  (∀ a, Frame p R (Φ a) (Ψ a)) → Frame p R (wp c Φ) (wp c Ψ).
Proof.
  rewrite /Frame. iIntros (HR) "[HR H]". iApply (wp_wand with "H").
  iIntros (a) "H". iApply HR. iFrame.
Qed.

Lemma wp_lift {A} (r : res A) (a : A) Φ : r = OK a → Φ a ⊢ wp (lift r) Φ.
Proof. iIntros (->) "H". iIntros (m) "Hm !>". iExists a, m. by iFrame. Qed.

Lemma wp_assert (b : bool) Φ : b = true → Φ tt ⊢ wp (assert_ b) Φ.
Proof. iIntros (->) "H". by iApply wp_ret. Qed.

Lemma wp_defined {A} (o : option A) a Φ : o = Some a → Φ a ⊢ wp (defined o) Φ.
Proof. iIntros (->) "H". by iApply wp_ret. Qed.

(** Runs that end in the error [e] *)
Definition wpe {A} (c : M A) (e : error) : iProp Σ := ∀ m, interp m ==∗ ⌜c m = Er e⌝.

Lemma wpe_bind {A B} (c : M A) (f : A → M B) e : wp c (λ a, wpe (f a) e) ⊢ wpe (bind c f) e.
Proof.
  iIntros "H" (m) "Hm". iMod ("H" with "Hm") as (a m') "(%Hc & Hm & H)".
  iMod ("H" with "Hm") as %Hf. iModIntro. iPureIntro. unfold bind. by rewrite Hc.
Qed.

Lemma wpe_bind_l {A B} (c : M A) (f : A → M B) e : wpe c e ⊢ wpe (bind c f) e.
Proof.
  iIntros "H" (m) "Hm". iMod ("H" with "Hm") as %Hc. iModIntro. iPureIntro.
  unfold bind. by rewrite Hc.
Qed.

Lemma wpe_assert (b : bool) : b = false → ⊢ wpe (assert_ b) AssertFail.
Proof. iIntros (->) "%m Hm". done. Qed.

Lemma wpe_defined {A} : ⊢ wpe (@defined A None) Uninit.
Proof. iIntros "%m Hm". done. Qed.

(** ** Memory accesses *)

Lemma wp_load_cell p i dq v Φ :
  cell p i dq v -∗ (cell p i dq v -∗ Φ v) -∗ wp (load (Some p) i) Φ.
Proof.
  iIntros "Hc HΦ" (m) "(Hcs & Hr)". iDestruct (ghost_map_lookup with "Hcs Hc") as %Hl.
  iModIntro. iExists v, m. iFrame. iSplit; [by rewrite /= Hl|]. by iApply "HΦ".
Qed.

Lemma wp_store_cell p i v w Φ :
  cell p i (DfracOwn 1) v -∗ (cell p i (DfracOwn 1) w -∗ Φ tt) -∗ wp (store (Some p) i w) Φ.
Proof.
  iIntros "Hc HΦ" (m) "(Hcs & Hb & Ho & %Hwf & %Hroom)".
  iDestruct (ghost_map_lookup with "Hcs Hc") as %Hl.
  iMod (ghost_map_update w with "Hcs Hc") as "[Hcs Hc]". iModIntro.
  iExists tt, (set_cells_of m (<[(p_blk p, p_off p + i) := w]> (cells m))).
  iSplit; [by rewrite /= Hl|]. iSplitR "Hc HΦ"; [|by iApply "HΦ"].
  rewrite /interp /=. iFrame. iPureIntro. split; [|done].
  destruct Hwf as [H1 H2 H3]. split; [|done..]. intros b o Hs. apply (H1 b o).
  simpl in Hs. rewrite lookup_insert in Hs. case_decide as Heq; [|done].
  simplify_eq. eauto.
Qed.

(** ** Arrays *)

Lemma arr_nil p dq : ⊢ arr p dq [].
Proof. rewrite /arr. by iApply big_sepL_nil. Qed.

Lemma arr_app p dq vs ws :
  arr p dq (vs ++ ws) ⊣⊢
  arr p dq vs ∗ arr (Ptr (p_blk p) (p_off p + Z.of_nat (length vs))) dq ws.
Proof.
  rewrite /arr big_sepL_app. apply bi.sep_proper; [done|].
  apply big_sepL_proper. intros k v _. rewrite /cell /=.
  by replace (p_off p + Z.of_nat (length vs + k))
    with (p_off p + Z.of_nat (length vs) + Z.of_nat k) by lia.
Qed.

Lemma arr_acc p dq vs (k : nat) v : vs !! k = Some v →
  arr p dq vs -∗ cell p k dq v ∗ (cell p k dq v -∗ arr p dq vs).
Proof. iIntros (Hk) "H". by iApply (big_sepL_lookup_acc with "H"). Qed.

Lemma arr_upd_acc p vs (k : nat) v : vs !! k = Some v →
  arr p (DfracOwn 1) vs -∗
  cell p k (DfracOwn 1) v ∗ (∀ w, cell p k (DfracOwn 1) w -∗ arr p (DfracOwn 1) (<[k:=w]> vs)).
Proof. iIntros (Hk) "H". by iApply (big_sepL_insert_acc with "H"). Qed.

Lemma wp_load p dq vs i v Φ :
  0 <= i → vs !! Z.to_nat i = Some v →
  arr p dq vs -∗ (arr p dq vs -∗ Φ v) -∗ wp (load (Some p) i) Φ.
Proof.
  iIntros (Hi Hv) "Ha HΦ". iDestruct (arr_acc with "Ha") as "[Hc Hcl]"; [done|].
  rewrite Z2Nat.id //. iApply (wp_load_cell with "Hc"). iIntros "Hc".
  iApply "HΦ". by iApply "Hcl".
Qed.

Lemma wp_store p vs i w Φ :
  0 <= i < Z.of_nat (length vs) →
  arr p (DfracOwn 1) vs -∗ (arr p (DfracOwn 1) (<[Z.to_nat i:=w]> vs) -∗ Φ tt) -∗
  wp (store (Some p) i w) Φ.
Proof.
  iIntros (Hi) "Ha HΦ".
  destruct (lookup_lt_is_Some_2 vs (Z.to_nat i)) as [v Hv]; [lia|].
  iDestruct (arr_upd_acc with "Ha") as "[Hc Hcl]"; [done|].
  rewrite Z2Nat.id; [|lia]. iApply (wp_store_cell with "Hc"). iIntros "Hc".
  iApply "HΦ". by iApply "Hcl".
Qed.

Lemma arr_cons p dq v vs :
  arr p dq (v :: vs) ⊣⊢ cell p 0 dq v ∗ arr (Ptr (p_blk p) (p_off p + 1)) dq vs.
Proof.
  change (v :: vs) with ([v] ++ vs). rewrite arr_app /=. apply bi.sep_proper; [|done].
  by rewrite /arr big_sepL_singleton.
Qed.

(** Two readers of the same words *)
Lemma arr_half p vs :
  arr p (DfracOwn 1) vs ⊣⊢ arr p (DfracOwn (1/2)%Qp) vs ∗ arr p (DfracOwn (1/2)%Qp) vs.
Proof.
  rewrite /arr -big_sepL_sep. apply big_sepL_proper. intros k v _.
  rewrite /cell -{1}Qp.half_half. apply (ghost_map_elem_fractional _ _ _ (1/2)%Qp (1/2)%Qp).
Qed.

Lemma arr_persist p vs : arr p (DfracOwn 1) vs ==∗ arr p DfracDiscarded vs.
Proof.
  iIntros "H". iApply big_sepL_bupd. iApply (big_sepL_mono with "H").
  iIntros (k v _) "H". by iApply ghost_map_elem_persist.
Qed.

#[export] Instance arr_persistent p vs : Persistent (arr p DfracDiscarded vs).
Proof. apply _. Qed.

(** ** Allocation *)

Lemma put_cells_lookup_ne b i vs c k :
  k.1 ≠ b ∨ k.2 < i → put_cells b i vs c !! k = c !! k.
Proof.
  revert i. induction vs as [|v vs IH]; intros i Hk; simpl; [done|].
  rewrite lookup_insert_ne; [|intros <-; simpl in *; destruct Hk; [done|lia]].
  apply IH. destruct Hk; [by left|right; lia].
Qed.

Lemma put_cells_is_Some b i vs c k :
  is_Some (put_cells b i vs c !! k) → k.1 = b ∨ is_Some (c !! k).
Proof.
  destruct (decide (k.1 = b)) as [|Hne]; [by left|]. rewrite put_cells_lookup_ne; auto.
Qed.

Lemma del_cells_is_Some b i n c k : is_Some (del_cells b i n c !! k) → is_Some (c !! k).
Proof.
  revert i. induction n as [|n IH]; intros i; simpl; [done|].
  rewrite lookup_delete. case_decide; [intros []; done|]. apply IH.
Qed.

Lemma put_cells_alloc b i vs c :
  (∀ o, c !! (b, o) = None) →
  ghost_map_auth cells_name 1 c ==∗
  ghost_map_auth cells_name 1 (put_cells b i vs c) ∗ arr (Ptr b i) (DfracOwn 1) vs.
Proof.
  iIntros (Hb) "Hc". iInduction vs as [|v vs IH] forall (i); simpl.
  { iModIntro. iFrame. iApply arr_nil. }
  iMod ("IH" $! (i + 1) with "Hc") as "[Hc Ha]".
  iMod (ghost_map_insert (b, i) v with "Hc") as "[Hc Hv]".
  { rewrite put_cells_lookup_ne; [apply Hb|right; simpl; lia]. }
  iModIntro. iFrame "Hc". rewrite arr_cons /=. iFrame. by rewrite /cell /= Z.add_0_r.
Qed.

Lemma del_cells_free b i vs c :
  ghost_map_auth cells_name 1 c -∗ arr (Ptr b i) (DfracOwn 1) vs ==∗
  ghost_map_auth cells_name 1 (del_cells b i (length vs) c).
Proof.
  iIntros "Hc Ha". iInduction vs as [|v vs IH] forall (i); simpl; [done|].
  rewrite arr_cons /=. iDestruct "Ha" as "[Hv Ha]".
  iMod ("IH" with "Hc Ha") as "Hc". rewrite /cell /= Z.add_0_r.
  by iMod (ghost_map_delete with "Hc Hv") as "Hc".
Qed.

Lemma wp_calloc n Φ :
  (∀ b, arr (Ptr b 0) (DfracOwn 1) (replicate (Z.to_nat n) 0) -∗ live b n -∗
        Φ (Some (Ptr b 0))) -∗
  wp (calloc_words n) Φ.
Proof.
  iIntros "HΦ" (m) "(Hc & Hb & Ho & %Hwf & %Hroom)". destruct Hwf as [H1 H2 H3].
  assert (∀ o, cells m !! (next m, o) = None) as Hfresh.
  { intros o. apply eq_None_not_Some. intros Hs%H1. lia. }
  iMod (put_cells_alloc (next m) 0 (replicate (Z.to_nat n) 0) with "Hc") as "[Hc Ha]"; [done|].
  iMod (ghost_map_insert (next m) n with "Hb") as "[Hb Hl]".
  { apply eq_None_not_Some. intros Hs%H2. lia. }
  iModIntro. iExists (Some (Ptr (next m) 0)), (Mem _ _ (objs m) (Pos.succ (next m)) (oom m)).
  iSplit; [iPureIntro; by rewrite /calloc_words Hroom|].
  iSplitR "HΦ Ha Hl"; [|by iApply ("HΦ" with "Ha Hl")].
  rewrite /interp /=. iFrame. iPureIntro. split; [|done]. split; simpl.
  - intros b o [Heq|Hs%H1]%put_cells_is_Some; simpl in *; lia.
  - intros b. rewrite lookup_insert. case_decide as Heq; [intros _; subst; lia|intros Hs%H2; lia].
  - intros b Hs%H3. lia.
Qed.

Lemma wp_malloc_ok Φ : Φ true ⊢ wp malloc_ok Φ.
Proof.
  iIntros "HΦ" (m) "(Hc & Hb & Ho & %Hwf & %Hroom)". destruct Hwf as [H1 H2 H3].
  iModIntro. iExists true, (Mem (cells m) (blocks m) (objs m) (Pos.succ (next m)) (oom m)).
  iSplit; [iPureIntro; by rewrite /malloc_ok Hroom|]. iFrame. iPureIntro. split; [|done].
  split; simpl; [intros b o Hs%H1|intros b Hs%H2|intros b Hs%H3]; lia.
Qed.

Lemma wp_free b n vs Φ :
  n = Z.of_nat (length vs) →
  arr (Ptr b 0) (DfracOwn 1) vs -∗ live b n -∗ Φ tt -∗ wp (free_words (Some (Ptr b 0))) Φ.
Proof.
  iIntros (->) "Ha Hl HΦ". iIntros (m) "(Hc & Hb & Ho & %Hwf & %Hroom)".
  destruct Hwf as [H1 H2 H3].
  iDestruct (ghost_map_lookup with "Hb Hl") as %Hlk.
  iMod (del_cells_free with "Hc Ha") as "Hc". iMod (ghost_map_delete with "Hb Hl") as "Hb".
  iModIntro. iExists tt, (Mem _ _ (objs m) (next m) (oom m)).
  iSplit; [iPureIntro; by rewrite /= Hlk Nat2Z.id|]. iFrame "HΦ".
  rewrite /interp /=. iFrame. iPureIntro. split; [|done]. split; simpl.
  - intros b' o Hs%del_cells_is_Some. eauto.
  - intros b' Hs. apply H2. rewrite lookup_delete in Hs. case_decide; [by destruct Hs|done].
  - done.
Qed.

Lemma wp_free_null Φ : Φ tt ⊢ wp (free_words None) Φ.
Proof. iIntros "H" (m) "Hm !>". iExists tt, m. by iFrame. Qed.

(** ** Structs *)

Lemma wp_malloc_obj Φ :
  (∀ p, obj p (DfracOwn 1) (MkBigInt None None) -∗ Φ (Some p)) -∗ wp malloc_obj Φ.
Proof.
  iIntros "HΦ" (m) "(Hc & Hb & Ho & %Hwf & %Hroom)". destruct Hwf as [H1 H2 H3].
  iMod (ghost_map_insert (next m) (MkBigInt None None) with "Ho") as "[Ho Hp]".
  { apply eq_None_not_Some. intros Hs%H3. lia. }
  iModIntro. iExists (Some (next m)), (Mem (cells m) (blocks m) _ (Pos.succ (next m)) (oom m)).
  iSplit; [iPureIntro; by rewrite /malloc_obj Hroom|].
  iSplitR "HΦ Hp"; [|by iApply "HΦ"].
  rewrite /interp /=. iFrame. iPureIntro. split; [|done]. split; simpl.
  - intros b o Hs%H1. lia.
  - intros b Hs%H2. lia.
  - intros b. rewrite lookup_insert. case_decide as Heq; [intros _; subst; lia|intros Hs%H3; lia].
Qed.

Lemma wp_get_obj p dq o Φ :
  obj p dq o -∗ (obj p dq o -∗ Φ o) -∗ wp (get_obj p) Φ.
Proof.
  iIntros "Hp HΦ" (m) "(Hc & Hb & Ho & Hr)". iDestruct (ghost_map_lookup with "Ho Hp") as %Hl.
  iModIntro. iExists o, m. iFrame. iSplit; [by rewrite /get_obj Hl|]. by iApply "HΦ".
Qed.

Lemma wp_set_obj p o o' Φ :
  obj p (DfracOwn 1) o -∗ (obj p (DfracOwn 1) o' -∗ Φ tt) -∗ wp (set_obj p o') Φ.
Proof.
  iIntros "Hp HΦ" (m) "(Hc & Hb & Ho & %Hwf & %Hroom)". destruct Hwf as [H1 H2 H3].
  iDestruct (ghost_map_lookup with "Ho Hp") as %Hl.
  iMod (ghost_map_update o' with "Ho Hp") as "[Ho Hp]".
  iModIntro. iExists tt, (set_objs_of m (<[p := o']> (objs m))).
  iSplit; [by rewrite /set_obj Hl|]. iSplitR "HΦ Hp"; [|by iApply "HΦ"].
  rewrite /interp /=. iFrame. iPureIntro. split; [|done]. split; simpl; [done..|].
  intros b. rewrite lookup_insert. case_decide as Heq; [intros _; subst; eauto|apply H3].
Qed.

Lemma wp_free_obj p o Φ :
  obj p (DfracOwn 1) o -∗ Φ tt -∗ wp (free_obj p) Φ.
Proof.
  iIntros "Hp HΦ" (m) "(Hc & Hb & Ho & %Hwf & %Hroom)". destruct Hwf as [H1 H2 H3].
  iDestruct (ghost_map_lookup with "Ho Hp") as %Hl.
  iMod (ghost_map_delete with "Ho Hp") as "Ho".
  iModIntro. iExists tt, (set_objs_of m (delete p (objs m))).
  iSplit; [by rewrite /free_obj Hl|]. iFrame "HΦ".
  rewrite /interp /=. iFrame. iPureIntro. split; [|done]. split; simpl; [done..|].
  intros b. rewrite lookup_delete. case_decide; [by intros []|apply H3].
Qed.

(** ** Loops *)

Lemma wp_for_nat {A} (I : nat → A → iProp Σ) (n : nat) (step i : Z) (a : A)
    (body : Z → A → M A) Φ :
  (∀ k a, (k < n)%nat → I k a ⊢ wp (body (i + Z.of_nat k * step) a) (λ a', I (S k) a')) →
  I O a -∗ (∀ a, I n a -∗ Φ a) -∗ wp (for_nat n step i a body) Φ.
Proof.
  iIntros (Hbody) "HI HΦ". iInduction n as [|n IH] forall (I i a Hbody); simpl.
  { iApply wp_ret. by iApply "HΦ". }
  iApply wp_bind. iDestruct (Hbody O a with "HI") as "H"; [lia|].
  rewrite Z.mul_0_l Z.add_0_r. iApply (wp_wand with "H"). iIntros (a') "HI".
  iApply ("IH" $! (λ k, I (S k)) (i + step) a' with "[%] HI HΦ").
  intros k a'' Hk. replace (i + step + Z.of_nat k * step) with (i + Z.of_nat (S k) * step) by lia.
  apply Hbody. lia.
Qed.

Lemma wp_for_up {A} (I : nat → A → iProp Σ) (lo hi : Z) (a : A) (body : Z → A → M A) Φ :
  (∀ k a, Z.of_nat k < hi - lo → I k a ⊢ wp (body (lo + Z.of_nat k) a) (λ a', I (S k) a')) →
  I O a -∗ (∀ a, I (Z.to_nat (hi - lo)) a -∗ Φ a) -∗ wp (for_up lo hi a body) Φ.
Proof.
  iIntros (Hbody) "HI HΦ". iApply (wp_for_nat I with "HI HΦ").
  intros k a' Hk. rewrite Z.mul_1_r. apply Hbody. lia.
Qed.

Lemma wp_for_down {A} (I : nat → A → iProp Σ) (hi lo : Z) (a : A) (body : Z → A → M A) Φ :
  (∀ k a, Z.of_nat k <= hi - lo → I k a ⊢ wp (body (hi - Z.of_nat k) a) (λ a', I (S k) a')) →
  I O a -∗ (∀ a, I (Z.to_nat (hi - lo + 1)) a -∗ Φ a) -∗ wp (for_down hi lo a body) Φ.
Proof.
  iIntros (Hbody) "HI HΦ". iApply (wp_for_nat I with "HI HΦ").
  intros k a' Hk. replace (hi + Z.of_nat k * -1) with (hi - Z.of_nat k) by lia. apply Hbody. lia.
Qed.

(** A loop that rewrites the words of an array from the first to the last.
    [I outs a] relates the words already written to the locals of the loop;
    [R] is what the body only reads. *)
Lemma wp_for_cells {A} (I : list Z → A → Prop) (p : ptr) (zs : list Z) (R : iProp Σ)
    (hi : Z) (a : A) (body : Z → A → M A) Φ :
  hi = Z.of_nat (length zs) → I [] a →
  (∀ outs z a, zs !! length outs = Some z → I outs a →
     R -∗ cell p (Z.of_nat (length outs)) (DfracOwn 1) z -∗
     wp (body (Z.of_nat (length outs)) a)
        (λ a', ∃ z', ⌜I (outs ++ [z']) a'⌝ ∗ R ∗
                     cell p (Z.of_nat (length outs)) (DfracOwn 1) z')) →
  arr p (DfracOwn 1) zs -∗ R -∗
  (∀ outs a, ⌜length outs = length zs⌝ -∗ ⌜I outs a⌝ -∗ arr p (DfracOwn 1) outs -∗ R -∗ Φ a) -∗
  wp (for_up 0 hi a body) Φ.
Proof.
  iIntros (-> HI0 Hbody) "Hz HR HΦ".
  iApply (wp_for_up (λ k a, ∃ outs, ⌜length outs = k ∧ (k <= length zs)%nat ∧ I outs a⌝ ∗
    arr p (DfracOwn 1) (outs ++ drop k zs) ∗ R)%I with "[Hz HR]").
  - iIntros (k a' Hk) "(%outs & (%Hlen & %Hle & %HI) & Hz & HR)".
    destruct (lookup_lt_is_Some_2 zs k) as [z Hz]; [lia|].
    iDestruct (arr_upd_acc _ _ k z with "Hz") as "[Hc Hcl]".
    { rewrite lookup_app_r; [|lia]. rewrite Hlen Nat.sub_diag lookup_drop Nat.add_0_r //. }
    subst k. rewrite Z.add_0_l. iApply (wp_wand with "[HR Hc]").
    { by iApply (Hbody with "HR Hc"). }
    iIntros (a'') "(%z' & %HI' & $ & Hc)". iExists (outs ++ [z']).
    iSplit. { iPureIntro. rewrite length_app /=. split; [lia|]. split; [lia|done]. }
    iDestruct ("Hcl" with "Hc") as "Hz".
    rewrite insert_app_r_alt // Nat.sub_diag (drop_S _ z) //= -app_assoc //.
  - iExists []. rewrite drop_0. iFrame. iPureIntro. split; [done|]. split; [lia|done].
  - iIntros (a') "(%outs & (%Hlen & %Hle & %HI) & Hz & HR)".
    replace (Z.to_nat (Z.of_nat (length zs) - 0)) with (length zs) in * by lia.
    rewrite drop_all app_nil_r. by iApply ("HΦ" with "[%] [%] Hz HR").
Qed.

(** ** memcpy *)

Lemma wp_read_words p dq vs n Φ :
  0 <= n <= Z.of_nat (length vs) →
  arr p dq vs -∗ (arr p dq vs -∗ Φ (take (Z.to_nat n) vs)) -∗ wp (read_words (Some p) n) Φ.
Proof.
  iIntros (Hn) "Ha HΦ".
  iApply (wp_for_up (λ k a, ⌜a = take k vs⌝ ∗ arr p dq vs)%I with "[Ha]").
  - iIntros (k a Hk) "[-> Ha]".
    destruct (lookup_lt_is_Some_2 vs k) as [v Hv]; [lia|].
    iApply wp_bind. iApply (wp_load with "Ha"); [lia|by rewrite Z.add_0_l Nat2Z.id|].
    iIntros "Ha". iApply wp_ret. iFrame. iPureIntro. by rewrite (take_S_r _ _ v).
  - iFrame. by rewrite take_0.
  - iIntros (a) "[-> Ha]". rewrite Z.sub_0_r. by iApply "HΦ".
Qed.

Lemma wp_write_words p pre old post vs Φ :
  length old = length vs →
  arr p (DfracOwn 1) (pre ++ old ++ post) -∗
  (arr p (DfracOwn 1) (pre ++ vs ++ post) -∗ Φ tt) -∗
  wp (write_words (Some p) (Z.of_nat (length pre)) vs) Φ.
Proof.
  iIntros (Hlen) "Ha HΦ". iInduction vs as [|v vs IH] forall (pre old Hlen); simpl.
  { destruct old; [|done]. iApply wp_ret. by iApply "HΦ". }
  destruct old as [|o old]; [done|]. iApply wp_bind.
  iApply (wp_store with "Ha"). { rewrite !length_app /=. lia. }
  iIntros "Ha". rewrite Nat2Z.id insert_app_r_alt // Nat.sub_diag /=.
  replace (Z.of_nat (length pre) + 1) with (Z.of_nat (length (pre ++ [v])))
    by (rewrite length_app /=; lia).
  rewrite (assoc_L app pre [v] (old ++ post)) (assoc_L app pre [v] (vs ++ post)).
  iApply ("IH" with "[%] Ha HΦ"). simpl in Hlen. lia.
Qed.

(** Arrays that are owned apart do not overlap. *)
Lemma arr_disjoint p q dq i j vs ws : (i < length vs)%nat → (j < length ws)%nat →
  p_blk p = p_blk q → p_off p + Z.of_nat i = p_off q + Z.of_nat j →
  arr p (DfracOwn 1) vs -∗ arr q dq ws -∗ False.
Proof.
  iIntros (Hi Hj Hb Ho) "Hp Hq".
  destruct (lookup_lt_is_Some_2 vs i Hi) as [v Hv], (lookup_lt_is_Some_2 ws j Hj) as [w Hw].
  iDestruct (big_sepL_lookup with "Hp") as "Hp"; [exact Hv|].
  iDestruct (big_sepL_lookup with "Hq") as "Hq"; [exact Hw|].
  rewrite /cell Hb Ho. iDestruct (ghost_map_elem_valid_2 with "Hp Hq") as %[Hval _].
  by apply dfrac_full_exclusive in Hval.
Qed.

Lemma arr_overlap p q dq n vs ws : n <= Z.of_nat (length vs) → n <= Z.of_nat (length ws) →
  arr p (DfracOwn 1) vs -∗ arr q dq ws -∗ ⌜overlap (Some p) (Some q) n = false⌝.
Proof.
  iIntros (Hv Hw) "Hp Hq". destruct (overlap (Some p) (Some q) n) eqn:Ho; [|done]. simpl in Ho.
  apply andb_true_iff in Ho as [[Hb%bool_decide_eq_true Hne%negb_true_iff%Z.eqb_neq]%andb_true_iff Hlt%Z.ltb_lt].
  iExFalso. destruct (decide (p_off p <= p_off q)).
  - iApply (arr_disjoint p q dq (Z.to_nat (p_off q - p_off p)) 0 with "Hp Hq"); [lia..|done|lia].
  - iApply (arr_disjoint p q dq 0 (Z.to_nat (p_off p - p_off q)) with "Hp Hq"); [lia..|done|lia].
Qed.

Lemma overlap_self p n : overlap p p n = false.
Proof. destruct p as [p|]; simpl; [|done]. by rewrite Z.eqb_refl andb_false_r. Qed.

Lemma wp_memcpy p q dq old post vs n Φ :
  n = Z.of_nat (length old) → (length old <= length vs)%nat →
  arr p (DfracOwn 1) (old ++ post) -∗ arr q dq vs -∗
  (arr p (DfracOwn 1) (take (length old) vs ++ post) -∗ arr q dq vs -∗ Φ tt) -∗
  wp (memcpy_words (Some p) (Some q) n) Φ.
Proof.
  iIntros (-> Hle) "Hp Hq HΦ".
  iDestruct (arr_overlap _ _ _ (Z.of_nat (length old)) with "Hp Hq") as %Ho; [rewrite length_app; lia|lia|].
  rewrite /memcpy_words Ho. iApply wp_bind. iApply (wp_read_words with "Hq"); [lia|].
  iIntros "Hq". rewrite Nat2Z.id. iApply (wp_write_words p [] old post with "Hp").
  { rewrite length_take. lia. }
  iIntros "Hp". iApply ("HΦ" with "Hp Hq").
Qed.

(** Copying an array onto itself changes nothing. *)
Lemma wp_memcpy_self p vs n Φ :
  0 <= n <= Z.of_nat (length vs) →
  arr p (DfracOwn 1) vs -∗ (arr p (DfracOwn 1) vs -∗ Φ tt) -∗
  wp (memcpy_words (Some p) (Some p) n) Φ.
Proof.
  iIntros (Hle) "Hp HΦ". rewrite /memcpy_words overlap_self.
  iApply wp_bind. iApply (wp_read_words with "Hp"); [lia|].
  iIntros "Hp". pose proof (take_drop (Z.to_nat n) vs) as Htd.
  iAssert (arr p (DfracOwn 1) ([] ++ take (Z.to_nat n) vs ++ drop (Z.to_nat n) vs))
    with "[Hp]" as "Hp"; [by rewrite /= Htd|].
  iApply (wp_write_words p [] (take (Z.to_nat n) vs) (drop (Z.to_nat n) vs) with "Hp"); [done|].
  iIntros "Hp". rewrite /= take_drop. by iApply "HΦ".
Qed.

(** ** Slices

    [view x dq xs]: the slice [x] shows the words [xs], of which we own [dq]. *)

Definition arr_opt (o : option ptr) (dq : dfrac) (vs : list Z) : iProp Σ :=
  match o with
  | Some p => arr p dq vs
  | None => ⌜vs = []⌝
  end.

Definition view (x : nat_t) (dq : dfrac) (xs : list Z) : iProp Σ :=
  ⌜len x = Z.of_nat (length xs)⌝ ∗ arr_opt (data x) dq xs.

Definition cell_opt (o : option ptr) (i : Z) (dq : dfrac) (v : Z) : iProp Σ :=
  match o with
  | Some p => cell p i dq v
  | None => False
  end.

Lemma ptr_add_0 o : ptr_add o 0 = o.
Proof. destruct o as [[b i]|]; simpl; [by rewrite Z.add_0_r|done]. Qed.

Lemma ptr_add_add o i j : ptr_add (ptr_add o i) j = ptr_add o (i + j).
Proof. destruct o as [[b k]|]; simpl; [by rewrite Z.add_assoc|done]. Qed.

(** [p[k + i]] is [(p + k)[i]] *)
Lemma load_shift o k i : load o (k + i) = load (ptr_add o k) i.
Proof. destruct o; [|done]. by rewrite /load /= Z.add_assoc. Qed.

Lemma store_shift o k i v : store o (k + i) v = store (ptr_add o k) i v.
Proof. destruct o; [|done]. by rewrite /store /= Z.add_assoc. Qed.

Lemma load_shift_0 o k : load o k = load (ptr_add o k) 0.
Proof. by rewrite -load_shift Z.add_0_r. Qed.

Lemma store_shift_0 o k v : store o k v = store (ptr_add o k) 0 v.
Proof. by rewrite -store_shift Z.add_0_r. Qed.

Lemma arr_opt_nil o dq : ⊢ arr_opt o dq [].
Proof. destruct o; simpl; [apply arr_nil|by iPureIntro]. Qed.

Lemma arr_opt_app o dq vs ws :
  arr_opt o dq (vs ++ ws) ⊣⊢
  arr_opt o dq vs ∗ arr_opt (ptr_add o (Z.of_nat (length vs))) dq ws.
Proof.
  destruct o as [p|]; simpl; [apply arr_app|].
  iSplit.
  - iIntros (H). apply app_eq_nil in H as [-> ->]. iSplit; iPureIntro; done.
  - iIntros "[%H1 %H2]". by rewrite H1 H2.
Qed.

Lemma arr_opt_take_drop o dq k vs : (k <= length vs)%nat →
  arr_opt o dq vs ⊣⊢ arr_opt o dq (take k vs) ∗ arr_opt (ptr_add o (Z.of_nat k)) dq (drop k vs).
Proof.
  intros Hk. rewrite -{1}(take_drop k vs) arr_opt_app length_take. by rewrite Nat.min_l.
Qed.

Lemma arr_opt_acc o dq vs (k : nat) v : vs !! k = Some v →
  arr_opt o dq vs -∗ cell_opt o k dq v ∗ (cell_opt o k dq v -∗ arr_opt o dq vs).
Proof.
  iIntros (Hk) "H". destruct o; simpl; [by iApply (arr_acc with "H")|].
  iDestruct "H" as %->. done.
Qed.

#[export] Instance arr_opt_persistent o vs : Persistent (arr_opt o DfracDiscarded vs).
Proof. destruct o; apply _. Qed.

#[export] Instance view_persistent x vs : Persistent (view x DfracDiscarded vs).
Proof. apply _. Qed.

Lemma view_half x xs :
  view x (DfracOwn 1) xs ⊣⊢ view x (DfracOwn (1/2)%Qp) xs ∗ view x (DfracOwn (1/2)%Qp) xs.
Proof.
  rewrite /view. destruct (data x) as [p|]; simpl; [rewrite arr_half|]; iSplit.
  - iIntros "[% [$ $]]". done.
  - iIntros "[[% $] [_ $]]". done.
  - iIntros "[%H %H']". done.
  - iIntros "[[%H %H'] _]". done.
Qed.

Lemma wp_load_at o i dq v Φ :
  cell_opt o i dq v -∗ (cell_opt o i dq v -∗ Φ v) -∗ wp (load o i) Φ.
Proof. destruct o; simpl; [apply wp_load_cell|by iIntros "?"]. Qed.

Lemma wp_store_at o i v w Φ :
  cell_opt o i (DfracOwn 1) v -∗ (cell_opt o i (DfracOwn 1) w -∗ Φ tt) -∗ wp (store o i w) Φ.
Proof. destruct o; simpl; [apply wp_store_cell|by iIntros "?"]. Qed.

Lemma wp_load_opt o dq vs i v Φ :
  0 <= i → vs !! Z.to_nat i = Some v →
  arr_opt o dq vs -∗ (arr_opt o dq vs -∗ Φ v) -∗ wp (load o i) Φ.
Proof.
  iIntros (Hi Hv) "Ha HΦ". destruct o; simpl; [by iApply (wp_load with "Ha")|].
  iDestruct "Ha" as %->. done.
Qed.

Lemma wp_store_opt o vs i w Φ :
  0 <= i < Z.of_nat (length vs) →
  arr_opt o (DfracOwn 1) vs -∗ (arr_opt o (DfracOwn 1) (<[Z.to_nat i:=w]> vs) -∗ Φ tt) -∗
  wp (store o i w) Φ.
Proof.
  iIntros (Hi) "Ha HΦ". destruct o; simpl; [by iApply (wp_store with "Ha")|].
  iDestruct "Ha" as %->. simpl in Hi. lia.
Qed.

Lemma wp_for_words {A} (I : list Z → A → Prop) (o : option ptr) (zs : list Z) (R : iProp Σ)
    (hi : Z) (a : A) (body : Z → A → M A) Φ :
  hi = Z.of_nat (length zs) → I [] a →
  (∀ outs z a, zs !! length outs = Some z → I outs a →
     R -∗ cell_opt o (Z.of_nat (length outs)) (DfracOwn 1) z -∗
     wp (body (Z.of_nat (length outs)) a)
        (λ a', ∃ z', ⌜I (outs ++ [z']) a'⌝ ∗ R ∗
                     cell_opt o (Z.of_nat (length outs)) (DfracOwn 1) z')) →
  arr_opt o (DfracOwn 1) zs -∗ R -∗
  (∀ outs a, ⌜length outs = length zs⌝ -∗ ⌜I outs a⌝ -∗ arr_opt o (DfracOwn 1) outs -∗ R -∗ Φ a) -∗
  wp (for_up 0 hi a body) Φ.
Proof.
  destruct o as [p|]; simpl; [apply wp_for_cells|].
  iIntros (-> HI0 _ ->) "HR HΦ". iApply wp_ret.
  by iApply ("HΦ" $! [] with "[%] [%] [%] HR").
Qed.

Lemma wp_memcpy_opt p q dq old post vs n Φ :
  n = Z.of_nat (length old) → (length old <= length vs)%nat →
  arr_opt p (DfracOwn 1) (old ++ post) -∗ arr_opt q dq vs -∗
  (arr_opt p (DfracOwn 1) (take (length old) vs ++ post) -∗ arr_opt q dq vs -∗ Φ tt) -∗
  wp (memcpy_words p q n) Φ.
Proof.
  iIntros (-> Hle) "Hp Hq HΦ". destruct p as [p|]; simpl.
  - destruct q as [q|]; simpl; [by iApply (wp_memcpy with "Hp Hq")|].
    iDestruct "Hq" as %->. destruct old; [|simpl in Hle; lia]. iApply wp_ret.
    by iApply ("HΦ" with "Hp").
  - iDestruct "Hp" as %[-> ->]%app_eq_nil. iApply wp_ret. by iApply ("HΦ" with "[//] Hq").
Qed.

Lemma wp_memcpy_self_opt p vs n Φ :
  0 <= n <= Z.of_nat (length vs) →
  arr_opt p (DfracOwn 1) vs -∗ (arr_opt p (DfracOwn 1) vs -∗ Φ tt) -∗
  wp (memcpy_words p p n) Φ.
Proof.
  iIntros (Hn) "Hp HΦ". destruct p as [p|]; simpl; [by iApply (wp_memcpy_self with "Hp")|].
  iDestruct "Hp" as %->. simpl in Hn. assert (n = 0) as -> by lia. iApply wp_ret. by iApply "HΦ".
Qed.

End logic.

(** ** Adequacy

    A [wp] proved from all the words, arrays and structs of a memory says what
    a run from that memory does. *)
Theorem wp_adequacy {A} (m : mem) (c : M A) (ψ : A → mem → Prop) :
  mem_wf m → mem_room m →
  (∀ Σ `{!memGS Σ},
     ([∗ map] k ↦ v ∈ cells m, k ↪[cells_name] v) -∗
     ([∗ map] b ↦ n ∈ blocks m, live b n) -∗
     ([∗ map] p ↦ o ∈ objs m, obj p (DfracOwn 1) o) ==∗
     wp c (λ a, ∀ m', interp m' -∗ ⌜ψ a m'⌝)) →
  ∃ a m', c m = OK (a, m') ∧ ψ a m'.
Proof.
  intros Hwf Hroom Hwp. apply (pure_soundness (PROP := iPropI memΣ)), uPred.bupd_soundness; [apply _|].
  iMod (ghost_map_alloc (cells m)) as (γc) "[Hc Hcs]".
  iMod (ghost_map_alloc (blocks m)) as (γb) "[Hb Hbs]".
  iMod (ghost_map_alloc (objs m)) as (γo) "[Ho Hos]".
  pose (HG := MemGS memΣ _ γc γb γo).
  iMod (Hwp memΣ HG with "Hcs Hbs Hos") as "Hwp".
  iMod ("Hwp" $! m with "[Hc Hb Ho]") as (a m') "(%Hrun & Hm & Hψ)".
  { rewrite /interp. by iFrame. }
  iDestruct ("Hψ" with "Hm") as %Hψ. iModIntro. iPureIntro. eauto.
Qed.

(** ** Runs that only read the old memory

    [holds m x xs]: in the memory [m] the slice [x] shows the words [xs]. *)
Definition holds (m : mem) (x : nat_t) (xs : list Z) : Prop :=
  len x = Z.of_nat (length xs) ∧
  match data x with
  | Some p => ∀ k v, xs !! k = Some v → cells m !! (p_blk p, p_off p + Z.of_nat k) = Some v
  | None => xs = []
  end.

(** [m'] extends [m]: everything that was live in [m] is unchanged in [m']. *)
Record mem_extends (m m' : mem) : Prop := MemExtends {
  ext_cells : cells m ⊆ cells m';
  ext_objs : objs m ⊆ objs m';
  ext_wf : mem_wf m';
  ext_room : mem_room m'
}.

Definition holdsb (m : mem) (x : nat_t) (xs : list Z) : bool :=
  (len x =? Z.of_nat (length xs)) &&
  match data x with
  | Some p => forallb (fun k => bool_decide (cells m !! (p_blk p, p_off p + Z.of_nat k) = xs !! k))
                      (seq 0 (length xs))
  | None => bool_decide (xs = [])
  end.

(** [holds] is decided by computation. *)
Lemma holdsb_holds m x xs : holdsb m x xs = true → holds m x xs.
Proof.
  rewrite /holdsb /holds andb_true_iff Z.eqb_eq. intros [Hl Hd]. split; [done|].
  destruct (data x) as [p|]; [|by apply bool_decide_eq_true in Hd].
  intros k v Hk. rewrite forallb_forall in Hd. rewrite -Hk.
  eapply bool_decide_eq_true, Hd, in_seq. apply lookup_lt_Some in Hk. lia.
Qed.

(** [mem_wf] for a concrete memory *)
Definition mem_wfb (m : mem) : bool :=
  forallb (fun '((b, _), _) => Pos.ltb b (next m)) (map_to_list (cells m)) &&
  forallb (fun '(b, _) => Pos.ltb b (next m)) (map_to_list (blocks m)) &&
  forallb (fun '(b, _) => Pos.ltb b (next m)) (map_to_list (objs m)).

Lemma mem_wfb_wf m : mem_wfb m = true → mem_wf m.
Proof.
  rewrite /mem_wfb !andb_true_iff !forallb_forall. intros [[H1 H2] H3]. split.
  - intros b o [v Hv]. apply elem_of_map_to_list, list_elem_of_In in Hv.
    by apply Pos.ltb_lt, (H1 _ Hv).
  - intros b [v Hv]. apply elem_of_map_to_list, list_elem_of_In in Hv.
    by apply Pos.ltb_lt, (H2 _ Hv).
  - intros b [v Hv]. apply elem_of_map_to_list, list_elem_of_In in Hv.
    by apply Pos.ltb_lt, (H3 _ Hv).
Qed.

(** A memory with the given arrays as blocks 1, 2, ... *)
Definition mem_add (m : mem) (vs : list Z) : mem :=
  Mem (put_cells (next m) 0 vs (cells m)) (<[next m := Z.of_nat (length vs)]> (blocks m))
      (objs m) (Pos.succ (next m)) (oom m).
Definition mem_of (vss : list (list Z)) : mem := foldl mem_add mem_empty vss.

(** The slice of all of block [b], of [n] words *)
Definition whole (b : positive) (n : Z) : nat_t := Nat (Some (Ptr b 0)) n n false.

Section readonly.
Context `{!memGS Σ}.

(** Every word and every struct of [m], read-only *)
Definition mem_ro (m : mem) : iProp Σ :=
  ([∗ map] k ↦ v ∈ cells m, k ↪[cells_name]□ v) ∗
  ([∗ map] p ↦ o ∈ objs m, obj p DfracDiscarded o).

#[export] Instance mem_ro_persistent m : Persistent (mem_ro m).
Proof. apply _. Qed.

Lemma mem_ro_view m x xs : holds m x xs → mem_ro m ⊢ view x DfracDiscarded xs.
Proof.
  iIntros ([Hl Hd]) "[#Hc _]". iSplit; [done|]. destruct (data x) as [p|]; simpl; [|done].
  rewrite /arr. iApply big_sepL_forall. iIntros (k v Hk).
  iApply (big_sepM_lookup with "Hc"). by apply Hd.
Qed.

Lemma mem_ro_obj m p o : objs m !! p = Some o → mem_ro m ⊢ obj p DfracDiscarded o.
Proof. iIntros (Hp) "[_ #Ho]". by iApply (big_sepM_lookup with "Ho"). Qed.

Lemma interp_view m x dq xs : interp m -∗ view x dq xs -∗ ⌜holds m x xs⌝.
Proof.
  iIntros "(Hc & _) [%Hl Hv]". rewrite /holds.
  destruct (data x) as [p|]; simpl; [|by iDestruct "Hv" as %->].
  iSplit; [done|]. iIntros (k v Hk). iDestruct (arr_acc with "Hv") as "[Hv _]"; [done|].
  iApply (ghost_map_lookup with "Hc Hv").
Qed.

Lemma interp_obj m p dq o : interp m -∗ obj p dq o -∗ ⌜objs m !! p = Some o⌝.
Proof. iIntros "(_ & _ & Ho & _) Hp". iApply (ghost_map_lookup with "Ho Hp"). Qed.

Lemma interp_extends m m' : interp m' -∗ mem_ro m -∗ ⌜mem_extends m m'⌝.
Proof.
  iIntros "(Hc & _ & Ho & %Hwf & %Hroom) [#Hcs #Hos]".
  iAssert ⌜cells m ⊆ cells m'⌝%I as %Hcells.
  { rewrite map_subseteq_spec. iIntros (k v Hk).
    iDestruct (big_sepM_lookup with "Hcs") as "Hk"; [done|].
    iApply (ghost_map_lookup with "Hc Hk"). }
  iAssert ⌜objs m ⊆ objs m'⌝%I as %Hobjs.
  { rewrite map_subseteq_spec. iIntros (k v Hk).
    iDestruct (big_sepM_lookup with "Hos") as "Hk"; [done|].
    iApply (ghost_map_lookup with "Ho Hk"). }
  done.
Qed.

Lemma mem_ro_alloc m :
  ([∗ map] k ↦ v ∈ cells m, k ↪[cells_name] v) ∗
  ([∗ map] p ↦ o ∈ objs m, obj p (DfracOwn 1) o) ==∗ mem_ro m.
Proof.
  iIntros "[Hc Ho]". iSplitL "Hc"; iApply big_sepM_bupd.
  - iApply (big_sepM_mono with "Hc"). iIntros (k v _) "H". iApply (ghost_map_elem_persist with "H").
  - iApply (big_sepM_mono with "Ho"). iIntros (k v _) "H". iApply (ghost_map_elem_persist with "H").
Qed.
End readonly.

Theorem ro_adequacy {A} (m : mem) (c : M A) (ψ : A → mem → Prop) :
  mem_wf m → mem_room m →
  (∀ Σ `{!memGS Σ}, mem_ro m ⊢ wp c (λ a, ∀ m', interp m' -∗ ⌜ψ a m'⌝)) →
  ∃ a m', c m = OK (a, m') ∧ ψ a m' ∧ mem_extends m m'.
Proof.
  intros Hwf Hroom Hwp. apply wp_adequacy; [done..|]. iIntros (Σ HG) "Hc _ Ho".
  iMod (mem_ro_alloc with "[$Hc $Ho]") as "#Hro". iModIntro.
  iApply wp_wand; [by iApply Hwp|]. iIntros (a) "Hψ". iIntros (m') "Hm".
  iDestruct ("Hψ" with "Hm") as %Hψ. by iDestruct (interp_extends with "Hm Hro") as %Hext.
Qed.

Theorem ro_adequacy_err {A} (m : mem) (c : M A) (e : error) :
  mem_wf m → mem_room m →
  (∀ Σ `{!memGS Σ}, mem_ro m ⊢ wpe c e) → c m = Er e.
Proof.
  intros Hwf Hroom Hwp. apply (pure_soundness (PROP := iPropI memΣ)), uPred.bupd_soundness; [apply _|].
  iMod (ghost_map_alloc (cells m)) as (γc) "[Hc Hcs]".
  iMod (ghost_map_alloc (blocks m)) as (γb) "[Hb _]".
  iMod (ghost_map_alloc (objs m)) as (γo) "[Ho Hos]".
  pose (HG := MemGS memΣ _ γc γb γo).
  iAssert (|==> mem_ro m)%I with "[Hcs Hos]" as ">#Hro"; [iApply mem_ro_alloc; iFrame|].
  iApply (Hwp with "Hro"). rewrite /interp. by iFrame.
Qed.
