(* ===== verification/NatCore.v ===== *)
(** * Slices of words: [cmake/bigint/src/nat.h] and [nat.c]

    Allocation, slicing, normalisation and comparison of [nat] values.  Each C
    function is a computation in [M]; a [nat*] parameter that is updated is
    returned. *)

From S2P Require Import Prelude Words Digits Memory Logic.
From iris.proofmode Require Import proofmode.
From iris.base_logic.lib Require Import own ghost_map.

Local Open Scope Z_scope.
Local Open Scope c_scope.

Definition set_len (x : nat_t) (n : Z) : nat_t := Nat (data x) n (cap x) (part x).

Definition natNewLen (n : Z) : M nat_t :=
  let! (d, n) :=
    (if 0 <? n then
       let! p := calloc_words n in
       ret (p, match p with None => 0 | Some _ => n end)
     else ret (None, n)) in
  ret (Nat d n n false).

(** A slice with no array *)
Definition nat_null : nat_t := Nat None 0 0 false.

Definition natNew (v : Z) : M nat_t :=
  let! t := natNewLen 8 in
  store (data t) 0 v ;!
  ret (set_len t 1).

Definition natPart (p : nat_t) (from to : Z) : M nat_t :=
  assert_ (from <=? to) ;!
  assert_ (0 <=? from) ;!
  ret (Nat (ptr_add (data p) from) (to - from) (to - from) (0 <? from)).

Definition natFree (p : nat_t) : M nat_t :=
  if part p then ret p
  else free_words (data p) ;! ret (Nat None 0 0 false).

Definition natMake (z : nat_t) (n : Z) : M nat_t :=
  if n <? cap z then natPart z 0 n
  else
    let! _ := natFree z in
    if n =? 1 then natNewLen 1
    else let! t := natNewLen (n + 4) in ret (set_len t n).

Definition natSetWord (z : nat_t) (x : Z) : M nat_t :=
  if x =? 0 then natPart z 0 0
  else
    let! z := natMake z 1 in
    store (data z) 0 x ;!
    ret z.

Definition natDup (x : nat_t) : M nat_t :=
  let! z := natNewLen (len x) in
  memcpy_words (data z) (data x) (len x) ;!
  ret (Nat (data z) (len x) (len x) (part z)).

(** The loop of [natNorm]: the largest [j <= i] with [j = 0] or
    [data[j - 1] <> 0]. *)
Fixpoint norm_loop (d : option ptr) (i : nat) : M Z :=
  match i with
  | O => ret 0
  | S j =>
      let! v := load d (Z.of_nat j) in
      if v =? 0 then norm_loop d j else ret (Z.of_nat i)
  end.

Definition natNorm (p : nat_t) : M nat_t :=
  if 0 <? len p then let! i := norm_loop (data p) (Z.to_nat (len p)) in ret (set_len p i)
  else ret p.

(** The loop of [natCmp]: from [i] down to the first index with different
    words, or 0. *)
Fixpoint cmp_loop (x y : option ptr) (i : nat) : M Z :=
  match i with
  | O => ret 0
  | S j =>
      let! a := load x (Z.of_nat i) in
      let! b := load y (Z.of_nat i) in
      if a =? b then cmp_loop x y j else ret (Z.of_nat i)
  end.

Definition natCmp (x y : nat_t) : M Z :=
  let m := len x in
  let n := len y in
  if negb (m =? n) || (m =? 0) then
    if m <? n then ret (-1)
    else if n <? m then ret 1
    else ret 0
  else
    let! i := cmp_loop (data x) (data y) (Z.to_nat (m - 1)) in
    let! a := load (data x) i in
    let! b := load (data y) i in
    if a <? b then ret (-1)
    else if b <? a then ret 1
    else ret 0.

Definition natClear (x : nat_t) : M unit :=
  for_up 0 (len x) tt (fun i _ => store (data x) i 0).

Definition natSetValue (t : nat_t) (index value : Z) : M unit :=
  assert_ ((0 <=? index) && (index <? len t)) ;!
  store (data t) index value.

Definition natCopy (dst src : nat_t) : M unit :=
  assert_ (len src <=? cap dst) ;!
  memcpy_words (data dst) (data src) (len src).

Definition natSet (z x : nat_t) : M nat_t :=
  let! z := natMake z (len x) in
  natCopy z x ;!
  ret z.

Definition natSwap (x y : nat_t) : nat_t * nat_t := (y, x).

(** ** Specifications *)

(** The slice [p[from:to]] *)
Definition slice (p : nat_t) (from to : Z) : nat_t :=
  Nat (ptr_add (data p) from) (to - from) (to - from) (0 <? from).

Section specs.
Context `{!memGS Σ}.

(** [x] starts a live array whose words, all of them, are [ws]. *)
Definition block_of (x : nat_t) (ws : list Z) : iProp Σ :=
  ⌜part x = false⌝ ∗
  match data x with
  | Some p => ⌜p_off p = 0⌝ ∗ arr p (DfracOwn 1) ws ∗ live (p_blk p) (Z.of_nat (length ws))
  | None => ⌜ws = []⌝
  end.

(** [x] shows [xs] and starts an array that may be freed through it, or be
    reused up to the capacity. *)
Definition owned (x : nat_t) (xs : list Z) : iProp Σ :=
  ∃ rest, ⌜len x = Z.of_nat (length xs) ∧ len x <= cap x <= Z.of_nat (length (xs ++ rest))⌝ ∗
    block_of x (xs ++ rest).

Lemma block_of_null : ⊢ block_of nat_null [].
Proof. by iSplit. Qed.

Lemma block_of_arr x ws :
  block_of x ws ⊢ arr_opt (data x) (DfracOwn 1) ws ∗
    (∀ ws', ⌜length ws' = length ws⌝ -∗ arr_opt (data x) (DfracOwn 1) ws' -∗ block_of x ws').
Proof.
  rewrite /block_of. iIntros "[$ H]". destruct (data x) as [p|]; simpl.
  - iDestruct "H" as "($ & $ & Hl)". iIntros (ws' Hlen) "$". by rewrite Hlen.
  - iSplit; [done|]. iIntros (ws' _) "$".
Qed.

Lemma owned_view x xs :
  owned x xs ⊢ view x (DfracOwn 1) xs ∗ (∀ xs', ⌜length xs' = length xs⌝ -∗
    view x (DfracOwn 1) xs' -∗ owned x xs').
Proof.
  iIntros "(%rest & %Hl & H)". iDestruct (block_of_arr with "H") as "[H Hcl]".
  rewrite arr_opt_app. iDestruct "H" as "[Hx Hr]". rewrite /view. iFrame "Hx". iSplit; [by destruct Hl|].
  iIntros (xs' Hlen) "[%Hl' Hx]". iExists rest.
  iSplit; [iPureIntro; rewrite !length_app Hlen in Hl *; lia|].
  iApply "Hcl"; [by rewrite !length_app Hlen|]. rewrite arr_opt_app Hlen. iFrame.
Qed.

Lemma owned_len x xs : owned x xs ⊢ ⌜len x = Z.of_nat (length xs)⌝.
Proof. iIntros "(%rest & [% _] & _)". done. Qed.

Lemma owned_block x xs :
  owned x xs ⊢ ∃ ws, ⌜0 <= cap x <= Z.of_nat (length ws)⌝ ∗ block_of x ws.
Proof. iIntros "(%rest & %Hc & H)". iExists _. iFrame. iPureIntro. lia. Qed.

(** The words shown, and the rest of the array *)
Lemma owned_cap x xs :
  owned x xs ⊢ ⌜len x = Z.of_nat (length xs) ∧ len x <= cap x⌝ ∗ owned x xs.
Proof. iIntros "(%rest & %Hc & H)". iSplit; [iPureIntro; lia|]. iExists rest. by iFrame. Qed.

(** The array behind [x] starts with the words it shows. *)
Lemma block_of_owned x xs rest :
  len x = Z.of_nat (length xs) → len x <= cap x <= Z.of_nat (length xs + length rest) →
  block_of x (xs ++ rest) ⊢ owned x xs.
Proof. iIntros (Hl Hc) "H". iExists rest. rewrite length_app. by iFrame. Qed.

(** A new array, shown as a whole *)
Lemma owned_whole x xs :
  len x = Z.of_nat (length xs) → cap x = len x → block_of x xs ⊢ owned x xs.
Proof.
  iIntros (Hl Hc) "H". iApply (block_of_owned x xs []); [done|simpl; lia|]. by rewrite app_nil_r.
Qed.

Lemma owned_null : ⊢ owned nat_null [].
Proof. iApply (block_of_owned _ [] []); [done|done|]. iApply block_of_null. Qed.

Lemma owned_ro x xs : owned x xs ==∗ view x DfracDiscarded xs.
Proof.
  iIntros "H". iDestruct (owned_view with "H") as "[[%Hl H] _]". rewrite /view.
  destruct (data x) as [p|]; simpl; [|by iDestruct "H" as %->].
  by iMod (arr_persist with "H") as "$".
Qed.

(** ** Slicing *)

Lemma natPart_slice p from to : 0 <= from <= to → natPart p from to = ret (slice p from to).
Proof.
  intros H. rewrite /natPart (proj2 (Z.leb_le from to)); [|lia].
  rewrite (proj2 (Z.leb_le 0 from)); [done|lia].
Qed.

Lemma wp_natPart p from to Φ :
  0 <= from <= to → Φ (slice p from to) ⊢ wp (natPart p from to) Φ.
Proof. intros H. rewrite natPart_slice //. apply wp_ret. Qed.

(** A view splits into the views of two adjacent slices. *)
Lemma view_split x dq xs ys :
  view x dq (xs ++ ys) ⊢
  view (slice x 0 (Z.of_nat (length xs))) dq xs ∗
  view (slice x (Z.of_nat (length xs)) (len x)) dq ys.
Proof.
  iIntros "[%Hl H]". rewrite arr_opt_app /view /slice /=. iDestruct "H" as "[Hx Hy]".
  rewrite length_app in Hl. rewrite ptr_add_0. iFrame. iPureIntro. lia.
Qed.

(** ** Allocation *)

Lemma wp_natNewLen n Φ :
  0 <= n →
  (∀ z, ⌜len z = n ∧ cap z = n⌝ -∗ block_of z (replicate (Z.to_nat n) 0) -∗ Φ z) -∗
  wp (natNewLen n) Φ.
Proof.
  iIntros (Hn) "HΦ". rewrite /natNewLen. destruct (Z.ltb_spec 0 n).
  - iApply wp_bind. iApply wp_bind. iApply wp_calloc. iIntros (b) "Ha Hl".
    iApply wp_ret. iApply wp_ret. iApply ("HΦ" $! (Nat _ _ _ _) with "[%]"); [done|].
    rewrite /block_of /= length_replicate Z2Nat.id; [|lia]. by iFrame.
  - assert (n = 0) as -> by lia. iApply wp_bind. iApply wp_ret. iApply wp_ret.
    iApply ("HΦ" $! (Nat _ _ _ _) with "[%]"); [done|]. rewrite /block_of /=. done.
Qed.

Lemma wp_natNew v Φ : (∀ z, ⌜cap z = 8⌝ -∗ owned z [v] -∗ Φ z) -∗ wp (natNew v) Φ.
Proof.
  iIntros "HΦ". iApply wp_bind. iApply wp_natNewLen; [done|]. iIntros (z [Hl Hc]) "Hz".
  iDestruct (block_of_arr with "Hz") as "[Hz Hcl]".
  iApply wp_bind. iApply (wp_store_opt with "Hz"); [done|]. iIntros "Hz". iApply wp_ret.
  iApply ("HΦ" with "[%]"); [done|]. iApply (block_of_owned _ [v] (replicate 7 0)); [done|simpl; lia|].
  iApply ("Hcl" with "[%] Hz"). done.
Qed.

Lemma wp_natFree_block x ws Φ :
  block_of x ws -∗ Φ (Nat None 0 0 false) -∗ wp (natFree x) Φ.
Proof.
  iIntros "[%Hp H] HΦ". rewrite /natFree Hp. iApply wp_bind.
  destruct (data x) as [p|].
  - iDestruct "H" as "(%Hoff & Ha & Hl)". destruct p as [b o]; simpl in *; subst o.
    iApply (wp_free with "Ha Hl"); [done|]. by iApply wp_ret.
  - iApply wp_free_null. by iApply wp_ret.
Qed.

Lemma wp_natFree_owned x xs Φ :
  owned x xs -∗ Φ (Nat None 0 0 false) -∗ wp (natFree x) Φ.
Proof. iIntros "(%r & _ & H) HΦ". by iApply (wp_natFree_block with "H"). Qed.

Lemma wp_natFree_part x Φ : part x = true → Φ x ⊢ wp (natFree x) Φ.
Proof. iIntros (Hp) "H". rewrite /natFree Hp. by iApply wp_ret. Qed.

Lemma wp_natDup x dq xs Φ :
  view x dq xs -∗ (∀ z, owned z xs -∗ view x dq xs -∗ Φ z) -∗ wp (natDup x) Φ.
Proof.
  iIntros "[%Hl Hx] HΦ". iApply wp_bind. iApply wp_natNewLen; [lia|].
  iIntros (z [Hlz Hcz]) "Hz". iDestruct (block_of_arr with "Hz") as "[Hz Hcl]".
  iApply wp_bind.
  iApply (wp_memcpy_opt _ _ _ (replicate (length xs) 0) [] with "[Hz] Hx").
  { by rewrite length_replicate. } { by rewrite length_replicate. }
  { rewrite app_nil_r Hl Nat2Z.id. done. }
  iIntros "Hz Hx". rewrite !length_replicate take_ge // app_nil_r. iApply wp_ret.
  iApply ("HΦ" with "[Hcl Hz]"); [|by iFrame].
  iApply owned_whole; [done..|]. iApply ("Hcl" with "[%] Hz"). lia.
Qed.

(** ** Normalisation and comparison *)

Lemma wp_norm_loop o dq xs rest Φ :
  arr_opt o dq (xs ++ rest) -∗
  (arr_opt o dq (xs ++ rest) -∗ Φ (Z.of_nat (length (strip xs)))) -∗
  wp (norm_loop o (length xs)) Φ.
Proof.
  iIntros "Ha HΦ". iInduction xs as [|x xs IH] using rev_ind forall (rest); simpl.
  { iApply wp_ret. by iApply "HΦ". }
  rewrite length_app Nat.add_1_r /=. iApply wp_bind. rewrite -app_assoc.
  iApply (wp_load_opt _ _ _ _ x with "Ha"); [lia| |].
  { rewrite Nat2Z.id lookup_app_r // Nat.sub_diag //. }
  iIntros "Ha". destruct (Z.eqb_spec x 0) as [->|Hx].
  - iApply ("IH" with "Ha"). iIntros "Ha". rewrite strip_snoc_0. by iApply "HΦ".
  - iApply wp_ret. rewrite strip_snoc // length_app Nat.add_1_r. by iApply "HΦ".
Qed.

Lemma wp_natNorm x dq xs Φ :
  view x dq xs -∗ (view x dq xs -∗ Φ (set_len x (Z.of_nat (length (strip xs))))) -∗
  wp (natNorm x) Φ.
Proof.
  iIntros "[%Hl Hx] HΦ". rewrite /natNorm. destruct (Z.ltb_spec 0 (len x)).
  - iApply wp_bind. rewrite Hl Nat2Z.id -{1 2}(app_nil_r xs).
    iApply (wp_norm_loop with "Hx"). iIntros "Hx". iApply wp_ret. iApply "HΦ".
    rewrite app_nil_r. by iFrame.
  - destruct xs; [|simpl in *; lia]. iApply wp_ret. simpl in Hl.
    assert (set_len x 0 = x) as Hx by (destruct x; simpl in *; by subst).
    iSpecialize ("HΦ" with "[Hx]"); [by iFrame|]. by rewrite /= Hx.
Qed.

(** Normalising a block that we own *)
Lemma wp_natNorm_owned x xs Φ :
  owned x xs -∗ (∀ z, owned z (strip xs) -∗ ⌜data z = data x⌝ -∗ Φ z) -∗ wp (natNorm x) Φ.
Proof.
  iIntros "Hx HΦ". iDestruct (owned_view with "Hx") as "[Hx Hcl]".
  iApply (wp_natNorm with "Hx"). iIntros "Hx".
  iDestruct ("Hcl" with "[//] Hx") as "(%rest & %Hl & Hx)".
  iApply ("HΦ" with "[Hx]"); [|done]. destruct (strip_zeros xs) as [k Hk].
  iApply (block_of_owned _ _ (replicate k 0 ++ rest)); [done| |].
  - rewrite -length_app (assoc_L app) -Hk /=. pose proof (strip_length xs). lia.
  - by rewrite (assoc_L app) -Hk /block_of.
Qed.

Lemma wp_cmp_loop o dq xs o' dq' ys i Φ :
  length xs = length ys → (i < length xs)%nat →
  arr_opt o dq xs -∗ arr_opt o' dq' ys -∗
  (∀ j : nat, ⌜(j <= i)%nat ∧ take (i - j) (drop (S j) xs) = take (i - j) (drop (S j) ys) ∧
         (j = 0%nat ∨ xs !! j ≠ ys !! j)⌝ -∗
     arr_opt o dq xs -∗ arr_opt o' dq' ys -∗ Φ (Z.of_nat j)) -∗
  wp (cmp_loop o o' i) Φ.
Proof.
  iIntros (Hlen Hi) "Hx Hy HΦ". iInduction i as [|i IH] forall (Hi); simpl.
  { iApply wp_ret. iApply ("HΦ" $! 0%nat with "[%] Hx Hy"). auto. }
  destruct (lookup_lt_is_Some_2 xs (S i)) as [a Ha]; [lia|].
  destruct (lookup_lt_is_Some_2 ys (S i)) as [b Hb]; [lia|].
  iApply wp_bind. iApply (wp_load_opt _ _ _ _ a with "Hx"); [lia|by rewrite -Ha; f_equal; lia|].
  iIntros "Hx". iApply wp_bind.
  iApply (wp_load_opt _ _ _ _ b with "Hy"); [lia|by rewrite -Hb; f_equal; lia|].
  iIntros "Hy". destruct (Z.eqb_spec a b) as [->|Hne].
  - iApply ("IH" with "[%] Hx Hy"); [lia|]. iIntros (j (Hj & Heq & Hd)) "Hx Hy".
    iApply ("HΦ" with "[%] Hx Hy"). split; [lia|]. split; [|done].
    replace (S i - j)%nat with (S (i - j)) by lia.
    rewrite !(take_S_r _ _ b); [by rewrite Heq|rewrite lookup_drop -Hb; f_equal; lia
      |rewrite lookup_drop -Ha; f_equal; lia].
  - iApply wp_ret. iApply ("HΦ" $! (S i) with "[%] Hx Hy"). rewrite Nat.sub_diag.
    split; [done|]. split; [done|]. right. rewrite Ha Hb. congruence.
Qed.

Definition cmpZ (a b : Z) : Z := if a <? b then -1 else if b <? a then 1 else 0.

Lemma cmpZ_lt a b : a < b → cmpZ a b = -1.
Proof. intros. rewrite /cmpZ (proj2 (Z.ltb_lt a b)) //. Qed.
Lemma cmpZ_gt a b : b < a → cmpZ a b = 1.
Proof. intros. rewrite /cmpZ (proj2 (Z.ltb_ge a b)); [|lia]. rewrite (proj2 (Z.ltb_lt b a)) //. Qed.
Lemma cmpZ_ge a b : b <= a → (cmpZ a b <? 0) = false.
Proof. intros H. rewrite /cmpZ. repeat case_match; lia. Qed.

Lemma cmpZ_eq a : cmpZ a a = 0.
Proof. by rewrite /cmpZ Z.ltb_irrefl. Qed.

Lemma wp_natCmp `{T : Target} x dq xs y dq' ys Φ :
  digits xs → digits ys → normalized xs → normalized ys →
  view x dq xs -∗ view y dq' ys -∗
  (view x dq xs -∗ view y dq' ys -∗ Φ (cmpZ (value xs) (value ys))) -∗
  wp (natCmp x y) Φ.
Proof.
  iIntros (Hdx Hdy Hnx Hny) "[%Hlx Hx] [%Hly Hy] HΦ". rewrite /natCmp Hlx Hly.
  destruct (Z.eqb_spec (Z.of_nat (length xs)) (Z.of_nat (length ys))) as [Heq|Hne]; simpl.
  2:{ case_if.
      - rewrite cmpZ_lt; [|apply value_lt_length; done || lia].
        iApply wp_ret. iApply ("HΦ" with "[$Hx] [$Hy]"); done.
      - rewrite (proj2 (Z.ltb_lt _ _)); [|lia].
        rewrite cmpZ_gt; [|apply value_lt_length; done || lia].
        iApply wp_ret. iApply ("HΦ" with "[$Hx] [$Hy]"); done. }
  assert (length xs = length ys) as Hlen by lia.
  destruct (Z.eqb_spec (Z.of_nat (length xs)) 0) as [H0|Hpos].
  { destruct xs; [|simpl in *; lia]. destruct ys; [|done]. rewrite cmpZ_eq.
    iApply wp_ret. iApply ("HΦ" with "[$Hx] [$Hy]"); done. }
  iApply wp_bind. iApply (wp_cmp_loop with "Hx Hy"); [done|lia|].
  iIntros (j (Hj & Hd & Hdiff)) "Hx Hy".
  rewrite !take_ge in Hd; [|rewrite length_drop; lia..].
  destruct (lookup_lt_is_Some_2 xs j) as [a Ha]; [lia|].
  destruct (lookup_lt_is_Some_2 ys j) as [b Hb]; [lia|].
  iApply wp_bind. iApply (wp_load_opt _ _ _ _ a with "Hx"); [lia|by rewrite Nat2Z.id|].
  iIntros "Hx". iApply wp_bind.
  iApply (wp_load_opt _ _ _ _ b with "Hy"); [lia|by rewrite Nat2Z.id|]. iIntros "Hy".
  iSpecialize ("HΦ" with "[$Hx] [$Hy]"); [done..|].
  destruct (Z.ltb_spec a b) as [Hab|Hab].
  { rewrite cmpZ_lt; [by iApply wp_ret|]. by apply (value_compare_top xs ys j a b). }
  destruct (Z.ltb_spec b a) as [Hba|Hba].
  { rewrite cmpZ_gt; [by iApply wp_ret|]. by apply (value_compare_top ys xs j b a). }
  assert (a = b) as -> by lia. destruct Hdiff as [->|Hdiff]; [|congruence].
  assert (xs = ys) as ->; [|rewrite cmpZ_eq; by iApply wp_ret].
  destruct xs, ys; simpl in *; simplify_eq; congruence.
Qed.

(** ** Clearing, copying, resizing *)

Lemma wp_natClear x xs Φ :
  view x (DfracOwn 1) xs -∗
  (view x (DfracOwn 1) (replicate (length xs) 0) -∗ Φ tt) -∗ wp (natClear x) Φ.
Proof.
  iIntros "[%Hl Hx] HΦ".
  iApply (wp_for_words (λ outs _, outs = replicate (length outs) 0) _ xs True%I
    with "Hx [//]"); [done|done| |].
  - iIntros (outs z [] Hz Hinv) "_ Hc". iApply (wp_store_at with "Hc"). iIntros "Hc".
    iExists 0. iFrame. iPureIntro.
    rewrite length_app /= replicate_add /= -Hinv. done.
  - iIntros (outs [] Hlen Hinv) "Hx _". iApply "HΦ". rewrite -Hlen -Hinv. iFrame.
    iPureIntro. by rewrite Hlen.
Qed.

Lemma wp_natCopy x old rest y dq ys Φ :
  length old = length ys → Z.of_nat (length ys) <= cap x →
  arr_opt (data x) (DfracOwn 1) (old ++ rest) -∗ view y dq ys -∗
  (arr_opt (data x) (DfracOwn 1) (ys ++ rest) -∗ view y dq ys -∗ Φ tt) -∗
  wp (natCopy x y) Φ.
Proof.
  iIntros (Hlen Hcap) "Hx [%Hl Hy] HΦ". iApply wp_bind.
  iApply wp_assert; [apply Z.leb_le; lia|].
  iApply (wp_memcpy_opt with "Hx Hy"); [lia|lia|]. iIntros "Hx Hy".
  rewrite take_ge; [|lia]. iApply ("HΦ" with "Hx"). by iFrame.
Qed.

(** [natMake] within the capacity reuses the words; past it, it frees the
    array and allocates a new one. *)
Lemma wp_natMake_reuse z n Φ :
  0 <= n < cap z → Φ (slice z 0 n) ⊢ wp (natMake z n) Φ.
Proof.
  iIntros (Hn) "H". rewrite /natMake (proj2 (Z.ltb_lt n (cap z))); [|lia].
  iApply wp_natPart; [lia|done].
Qed.

Lemma wp_natMake_grow z ws n Φ :
  0 < n → cap z <= n → block_of z ws -∗
  (∀ z' rest, ⌜len z' = n⌝ -∗ block_of z' (replicate (Z.to_nat n) 0 ++ rest) -∗ Φ z') -∗
  wp (natMake z n) Φ.
Proof.
  iIntros (Hn Hcap) "Hz HΦ". rewrite /natMake (proj2 (Z.ltb_ge n (cap z))); [|lia].
  iApply wp_bind. iApply (wp_natFree_block with "Hz"). destruct (Z.eqb_spec n 1) as [->|].
  - iApply wp_natNewLen; [lia|]. iIntros (z' [Hl _]) "Hz". iApply ("HΦ" $! z' []); [done|].
    by rewrite app_nil_r.
  - iApply wp_bind. iApply wp_natNewLen; [lia|]. iIntros (z' [Hl _]) "Hz". iApply wp_ret.
    iApply ("HΦ" $! (set_len z' n) (replicate 4 0)); [done|].
    rewrite -replicate_add. by replace (Z.to_nat n + 4)%nat with (Z.to_nat (n + 4)) by lia.
Qed.

Lemma block_of_slice z ws n : block_of z ws ⊢ block_of (slice z 0 n) ws.
Proof. rewrite /block_of /slice /= ptr_add_0. iIntros "[_ $]". done. Qed.

(** [natMake] in general: a slice of [n] words that starts an array *)
Lemma wp_natMake z ws n Φ :
  0 <= n → cap z <= Z.of_nat (length ws) → block_of z ws -∗
  (∀ z' ws', ⌜len z' = n ∧ n <= cap z' ∧ cap z' <= Z.of_nat (length ws')⌝ -∗
     block_of z' ws' -∗ Φ z') -∗
  wp (natMake z n) Φ.
Proof.
  iIntros (Hn Hcap) "Hz HΦ". rewrite /natMake. destruct (Z.ltb_spec n (cap z)).
  - iApply wp_natPart; [lia|]. iApply ("HΦ" with "[%]"); [|by iApply block_of_slice]. simpl. lia.
  - iApply wp_bind. iApply (wp_natFree_block with "Hz"). destruct (Z.eqb_spec n 1) as [->|].
    + iApply wp_natNewLen; [lia|]. iIntros (z' [Hl Hc]) "Hz". iApply ("HΦ" with "[%] Hz").
      rewrite length_replicate. lia.
    + iApply wp_bind. iApply wp_natNewLen; [lia|]. iIntros (z' [Hl Hc]) "Hz". iApply wp_ret.
      iApply ("HΦ" $! (set_len z' n) with "[%] Hz"). rewrite length_replicate /=. lia.
Qed.

Lemma wp_natSet z ws x dq xs Φ :
  cap z <= Z.of_nat (length ws) → block_of z ws -∗ view x dq xs -∗
  (∀ z', owned z' xs -∗ view x dq xs -∗ Φ z') -∗ wp (natSet z x) Φ.
Proof.
  iIntros (Hcap) "Hz [%Hlx Hx] HΦ". iApply wp_bind.
  iApply (wp_natMake with "Hz"); [lia|done|]. iIntros (z' ws' (Hl & Hc & Hc')) "Hz".
  iDestruct (block_of_arr with "Hz") as "[Hz Hcl]". iApply wp_bind.
  iApply (wp_natCopy z' (take (length xs) ws') (drop (length xs) ws') x dq xs with "[Hz] [$Hx]");
    [rewrite length_take; lia|lia|by rewrite take_drop|done|].
  iIntros "Hz Hx". iApply wp_ret. iApply ("HΦ" with "[Hz Hcl] Hx").
  iApply (block_of_owned _ xs (drop (length xs) ws')); [lia|rewrite length_drop; lia|].
  iApply ("Hcl" with "[%] Hz"). rewrite length_app length_drop. lia.
Qed.

Lemma wp_natSetWord z ws x Φ :
  0 <= cap z <= Z.of_nat (length ws) → block_of z ws -∗
  (∀ z', owned z' (strip [x]) -∗ Φ z') -∗ wp (natSetWord z x) Φ.
Proof.
  iIntros (Hcap) "Hz HΦ". rewrite /natSetWord /=. destruct (Z.eqb_spec x 0) as [->|Hx].
  - iApply wp_natPart; [lia|]. iApply "HΦ". iApply (block_of_owned _ [] ws); [done|simpl; lia|].
    by iApply block_of_slice.
  - iApply wp_bind. iApply (wp_natMake with "Hz"); [lia|lia|]. iIntros (z' ws' (Hl & Hc & Hc')) "Hz".
    iDestruct (block_of_arr with "Hz") as "[Hz Hcl]". iApply wp_bind.
    iApply (wp_store_opt with "Hz"); [lia|]. iIntros "Hz". iApply wp_ret. iApply "HΦ".
    destruct ws' as [|w ws']; [simpl in *; lia|].
    iApply (block_of_owned _ [x] ws'); [done|simpl in *; lia|]. by iApply ("Hcl" with "[%] Hz").
Qed.
End specs.
