(* ===== verification/Loops.v ===== *)
(** * The loops over two digit vectors

    [addVV]/[subVV] and [addVW]/[subVW] differ only in the primitive they call.
    This file proves their loops once, for a primitive [op] that adds
    ([sg = 1]) or subtracts ([sg = -1]) with carry, and for a destination that
    is apart from the sources or is the first source itself. *)

From S2P Require Import Prelude Words Digits Carry Memory Logic NatCore.
From iris.proofmode Require Import proofmode.
From iris.base_logic.lib Require Import own ghost_map.

Local Open Scope Z_scope.
Local Open Scope c_scope.

(** What [UIntAdd] and [UIntSub] share *)
Definition carries `{T : Target} (sg : Z) (op : Z -> Z -> Z -> Z * Z) : Prop :=
  (sg = 1 \/ sg = -1) /\
  forall x y c, 0 <= x < Base -> 0 <= y < Base -> 0 <= c <= 1 ->
    op x y c = ((x + sg * (y + c)) mod Base, sg * ((x + sg * (y + c)) / Base)).

Lemma UIntAdd_carries `{T : Target} : carries 1 UIntAdd.
Proof.
  split; [by left|]. intros x y c Hx Hy Hc. rewrite UIntAdd_eq //.
  by rewrite !Z.mul_1_l Z.add_assoc.
Qed.

Lemma UIntSub_carries `{T : Target} : carries (-1) UIntSub.
Proof.
  split; [by right|]. intros x y c Hx Hy Hc. rewrite UIntSub_eq //.
  replace (x + -1 * (y + c)) with (x - y - c) by lia. f_equal; lia.
Qed.

Lemma carries_spec `{T : Target} sg op x y c : carries sg op ->
  0 <= x < Base -> 0 <= y < Base -> 0 <= c <= 1 ->
  exists s c', op x y c = (s, c') /\ 0 <= s < Base /\ 0 <= c' <= 1 /\
    s + sg * (Base * c') = x + sg * y + sg * c.
Proof.
  intros [Hsg Hop] Hx Hy Hc. do 2 eexists. split; [by apply Hop|].
  pose proof Base_gt0 as HB.
  pose proof (Z.div_mod (x + sg * (y + c)) Base (Z.neq_sym _ _ (Z.lt_neq _ _ HB))).
  split; [by apply Z.mod_pos_bound|]. split; [apply carry_range; done || lia|].
  destruct Hsg; subst sg; lia.
Qed.

Section loops.
Context `{T : Target} `{!memGS Σ}.

(** Word [k] of the source [x] can be read while word [k] of the destination
    [z] still holds its old value. *)
Definition reads (R : iProp Σ) (z : option ptr) (zs : list Z) (x : option ptr) (xs : list Z) : Prop :=
  ∀ k v w Φ, xs !! k = Some v → zs !! k = Some w →
    R -∗ cell_opt z (Z.of_nat k) (DfracOwn 1) w -∗
    (R -∗ cell_opt z (Z.of_nat k) (DfracOwn 1) w -∗ Φ v) -∗
    wp (load x (Z.of_nat k)) Φ.

Lemma reads_apart R z zs x dq xs :
  (R ⊢ arr_opt x dq xs ∗ (arr_opt x dq xs -∗ R)) → reads R z zs x xs.
Proof.
  iIntros (HR k v w Φ Hv Hw) "HR Hc HΦ". iDestruct (HR with "HR") as "[Hx Hcl]".
  iApply (wp_load_opt with "Hx"); [lia|by rewrite Nat2Z.id|]. iIntros "Hx".
  iApply ("HΦ" with "[Hcl Hx] Hc"). by iApply "Hcl".
Qed.

Lemma reads_arr z zs x dq xs : reads (arr_opt x dq xs) z zs x xs.
Proof. apply (reads_apart _ _ _ _ dq). iIntros "$". auto. Qed.

Lemma reads_l z zs x dq xs R : reads (arr_opt x dq xs ∗ R) z zs x xs.
Proof. apply (reads_apart _ _ _ _ dq). iIntros "[$ $]". auto. Qed.

Lemma reads_r z zs x dq xs R : reads (R ∗ arr_opt x dq xs) z zs x xs.
Proof. apply (reads_apart _ _ _ _ dq). iIntros "[$ $]". auto. Qed.

Lemma reads_self R z zs : reads R z zs z zs.
Proof.
  iIntros (k v w Φ Hv Hw) "HR Hc HΦ". simplify_eq. iApply (wp_load_at with "Hc").
  iIntros "Hc". iApply ("HΦ" with "HR Hc").
Qed.

Lemma wp_vv_loop sg op R (z x y : option ptr) zs xs ys n Φ :
  carries sg op → n = Z.of_nat (length zs) →
  (length zs <= length xs)%nat → (length zs <= length ys)%nat → digits xs → digits ys →
  reads R z zs x xs → reads R z zs y ys →
  arr_opt z (DfracOwn 1) zs -∗ R -∗
  (∀ outs c, ⌜length outs = length zs ∧ digits outs ∧ 0 <= c <= 1 ∧
     (value outs + sg * (Bpow (length zs) * c) =
      value (take (length zs) xs) + sg * value (take (length zs) ys))%Z⌝ -∗
     arr_opt z (DfracOwn 1) outs -∗ R -∗ Φ c) -∗
  wp (for_up 0 n 0 (λ i c,
        let! xi := load x i in let! yi := load y i in
        let '(zi, c) := op xi yi c in store z i zi ;! ret c)) Φ.
Proof.
  iIntros (Hop -> Hlx Hly Hdx Hdy Hrx Hry) "Hz HR HΦ".
  iApply (wp_for_words (λ outs c, digits outs ∧ 0 <= c <= 1 ∧
     value outs + sg * (Bpow (length outs) * c) =
     value (take (length outs) xs) + sg * value (take (length outs) ys)) z zs R
    with "Hz HR"); [done| | |].
  { split; [constructor|]. split; [lia|]. rewrite /= !take_0 Bpow_0 /value. lia. }
  - iIntros (outs w c Hw (Hd & Hc & Hv)) "HR Hz". pose proof (lookup_lt_Some _ _ _ Hw).
    destruct (lookup_lt_is_Some_2 xs (length outs)) as [a Ha]; [lia|].
    destruct (lookup_lt_is_Some_2 ys (length outs)) as [b Hb]; [lia|].
    iApply wp_bind. iApply (Hrx with "HR Hz"); [done..|]. iIntros "HR Hz".
    iApply wp_bind. iApply (Hry with "HR Hz"); [done..|]. iIntros "HR Hz".
    destruct (carries_spec sg op a b c Hop) as (s & c' & -> & Hs & Hc' & Heq);
      [exact (digits_lookup _ _ _ Hdx Ha)|exact (digits_lookup _ _ _ Hdy Hb)|done|].
    iApply wp_bind. iApply (wp_store_at with "Hz"). iIntros "Hz". iApply wp_ret.
    iExists s. iFrame. iPureIntro. split; [by apply digits_snoc|]. split; [done|].
    rewrite length_app Nat.add_1_r (value_take_S xs _ a) // (value_take_S ys _ b) //.
    pose proof (vv_balance sg outs _ _ a b c s c' Hv Heq) as Hbal.
    by rewrite length_app Nat.add_1_r in Hbal.
  - iIntros (outs c Hlen (Hd & Hc & Hv)) "Hz HR". rewrite Hlen in Hv.
    iApply ("HΦ" with "[%] Hz HR"). done.
Qed.

(** The short loop of [addVW] and [subVW] *)
Lemma wp_vw_loop sg op R (z x : option ptr) zs xs n y Φ :
  carries sg op → n = Z.of_nat (length zs) → length zs = length xs → digits xs →
  0 <= y < Base → reads R z zs x xs →
  arr_opt z (DfracOwn 1) zs -∗ R -∗
  (arr_opt z (DfracOwn 1) (fst (vw_fun sg y 0 xs)) -∗ R -∗ Φ (snd (vw_fun sg y 0 xs))) -∗
  wp (let! (c, _) := for_up 0 n (y, 0) (λ i '(c, oc),
        let! xi := load x i in
        let '(zi, oc) := op xi c oc in store z i zi ;! ret (oc, oc)) in ret c) Φ.
Proof.
  iIntros (Hop -> Hlx Hdx Hy Hrx) "Hz HR HΦ". iApply wp_bind.
  iApply (wp_for_words (λ outs '(c, oc), 
     (outs, c) = vw_fun sg y 0 (take (length outs) xs) ∧
     oc = vw_oc 0 c (take (length outs) xs)) z zs R with "Hz HR"); [done| | |].
  { by rewrite take_0. }
  - iIntros (outs w [c oc] Hw [Hf Hoc]) "HR Hz". pose proof (lookup_lt_Some _ _ _ Hw).
    destruct (lookup_lt_is_Some_2 xs (length outs)) as [a Ha]; [lia|].
    iApply wp_bind. iApply (Hrx with "HR Hz"); [done..|]. iIntros "HR Hz".
    pose proof Hop as [Hsg Hopeq]. pose proof Base_pos.
    assert (0 <= c < Base ∧ 0 <= oc <= 1) as [Hc Hoc'].
    { rewrite Hoc. destruct (take (length outs) xs) as [|b bs] eqn:E; simpl.
      { simpl in Hf. simplify_eq. lia. }
      pose proof (vw_fun_range sg y 0 (b :: bs) Hsg) as Hr. rewrite -Hf -E in Hr.
      specialize (Hr ltac:(by apply digits_take) ltac:(lia) ltac:(lia) ltac:(lia)).
      rewrite E in Hr. specialize (Hr ltac:(done)). simpl in Hr. lia. }
    rewrite Hopeq //; [|exact (digits_lookup _ _ _ Hdx Ha)].
    iApply wp_bind. iApply (wp_store_at with "Hz"). iIntros "Hz". iApply wp_ret.
    iExists _. iFrame. iPureIntro. rewrite length_app Nat.add_1_r (take_S_r _ _ a) //.
    rewrite vw_fun_snoc -Hf /= Hoc. split; [done|]. by destruct (take _ xs).
  - iIntros (outs [c oc] Hlen [Hf _]) "Hz HR". iApply wp_ret.
    rewrite Hlen Hlx firstn_all in Hf. rewrite -Hf. by iApply ("HΦ" with "Hz").
Qed.

End loops.
