(* ===== verification/NatAdd.v ===== *)
(** * Addition: [cmake/bigint/src/natadd.c]

    [addVV] adds two digit vectors, [addVW] adds one word to a vector, [natAdd]
    combines them.  The sum is exact when [carry_safe] holds (file Carry); the
    theorems at the end say so, and that it is wrong otherwise. *)

From S2P Require Import Prelude Words Digits Carry Memory Logic NatCore Loops.
From iris.proofmode Require Import proofmode.
From iris.base_logic.lib Require Import own ghost_map.

Local Open Scope Z_scope.
Local Open Scope c_scope.

Section code.
Context `{T : Target}.

Definition addVV (z x y : nat_t) : M Z :=
  for_up 0 (Z.min (len z) (Z.min (len x) (len y))) 0 (fun i c =>
    let! xi := load (data x) i in
    let! yi := load (data y) i in
    let '(zi, c) := UIntAdd xi yi c in
    store (data z) i zi ;!
    ret c).

Definition addVWlarge (z x : nat_t) (y : Z) : M Z :=
  let! r := for_ret (Z.to_nat (Z.min (len z) (len x))) 0 (y, 0) (fun i '(c, oc) =>
    if c =? 0 then
      memcpy_words (ptr_add (data z) i) (ptr_add (data x) i) (len x) ;!
      ret (inr c)
    else
      let! xi := load (data x) i in
      let '(zi, oc) := UIntAdd xi c oc in
      store (data z) i zi ;!
      ret (inl (oc, oc))) in
  match r with
  | inl (c, _) => ret c
  | inr c => ret c
  end.

Definition addVW (z x : nat_t) (y : Z) : M Z :=
  if 32 <? len z then addVWlarge z x y
  else
    let! (c, oc) := for_up 0 (Z.min (len z) (len x)) (y, 0) (fun i '(c, oc) =>
      let! xi := load (data x) i in
      let '(zi, oc) := UIntAdd xi c oc in
      store (data z) i zi ;!
      ret (oc, oc)) in
    ret c.

(** [natAdd] calls itself once, with the operands swapped, when the first is
    the shorter; [natAdd_ge] is the rest of its body. *)
Definition natAdd_ge (x y : nat_t) : M nat_t :=
  let m := len x in
  let n := len y in
  if (m =? 0) || (n =? 0) then ret x
  else
    let! z := natNewLen (m + 1) in
    let! z1 := natPart z 0 n in
    let! c := addVV z1 x y in
    let! c :=
      (if n <? m then
         let! zz := natPart z n m in
         let! xx := natPart x n (len x) in
         addVW zz xx c
       else ret c) in
    natSetValue z m c ;!
    natNorm z.

Definition natAdd (x y : nat_t) : M nat_t :=
  if len x <? len y then natAdd_ge y x else natAdd_ge x y.

(** Whether [natAdd] adds [xs] and [ys] exactly *)
Definition add_safe (xs ys : list Z) : bool :=
  if Nat.ltb (length xs) (length ys) then carry_safe 1 ys xs else carry_safe 1 xs ys.

End code.

Section specs.
Context `{T : Target} `{!memGS Σ}.

Lemma wp_addVV R z x y zs xs ys Φ :
  len z = Z.of_nat (length zs) → len z <= len x → len z <= len y →
  (length zs <= length xs)%nat → (length zs <= length ys)%nat →
  digits xs → digits ys → reads R (data z) zs (data x) xs → reads R (data z) zs (data y) ys →
  arr_opt (data z) (DfracOwn 1) zs -∗ R -∗
  (∀ outs c, ⌜length outs = length zs ∧ digits outs ∧ 0 <= c <= 1 ∧
     (value outs + 1 * (Bpow (length zs) * c) =
      value (take (length zs) xs) + 1 * value (take (length zs) ys))%Z⌝ -∗
     arr_opt (data z) (DfracOwn 1) outs -∗ R -∗ Φ c) -∗
  wp (addVV z x y) Φ.
Proof.
  intros Hlz Hzx Hzy Hx Hy Hdx Hdy Hrx Hry.
  apply (wp_vv_loop 1 UIntAdd R (data z) (data x) (data y) zs xs ys); try done.
  { apply UIntAdd_carries. } lia.
Qed.

(** The long variant is only followed when there is nothing to add. *)
Lemma wp_addVW z x zs dq xs y Φ :
  len z = Z.of_nat (length zs) → length zs = length xs → digits xs → 0 <= y < Base →
  len z <= 32 ∨ y = 0 →
  arr_opt (data z) (DfracOwn 1) zs -∗ view x dq xs -∗
  (arr_opt (data z) (DfracOwn 1) (fst (vw_fun 1 y 0 xs)) -∗ view x dq xs -∗
   Φ (snd (vw_fun 1 y 0 xs))) -∗
  wp (addVW z x y) Φ.
Proof.
  iIntros (Hlz Hlen Hd Hy Hsmall) "Hz [%Hlx Hx] HΦ". rewrite /addVW.
  destruct (Z.ltb_spec 32 (len z)) as [Hlarge|_].
  - destruct Hsmall as [ | ->]; [lia|]. rewrite vw_fun_0 // /addVWlarge.
    iApply wp_bind. destruct (Z.to_nat _) as [|n] eqn:E; [lia|]. simpl.
    iApply wp_bind. iApply wp_bind. rewrite !ptr_add_0.
    iApply (wp_memcpy_opt _ _ _ zs [] with "[Hz] Hx"); [lia|lia|by rewrite app_nil_r|].
    iIntros "Hz Hx". iApply wp_ret. iApply wp_ret. iApply wp_ret.
    rewrite app_nil_r Hlen firstn_all. iApply ("HΦ" with "Hz"). by iFrame.
  - iApply (wp_vw_loop 1 UIntAdd (arr_opt (data x) dq xs) (data z) (data x) zs xs
      with "Hz Hx"); [apply UIntAdd_carries|lia|done|done|done|apply reads_arr|].
    iIntros "Hz Hx". iApply ("HΦ" with "Hz"). by iFrame.
Qed.

(** What [natAdd_ge] returns: low digits, high digits and the last carry *)
Lemma wp_natAdd_ge x y xs ys dq dq' Φ :
  digits xs → digits ys → (0 < length ys <= length xs)%nat →
  Z.of_nat (length xs - length ys) <= 32 ∨ low_carry 1 xs ys = 0 →
  view x dq xs -∗ view y dq' ys -∗
  (∀ z lo, ⌜length lo = length ys ∧ digits lo ∧ 0 <= low_carry 1 xs ys <= 1 ∧
      (value lo + 1 * (Bpow (length ys) * low_carry 1 xs ys) =
       value (take (length ys) xs) + 1 * value ys)%Z⌝ -∗
     owned z (strip (lo ++ fst (vw_fun 1 (low_carry 1 xs ys) 0 (drop (length ys) xs)) ++
                    [snd (vw_fun 1 (low_carry 1 xs ys) 0 (drop (length ys) xs))])) -∗
     view x dq xs -∗ view y dq' ys -∗ Φ z) -∗
  wp (natAdd_ge x y) Φ.
Proof.
  iIntros (Hdx Hdy Hlen Hsmall) "Hx Hy HΦ".
  iDestruct "Hx" as "[%Hlx Hx]". iDestruct "Hy" as "[%Hly Hy]". rewrite /natAdd_ge.
  rewrite (proj2 (Z.eqb_neq (len x) 0)); [|lia]. rewrite (proj2 (Z.eqb_neq (len y) 0)); [|lia].
  simpl. iApply wp_bind. iApply wp_natNewLen; [lia|]. iIntros (z [Hlz Hcz]) "Hz".
  set (n := length ys) in *. set (h := (length xs - n)%nat).
  assert (Z.to_nat (len x + 1) = n + (h + 1))%nat as Hn by lia.
  rewrite Hn 2!replicate_add. iDestruct (block_of_arr with "Hz") as "[Hz Hcl]".
  rewrite !arr_opt_app !length_replicate ptr_add_add. iDestruct "Hz" as "(Hlo & Hhi & Htop)".
  iApply wp_bind. iApply wp_natPart; [lia|]. iApply wp_bind.
  iApply (wp_addVV (arr_opt (data x) dq xs ∗ arr_opt (data y) dq' ys) _ x y
            (replicate n 0) xs ys with "[Hlo] [$Hx $Hy]"); rewrite ?length_replicate /=; try done; try lia.
  { apply reads_l. } { apply reads_r. }
  { by rewrite ptr_add_0. }
  iIntros (lo c (Hllo & Hdlo & Hc & Hv)) "Hlo [Hx Hy]".
  rewrite (take_ge ys) // ptr_add_0 in Hv *.
  pose proof (low_carry_eq 1 xs ys lo c ltac:(by left) Hdlo Hllo Hv) as Hlow.
  rewrite Hlow in Hsmall *.
  set (r := vw_fun 1 c 0 (drop n xs)).
  iApply wp_bind.
  iAssert (wp (if len y <? len x then
         let! zz := natPart z (len y) (len x) in
         let! xx := natPart x (len y) (len x) in
         addVW zz xx c else ret c) (λ c',
       ⌜c' = snd r⌝ ∗ arr_opt (ptr_add (data z) n) (DfracOwn 1) (fst r) ∗
       arr_opt (data x) dq xs))%I with "[Hhi Hx]" as "Hw".
  { case_if.
    - iApply wp_bind. iApply wp_natPart; [lia|]. iApply wp_bind. iApply wp_natPart; [lia|].
      iDestruct (arr_opt_take_drop (data x) dq n xs with "Hx") as "[Hx1 Hx2]"; [lia|].
      rewrite Hly. pose proof Base_pos.
      iApply (wp_addVW (slice z (Z.of_nat n) (len x)) (slice x (Z.of_nat n) (len x)) (replicate h 0) dq (drop n xs) with "Hhi [Hx2]");
        rewrite ?length_replicate ?length_drop /=; try lia; [by apply digits_drop|..].
      { iSplit; [|done]. iPureIntro. rewrite length_drop /=. lia. }
      iIntros "Hz [_ Hx2]". iFrame. iSplit; [done|].
      iApply (arr_opt_take_drop (data x) dq n xs); [lia|]. iFrame.
    - assert (h = 0%nat) as Hh by lia. iApply wp_ret. rewrite /r drop_ge; [|lia]. simpl.
      iFrame. iSplit; [done|]. rewrite Hh. done. }
  iApply (wp_wand with "Hw"). iIntros (c') "(-> & Hhi & Hx)".
  iApply wp_bind. iApply wp_bind.
  iApply wp_assert; [rewrite andb_true_iff Z.leb_le Z.ltb_lt; lia|].
  assert (length (fst r) = h) as Hlr by (rewrite vw_fun_length length_drop; done).
  iAssert (arr_opt (data z) (DfracOwn 1) (lo ++ fst r ++ [0])) with "[Hlo Hhi Htop]" as "Hz".
  { rewrite !arr_opt_app ptr_add_add Hllo Hlr. iFrame. }
  iApply (wp_store_opt with "Hz"); [rewrite !length_app Hllo Hlr /=; lia|]. iIntros "Hz".
  assert (<[Z.to_nat (len x):=snd r]> (lo ++ fst r ++ [0]) = lo ++ fst r ++ [snd r]) as Hins.
  { rewrite insert_app_r_alt; [|lia]. rewrite insert_app_r_alt; [|lia].
    by replace (Z.to_nat (len x) - length lo - length (fst r))%nat with 0%nat by lia. }
  rewrite Hins. iDestruct ("Hcl" $! (lo ++ fst r ++ [snd r]) with "[%] Hz") as "Hz".
  { rewrite !length_app !length_replicate Hllo Hlr. done. }
  iApply (wp_natNorm_owned z (lo ++ fst r ++ [snd r]) with "[Hz]").
  { iApply owned_whole; [rewrite !length_app Hllo Hlr /=; lia|lia|done]. }
  iIntros (z') "Hz _". iApply ("HΦ" with "[%] Hz [$Hx] [$Hy]"); done.
Qed.

(** The digits [natAdd_ge] assembles, and when their value is the sum *)
Lemma natAdd_final xs ys lo : digits xs → digits ys → (length ys <= length xs)%nat →
  (length xs - length ys <= 32)%nat ∨ carry_safe 1 xs ys = true →
  length lo = length ys → digits lo → 0 <= low_carry 1 xs ys <= 1 →
  (value lo + 1 * (Bpow (length ys) * low_carry 1 xs ys) =
   value (take (length ys) xs) + 1 * value ys)%Z →
  let r := vw_fun 1 (low_carry 1 xs ys) 0 (drop (length ys) xs) in
  let zs := strip (lo ++ fst r ++ [snd r]) in
  digits zs ∧ ((value zs = value xs + value ys)%Z ↔ carry_safe 1 xs ys = true).
Proof.
  intros Hdx Hdy Hlen Hs Hlo Hdlo Hc Hv r zs.
  pose proof (vw_value 1 _ (length ys) xs _ lo ltac:(by left) Hdx Hc Hlen Hlo Hv) as Hval.
  fold r in Hval. assert (length (fst r) = length xs - length ys)%nat as Hlr.
  { rewrite vw_fun_length length_drop. done. }
  split.
  - apply strip_digits. rewrite !digits_app. split; [done|]. split; [apply vw_fun_digits|].
    apply digits_cons. split; [|constructor]. pose proof Base_pos.
    destruct (decide (drop (length ys) xs = [])) as [Hd|Hd]; [rewrite /r Hd /=; lia|].
    assert (0 <= snd r <= 1); [|lia].
    apply vw_fun_range; [by left|by apply digits_drop|lia..|done].
  - rewrite strip_value (assoc_L app) value_snoc length_app Hlo Hlr.
    replace (length ys + (length xs - length ys))%nat with (length xs) by lia.
    assert (∀ a b c d : Z, (a + b)%Z = (c + d)%Z ↔ (a + 1 * b)%Z = (c + 1 * d)%Z) as -> by (split; lia).
    rewrite Hval. split; intros H; [|by apply (carry_safe_cases 1)].
    destruct Hs as [Hs|]; [|done]. by apply carry_safe_exact.
Qed.

(** The sum of two non-empty slices is a new array. *)
Lemma wp_natAdd_ge_owned x y xs ys dq dq' Φ :
  (0 < length ys <= length xs)%nat → digits xs → digits ys →
  (length xs - length ys <= 32)%nat ∨ carry_safe 1 xs ys = true →
  view x dq xs -∗ view y dq' ys -∗
  (∀ z zs, ⌜digits zs ∧ normalized zs ∧
     ((value zs = value xs + value ys)%Z ↔ carry_safe 1 xs ys = true)⌝ -∗
     owned z zs -∗ view x dq xs -∗ view y dq' ys -∗ Φ z) -∗ wp (natAdd_ge x y) Φ.
Proof.
  iIntros (Hlen Hdx Hdy Hs) "Hx Hy HΦ".
  iApply (wp_natAdd_ge x y xs ys dq dq' with "Hx Hy"); [done..| |].
  { destruct Hs as [|Hs]; [left; lia|]. destruct (carry_safe_small _ _ _ Hs); [left; lia|by right]. }
  iIntros (z lo (Hlo & Hdlo & Hc & Hv)) "Hz Hx Hy".
  destruct (natAdd_final xs ys lo) as [Hd Hval]; try done; [lia|].
  iApply ("HΦ" with "[%] Hz Hx Hy"). split; [done|]. split; [apply strip_normalized|done].
Qed.

Lemma wp_natAdd_owned x y xs ys dq dq' Φ :
  xs ≠ [] → ys ≠ [] → digits xs → digits ys →
  Z.abs (Z.of_nat (length xs) - Z.of_nat (length ys)) <= 32 ∨ add_safe xs ys = true →
  view x dq xs -∗ view y dq' ys -∗
  (∀ z zs, ⌜digits zs ∧ normalized zs ∧
      ((value zs = value xs + value ys)%Z ↔ add_safe xs ys = true)⌝ -∗
     owned z zs -∗ view x dq xs -∗ view y dq' ys -∗ Φ z) -∗
  wp (natAdd x y) Φ.
Proof.
  iIntros (Hnx Hny Hdx Hdy Hs) "Hx Hy HΦ". rewrite /natAdd /add_safe in Hs *.
  iAssert ⌜len x = Z.of_nat (length xs) ∧ len y = Z.of_nat (length ys)⌝%I as %[Hlx Hly].
  { iDestruct "Hx" as "[% _]". by iDestruct "Hy" as "[% _]". }
  assert (0 < length xs ∧ 0 < length ys)%nat as [Hpx Hpy].
  { destruct xs, ys; simpl; done || lia. }
  rewrite Hlx Hly. destruct (Nat.ltb_spec (length xs) (length ys)) as [Hlt|Hle].
  - rewrite (proj2 (Z.ltb_lt _ _)); [|lia].
    iApply (wp_natAdd_ge_owned y x ys xs with "Hy Hx"); [lia|done|done|destruct Hs; [left; lia|by right]|].
    iIntros (z zs (? & ? & Hv)) "Hz Hy Hx". iApply ("HΦ" with "[%] Hz Hx Hy").
    split; [done|]. split; [done|]. by rewrite (Z.add_comm (value xs)).
  - rewrite (proj2 (Z.ltb_ge _ _)); [|lia].
    iApply (wp_natAdd_ge_owned x y xs ys with "Hx Hy"); [lia|done|done|destruct Hs; [left; lia|by right]|].
    iIntros (z zs (? & ? & Hv)) "Hz Hx Hy". by iApply ("HΦ" with "[%] Hz Hx Hy").
Qed.

(** In general: the sum of an empty slice is the other operand. *)
Lemma wp_natAdd x y xs ys Φ :
  digits xs → digits ys →
  (Z.abs (Z.of_nat (length xs) - Z.of_nat (length ys)) <= 32 ∨ add_safe xs ys = true) →
  view x DfracDiscarded xs -∗ view y DfracDiscarded ys -∗
  (∀ z zs, ⌜digits zs ∧ (normalized xs → normalized ys → normalized zs) ∧
      ((value zs = value xs + value ys)%Z ↔ xs = [] ∨ ys = [] ∨ add_safe xs ys = true)⌝ -∗
     view z DfracDiscarded zs -∗ Φ z) -∗
  wp (natAdd x y) Φ.
Proof.
  iIntros (Hdx Hdy Hs) "#Hx #Hy HΦ".
  iAssert ⌜len x = Z.of_nat (length xs) ∧ len y = Z.of_nat (length ys)⌝%I as %[Hlx Hly].
  { iDestruct "Hx" as "[% _]". by iDestruct "Hy" as "[% _]". }
  destruct (decide (xs = [])) as [->|Hnx]; [|destruct (decide (ys = [])) as [->|Hny]].
  - rewrite /natAdd /natAdd_ge Hlx /= orb_true_r. case_if.
    + iApply wp_ret. iApply ("HΦ" with "[%] Hy"). rewrite value_nil. split; [done|]. split; [done|]. split; auto.
    + iApply wp_ret. iApply ("HΦ" $! x [] with "[%] Hx"). destruct ys; [|simpl in *; lia].
      split; [done|]. split; [done|]. split; auto.
  - rewrite /natAdd /natAdd_ge Hlx Hly /= orb_true_r. rewrite (proj2 (Z.ltb_ge _ _)); [|lia].
    iApply wp_ret. iApply ("HΦ" with "[%] Hx"). rewrite value_nil Z.add_0_r.
    split; [done|]. split; [done|]. split; auto.
  - iApply wp_post. iApply (wp_natAdd_owned with "Hx Hy"); [done..|].
    iIntros (z zs (Hd & Hn & Hv)) "Hz _ _". iMod (owned_ro with "Hz") as "Hz". iModIntro.
    iApply ("HΦ" with "[%] Hz"). rewrite Hv. split; [done|]. split; [done|]. tauto.
Qed.
End specs.

(** ** Properties *)

(** [natAdd] returns a slice whose value is exactly the sum of its operands,
    and leaves every live word and struct as it was, whenever the carry does
    not run past the first high digit of the longer operand ([add_safe]). *)
Theorem natAdd_correct `{T : Target} (m : mem) (x y : nat_t) (xs ys : list Z) :
  mem_wf m -> mem_room m -> holds m x xs -> holds m y ys -> digits xs -> digits ys ->
  add_safe xs ys = true ->
  exists z m' zs, natAdd x y m = OK (z, m') /\ holds m' z zs /\ digits zs /\
    value zs = value xs + value ys /\ (normalized xs -> normalized ys -> normalized zs) /\
    mem_extends m m'.
Proof.
  intros Hwf Hroom Hx Hy Hdx Hdy Hs.
  destruct (ro_adequacy m (natAdd x y) (λ z m', ∃ zs, holds m' z zs ∧ digits zs ∧
    (value zs = value xs + value ys)%Z ∧ (normalized xs → normalized ys → normalized zs)))
    as (z & m' & Hrun & (zs & ? & ? & ? & ?) & Hext); [done..| |by exists z, m', zs].
  iIntros (Σ HG) "#Hro". iApply (wp_natAdd x y xs ys); [done|done|by right| | |].
  { by iApply mem_ro_view. } { by iApply mem_ro_view. }
  iIntros (z zs (Hd & Hn & Hv)) "Hz". iIntros (m') "Hm".
  iDestruct (interp_view with "Hm Hz") as %Hz. iPureIntro. exists zs. naive_solver.
Qed.

Lemma natAdd_correct_witness :
  let m := mem_of [[2 ^ 64 - 1; 7; 5]; [1]] in
  exists z m' zs, natAdd (T := target64) (whole 1 3) (whole 2 1) m = OK (z, m') /\
    holds m' z zs /\ digits (T := target64) zs /\
    value (T := target64) zs = value (T := target64) [2 ^ 64 - 1; 7; 5] + value (T := target64) [1] /\
    (normalized [2 ^ 64 - 1; 7; 5] -> normalized [1] -> normalized zs) /\
    mem_extends m m'.
Proof.
  intros m. apply (natAdd_correct (T := target64)).
  - by apply mem_wfb_wf; vm_compute.
  - by intros b.
  - by apply holdsb_holds; vm_compute.
  - by apply holdsb_holds; vm_compute.
  - repeat constructor; by vm_compute.
  - repeat constructor; by vm_compute.
  - by vm_compute.
Defined.



(** The two defects on concrete operands.  Adding 1 to a number whose two
    low words are all ones gives a result that is one word too large; adding
    with more than 32 high words and a carry that stops later than at once
    copies past the end of the operand. *)
Theorem natAdd_defects :
  (let m := mem_of [[2 ^ 64 - 1; 2 ^ 64 - 1; 5]; [1]] in
   exists z m', natAdd (T := target64) (whole 1 3) (whole 2 1) m = OK (z, m') /\
     holds m' z [0; 0; 7]) /\
  (let m := mem_of [2 ^ 64 - 1 :: replicate 40 3; [1]] in
   natAdd (T := target64) (whole 1 41) (whole 2 1) m = Er OutOfBounds).
Proof.
  split; intros m.
  - do 2 eexists. split; [by vm_compute|]. by apply holdsb_holds; vm_compute.
  - by vm_compute.
Qed.
