(* ===== verification/NatSub.v ===== *)
(** * Subtraction: [cmake/bigint/src/natsub.c]

    [subVV] and [subVW] mirror [addVV] and [addVW]; [natSub] asserts that no
    borrow is left at the end.  As for addition, the difference is exact when
    [carry_safe] holds; a negative difference ends in the assertion. *)

From S2P Require Import Prelude Words Digits Carry Memory Logic NatCore Loops.
From iris.proofmode Require Import proofmode.
From iris.base_logic.lib Require Import own ghost_map.

Local Open Scope Z_scope.
Local Open Scope c_scope.

Section code.
Context `{T : Target}.

Definition subVV (z x y : nat_t) : M Z :=
  for_up 0 (Z.min (len z) (Z.min (len x) (len y))) 0 (fun i c =>
    let! xi := load (data x) i in
    let! yi := load (data y) i in
    let '(zi, c) := UIntSub xi yi c in
    store (data z) i zi ;!
    ret c).

Definition subVWlarge (z x : nat_t) (y : Z) : M Z :=
  let! r := for_ret (Z.to_nat (Z.min (len z) (len x))) 0 (y, 0) (fun i '(c, oc) =>
    if c =? 0 then
      memcpy_words (ptr_add (data z) i) (ptr_add (data x) i) (len x) ;!
      ret (inr c)
    else
      let! xi := load (data x) i in
      let '(zi, oc) := UIntSub xi c oc in
      store (data z) i zi ;!
      ret (inl (oc, oc))) in
  match r with
  | inl (c, _) => ret c
  | inr c => ret c
  end.

Definition subVW (z x : nat_t) (y : Z) : M Z :=
  if 32 <? len z then subVWlarge z x y
  else
    let! (c, oc) := for_up 0 (Z.min (len z) (len x)) (y, 0) (fun i '(c, oc) =>
      let! xi := load (data x) i in
      let '(zi, oc) := UIntSub xi c oc in
      store (data z) i zi ;!
      ret (oc, oc)) in
    ret c.

(** [natSub] up to its last assertion: the difference and the borrow *)
Definition natSub_diff (x y : nat_t) : M (nat_t * Z) :=
  let m := len x in
  let n := len y in
  let! z := natNewLen m in
  let! z1 := natPart z 0 n in
  let! c := subVV z1 x y in
  let! c :=
    (if n <? m then
       let! zz := natPart z n (len z) in
       let! xx := natPart x n (len x) in
       subVW zz xx c
     else ret c) in
  ret (z, c).

Definition natSub (x y : nat_t) : M nat_t :=
  let m := len x in
  let n := len y in
  assert_ (n <=? m) ;!
  if (m =? 0) || (n =? 0) then ret x
  else
    let! (z, c) := natSub_diff x y in
    assert_ (c =? 0) ;!
    natNorm z.

End code.

Section specs.
Context `{T : Target} `{!memGS Σ}.

Lemma wp_subVV R z x y zs xs ys Φ :
  len z = Z.of_nat (length zs) → len z <= len x → len z <= len y →
  (length zs <= length xs)%nat → (length zs <= length ys)%nat →
  digits xs → digits ys → reads R (data z) zs (data x) xs → reads R (data z) zs (data y) ys →
  arr_opt (data z) (DfracOwn 1) zs -∗ R -∗
  (∀ outs c, ⌜length outs = length zs ∧ digits outs ∧ 0 <= c <= 1 ∧
     (value outs + -1 * (Bpow (length zs) * c) =
      value (take (length zs) xs) + -1 * value (take (length zs) ys))%Z⌝ -∗
     arr_opt (data z) (DfracOwn 1) outs -∗ R -∗ Φ c) -∗
  wp (subVV z x y) Φ.
Proof.
  intros Hlz Hzx Hzy Hx Hy Hdx Hdy Hrx Hry.
  apply (wp_vv_loop (-1) UIntSub R (data z) (data x) (data y) zs xs ys); try done.
  { apply UIntSub_carries. } lia.
Qed.

(** The long variant is only followed when there is nothing to add. *)
Lemma wp_subVW z x zs dq xs y Φ :
  len z = Z.of_nat (length zs) → length zs = length xs → digits xs → 0 <= y < Base →
  len z <= 32 ∨ y = 0 →
  arr_opt (data z) (DfracOwn 1) zs -∗ view x dq xs -∗
  (arr_opt (data z) (DfracOwn 1) (fst (vw_fun (-1) y 0 xs)) -∗ view x dq xs -∗
   Φ (snd (vw_fun (-1) y 0 xs))) -∗
  wp (subVW z x y) Φ.
Proof.
  iIntros (Hlz Hlen Hd Hy Hsmall) "Hz [%Hlx Hx] HΦ". rewrite /subVW.
  destruct (Z.ltb_spec 32 (len z)) as [Hlarge|_].
  - destruct Hsmall as [ | ->]; [lia|]. rewrite vw_fun_0 // /subVWlarge.
    iApply wp_bind. destruct (Z.to_nat _) as [|n] eqn:E; [lia|]. simpl.
    iApply wp_bind. iApply wp_bind. rewrite !ptr_add_0.
    iApply (wp_memcpy_opt _ _ _ zs [] with "[Hz] Hx"); [lia|lia|by rewrite app_nil_r|].
    iIntros "Hz Hx". iApply wp_ret. iApply wp_ret. iApply wp_ret.
    rewrite app_nil_r Hlen firstn_all. iApply ("HΦ" with "Hz"). by iFrame.
  - iApply (wp_vw_loop (-1) UIntSub (arr_opt (data x) dq xs) (data z) (data x) zs xs
      with "Hz Hx"); [apply UIntSub_carries|lia|done|done|done|apply reads_arr|].
    iIntros "Hz Hx". iApply ("HΦ" with "Hz"). by iFrame.
Qed.

Lemma wp_natSub_diff x y xs ys dq dq' Φ :
  digits xs → digits ys → (0 < length ys <= length xs)%nat →
  Z.of_nat (length xs - length ys) <= 32 ∨ low_carry (-1) xs ys = 0 →
  view x dq xs -∗ view y dq' ys -∗
  (∀ z lo, ⌜length lo = length ys ∧ digits lo ∧ 0 <= low_carry (-1) xs ys <= 1 ∧
      (value lo + -1 * (Bpow (length ys) * low_carry (-1) xs ys) =
       value (take (length ys) xs) + -1 * value ys)%Z⌝ -∗
     owned z (lo ++ fst (vw_fun (-1) (low_carry (-1) xs ys) 0 (drop (length ys) xs))) -∗
     view x dq xs -∗ view y dq' ys -∗
     Φ (z, snd (vw_fun (-1) (low_carry (-1) xs ys) 0 (drop (length ys) xs)))) -∗
  wp (natSub_diff x y) Φ.
Proof.
  iIntros (Hdx Hdy Hlen Hsmall) "Hx Hy HΦ".
  iDestruct "Hx" as "[%Hlx Hx]". iDestruct "Hy" as "[%Hly Hy]". rewrite /natSub_diff.
  iApply wp_bind. iApply wp_natNewLen; [lia|]. iIntros (z [Hlz Hcz]) "Hz".
  set (n := length ys) in *. set (h := (length xs - n)%nat).
  assert (Z.to_nat (len x) = n + h)%nat as Hn by lia.
  rewrite Hn replicate_add. iDestruct (block_of_arr with "Hz") as "[Hz Hcl]".
  rewrite !arr_opt_app !length_replicate. iDestruct "Hz" as "[Hlo Hhi]".
  iApply wp_bind. iApply wp_natPart; [lia|]. iApply wp_bind.
  iApply (wp_subVV (arr_opt (data x) dq xs ∗ arr_opt (data y) dq' ys) _ x y
            (replicate n 0) xs ys with "[Hlo] [$Hx $Hy]"); rewrite ?length_replicate /=; try done; try lia.
  { apply reads_l. } { apply reads_r. } { by rewrite ptr_add_0. }
  iIntros (lo c (Hllo & Hdlo & Hc & Hv)) "Hlo [Hx Hy]".
  rewrite (take_ge ys) // ptr_add_0 in Hv *.
  pose proof (low_carry_eq (-1) xs ys lo c ltac:(by right) Hdlo Hllo Hv) as Hlow.
  rewrite Hlow in Hsmall *.
  set (r := vw_fun (-1) c 0 (drop n xs)).
  assert (length (fst r) = h) as Hlr by (rewrite vw_fun_length length_drop; done).
  iApply wp_bind.
  iAssert (wp (if len y <? len x then
         let! zz := natPart z (len y) (len z) in
         let! xx := natPart x (len y) (len x) in
         subVW zz xx c else ret c) (λ c',
       ⌜c' = snd r⌝ ∗ arr_opt (ptr_add (data z) n) (DfracOwn 1) (fst r) ∗
       arr_opt (data x) dq xs))%I with "[Hhi Hx]" as "Hw".
  { case_if.
    - iApply wp_bind. iApply wp_natPart; [lia|]. iApply wp_bind. iApply wp_natPart; [lia|].
      iDestruct (arr_opt_take_drop (data x) dq n xs with "Hx") as "[Hx1 Hx2]"; [lia|].
      rewrite Hly. pose proof Base_pos.
      iApply (wp_subVW (slice z (Z.of_nat n) (len z)) (slice x (Z.of_nat n) (len x)) (replicate h 0) dq (drop n xs) with "Hhi [Hx2]");
        rewrite ?length_replicate ?length_drop /=; try lia; [by apply digits_drop|..].
      { iSplit; [|done]. iPureIntro. rewrite length_drop /=. lia. }
      iIntros "Hz [_ Hx2]". iFrame. iSplit; [done|].
      iApply (arr_opt_take_drop (data x) dq n xs); [lia|]. iFrame.
    - assert (h = 0%nat) as Hh by lia. iApply wp_ret. rewrite /r drop_ge; [|lia]. simpl.
      iFrame. iSplit; [done|]. rewrite Hh. done. }
  iApply (wp_wand with "Hw"). iIntros (c') "(-> & Hhi & Hx)". iApply wp_ret.
  iDestruct ("Hcl" $! (lo ++ fst r) with "[%] [Hlo Hhi]") as "Hz".
  { rewrite !length_app !length_replicate Hllo Hlr. done. }
  { rewrite arr_opt_app Hllo. iFrame. }
  iApply ("HΦ" with "[%] [Hz] [$Hx] [$Hy]"); [done| |done|done].
  iApply owned_whole; [rewrite !length_app Hllo Hlr /=; lia|lia|done].
Qed.

(** When the difference is exact, the borrow tells whether it is negative. *)
Lemma natSub_final xs ys lo : digits xs → digits ys → (length ys <= length xs)%nat →
  carry_safe (-1) xs ys = true →
  length lo = length ys → digits lo → 0 <= low_carry (-1) xs ys <= 1 →
  (value lo + -1 * (Bpow (length ys) * low_carry (-1) xs ys) =
   value (take (length ys) xs) + -1 * value ys)%Z →
  let r := vw_fun (-1) (low_carry (-1) xs ys) 0 (drop (length ys) xs) in
  digits (lo ++ fst r) ∧ snd r = (if value xs <? value ys then 1 else 0) ∧
  (value ys <= value xs → value (lo ++ fst r) = value xs - value ys).
Proof.
  intros Hdx Hdy Hlen Hs Hllo Hdlo Hc Hv r.
  pose proof (vw_value (-1) _ (length ys) xs _ lo ltac:(by right) Hdx Hc Hlen Hllo Hv) as Hval.
  fold r in Hval. apply proj2 in Hval. specialize (Hval (carry_safe_cases _ _ _ Hs)).
  assert (digits (lo ++ fst r)) as Hd by (apply digits_app; split; [done|apply vw_fun_digits]).
  pose proof (value_bound _ Hd) as Hb.
  rewrite length_app vw_fun_length length_drop Hllo -Nat.le_add_sub // in Hb.
  assert (0 <= snd r <= 1) as Hr.
  { destruct (decide (drop (length ys) xs = [])) as [He|He]; [by rewrite /r He|].
    pose proof Base_pos. apply vw_fun_range; [by right|by apply digits_drop|lia..|done]. }
  pose proof (value_bound _ Hdx). pose proof (value_bound _ Hdy).
  split; [done|].
  assert (snd r = 0 ∨ snd r = 1) as [E|E] by lia; rewrite E in Hval *;
    destruct (Z.ltb_spec (value xs) (value ys)); split; lia.
Qed.

(** The difference with a non-empty slice is a new array. *)
Lemma wp_natSub_owned x y xs ys dq dq' Φ :
  digits xs → digits ys → (0 < length ys <= length xs)%nat → carry_safe (-1) xs ys = true →
  value ys <= value xs →
  view x dq xs -∗ view y dq' ys -∗
  (∀ z zs, ⌜digits zs ∧ normalized zs ∧ (value zs = value xs - value ys)%Z⌝ -∗
     owned z zs -∗ view x dq xs -∗ view y dq' ys -∗ Φ z) -∗
  wp (natSub x y) Φ.
Proof.
  iIntros (Hdx Hdy Hlen Hs Hle) "Hx Hy HΦ". rewrite /natSub.
  iAssert ⌜len x = Z.of_nat (length xs) ∧ len y = Z.of_nat (length ys)⌝%I as %[Hlx Hly].
  { iDestruct "Hx" as "[% _]". by iDestruct "Hy" as "[% _]". }
  iApply wp_bind. iApply wp_assert; [apply Z.leb_le; lia|].
  rewrite (proj2 (Z.eqb_neq (len x) 0)); [|lia]. rewrite (proj2 (Z.eqb_neq (len y) 0)); [|lia].
  simpl. iApply wp_bind.
  iApply (wp_natSub_diff x y xs ys dq dq' with "Hx Hy"); try done.
  { destruct (carry_safe_small (-1) xs ys Hs); [left; lia|by right]. }
  iIntros (z lo (Hlo & Hdlo & Hc & Hv)) "Hz Hx Hy".
  destruct (natSub_final xs ys lo) as (Hd & Hb & Hval); try done; [lia|].
  iApply wp_bind. iApply wp_assert.
  { rewrite Hb (proj2 (Z.ltb_ge _ _)) //. }
  iApply (wp_natNorm_owned with "Hz"). iIntros (z') "Hz _".
  iApply ("HΦ" with "[%] Hz Hx Hy").
  split; [by apply strip_digits|]. split; [apply strip_normalized|].
  rewrite strip_value. auto.
Qed.

Lemma wp_natSub x y xs ys Φ :
  digits xs → digits ys → (length ys <= length xs)%nat → carry_safe (-1) xs ys = true →
  value ys <= value xs →
  view x DfracDiscarded xs -∗ view y DfracDiscarded ys -∗
  (∀ z zs, ⌜digits zs ∧ (normalized xs → normalized zs) ∧
      (value zs = value xs - value ys)%Z⌝ -∗
     view z DfracDiscarded zs -∗ Φ z) -∗
  wp (natSub x y) Φ.
Proof.
  iIntros (Hdx Hdy Hlen Hs Hle) "#Hx #Hy HΦ".
  destruct (decide (ys = [])) as [->|Hne].
  - iAssert ⌜len x = Z.of_nat (length xs) ∧ len y = 0⌝%I as %[Hlx Hly].
    { iDestruct "Hx" as "[% _]". by iDestruct "Hy" as "[% _]". }
    rewrite /natSub Hly. iApply wp_bind. iApply wp_assert; [apply Z.leb_le; lia|].
    rewrite orb_true_r. iApply wp_ret. iApply ("HΦ" with "[%] Hx").
    split; [done|]. split; [done|]. by rewrite value_nil Z.sub_0_r.
  - iApply wp_post. iApply (wp_natSub_owned with "Hx Hy"); try done.
    { destruct ys; [done|simpl in *; lia]. }
    iIntros (z zs (Hd & Hn & Hv)) "Hz _ _". iMod (owned_ro with "Hz") as "Hz". iModIntro.
    by iApply ("HΦ" with "[%] Hz").
Qed.

Lemma wpe_natSub x y xs ys :
  digits xs → digits ys → (length ys <= length xs)%nat → carry_safe (-1) xs ys = true →
  value xs < value ys →
  view x DfracDiscarded xs -∗ view y DfracDiscarded ys -∗ wpe (natSub x y) AssertFail.
Proof.
  iIntros (Hdx Hdy Hlen Hs Hlt) "#Hx #Hy". rewrite /natSub.
  iAssert ⌜len x = Z.of_nat (length xs) ∧ len y = Z.of_nat (length ys)⌝%I as %[Hlx Hly].
  { iDestruct "Hx" as "[% _]". by iDestruct "Hy" as "[% _]". }
  iApply wpe_bind. iApply wp_assert; [apply Z.leb_le; lia|].
  assert (0 < length ys)%nat as Hpos.
  { destruct ys; [|simpl; lia]. pose proof (value_nonneg xs Hdx). unfold value in Hlt at 2. lia. }
  rewrite (proj2 (Z.eqb_neq (len x) 0)); [|lia]. rewrite (proj2 (Z.eqb_neq (len y) 0)); [|lia].
  simpl. iApply wpe_bind.
  iApply (wp_natSub_diff x y xs ys DfracDiscarded DfracDiscarded with "Hx Hy"); try done.
  { destruct (carry_safe_small (-1) xs ys Hs); [left; lia|by right]. }
  iIntros (z lo (Hlo & Hdlo & Hc & Hv)) "Hz _ _".
  destruct (natSub_final xs ys lo) as (_ & Hb & _); try done.
  iApply wpe_bind_l. iApply wpe_assert. rewrite Hb (proj2 (Z.ltb_lt _ _)) //.
Qed.

End specs.

(** ** Properties *)

(** For a first operand with at least as many digits as the second, and a
    borrow that does not run past the first high digit, [natSub] returns the
    difference when it is not negative and stops in its assertion otherwise. *)
Theorem natSub_correct `{T : Target} (m : mem) (x y : nat_t) (xs ys : list Z) :
  mem_wf m -> mem_room m -> holds m x xs -> holds m y ys -> digits xs -> digits ys ->
  (length ys <= length xs)%nat -> carry_safe (-1) xs ys = true ->
  if value ys <=? value xs then
    exists z m' zs, natSub x y m = OK (z, m') /\ holds m' z zs /\ digits zs /\
      value zs = value xs - value ys /\ (normalized xs -> normalized zs) /\ mem_extends m m'
  else natSub x y m = Er AssertFail.
Proof.
  intros Hwf Hroom Hx Hy Hdx Hdy Hlen Hs. destruct (Z.leb_spec (value ys) (value xs)) as [Hle|Hlt].
  - destruct (ro_adequacy m (natSub x y) (λ z m', ∃ zs, holds m' z zs ∧ digits zs ∧
      (value zs = value xs - value ys)%Z ∧ (normalized xs → normalized zs)))
      as (z & m' & Hrun & (zs & ? & ? & ? & ?) & Hext); [done..| |by exists z, m', zs].
    iIntros (Σ HG) "#Hro".
    iApply (wp_natSub x y xs ys); [done..|by iApply mem_ro_view|by iApply mem_ro_view|].
    iIntros (z zs (Hd & Hn & Hv)) "Hz". iIntros (m') "Hm".
    iDestruct (interp_view with "Hm Hz") as %Hz. iPureIntro. exists zs. naive_solver.
  - apply ro_adequacy_err; [done..|]. iIntros (Σ HG) "#Hro".
    iApply (wpe_natSub x y xs ys); [done..|by iApply mem_ro_view|by iApply mem_ro_view].
Qed.

Lemma natSub_correct_witness :
  let m := mem_of [[3; 7]; [5; 1]] in
  if value (T := target64) [5; 1] <=? value (T := target64) [3; 7] then
    exists z m' zs, natSub (T := target64) (whole 1 2) (whole 2 2) m = OK (z, m') /\
      holds m' z zs /\ digits (T := target64) zs /\
      value (T := target64) zs = value (T := target64) [3; 7] - value (T := target64) [5; 1] /\
      (normalized [3; 7] -> normalized zs) /\ mem_extends m m'
  else natSub (T := target64) (whole 1 2) (whole 2 2) m = Er AssertFail.
Proof.
  intros m. apply (natSub_correct (T := target64)).
  - by apply mem_wfb_wf; vm_compute.
  - by intros b.
  - by apply holdsb_holds; vm_compute.
  - by apply holdsb_holds; vm_compute.
  - repeat constructor; by vm_compute.
  - repeat constructor; by vm_compute.
  - simpl; lia.
  - by vm_compute.
Defined.

(** The same two defects as in addition: a borrow that travels past the
    first high digit is subtracted twice, and the copy of the long variant
    runs past the end of the operand. *)
Theorem natSub_defects :
  (let m := mem_of [[0; 0; 5]; [1]] in
   exists z m', natSub (T := target64) (whole 1 3) (whole 2 1) m = OK (z, m') /\
     holds m' z [2 ^ 64 - 1; 2 ^ 64 - 1; 3]) /\
  (let m := mem_of [0 :: replicate 40 3; [1]] in
   natSub (T := target64) (whole 1 41) (whole 2 1) m = Er OutOfBounds).
Proof.
  split; intros m.
  - do 2 eexists. split; [by vm_compute|]. by apply holdsb_holds; vm_compute.
  - by vm_compute.
Qed.
