(* ===== verification/NatShift.v ===== *)
(** * Shifts of digit vectors: [shlVU] and [shrVU] of natdiv.c *)

From S2P Require Import Prelude Words Digits Carry Shift Memory Logic NatCore Loops.
From iris.proofmode Require Import proofmode.
From iris.base_logic.lib Require Import own ghost_map.

Local Open Scope Z_scope.
Local Open Scope c_scope.

Section code.
Context `{T : Target}.

Definition shlVU (z x : nat_t) (s : Z) : M Z :=
  if s =? 0 then natCopy z x ;! ret 0
  else if len z =? 0 then ret 0
  else
    let s := Z.land s (UintSize - 1) in
    let s1 := Z.land (UintSize - s) (UintSize - 1) in
    let! xt := load (data x) (len z - 1) in
    let c := Z.shiftr xt s1 in
    for_down (len z - 1) 1 tt (fun i _ =>
      let! xi := load (data x) i in
      let! xj := load (data x) (i - 1) in
      store (data z) i (Z.lor (w_shl UintSize xi s) (Z.shiftr xj s1))) ;!
    let! x0 := load (data x) 0 in
    store (data z) 0 (w_shl UintSize x0 s) ;!
    ret c.

Definition shrVU (z x : nat_t) (s : Z) : M Z :=
  assert_ (len x =? len z) ;!
  if s =? 0 then natCopy z x ;! ret 0
  else if len z =? 0 then ret 0
  else
    let s := Z.land s (UintSize - 1) in
    let s1 := Z.land (UintSize - s) (UintSize - 1) in
    let! x0 := load (data x) 0 in
    let c := w_shl UintSize x0 s1 in
    for_up 1 (len z) tt (fun i _ =>
      let! xj := load (data x) (i - 1) in
      let! xi := load (data x) i in
      store (data z) (i - 1) (Z.lor (Z.shiftr xj s) (w_shl UintSize xi s1))) ;!
    let! xt := load (data x) (len z - 1) in
    store (data z) (len z - 1) (Z.shiftr xt s) ;!
    ret c.

End code.

Section specs.
Context `{T : Target} `{!memGS Σ}.

Lemma land_width s : 0 <= s < UintSize → Z.land s (UintSize - 1) = s.
Proof.
  intros Hs. destruct UintSize_cases as [E|E]; rewrite E in Hs *.
  - change (32 - 1) with (Z.ones 5). rewrite Z.land_ones; [|done]. by rewrite Z.mod_small.
  - change (64 - 1) with (Z.ones 6). rewrite Z.land_ones; [|done]. by rewrite Z.mod_small.
Qed.

(** Shifting left, from [x] to an array apart from it *)
Lemma wp_shlVU z x zs dq xs s Φ :
  len z = Z.of_nat (length zs) → len z <= cap z → length zs = length xs → digits xs →
  0 <= s < UintSize →
  arr_opt (data z) (DfracOwn 1) zs -∗ view x dq xs -∗
  (∀ outs c, ⌜length outs = length xs ∧ digits outs ∧ 0 <= c < 2 ^ s ∧
     (value outs + Bpow (length xs) * c = value xs * 2 ^ s)%Z⌝ -∗
     arr_opt (data z) (DfracOwn 1) outs -∗ view x dq xs -∗ Φ c) -∗
  wp (shlVU z x s) Φ.
Proof.
  iIntros (Hlz Hcap Hlen Hdx Hs) "Hz [%Hlx Hx] HΦ". rewrite /shlVU.
  destruct (Z.eqb_spec s 0) as [->|Hs0].
  { iApply wp_bind. iApply (wp_natCopy z zs [] x dq xs with "[Hz] [$Hx]"); [done|lia|by rewrite app_nil_r|done|].
    rewrite app_nil_r. iIntros "Hz Hx". iApply wp_ret. iApply ("HΦ" with "[%] Hz Hx").
    split; [done|]. split; [done|]. split; [done|]. lia. }
  destruct (Z.eqb_spec (len z) 0) as [H0|H0].
  { destruct zs; [|simpl in *; lia]. destruct xs; [|done]. iApply wp_ret.
    iApply ("HΦ" $! [] 0 with "[%] Hz"); [|by iFrame].
    split; [done|]. split; [done|]. split; [|by rewrite /value]. pose proof (pow2_pos s). lia. }
  rewrite (land_width s) // land_width; [|lia].
  destruct (shl_digits_value s 0 xs) as [Hd Hv]; [lia|done|pose proof (pow2_pos s); lia|].
  assert (0 <= s <= UintSize) as Hs1 by lia.
  pose proof (shl_carry_bound s xs Hs1 Hdx) as Hcb.
  set (outs := shl_digits s 0 xs) in *.
  assert (length outs = length xs) as Hlo by apply shl_digits_length.
  destruct (last xs) as [xt|] eqn:Hlast; [|apply last_None in Hlast; subst; simpl in *; lia].
  iApply wp_bind. iApply (wp_load_opt _ _ _ _ xt with "Hx"); [lia| |].
  { rewrite -Hlast last_lookup. f_equal. lia. }
  iIntros "Hx". iApply wp_bind.
  set (n := length xs) in *.
  iApply (wp_for_down (λ k _, arr_opt (data z) (DfracOwn 1) (take (n - k) zs ++ drop (n - k) outs) ∗
     arr_opt (data x) dq xs)%I with "[Hz Hx]").
  - iIntros (k [] Hk) "[Hz Hx]". set (i := (n - S k)%nat).
    replace (len z - 1 - Z.of_nat k) with (Z.of_nat i) by lia.
    destruct (lookup_lt_is_Some_2 xs i) as [a Ha]; [lia|].
    destruct (lookup_lt_is_Some_2 xs (i - 1)) as [b Hb]; [lia|].
    iApply wp_bind. iApply (wp_load_opt _ _ _ _ a with "Hx"); [lia|by rewrite Nat2Z.id|]. iIntros "Hx".
    iApply wp_bind. iApply (wp_load_opt _ _ _ _ b with "Hx"); [lia|rewrite -Hb; f_equal; lia|]. iIntros "Hx".
    iApply (wp_store_opt with "Hz"); [rewrite length_app length_take length_drop; lia|].
    iIntros "Hz". iFrame "Hx". rewrite Nat2Z.id.
    replace (n - k)%nat with (S i) by lia.
    destruct (lookup_lt_is_Some_2 zs i) as [w Hw]; [lia|].
    rewrite (take_S_r zs i w) // -app_assoc insert_app_r_alt; [|rewrite length_take; lia].
    rewrite length_take Nat.min_l; [|lia]. rewrite Nat.sub_diag /=.
    assert (outs !! i = Some (Z.lor (w_shl UintSize a s) (Z.shiftr b (UintSize - s)))) as Ho.
    { rewrite shl_lor; [|lia|exact (digits_lookup _ _ _ Hdx Hb)].
      replace i with (S (i - 1)) in Ha |- * by lia. by apply shl_digits_lookup. }
    by rewrite (drop_S outs _ i Ho).
  - iFrame. by rewrite Nat.sub_0_r drop_ge ?app_nil_r ?take_ge ?Hlo //; lia.
  - iIntros ([]) "[Hz Hx]". replace (n - Z.to_nat (len z - 1 - 1 + 1))%nat with 1%nat by lia.
    destruct xs as [|a xs]; [simpl in *; lia|]. destruct zs as [|w zs]; [simpl in *; lia|].
    iApply wp_bind. iApply (wp_load_opt _ _ _ _ a with "Hx"); [lia|done|]. iIntros "Hx".
    iApply wp_bind. iApply (wp_store_opt with "Hz"); [simpl; lia|]. iIntros "Hz". simpl.
    iApply wp_ret. rewrite /shl_carry Hlast Z.add_0_r in Hv Hcb.
    iApply ("HΦ" $! outs with "[%] [Hz] [$Hx]"); [done| |done].
    subst outs. simpl. by rewrite drop_0 Z.add_0_r.
Qed.

(** Shifting left in place *)
Lemma wp_shlVU_self x xs s Φ :
  len x <= cap x → digits xs → 0 <= s < UintSize →
  view x (DfracOwn 1) xs -∗
  (∀ outs c, ⌜length outs = length xs ∧ digits outs ∧ 0 <= c < 2 ^ s ∧
     (value outs + Bpow (length xs) * c = value xs * 2 ^ s)%Z⌝ -∗
     view x (DfracOwn 1) outs -∗ Φ c) -∗
  wp (shlVU x x s) Φ.
Proof.
  iIntros (Hcap Hdx Hs) "[%Hlx Hx] HΦ". rewrite /shlVU.
  destruct (Z.eqb_spec s 0) as [->|Hs0].
  { iApply wp_bind. rewrite /natCopy. iApply wp_bind. iApply wp_assert; [apply Z.leb_le; lia|].
    iApply (wp_memcpy_self_opt with "Hx"); [lia|]. iIntros "Hx". iApply wp_ret.
    iApply ("HΦ" $! xs 0 with "[%] [$Hx]"); [|done]. split; [done|]. split; [done|]. split; [done|]. lia. }
  destruct (Z.eqb_spec (len x) 0) as [H0|H0].
  { destruct xs; [|simpl in *; lia]. iApply wp_ret. iApply ("HΦ" $! [] 0 with "[%] [$Hx]"); [|done].
    split; [done|]. split; [done|]. split; [|by rewrite /value]. pose proof (pow2_pos s). lia. }
  rewrite (land_width s) // land_width; [|lia].
  destruct (shl_digits_value s 0 xs) as [Hd Hv]; [lia|done|pose proof (pow2_pos s); lia|].
  assert (0 <= s <= UintSize) as Hs1 by lia. pose proof (shl_carry_bound s xs Hs1 Hdx) as Hcb.
  set (outs := shl_digits s 0 xs) in *.
  assert (length outs = length xs) as Hlo by apply shl_digits_length. set (n := length xs) in *.
  destruct (last xs) as [xt|] eqn:Hlast; [|apply last_None in Hlast; subst; simpl in *; lia].
  iApply wp_bind. iApply (wp_load_opt _ _ _ _ xt with "Hx"); [lia| |].
  { rewrite -Hlast last_lookup. f_equal. lia. }
  iIntros "Hx". iApply wp_bind.
  iApply (wp_for_down (λ k _, arr_opt (data x) (DfracOwn 1) (take (n - k) xs ++ drop (n - k) outs)) with "[Hx]").
  - iIntros (k [] Hk) "Hx". set (i := (n - S k)%nat).
    replace (len x - 1 - Z.of_nat k) with (Z.of_nat i) by lia. replace (n - k)%nat with (S i) by lia.
    destruct (lookup_lt_is_Some_2 xs i) as [a Ha]; [lia|].
    destruct (lookup_lt_is_Some_2 xs (i - 1)) as [b Hb]; [lia|].
    assert (∀ j, (j <= i)%nat → (take (S i) xs ++ drop (S i) outs) !! j = xs !! j) as Hread.
    { intros j Hj. rewrite lookup_app_l; [|rewrite length_take; lia]. apply lookup_take_lt. lia. }
    iApply wp_bind. iApply (wp_load_opt _ _ _ _ a with "Hx"); [lia|by rewrite Nat2Z.id Hread|]. iIntros "Hx".
    iApply wp_bind. iApply (wp_load_opt _ _ _ _ b with "Hx"); [lia| |].
    { replace (Z.to_nat (Z.of_nat i - 1)) with (i - 1)%nat by lia. rewrite Hread; [done|lia]. }
    iIntros "Hx". iApply (wp_store_opt with "Hx"); [rewrite length_app length_take length_drop; lia|].
    iIntros "Hx". rewrite Nat2Z.id (take_S_r xs i a) // -app_assoc insert_app_r_alt; [|rewrite length_take; lia].
    rewrite length_take Nat.min_l; [|lia]. rewrite Nat.sub_diag /=.
    assert (outs !! i = Some (Z.lor (w_shl UintSize a s) (Z.shiftr b (UintSize - s)))) as Ho.
    { rewrite shl_lor; [|lia|exact (digits_lookup _ _ _ Hdx Hb)].
      replace i with (S (i - 1)) in Ha |- * by lia. by apply shl_digits_lookup. }
    by rewrite (drop_S outs _ i Ho).
  - by rewrite Nat.sub_0_r drop_ge ?app_nil_r ?take_ge ?Hlo //; lia.
  - iIntros ([]) "Hx". replace (n - Z.to_nat (len x - 1 - 1 + 1))%nat with 1%nat by lia.
    destruct xs as [|a xs]; [simpl in *; lia|].
    iApply wp_bind. iApply (wp_load_opt _ _ _ _ a with "Hx"); [lia|done|]. iIntros "Hx".
    iApply wp_bind. iApply (wp_store_opt with "Hx"); [simpl; lia|]. iIntros "Hx". simpl.
    iApply wp_ret. rewrite /shl_carry Hlast Z.add_0_r in Hv Hcb.
    iApply ("HΦ" $! outs with "[%] [Hx]"); [done|].
    iSplit; [iPureIntro; lia|]. subst outs. simpl. by rewrite drop_0 Z.add_0_r.
Qed.

(** Shifting right in place *)
Lemma wp_shrVU_self x xs s Φ :
  len x <= cap x → digits xs → 0 <= s < UintSize →
  view x (DfracOwn 1) xs -∗
  (∀ outs c, ⌜length outs = length xs ∧ digits outs ∧
     (value xs = value outs * 2 ^ s + value xs mod 2 ^ s)%Z⌝ -∗
     view x (DfracOwn 1) outs -∗ Φ c) -∗
  wp (shrVU x x s) Φ.
Proof.
  iIntros (Hcap Hdx Hs) "[%Hlx Hx] HΦ". rewrite /shrVU.
  iApply wp_bind. iApply wp_assert; [apply Z.eqb_refl|].
  destruct (Z.eqb_spec s 0) as [->|Hs0].
  { iApply wp_bind. rewrite /natCopy. iApply wp_bind. iApply wp_assert; [apply Z.leb_le; lia|].
    iApply (wp_memcpy_self_opt with "Hx"); [lia|]. iIntros "Hx". iApply wp_ret.
    iApply ("HΦ" $! xs with "[%] [$Hx]"); [|done]. rewrite Z.mod_1_r. split; [done|]. split; [done|]. lia. }
  destruct (Z.eqb_spec (len x) 0) as [H0|H0].
  { destruct xs; [|simpl in *; lia]. iApply wp_ret. iApply ("HΦ" $! [] 0 with "[%] [$Hx]"); done. }
  rewrite (land_width s) // land_width; [|lia].
  destruct (shr_digits_value s xs) as [Hd Hv]; [lia|done|].
  set (outs := shr_digits s xs) in *.
  assert (length outs = length xs) as Hlo by apply shr_digits_length.
  destruct (lookup_lt_is_Some_2 xs 0) as [a0 Ha0]; [lia|].
  assert (match xs with [] => 0 | x :: _ => x mod 2 ^ s end = value xs mod 2 ^ s) as Hm.
  { destruct xs as [|b xs]; [done|]. rewrite Hv Z.add_comm Z.mod_add; [|pose proof (pow2_pos s); lia].
    by rewrite Z.mod_mod; [|pose proof (pow2_pos s); lia]. }
  rewrite Hm in Hv.
  iApply wp_bind. iApply (wp_load_opt _ _ _ _ a0 with "Hx"); [done|done|]. iIntros "Hx".
  iApply wp_bind. set (n := length xs) in *.
  iApply (wp_for_up (λ k _, arr_opt (data x) (DfracOwn 1) (take k outs ++ drop k xs))%I with "Hx").
  - iIntros (k [] Hk) "Hx".
    destruct (lookup_lt_is_Some_2 xs k) as [a Ha]; [lia|].
    destruct (lookup_lt_is_Some_2 xs (S k)) as [b Hb]; [lia|].
    assert (∀ j, (take k outs ++ drop k xs) !! (k + j)%nat = xs !! (k + j)%nat) as Hread.
    { intros j. rewrite lookup_app_r length_take; [|lia].
      rewrite lookup_drop. f_equal. lia. }
    iApply wp_bind. iApply (wp_load_opt _ _ _ _ a with "Hx"); [lia| |].
    { replace (Z.to_nat (1 + Z.of_nat k - 1)) with (k + 0)%nat by lia. by rewrite Hread Nat.add_0_r. }
    iIntros "Hx". iApply wp_bind. iApply (wp_load_opt _ _ _ _ b with "Hx"); [lia| |].
    { replace (Z.to_nat (1 + Z.of_nat k)) with (k + 1)%nat by lia. by rewrite Hread Nat.add_1_r. }
    iIntros "Hx". iApply (wp_store_opt with "Hx"); [rewrite length_app length_take length_drop; lia|].
    iIntros "Hx". replace (Z.to_nat (1 + Z.of_nat k - 1)) with k by lia.
    rewrite insert_app_r_alt length_take; [|lia]. rewrite Nat.min_l; [|lia].
    rewrite Nat.sub_diag (drop_S xs a k Ha) /=.
    assert (outs !! k = Some (Z.lor (Z.shiftr a s) (w_shl UintSize b (UintSize - s)))) as Ho.
    { rewrite shr_lor; [|lia|exact (digits_lookup _ _ _ Hdx Ha)]. by apply shr_digits_lookup. }
    by rewrite (take_S_r outs k _ Ho) -app_assoc.
  - iIntros ([]) "Hx". replace (Z.to_nat (len x - 1)) with (n - 1)%nat by lia.
    destruct (lookup_lt_is_Some_2 xs (n - 1)) as [a Ha]; [lia|].
    rewrite (drop_S xs a _ Ha) drop_ge; [|lia].
    assert (length (take (n - 1) outs) = n - 1)%nat as Hlt by (rewrite length_take; lia).
    iApply wp_bind. iApply (wp_load_opt _ _ _ _ a with "Hx"); [lia| |].
    { rewrite lookup_app_r Hlt; [|lia]. by replace (Z.to_nat (len x - 1) - (n - 1))%nat with O by lia. }
    iIntros "Hx". iApply wp_bind. iApply (wp_store_opt with "Hx"); [rewrite length_app /= Hlt; lia|].
    iIntros "Hx". rewrite insert_app_r_alt Hlt; [|lia].
    replace (Z.to_nat (len x - 1) - (n - 1))%nat with O by lia. simpl.
    assert (last xs = Some a) as Hla by (rewrite last_lookup -Ha; f_equal; lia).
    pose proof (shr_digits_last s xs a Hla) as Hlo'. rewrite last_lookup in Hlo'. fold outs in Hlo'.
    replace (Nat.pred (length outs)) with (n - 1)%nat in Hlo' by lia.
    rewrite -(take_S_r outs (n - 1) _ Hlo') take_ge; [|lia].
    iApply wp_ret. iApply ("HΦ" $! outs with "[%] [$Hx]"); [done|]. iPureIntro. lia.
Qed.
End specs.
