(* ===== verification/NatMul.v ===== *)
(** * Multiplication: [cmake/bigint/src/natmul.c] *)

From S2P Require Import Prelude Words Digits Carry Memory Logic NatCore Loops NatAdd NatSub NatShift.
From iris.proofmode Require Import proofmode.
From iris.base_logic.lib Require Import own ghost_map.

Local Open Scope Z_scope.
Local Open Scope c_scope.

Section code.
Context `{T : Target}.

Definition mulWW (x y : Z) : Z * Z := UIntMul x y.

Definition mulAddWWW (x y c : Z) : Z * Z :=
  let '(lo, hi) := UIntMul x y in
  let '(lo, cc) := UIntAdd lo c 0 in
  (lo, wrap UintSize (hi + cc)).

Definition addMulVVW (z x : nat_t) (y : Z) : M Z :=
  for_up 0 (Z.min (len z) (len x)) 0 (fun i c =>
    let! xi := load (data x) i in
    let! zi := load (data z) i in
    let '(z0, z1) := mulAddWWW xi y zi in
    let '(lo, cc) := UIntAdd z0 c 0 in
    store (data z) i lo ;!
    ret (wrap UintSize (cc + z1))).

Definition basicMul (z x y : nat_t) : M unit :=
  let! zc := natPart z 0 (len x + len y) in
  natClear zc ;!
  for_up 0 (len y) tt (fun i _ =>
    let! yi := load (data y) i in
    if negb (yi =? 0) then
      let! zi := natPart z i (i + len x) in
      let! yi := load (data y) i in
      let! c := addMulVVW zi x yi in
      store (data z) (len x + i) c
    else ret tt).

Definition mulAddWW (x y : Z) : Z * Z := UIntMul x y.

Definition mulAddVWW (z x : nat_t) (y r : Z) : M Z :=
  for_up 0 (Z.min (len z) (len x)) r (fun i c =>
    let! xi := load (data x) i in
    let '(lo, c) := mulAddWWW xi y c in
    store (data z) i lo ;!
    ret c).

Definition natMulAddWW (x : nat_t) (y r : Z) : M nat_t :=
  let m := len x in
  if (m =? 0) || (y =? 0) then natNew r
  else
    let! z := natNewLen (m + 1) in
    let! zz := natPart z 0 m in
    let! c := mulAddVWW zz x y r in
    store (data z) m c ;!
    natNorm z.

Definition karatsubaThreshold : Z := 40.

(** The loop of [karatsubaLen]: halve [n] until it is at most [threshold]. *)
Fixpoint karatsubaLen_loop (fuel : nat) (n threshold i : Z) : Z :=
  match fuel with
  | O => Z.shiftl n i
  | S fuel =>
      if threshold <? n then karatsubaLen_loop fuel (Z.shiftr n 1) threshold (i + 1)
      else Z.shiftl n i
  end.

Definition karatsubaLen (n threshold : Z) : Z := karatsubaLen_loop 64 n threshold 0.

Definition karatsubaAdd (z x : nat_t) (n : Z) : M unit :=
  let! zn := natPart z 0 n in
  let! c := addVV zn z x in
  if negb (c =? 0) then
    let! z1 := natPart z n (n + Z.shiftr n 1) in
    let! z2 := natPart z n (len z) in
    let! _ := addVW z1 z2 c in
    ret tt
  else ret tt.

Definition karatsubaSub (z x : nat_t) (n : Z) : M unit :=
  let! zn := natPart z 0 n in
  let! c := subVV zn z x in
  if negb (c =? 0) then
    let! z1 := natPart z n (n + Z.shiftr n 1) in
    let! z2 := natPart z n (len z) in
    let! _ := subVW z1 z2 c in
    ret tt
  else ret tt.

Fixpoint karatsuba (fuel : nat) (z x y : nat_t) : M unit :=
  match fuel with
  | O => fail OutOfFuel
  | S fuel =>
      let n := len y in
      if negb (Z.land n 1 =? 0) || (n <? karatsubaThreshold) || (n <? 2) then basicMul z x y
      else
        let n2 := Z.shiftr n 1 in
        let! x0 := natPart x 0 n2 in
        let! x1 := natPart x n2 (len x) in
        let! y0 := natPart y 0 n2 in
        let! y1 := natPart y n2 (len y) in
        karatsuba fuel z x0 y0 ;!
        let! zn := natPart z n (len z) in
        karatsuba fuel zn x1 y1 ;!
        let! xd := natPart z (2 * n) (2 * n + n2) in
        let! c := subVV xd x1 x0 in
        let! s := (if negb (c =? 0) then (let! _ := subVV xd x0 x1 in ret (-1)) else ret 1) in
        let! yd := natPart z (2 * n + n2) (3 * n) in
        let! c := subVV yd y0 y1 in
        let! s := (if negb (c =? 0) then (let! _ := subVV yd y1 y0 in ret (- s)) else ret s) in
        let! p := natPart z (n * 3) (len z) in
        karatsuba fuel p xd yd ;!
        let! r := natPart z (n * 4) (len z) in
        memcpy_words (data r) (data z) (n * 2) ;!
        let! z2 := natPart z n2 (len z) in
        karatsubaAdd z2 r n ;!
        let! rn := natPart r n (len r) in
        karatsubaAdd z2 rn n ;!
        if 0 <? s then karatsubaAdd z2 p n else karatsubaSub z2 p n
  end.

Definition addAt (z x : nat_t) (i : Z) : M unit :=
  if 0 <? len x then
    let! z1 := natPart z i (i + len x) in
    let! z2 := natPart z i (len z) in
    let! c := addVV z1 z2 x in
    if negb (c =? 0) then
      let j := i + len x in
      if j <? len z then
        let! z3 := natPart z j (len z) in
        let! _ := addVW z3 z3 c in
        ret tt
      else ret tt
    else ret tt
  else ret tt.

(** [natMul] swaps its operands by calling itself when the first is the
    shorter; [natMul_ge] is the rest of its body and [rec] its other
    recursive calls. *)
Definition natMul_ge (rec : nat_t -> nat_t -> M nat_t) (x y : nat_t) : M nat_t :=
  let m := len x in
  let n := len y in
  if (m =? 0) || (n =? 0) then natNew 0
  else if n =? 1 then let! y0 := load (data y) 0 in natMulAddWW x y0 0
  else if n <? karatsubaThreshold then
    let! z := natNewLen (m + n) in
    basicMul z x y ;!
    natNorm z
  else
    let k := karatsubaLen n karatsubaThreshold in
    let! x0 := natPart x 0 k in
    let! y0 := natPart y 0 k in
    let! z := natNewLen (Z.max (6 * k) (m + n)) in
    karatsuba (Z.to_nat k) z x0 y0 ;!
    let! z := natPart z 0 (m + n) in
    let! zh := natPart z (2 * k) (len z) in
    natClear zh ;!
    (if (k <? n) || negb (m =? n) then
      let! x0 := natNorm x0 in
      let! y1 := natPart y k (len y) in
      let! t := rec x0 y1 in
      addAt z t k ;!
      let! _ := natFree t in
      let! y0 := natNorm y0 in
      for_step k (len x) k tt (fun i _ =>
        let! xi := natPart x i (len x) in
        let! xi := (if k <? len xi then natPart xi 0 k else ret xi) in
        let! xi := natNorm xi in
        let! t := rec xi y0 in
        addAt z t i ;!
        let! _ := natFree t in
        let! t := rec xi y1 in
        addAt z t (i + k) ;!
        let! _ := natFree t in
        ret tt)
    else ret tt) ;!
    natNorm z.

Fixpoint natMul_fuel (fuel : nat) (x y : nat_t) : M nat_t :=
  match fuel with
  | O => fail OutOfFuel
  | S fuel =>
      if len x <? len y then natMul_ge (natMul_fuel fuel) y x
      else natMul_ge (natMul_fuel fuel) x y
  end.

(** The lengths of the operands of every inner call add up to less. *)
Definition natMul (x y : nat_t) : M nat_t :=
  natMul_fuel (S (Z.to_nat (len x + len y))) x y.

Definition basicSqrThreshold : Z := 20.
Definition karatsubaSqrThreshold : Z := 260.

Definition basicSqr (z x : nat_t) : M nat_t :=
  let n := len x in
  let! t := natNewLen (2 * n) in
  let! x0 := load (data x) 0 in
  let '(lo, hi) := mulWW x0 x0 in
  store (data z) 1 hi ;!
  store (data z) 0 lo ;!
  for_up 1 n tt (fun i _ =>
    let! d := load (data x) i in
    let '(lo, hi) := mulWW d d in
    store (data z) (2 * i + 1) hi ;!
    store (data z) (2 * i) lo ;!
    let! ti := natPart t i (2 * i) in
    let! xi := natPart x 0 i in
    let! c := addMulVVW ti xi d in
    store (data t) (2 * i) c) ;!
  let! t1 := natPart t 1 (2 * n - 1) in
  let! c := shlVU t1 t1 1 in
  store (data t) (2 * n - 1) c ;!
  let! _ := addVV z z t in
  let! _ := natFree t in
  ret z.

Fixpoint karatsubaSqr (fuel : nat) (z x : nat_t) : M unit :=
  match fuel with
  | O => fail OutOfFuel
  | S fuel =>
      let n := len x in
      if negb (Z.land n 1 =? 0) || (n <? karatsubaSqrThreshold) || (n <? 2) then
        let! zz := natPart z 0 (2 * n) in
        let! _ := basicSqr zz x in
        ret tt
      else
        let n2 := Z.shiftr n 1 in
        let! x0 := natPart x 0 n2 in
        let! x1 := natPart x n2 (len x) in
        karatsubaSqr fuel z x0 ;!
        let! z1 := natPart z n (len z) in
        karatsubaSqr fuel z1 x1 ;!
        let! xd := natPart z (2 * n) (2 * n + n2) in
        let! c := subVV xd x1 x0 in
        (if negb (c =? 0) then (let! _ := subVV xd x0 x1 in ret tt) else ret tt) ;!
        let! p := natPart z (n * 3) (len z) in
        karatsubaSqr fuel p xd ;!
        let! r := natPart z (n * 4) (len z) in
        let! zl := natPart z 0 (n * 2) in
        natCopy r zl ;!
        let! z2 := natPart z n2 (len z) in
        karatsubaAdd z2 r n ;!
        let! rn := natPart r n (len r) in
        karatsubaAdd z2 rn n ;!
        karatsubaSub z2 p n
  end.

Fixpoint natSqr_fuel (fuel : nat) (x : nat_t) : M nat_t :=
  match fuel with
  | O => fail OutOfFuel
  | S fuel =>
      let n := len x in
      if n =? 0 then natNewLen 0
      else if n =? 1 then
        let! d := load (data x) 0 in
        let! z := natNewLen 2 in
        let '(lo, hi) := mulWW d d in
        store (data z) 1 hi ;!
        store (data z) 0 lo ;!
        natNorm z
      else if n <? basicSqrThreshold then
        let! z := natNewLen (2 * n) in
        basicMul z x x ;!
        natNorm z
      else if n <? karatsubaSqrThreshold then
        let! z := natNewLen (2 * n) in
        let! z := basicSqr z x in
        natNorm z
      else
        let k := karatsubaLen n karatsubaSqrThreshold in
        let! x0 := natPart x 0 k in
        let! z := natNewLen (Z.max (6 * k) (2 * n)) in
        karatsubaSqr (Z.to_nat k) z x0 ;!
        let! z := natPart z 0 (2 * n) in
        let! zh := natPart z (2 * k) (len z) in
        natClear zh ;!
        (if k <? n then
          let! x0 := natNorm x0 in
          let! x1 := natPart x k (len x) in
          let! t := natMul x0 x1 in
          addAt z t k ;!
          addAt z t k ;!
          let! _ := natFree t in
          let! t := natSqr_fuel fuel x1 in
          addAt z t (2 * k) ;!
          let! _ := natFree t in
          ret tt
        else ret tt) ;!
        natNorm z
  end.

Definition natSqr (x : nat_t) : M nat_t := natSqr_fuel (S (Z.to_nat (len x))) x.

End code.

Section arith.
Context `{T : Target}.

Lemma mulAddWWW_spec x y c : 0 <= x < Base -> 0 <= y < Base -> 0 <= c < Base ->
  exists lo hi, mulAddWWW x y c = (lo, hi) /\ 0 <= lo < Base /\ 0 <= hi < Base /\
    lo + Base * hi = x * y + c.
Proof.
  intros Hx Hy Hc. rewrite /mulAddWWW.
  destruct (UIntMul_spec x y) as (l & h & -> & Hl & Hh & Hlh); [done..|].
  destruct (UIntAdd_spec l c 0) as (s & c' & -> & Hs & Hc' & Hsc); [done|done|lia|].
  assert (x * y <= (Base - 1) * (Base - 1)) as Hxy by (apply mul_range_le; lia).
  assert (h + c' < Base) as Hlt by nia.
  exists s, (h + c'). rewrite /wrap Z.mod_small; [|unfold Base in *; lia].
  split; [done|]. split; [done|]. split; [lia|]. lia.
Qed.

(** One iteration of [addMulVVW] *)
Lemma addMul_step x y z c : 0 <= x < Base -> 0 <= y < Base -> 0 <= z < Base -> 0 <= c < Base ->
  exists z0 z1 lo cc, mulAddWWW x y z = (z0, z1) /\ UIntAdd z0 c 0 = (lo, cc) /\
    0 <= lo < Base /\ 0 <= wrap UintSize (cc + z1) < Base /\
    lo + Base * wrap UintSize (cc + z1) = z + x * y + c.
Proof.
  intros Hx Hy Hz Hc. destruct (mulAddWWW_spec x y z) as (z0 & z1 & -> & H0 & H1 & He); [done..|].
  destruct (UIntAdd_spec z0 c 0) as (s & c' & Hadd & Hs & Hc' & Hsc); [done|done|lia|].
  exists z0, z1, s, c'. rewrite Hadd.
  assert (x * y <= (Base - 1) * (Base - 1)) as Hxy by (apply mul_range_le; lia).
  assert (c' + z1 < Base) as Hlt by nia.
  rewrite /wrap Z.mod_small; [|unfold Base in *; lia]. repeat (split; [done || lia|]). lia.
Qed.

Lemma addMul_balance outs (vz vx z x y c lo c' : Z) :
  (value outs + Bpow (length outs) * c = vz + vx * y)%Z ->
  lo + Base * c' = z + x * y + c ->
  (value (outs ++ [lo]) + Bpow (length (outs ++ [lo])) * c' =
  (vz + Bpow (length outs) * z) + (vx + Bpow (length outs) * x) * y)%Z.
Proof.
  intros Hv Hs. rewrite value_snoc length_app. cbn [length].
  rewrite Nat.add_1_r Bpow_S. nia.
Qed.

End arith.

Section specs.
Context `{T : Target} `{!memGS Σ}.

Lemma wp_addMulVVW z zs x dq xs y Φ :
  len z = Z.of_nat (length zs) → length zs = length xs → digits zs → digits xs → 0 <= y < Base →
  arr_opt (data z) (DfracOwn 1) zs -∗ view x dq xs -∗
  (∀ outs c, ⌜length outs = length zs ∧ digits outs ∧ 0 <= c < Base ∧
     (value outs + Bpow (length zs) * c = value zs + value xs * y)%Z⌝ -∗
     arr_opt (data z) (DfracOwn 1) outs -∗ view x dq xs -∗ Φ c) -∗
  wp (addMulVVW z x y) Φ.
Proof.
  iIntros (Hlz Hlen Hdz Hdx Hy) "Hz [%Hlx Hx] HΦ". rewrite /addMulVVW.
  iApply (wp_for_words (λ outs c, digits outs ∧ 0 <= c < Base ∧
     (value outs + Bpow (length outs) * c =
      value (take (length outs) zs) + value (take (length outs) xs) * y)%Z) _ zs
     (arr_opt (data x) dq xs) with "Hz Hx"); [lia| | |].
  { split; [constructor|]. pose proof Base_gt0. split; [lia|].
    rewrite /= !take_0 Bpow_0 /value. lia. }
  - iIntros (outs w c Hw (Hd & Hc & Hv)) "Hx Hz". pose proof (lookup_lt_Some _ _ _ Hw).
    destruct (lookup_lt_is_Some_2 xs (length outs)) as [a Ha]; [lia|].
    iApply wp_bind. iApply (wp_load_opt _ _ _ _ a with "Hx"); [lia|by rewrite Nat2Z.id|].
    iIntros "Hx". iApply wp_bind. iApply (wp_load_at with "Hz"). iIntros "Hz".
    destruct (addMul_step a y w c) as (z0 & z1 & lo & cc & -> & -> & Hlo & Hc' & Heq);
      [exact (digits_lookup _ _ _ Hdx Ha)|done|exact (digits_lookup _ _ _ Hdz Hw)|done|].
    iApply wp_bind. iApply (wp_store_at with "Hz"). iIntros "Hz". iApply wp_ret.
    iExists lo. iFrame. iPureIntro. split; [by apply digits_snoc|]. split; [done|].
    pose proof (addMul_balance outs _ _ w a y c lo _ Hv Heq) as Hb.
    rewrite length_app Nat.add_1_r in Hb *.
    rewrite (value_take_S xs _ a) // (value_take_S zs _ w) //.
  - iIntros (outs c Hl (Hd & Hc & Hv)) "Hz Hx". iApply ("HΦ" with "[%] Hz"); [|by iFrame].
    rewrite Hl take_ge // take_ge in Hv; [|lia]. done.
Qed.

(** The state of [basicMul] after [k] rounds: the product with the first [k]
    digits of [ys], and zeros *)
Definition mul_inv (z x y : nat_t) dq xs dq' ys (k : nat) : iProp Σ :=
  ∃ P, ⌜length P = (length xs + k)%nat ∧ digits P ∧ value P = (value xs * value (take k ys))%Z⌝ ∗
    arr_opt (data z) (DfracOwn 1) (P ++ replicate (length ys - k) 0) ∗
    view x dq xs ∗ view y dq' ys.

Lemma wp_basicMul_round z x y dq xs dq' ys (k : nat) :
  (k < length ys)%nat → digits xs → digits ys →
  mul_inv z x y dq xs dq' ys k ⊢
  wp (let! yi := load (data y) (Z.of_nat k) in
      if negb (yi =? 0) then
        let! zi := natPart z (Z.of_nat k) (Z.of_nat k + len x) in
        let! yi := load (data y) (Z.of_nat k) in
        let! c := addMulVVW zi x yi in
        store (data z) (len x + Z.of_nat k) c
      else ret tt) (λ _, mul_inv z x y dq xs dq' ys (S k)).
Proof.
  iIntros (Hk Hdx Hdy) "(%P & (%HlP & %HdP & %HvP) & Hz & [%Hlx Hx] & [%Hly Hy])".
  destruct (lookup_lt_is_Some_2 ys k) as [b Hb]; [lia|].
  pose proof (digits_lookup _ _ _ Hdy Hb) as Hbr.
  replace (length ys - k)%nat with (S (length ys - S k)) by lia. cbn [replicate].
  iApply wp_bind. iApply (wp_load_opt _ _ _ _ b with "Hy"); [lia|by rewrite Nat2Z.id|].
  iIntros "Hy". destruct (Z.eqb_spec b 0) as [->|Hnz]; simpl.
  - iApply wp_ret. iExists (P ++ [0]). rewrite -app_assoc. iFrame. iPureIntro.
    rewrite length_app /= value_snoc (value_take_S ys k 0) //.
    split; [|done]. split; [lia|]. split; [|rewrite HvP; lia].
    apply digits_snoc; [done|]. pose proof Base_gt0. lia.
  - iApply wp_bind. iApply wp_natPart; [lia|].
    iApply wp_bind. iApply (wp_load_opt _ _ _ _ b with "Hy"); [lia|by rewrite Nat2Z.id|].
    iIntros "Hy". iApply wp_bind.
    rewrite -{1}(take_drop k P) -app_assoc !arr_opt_app ptr_add_add.
    iDestruct "Hz" as "(H1 & H2 & H3)".
    assert (length (take k P) = k) as Hl1 by (rewrite length_take; lia).
    assert (length (drop k P) = length xs) as Hl2 by (rewrite length_drop; lia).
    iApply (wp_addMulVVW (slice z (Z.of_nat k) (Z.of_nat k + len x)) (drop k P) x dq xs b
      with "[H2] [$Hx]"); [simpl; lia|done|by apply digits_drop|done|done|by rewrite Hl1|done|].
    iIntros (outs c (Hlo & Hdo & Hc & Hv)) "H2 [_ Hx]". rewrite /= Hl1 Hl2.
    iAssert (arr_opt (data z) (DfracOwn 1) ((take k P ++ outs) ++ 0 :: replicate (length ys - S k) 0))
      with "[H1 H2 H3]" as "Hz".
    { rewrite -app_assoc !arr_opt_app ptr_add_add Hl1 Hlo Hl2. iFrame. }
    assert (length (take k P ++ outs) = length xs + k)%nat as Hl by (rewrite length_app; lia).
    iApply (wp_store_opt with "Hz"); [rewrite length_app /= Hl; lia|]. iIntros "Hz".
    rewrite insert_app_r_alt; [|lia].
    replace (Z.to_nat (len x + Z.of_nat k) - length (take k P ++ outs))%nat with O by lia. simpl.
    iExists ((take k P ++ outs) ++ [c]). rewrite -(app_assoc _ [c]). iFrame. iPureIntro.
    split; [|done]. split; [rewrite length_app Hl /=; lia|].
    split; [by apply digits_snoc; [apply digits_app; split; [apply digits_take|]|]|].
    rewrite value_snoc Hl value_app Hl1 (value_take_S ys k b) // Z.mul_add_distr_l -HvP.
    rewrite (value_take_drop k P); [|lia]. rewrite Nat.add_comm Bpow_add. rewrite Hl2 in Hv. nia.
Qed.

Lemma wp_basicMul z zs rest x dq xs y dq' ys Φ :
  length zs = (length xs + length ys)%nat → digits xs → digits ys →
  arr_opt (data z) (DfracOwn 1) (zs ++ rest) -∗ view x dq xs -∗ view y dq' ys -∗
  (∀ outs, ⌜length outs = length zs ∧ digits outs ∧ value outs = (value xs * value ys)%Z⌝ -∗
     arr_opt (data z) (DfracOwn 1) (outs ++ rest) -∗ view x dq xs -∗ view y dq' ys -∗ Φ tt) -∗
  wp (basicMul z x y) Φ.
Proof.
  iIntros (Hlen Hdx Hdy) "Hz Hx Hy HΦ". rewrite arr_opt_app. iDestruct "Hz" as "[Hz Hrest]".
  iAssert ⌜len x = Z.of_nat (length xs) ∧ len y = Z.of_nat (length ys)⌝%I as %[Hlx Hly].
  { iDestruct "Hx" as "[% _]". by iDestruct "Hy" as "[% _]". }
  rewrite /basicMul. iApply wp_bind. iApply wp_natPart; [lia|].
  iApply wp_bind. iApply (wp_natClear _ zs with "[Hz]").
  { rewrite /view /= ptr_add_0. iFrame. iPureIntro. lia. }
  iIntros "[_ Hz]". rewrite /= ptr_add_0.
  iApply (wp_for_up (λ k _, mul_inv z x y dq xs dq' ys k) with "[Hz Hx Hy]").
  - iIntros (k [] Hk) "H". rewrite Z.add_0_l. iApply (wp_basicMul_round with "H"); [lia|done|done].
  - iExists (replicate (length xs) 0). iFrame. rewrite Nat.sub_0_r -replicate_add Hlen. iFrame.
    iPureIntro. rewrite length_replicate take_0 value_replicate Nat.add_0_r /value.
    split; [done|]. split; [apply digits_replicate|lia].
  - iIntros ([]) "(%P & (%HlP & %HdP & %HvP) & Hz & Hx & Hy)".
    rewrite Hly Z.sub_0_r Nat2Z.id Nat.sub_diag app_nil_r in HlP *.
    iApply ("HΦ" $! P with "[%] [Hz Hrest] Hx Hy"); [|by rewrite arr_opt_app HlP Hlen; iFrame].
    rewrite HlP Hlen. rewrite HvP Hly Z.sub_0_r Nat2Z.id take_ge //.
Qed.

(** [mulAddVWW], with a destination apart from [x] or [x] itself *)
Lemma wp_mulAddVWW R z x zs xs y r Φ :
  len z = Z.of_nat (length zs) → len z <= len x → length zs = length xs → digits xs →
  0 <= y < Base → 0 <= r < Base → reads R (data z) zs (data x) xs →
  arr_opt (data z) (DfracOwn 1) zs -∗ R -∗
  (∀ outs c, ⌜length outs = length xs ∧ digits outs ∧ 0 <= c < Base ∧
     (value outs + Bpow (length xs) * c = value xs * y + r)%Z⌝ -∗
     arr_opt (data z) (DfracOwn 1) outs -∗ R -∗ Φ c) -∗
  wp (mulAddVWW z x y r) Φ.
Proof.
  iIntros (Hlz Hzx Hlen Hdx Hy Hr Hrd) "Hz HR HΦ". rewrite /mulAddVWW.
  iApply (wp_for_words (λ outs c, digits outs ∧ 0 <= c < Base ∧
     (value outs + Bpow (length outs) * c = value (take (length outs) xs) * y + r)%Z) _ zs R
     with "Hz HR"); [lia| | |].
  { split; [constructor|]. split; [lia|]. rewrite /= !take_0 Bpow_0 /value. lia. }
  - iIntros (outs w c Hw (Hd & Hc & Hv)) "HR Hz". pose proof (lookup_lt_Some _ _ _ Hw).
    destruct (lookup_lt_is_Some_2 xs (length outs)) as [a Ha]; [lia|].
    iApply wp_bind. iApply (Hrd with "HR Hz"); [done..|]. iIntros "HR Hz".
    destruct (mulAddWWW_spec a y c) as (lo & hi & -> & Hlo & Hhi & Heq);
      [exact (digits_lookup _ _ _ Hdx Ha)|done|done|].
    iApply wp_bind. iApply (wp_store_at with "Hz"). iIntros "Hz". iApply wp_ret.
    iExists lo. iFrame. iPureIntro. split; [by apply digits_snoc|]. split; [done|].
    pose proof (mulVW_balance outs _ a y r c lo hi Hv Heq) as Hb.
    rewrite length_app Nat.add_1_r in Hb *. rewrite (value_take_S xs _ a) //.
  - iIntros (outs c Hl (Hd & Hc & Hv)) "Hz HR". iApply ("HΦ" with "[%] Hz HR").
    rewrite Hl Hlen take_ge // in Hv. split; [lia|]. done.
Qed.

Lemma wp_natMulAddWW x dq xs y r Φ :
  digits xs → 0 <= y < Base → 0 <= r < Base → xs ≠ [] → y ≠ 0 →
  view x dq xs -∗
  (∀ z zs, ⌜digits zs ∧ normalized zs ∧ value zs = (value xs * y + r)%Z⌝ -∗
     owned z zs -∗ view x dq xs -∗ Φ z) -∗
  wp (natMulAddWW x y r) Φ.
Proof.
  iIntros (Hdx Hy Hr Hne Hnz) "[%Hlx Hx] HΦ". rewrite /natMulAddWW.
  assert (0 < length xs)%nat by (destruct xs; [done|simpl; lia]).
  rewrite (proj2 (Z.eqb_neq (len x) 0)); [|lia]. rewrite (proj2 (Z.eqb_neq y 0)) //. simpl.
  iApply wp_bind. iApply wp_natNewLen; [lia|]. iIntros (z [Hlz Hcz]) "Hz".
  iDestruct (block_of_arr with "Hz") as "[Hz Hcl]".
  replace (Z.to_nat (len x + 1)) with (length xs + 1)%nat by lia.
  rewrite replicate_add arr_opt_app length_replicate. iDestruct "Hz" as "[Hlo Htop]".
  iApply wp_bind. iApply wp_natPart; [lia|]. iApply wp_bind.
  iApply (wp_mulAddVWW (arr_opt (data x) dq xs) _ x (replicate (length xs) 0) xs
    with "[Hlo] Hx"); rewrite ?length_replicate /=; try done; try lia.
  { apply reads_arr. } { by rewrite ptr_add_0. }
  iIntros (outs c (Hlo & Hdo & Hc & Hv)) "Hlo Hx". rewrite ptr_add_0.
  iAssert (arr_opt (data z) (DfracOwn 1) (outs ++ [0])) with "[Hlo Htop]" as "Hz".
  { rewrite arr_opt_app Hlo. iFrame. }
  iApply wp_bind. iApply (wp_store_opt with "Hz"); [rewrite length_app /=; lia|]. iIntros "Hz".
  rewrite insert_app_r_alt; [|lia].
  replace (Z.to_nat (len x) - length outs)%nat with O by lia. simpl.
  iDestruct ("Hcl" $! (outs ++ [c]) with "[%] Hz") as "Hz".
  { rewrite !length_app length_replicate Hlo. done. }
  iApply (wp_natNorm_owned z (outs ++ [c]) with "[Hz]").
  { iApply (owned_whole with "Hz"); [rewrite length_app /=; lia|lia]. }
  iIntros (z') "Hz _". iApply ("HΦ" with "[%] Hz [$Hx]"); [|done].
  split; [by apply strip_digits, digits_snoc|]. split; [apply strip_normalized|].
  rewrite strip_value value_snoc Hlo. done.
Qed.
(** Below the Karatsuba threshold the product is exact; a product with an empty
    operand, or with the digit 0, is the single digit 0. *)
Lemma wp_natMul_ge rec x dq xs y dq' ys Φ :
  digits xs → digits ys → (length ys <= length xs)%nat → Z.of_nat (length ys) < karatsubaThreshold →
  view x dq xs -∗ view y dq' ys -∗
  (∀ z zs, ⌜digits zs ∧ value zs = (value xs * value ys)%Z ∧
     (if decide (ys = [] ∨ ys = [0]) then zs = [0] else normalized zs)⌝ -∗
     owned z zs -∗ view x dq xs -∗ view y dq' ys -∗ Φ z) -∗
  wp (natMul_ge rec x y) Φ.
Proof.
  iIntros (Hdx Hdy Hlen Hsmall) "Hx Hy HΦ".
  iAssert ⌜len x = Z.of_nat (length xs) ∧ len y = Z.of_nat (length ys)⌝%I as %[Hlx Hly].
  { iDestruct "Hx" as "[% _]". by iDestruct "Hy" as "[% _]". }
  rewrite /natMul_ge. pose proof Base_gt0.
  assert (digits [0]) as Hd0 by (apply digits_cons; split; [lia|constructor]).
  destruct (decide (ys = [])) as [->|Hne].
  { rewrite Hly orb_true_r. iApply wp_natNew. iIntros (z _) "Hz".
    iApply ("HΦ" with "[%] Hz Hx Hy"). rewrite /value Z.mul_0_r Z.mul_0_r.
    split; [done|]. split; [done|]. case_decide as Hdec; [done|]. destruct Hdec; by left. }
  assert (0 < length ys)%nat as Hpos by (destruct ys; [done|simpl; lia]).
  rewrite (proj2 (Z.eqb_neq (len x) 0)); [|lia]. rewrite (proj2 (Z.eqb_neq (len y) 0)); [|lia].
  simpl. destruct (Z.eqb_spec (len y) 1) as [H1|H1].
  - destruct ys as [|b [|]]; [done| |simpl in *; lia]. iDestruct "Hy" as "[_ Hy]".
    iApply wp_bind. iApply (wp_load_opt _ _ _ _ b with "Hy"); [lia|done|]. iIntros "Hy".
    apply digits_cons in Hdy as [Hb _]. simpl in Hlen. destruct (decide (b = 0)) as [->|Hb0].
    + rewrite /natMulAddWW orb_true_r. iApply wp_natNew. iIntros (z _) "Hz".
      iApply ("HΦ" with "[%] Hz Hx [$Hy]"); [|done]. split; [done|].
      split; [rewrite /value; lia|]. case_decide as Hdec; [done|]. destruct Hdec; by right.
    + iApply (wp_natMulAddWW with "Hx"); try done.
      { intros ->. simpl in Hlen. lia. }
      iIntros (z zs (Hd & Hn & Hv)) "Hz Hx". iApply ("HΦ" with "[%] Hz Hx [$Hy]"); [|done].
      split; [done|]. split; [rewrite Hv /value; lia|].
      case_decide as Hdec; [|done]. destruct Hdec; simplify_eq.
  - rewrite (proj2 (Z.ltb_lt (len y) _)); [|lia].
    iApply wp_bind. iApply wp_natNewLen; [lia|]. iIntros (z [Hlz Hcz]) "Hz".
    iDestruct (block_of_arr with "Hz") as "[Hz Hcl]". iApply wp_bind.
    iApply (wp_basicMul z (replicate (Z.to_nat (len x + len y)) 0) [] with "[Hz] Hx Hy").
    { rewrite length_replicate. lia. } { done. } { done. } { by rewrite app_nil_r. }
    iIntros (outs (Hlo & Hdo & Hv)) "Hz Hx Hy". rewrite app_nil_r.
    iDestruct ("Hcl" with "[%] Hz") as "Hz"; [done|].
    iApply (wp_natNorm_owned z outs with "[Hz]").
    { iApply (owned_whole with "Hz"); [rewrite Hlo length_replicate; lia|lia]. }
    iIntros (z') "Hz _". iApply ("HΦ" with "[%] Hz Hx Hy").
    split; [by apply strip_digits|]. rewrite strip_value. split; [done|].
    case_decide as Hdec; [|apply strip_normalized]. destruct Hdec as [-> | ->]; simpl in *; lia.
Qed.

Lemma wp_natMul x dq xs y dq' ys Φ :
  digits xs → digits ys → Z.of_nat (Nat.min (length xs) (length ys)) < karatsubaThreshold →
  view x dq xs -∗ view y dq' ys -∗
  (∀ z zs, ⌜digits zs ∧ value zs = (value xs * value ys)%Z ∧
     (xs ≠ [] → ys ≠ [] → normalized xs → normalized ys → normalized zs)⌝ -∗
     owned z zs -∗ view x dq xs -∗ view y dq' ys -∗ Φ z) -∗
  wp (natMul x y) Φ.
Proof.
  iIntros (Hdx Hdy Hsmall) "Hx Hy HΦ".
  iAssert ⌜len x = Z.of_nat (length xs) ∧ len y = Z.of_nat (length ys)⌝%I as %[Hlx Hly].
  { iDestruct "Hx" as "[% _]". by iDestruct "Hy" as "[% _]". }
  rewrite /natMul /=. destruct (Z.ltb_spec (len x) (len y)) as [Hlt|Hge].
  - iApply (wp_natMul_ge with "Hy Hx"); [done..|lia|lia|].
    iIntros (z zs (Hd & Hv & Hn)) "Hz Hy Hx". iApply ("HΦ" with "[%] Hz Hx Hy").
    split; [done|]. split; [lia|]. intros ? ? Hnx Hny. case_decide as Hc; [|done].
    destruct Hc as [ | ->]; [done|]. by destruct Hnx.
  - iApply (wp_natMul_ge with "Hx Hy"); [done..|lia|lia|].
    iIntros (z zs (Hd & Hv & Hn)) "Hz Hx Hy". iApply ("HΦ" with "[%] Hz Hx Hy").
    split; [done|]. split; [lia|]. intros ? ? Hnx Hny. case_decide as Hc; [|done].
    destruct Hc as [ | ->]; [done|]. by destruct Hny.
Qed.
End specs.

(** ** Properties *)

(** When the shorter operand has fewer than 40 digits, [natMul] returns the
    exact product in a new array and changes nothing that was live; the result
    is normalized when the operands are non-empty and normalized. *)
Theorem natMul_correct `{T : Target} (m : mem) (x y : nat_t) (xs ys : list Z) :
  mem_wf m -> mem_room m -> holds m x xs -> holds m y ys -> digits xs -> digits ys ->
  Z.of_nat (Nat.min (length xs) (length ys)) < karatsubaThreshold ->
  exists z m' zs, natMul x y m = OK (z, m') /\ holds m' z zs /\ digits zs /\
    value zs = value xs * value ys /\
    (xs <> [] -> ys <> [] -> normalized xs -> normalized ys -> normalized zs) /\
    mem_extends m m'.
Proof.
  intros Hwf Hroom Hx Hy Hdx Hdy Hs.
  destruct (ro_adequacy m (natMul x y) (λ z m', ∃ zs, holds m' z zs ∧ digits zs ∧
    value zs = (value xs * value ys)%Z ∧
    (xs ≠ [] → ys ≠ [] → normalized xs → normalized ys → normalized zs)))
    as (z & m' & Hrun & (zs & ? & ? & ? & ?) & Hext); [done..| |by exists z, m', zs].
  iIntros (Σ HG) "#Hro". iDestruct (mem_ro_view m x xs with "Hro") as "Hx"; [done|].
  iDestruct (mem_ro_view m y ys with "Hro") as "Hy"; [done|].
  iApply (wp_natMul with "Hx Hy"); [done..|].
  iIntros (z zs (Hd & Hv & Hn)) "Hz _ _". iIntros (m') "Hm".
  iDestruct (owned_view with "Hz") as "[Hz _]".
  iDestruct (interp_view with "Hm Hz") as %Hz. iPureIntro. by exists zs.
Qed.

Lemma natMul_correct_witness :
  let m := mem_of [[2 ^ 64 - 1; 7; 5]; [2 ^ 64 - 1; 1]] in
  exists z m' zs, natMul (T := target64) (whole 1 3) (whole 2 2) m = OK (z, m') /\
    holds m' z zs /\ digits (T := target64) zs /\
    value (T := target64) zs =
      value (T := target64) [2 ^ 64 - 1; 7; 5] * value (T := target64) [2 ^ 64 - 1; 1] /\
    ([2 ^ 64 - 1; 7; 5] <> [] -> [2 ^ 64 - 1; 1] <> [] ->
     normalized [2 ^ 64 - 1; 7; 5] -> normalized [2 ^ 64 - 1; 1] -> normalized zs) /\
    mem_extends m m'.
Proof.
  intros m. apply (natMul_correct (T := target64)).
  - by apply mem_wfb_wf; vm_compute.
  - by intros b.
  - by apply holdsb_holds; vm_compute.
  - by apply holdsb_holds; vm_compute.
  - repeat constructor; by vm_compute.
  - repeat constructor; by vm_compute.
  - by vm_compute.
Defined.

(** Above the threshold the product relies on [addAt], whose [addVW] copies
    past the end of the result: multiplying 90 words of ones by 87 words of
    ones leaves the array. *)
Theorem natMul_overflow :
  let m := mem_of [replicate 90 (2 ^ 64 - 1); replicate 87 (2 ^ 64 - 1)] in
  natMul (T := target64) (whole 1 90) (whole 2 87) m = Er OutOfBounds.
Proof. by vm_compute. Qed.
