(* ===== verification/NatSqrSpec.v ===== *)
(** * Squares: specifications of natmul.c's [basicSqr] and [natSqr]

    [basicSqr] squares the digits, sums the products of different digits once
    and doubles the sum with a shift.  [natSqr] below the Karatsuba threshold
    of squares (260 digits) returns the square. *)

From S2P Require Import Prelude Words Digits Carry Shift Memory Logic NatCore Loops NatAdd NatShift NatMul.
From iris.proofmode Require Import proofmode.
From iris.base_logic.lib Require Import own ghost_map.

Local Open Scope Z_scope.
Local Open Scope c_scope.

Section arith.
Context `{T : Target}.

(** One more digit of the number: the square grows by the square of the digit
    and by twice its product with the digits below. *)
Lemma sqr_step (v d k s c s' c' : Z) :
  (s + 2 * c = v * v)%Z -> s' = (s + k * k * (d * d))%Z -> c' = (c + k * (v * d))%Z ->
  (s' + 2 * c' = (v + k * d) * (v + k * d))%Z.
Proof. intros H -> ->. rewrite Z.mul_add_distr_l. nia. Qed.

(** The sum of the products, without its lowest digit 0, doubled *)
Lemma doubled_value (ts outs : list Z) (c : Z) :
  length outs = length ts ->
  (value outs + Bpow (length ts) * c = value ts * 2 ^ 1)%Z ->
  value (0 :: outs ++ [c]) = (2 * value (0%Z :: ts))%Z.
Proof. intros Hl Hv. rewrite !value_cons value_snoc Hl. lia. Qed.

End arith.

Section specs.
Context `{T : Target} `{!memGS Σ}.

(** After [k] digits, [k > 0]: the squares in [z], the products in [t] *)
Definition sqr_inv (z t x : nat_t) dq xs zs (k : nat) : iProp Σ :=
  ∃ sq ts, ⌜length sq = (2 * k)%nat ∧ length ts = (2 * k - 2)%nat ∧ digits sq ∧ digits ts ∧
      (value sq + 2 * value (0%Z :: ts) = value (take k xs) * value (take k xs))%Z⌝ ∗
    arr_opt (data z) (DfracOwn 1) (sq ++ drop (2 * k) zs) ∗
    arr_opt (data t) (DfracOwn 1) ((0 :: ts) ++ replicate (2 * length xs - (2 * k - 1)) 0) ∗
    view x dq xs.

(** The product of digit [k] with the digits below, added to [t] *)
Lemma wp_sqr_products t x dq xs (k : nat) (d : Z) ts m Φ :
  xs !! k = Some d → (0 < k)%nat → digits xs → digits ts → length ts = (2 * k - 1)%nat →
  arr_opt (data t) (DfracOwn 1) (ts ++ replicate (2 + m) 0) -∗ view x dq xs -∗
  (∀ ts', ⌜length ts' = (2 * k + 1)%nat ∧ digits ts' ∧ head ts' = head ts ∧
      value ts' = (value ts + Bpow k * (value (take k xs) * d))%Z⌝ -∗
     arr_opt (data t) (DfracOwn 1) (ts' ++ replicate m 0) -∗ view x dq xs -∗ Φ tt) -∗
  wp (let! ti := natPart t (Z.of_nat k) (2 * Z.of_nat k) in
      let! xi := natPart x 0 (Z.of_nat k) in
      let! c := addMulVVW ti xi d in
      store (data t) (2 * Z.of_nat k) c) Φ.
Proof.
  iIntros (Hd Hk Hdx Hdt Hlt) "Ht [%Hlx Hx] HΦ". pose proof (lookup_lt_Some _ _ _ Hd) as Hkn.
  pose proof Base_gt0. iApply wp_bind. iApply wp_natPart; [lia|]. iApply wp_bind. iApply wp_natPart; [lia|]. iApply wp_bind.
  assert (length (take k ts) = k) as Hl1 by (rewrite length_take; lia).
  assert (length (drop k ts) = k - 1)%nat as Hl2 by (rewrite length_drop; lia).
  assert (ts ++ replicate (2 + m) 0 = take k ts ++ (drop k ts ++ [0]) ++ 0 :: replicate m 0) as Hsplit.
  { rewrite -app_assoc (assoc_L app (take k ts)) take_drop. done. }
  rewrite Hsplit arr_opt_app arr_opt_app Hl1. iDestruct "Ht" as "(H1 & H2 & H3)".
  iDestruct (arr_opt_take_drop (data x) dq k xs with "Hx") as "[Hx1 Hx2]"; [lia|].
  assert (length (drop k ts ++ [0]) = k) as Hl3 by (rewrite length_app /=; lia).
  iApply (wp_addMulVVW (slice t k (2 * k)) (drop k ts ++ [0]) (slice x 0 k) dq (take k xs) d
    with "[H2] [Hx1]"); simpl.
  { lia. } { rewrite length_take. lia. } { apply digits_snoc; [by apply digits_drop|lia]. }
  { by apply digits_take. } { exact (digits_lookup _ _ _ Hdx Hd). }
  { done. }
  { rewrite /view /= ptr_add_0. iFrame. rewrite length_take. iPureIntro. lia. }
  iIntros (outs c (Hlo & Hdo & Hc & Hv)) "H2 [_ Hx1]". rewrite /= ptr_add_0.
  iAssert (arr_opt (data t) (DfracOwn 1) ((take k ts ++ outs) ++ 0 :: replicate m 0)) with "[H1 H2 H3]" as "Ht".
  { rewrite -app_assoc arr_opt_app arr_opt_app Hl1 Hlo. iFrame. }
  assert (length (take k ts ++ outs) = 2 * k)%nat as Hl by (rewrite length_app; lia).
  iApply (wp_store_opt with "Ht"); [rewrite length_app /= Hl; lia|]. iIntros "Ht".
  rewrite insert_app_r_alt; [|lia]. replace (Z.to_nat (2 * k) - length (take k ts ++ outs))%nat with O by lia.
  simpl. iApply ("HΦ" $! ((take k ts ++ outs) ++ [c]) with "[%] [Ht]").
  - split; [rewrite length_app Hl /=; lia|].
    split; [apply digits_snoc; [apply digits_app; split; [by apply digits_take|done]|done]|].
    split; [destruct ts, k; simpl in *; lia || done|].
    rewrite Hl3 value_snoc Z.mul_0_r Z.add_0_r in Hv.
    rewrite value_snoc Hl value_app Hl1 (value_take_drop k ts); [|lia].
    replace (2 * k)%nat with (k + k)%nat by lia. rewrite Bpow_add. nia.
  - by rewrite -(app_assoc _ [c]).
  - iSplit; [done|]. iApply (arr_opt_take_drop (data x) dq k xs); [lia|]. iFrame.
Qed.

Lemma wp_sqr_round z t x dq xs zs (k : nat) :
  (0 < k < length xs)%nat → length zs = (2 * length xs)%nat → digits xs →
  sqr_inv z t x dq xs zs k ⊢
  wp (let! d := load (data x) (Z.of_nat k) in
      let '(lo, hi) := mulWW d d in
      store (data z) (2 * Z.of_nat k + 1) hi ;!
      store (data z) (2 * Z.of_nat k) lo ;!
      let! ti := natPart t (Z.of_nat k) (2 * Z.of_nat k) in
      let! xi := natPart x 0 (Z.of_nat k) in
      let! c := addMulVVW ti xi d in
      store (data t) (2 * Z.of_nat k) c) (λ _, sqr_inv z t x dq xs zs (S k)).
Proof.
  iIntros (Hk Hlz Hdx) "(%sq & %ts & (%Hls & %Hlt & %Hds & %Hdt & %Hv) & Hz & Ht & [%Hlx Hx])".
  destruct (lookup_lt_is_Some_2 xs k) as [d Hd]; [lia|]. pose proof (digits_lookup _ _ _ Hdx Hd) as Hdr.
  iApply wp_bind. iApply (wp_load_opt _ _ _ _ d with "Hx"); [lia|by rewrite Nat2Z.id|]. iIntros "Hx".
  destruct (UIntMul_spec d d) as (lo & hi & Hmul & Hlo & Hhi & Hsq); [done..|]. rewrite /mulWW Hmul.
  destruct (lookup_lt_is_Some_2 zs (2 * k)) as [z0 Hz0]; [lia|].
  destruct (lookup_lt_is_Some_2 zs (S (2 * k))) as [z1 Hz1]; [lia|].
  rewrite (drop_S zs z0 _ Hz0) (drop_S zs z1 _ Hz1).
  iApply wp_bind. iApply (wp_store_opt with "Hz"); [rewrite length_app Hls /=; lia|]. iIntros "Hz".
  iApply wp_bind. iApply (wp_store_opt with "Hz"); [rewrite length_insert length_app Hls /=; lia|]. iIntros "Hz".
  rewrite !insert_app_r_alt; [|lia..]. replace (Z.to_nat (2 * k + 1) - length sq)%nat with 1%nat by lia.
  replace (Z.to_nat (2 * k) - length sq)%nat with O by lia. cbn [insert list_insert].
  replace (2 * length xs - (2 * k - 1))%nat with (2 + (2 * length xs - (2 * S k - 1)))%nat by lia.
  iApply (wp_sqr_products t x dq xs k d (0%Z :: ts) with "Ht [$Hx //]"); [done|lia|done| |simpl; lia|].
  { apply digits_cons. split; [pose proof Base_gt0; lia|done]. }
  iIntros (ts' (Hlt' & Hdt' & Hhd & Hvt)) "Ht Hx". destruct ts' as [|h ts']; [simpl in *; lia|].
  simpl in Hhd. simplify_eq. iExists (sq ++ [lo; hi]), ts'. rewrite -(app_assoc sq) /=.
  replace (S (S (k + (k + 0)))) with (2 * S k)%nat by lia. iFrame "Hz Ht Hx". iPureIntro.
  apply digits_cons in Hdt' as [_ Hdt']. simpl in Hlt'.
  split; [rewrite length_app /=; lia|]. split; [lia|]. split; [|split; [done|]].
  { rewrite digits_app !digits_cons. by split_and!; (lia || done || apply digits_nil). }
  rewrite (value_take_S xs k d Hd). apply (sqr_step _ d _ _ _ _ _ Hv); [|exact Hvt].
  rewrite value_app Hls !value_cons value_nil -Hsq. replace (2 * k)%nat with (k + k)%nat by lia.
  rewrite Bpow_add. lia.
Qed.

Lemma wp_basicSqr z zs x dq xs Φ :
  len z = Z.of_nat (length zs) → length zs = (2 * length xs)%nat → xs ≠ [] → digits xs →
  arr_opt (data z) (DfracOwn 1) zs -∗ view x dq xs -∗
  (∀ outs, ⌜length outs = length zs ∧ digits outs ∧ value outs = (value xs * value xs)%Z⌝ -∗
     arr_opt (data z) (DfracOwn 1) outs -∗ view x dq xs -∗ Φ z) -∗
  wp (basicSqr z x) Φ.
Proof.
  iIntros (Hlz Hlen Hne Hdx) "Hz [%Hlx Hx] HΦ". rewrite /basicSqr. set (n := length xs) in *.
  destruct xs as [|d xs']; [done|]. assert (n = S (length xs')) as Hn by done. set (xs := d :: xs') in *.
  pose proof Hdx as [Hdr _]%digits_cons. pose proof Base_gt0.
  iApply wp_bind. iApply wp_natNewLen; [lia|]. iIntros (t [Hlt Hct]) "Ht".
  iDestruct (block_of_arr with "Ht") as "[Ht Hclt]". rewrite length_replicate.
  iApply wp_bind. iApply (wp_load_opt _ _ _ _ d with "Hx"); [done|done|]. iIntros "Hx".
  destruct (UIntMul_spec d d) as (lo & hi & Hmul & Hlo & Hhi & Hsq); [done..|]. rewrite /mulWW Hmul.
  iApply wp_bind. iApply (wp_store_opt with "Hz"); [lia|]. iIntros "Hz".
  iApply wp_bind. iApply (wp_store_opt with "Hz"); [rewrite length_insert; lia|]. iIntros "Hz".
  destruct zs as [|z0 [|z1 zs']]; [simpl in *; lia..|]. simpl.
  iApply wp_bind. iApply (wp_for_up (λ j _, sqr_inv z t x dq xs (z0 :: z1 :: zs') (S j)) with "[Hz Hx Ht]").
  - iIntros (j [] Hj) "H". replace (1 + Z.of_nat j) with (Z.of_nat (S j)) by lia.
    iApply (wp_sqr_round with "H"); [lia|done|done].
  - iExists [lo; hi], []. simpl. rewrite drop_0. iFrame "Hz". iFrame "Hx".
    replace (Z.to_nat (2 * len x)) with (S (n + (n + 0) - 1)) by lia. iFrame "Ht". iPureIntro.
    split; [|done]. repeat (split; [done|]). split; [by rewrite !digits_cons; split_and!; (lia || done || apply digits_nil)|]. split; [constructor|].
    rewrite /= take_0 !value_cons !value_nil. lia.
  - iIntros ([]) "(%sq & %ts & (%Hls & %Hlts & %Hds & %Hdt & %Hv) & Hz & Ht & Hx)".
    replace (S (Z.to_nat (len x - 1))) with n in * by lia.
    rewrite (take_ge xs) // in Hv. rewrite drop_ge ?app_nil_r; [|simpl in *; lia].
    replace (2 * length xs - (2 * n - 1))%nat with 1%nat by lia. simpl.
    iApply wp_bind. iApply wp_natPart; [lia|]. iApply wp_bind.
    iDestruct (arr_opt_app _ _ [0] with "Ht") as "[Ht0 Ht]". iDestruct (arr_opt_app with "Ht") as "[Ht Ht1]".
    iApply (wp_shlVU_self (slice t 1 (2 * len x - 1)) ts 1 with "[Ht]"); [done|done| | |].
    { destruct UintSize_cases as [-> | ->]; lia. }
    { rewrite /view /=. iFrame. iPureIntro. lia. }
    iIntros (outs c (Hlo' & Hdo & Hc & Hvo)) "[_ Ht]". simpl.
    iAssert (arr_opt (data t) (DfracOwn 1) ((0 :: outs) ++ [0])) with "[Ht0 Ht Ht1]" as "Ht".
    { iApply (arr_opt_app _ _ [0]). iFrame "Ht0". rewrite arr_opt_app Hlo'. iFrame. }
    iApply wp_bind. iApply (wp_store_opt with "Ht"); [rewrite length_app /=; lia|]. iIntros "Ht".
    rewrite insert_app_r_alt; [|simpl; lia]. replace (Z.to_nat (2 * len x - 1) - length (0%Z :: outs))%nat with O by (simpl; lia).
    set (ts' := (0%Z :: outs) ++ [c]).
    assert (digits ts') as Hdt'. { apply digits_snoc; [apply digits_cons; split; [lia|done]|]. change (2 ^ 1) with 2 in Hc. pose proof Base_pos. lia. }
    assert (length ts' = (2 * n)%nat) as Hlt2 by (rewrite /ts' length_app /=; lia).
    assert (len z = Z.of_nat (2 * n)) as Hlz2 by lia.
    assert (value ts' = 2 * value (0%Z :: ts))%Z as Hvt by (apply doubled_value; done).
    iApply wp_bind. iApply (wp_addVV (arr_opt (data t) (DfracOwn 1) ts') z z t sq sq ts' with "Hz Ht");
      [lia|lia|lia|lia|lia|done|done|apply reads_self|apply reads_arr|].
    iIntros (zs2 cc (Hl2 & Hd2 & Hcc & Hv2)) "Hz Ht". rewrite !take_ge in Hv2; [|lia..].
    iDestruct ("Hclt" $! ts' with "[%] Ht") as "Ht"; [lia|].
    iApply wp_bind. iApply (wp_natFree_block with "Ht"). iApply wp_ret.
    iApply ("HΦ" $! zs2 with "[%] Hz Hx"). split; [simpl in *; lia|]. split; [done|].
    pose proof (value_bound zs2 Hd2) as Hzb. pose proof (value_bound xs Hdx) as Hxb. fold n in Hxb.
    rewrite Hls in Hv2. replace (2 * n)%nat with (n + n)%nat in Hv2 by lia. rewrite Bpow_add in Hv2.
    assert (value xs * value xs < Bpow n * Bpow n)%Z by (apply Z.mul_lt_mono_nonneg; lia).
    assert (cc = 0 ∨ cc = 1) as [-> | ->]; lia.
Qed.
(** [natSqr] reads its operand twice: [Hdup] shares it. *)
Lemma wp_natSqr x dq dq' xs Φ :
  (view x dq xs ⊣⊢ view x dq' xs ∗ view x dq' xs) →
  digits xs → Z.of_nat (length xs) < karatsubaSqrThreshold →
  view x dq xs -∗
  (∀ z zs, ⌜digits zs ∧ normalized zs ∧ value zs = (value xs * value xs)%Z⌝ -∗
     owned z zs -∗ view x dq xs -∗ Φ z) -∗
  wp (natSqr x) Φ.
Proof.
  iIntros (Hdup Hdx Hsmall) "Hx HΦ". rewrite /natSqr. cbn [natSqr_fuel].
  iAssert ⌜len x = Z.of_nat (length xs)⌝%I as %Hlx; [by iDestruct "Hx" as "[% _]"|].
  assert (∀ z outs, len z = Z.of_nat (length outs) → cap z = len z → digits outs →
    value outs = (value xs * value xs)%Z →
    block_of z outs -∗ view x dq xs -∗ (∀ z zs, ⌜digits zs ∧ normalized zs ∧ value zs = (value xs * value xs)%Z⌝ -∗
     owned z zs -∗ view x dq xs -∗ Φ z) -∗ wp (natNorm z) Φ) as Hend.
  { iIntros (z outs Hl Hc Hd Hv) "Hz Hx HΦ". iApply (wp_natNorm_owned z outs with "[Hz]"); [by iApply owned_whole|].
    iIntros (z') "Hz _". iApply ("HΦ" with "[%] Hz Hx"). rewrite strip_value.
    split; [by apply strip_digits|]. split; [apply strip_normalized|done]. }
  destruct (Z.eqb_spec (len x) 0) as [H0|H0].
  { destruct xs; [|simpl in *; lia]. iApply wp_natNewLen; [done|]. iIntros (z [Hl Hc]) "Hz".
    iApply ("HΦ" $! z [] with "[%] [Hz] Hx"); [|iApply (owned_whole with "Hz"); [done|lia]].
    split; [apply digits_nil|]. split; [apply normalized_nil|done]. }
  destruct (Z.eqb_spec (len x) 1) as [H1|H1].
  { destruct xs as [|d [|]]; [done| |simpl in *; lia]. pose proof Hdx as [Hdr _]%digits_cons.
    iDestruct "Hx" as "[_ Hx]". iApply wp_bind. iApply (wp_load_opt _ _ _ _ d with "Hx"); [done|done|]. iIntros "Hx".
    iApply wp_bind. iApply wp_natNewLen; [done|]. iIntros (z [Hl Hc]) "Hz".
    destruct (UIntMul_spec d d) as (lo & hi & Hmul & Hlo & Hhi & Hsq); [done..|]. rewrite /mulWW Hmul.
    iDestruct (block_of_arr with "Hz") as "[Hz Hcl]".
    iApply wp_bind. iApply (wp_store_opt with "Hz"); [done|]. iIntros "Hz".
    iApply wp_bind. iApply (wp_store_opt with "Hz"); [done|]. iIntros "Hz". cbn [replicate insert list_insert Z.to_nat Pos.to_nat Pos.iter_op Nat.add].
    iDestruct ("Hcl" $! [lo; hi] with "[//] Hz") as "Hz".
    iApply (Hend z [lo; hi] with "Hz [$Hx //] HΦ"); [done|lia| |].
    - rewrite !digits_cons. split_and!; (lia || apply digits_nil).
    - rewrite !value_cons !value_nil. lia. }
  assert (xs ≠ []) as Hne by (intros ->; done).
  destruct (Z.ltb_spec (len x) basicSqrThreshold) as [Hb|Hb].
  - iApply wp_bind. iApply wp_natNewLen; [lia|]. iIntros (z [Hl Hc]) "Hz".
    iDestruct (block_of_arr with "Hz") as "[Hz Hcl]". rewrite length_replicate.
    iDestruct (Hdup with "Hx") as "[Hx Hx']". iApply wp_bind.
    iApply (wp_basicMul z (replicate (Z.to_nat (2 * len x)) 0) [] with "[Hz] Hx Hx'");
      [rewrite length_replicate; lia|done|done|by rewrite app_nil_r|].
    iIntros (outs (Hlo & Hdo & Hv)) "Hz Hx Hx'". rewrite app_nil_r length_replicate in Hlo *.
    iDestruct ("Hcl" with "[//] Hz") as "Hz".
    iApply (Hend z outs with "Hz [Hx Hx'] HΦ"); [lia|lia|done|done|]. iApply Hdup. iFrame.
  - rewrite (proj2 (Z.ltb_lt (len x) _)); [|lia].
    iApply wp_bind. iApply wp_natNewLen; [lia|]. iIntros (z [Hl Hc]) "Hz".
    iDestruct (block_of_arr with "Hz") as "[Hz Hcl]". rewrite length_replicate. iApply wp_bind.
    iApply (wp_basicSqr z (replicate (Z.to_nat (2 * len x)) 0) with "Hz Hx");
      [rewrite length_replicate; lia|rewrite length_replicate; lia|done|done|].
    iIntros (outs (Hlo & Hdo & Hv)) "Hz Hx". rewrite length_replicate in Hlo.
    iDestruct ("Hcl" with "[//] Hz") as "Hz".
    by iApply (Hend z outs with "Hz Hx HΦ"); [lia|lia|..].
Qed.
End specs.

(** ** Properties *)

(** Below 260 digits [natSqr] returns the square, normalized, in a new array
    and changes nothing that was live. *)
Theorem natSqr_correct `{T : Target} (m : mem) (x : nat_t) (xs : list Z) :
  mem_wf m -> mem_room m -> holds m x xs -> digits xs ->
  Z.of_nat (length xs) < karatsubaSqrThreshold ->
  exists z m' zs, natSqr x m = OK (z, m') /\ holds m' z zs /\ digits zs /\ normalized zs /\
    value zs = value xs * value xs /\ mem_extends m m'.
Proof.
  intros Hwf Hroom Hx Hdx Hs.
  destruct (ro_adequacy m (natSqr x) (λ z m', ∃ zs, holds m' z zs ∧ digits zs ∧ normalized zs ∧
    (value zs = value xs * value xs)%Z))
    as (z & m' & Hrun & (zs & ? & ? & ? & ?) & Hext); [done..| |by exists z, m', zs].
  iIntros (Σ HG) "#Hro". iDestruct (mem_ro_view m x xs with "Hro") as "Hx"; [done|].
  iApply (wp_natSqr x _ DfracDiscarded with "Hx"); [|done|done|].
  { apply: bi.persistent_sep_dup. }
  iIntros (z zs (Hd & Hn & Hv)) "Hz _". iIntros (m') "Hm".
  iDestruct (owned_view with "Hz") as "[Hz _]".
  iDestruct (interp_view with "Hm Hz") as %Hz. iPureIntro. by exists zs.
Qed.

Lemma natSqr_correct_witness :
  let m := mem_of [replicate 25 (2 ^ 64 - 1)] in
  exists z m' zs, natSqr (T := target64) (whole 1 25) m = OK (z, m') /\ holds m' z zs /\
    digits (T := target64) zs /\ normalized zs /\
    value (T := target64) zs =
      value (T := target64) (replicate 25 (2 ^ 64 - 1)) * value (T := target64) (replicate 25 (2 ^ 64 - 1)) /\
    mem_extends m m'.
Proof.
  intros m. apply (natSqr_correct (T := target64)).
  - by apply mem_wfb_wf; vm_compute.
  - by intros b.
  - by apply holdsb_holds; vm_compute.
  - repeat constructor; by vm_compute.
  - by vm_compute.
Defined.
