(* ===== verification/NatDiv.v ===== *)
(** * Division: [cmake/bigint/src/natdiv.c]

    Division by one word, schoolbook division ([natDivBasic], Knuth's algorithm
    D) and the recursive division above 100 digits. *)

From S2P Require Import Prelude Words Digits Carry Shift DivWord Memory Logic NatCore Loops NatAdd NatSub NatShift NatMul.
From iris.proofmode Require Import proofmode.
From iris.base_logic.lib Require Import own ghost_map.

Local Open Scope Z_scope.
Local Open Scope c_scope.

Section code.
Context `{T : Target}.

Definition divRecursiveThreshold : Z := 100.

(** The quotient words are stored in [z]; the result is the remainder. *)
Definition natDivWVW (z : nat_t) (xn : Z) (x : nat_t) (y : Z) : M Z :=
  if len x =? 1 then
    let! x0 := load (data x) 0 in
    let! (q, r) := lift (UIntDiv xn x0 y) in
    store (data z) 0 q ;!
    ret r
  else
    let! rec := lift (reciprocalWord y) in
    for_down (len z - 1) 0 xn (fun i r =>
      let! xi := load (data x) i in
      let! (q, r) := lift (divWW r xi y rec) in
      store (data z) i q ;!
      ret r).

(** [r] is the word the last parameter points to, [None] when it has not been
    set. *)
Definition natDivW (x : nat_t) (y : Z) (r : option Z) : M (nat_t * option Z) :=
  let m := len x in
  assert_ (negb (y =? 0)) ;!
  if y =? 1 then let! z := natDup x in ret (z, r)
  else if m =? 0 then let! z := natNew 0 in ret (z, r)
  else
    let! z := natNewLen m in
    let! r := natDivWVW z 0 x y in
    let! z := natNorm z in
    ret (z, Some r).

Definition greaterThan (x1 x2 y1 y2 : Z) : bool :=
  (y1 <? x1) || ((x1 =? y1) && (y2 <? x2)).

(** The correction of the quotient estimate.  [rhat] grows by at least half of
    the base, so the second round at the latest ends in the overflow test. *)
Fixpoint qhat_loop (fuel : nat) (qhat rhat x1 x2 vn1 vn2 ujn2 : Z) : res Z :=
  match fuel with
  | O => Er OutOfFuel
  | S fuel =>
      if greaterThan x1 x2 rhat ujn2 then
        let qhat := wrap UintSize (qhat - 1) in
        let preRhat := rhat in
        let rhat := wrap UintSize (rhat + vn1) in
        if rhat <? preRhat then OK qhat
        else
          let '(x2, x1) := mulWW qhat vn2 in
          qhat_loop fuel qhat rhat x1 x2 vn1 vn2 ujn2
      else OK qhat
  end.

Definition qhat_fuel : nat := 3.

(** The estimate of one quotient word in [natDivBasic] *)
Definition natDivBasic_qhat (u v : nat_t) (vn1 rec ujn j : Z) : M Z :=
  let n := len v in
  if negb (ujn =? vn1) then
    let! un1 := load (data u) (j + n - 1) in
    let! (qhat, rhat) := lift (divWW ujn un1 vn1 rec) in
    let! vn2 := load (data v) (n - 2) in
    let '(x2, x1) := mulWW qhat vn2 in
    let! ujn2 := load (data u) (j + n - 2) in
    lift (qhat_loop qhat_fuel qhat rhat x1 x2 vn1 vn2 ujn2)
  else ret word_max.

(** Multiply and subtract, and add back when the estimate was too large *)
Definition natDivBasic_sub (qhatv u v : nat_t) (qhat j : Z) : M Z :=
  let n := len v in
  let! qv := natPart qhatv 0 n in
  let! c := mulAddVWW qv v qhat 0 in
  store (data qhatv) n c ;!
  let! qn := load (data qhatv) n in
  let qhl := len qhatv in
  let qhl := if (len u <? j + qhl) && (qn =? 0) then qhl - 1 else qhl in
  let! u1 := natPart u j (j + qhl) in
  let! u2 := natPart u j (len u) in
  let! c := subVV u1 u2 qhatv in
  if negb (c =? 0) then
    let! u3 := natPart u j (j + n) in
    let! u4 := natPart u j (len u) in
    let! cc := addVV u3 u4 v in
    (if n <? qhl then
       let! uw := load (data u) (j + n) in
       store (data u) (j + n) (wrap UintSize (uw + cc))
     else ret tt) ;!
    ret (wrap UintSize (qhat - 1))
  else ret qhat.

Definition natDivBasic (q u v : nat_t) : M unit :=
  let n := len v in
  let m := len u - n in
  let! qhatv := natNewLen (n + 1) in
  let! vn1 := load (data v) (n - 1) in
  let! rec := lift (reciprocalWord vn1) in
  for_down m 0 tt (fun j _ =>
    let! ujn := (if j + n <? len u then load (data u) (j + n) else ret 0) in
    let! qhat := natDivBasic_qhat u v vn1 rec ujn j in
    let! qhat := natDivBasic_sub qhatv u v qhat j in
    if (j =? m) && (m =? len q) && (qhat =? 0) then ret tt
    else store (data q) j qhat) ;!
  let! _ := natFree qhatv in
  ret tt.

(** [temps] is the array of scratch slices of [natDivRecursive]; its current
    contents are threaded through. *)
Definition temps_get (temps : list nat_t) (i : Z) : M nat_t :=
  match temps !! Z.to_nat i with
  | Some t => ret t
  | None => fail OutOfBounds
  end.

(** The block of statements the two halves of [natDivRecursiveStep] share: the
    product of the estimate with the low digits of [v], at most two
    corrections, and the subtraction. *)
Definition subVW_rest (qhatv : nat_t) (s c : Z) : M unit :=
  if s <? len qhatv then
    let! a := natPart qhatv s (len qhatv) in
    let! b := natPart qhatv s (len qhatv) in
    let! _ := subVW a b c in
    ret tt
  else ret tt.

Definition correct_qhat (qhat qhatv u v : nat_t) (s : Z) : M unit :=
  let! _ := subVW qhat qhat 1 in
  let! a := natPart qhatv 0 s in
  let! b := natPart qhatv 0 s in
  let! v0 := natPart v 0 s in
  let! c := subVV a b v0 in
  subVW_rest qhatv s c ;!
  let! us := natPart u s (len u) in
  let! vs := natPart v s (len v) in
  addAt us vs 0.

Fixpoint natDivRecursiveStep (fuel : nat) (z u v : nat_t) (depth : Z) (tmp : nat_t)
    (temps : list nat_t) (tempsNum : Z) : M (list nat_t) :=
  match fuel with
  | O => fail OutOfFuel
  | S fuel =>
      let! u := natNorm u in
      let! v := natNorm v in
      if len u =? 0 then natClear z ;! ret temps
      else
        let n := len v in
        if n <? divRecursiveThreshold then natDivBasic z u v ;! ret temps
        else
          let m := len u - n in
          if m <? 0 then ret temps
          else
            let B := Z.quot n 2 in
            let! t := temps_get temps depth in
            let! t := (match data t with
                       | None => natNewLen n
                       | Some _ => natMake t (B + 1)
                       end) in
            let temps := <[Z.to_nat depth := t]> temps in
            let s := B - 1 in
            let! (temps, j) :=
              for_nat (Z.to_nat ((m - 1) / B)) (- B) m (temps, m) (fun j '(temps, _) =>
                let! uu := natPart u (j - B) (len u) in
                let! qhat := temps_get temps depth in
                natClear qhat ;!
                assert_ (depth + 1 <? tempsNum) ;!
                let! us := natPart uu s (B + n) in
                let! vs := natPart v s (len v) in
                let! temps := natDivRecursiveStep fuel qhat us vs (depth + 1) tmp temps tempsNum in
                let! qhat := natNorm qhat in
                let! v0 := natPart v 0 s in
                let! qhatv := natMul qhat v0 in
                let! _ := for_ret 2 0 tt (fun _ _ =>
                  let! un := natNorm uu in
                  let! c := natCmp qhatv un in
                  if c <=? 0 then ret (inr tt)
                  else correct_qhat qhat qhatv uu v s ;! ret (inl tt)) in
                let! un := natNorm uu in
                let! c := natCmp qhatv un in
                assert_ (c <=? 0) ;!
                let! a := natPart uu 0 (len qhatv) in
                let! b := natPart uu 0 (len qhatv) in
                let! c := subVV a b qhatv in
                (if 0 <? c then
                   let! a := natPart uu (len qhatv) (len uu) in
                   let! b := natPart uu (len qhatv) (len uu) in
                   let! _ := subVW a b c in
                   ret tt
                 else ret tt) ;!
                addAt z qhat (j - B) ;!
                let! _ := natFree qhatv in
                ret (temps, j - B)) in
            let! qhat := temps_get temps depth in
            natClear qhat ;!
            assert_ (depth + 1 <? tempsNum) ;!
            let! us := natPart u s (len u) in
            let! us := natNorm us in
            let! vs := natPart v s (len v) in
            let! temps := natDivRecursiveStep fuel qhat us vs (depth + 1) tmp temps tempsNum in
            let! qhat := natNorm qhat in
            let! v0 := natPart v 0 s in
            let! qhatv := natMul qhat v0 in
            for_up 0 2 tt (fun _ _ =>
              let! un := natNorm u in
              let! c := natCmp qhatv un in
              if 0 <? c then correct_qhat qhat qhatv u v s else ret tt) ;!
            let! un := natNorm u in
            let! c := natCmp qhatv un in
            assert_ (c <=? 0) ;!
            let! a := natPart u 0 (len qhatv) in
            let! b := natPart u 0 (len qhatv) in
            let! c := subVV a b qhatv in
            let! c := (if 0 <? c then
                         let! a := natPart u (len qhatv) (len u) in
                         let! b := natPart u (len qhatv) (len u) in
                         subVW a b c
                       else ret c) in
            assert_ (c <=? 0) ;!
            let! qn := natNorm qhat in
            addAt z qn 0 ;!
            let! _ := natFree qhatv in
            ret temps
  end.

(** The depth of the recursion is bounded by [recDepth], which the assertions
    on [depth] check. *)
Definition natDivRecursive (z u v : nat_t) : M unit :=
  let! l := lift (Len (len v)) in
  let recDepth := 2 * l in
  let! tmp := natNewLen (3 * len v) in
  let! ok := malloc_ok in
  if ok then
    natClear z ;!
    let! temps := natDivRecursiveStep (Z.to_nat recDepth) z u v 0 tmp
                    (replicate (Z.to_nat recDepth) nat_null) recDepth in
    for_up 0 recDepth tt (fun i _ =>
      let! t := temps_get temps i in
      let! _ := natFree t in
      ret tt) ;!
    let! _ := natFree tmp in
    ret tt
  else ret tt.

(** The result is the quotient and the remainder. *)
Definition natDivLarge (z u uIn vIn : nat_t) : M (nat_t * nat_t) :=
  let n := len vIn in
  let m := len uIn - n in
  let! vt := load (data vIn) (n - 1) in
  let! shift := lift (nlz vt) in
  let! v := natNewLen n in
  let! _ := shlVU v vIn shift in
  let! u := natMake u (len uIn + 1) in
  let! ul := natPart u 0 (len uIn) in
  let! c := shlVU ul uIn shift in
  store (data u) (len uIn) c ;!
  let! q := natMake z (m + 1) in
  (if n <? divRecursiveThreshold then natDivBasic q u v else natDivRecursive q u v) ;!
  let! q := natNorm q in
  let! _ := shrVU u u shift in
  let! r := natNorm u in
  let! _ := natFree v in
  ret (q, r).

Definition natDiv (z z2 u v : nat_t) : M (nat_t * nat_t) :=
  assert_ (0 <? len v) ;!
  let! c := natCmp u v in
  if c <? 0 then
    let! q := natPart z 0 0 in
    let! r := natSet z2 u in
    ret (q, r)
  else if len v =? 1 then
    let! v0 := load (data v) 0 in
    let! (q, r2) := natDivW u v0 None in
    let! r2 := defined r2 in
    let! r := natSetWord z2 r2 in
    ret (q, r)
  else natDivLarge z z2 u v.

Definition natRem (z u v : nat_t) : M nat_t :=
  let! qp := natNewLen 0 in
  let! (q, r) := natDiv qp z u v in
  ret r.

End code.
