(* ===== verification/DivArith.v ===== *)
(** * The arithmetic of schoolbook division

    Bounds of the quotient estimate of [natDivBasic]: the estimate from the
    leading digits is the quotient digit or one more, and its correction loop
    ends. *)

From S2P Require Import Prelude Words Digits Shift DivWord NatMul NatDiv.

Local Open Scope Z_scope.

(** ** Bounds of the estimate

    [u] and [v] are split after their leading digits: [u = u3 * p + ul] and
    [v = v2 * p + vl]. *)

Lemma qhat_not_small (p u3 ul v2 vl qh : Z) :
  0 < p -> 0 <= ul < p -> 0 <= vl -> 0 <= u3 -> 0 < v2 -> 0 <= qh -> u3 < (qh + 1) * v2 ->
  (u3 * p + ul) / (v2 * p + vl) <= qh.
Proof.
  intros Hp Hul Hvl Hu3 Hv2 Hqh Hlt. apply Z.lt_succ_r, Z.div_lt_upper_bound; [nia|].
  assert ((u3 + 1) * p <= (qh + 1) * v2 * p) by (apply Z.mul_le_mono_nonneg_r; lia).
  assert (0 <= vl * (qh + 1)) by (apply Z.mul_nonneg_nonneg; lia). lia.
Qed.

Lemma qhat_not_large (p u3 ul v2 vl qh b : Z) :
  0 < p -> 0 <= ul -> 0 <= vl < p -> 0 <= u3 -> 0 <= qh <= b -> b <= v2 -> 0 < v2 ->
  qh * v2 <= u3 -> qh <= (u3 * p + ul) / (v2 * p + vl) + 1.
Proof.
  intros Hp Hul Hvl Hu3 Hqh Hb Hv2 Hle.
  enough (qh - 1 <= (u3 * p + ul) / (v2 * p + vl)) by lia.
  apply Z.div_le_lower_bound; [nia|].
  destruct (Z.eq_dec qh 0) as [->|].
  { assert (0 <= u3 * p) by (apply Z.mul_nonneg_nonneg; lia).
    assert (0 <= v2 * p) by (apply Z.mul_nonneg_nonneg; lia). lia. }
  assert (vl * (qh - 1) <= p * (qh - 1)) by (apply Z.mul_le_mono_nonneg_r; lia).
  assert ((v2 * (qh - 1) + (qh - 1)) * p <= u3 * p) by (apply Z.mul_le_mono_nonneg_r; lia). lia.
Qed.

(** The estimate [b - 1] used when the leading digits agree *)
Lemma qhat_max (p b u1 ul v1 vl : Z) :
  0 < p -> 0 <= u1 -> 0 <= ul -> 0 <= vl < p -> b <= 2 * v1 -> 0 < v1 < b ->
  let u := (v1 * b + u1) * p + ul in let v := v1 * p + vl in
  u < v * b -> u / v <= b - 1 <= u / v + 1.
Proof.
  intros Hp Hu1 Hul Hvl Hb Hv1 u v Hlt. assert (0 < v) as Hv by (unfold v; nia).
  split; [apply Z.lt_succ_r, Z.div_lt_upper_bound; lia|].
  enough (b - 2 <= u / v) by lia. apply Z.div_le_lower_bound; [lia|]. unfold u, v.
  assert (vl * (b - 2) <= p * (b - 2)) by (apply Z.mul_le_mono_nonneg_r; lia).
  assert (0 <= u1 * p) by (apply Z.mul_nonneg_nonneg; lia).
  assert (b * p <= 2 * v1 * p) by (apply Z.mul_le_mono_nonneg_r; lia). lia.
Qed.

(** ** The correction loop *)

Section loop.
Context `{T : Target}.

Lemma greaterThan_iff x1 x2 y1 y2 : 0 <= x2 < Base -> 0 <= y2 < Base ->
  greaterThan x1 x2 y1 y2 = true <-> y1 * Base + y2 < x1 * Base + x2.
Proof.
  intros Hx Hy. unfold greaterThan. rewrite orb_true_iff, andb_true_iff.
  rewrite !Z.ltb_lt, Z.eqb_eq. split; [|intros; destruct (Z.lt_trichotomy x1 y1) as [|[|]]; nia].
  intros [|[-> ?]]; [|lia]. assert ((y1 + 1) * Base <= x1 * Base) by (apply Z.mul_le_mono_nonneg_r; lia). lia.
Qed.

Lemma qhat_loop_spec fuel qhat rhat x1 x2 vn1 vn2 u2 u :
  0 <= qhat < Base -> 0 <= rhat < Base -> 0 <= x2 < Base -> 0 < vn1 < Base -> 0 <= vn2 < Base ->
  0 <= u2 < Base -> qhat * vn1 + rhat = u -> x2 + Base * x1 = qhat * vn2 ->
  Base <= rhat + Z.of_nat fuel * vn1 ->
  exists qh, qhat_loop fuel qhat rhat x1 x2 vn1 vn2 u2 = OK qh /\ 0 <= qh <= qhat /\
    qh * (vn1 * Base + vn2) <= u * Base + u2 /\
    (qh = qhat \/ u * Base + u2 < (qh + 1) * (vn1 * Base + vn2)).
Proof.
  revert qhat rhat x1 x2. induction fuel as [|fuel IH];
    intros qhat rhat x1 x2 Hq Hr Hx2 Hv1 Hv2 Hu2 Hu Hx Hf; [lia|].
  cbn [qhat_loop]. destruct (greaterThan x1 x2 rhat u2) eqn:E.
  - apply greaterThan_iff in E; [|done..].
    assert (u * Base + u2 < qhat * (vn1 * Base + vn2)) as Hgt.
    { rewrite <- Hu. lia. }
    assert (qhat <> 0) as Hnz. { intros ->. nia. }
    rewrite (wrap_small _ (qhat - 1)) by (unfold word; fold Base; lia).
    destruct (Z.lt_ge_cases (rhat + vn1) Base) as [Hno|Hov].
    + rewrite wrap_small by (unfold word; fold Base; lia).
      rewrite (proj2 (Z.ltb_ge _ _)) by lia. unfold mulWW.
      destruct (UIntMul_spec (qhat - 1) vn2) as (l & h & -> & Hl & Hh & Hlh);
        [unfold word; fold Base; lia..|].
      destruct (IH (qhat - 1) (rhat + vn1) h l) as (qh & -> & Hqh & Hup & Hlow); try lia.
      exists qh. split; [done|]. split; [lia|]. split; [done|]. right.
      destruct Hlow as [->|]; [|done]. replace (qhat - 1 + 1) with qhat by lia. lia.
    + unfold wrap. change (2 ^ UintSize) with Base.
      rewrite (mod_sub_once (rhat + vn1)) by lia. rewrite (proj2 (Z.ltb_lt _ _)) by lia.
      exists (qhat - 1). split; [done|]. split; [lia|]. split.
      * assert (0 <= qhat - 1 <= Base - 1) as Hq1 by lia. assert (0 <= vn2 <= Base - 1) as Hv3 by lia.
        pose proof (mul_range_le _ _ _ _ Hq1 Hv3).
        assert (Base * Base <= (rhat + vn1) * Base) by (apply Z.mul_le_mono_nonneg_r; lia).
        rewrite <- Hu. lia.
      * right. replace (qhat - 1 + 1) with qhat by lia. lia.
  - exists qhat. split; [done|]. split; [lia|]. split; [|by left].
    apply not_true_iff_false in E. rewrite greaterThan_iff in E by done. rewrite <- Hu. lia.
Qed.

End loop.

(** ** The estimate on digit lists *)

Section lists.
Context `{T : Target}.

Lemma value_top2 xs n a b : length xs = n -> (2 <= n)%nat ->
  xs !! (n - 1)%nat = Some a -> xs !! (n - 2)%nat = Some b ->
  value xs = (a * Base + b) * Bpow (n - 2) + value (take (n - 2) xs).
Proof.
  intros Hl Hn Ha Hb. replace (value xs) with (value (take (S (S (n - 2))) xs))
    by (rewrite take_ge by lia; done).
  rewrite (value_take_S xs (S (n - 2)) a) by (rewrite <- Ha; f_equal; lia).
  rewrite (value_take_S xs (n - 2) b), Bpow_S by done. lia.
Qed.

Lemma knuth_estimate us vs n ujn u1 u2 v1 v2 :
  length us = n -> length vs = n -> (2 <= n)%nat -> digits us -> digits vs ->
  us !! (n - 1)%nat = Some u1 -> us !! (n - 2)%nat = Some u2 ->
  vs !! (n - 1)%nat = Some v1 -> vs !! (n - 2)%nat = Some v2 ->
  Base <= 2 * v1 -> 0 <= ujn ->
  value us + Bpow n * ujn < value vs * Base ->
  let q := (value us + Bpow n * ujn) / value vs in
  0 <= q < Base /\ ujn <= v1 /\
  (ujn = v1 -> q <= Base - 1 <= q + 1) /\
  (forall qh, 0 <= qh <= Base -> qh * (v1 * Base + v2) <= (ujn * Base + u1) * Base + u2 ->
     (ujn * Base + u1 < (qh + 1) * v1 \/
      (ujn * Base + u1) * Base + u2 < (qh + 1) * (v1 * Base + v2)) ->
     q <= qh <= q + 1).
Proof.
  intros Hlu Hlv Hn Hdu Hdv Hu1 Hu2 Hv1 Hv2 Hb Hujn Hlt q.
  pose proof (digits_lookup _ _ _ Hdu Hu1) as Bu1. pose proof (digits_lookup _ _ _ Hdu Hu2) as Bu2.
  pose proof (digits_lookup _ _ _ Hdv Hv1) as Bv1. pose proof (digits_lookup _ _ _ Hdv Hv2) as Bv2.
  pose proof (value_bound _ (digits_take (n - 2) us Hdu)) as Bul.
  pose proof (value_bound _ (digits_take (n - 2) vs Hdv)) as Bvl.
  rewrite length_take, Nat.min_l in Bul, Bvl by lia. pose proof (Bpow_gt0 (n - 2)) as HP.
  pose proof Base_gt0 as HB.
  assert (Bpow n = Base * Base * Bpow (n - 2)) as HBn.
  { replace n with (S (S (n - 2))) at 1 by lia. rewrite !Bpow_S. lia. }
  unfold q in *. clear q. rewrite HBn in *.
  rewrite (value_top2 us n u1 u2), (value_top2 vs n v1 v2) in * by done.
  set (P := Bpow (n - 2)) in *. set (ul := value (take (n - 2) us)) in *.
  set (vl := value (take (n - 2) vs)) in *. clearbody P ul vl.
  replace ((u1 * Base + u2) * P + ul + Base * Base * P * ujn)
    with (((ujn * Base + u1) * Base + u2) * P + ul) in * by lia.
  set (U3 := (ujn * Base + u1) * Base + u2) in *. set (V2 := v1 * Base + v2) in *.
  assert (0 <= ujn * Base) by (apply Z.mul_nonneg_nonneg; lia).
  assert (0 <= U3) as HU3 by (unfold U3; nia). assert (Base <= V2) as HV2 by (unfold V2; nia).
  assert (0 < V2 * P) as HV2P by (apply Z.mul_pos_pos; lia).
  assert (0 <= U3 * P) as HU3P by (apply Z.mul_nonneg_nonneg; lia).
  split; [split; [apply Z.div_pos; lia|apply Z.div_lt_upper_bound; lia]|].
  split; [|split].
  - apply Z.lt_succ_r. apply (Z.mul_lt_mono_pos_r (Base * Base * P)); [nia|].
    assert ((v2 + 1) * P <= Base * P) as H1 by (apply Z.mul_le_mono_nonneg_r; lia).
    assert (0 <= (u1 * Base + u2) * P) by nia.
    assert (((v2 + 1) * P) * Base <= (Base * P) * Base) by (apply Z.mul_le_mono_nonneg_r; lia).
    assert (vl * Base <= P * Base) by (apply Z.mul_le_mono_nonneg_r; lia).
    unfold U3, V2 in Hlt. lia.
  - intros ->.
    pose proof (qhat_max (P * Base) Base u1 (u2 * P + ul) v1 (v2 * P + vl)) as Hq. cbv zeta in Hq.
    replace ((v1 * Base + u1) * (P * Base) + (u2 * P + ul)) with (U3 * P + ul) in Hq by (unfold U3; lia).
    replace (v1 * (P * Base) + (v2 * P + vl)) with (V2 * P + vl) in Hq by (unfold V2; lia).
    assert ((v2 + 1) * P <= Base * P) by (apply Z.mul_le_mono_nonneg_r; lia).
    assert (0 <= v2 * P) by (apply Z.mul_nonneg_nonneg; lia).
    assert (0 <= u2 * P) by (apply Z.mul_nonneg_nonneg; lia).
    clear - Hq HP HB Bu1 Bul Bvl Bu2 Bv2 Bv1 Hb Hlt HV2P H H0 H1 H2.
    assert (0 < P * Base) by (apply Z.mul_pos_pos; lia). apply Hq; lia.
  - intros qh Hqh Hle Hor. split.
    + apply qhat_not_small; try lia. destruct Hor as [Hor|]; [|done]. unfold U3, V2.
      assert ((ujn * Base + u1 + 1) * Base <= (qh + 1) * v1 * Base) by (apply Z.mul_le_mono_nonneg_r; lia).
      assert (0 <= (qh + 1) * v2) by (apply Z.mul_nonneg_nonneg; lia). lia.
    + apply (qhat_not_large P U3 ul V2 vl qh Base); lia.
Qed.

End lists.
