(* ===== verification/NatDivSpec.v ===== *)
(** * Division: specifications and properties

    The correctness of division by one word and of schoolbook division, for
    the definitions of NatDiv. *)

From S2P Require Import Prelude Words Digits Carry Shift DivWord Memory Logic NatCore Loops NatAdd NatSub NatShift NatMul NatDiv DivArith.
From iris.proofmode Require Import proofmode.
From iris.base_logic.lib Require Import own ghost_map.

Local Open Scope Z_scope.
Local Open Scope c_scope.

Section word.
Context `{T : Target} `{!memGS Σ}.

Lemma divWW_step r x y : 0 <= r < y → y < Base → 0 <= x < Base →
  0 <= (r * Base + x) / y < Base ∧ 0 <= (r * Base + x) mod y < y ∧
  r * Base + x = (r * Base + x) / y * y + (r * Base + x) mod y.
Proof.
  intros Hr Hy Hx. assert (0 <= r * Base) by (apply Z.mul_nonneg_nonneg; lia).
  assert ((r + 1) * Base <= y * Base) by (apply Z.mul_le_mono_nonneg_r; lia).
  split; [split; [apply Z.div_pos; lia|apply Z.div_lt_upper_bound; lia]|].
  split; [apply Z.mod_pos_bound; lia|]. pose proof (Z.div_mod (r * Base + x) y ltac:(lia)). lia.
Qed.

Lemma wp_natDivWVW z x zs dq xs xn y Φ :
  len z = Z.of_nat (length zs) → length zs = length xs → xs ≠ [] → digits xs →
  0 <= xn < y → y < Base →
  arr_opt (data z) (DfracOwn 1) zs -∗ view x dq xs -∗
  (∀ outs r, ⌜length outs = length xs ∧ digits outs ∧ 0 <= r < y ∧
     (value outs * y + r = value xs + Bpow (length xs) * xn)%Z⌝ -∗
     arr_opt (data z) (DfracOwn 1) outs -∗ view x dq xs -∗ Φ r) -∗
  wp (natDivWVW z xn x y) Φ.
Proof.
  iIntros (Hlz Hlen Hne Hdx Hxn Hy) "Hz [%Hlx Hx] HΦ". rewrite /natDivWVW.
  destruct (Z.eqb_spec (len x) 1) as [H1|H1].
  - destruct xs as [|a [|]]; [done| |simpl in *; lia]. destruct zs as [|w [|]]; [done| |done].
    pose proof Hdx as [Ha _]%digits_cons. destruct (divWW_step xn a y) as (Hq & Hr & He); [done..|].
    iApply wp_bind. iApply (wp_load_opt _ _ _ _ a with "Hx"); [done|done|]. iIntros "Hx".
    iApply wp_bind. iApply wp_lift; [apply UIntDiv_eq; unfold word; fold Base; lia|].
    iApply wp_bind. iApply (wp_store_opt with "Hz"); [simpl; lia|]. iIntros "Hz". iApply wp_ret.
    iApply ("HΦ" with "[%] Hz [$Hx]"); [|done]. split; [done|].
    split; [apply digits_cons; split; [done|constructor]|]. split; [done|].
    cbn [length]. rewrite Bpow_S Bpow_0 !value_cons !value_nil. lia.
  - iApply wp_bind. iApply wp_lift; [apply reciprocalWord_eq; lia|].
    set (n := length xs) in *.
    iApply (wp_for_down (λ k r, ∃ qs, ⌜length qs = k ∧ digits qs ∧ 0 <= r < y ∧
        (value qs * y + r = value (drop (n - k) xs) + Bpow k * xn)%Z⌝ ∗
        arr_opt (data z) (DfracOwn 1) (take (n - k) zs ++ qs) ∗ arr_opt (data x) dq xs)%I
      with "[Hz Hx]").
    + iIntros (k r Hk) "(%qs & (%Hl & %Hd & %Hr & %Hv) & Hz & Hx)". set (i := (n - S k)%nat).
      replace (len z - 1 - Z.of_nat k) with (Z.of_nat i) by lia.
      destruct (lookup_lt_is_Some_2 xs i) as [a Ha]; [lia|].
      destruct (lookup_lt_is_Some_2 zs i) as [w Hw]; [lia|].
      pose proof (digits_lookup _ _ _ Hdx Ha). destruct (divWW_step r a y) as (Hq & Hr' & He); [done..|].
      iApply wp_bind. iApply (wp_load_opt _ _ _ _ a with "Hx"); [lia|by rewrite Nat2Z.id|]. iIntros "Hx".
      iApply wp_bind. iApply wp_lift; [apply divWW_spec; [done|done|done|apply reciprocalWord_eq; lia]|].
      iApply wp_bind. replace (n - k)%nat with (S i) by lia. rewrite (take_S_r zs i w) // -app_assoc.
      iApply (wp_store_opt with "Hz"); [rewrite length_app length_take /=; lia|]. iIntros "Hz".
      rewrite Nat2Z.id insert_app_r_alt length_take; [|lia]. rewrite Nat.min_l; [|lia].
      rewrite Nat.sub_diag /=. iApply wp_ret. iExists _. iFrame. iPureIntro. simpl.
      split; [lia|]. split; [by apply digits_cons|]. split; [done|].
      rewrite (drop_S xs a i Ha). replace (S i) with (n - k)%nat by lia. rewrite Bpow_S.

      rewrite !value_cons. lia.
    + iExists []. rewrite Nat.sub_0_r app_nil_r take_ge; [|lia]. iFrame. iPureIntro.
      rewrite drop_ge // Bpow_0 value_nil. split; [done|]. split; [constructor|]. split; [done|]. lia.
    + iIntros (r) "(%qs & (%Hl & %Hd & %Hr & %Hv) & Hz & Hx)".
      replace (Z.to_nat (len z - 1 - 0 + 1)) with n in * by lia.
      rewrite Nat.sub_diag drop_0 in Hv. rewrite Nat.sub_diag take_0 /=.
      iApply ("HΦ" $! qs with "[%] Hz [$Hx]"); [|done]. done.
Qed.
Lemma wp_natDivW x dq xs y r Φ :
  digits xs → xs ≠ [] → 1 < y < Base →
  view x dq xs -∗
  (∀ z zs, ⌜digits zs ∧ normalized zs ∧ value zs = (value xs / y)%Z⌝ -∗
     owned z zs -∗ view x dq xs -∗ Φ (z, Some (value xs mod y))) -∗
  wp (natDivW x y r) Φ.
Proof.
  iIntros (Hdx Hne Hy) "[%Hlx Hx] HΦ". rewrite /natDivW.
  assert (0 < length xs)%nat by (destruct xs; [done|simpl; lia]).
  iApply wp_bind. iApply wp_assert; [by rewrite (proj2 (Z.eqb_neq y 0)); [|lia]|].
  rewrite (proj2 (Z.eqb_neq y 1)); [|lia]. rewrite (proj2 (Z.eqb_neq (len x) 0)); [|lia].
  iApply wp_bind. iApply wp_natNewLen; [lia|]. iIntros (z [Hlz Hcz]) "Hz".
  iDestruct (block_of_arr with "Hz") as "[Hz Hcl]". iApply wp_bind.
  iApply (wp_natDivWVW z x (replicate (Z.to_nat (len x)) 0) dq xs with "Hz [$Hx]");
    rewrite ?length_replicate; [lia|lia|done|done|lia|lia|done|].
  iIntros (outs rr (Hlo & Hdo & Hr & Hv)) "Hz Hx".
  iDestruct ("Hcl" $! outs with "[%] Hz") as "Hz"; [rewrite ?length_replicate; lia|].
  iApply wp_bind. iApply (wp_natNorm_owned z outs with "[Hz]").
  { iApply (owned_whole with "Hz"); lia. }
  iIntros (z') "Hz _". iApply wp_ret.
  rewrite (mod_unique_range (value xs) y (value outs)); [|lia|lia].
  replace (value xs - value outs * y)%Z with rr by lia.
  iApply ("HΦ" with "[%] Hz Hx"). split; [by apply strip_digits|]. split; [apply strip_normalized|].
  rewrite strip_value. symmetry. apply div_unique_range; lia.
Qed.
End word.

(** ** Schoolbook division *)

Section basic.
Context `{T : Target} `{!memGS Σ}.

(** The divisor: at least two digits, the top bit of the last one set *)
Definition divisor_ok (vs : list Z) (vn1 vn2 : Z) : Prop :=
  digits vs ∧ (2 <= length vs)%nat ∧ vs !! (length vs - 1)%nat = Some vn1 ∧
  vs !! (length vs - 2)%nat = Some vn2 ∧ Base <= 2 * vn1.

Lemma divisor_pos vs vn1 vn2 : divisor_ok vs vn1 vn2 →
  Bpow (length vs - 1) <= value vs < Bpow (length vs).
Proof.
  intros (Hd & Hn & H1 & H2 & Hb). split; [|by apply value_bound].
  apply normalized_bound; [done| |by intros ->].
  rewrite /normalized last_lookup -Nat.sub_1_r H1. intros [= ->]. pose proof Base_gt0. lia.
Qed.

Lemma wp_natDivBasic_qhat u us v dq vs vn1 vn2 rec mid ujn (j : nat) Φ :
  divisor_ok vs vn1 vn2 → reciprocalWord vn1 = OK rec →
  length mid = length vs → digits mid → take (length vs) (drop j us) = mid →
  0 <= ujn → (value mid + Bpow (length vs) * ujn < value vs * Base)%Z →
  arr_opt (data u) (DfracOwn 1) us -∗ view v dq vs -∗
  (∀ qh, ⌜0 <= qh < Base ∧
      (value mid + Bpow (length vs) * ujn) / value vs <= qh <=
      (value mid + Bpow (length vs) * ujn) / value vs + 1⌝ -∗
     arr_opt (data u) (DfracOwn 1) us -∗ view v dq vs -∗ Φ qh) -∗
  wp (natDivBasic_qhat u v vn1 rec ujn (Z.of_nat j)) Φ.
Proof.
  iIntros (Hv Hrec Hlm Hdm Hmid Hujn Hlt) "Hu [%Hlv Hv] HΦ".
  pose proof Hv as (Hdv & Hn & Hv1 & Hv2 & Hb).
  pose proof (digits_lookup _ _ _ Hdv Hv1) as Bv1. pose proof (digits_lookup _ _ _ Hdv Hv2) as Bv2.
  set (n := length vs) in *.
  destruct (lookup_lt_is_Some_2 mid (n - 1)) as [u1 Hu1]; [lia|].
  destruct (lookup_lt_is_Some_2 mid (n - 2)) as [u2 Hu2]; [lia|].
  pose proof (digits_lookup _ _ _ Hdm Hu1) as Bu1. pose proof (digits_lookup _ _ _ Hdm Hu2) as Bu2.
  destruct (knuth_estimate mid vs n ujn u1 u2 vn1 vn2) as (Hq & Hle & Hmax & Hest); try done.
  set (U := (value mid + Bpow n * ujn)%Z) in *.
  assert (∀ k x, mid !! k = Some x → us !! (j + k)%nat = Some x) as Hus.
  { intros k x Hk. rewrite -Hmid lookup_take_Some lookup_drop in Hk. by destruct Hk. }
  rewrite /natDivBasic_qhat. destruct (Z.eqb_spec ujn vn1) as [->|Hne]; simpl.
  { iApply wp_ret. iApply ("HΦ" with "[%] Hu [$Hv]"); [|done]. rewrite /word_max.
    specialize (Hmax eq_refl). split; lia. }
  assert (0 <= ujn < vn1) as Hlt1 by lia.
  iApply wp_bind. iApply (wp_load_opt _ _ _ _ u1 with "Hu"); [lia| |].
  { rewrite -(Hus _ _ Hu1). f_equal. lia. }
  iIntros "Hu". iApply wp_bind. iApply wp_lift; [apply divWW_spec; [done|lia|done|done]|].
  set (q0 := (ujn * Base + u1) / vn1). set (r0 := (ujn * Base + u1) mod vn1).
  destruct (divWW_step ujn u1 vn1) as (Hq0 & Hr0 & He); [lia|lia|done|]. fold q0 r0 in Hq0, Hr0, He.
  iApply wp_bind. iApply (wp_load_opt _ _ _ _ vn2 with "Hv"); [lia| |].
  { rewrite -Hv2. f_equal. lia. }
  iIntros "Hv". rewrite /mulWW. destruct (UIntMul_spec q0 vn2) as (x2 & x1 & -> & Hx2 & Hx1 & Hx); [done..|].
  iApply wp_bind. iApply (wp_load_opt _ _ _ _ u2 with "Hu"); [lia| |].
  { rewrite -(Hus _ _ Hu2). f_equal. lia. }
  iIntros "Hu".
  destruct (qhat_loop_spec qhat_fuel q0 r0 x1 x2 vn1 vn2 u2 (ujn * Base + u1))
    as (qh & Hrun & Hqh & Hup & Hlow); [done|lia|done|lia|done|done|lia|done| |].
  { rewrite /qhat_fuel. lia. }
  iApply wp_lift; [exact Hrun|]. iApply ("HΦ" with "[%] Hu [$Hv]"); [|done].
  split; [lia|]. apply Hest; [lia|done|]. destruct Hlow as [-> |]; [left|by right]. lia.
Qed.

(** The words of a quotient digit's window after the multiplication and the
    subtraction: exact, or one [value vs] too small with a borrow *)
Lemma sub_window V mid qh q b outs w : 0 < V → digits outs → length outs = w → 0 <= b <= 1 →
  q = mid / V → q <= qh <= q + 1 →
  (value outs + -1 * (Bpow w * b) = mid + -1 * (V * qh))%Z →
  (b = 0 ∧ qh = q ∧ value outs = mid mod V) ∨
  (b = 1 ∧ qh = (q + 1)%Z ∧ (value outs + V = mid mod V + Bpow w)%Z).
Proof.
  intros HV Hd Hl Hb Hq Hqh He. pose proof (value_bound _ Hd) as Ho. rewrite Hl in Ho.
  pose proof (Z.div_mod mid V ltac:(lia)) as Hm. pose proof (Z.mod_pos_bound mid V HV) as Hr.
  rewrite -Hq in Hm. assert (qh = q ∨ qh = (q + 1)%Z) as [-> | ->] by lia.
  - left. assert (b = 0 ∨ b = 1) as [-> | ->] by lia; [split; [done|]; split; [done|]; lia|].
    exfalso. lia.
  - right. assert (b = 0 ∨ b = 1) as [-> | ->] by lia; [exfalso; lia|].
    split; [done|]. split; [done|]. lia.
Qed.

(** Adding the divisor back *)
Lemma wp_add_back u v outs dq vs (hi : list Z) r (n w j : nat) (a : Z) Φ :
  n = length vs → digits vs → digits outs → length outs = w → (w = n ∨ w = S n) →
  0 <= r < value vs → (value outs + value vs = r + Bpow w)%Z →
  len u = Z.of_nat (j + w + length hi) →
  arr_opt (ptr_add (data u) (Z.of_nat j)) (DfracOwn 1) outs -∗ view v dq vs -∗
  (∀ mid', ⌜length mid' = w ∧ digits mid' ∧ value mid' = r⌝ -∗
     arr_opt (ptr_add (data u) (Z.of_nat j)) (DfracOwn 1) mid' -∗ view v dq vs -∗ Φ a) -∗
  wp (let! u3 := natPart u (Z.of_nat j) (Z.of_nat j + Z.of_nat n) in
      let! u4 := natPart u (Z.of_nat j) (len u) in
      let! cc := addVV u3 u4 v in
      (if Z.of_nat n <? Z.of_nat w then
         let! uw := load (data u) (Z.of_nat j + Z.of_nat n) in
         store (data u) (Z.of_nat j + Z.of_nat n) (wrap UintSize (uw + cc))
       else ret tt) ;!
      ret a) Φ.
Proof.
  iIntros (Hn Hdv Hdo Hlo Hw Hr He Hlu) "Hu [%Hlv Hv] HΦ".
  iApply wp_bind. iApply wp_natPart; [lia|]. iApply wp_bind. iApply wp_natPart; [lia|].
  iApply wp_bind.
  iDestruct (arr_opt_take_drop _ _ n outs with "Hu") as "[Hlow Htop]"; [lia|].
  assert (length (take n outs) = n) as Hlt by (rewrite length_take; lia).
  iApply (wp_addVV (arr_opt (data v) dq vs) (slice u (Z.of_nat j) (Z.of_nat j + Z.of_nat n))
      (slice u (Z.of_nat j) (len u)) v (take n outs) (take n outs) vs with "Hlow Hv");
    try (rewrite ?Hlt /=; lia || done).
  { by apply digits_take. } { apply reads_self. } { apply reads_arr. }
  rewrite Hlt take_take Nat.min_id (take_ge vs); [|lia]. iIntros (outs3 cc (Hl3 & Hd3 & Hcc & Hv3)) "Hlow Hv".
  pose proof (value_bound _ Hd3) as B3. pose proof (value_bound _ Hdv) as Bv. rewrite Hl3 in B3. rewrite -Hn in Bv.
  destruct Hw as [-> | ->].
  - rewrite (proj2 (Z.ltb_ge _ _)); [|lia]. iApply wp_bind. iApply wp_ret. iApply wp_ret.
    rewrite take_ge in Hv3; [|lia].
    rewrite (drop_ge outs); [|lia].
    iApply ("HΦ" $! outs3 with "[%] Hlow [$Hv]"); [|done].
    split; [done|]. split; [done|]. assert (cc = 0 ∨ cc = 1) as [-> | ->] by lia; lia.
  - rewrite (proj2 (Z.ltb_lt _ _)); [|lia].
    destruct (lookup_lt_is_Some_2 outs n) as [t Ht]; [lia|].
    rewrite (drop_S outs t n Ht) drop_ge; [|lia]. rewrite ptr_add_add.
    pose proof (digits_lookup _ _ _ Hdo Ht) as Bt.
    assert (value outs = value (take n outs) + Bpow n * t)%Z as Hsplit.
    { rewrite -(value_take_S outs n t) // take_ge //. lia. }
    rewrite Bpow_S in He.
    assert (cc + t = Base)%Z as Hct.
    { assert ((cc + t - Base) * Bpow n = r - value outs3)%Z as Hz by lia.
      assert (-1 < cc + t - Base < 1)%Z; [|lia].
      split; apply (Z.mul_lt_mono_pos_r (Bpow n)); lia. }
    rewrite (load_shift_0 (data u)). iApply wp_bind. iApply wp_bind. iApply (wp_load_opt _ _ _ _ t with "Htop"); [done|done|]. iIntros "Htop".
    rewrite (store_shift_0 (data u)).
    iApply (wp_store_opt with "Htop"); [simpl; lia|]. iIntros "Htop". simpl.
    assert (wrap UintSize (t + cc) = 0) as ->.
    { rewrite /wrap. change (2 ^ UintSize) with Base. by rewrite Z.add_comm Hct Z.mod_same; [|lia]. }
    iApply wp_ret. iApply ("HΦ" $! (outs3 ++ [0]) with "[%] [Hlow Htop] [$Hv]"); [| |done].
    + rewrite length_app Hl3 value_snoc /=. split; [lia|].
      split; [apply digits_snoc; [done|lia]|]. lia.
    + rewrite arr_opt_app ptr_add_add Hl3. iFrame.
Qed.

Lemma wp_natDivBasic_sub qhatv u v qws lo mid hi dq vs vn1 vn2 qh (w : nat) j0 Φ :
  j0 = Z.of_nat (length lo) → divisor_ok vs vn1 vn2 → len qhatv = Z.of_nat (length vs + 1) → length qws = (length vs + 1)%nat →
  len u = Z.of_nat (length lo + length mid + length hi) → length mid = w → digits mid →
  (w = S (length vs) ∨ w = length vs ∧ hi = [] ∧ value mid < value vs) →
  0 <= qh < Base → value mid / value vs <= qh <= value mid / value vs + 1 →
  arr_opt (data qhatv) (DfracOwn 1) qws -∗ arr_opt (data u) (DfracOwn 1) (lo ++ mid ++ hi) -∗
  view v dq vs -∗
  (∀ qws' mid', ⌜length qws' = length qws ∧ length mid' = w ∧ digits mid' ∧
      value mid' = value mid mod value vs⌝ -∗
     arr_opt (data qhatv) (DfracOwn 1) qws' -∗
     arr_opt (data u) (DfracOwn 1) (lo ++ mid' ++ hi) -∗ view v dq vs -∗
     Φ (value mid / value vs)) -∗
  wp (natDivBasic_sub qhatv u v qh j0) Φ.
Proof.
  iIntros (-> Hv Hlq Hlqw Hlu Hlm Hdm Hw Hqh Hq) "Hq Hu [%Hlv Hv] HΦ".
  pose proof (divisor_pos _ _ _ Hv) as HVb. pose proof Hv as (Hdv & Hn & _ & _ & _).
  set (n := length vs) in *. set (j := length lo) in *. set (V := value vs) in *.
  pose proof (Bpow_gt0 (n - 1)) as HBn. rewrite /natDivBasic_sub Hlv.
  iApply wp_bind. iApply wp_natPart; [lia|]. iApply wp_bind.
  iDestruct (arr_opt_take_drop _ _ n qws with "Hq") as "[Hq1 Hq2]"; [lia|].
  assert (length (take n qws) = n) as Hlt by (rewrite length_take; lia).
  iApply (wp_mulAddVWW (arr_opt (data v) dq vs) (slice qhatv 0 (Z.of_nat n)) v (take n qws) vs qh 0
    with "[Hq1] Hv"); try (rewrite ?Hlt /=; lia || done).
  { apply reads_arr. } { by rewrite /= ptr_add_0. }
  iIntros (outs c (Hlo & Hdo & Hc & Hmul)) "Hq1 Hv". rewrite /= ptr_add_0. fold n V in Hlo, Hmul.
  destruct (lookup_lt_is_Some_2 qws n) as [q0 Hq0]; [lia|].
  rewrite (drop_S qws q0 n Hq0) drop_ge; [|lia].
  iApply wp_bind. rewrite (store_shift_0 (data qhatv)).
  iApply (wp_store_opt with "Hq2"); [simpl; lia|]. iIntros "Hq2". simpl.
  iApply wp_bind. rewrite (load_shift_0 (data qhatv)).
  iApply (wp_load_opt _ _ _ _ c with "Hq2"); [done|done|]. iIntros "Hq2".
  iAssert (arr_opt (data qhatv) (DfracOwn 1) (outs ++ [c])) with "[Hq1 Hq2]" as "Hq".
  { rewrite arr_opt_app Hlo. iFrame. }
  assert (digits (outs ++ [c])) as Hdq by (by apply digits_snoc).
  assert (value (outs ++ [c]) = V * qh)%Z as Hvq by (rewrite value_snoc Hlo; lia).
  assert (w = n → c = 0) as Hc0.
  { intros Hwn. destruct Hw as [|(_ & _ & Hlt2)]; [lia|].
    rewrite (Z.div_small (value mid)) in Hq; [|split; [by apply value_nonneg|done]].
    pose proof (value_nonneg _ Hdo). assert (V * qh <= V * 1)%Z by (apply Z.mul_le_mono_nonneg_l; lia).
    assert (c < 1); [|lia]. apply (Z.mul_lt_mono_pos_r (Bpow n)); [apply Bpow_gt0|lia]. }
  assert ((if (len u <? Z.of_nat j + len qhatv) && (c =? 0) then len qhatv - 1 else len qhatv) =
    Z.of_nat w) as ->.
  { rewrite Hlu Hlq. destruct Hw as [Hw|(Hw & -> & _)].
    - rewrite (proj2 (Z.ltb_ge _ _)) /=; lia.
    - rewrite (Hc0 Hw) (proj2 (Z.ltb_lt _ _)) /=; [lia|simpl; lia]. }
  iApply wp_bind. iApply wp_natPart; [lia|]. iApply wp_bind. iApply wp_natPart; [lia|].
  iDestruct (arr_opt_app with "Hu") as "[Hulo Hu]".
  iDestruct (arr_opt_app with "Hu") as "[Humid Huhi]". fold j. rewrite ptr_add_add.
  iApply wp_bind.
  iApply (wp_subVV (arr_opt (data qhatv) (DfracOwn 1) (outs ++ [c]))
    (slice u (Z.of_nat j) (Z.of_nat j + Z.of_nat w)) (slice u (Z.of_nat j) (len u)) qhatv
    mid mid (outs ++ [c]) with "Humid Hq"); try (rewrite ?length_app /=; lia || done).
  { apply reads_self. } { apply reads_arr. }
  rewrite take_ge // Hlm. iIntros (outs2 b (Hl2 & Hd2 & Hb & Hsub)) "Humid Hq". simpl.
  assert (value (take w (outs ++ [c])) = V * qh)%Z as Htake.
  { destruct Hw as [Hw|(Hw & _)]; [rewrite take_ge //; rewrite length_app /=; lia|].
    rewrite Hw -Hlo take_app_length -Hvq value_snoc (Hc0 Hw). lia. }
  rewrite Htake in Hsub.
  destruct (sub_window V (value mid) qh (value mid / V) b outs2 w) as [(-> & -> & Hv2)|(-> & -> & Hv2)];
    [lia|done|done|done|done|done|done| |].
  - simpl. iApply wp_ret. iApply ("HΦ" $! (outs ++ [c]) outs2 with "[%] Hq [Hulo Humid Huhi] [$Hv]");
      [split; [rewrite length_app /=; lia|done]| |done].
    rewrite !arr_opt_app ptr_add_add Hl2. fold j. rewrite ?Hlm. iFrame.
  - simpl. pose proof (Z.mod_pos_bound (value mid) V ltac:(lia)).
    iApply (wp_add_back u v outs2 dq vs hi (value mid mod V) n w j with "Humid [$Hv]"); try done.
    { lia. } { lia. }
    iIntros (mid' (Hlm' & Hdm' & Hvm')) "Humid Hv".
    replace (wrap UintSize (value mid / V + 1 - 1)) with (value mid / V).
    2:{ rewrite wrap_small; [lia|]. unfold word. fold Base.
        assert (0 <= value mid / V) by (apply Z.div_pos; [by apply value_nonneg|lia]). lia. }
    iApply ("HΦ" $! (outs ++ [c]) mid' with "[%] Hq [Hulo Humid Huhi] Hv"); [split; [rewrite length_app /=; lia|done]|].
    rewrite !arr_opt_app ptr_add_add Hlm'. fold j. rewrite ?Hlm. iFrame.
Qed.

(** The body of the loop *)
Definition div_round (qhatv q u v : nat_t) (vn1 rec m j : Z) : M unit :=
  let! ujn := (if j + len v <? len u then load (data u) (j + len v) else ret 0) in
  let! qhat := natDivBasic_qhat u v vn1 rec ujn j in
  let! qhat := natDivBasic_sub qhatv u v qhat j in
  if (j =? m) && (m =? len q) && (qhat =? 0) then ret tt
  else store (data q) j qhat.

(** After [k] rounds past the first: the window holds the remainder of the
    digits seen, [qhi] their quotient, and everything above is zero. *)
Definition div_inv (qhatv q u v : nat_t) dq vs (m : nat) (us : list Z) (k : nat) : iProp Σ :=
  ∃ lo mid qlo qhi qws,
    ⌜length lo = (m - k)%nat ∧ length mid = length vs ∧ length qlo = (m - k)%nat ∧ length qhi = k ∧
     length qws = (length vs + 1)%nat ∧ digits lo ∧ digits mid ∧ digits qhi ∧ value mid < value vs ∧
     value us = (value lo + Bpow (m - k) * (value mid + value vs * value qhi))%Z⌝ ∗
    arr_opt (data u) (DfracOwn 1) (lo ++ mid ++ replicate k 0) ∗
    arr_opt (data q) (DfracOwn 1) (qlo ++ qhi) ∗
    arr_opt (data qhatv) (DfracOwn 1) qws ∗ view v dq vs.

Lemma top_zero l n : digits l → length l = S n → value l < Bpow n → l = take n l ++ [0].
Proof.
  intros Hd Hl Hv. destruct (lookup_lt_is_Some_2 l n) as [t Ht]; [lia|].
  pose proof (digits_lookup _ _ _ Hd Ht) as Hb.
  pose proof (value_nonneg _ (digits_take n l Hd)).
  assert (value l = value (take n l) + Bpow n * t)%Z as He.
  { rewrite -(value_take_S l n t) // take_ge //. lia. }
  assert (t < 1) by (apply (Z.mul_lt_mono_pos_l (Bpow n)); [apply Bpow_gt0|lia]).
  assert (t = 0) as -> by lia. rewrite -(take_S_r l n 0) // take_ge //. lia.
Qed.

Lemma wp_div_round qhatv q u v dq vs vn1 vn2 rec (m : nat) us k :
  divisor_ok vs vn1 vn2 → reciprocalWord vn1 = OK rec → (k < m)%nat →
  len qhatv = Z.of_nat (length vs + 1) → len u = Z.of_nat (m + length vs) →
  div_inv qhatv q u v dq vs m us k ⊢
  wp (div_round qhatv q u v vn1 rec (Z.of_nat m) (Z.of_nat (m - S k)))
     (λ _, div_inv qhatv q u v dq vs m us (S k)).
Proof.
  iIntros (Hv Hrec Hk Hlq Hlu)
    "(%lo & %mid & %qlo & %qhi & %qws & (%Hlo & %Hlm & %Hlql & %Hlqh & %Hlqw & %Hdlo & %Hdm & %Hdq & %Hmid & %Hval) & Hu & Hq & Hw & [%Hlv Hv])".
  pose proof (divisor_pos _ _ _ Hv) as HVb. pose proof Hv as (Hdv & Hn & _ & _ & _).
  set (n := length vs) in *. set (V := value vs) in *. pose proof (Bpow_gt0 (n - 1)) as HBn.
  destruct lo as [|a lo _] using rev_ind; [simpl in *; lia|].
  destruct qlo as [|x qlo _] using rev_ind; [simpl in *; lia|].
  rewrite length_app /= in Hlo. rewrite length_app /= in Hlql. set (j := (m - S k)%nat) in *.
  assert (length lo = j) as Hloj by lia. assert (length qlo = j) as Hqlj by lia.
  apply digits_app in Hdlo as [Hdlo [Ha _]%digits_cons]. pose proof Base_gt0 as HB.
  rewrite -!app_assoc. change ([a] ++ mid ++ replicate k 0) with ((a :: mid) ++ replicate k 0).
  set (win := a :: mid). set (us' := lo ++ win ++ replicate k 0).
  assert (length win = S n) as Hlw by (simpl; lia).
  assert (digits win) as Hdw by (apply digits_cons; done).
  assert (value win = a + Base * value mid)%Z as Hvw by done.
  destruct (lookup_lt_is_Some_2 win n) as [ujn Hujn]; [lia|].
  pose proof (digits_lookup _ _ _ Hdw Hujn) as Bujn.
  assert (value win = value (take n win) + Bpow n * ujn)%Z as Hsplit.
  { rewrite -(value_take_S win n ujn) // take_ge //. lia. }
  assert (value win < V * Base)%Z as Hlt.
  { assert ((value mid + 1) * Base <= V * Base)%Z by (apply Z.mul_le_mono_nonneg_r; lia). lia. }
  rewrite /div_round Hlv (proj2 (Z.ltb_lt _ _)); [|lia]. iApply wp_bind.
  iApply (wp_load_opt _ _ _ _ ujn with "Hu"); [lia| |].
  { rewrite /us' lookup_app_r Hloj; [|lia]. rewrite lookup_app_l; [|lia].
    rewrite -Hujn. f_equal. lia. }
  iIntros "Hu". iApply wp_bind.
  iApply (wp_natDivBasic_qhat u us' v dq vs vn1 vn2 rec (take n win) ujn j with "Hu [$Hv]"); try done.
  { rewrite length_take. lia. } { by apply digits_take. }
  { rewrite /us' drop_app_length'; [|done]. rewrite take_app_le; [done|lia]. }
  { lia. } { by rewrite -Hsplit. }
  rewrite -Hsplit. iIntros (qh (Hqh & Hq)) "Hu Hv". iApply wp_bind.
  rewrite /us'.
  iApply (wp_natDivBasic_sub qhatv u v qws lo win (replicate k 0) dq vs vn1 vn2 qh (S n)
    with "Hw Hu Hv"); try done.
  { by rewrite Hloj. } { rewrite length_replicate Hlw Hloj. lia. } { by left. }
  iIntros (qws' win' (Hlqw' & Hlw' & Hdw' & Hvw')) "Hw Hu Hv".
  pose proof (Z.mod_pos_bound (value win) V ltac:(lia)) as Hr.
  rewrite (proj2 (Z.eqb_neq (Z.of_nat j) (Z.of_nat m))) /=; [|lia].
  iApply (wp_store_opt with "Hq"); [rewrite !length_app /=; lia|]. iIntros "Hq".
  rewrite insert_app_r_alt; [|lia]. replace (Z.to_nat (Z.of_nat j) - length qlo)%nat with O by lia.
  rewrite /= (top_zero win' n) //; [|rewrite Hvw'; fold V; lia].
  set (mid' := take n win'). assert (value mid' = value win mod V)%Z as Hvm'.
  { rewrite -Hvw' (top_zero win' n) //; [|rewrite Hvw'; fold V; lia].
    rewrite value_snoc -/mid'. lia. }
  iExists lo, mid', qlo, (value win / V :: qhi), qws'.
  rewrite -(app_assoc mid' [0]). change ([0] ++ replicate k 0) with (replicate (S k) 0).
  iFrame. iPureIntro. fold j. split; [done|].
  assert (0 <= value win / V < Base) as Hqr.
  { split; [apply Z.div_pos; [by apply value_nonneg|lia]|apply Z.div_lt_upper_bound; lia]. }
  split; [rewrite /mid' length_take; lia|]. split; [done|]. split; [simpl; lia|]. split; [lia|].
  split; [done|]. split; [by apply digits_take|]. split; [by apply digits_cons|].
  split; [fold V; lia|]. rewrite Hval value_cons value_snoc Hloj.
  replace (m - k)%nat with (S j) by lia. rewrite Bpow_S.
  pose proof (Z.div_mod (value win) V ltac:(lia)) as Hdm'. fold V. nia.
Qed.

(** The first round only looks at the top of [u], which is below [v]: nothing
    is written to [q]. *)
Lemma wp_div_round_first qhatv q u v dq vs vn1 vn2 rec (m : nat) us qs qws :
  divisor_ok vs vn1 vn2 → reciprocalWord vn1 = OK rec →
  len qhatv = Z.of_nat (length vs + 1) → length qws = (length vs + 1)%nat →
  length us = (m + length vs)%nat → len u = Z.of_nat (length us) → digits us →
  len q = Z.of_nat m → length qs = m → value (drop m us) < value vs →
  arr_opt (data qhatv) (DfracOwn 1) qws -∗ arr_opt (data u) (DfracOwn 1) us -∗
  arr_opt (data q) (DfracOwn 1) qs -∗ view v dq vs -∗
  wp (div_round qhatv q u v vn1 rec (Z.of_nat m) (Z.of_nat m))
     (λ _, div_inv qhatv q u v dq vs m us 0).
Proof.
  iIntros (Hv Hrec Hlq Hlqw Hlus Hlu Hdu Hlen Hlqs Htop) "Hw Hu Hq [%Hlv Hv]".
  pose proof (divisor_pos _ _ _ Hv) as HVb. pose proof Hv as (Hdv & Hn & _ & _ & _).
  set (n := length vs) in *. set (V := value vs) in *. pose proof (Bpow_gt0 (n - 1)) as HBn.
  set (lo := take m us). set (mid := drop m us) in *. pose proof Base_pos as HB.
  assert (length lo = m) as Hllo by (rewrite length_take; lia).
  assert (length mid = n) as Hlm by (rewrite length_drop; lia).
  assert (digits mid) as Hdm by (by apply digits_drop).
  pose proof (value_nonneg mid Hdm) as Hmid0.
  assert (us = lo ++ mid ++ []) as Hus by (rewrite app_nil_r take_drop; done).
  assert (value mid + Bpow n * 0 = value mid)%Z as Hv0 by lia.
  assert (value mid / V = 0)%Z as Hdiv0 by (apply Z.div_small; lia).
  rewrite /div_round Hlv (proj2 (Z.ltb_ge _ _)); [|lia].
  iApply wp_bind. iApply wp_ret. iApply wp_bind.
  iApply (wp_natDivBasic_qhat u us v dq vs vn1 vn2 rec mid 0 m with "Hu [$Hv]"); try done.
  { rewrite take_ge // length_drop. lia. } { rewrite Hv0. fold V. nia. }
  rewrite Hv0. iIntros (qh (Hqh & Hq)) "Hu Hv". iApply wp_bind. iEval (rewrite Hus) in "Hu".
  iApply (wp_natDivBasic_sub qhatv u v qws lo mid [] dq vs vn1 vn2 qh n with "Hw Hu Hv"); try done.
  { by rewrite Hllo. } { rewrite /= Hlm Hllo. lia. } { by right. }
  iIntros (qws' mid' (Hlqw' & Hlm' & Hdm' & Hvm')) "Hw Hu Hv". fold V. rewrite Hdiv0.
  rewrite Hlen !Z.eqb_refl /=. iApply wp_ret.
  iExists lo, mid', qs, [], qws'. rewrite /= !app_nil_r Nat.sub_0_r. iFrame. iPureIntro.
  rewrite Z.mod_small in Hvm'; [|fold V; lia].
  split; [done|]. split; [done|]. split; [done|]. split; [done|]. split; [lia|].
  split; [by apply digits_take|]. split; [done|]. split; [constructor|].
  split; [by rewrite Hvm'|]. rewrite {1}Hus app_nil_r value_app Hllo Hvm' value_nil. lia.
Qed.

(** [natDivBasic] leaves the quotient in [q] and the remainder in [u]. *)
Lemma wp_natDivBasic q u v dq vs vn1 vn2 (m : nat) us qs Φ :
  divisor_ok vs vn1 vn2 → length us = (m + length vs)%nat → len u = Z.of_nat (length us) →
  digits us → len q = Z.of_nat m → length qs = m → value (drop m us) < value vs →
  arr_opt (data u) (DfracOwn 1) us -∗ arr_opt (data q) (DfracOwn 1) qs -∗ view v dq vs -∗
  (∀ us' qs', ⌜length us' = length us ∧ digits us' ∧ value us' = value us mod value vs ∧
     length qs' = m ∧ digits qs' ∧ value qs' = value us / value vs⌝ -∗
     arr_opt (data u) (DfracOwn 1) us' -∗ arr_opt (data q) (DfracOwn 1) qs' -∗ view v dq vs -∗ Φ tt) -∗
  wp (natDivBasic q u v) Φ.
Proof.
  iIntros (Hv Hlus Hlu Hdu Hlen Hlqs Htop) "Hu Hq Hv HΦ".
  iAssert ⌜len v = Z.of_nat (length vs)⌝%I as %Hlv; [by iDestruct "Hv" as "[% _]"|].
  pose proof Hv as (Hdv & Hn & Hv1 & Hv2 & Hb). pose proof (digits_lookup _ _ _ Hdv Hv1) as Bv1.
  rewrite /natDivBasic. iApply wp_bind. iApply wp_natNewLen; [lia|]. iIntros (qhatv [Hlq _]) "Hw".
  iDestruct (block_of_arr with "Hw") as "[Hw Hcl]".
  iApply wp_bind. iDestruct "Hv" as "[_ Hv]".
  iApply (wp_load_opt _ _ _ _ vn1 with "Hv"); [lia|rewrite -Hv1; f_equal; lia|]. iIntros "Hv".
  pose proof Base_gt0. iApply wp_bind. iApply wp_lift; [apply reciprocalWord_eq; lia|].
  set (rec := (Base * Base - 1) / _ - Base).
  assert (reciprocalWord vn1 = OK rec) as Hrec by (apply reciprocalWord_eq; lia).
  replace (len u - len v) with (Z.of_nat m) by lia. iApply wp_bind.
  iApply (wp_for_down (λ k _, match k with
      | O => ∃ qws, ⌜length qws = (length vs + 1)%nat⌝ ∗ arr_opt (data qhatv) (DfracOwn 1) qws ∗
          arr_opt (data u) (DfracOwn 1) us ∗ arr_opt (data q) (DfracOwn 1) qs ∗ view v dq vs
      | S k => div_inv qhatv q u v dq vs m us k end)%I with "[Hw Hu Hq Hv]").
  - iIntros (k [] Hk) "H". change (wp _ _) with
      (wp (div_round qhatv q u v vn1 rec (Z.of_nat m) (Z.of_nat m - Z.of_nat k))
          (λ _, div_inv qhatv q u v dq vs m us k)).
    destruct k as [|k].
    + iDestruct "H" as (qws) "(%Hlqw & Hw & Hu & Hq & Hv)". rewrite Z.sub_0_r.
      iApply (wp_div_round_first with "Hw Hu Hq Hv"); try done. lia.
    + replace (Z.of_nat m - Z.of_nat (S k)) with (Z.of_nat (m - S k)) by lia.
      iApply (wp_div_round with "H"); try done; lia.
  - iExists _. iFrame. rewrite length_replicate. iPureIntro. split; [lia|done].
  - iIntros ([]). replace (Z.to_nat (Z.of_nat m - 0 + 1)) with (S m) by lia.
    iIntros "(%lo & %mid & %qlo & %qhi & %qws & (%Hlo & %Hlm & %Hlql & %Hlqh & %Hlqw & %Hdlo & %Hdm & %Hdq & %Hmid & %Hval) & Hu & Hq & Hw & Hv)".
    rewrite Nat.sub_diag in Hlo Hlql Hval. destruct lo; [|done]. destruct qlo; [|done].
    iDestruct ("Hcl" $! qws with "[%] Hw") as "Hw"; [rewrite length_replicate; lia|].
    iApply wp_bind. iApply (wp_natFree_block with "Hw"). iApply wp_ret.
    rewrite Bpow_0 value_nil in Hval. pose proof (value_nonneg mid Hdm).
    iApply ("HΦ" $! (mid ++ replicate m 0) qhi with "[%] Hu Hq Hv").
    rewrite length_app length_replicate value_app value_replicate digits_app.
    rewrite (div_unique_range (value us) (value vs) (value qhi)); [|lia|lia].
    rewrite (mod_unique_range (value us) (value vs) (value qhi)); [|lia|lia].
    split; [lia|]. split; [split; [done|apply digits_replicate]|]. split; [lia|]. done.
Qed.

End basic.

(** ** [natDivLarge] and [natDiv] *)

Section large.
Context `{T : Target} `{!memGS Σ}.

(** The shifted divisor keeps its length and has its top bit set. *)
Lemma shifted_divisor vs vt s outs c : digits vs → (2 <= length vs)%nat →
  vs !! (length vs - 1)%nat = Some vt → 0 <= s → Base <= 2 * (vt * 2 ^ s) → vt * 2 ^ s < Base →
  s < UintSize → length outs = length vs → digits outs → 0 <= c →
  (value outs + Bpow (length vs) * c = value vs * 2 ^ s)%Z →
  c = 0 ∧ ∃ vn1 vn2, divisor_ok outs vn1 vn2.
Proof.
  intros Hd Hn Ht Hs Hb1 Hb2 Hsw Hl Ho Hc Hv. set (n := length vs) in *.
  pose proof (pow2_pos s Hs) as Hp. pose proof (Bpow_gt0 (n - 1)) as HB.
  assert (Bpow n = Base * Bpow (n - 1)) as HBn by (replace n with (S (n - 1)) at 1 by lia; apply Bpow_S).
  assert (value vs = value (take (n - 1) vs) + Bpow (n - 1) * vt)%Z as Hvs.
  { rewrite -(value_take_S vs (n - 1) vt) // take_ge //. lia. }
  pose proof (value_bound _ (digits_take (n - 1) vs Hd)) as Hlow.
  rewrite length_take Nat.min_l in Hlow; [|lia].
  assert ((vt + 1) * 2 ^ s <= Base) as Hvt.
  { rewrite /Base (pow2_split UintSize s) in Hb2 |- *; [|lia..].
    apply Z.mul_le_mono_pos_r; [done|]. assert (vt < 2 ^ (UintSize - s)); [|lia].
    apply (Z.mul_lt_mono_pos_r (2 ^ s)); lia. }
  assert (value vs < (vt + 1) * Bpow (n - 1))%Z as Hvlt by lia.
  assert (value vs * 2 ^ s < Bpow n)%Z as Hlt.
  { assert (value vs * 2 ^ s < ((vt + 1) * Bpow (n - 1)) * 2 ^ s)%Z by (apply Z.mul_lt_mono_pos_r; lia).
    assert (((vt + 1) * 2 ^ s) * Bpow (n - 1) <= Base * Bpow (n - 1))%Z by (apply Z.mul_le_mono_nonneg_r; lia).
    lia. }
  pose proof (value_nonneg _ Ho) as Ho0. assert (c = 0) as ->.
  { assert (c < 1); [|lia]. apply (Z.mul_lt_mono_pos_l (Bpow n)); [apply Bpow_gt0|lia]. }
  split; [done|].
  destruct (lookup_lt_is_Some_2 outs (n - 1)) as [vn1 H1]; [lia|].
  destruct (lookup_lt_is_Some_2 outs (n - 2)) as [vn2 H2]; [lia|].
  exists vn1, vn2. split; [done|]. rewrite Hl. split; [done|]. split; [done|]. split; [done|].
  assert (value outs = value (take (n - 1) outs) + Bpow (n - 1) * vn1)%Z as Hvo.
  { rewrite -(value_take_S outs (n - 1) vn1) // take_ge //. lia. }
  pose proof (value_bound _ (digits_take (n - 1) outs Ho)) as Hlow'.
  rewrite length_take Nat.min_l in Hlow'; [|lia].
  assert (vt * 2 ^ s < vn1 + 1)%Z; [|lia]. apply (Z.mul_lt_mono_pos_l (Bpow (n - 1))); [done|].
  assert (0 <= value (take (n - 1) vs) * 2 ^ s)%Z by (apply Z.mul_nonneg_nonneg; lia).
  rewrite Hvs in Hv. lia.
Qed.

(** The digits of the shifted dividend above the quotient are below the
    divisor. *)
Lemma shifted_dividend us vs s ws (m : nat) :
  digits us → digits vs → normalized vs → (2 <= length vs)%nat → 0 <= s →
  length us = (m + length vs)%nat → length ws = S (length us) → digits ws →
  value ws = (value us * 2 ^ s)%Z → value (drop (S m) ws) < value vs * 2 ^ s.
Proof.
  intros Hdu Hdv Hn Hlv Hs Hlu Hlw Hdw Hv. pose proof (pow2_pos s Hs) as Hp.
  pose proof (normalized_bound vs Hdv Hn ltac:(intros ->; simpl in *; lia)) as Hnb.
  pose proof (value_bound us Hdu) as Hub. pose proof (Bpow_gt0 (S m)) as HB.
  replace (length us) with (S m + (length vs - 1))%nat in Hub by lia. rewrite Bpow_add in Hub.
  rewrite (value_take_drop (S m) ws) in Hv; [|lia].
  pose proof (value_nonneg _ (digits_take (S m) ws Hdw)).
  apply (Z.mul_lt_mono_pos_l (Bpow (S m))); [done|].
  assert (value us * 2 ^ s < Bpow (S m) * Bpow (length vs - 1) * 2 ^ s)%Z by (apply Z.mul_lt_mono_pos_r; lia).
  assert (Bpow (length vs - 1) * (Bpow (S m) * 2 ^ s) <= value vs * (Bpow (S m) * 2 ^ s))%Z; [|lia].
  apply Z.mul_le_mono_nonneg_r; [|lia]. apply Z.mul_nonneg_nonneg; lia.
Qed.

(** A divisor is no longer than a dividend that is not smaller. *)
Lemma divisor_shorter us vs : digits us → digits vs → normalized vs →
  value vs <= value us → (length vs <= length us)%nat.
Proof.
  intros Hdu Hdv Hnv Hle. destruct (Nat.le_gt_cases (length vs) (length us)) as [|Hlt]; [done|].
  pose proof (value_lt_length us vs Hdu Hdv Hnv Hlt). lia.
Qed.

(** What a division returns *)
Definition quot_rem (us vs qs rs : list Z) : Prop :=
  digits qs ∧ normalized qs ∧ value qs = value us / value vs ∧
  digits rs ∧ normalized rs ∧ value rs = value us mod value vs.

(** The dividend is copied before the array of [z] is reused, so [z] may be the
    dividend itself: [Hcl] gives the array up, [R] is what is kept of [u]. *)
Lemma wp_natDivLarge R z z2 w2 u dq us v dq' vs Φ :
  digits us → digits vs → normalized vs → (2 <= length vs <= length us)%nat →
  Z.of_nat (length vs) < divRecursiveThreshold → cap z2 <= Z.of_nat (length w2) →
  block_of z2 w2 -∗ view u dq us -∗ view v dq' vs -∗
  (view u dq us -∗ ∃ wz, ⌜cap z <= Z.of_nat (length wz)⌝ ∗ block_of z wz ∗ R) -∗
  (∀ q r qs rs, ⌜quot_rem us vs qs rs⌝ -∗
     owned q qs -∗ owned r rs -∗ R -∗ view v dq' vs -∗ Φ (q, r)) -∗
  wp (natDivLarge z z2 u v) Φ.
Proof.
  iIntros (Hdu Hdv Hnv Hlen Hsmall Hcz2) "Hz2 [%Hlu Hu] [%Hlv Hv] Hcl HΦ".
  set (n := length vs) in *. set (m := (length us - n)%nat).
  rewrite /natDivLarge. destruct (lookup_lt_is_Some_2 vs (n - 1)) as [vt Hvt]; [lia|].
  pose proof (digits_lookup _ _ _ Hdv Hvt) as Bvt.
  assert (vt ≠ 0) as Hvt0.
  { intros ->. apply Hnv. rewrite last_lookup -Hvt. f_equal. lia. }
  destruct (nlz_eq vt) as (Hnlz & Hs & Hs2 & Hs3); [lia|]. set (s := UintSize - bitlen vt) in *.
  iApply wp_bind. iApply (wp_load_opt _ _ _ _ vt with "Hv"); [lia|rewrite -Hvt; f_equal; lia|]. iIntros "Hv".
  iApply wp_bind. iApply wp_lift; [exact Hnlz|].
  iApply wp_bind. iApply wp_natNewLen; [lia|]. iIntros (v' [Hlv' Hcv']) "Hv'".
  iDestruct (block_of_arr with "Hv'") as "[Hv' Hclv]". iApply wp_bind.
  iApply (wp_shlVU v' v (replicate (Z.to_nat (len v)) 0) dq' vs s with "Hv' [$Hv]");
    rewrite ?length_replicate; [lia|lia|lia|done|done|done|].
  iIntros (vs' cv (Hlvs' & Hdvs' & Hcv & Hvv)) "Hv' [_ Hv]". fold n in Hlvs', Hvv.
  destruct (shifted_divisor vs vt s vs' cv) as (-> & vn1 & vn2 & Hdok); try done; try lia.
  iApply wp_bind. iApply (wp_natMake with "Hz2"); [lia|done|]. iIntros (u' wu (Hlu' & Hcu' & Hcwu)) "Hu'".
  iDestruct (block_of_arr with "Hu'") as "[Hu' Hclu]".
  set (L := length us) in *.
  iDestruct (arr_opt_take_drop _ _ L wu with "Hu'") as "[Hul Huh]"; [lia|].
  destruct (lookup_lt_is_Some_2 wu L) as [w0 Hw0]; [lia|]. rewrite (drop_S wu w0 L Hw0).
  set (rest := drop (S L) wu).
  assert (length (take L wu) = L) as HlL by (rewrite length_take; lia).
  iApply wp_bind. iApply wp_natPart; [lia|]. iApply wp_bind.
  iApply (wp_shlVU (slice u' 0 (len u)) u (take L wu) dq us s with "[Hul] [$Hu]");
    [simpl; lia|simpl; lia|done|done|done|by rewrite /= ptr_add_0|done|].
  iIntros (outs c (Hlo & Hdo & Hc & Hvo)) "Hul [_ Hu]". rewrite /= ptr_add_0.
  iApply wp_bind. rewrite (store_shift_0 (data u')) Hlu.
  iApply (wp_store_opt with "Huh"); [simpl; lia|]. iIntros "Huh". simpl.
  set (ws := outs ++ [c]).
  iAssert (arr_opt (data u') (DfracOwn 1) (ws ++ rest)) with "[Hul Huh]" as "Hu'".
  { rewrite /ws -app_assoc arr_opt_app Hlo. iFrame. }
  assert (0 <= s <= UintSize) as Hs' by lia. assert (0 <= UintSize - s) as Hs'' by lia.
  pose proof (pow2_pos s (proj1 Hs)) as Hp. pose proof (pow2_split UintSize s Hs') as Hsp.
  pose proof (pow2_pos (UintSize - s) Hs'') as Hp'.
  assert (c < Base) as Hcb by (rewrite /Base Hsp; nia).
  assert (digits ws) as Hdws by (apply digits_snoc; [done|lia]).
  assert (length ws = S L) as Hlws by (rewrite length_app /=; lia).
  assert (value ws = value us * 2 ^ s)%Z as Hvws by (rewrite value_snoc Hlo -Hvo; lia).
  rewrite Z.mul_0_r Z.add_0_r in Hvv.
  iDestruct ("Hcl" with "[$Hu //]") as (wz Hcz) "[Hz HR]".
  iApply wp_bind. iApply (wp_natMake with "Hz"); [lia|done|]. iIntros (q wq (Hlq & Hcq & Hcwq)) "Hq".
  iDestruct (block_of_arr with "Hq") as "[Hq Hclq]".
  iDestruct (arr_opt_take_drop _ _ (S m) wq with "Hq") as "[Hq Hqr]"; [lia|].
  rewrite (proj2 (Z.ltb_lt (len v) _)); [|lia].
  iDestruct (arr_opt_app with "Hu'") as "[Hu' Hur]". rewrite Hlws. iApply wp_bind.
  iApply (wp_natDivBasic q u' v' (DfracOwn 1) vs' vn1 vn2 (S m) ws (take (S m) wq)
    with "Hu' Hq [Hv']").
  { done. } { lia. } { lia. } { done. } { lia. } { rewrite length_take. lia. }
  { rewrite Hvv. apply (shifted_dividend us); try done; lia. }
  { iFrame. iPureIntro. lia. }
  iIntros (us' qs (Hlus' & Hdus' & Hvus' & Hlqs & Hdqs & Hvqs)) "Hu' Hq Hv'".
  rewrite Hvws Hvv in Hvus' Hvqs. pose proof (divisor_pos _ _ _ Hdok) as Hvp.
  pose proof (Bpow_gt0 (length vs' - 1)). rewrite Hvv in Hvp.
  assert (0 < value vs) as HVpos by (apply (Z.mul_lt_mono_pos_r (2 ^ s)); lia).
  rewrite Z.div_mul_cancel_r in Hvqs; [|lia..]. rewrite Z.mul_mod_distr_r in Hvus'; [|lia..].
  iDestruct ("Hclq" $! (qs ++ drop (S m) wq) with "[%] [Hq Hqr]") as "Hq".
  { rewrite length_app length_drop. lia. }
  { rewrite arr_opt_app Hlqs. iFrame. }
  iApply wp_bind. iApply (wp_natNorm_owned q qs with "[Hq]").
  { iApply (block_of_owned with "Hq"); rewrite ?length_drop; lia. }
  iIntros (q') "Hq _". iApply wp_bind.
  iApply (wp_shrVU_self u' us' s with "[Hu']"); [lia|done|done|by iFrame; iPureIntro; lia|].
  iIntros (rs cs (Hlrs & Hdrs & Hvrs)) "[_ Hu']".
  rewrite {1}Hvus' Hvus' Z.mod_mul in Hvrs; [|lia].
  assert (value rs = value us mod value vs) as Hvr by nia.
  iDestruct ("Hclu" $! (rs ++ rest) with "[%] [Hu' Hur]") as "Hu'".
  { rewrite length_app /rest length_drop. lia. }
  { rewrite arr_opt_app. iFrame. by replace (length rs) with (S L) by lia. }
  iApply wp_bind. iApply (wp_natNorm_owned u' rs with "[Hu']").
  { iApply (block_of_owned with "Hu'"); rewrite /rest ?length_drop; lia. }
  iIntros (r') "Hr _". iApply wp_bind.
  iDestruct ("Hclv" $! vs' with "[%] [Hv']") as "Hv'".
  { rewrite ?length_replicate; lia. } { by iDestruct "Hv'" as "[_ $]". }
  iApply (wp_natFree_block with "Hv'"). iApply wp_ret.
  iApply ("HΦ" with "[%] Hq Hr HR [$Hv]"); [|done].
  rewrite /quot_rem !strip_value. split; [by apply strip_digits|]. split; [apply strip_normalized|].
  split; [done|]. split; [by apply strip_digits|]. split; [apply strip_normalized|]. done.
Qed.

Lemma wp_natDiv z wz z2 w2 u dq us v dq' vs Φ :
  digits us → digits vs → normalized us → normalized vs → vs ≠ [] →
  (vs = [1] → us = []) → Z.of_nat (length vs) < divRecursiveThreshold →
  0 <= cap z <= Z.of_nat (length wz) → 0 <= cap z2 <= Z.of_nat (length w2) →
  block_of z wz -∗ block_of z2 w2 -∗ view u dq us -∗ view v dq' vs -∗
  (∀ q r qs rs, ⌜quot_rem us vs qs rs⌝ -∗
     owned q qs -∗ owned r rs -∗ view u dq us -∗ view v dq' vs -∗ Φ (q, r)) -∗
  wp (natDiv z z2 u v) Φ.
Proof.
  iIntros (Hdu Hdv Hnu Hnv Hne H1 Hsmall Hcz Hcz2) "Hz Hz2 Hu Hv HΦ". rewrite /natDiv.
  iAssert ⌜len u = Z.of_nat (length us) ∧ len v = Z.of_nat (length vs)⌝%I as %[Hlu Hlv].
  { iDestruct "Hu" as "[% _]". by iDestruct "Hv" as "[% _]". }
  assert (0 < length vs)%nat as Hpos by (destruct vs; [done|simpl; lia]).
  assert (0 < value vs) as HVpos.
  { pose proof (normalized_bound vs Hdv Hnv Hne). pose proof (Bpow_gt0 (length vs - 1)). lia. }
  pose proof (value_nonneg us Hdu) as Hu0.
  iApply wp_bind. iApply wp_assert; [apply Z.ltb_lt; lia|].
  iApply wp_bind. iApply (wp_natCmp with "Hu Hv"); [done..|]. iIntros "Hu Hv".
  destruct (Z.lt_ge_cases (value us) (value vs)) as [Hlt|Hge].
  { rewrite cmpZ_lt //=. iApply wp_bind. iApply wp_natPart; [lia|]. iApply wp_bind.
    iApply (wp_natSet z2 w2 u dq us with "Hz2 Hu"); [lia|]. iIntros (r) "Hr Hu". iApply wp_ret.
    iApply ("HΦ" $! _ r [] us with "[%] [Hz] Hr Hu Hv").
    - rewrite /quot_rem Z.div_small; [|lia]. rewrite Z.mod_small; [|lia]. split; [constructor|done].
    - iApply (block_of_owned _ [] wz); [done|simpl; lia|]. by iApply block_of_slice. }
  rewrite (cmpZ_ge _ _ Hge).
  destruct (Z.eqb_spec (len v) 1) as [Hv1|Hv1].
  - destruct vs as [|y [|]]; [done| |simpl in *; lia]. pose proof Hdv as [By _]%digits_cons.
    assert (us ≠ []) as Hune. { intros ->. rewrite value_nil in Hge. lia. }
    assert (value [y] = y) as Hvy by (rewrite value_cons value_nil; lia).
    assert (y ≠ 1) as Hy1. { intros ->. by apply Hune, H1. }
    iDestruct "Hv" as "[_ Hv]". iApply wp_bind.
    iApply (wp_load_opt _ _ _ _ y with "Hv"); [done|done|]. iIntros "Hv".
    iApply wp_bind. iApply (wp_natDivW with "Hu"); [done|done|lia|].
    iIntros (q qs (Hdq & Hnq & Hvq)) "Hq Hu". iApply wp_bind. iApply wp_defined; [done|].
    iApply wp_bind. iApply (wp_natSetWord z2 w2 with "Hz2"); [lia|]. iIntros (r) "Hr". iApply wp_ret.
    pose proof (Z.mod_pos_bound (value us) y ltac:(lia)).
    iApply ("HΦ" with "[%] Hq Hr Hu [$Hv]"); [|done]. rewrite /quot_rem strip_value Hvy.
    split; [done|]. split; [done|]. split; [done|].
    split; [apply strip_digits, digits_cons; split; [lia|constructor]|].
    split; [apply strip_normalized|]. rewrite value_cons value_nil. lia.
  - pose proof (divisor_shorter us vs Hdu Hdv Hnv Hge).
    iApply (wp_natDivLarge (view u dq us) z z2 w2 u dq us v dq' vs with "Hz2 Hu Hv [Hz] [HΦ]"); [done..|lia|done|lia| |].
    + iIntros "Hu". iExists wz. iFrame. iPureIntro. lia.
    + iIntros (q r qs rs Hqr) "Hq Hr Hu Hv". by iApply ("HΦ" with "[//] Hq Hr Hu Hv").
Qed.

(** [q = natDiv(q, r, q, v, &r)]: the quotient replaces the dividend. *)
Lemma wp_natDiv_self z2 w2 u us v dq' vs Φ :
  digits us → digits vs → normalized us → normalized vs → (2 <= length vs)%nat →
  value vs <= value us → Z.of_nat (length vs) < divRecursiveThreshold →
  cap z2 <= Z.of_nat (length w2) →
  owned u us -∗ block_of z2 w2 -∗ view v dq' vs -∗
  (∀ q r qs rs, ⌜quot_rem us vs qs rs⌝ -∗
     owned q qs -∗ owned r rs -∗ view v dq' vs -∗ Φ (q, r)) -∗
  wp (natDiv u z2 u v) Φ.
Proof.
  iIntros (Hdu Hdv Hnu Hnv Hlen Hge Hsmall Hcz2) "Hu Hz2 Hv HΦ". rewrite /natDiv.
  iDestruct (owned_len with "Hu") as %Hlu. iDestruct (owned_view with "Hu") as "[Hu Hcl]".
  iAssert ⌜len v = Z.of_nat (length vs)⌝%I as %Hlv; [by iDestruct "Hv" as "[% _]"|].
  iApply wp_bind. iApply wp_assert; [apply Z.ltb_lt; lia|].
  iApply wp_bind. iApply (wp_natCmp with "Hu Hv"); [done..|]. iIntros "Hu Hv".
  rewrite (cmpZ_ge _ _ Hge) (proj2 (Z.eqb_neq (len v) 1)); [|lia].
  pose proof (divisor_shorter us vs Hdu Hdv Hnv Hge).
  iApply (wp_natDivLarge True u z2 w2 u _ us v dq' vs with "Hz2 Hu Hv [Hcl] [HΦ]"); [done..|lia|done|done| |].
  - iIntros "Hu". iDestruct ("Hcl" with "[//] Hu") as "Hu".
    iDestruct (owned_block with "Hu") as (ws Hc) "Hu". iExists ws. iFrame. iPureIntro. lia.
  - iIntros (q r qs rs Hqr) "Hq Hr _ Hv". by iApply ("HΦ" with "[//] Hq Hr Hv").
Qed.

(** Dividing by 1 uses a remainder that was never stored. *)
Lemma wpe_natDiv_one z z2 u dq us v dq' :
  digits us → normalized us → us ≠ [] →
  view u dq us -∗ view v dq' [1] -∗ wpe (natDiv z z2 u v) Uninit.
Proof.
  iIntros (Hdu Hnu Hne) "Hu Hv". rewrite /natDiv. pose proof Base_pos.
  iAssert ⌜len v = 1⌝%I as %Hlv; [by iDestruct "Hv" as "[% _]"|].
  assert (value [1] = 1) as Hv1 by (rewrite value_cons value_nil; lia).
  assert (0 < value us) as Hpos.
  { pose proof (normalized_bound us Hdu Hnu Hne). pose proof (Bpow_gt0 (length us - 1)). lia. }
  iApply wpe_bind. iApply wp_assert; [by rewrite Hlv|].
  iApply wpe_bind. iApply (wp_natCmp with "Hu Hv"); [done| |done|done|].
  { apply digits_cons. split; [lia|constructor]. }
  iIntros "Hu [_ Hv]".
  rewrite cmpZ_ge; [|lia]. rewrite Hlv /=. iApply wpe_bind. iApply (wp_load_opt _ _ _ _ 1 with "Hv"); [done|done|]. iIntros "Hv".
  iApply wpe_bind. rewrite /natDivW. iApply wp_bind. iApply wp_assert; [done|]. simpl.
  iApply wp_bind. iApply (wp_natDup with "Hu"). iIntros (q) "Hq Hu". iApply wp_ret.
  iApply wpe_bind_l. iApply wpe_defined.
Qed.

End large.

(** ** Properties *)

(** C5: for normalized operands with a divisor of fewer than 100 digits that is
    not the single digit 1, [natDiv] returns the Euclidean quotient and
    remainder, both normalized, in new arrays, and changes nothing that was
    live. *)
Theorem natDiv_correct `{T : Target} (m : mem) (u v : nat_t) (us vs : list Z) :
  mem_wf m -> mem_room m -> holds m u us -> holds m v vs -> digits us -> digits vs ->
  normalized us -> normalized vs -> vs <> [] -> vs <> [1] ->
  Z.of_nat (length vs) < divRecursiveThreshold ->
  exists q r m' qs rs, natDiv nat_null nat_null u v m = OK (q, r, m') /\
    holds m' q qs /\ holds m' r rs /\ digits qs /\ digits rs /\
    normalized qs /\ normalized rs /\
    value us = value qs * value vs + value rs /\ 0 <= value rs < value vs /\
    mem_extends m m'.
Proof.
  intros Hwf Hroom Hu Hv Hdu Hdv Hnu Hnv Hne H1 Hs.
  destruct (ro_adequacy m (natDiv nat_null nat_null u v) (λ qr m', ∃ qs rs,
    holds m' qr.1 qs ∧ holds m' qr.2 rs ∧ digits qs ∧ digits rs ∧ normalized qs ∧ normalized rs ∧
    value qs = (value us / value vs)%Z ∧ value rs = (value us mod value vs)%Z))
    as ([q r] & m' & Hrun & (qs & rs & Hq & Hr & Hdq & Hdr & Hnq & Hnr & Hvq & Hvr) & Hext); [done..| |].
  - iIntros (Σ HG) "#Hro". iDestruct (mem_ro_view m u us with "Hro") as "Hu"; [done|].
    iDestruct (mem_ro_view m v vs with "Hro") as "Hv"; [done|].
    iApply (wp_natDiv nat_null [] nat_null [] u _ us v _ vs with "[] [] Hu Hv"); try done.
    iIntros (q r qs rs (Hdq & Hnq & Hvq & Hdr & Hnr & Hvr)) "Hq Hr _ _". iIntros (m') "Hm".
    iDestruct (owned_view with "Hq") as "[Hq _]". iDestruct (owned_view with "Hr") as "[Hr _]".
    iDestruct (interp_view with "Hm Hq") as %?. iDestruct (interp_view with "Hm Hr") as %?.
    iPureIntro. by exists qs, rs.
  - pose proof (normalized_bound vs Hdv Hnv Hne). pose proof (Bpow_gt0 (length vs - 1)).
    assert (value vs <> 0) as Hnz by lia. assert (0 < value vs) as Hpos by lia.
    pose proof (Z.div_mod (value us) (value vs) Hnz).
    pose proof (Z.mod_pos_bound (value us) (value vs) Hpos).
    exists q, r, m', qs, rs. rewrite Hvq Hvr.
    repeat (split; [done|]). split; [lia|]. split; [lia|done].
Qed.

Lemma natDiv_correct_witness :
  let m := mem_of [[3; 7; 2 ^ 64 - 1; 9]; [11; 2 ^ 63]] in
  exists q r m' qs rs, natDiv (T := target64) nat_null nat_null (whole 1 4) (whole 2 2) m = OK (q, r, m') /\
    holds m' q qs /\ holds m' r rs /\ digits (T := target64) qs /\ digits (T := target64) rs /\
    normalized qs /\ normalized rs /\
    value (T := target64) [3; 7; 2 ^ 64 - 1; 9] =
      value (T := target64) qs * value (T := target64) [11; 2 ^ 63] + value (T := target64) rs /\
    0 <= value (T := target64) rs < value (T := target64) [11; 2 ^ 63] /\ mem_extends m m'.
Proof.
  intros m. apply (natDiv_correct (T := target64)).
  - by apply mem_wfb_wf; vm_compute.
  - by intros b.
  - by apply holdsb_holds; vm_compute.
  - by apply holdsb_holds; vm_compute.
  - repeat constructor; by vm_compute.
  - repeat constructor; by vm_compute.
  - by vm_compute.
  - by vm_compute.
  - done.
  - done.
  - by vm_compute.
Defined.

(** Dividing any non-zero normalized number by 1 uses an indeterminate
    remainder: [natDivW] returns a copy for the divisor 1 without storing
    the remainder that [natDiv] then reads. *)
Theorem natDiv_by_one_uninit `{T : Target} (m : mem) (z z2 u v : nat_t) (us : list Z) :
  mem_wf m -> mem_room m -> holds m u us -> holds m v [1] -> digits us -> normalized us ->
  us <> [] -> natDiv z z2 u v m = Er Uninit.
Proof.
  intros Hwf Hroom Hu Hv Hdu Hnu Hne. apply ro_adequacy_err; [done..|].
  iIntros (Σ HG) "#Hro". iDestruct (mem_ro_view m u us with "Hro") as "Hu"; [done|].
  iDestruct (mem_ro_view m v [1] with "Hro") as "Hv"; [done|].
  by iApply (wpe_natDiv_one with "Hu Hv").
Qed.

Lemma natDiv_by_one_uninit_witness :
  natDiv (T := target64) nat_null nat_null (whole 1 2) (whole 2 1) (mem_of [[3; 7]; [1]]) = Er Uninit.
Proof.
  apply (natDiv_by_one_uninit (T := target64) _ _ _ _ _ [3; 7]).
  - by apply mem_wfb_wf; vm_compute.
  - by intros b.
  - by apply holdsb_holds; vm_compute.
  - by apply holdsb_holds; vm_compute.
  - repeat constructor; by vm_compute.
  - by vm_compute.
  - done.
Defined.
