(* ===== verification/NatConv.v ===== *)
(** * Powers and conversion to text: [cmake/bigint/src/natconv.c]

    A string buffer is a list of bytes.  The number of characters that
    [natI2a] reserves is computed in floating point; it is the parameter
    [log_estimate] of the definitions. *)

From S2P Require Import Prelude Words Digits Carry Shift DivWord Memory NatCore NatAdd NatSub NatShift NatMul NatDiv.

Local Open Scope Z_scope.
Local Open Scope c_scope.

Section code.
Context `{T : Target}.

Record divisor : Type := Divisor { bbb : nat_t; nbits : Z; ndigits : Z }.

Definition leafSize : Z := 8.

Definition natBitLen (x : nat_t) : M Z :=
  let i := len x - 1 in
  if 0 <=? i then
    let! top := load (data x) i in
    let top := Z.lor top (Z.shiftr top 1) in
    let top := Z.lor top (Z.shiftr top 2) in
    let top := Z.lor top (Z.shiftr top 4) in
    let top := Z.lor top (Z.shiftr top 8) in
    let top := Z.lor top (Z.shiftr top 16) in
    let top := Z.lor top (Z.shiftr (Z.shiftr top 16) 16) in
    let! l := lift (Len top) in
    ret (i * UintSize + l)
  else ret 0.

(** The index of the first word that is not 0 *)
Fixpoint first_nonzero (fuel : nat) (d : option ptr) (i : Z) : M Z :=
  match fuel with
  | O => fail OutOfFuel
  | S fuel =>
      let! v := load d i in
      if v =? 0 then first_nonzero fuel d (i + 1) else ret i
  end.

Definition natIsPower2 (x : nat_t) : M Z :=
  let! i := first_nonzero (S (Z.to_nat (len x))) (data x) 0 in
  let! v := load (data x) i in
  if (i =? len x - 1) && (Z.land v (wrap UintSize (v - 1)) =? 0) then
    let! t := lift (TrailingZeros v) in
    ret (i * UintSize + t)
  else ret (-1).

Definition natExpNNMontgomery (z x y m : nat_t) : M nat_t := natNorm z.
Definition natExpNNWindowed (z x y : nat_t) (logM : Z) : M nat_t := natNorm z.
Definition natExpNNMontgomeryEven (z x y m : nat_t) : M nat_t := natNorm z.

(** [v << s] for a shift count that is not known to be below the width *)
Definition shl_checked (v s : Z) : M Z :=
  if s <? UintSize then ret (w_shl UintSize v s) else fail BadShift.

(** One bit of the exponent: square, multiply when the bit is set, reduce.  The
    locals are [z], [zz], [q], [r] and the remaining bits [v]. *)
Definition exp_bit (x m : nat_t) (st : nat_t * nat_t * nat_t * nat_t * Z)
    : M (nat_t * nat_t * nat_t * nat_t * Z) :=
  let '(z, zz, q, r, v) := st in
  let mask := w_shl UintSize 1 (UintSize - 1) in
  let! zz := natSqr z in
  let! z := natFree z in
  let '(z, zz) := natSwap z zz in
  let! (z, zz) :=
    (if negb (Z.land v mask =? 0) then
       let! zz := natMul z x in
       let! z := natFree z in
       ret (natSwap z zz)
     else ret (z, zz)) in
  let! st :=
    (if negb (len m =? 0) then
       let! (zz, r) := natDiv zz r z m in
       let! z := natFree z in
       let '(zz, q) := natSwap zz q in
       let '(z, r) := natSwap z r in
       ret (z, zz, q, r)
     else ret (z, zz, q, r)) in
  let '(z, zz, q, r) := st in
  ret (z, zz, q, r, w_shl UintSize v 1).

Definition natExpNN (z x y m : nat_t) (slow : bool) : M nat_t :=
  let! m1 := (if len m =? 1 then let! v := load (data m) 0 in ret (v =? 1) else ret false) in
  if m1 then natSetWord z 0
  else if len y =? 0 then natSetWord z 1
  else if len x =? 0 then natSetWord z 0
  else
  let! x1 := (if len x =? 1 then let! v := load (data x) 0 in ret (v =? 1) else ret false) in
  if x1 then natSetWord z 1
  else
  let! y1 := (if len y =? 1 then let! v := load (data y) 0 in ret (v =? 1) else ret false) in
  if y1 then (if negb (len m =? 0) then natRem z x m else natSet z x)
  else
  let! z := (if negb (len m =? 0) then natMake z (len m) else ret z) in
  if negb (len m =? 0) && (1 <? len y) && negb slow then
    let! m0 := load (data m) 0 in
    if Z.land m0 1 =? 1 then natExpNNMontgomery z x y m
    else
      let! logM := natIsPower2 m in
      if 0 <=? logM then natExpNNWindowed z x y logM
      else natExpNNMontgomeryEven z x y m
  else
    let! z := natSet z x in
    let! v := load (data y) (len y - 1) in
    let! l := lift (nlz v) in
    let shift := l + 1 in
    let! v := shl_checked v shift in
    let w := UintSize - shift in
    let! q := natNewLen 0 in
    let! st := for_up 0 w (z, q, q, q, v) (fun _ st => exp_bit x m st) in
    let! st := for_down (len y - 2) 0 st (fun i '(z, zz, q, r, _) =>
      let! v := load (data y) i in
      for_up 0 UintSize (z, zz, q, r, v) (fun _ st => exp_bit x m st)) in
    let '(z, _, _, _, _) := st in
    natNorm z.

Definition natExpWW (z : nat_t) (x y : Z) : M nat_t :=
  let! nx := natNew x in
  let! ny := natNew y in
  let! m := natNewLen 0 in
  let! r := natExpNN z nx ny m false in
  let! _ := natFree nx in
  let! _ := natFree ny in
  ret r.

(** The number of divisors: one more for each doubling of [leafSize] below
    half of [m] *)
Fixpoint divisors_count (fuel : nat) (words m k : Z) : Z :=
  match fuel with
  | O => k
  | S fuel =>
      if words <? Z.shiftr m 1 then divisors_count fuel (wrap UintSize (Z.shiftl words 1)) m (k + 1)
      else k
  end.

(** Multiply the divisor by the base while it keeps its length. *)
Fixpoint divisors_grow (fuel : nat) (larger dst : nat_t) (b nd : Z) : M Z :=
  match fuel with
  | O => fail OutOfFuel
  | S fuel =>
      let! c := mulAddVWW larger larger b 0 in
      if c =? 0 then
        natCopy dst larger ;!
        divisors_grow fuel larger dst b (nd + 1)
      else ret nd
  end.

Definition divisors (m b ndigits0 bb : Z) : M (list divisor) :=
  if (leafSize =? 0) || (m <=? leafSize) then ret []
  else
    let k := divisors_count 64 leafSize m 1 in
    let! ok := malloc_ok in
    if ok then
      for_up 0 k [] (fun i table =>
        let! (d, nd) :=
          (match last table with
           | None =>
               let! z := natNewLen 0 in
               let! d := natExpWW z bb leafSize in
               ret (d, ndigits0 * leafSize)
           | Some t =>
               let! d := natSqr (bbb t) in
               ret (d, 2 * ndigits t)
           end) in
        let! larger := natDup d in
        let! nd := divisors_grow (S (Z.to_nat (UintSize * len d))) larger d b nd in
        let! nb := natBitLen d in
        let! _ := natFree larger in
        ret (table ++ [Divisor d nb nd]))
    else ret [].

Definition MaxBase : Z := 10 + (122 - 97 + 1) + (90 - 65 + 1).

(** ["0123456789abcdefghijklmnopqrstuvwxyzABCDEFGHIJKLMNOPQRSTUVWXYZ"] *)
Definition digit_chars : list Z :=
  map Z.of_nat (seq 48 10 ++ seq 97 26 ++ seq 65 26) ++ [0].

(** [maxPow]: the largest power of [b] that is a word, and its exponent *)
Fixpoint maxPow_loop (fuel : nat) (b max p n : Z) : res (Z * Z) :=
  match fuel with
  | O => Er OutOfFuel
  | S fuel =>
      if p <? max then maxPow_loop fuel b max (wrap UintSize (p * b)) (n + 1) else OK (p, n)
  end.

Definition maxPow (b : Z) : res (Z * Z) := maxPow_loop 64 b (word_max / b) b 1.

(** ** Text *)

Definition put_char (s : list Z) (i c : Z) : M (list Z) :=
  if (0 <=? i) && (i <? Z.of_nat (length s)) then ret (<[Z.to_nat i := c]> s)
  else fail OutOfBounds.

(** The digits of one word, [s[i - 1]], [s[i - 2]], ...; the locals are the
    buffer, [i] and the word [r].  [o] is where the string starts. *)
Definition word_digits (b ndigits0 o : Z) (s : list Z) (i r : Z) : M (list Z * Z) :=
  let! st := for_up 0 ndigits0 (s, i, r) (fun _ '(s, i, r) =>
    if 0 <? i then
      let i := i - 1 in
      if b =? 10 then
        let t := r / 10 in
        let! s := put_char s (o + i) (48 + (r - t * 10)) in
        ret (s, i, t)
      else
        let! c := lift (tab_get digit_chars (r mod b)) in
        let! s := put_char s (o + i) c in
        ret (s, i, r / b)
    else ret (s, i, r)) in
  let '(s, i, _) := st in
  ret (s, i).

(** Divide by the big base until nothing is left. *)
Fixpoint leaf_loop (fuel : nat) (q : nat_t) (b ndigits0 bb o : Z) (s : list Z) (i : Z)
    : M (nat_t * list Z * Z) :=
  if 0 <? len q then
    match fuel with
    | O => fail OutOfFuel
    | S fuel =>
        let! (nq, r) := natDivW q bb (Some 0) in
        let! r := defined r in
        let! _ := natFree q in
        let! (s, i) := word_digits b ndigits0 o s i r in
        leaf_loop fuel nq b ndigits0 bb o s i
    end
  else ret (q, s, i).

Definition table_get (table : list divisor) (i : Z) : M divisor :=
  if 0 <=? i then
    match table !! Z.to_nat i with
    | Some d => ret d
    | None => fail OutOfBounds
    end
  else fail OutOfBounds.

(** The largest divisor of at most half the length *)
Fixpoint pick_index (fuel : nat) (table : list divisor) (index minLen : Z) : M Z :=
  match fuel with
  | O => ret index
  | S fuel =>
      if 0 <? index then
        let! d := table_get table (index - 1) in
        if minLen <? nbits d then pick_index fuel table (index - 1) minLen else ret index
      else ret index
  end.

(** The loop of [convertWords] over the divisors; [conv] converts a remainder
    with the divisors below an index. *)
Fixpoint split_loop (fuel : nat) (conv : nat_t -> Z -> Z -> list Z -> M (list Z))
    (table : list divisor) (q r : nat_t) (index o slen : Z) (s : list Z)
    : M (nat_t * nat_t * Z * list Z) :=
  if leafSize <? len q then
    match fuel with
    | O => fail OutOfFuel
    | S fuel =>
        let! maxLen := natBitLen q in
        let minLen := Z.shiftr maxLen 1 in
        let! index := pick_index (Z.to_nat index) table index minLen in
        let! d := table_get table index in
        let! index :=
          (if maxLen <=? nbits d then
             let! c := natCmp (bbb d) q in
             if 0 <=? c then assert_ (0 <=? index - 1) ;! ret (index - 1) else ret index
           else ret index) in
        let! d := table_get table index in
        let! (q, r) := natDiv q r q (bbb d) in
        let h := slen - ndigits d in
        let! s := conv r index (o + h) s in
        split_loop fuel conv table q r index o h s
    end
  else ret (q, r, slen, s).

Fixpoint pad_zeros (n : nat) (o : Z) (s : list Z) : M (list Z) :=
  match n with
  | O => ret s
  | S n => let! s := put_char s (o + Z.of_nat n) 48 in pad_zeros n o s
  end.

(** [&s[o]] is the string of [slen] characters to fill; [fuel] bounds the depth
    of the recursion, which uses ever fewer divisors. *)
Fixpoint convertWords (fuel : nat) (x : nat_t) (o slen : Z) (s : list Z) (b ndigits0 bb : Z)
    (table : list divisor) (tableNum : Z) : M (list Z) :=
  match fuel with
  | O => fail OutOfFuel
  | S fuel =>
      let! q := natDup x in
      let! st :=
        (match table with
         | [] => ret (q, slen, s)
         | _ =>
             let! r := natNewLen 0 in
             let! st := split_loop (S (Z.to_nat (len q)))
               (fun r index o' s =>
                  let! d := table_get table index in
                  convertWords fuel r o' (ndigits d) s b ndigits0 bb table index)
               table q r (tableNum - 1) o slen s in
             let '(q, r, slen, s) := st in
             let! _ := natFree r in
             ret (q, slen, s)
         end) in
      let '(q, slen, s) := st in
      let! st := leaf_loop (S (Z.to_nat (2 * len q))) q b ndigits0 bb o s slen in
      let '(q, s, i) := st in
      let! _ := natFree q in
      pad_zeros (Z.to_nat i) o s
  end.

(** ** [natI2a] *)

(** [(ssize_t)((double)bits / log2((double)base))] *)
Variable log_estimate : Z -> Z -> Z.

(** The digits of [w] in base [2 ^ shift], down to [lo] remaining bits *)
Fixpoint pow2_word (fuel : nat) (shift mask : Z) (s : list Z) (i w nb : Z)
    : M (list Z * Z * Z * Z) :=
  match fuel with
  | O => fail OutOfFuel
  | S fuel =>
      if shift <=? nb then
        let i := i - 1 in
        let! c := lift (tab_get digit_chars (Z.land w mask)) in
        let! s := put_char s i c in
        pow2_word fuel shift mask s i (Z.shiftr w shift) (nb - shift)
      else ret (s, i, w, nb)
  end.

Fixpoint pow2_last (fuel : nat) (shift mask : Z) (s : list Z) (i w : Z) : M (list Z * Z) :=
  if negb (w =? 0) then
    match fuel with
    | O => fail OutOfFuel
    | S fuel =>
        let i := i - 1 in
        let! c := lift (tab_get digit_chars (Z.land w mask)) in
        let! s := put_char s i c in
        pow2_last fuel shift mask s i (Z.shiftr w shift)
    end
  else ret (s, i).

Definition i2a_pow2 (x : nat_t) (b : Z) (s : list Z) (i : Z) : M (list Z * Z) :=
  let! shift := lift (TrailingZeros b) in
  let mask := u64 (Z.shiftl 1 shift) - 1 in
  let! w := load (data x) 0 in
  let! st := for_up 1 (len x) (s, i, w, UintSize) (fun k '(s, i, w, nb) =>
    let! st := pow2_word 65 shift mask s i w nb in
    let '(s, i, w, nb) := st in
    if nb =? 0 then
      let! w := load (data x) k in
      ret (s, i, w, UintSize)
    else
      let! xk := load (data x) k in
      let w := Z.lor w (w_shl UintSize xk nb) in
      let i := i - 1 in
      let! c := lift (tab_get digit_chars (Z.land w mask)) in
      let! s := put_char s i c in
      ret (s, i, Z.shiftr xk (shift - nb), UintSize - (shift - nb))) in
  let '(s, i, w, _) := st in
  pow2_last 65 shift mask s i w.

(** [while (s[i] == '0') ++i] *)
Fixpoint skip_zeros (fuel : nat) (s : list Z) (i : Z) : M Z :=
  match fuel with
  | O => fail OutOfFuel
  | S fuel =>
      match s !! Z.to_nat i with
      | Some c => if c =? 48 then skip_zeros fuel s (i + 1) else ret i
      | None => fail OutOfBounds
      end
  end.

Definition i2a_other (x : nat_t) (b slen : Z) (s : list Z) : M (list Z * Z) :=
  let! (bb, nd) := lift (maxPow b) in
  let! table := divisors (len x) b nd bb in
  let tableNum := Z.of_nat (length table) in
  let! s := convertWords (S (length table)) x 0 slen s b nd bb table tableNum in
  let! i := skip_zeros (S (length s)) s 0 in
  for_up 0 tableNum tt (fun k _ =>
    let! d := table_get table k in
    let! _ := natFree (bbb d) in
    ret tt) ;!
  ret (s, i).

(** The result is the buffer, with the terminating zero. *)
Definition natI2a (x : nat_t) (neg : bool) (base : Z) : M (option (list Z)) :=
  assert_ ((2 <=? base) && (base <=? MaxBase)) ;!
  if len x =? 0 then
    let! ok := malloc_ok in
    ret (if ok then Some [48; 0] else None)
  else
    let! bits := natBitLen x in
    let i := log_estimate bits base + 1 in
    let i := if neg then i + 1 else i in
    let slen := i in
    let! ok := malloc_ok in
    if ok then
      let s := replicate (Z.to_nat (slen + 1)) 0 in
      let b := base in
      let! (s, i) :=
        (if b =? Z.land b (w_neg UintSize b) then i2a_pow2 x b s i
         else i2a_other x b slen s) in
      let! (s, i) :=
        (if neg then
           let i := i - 1 in
           let! s := put_char s i 45 in
           ret (s, i)
         else ret (s, i)) in
      if (0 <=? i) && (i <=? slen) then
        let n := Z.to_nat (slen - i) in
        let s := take n (drop (Z.to_nat i) s) ++ drop n s in
        let! s := put_char s (slen - i) 0 in
        ret (Some s)
      else fail OutOfBounds
    else ret None.

End code.

(** The C string in a buffer *)
Fixpoint c_str (s : list Z) : list Z :=
  match s with
  | [] => []
  | c :: s => if c =? 0 then [] else c :: c_str s
  end.
