(* ===== verification/NatExpSpec.v ===== *)
(** * Powers: specifications of natconv.c's [natExpNN] and [natExpWW]

    Without a modulus and with an exponent of one word, [natExpNN] is exact
    while its squares stay below the Karatsuba threshold: that is the case the
    conversion to text relies on. *)

From S2P Require Import Prelude Words Digits Shift DivWord Memory Logic NatCore NatMul NatSqrSpec NatDiv NatConv.
From iris.proofmode Require Import proofmode.
From iris.base_logic.lib Require Import own ghost_map.

Local Open Scope Z_scope.
Local Open Scope c_scope.

Section specs.
Context `{T : Target} `{!memGS Σ}.

Lemma wp_exp_bit z zs zz q r v x xw m Φ :
  len m = 0 → digits zs → normalized zs → Z.of_nat (length zs) < karatsubaSqrThreshold →
  0 < value zs → 1 < xw < Base →
  owned z zs -∗ view x (DfracOwn 1) [xw] -∗
  (∀ z' zz' zs', ⌜digits zs' ∧ normalized zs' ∧
      (value zs' = value zs * value zs *
        (if negb (Z.land v (w_shl UintSize 1 (UintSize - 1)) =? 0) then xw else 1))%Z⌝ -∗
     owned z' zs' -∗ view x (DfracOwn 1) [xw] -∗ Φ (z', zz', q, r, w_shl UintSize v 1)) -∗
  wp (exp_bit x m (z, zz, q, r, v)) Φ.
Proof.
  iIntros (Hm Hdz Hnz Hsmall Hpos Hx) "Hz Hx HΦ". rewrite /exp_bit Hm. pose proof Base_gt0.
  assert (digits [xw]) as Hdx by (apply digits_cons; split; [lia|apply digits_nil]).
  assert (value [xw] = xw) as Hvx by (rewrite value_cons value_nil; lia).
  iDestruct (owned_view with "Hz") as "[Hzv Hcl]". iApply wp_bind.
  iApply (wp_natSqr with "Hzv"); [apply view_half|done|done|]. iIntros (z1 zs1 (Hd1 & Hn1 & Hv1)) "Hz1 Hzv".
  iDestruct ("Hcl" with "[//] Hzv") as "Hz". iApply wp_bind. iApply (wp_natFree_owned with "Hz"). cbn [natSwap].
  destruct (Z.land v _ =? 0); cbn [negb].
  - iApply wp_bind. iApply wp_ret. iApply wp_bind. iApply wp_ret. iApply wp_ret.
    iApply ("HΦ" with "[%] Hz1 Hx"). rewrite Z.mul_1_r. done.
  - iDestruct (owned_view with "Hz1") as "[Hz1v Hcl1]". iApply wp_bind. iApply wp_bind.
    iApply (wp_natMul with "Hz1v Hx"); [done|done| |].
    { unfold karatsubaThreshold. cbn [length]. lia. }
    iIntros (z2 zs2 (Hd2 & Hv2 & Hn2)) "Hz2 Hz1v Hx". iDestruct ("Hcl1" with "[//] Hz1v") as "Hz1".
    iApply wp_bind. iApply (wp_natFree_owned with "Hz1"). iApply wp_ret. iApply wp_bind. iApply wp_ret. iApply wp_ret.
    iApply ("HΦ" with "[%] Hz2 Hx"). split; [done|]. rewrite Hv2 Hvx Hv1. split; [|done]. apply Hn2; [|done|done|].
    + intros ->. rewrite value_nil in Hv1. nia.
    + intros [= ->]. lia.
Qed.

(** The loop over the bits of the only word of the exponent *)
Lemma wp_exp_loop z q x xw y m Φ :
  len m = 0 → 1 < xw < Base → 1 < y < 2 * karatsubaSqrThreshold → y < Base →
  let L := bitlen y in
  owned z [xw] -∗ view x (DfracOwn 1) [xw] -∗
  (∀ z' zz' v zs, ⌜digits zs ∧ normalized zs ∧ value zs = xw ^ y⌝ -∗
     owned z' zs -∗ view x (DfracOwn 1) [xw] -∗ Φ (z', zz', q, q, v)) -∗
  wp (for_up 0 (L - 1) (z, q, q, q, w_shl UintSize y (UintSize - L + 1)) (λ _ st, exp_bit x m st)) Φ.
Proof.
  iIntros (Hm Hx Hy HyB L) "Hz Hx HΦ". pose proof Base_gt0.
  assert (L = Z.log2 y + 1) as HL by (rewrite /L /bitlen (proj2 (Z.eqb_neq y 0)); lia).
  assert (Z.log2 y < UintSize) as Hlog by (apply Z.log2_lt_pow2; [lia|done]).
  pose proof (Z.log2_pos y ltac:(lia)) as Hlog0.
  iApply (wp_for_up (λ j st, let '(z, _, q1, q2, v) := st in ∃ zs, ⌜q1 = q ∧ q2 = q ∧
      v = w_shl UintSize y (UintSize - L + 1 + Z.of_nat j) ∧ digits zs ∧ normalized zs ∧
      value zs = xw ^ Z.shiftr y (L - 1 - Z.of_nat j)⌝ ∗ owned z zs ∗ view x (DfracOwn 1) [xw])%I with "[Hz Hx]").
  - iIntros (j [[[[z1 zz] q1] q2] v] Hj) "(%zs & (-> & -> & -> & Hd & Hn & Hv) & Hz & Hx)".
    iDestruct "Hd" as %Hd. iDestruct "Hn" as %Hn. iDestruct "Hv" as %Hv.
    set (k := L - 1 - Z.of_nat j - 1).
    assert (0 < Z.shiftr y (k + 1)) as Hpre.
    { rewrite Z.shiftr_div_pow2; [|lia]. apply Z.div_str_pos. split; [apply Z.pow_pos_nonneg; lia|].
      etransitivity; [|apply (proj1 (Z.log2_spec y ltac:(lia)))]. apply Z.pow_le_mono_r; lia. }
    assert (2 * Z.shiftr y (k + 1) <= y) as Hhalf.
    { rewrite Z.shiftr_div_pow2; [|lia]. rewrite Z.pow_add_r; [|lia..]. pose proof (Z.pow_pos_nonneg 2 k ltac:(lia) ltac:(lia)).
      pose proof (Z.mul_div_le y (2 ^ k * 2 ^ 1) ltac:(lia)).
      assert (0 <= y / (2 ^ k * 2 ^ 1)) by (apply Z.div_pos; lia). change (2 ^ 1) with 2 in *. nia. }
    replace (L - 1 - Z.of_nat j) with (k + 1) in Hv by lia.
    assert (0 < value zs) as Hpos by (rewrite Hv; apply Z.pow_pos_nonneg; lia).
    iApply (wp_exp_bit with "Hz Hx"); [done|done|done| |done|done|].
    { pose proof (power_length zs xw _ Hd Hn Hx Hpre Hv). lia. }
    iIntros (z' zz' zs' (Hd' & Hn' & Hv')) "Hz Hx". iExists zs'. iFrame. iPureIntro.
    split; [done|]. split; [done|]. split; [rewrite shl_shl; [f_equal; lia|lia]|]. split; [done|]. split; [done|].
    rewrite shl_top in Hv'; [|lia]. replace (UintSize - 1 - (UintSize - L + 1 + Z.of_nat j)) with k in Hv' by lia.
    replace (L - 1 - Z.of_nat (S j)) with k by lia. rewrite (shiftr_bit y k); [|lia].
    rewrite Hv' Hv negb_involutive Z.pow_add_r; [|lia|destruct (Z.testbit y k); simpl; lia].
    rewrite Z.pow_twice_r. destruct (Z.testbit y k); simpl; lia.
  - iExists [xw]. iFrame. iPureIntro. rewrite Z.add_0_r Z.sub_0_r. split; [done|]. split; [done|]. split; [done|].
    split; [apply digits_cons; split; [lia|apply digits_nil]|]. split; [intros [= ->]; lia|].
    rewrite value_cons value_nil HL. replace (Z.log2 y + 1 - 1) with (Z.log2 y) by lia.
    assert (Z.shiftr y (Z.log2 y) = 1) as ->; [|lia].
    rewrite Z.shiftr_div_pow2; [|lia]. pose proof (Z.log2_spec y ltac:(lia)) as Hs.
    rewrite Z.pow_succ_r in Hs; [|lia]. apply div_unique_range; lia.
  - iIntros ([[[[z' zz] q1] q2] v]) "(%zs & (-> & -> & _ & Hd & Hn & Hv) & Hz & Hx)".
    iDestruct "Hd" as %Hd. iDestruct "Hn" as %Hn. iDestruct "Hv" as %Hv.
    replace (L - 1 - Z.of_nat (Z.to_nat (L - 1 - 0))) with 0 in Hv by lia. rewrite Z.shiftr_0_r in Hv.
    by iApply ("HΦ" with "[//] Hz Hx").
Qed.
Lemma wp_natExpNN z ws x xw y dq yw m Φ :
  len m = 0 → 1 < xw < Base → 0 < yw < Base → yw < 2 * karatsubaSqrThreshold →
  0 <= cap z <= Z.of_nat (length ws) →
  block_of z ws -∗ view x (DfracOwn 1) [xw] -∗ view y dq [yw] -∗
  (∀ z' zs, ⌜digits zs ∧ normalized zs ∧ value zs = xw ^ yw⌝ -∗
     owned z' zs -∗ view x (DfracOwn 1) [xw] -∗ view y dq [yw] -∗ Φ z') -∗
  wp (natExpNN z x y m false) Φ.
Proof.
  iIntros (Hm Hx Hy Hsmall Hcap) "Hz [%Hlx Hx] [%Hly Hy] HΦ". pose proof Base_gt0. pose proof UintSize_pos.
  assert (digits [xw] ∧ normalized [xw] ∧ value [xw] = xw) as (Hdx & Hnx & Hvx).
  { split; [apply digits_cons; split; [lia|apply digits_nil]|]. split; [intros [= ->]; lia|].
    rewrite value_cons value_nil. lia. }
  rewrite /natExpNN Hm Hlx Hly. cbn [length Z.of_nat Z.eqb Pos.of_succ_nat Pos.eqb negb andb].
  iApply wp_bind. iApply wp_ret. iApply wp_bind. iApply wp_bind.
  iApply (wp_load_opt _ _ _ _ xw with "Hx"); [done|done|]. iIntros "Hx". iApply wp_ret.
  rewrite (proj2 (Z.eqb_neq xw 1)); [|lia]. iApply wp_bind. iApply wp_bind.
  iApply (wp_load_opt _ _ _ _ yw with "Hy"); [done|done|]. iIntros "Hy". iApply wp_ret.
  destruct (Z.eqb_spec yw 1) as [->|Hy1].
  { iApply (wp_natSet z ws x _ [xw] with "Hz [$Hx //]"); [lia|]. iIntros (z') "Hz Hx".
    iApply ("HΦ" with "[%] Hz Hx [$Hy //]"). rewrite Z.pow_1_r. done. }
  iApply wp_bind. iApply wp_ret. iApply wp_bind.
  iApply (wp_natSet z ws x _ [xw] with "Hz [$Hx //]"); [lia|]. iIntros (z') "Hz Hx".
  iApply wp_bind. iApply (wp_load_opt _ _ _ _ yw with "Hy"); [done|done|]. iIntros "Hy".
  destruct (nlz_eq yw Hy) as (Hnlz & Hs & _). iApply wp_bind. iApply wp_lift; [exact Hnlz|].
  pose proof (Z.log2_pos yw ltac:(lia)) as Hlog0.
  assert (bitlen yw = Z.log2 yw + 1) as HL by (rewrite /bitlen (proj2 (Z.eqb_neq yw 0)); lia).
  iApply wp_bind. rewrite /shl_checked (proj2 (Z.ltb_lt _ _)); [|lia]. iApply wp_ret.
  iApply wp_bind. iApply wp_natNewLen; [done|]. iIntros (q _) "_". iApply wp_bind.
  replace (UintSize - (UintSize - bitlen yw + 1)) with (bitlen yw - 1) by lia.
  iApply (wp_exp_loop z' q x xw yw m with "Hz Hx"); [done|done|lia|lia|].
  iIntros (z1 zz v zs (Hd & Hn & Hv)) "Hz Hx". iApply wp_bind. cbn [for_down for_nat Z.to_nat Z.sub Z.add Z.opp Z.pos_sub].
  iApply wp_ret. iApply (wp_natNorm_owned with "Hz"). iIntros (z2) "Hz _". rewrite strip_id //.
  by iApply ("HΦ" with "[//] Hz Hx [$Hy]").
Qed.

Lemma wp_natExpWW z ws xw yw Φ :
  1 < xw < Base → 0 < yw < Base → yw < 2 * karatsubaSqrThreshold →
  0 <= cap z <= Z.of_nat (length ws) → block_of z ws -∗
  (∀ z' zs, ⌜digits zs ∧ normalized zs ∧ value zs = xw ^ yw⌝ -∗ owned z' zs -∗ Φ z') -∗
  wp (natExpWW z xw yw) Φ.
Proof.
  iIntros (Hx Hy Hs Hc) "Hz HΦ". iApply wp_bind. iApply wp_natNew. iIntros (nx _) "Hnx".
  iApply wp_bind. iApply wp_natNew. iIntros (ny _) "Hny".
  iApply wp_bind. iApply wp_natNewLen; [done|]. iIntros (m [Hm _]) "_".
  iDestruct (owned_view with "Hnx") as "[Hx Hclx]". iDestruct (owned_view with "Hny") as "[Hy Hcly]".
  iApply wp_bind. iApply (wp_natExpNN z ws nx xw ny _ yw m with "Hz Hx Hy"); [done..|].
  iIntros (z' zs Hzs) "Hz Hx Hy". iDestruct ("Hclx" with "[//] Hx") as "Hx". iDestruct ("Hcly" with "[//] Hy") as "Hy".
  iApply wp_bind. iApply (wp_natFree_owned with "Hx"). iApply wp_bind. iApply (wp_natFree_owned with "Hy").
  iApply wp_ret. by iApply ("HΦ" with "[//] Hz").
Qed.
End specs.

(** ** Properties *)

(** C11: [natExpWW] computes powers of words: for a base of at least 2 and an
    exponent from 1 to 519 the result is exact and normalized, and nothing that
    was live has changed.  (The exponent 0 is undefined, [natExpWW_zero].) *)
Theorem natExpWW_correct `{T : Target} (m : mem) (x y : Z) :
  mem_wf m -> mem_room m -> 1 < x < Base -> 0 < y < 2 * karatsubaSqrThreshold ->
  exists z m' zs, natExpWW nat_null x y m = OK (z, m') /\ holds m' z zs /\ digits zs /\
    normalized zs /\ (value zs = x ^ y)%Z /\ mem_extends m m'.
Proof.
  intros Hwf Hroom Hx Hy.
  destruct (ro_adequacy m (natExpWW nat_null x y) (λ z m', ∃ zs, holds m' z zs ∧ digits zs ∧
    normalized zs ∧ (value zs = x ^ y)%Z))
    as (z & m' & Hrun & (zs & ? & ? & ? & ?) & Hext); [done..| |by exists z, m', zs].
  iIntros (Σ HG) "_". iApply (wp_natExpWW nat_null []); [done| |lia|done|iApply block_of_null|].
  { split; [lia|]. unfold karatsubaSqrThreshold in Hy. unfold Base. destruct UintSize_cases as [-> | ->]; lia. }
  iIntros (z zs (Hd & Hn & Hv)) "Hz". iIntros (m') "Hm". iDestruct (owned_view with "Hz") as "[Hz _]".
  iDestruct (interp_view with "Hm Hz") as %Hz. iPureIntro. by exists zs.
Qed.

(** The words 0 and 1 are numbers of one digit for [natNew], so that the exponent
    0 is not found to be zero: 0 has as many leading zeros as a word has bits,
    and the exponent is shifted by one more than that. *)
Lemma natExpWW_zero :
  natExpWW (T := target64) nat_null 10 0 (mem_of []) = Er BadShift /\
  natExpWW (T := target32) nat_null 10 0 (mem_of []) = Er BadShift.
Proof. by vm_compute. Qed.

Lemma natExpWW_correct_witness :
  let m := mem_of [] in
  exists z m' zs, natExpWW (T := target64) nat_null (10 ^ 19) 45 m = OK (z, m') /\ holds m' z zs /\
    digits (T := target64) zs /\ normalized zs /\ (value (T := target64) zs = (10 ^ 19) ^ 45)%Z /\
    mem_extends m m'.
Proof.
  intros m. apply (natExpWW_correct (T := target64)).
  - by apply mem_wfb_wf; vm_compute.
  - by intros b.
  - split; [lia|by vm_compute].
  - split; [lia|by vm_compute].
Defined.
