(* ===== verification/NatText.v ===== *)
(** * Digits and buffers of text

    What the conversions of natconv.c write, without memory: the digits of a
    number in a base, least significant first, and a buffer that is filled from
    its end. *)

From S2P Require Import Prelude Words Digits DivWord Memory NatConv.

Local Open Scope Z_scope.
Local Open Scope c_scope.

(** ** Digits in a base *)

Definition from_le (b : Z) (ds : list Z) : Z := foldr (fun d acc => d + b * acc) 0 ds.
Definition base_digits (b : Z) (ds : list Z) : Prop := Forall (fun d => 0 <= d < b) ds.

(** The character of a digit *)
Definition char_of (d : Z) : Z := digit_chars !!! Z.to_nat d.
Definition chars (ds : list Z) : list Z := map char_of (rev ds).

(** [t] is the numeral of [v] in base [b], without leading zeros. *)
Definition numeral (b v : Z) (t : list Z) : Prop := exists ds,
  t = chars ds /\ base_digits b ds /\ from_le b ds = v /\ last ds <> Some 0.

Section digits.
Context (b : Z) (Hb : 2 <= b).

Lemma from_le_cons d ds : from_le b (d :: ds) = d + b * from_le b ds.
Proof. done. Qed.

Lemma from_le_app ds es : from_le b (ds ++ es) = from_le b ds + b ^ Z.of_nat (length ds) * from_le b es.
Proof.
  induction ds as [|d ds IH]; cbn [app length].
  - change (from_le b []) with 0. change (Z.of_nat 0) with 0. lia.
  - rewrite !from_le_cons, IH, Nat2Z.inj_succ, Z.pow_succ_r by lia. lia.
Qed.

Lemma from_le_snoc ds d : from_le b (ds ++ [d]) = from_le b ds + b ^ Z.of_nat (length ds) * d.
Proof. rewrite from_le_app, from_le_cons. change (from_le b []) with 0. lia. Qed.

Lemma from_le_range ds : base_digits b ds -> 0 <= from_le b ds < b ^ Z.of_nat (length ds).
Proof.
  induction 1 as [|d ds Hd _ IH]; [cbn; lia|]. cbn [length].
  rewrite from_le_cons, Nat2Z.inj_succ, Z.pow_succ_r by lia. nia.
Qed.

Lemma pow_pos (n : nat) : 0 < b ^ Z.of_nat n.
Proof. apply Z.pow_pos_nonneg; lia. Qed.

Lemma base_digits_snoc ds d : base_digits b ds -> 0 <= d < b -> base_digits b (ds ++ [d]).
Proof. intros Hds Hd. apply Forall_app. by split; [|apply Forall_singleton]. Qed.

(** No more digits than fit, when all of them are below the value *)
Lemma fits (ds : list Z) (n : nat) v : b ^ Z.of_nat (length ds) <= v -> v < b ^ Z.of_nat n -> (length ds < n)%nat.
Proof.
  intros H1 H2. apply Nat.nle_gt. intros Hle.
  assert (b ^ Z.of_nat n <= b ^ Z.of_nat (length ds)) by (apply Z.pow_le_mono_r; lia). lia.
Qed.

(** The last digit is not zero when the value needs all digits. *)
Lemma tight_last ds d v : base_digits b (ds ++ [d]) -> from_le b (ds ++ [d]) = v ->
  b ^ Z.of_nat (length ds) <= v -> d <> 0.
Proof.
  intros [Hds _]%Forall_app Hv Hle ->. rewrite from_le_snoc in Hv.
  pose proof (from_le_range ds Hds). lia.
Qed.

(** Leading zeros *)
Lemma strip_zeros_le ds : base_digits b ds -> exists es k, ds = es ++ replicate k 0 /\ last es <> Some 0 /\
  base_digits b es /\ from_le b es = from_le b ds.
Proof.
  induction ds as [|d ds IH] using rev_ind; intros Hd.
  { exists [], 0%nat. done. }
  pose proof Hd as [Hds Hd0]%Forall_app. destruct (decide (d = 0)) as [->|Hne].
  - destruct (IH Hds) as (es & k & -> & Hl & He & Hv). exists es, (S k).
    split; [by rewrite replicate_S_end, app_assoc|]. split; [done|]. split; [done|].
    rewrite Hv, from_le_snoc. lia.
  - exists (ds ++ [d]), 0%nat. rewrite app_nil_r, last_snoc. split; [done|]. split; [congruence|done].
Qed.

End digits.

(** The numeral of a number is unique. *)
Lemma from_le_0 b ds : 2 <= b -> base_digits b ds -> from_le b ds = 0 -> last ds <> Some 0 -> ds = [].
Proof.
  intros Hb. induction ds as [|d ds IH]; intros Hd Hv Hl; [done|]. apply Forall_cons in Hd as [Hd0 Hd].
  rewrite from_le_cons in Hv. pose proof (from_le_range b Hb ds Hd). assert (d = 0) as -> by nia.
  destruct ds as [|d' ds']; [done|]. rewrite IH in Hl; [done|done|nia|done].
Qed.

Lemma from_le_inj b ds es : 2 <= b -> base_digits b ds -> base_digits b es -> from_le b ds = from_le b es ->
  last ds <> Some 0 -> last es <> Some 0 -> ds = es.
Proof.
  intros Hb. revert es. induction ds as [|d ds IH]; intros es Hd He Hv Hld Hle.
  { symmetry. by apply (from_le_0 b). }
  destruct es as [|e es]; [by apply (from_le_0 b)|].
  apply Forall_cons in Hd as [Hd0 Hd], He as [He0 He]. rewrite !from_le_cons in Hv.
  pose proof (from_le_range b Hb ds Hd). pose proof (from_le_range b Hb es He).
  assert (from_le b ds = from_le b es) as Hvs by nia. assert (d = e) as -> by lia. f_equal.
  apply IH; try done; by destruct ds, es.
Qed.

Lemma numeral_unique b v t u : 2 <= b -> numeral b v t -> numeral b v u -> t = u.
Proof.
  intros Hb (ds & -> & Hd & Hv & Hl) (es & -> & He & Hw & Hm). f_equal. apply (from_le_inj b); congruence.
Qed.

(** A property of the digits, decided by computation *)
Lemma digit_cases (P : Z -> bool) n d : forallb P (seqZ 0 n) = true -> 0 <= d < n -> P d = true.
Proof. intros Hall Hd. rewrite forallb_forall in Hall. apply Hall, list_elem_of_In, elem_of_seqZ. lia. Qed.

Lemma char_of_digit d : 0 <= d < 62 -> char_of d <> 0 /\ (char_of d = 48 -> d = 0) /\
  tab_get digit_chars d = OK (char_of d).
Proof.
  intros Hd. pose proof (digit_cases (fun d => negb (char_of d =? 0) && (negb (char_of d =? 48) || (d =? 0)))
    62 d ltac:(by vm_compute) Hd) as Hall.
  apply andb_true_iff in Hall as [H1 H2]. apply negb_true_iff, Z.eqb_neq in H1.
  split; [done|]. split.
  - intros H48. rewrite H48 in H2. cbn in H2. by apply Z.eqb_eq.
  - unfold tab_get. rewrite (proj2 (Z.leb_le _ _)), (proj2 (Z.ltb_lt _ _)); [done|cbn; lia|lia].
Qed.

Lemma char_of_decimal d : 0 <= d < 10 -> char_of d = 48 + d.
Proof.
  intros Hd. apply Z.eqb_eq. exact (digit_cases (fun d => char_of d =? 48 + d) 10 d ltac:(by vm_compute) Hd).
Qed.

Lemma chars_snoc ds d : chars (ds ++ [d]) = char_of d :: chars ds.
Proof. unfold chars. by rewrite rev_app_distr. Qed.

Lemma chars_length ds : length (chars ds) = length ds.
Proof. unfold chars. by rewrite length_map, length_rev. Qed.

(** ** A buffer that is filled downwards from position [n], before [tail] *)

Definition shown (s : list Z) (n : nat) (t tail : list Z) : Prop :=
  length s = (n + length tail)%nat /\ (length t <= n)%nat /\ drop (n - length t) s = t ++ tail.

Lemma shown_start n : shown (replicate (S n) 0) n [] [0].
Proof.
  split; [rewrite length_replicate; cbn; lia|]. split; [cbn; lia|]. rewrite Nat.sub_0_r, drop_replicate.
  by replace (S n - n)%nat with 1%nat by lia.
Qed.

(** What is shown becomes the tail of the text in front of it. *)
Lemma shown_tail s n t tail : shown s n t tail -> shown s (n - length t) [] (t ++ tail).
Proof.
  intros (Hl & Hle & Hd). split; [rewrite length_app; lia|]. split; [cbn; lia|].
  cbn [length app]. by rewrite Nat.sub_0_r.
Qed.

Lemma shown_app s n t t' tail : (length t <= n)%nat -> shown s (n - length t) t' (t ++ tail) -> shown s n (t' ++ t) tail.
Proof.
  intros Hle (Hl & Hle' & Hd). rewrite length_app in Hl. unfold shown. rewrite length_app. split; [lia|]. split; [lia|].
  rewrite <- app_assoc, <- Hd. f_equal. lia.
Qed.

Lemma shown_put s n t tail (c : Z) : shown s n t tail -> (length t < n)%nat -> exists s',
  (forall m, put_char s (Z.of_nat n - Z.of_nat (length t) - 1) c m = OK (s', m)) /\ shown s' n (c :: t) tail.
Proof.
  intros (Hl & _ & Hd) Hlt. set (i := (n - S (length t))%nat).
  exists (<[i := c]> s). split.
  - intros m. unfold put_char. rewrite (proj2 (Z.leb_le _ _)), (proj2 (Z.ltb_lt _ _)) by lia. cbn.
    unfold ret, i. do 3 f_equal. lia.
  - split; [by rewrite length_insert|]. split; [cbn; lia|]. cbn [length]. fold i.
    rewrite drop_insert_ge by lia. rewrite Nat.sub_diag. destruct (lookup_lt_is_Some_2 s i) as [x Hx]; [lia|].
    rewrite (drop_S s x i Hx). cbn. f_equal. replace (S i) with (n - length t)%nat by lia. exact Hd.
Qed.

(** The end of [natI2a]: the text is moved to the start of the buffer. *)
Lemma c_str_app t l : 0 ∉ t -> c_str (t ++ 0 :: l) = t.
Proof.
  induction t as [|c t IH]; intros H0; [done|]. cbn. rewrite (proj2 (Z.eqb_neq c 0)) by set_solver.
  f_equal. apply IH. set_solver.
Qed.

(** A terminated buffer is its C string, the zero and what follows it. *)
Lemma c_str_split s : 0 ∈ s -> exists l, s = c_str s ++ 0 :: l /\ 0 ∉ c_str s.
Proof.
  induction s as [|c s IH]; intros H0; [set_solver|]. cbn. destruct (Z.eqb_spec c 0) as [->|Hc].
  { exists s. split; [done|set_solver]. }
  destruct IH as (l & Hl & Hn); [set_solver|]. exists l. split; [cbn; congruence|set_solver].
Qed.

Lemma shown_moved s n t : shown s n t [0] -> 0 ∉ t -> exists s',
  (forall m, put_char (take (length t) (drop (n - length t) s) ++ drop (length t) s) (Z.of_nat (length t)) 0 m = OK (s', m)) /\
  c_str s' = t /\ 0 ∈ s'.
Proof.
  intros (Hl & Hn & Hd) H0. cbn [length] in Hl. rewrite Hd, take_app_length.
  destruct (lookup_lt_is_Some_2 s (length t)) as [x Hx]; [lia|]. rewrite (drop_S s x _ Hx).
  exists (t ++ 0 :: drop (S (length t)) s). split; [|split; [by apply c_str_app|set_solver]].
  intros m. unfold put_char. rewrite length_app. cbn [length].
  rewrite (proj2 (Z.leb_le _ _)), (proj2 (Z.ltb_lt _ _)) by lia. cbn. rewrite Nat2Z.id. unfold ret.
  by rewrite insert_app_r_alt, Nat.sub_diag by done.
Qed.

(** ** Computations that leave the store alone *)

Definition runs {A} (c : M A) (a : A) : Prop := forall m, c m = OK (a, m).

Lemma runs_ret {A} (a : A) : runs (ret a) a.
Proof. done. Qed.

Lemma runs_bind {A B} (c : M A) (f : A -> M B) a b : runs c a -> runs (f a) b -> runs (bind c f) b.
Proof. intros Hc Hf m. unfold bind. by rewrite Hc. Qed.

Lemma runs_lift {A} (r : res A) a : r = OK a -> runs (lift r) a.
Proof. by intros ->. Qed.

Lemma runs_for_up {A} (I : nat -> A -> Prop) lo hi (a : A) (body : Z -> A -> M A) :
  (forall k a, Z.of_nat k < hi - lo -> I k a -> exists a', runs (body (lo + Z.of_nat k) a) a' /\ I (S k) a') ->
  I O a -> exists a', runs (for_up lo hi a body) a' /\ I (Z.to_nat (hi - lo)) a'.
Proof.
  intros Hbody HI. unfold for_up. set (n := Z.to_nat (hi - lo)).
  enough (forall j i a, (i + j = n)%nat -> I i a -> exists a',
    runs (for_nat j 1 (lo + Z.of_nat i) a body) a' /\ I n a') as Hrec.
  { specialize (Hrec n 0%nat a). rewrite Z.add_0_r in Hrec. by apply Hrec. }
  clear a HI. induction j as [|j IH]; intros i a Hij HI.
  - exists a. split; [done|]. by replace n with i by lia.
  - destruct (Hbody i a) as (a1 & H1 & HI1); [lia|done|]. destruct (IH (S i) a1) as (a2 & H2 & HI2); [lia|done|].
    exists a2. split; [|done]. cbn [for_nat]. eapply runs_bind; [exact H1|].
    by replace (lo + Z.of_nat i + 1) with (lo + Z.of_nat (S i)) by lia.
Qed.

(** ** Writing the digits of a number *)

Section writing.
Context (b v : Z) (o n : nat) (tail : list Z).
Hypothesis Hb : 2 <= b <= 62.
Hypothesis Hv : v < b ^ Z.of_nat n.

(** The digits [ds] of [v] are in the window of [n] characters at [o], and
    [rest] is left. *)
Record writing (s : list Z) (ds : list Z) (rest : Z) : Prop := {
  wr_shown : shown s (o + n) (chars ds) tail;
  wr_length : (length ds <= n)%nat;
  wr_digits : base_digits b ds;
  wr_value : v = from_le b ds + b ^ Z.of_nat (length ds) * rest;
  wr_rest : 0 <= rest
}.

Lemma writing_start s : shown s (o + n) [] tail -> 0 <= v -> writing s [] v.
Proof.
  intros Hs Hv0. split; [done|cbn; lia|by constructor| |done].
  change (from_le b []) with 0. change (Z.of_nat (length (@nil Z))) with 0. lia.
Qed.

(** While something is left, there is room. *)
Lemma writing_low s ds rest : writing s ds rest -> 0 < rest -> b ^ Z.of_nat (length ds) <= v.
Proof.
  intros [_ _ Hd Hval _] Hr. pose proof (from_le_range b (proj1 Hb) ds Hd). pose proof (pow_pos b (proj1 Hb) (length ds)). nia.
Qed.

Lemma writing_room s ds rest : writing s ds rest -> 0 < rest -> (length ds < n)%nat.
Proof. intros Hw Hr. apply (fits b (proj1 Hb) ds n v); [by eapply writing_low|done]. Qed.

Lemma writing_full s ds rest : writing s ds rest -> length ds = n -> rest = 0.
Proof.
  intros Hw Hn. pose proof (wr_rest _ _ _ Hw). destruct (Z.eq_dec rest 0) as [|Hr]; [done|].
  pose proof (writing_room s ds rest Hw). lia.
Qed.

Lemma writing_digit s ds rest d rest' : writing s ds rest -> (length ds < n)%nat -> 0 <= d < b ->
  0 <= rest' -> rest = d + b * rest' -> exists s',
  runs (put_char s (Z.of_nat o + (Z.of_nat n - Z.of_nat (length ds) - 1)) (char_of d)) s' /\
  writing s' (ds ++ [d]) rest'.
Proof.
  intros [Hs Hl Hd Hval Hr] Hlt Hdb Hr' Heq.
  destruct (shown_put s (o + n) (chars ds) tail (char_of d) Hs) as (s' & Hput & Hs').
  { rewrite chars_length. lia. }
  rewrite chars_length in Hput. exists s'. split.
  { by replace (Z.of_nat o + (Z.of_nat n - Z.of_nat (length ds) - 1)) with (Z.of_nat (o + n) - Z.of_nat (length ds) - 1) by lia. }
  split; [by rewrite chars_snoc|rewrite length_app; cbn [length]; lia| | |done].
  - by apply base_digits_snoc.
  - rewrite from_le_snoc by lia. rewrite length_app. cbn [length].
    rewrite Nat2Z.inj_add, Z.pow_add_r by lia. change (Z.of_nat 1) with 1. subst rest. lia.
Qed.

(** The digits of one word *)
Lemma word_digits_spec nd s ds r Q : 0 <= nd -> writing s ds (r + b ^ nd * Q) -> 0 <= r < b ^ nd -> 0 <= Q ->
  exists s' ds', runs (word_digits b nd (Z.of_nat o) s (Z.of_nat n - Z.of_nat (length ds)) r) (s', Z.of_nat n - Z.of_nat (length ds')) /\
    writing s' ds' Q.
Proof.
  intros Hnd Hw Hr HQ. unfold word_digits.
  destruct (runs_for_up (fun k st => let '(s, i, r) := st in exists ds, i = Z.of_nat n - Z.of_nat (length ds) /\
      writing s ds (r + b ^ (nd - Z.of_nat k) * Q) /\ 0 <= r < b ^ (nd - Z.of_nat k)) 0 nd
    (s, Z.of_nat n - Z.of_nat (length ds), r)
    (fun _ '(s, i, r) =>
      if 0 <? i then
        let i := i - 1 in
        if b =? 10 then
          let t := r / 10 in
          let! s := put_char s (Z.of_nat o + i) (48 + (r - t * 10)) in ret (s, i, t)
        else
          let! c := lift (tab_get digit_chars (r mod b)) in
          let! s := put_char s (Z.of_nat o + i) c in ret (s, i, r / b)
      else ret (s, i, r))) as ([[s' i'] r'] & Hrun & ds' & -> & Hw' & Hr').
  - intros k [[s1 i1] r1] Hk (ds1 & -> & Hw1 & Hr1). pose proof (wr_length _ _ _ Hw1) as Hlen1.
    assert (b ^ (nd - Z.of_nat k) = b * b ^ (nd - Z.of_nat (S k))) as Hpow.
    { rewrite <- Z.pow_succ_r by lia. f_equal. lia. }
    pose proof (Z.pow_pos_nonneg b (nd - Z.of_nat (S k)) ltac:(lia) ltac:(lia)) as Hp.
    destruct (Z.ltb_spec 0 (Z.of_nat n - Z.of_nat (length ds1))) as [Hlt|Hge].
    + assert (length ds1 < n)%nat as Hroom by lia.
      pose proof (Z.mod_pos_bound r1 b ltac:(lia)) as Hmod. pose proof (Z.div_mod r1 b ltac:(lia)) as Hdm.
      assert (0 <= r1 / b < b ^ (nd - Z.of_nat (S k))) as Hdiv.
      { split; [apply Z.div_pos; lia|]. apply Z.div_lt_upper_bound; [lia|]. rewrite <- Hpow. lia. }
      assert (0 <= b ^ (nd - Z.of_nat (S k)) * Q) by (apply Z.mul_nonneg_nonneg; lia).
      destruct (writing_digit s1 ds1 _ (r1 mod b) (r1 / b + b ^ (nd - Z.of_nat (S k)) * Q) Hw1 Hroom Hmod)
        as (s2 & Hput & Hw2); [lia|rewrite Hpow; lia|].
      exists (s2, Z.of_nat n - Z.of_nat (length (ds1 ++ [r1 mod b])), r1 / b). split.
      * rewrite length_app. cbn [length].
        replace (Z.of_nat n - Z.of_nat (length ds1 + 1)) with (Z.of_nat n - Z.of_nat (length ds1) - 1) by lia.
        destruct (Z.eqb_spec b 10) as [H10|H10].
        -- eapply runs_bind; [|rewrite H10; apply runs_ret].
           rewrite char_of_decimal in Hput by lia. rewrite H10 in Hput, Hdm.
           replace (r1 - r1 / 10 * 10) with (r1 mod 10) by lia. exact Hput.
        -- eapply runs_bind; [apply runs_lift, char_of_digit; lia|].
           eapply runs_bind; [exact Hput|apply runs_ret].
      * exists (ds1 ++ [r1 mod b]). done.
    + exists (s1, Z.of_nat n - Z.of_nat (length ds1), r1). split; [done|]. exists ds1. split; [done|].
      assert (r1 + b ^ (nd - Z.of_nat k) * Q = 0) as Hzero by (apply (writing_full s1 ds1); [done|lia]).
      assert (0 <= b ^ (nd - Z.of_nat k) * Q) by (apply Z.mul_nonneg_nonneg; lia).
      assert (r1 = 0) as -> by lia. assert (Q = 0) as ->.
      { apply (Z.mul_cancel_l Q 0 (b ^ (nd - Z.of_nat k))); lia. }
      rewrite !Z.mul_0_r in *. done.
  - exists ds. change (Z.of_nat 0) with 0. rewrite Z.sub_0_r. done.
  - rewrite Z.sub_0_r, Z2Nat.id, Z.sub_diag, Z.pow_0_r in Hw', Hr' by lia.
    assert (r' = 0) as -> by lia. rewrite Z.add_0_l, Z.mul_1_l in Hw'. exists s', ds'. split; [|done].
    eapply runs_bind; [exact Hrun|]. apply runs_ret.
Qed.

(** [while (i > 0) s[--i] = '0'] *)
Lemma pad_zeros_spec s ds : writing s ds 0 -> exists s' k, runs (pad_zeros (n - length ds) (Z.of_nat o) s) s' /\
  writing s' (ds ++ replicate k 0) 0 /\ (length ds + k = n)%nat.
Proof.
  intros Hw. pose proof (wr_length _ _ _ Hw) as Hl. remember (n - length ds)%nat as j eqn:Hj.
  revert s ds Hw Hl Hj. induction j as [|j IH]; intros s ds Hw Hl Hj.
  { exists s, 0%nat. split; [done|]. rewrite app_nil_r. split; [done|lia]. }
  destruct (writing_digit s ds 0 0 0 Hw) as (s1 & Hput & Hw1); [lia..|].
  destruct (IH s1 (ds ++ [0])) as (s2 & k & Hrun & Hw2 & Hk); [done|rewrite length_app; cbn; lia|rewrite length_app; cbn; lia|].
  exists s2, (S k). split; [|split].
  - cbn [pad_zeros]. eapply runs_bind; [|exact Hrun].
    by replace (Z.of_nat j) with (Z.of_nat n - Z.of_nat (length ds) - 1) by lia.
  - by rewrite <- app_assoc in Hw2.
  - rewrite length_app in Hk. cbn in Hk. lia.
Qed.

End writing.

Lemma chars_app ds es : chars (ds ++ es) = chars es ++ chars ds.
Proof. unfold chars. by rewrite rev_app_distr, map_app. Qed.

Lemma chars_zeros k : chars (replicate k 0) = replicate k 48.
Proof. induction k as [|k IH]; [done|]. rewrite replicate_S_end, chars_snoc, IH. done. Qed.

(** [while (s[i] == '0') ++i] *)
Lemma skip_zeros_run pre k c l fuel : c <> 48 -> (k < fuel)%nat ->
  runs (skip_zeros fuel (pre ++ replicate k 48 ++ c :: l) (Z.of_nat (length pre))) (Z.of_nat (length pre + k)).
Proof.
  intros Hc. revert pre fuel. induction k as [|k IH]; intros pre fuel Hf m; (destruct fuel as [|fuel]; [lia|]); cbn [skip_zeros].
  - rewrite Nat2Z.id, lookup_app_r, Nat.sub_diag by done. cbn. rewrite (proj2 (Z.eqb_neq c 48)) by done.
    by rewrite Nat.add_0_r.
  - rewrite Nat2Z.id, lookup_app_r, Nat.sub_diag by done. cbn.
    specialize (IH (pre ++ [48]) fuel ltac:(lia) m). rewrite length_app, <- app_assoc in IH. cbn in IH.
    replace (Z.of_nat (length pre) + 1) with (Z.of_nat (length pre + 1)) by lia.
    replace (length pre + S k)%nat with (length pre + 1 + k)%nat by lia. exact IH.
Qed.

Section finish.
Context (b v : Z) (n : nat).
Hypothesis Hb : 2 <= b <= 62.
Hypothesis Hv : 0 < v < b ^ Z.of_nat n.

Lemma skip_zeros_spec s ds : writing b v 0 n [0] s ds 0 -> length ds = n -> exists es,
  runs (skip_zeros (S (length s)) s 0) (Z.of_nat n - Z.of_nat (length es)) /\ shown s n (chars es) [0] /\
  base_digits b es /\ from_le b es = v /\ last es <> Some 0 /\ (length es <= n)%nat.
Proof.
  intros [(Hl & Hn & Hd) _ Hds Hval _] Hlen. rewrite Z.mul_0_r, Z.add_0_r in Hval. cbn [Nat.add length] in Hl, Hn, Hd.
  destruct (strip_zeros_le b ds Hds) as (es & k & -> & Hlast & Hes & Hev).
  rewrite length_app, length_replicate in Hlen. rewrite chars_app, chars_zeros in Hd, Hn.
  rewrite length_app, length_replicate, chars_length in Hd, Hn. replace (n - (k + length es))%nat with 0%nat in Hd by lia.
  rewrite drop_0, <- app_assoc in Hd. exists es.
  destruct es as [|d es _] using rev_ind; [change (from_le b []) with 0 in Hev; lia|].
  assert (char_of d <> 48) as Hd48.
  { intros H48. apply Forall_app in Hes as [_ Hdb]. apply Forall_cons in Hdb as [Hdb _]. cbv beta in Hdb.
    apply Hlast. rewrite last_snoc. f_equal. apply (char_of_digit d); [lia|done]. }
  split; [|split; [|split; [done|split; [congruence|split; [done|lia]]]]].
  - rewrite Hd at 2. rewrite chars_snoc. pose proof (skip_zeros_run [] k (char_of d) (chars es ++ [0]) (S (length s)) Hd48) as Hrun.
    cbn [app length] in Hrun |- *. replace (Z.of_nat n - Z.of_nat (length (es ++ [d]))) with (Z.of_nat (0 + k)) by lia.
    apply Hrun. lia.
  - split; [done|]. rewrite chars_length. split; [lia|]. rewrite Hd.
    replace (n - length (es ++ [d]))%nat with k by lia. by rewrite drop_app_length' by (by rewrite length_replicate).
Qed.

End finish.

(** ** Bases that are powers of two *)

Section pow2.
Context (k v : Z) (n : nat).
Hypothesis Hk : 1 <= k <= 5.
Hypothesis Hv : v < (2 ^ k) ^ Z.of_nat n.

Local Notation b := (2 ^ k).

Lemma pow2_base : 2 <= b <= 62.
Proof. clear Hv. assert (k = 1 \/ k = 2 \/ k = 3 \/ k = 4 \/ k = 5) as [->|[->|[->|[->|]]]]; subst; lia. Qed.

Lemma pow2_mask w : Z.land w (b - 1) = w mod b.
Proof. rewrite land_mask by lia. done. Qed.

Lemma pow2_digit w : tab_get digit_chars (w mod b) = OK (char_of (w mod b)).
Proof. clear Hv. pose proof pow2_base. pose proof (Z.mod_pos_bound w b). apply char_of_digit. lia. Qed.

(** The canonical form: every digit written so far is needed. *)
Definition tight (ds : list Z) : Prop := match last ds with Some _ => b ^ (Z.of_nat (length ds) - 1) <= v | None => True end.

Lemma tight_snoc ds d : b ^ Z.of_nat (length ds) <= v -> tight (ds ++ [d]).
Proof. intros H. unfold tight. rewrite last_snoc, length_app. cbn [length]. by replace (Z.of_nat (length ds + 1) - 1) with (Z.of_nat (length ds)) by lia. Qed.

Lemma tight_numeral s ds : writing b v 0 n [0] s ds 0 -> tight ds -> from_le b ds = v /\ last ds <> Some 0.
Proof.
  intros [_ _ Hd Hval _] Ht. rewrite Z.mul_0_r, Z.add_0_r in Hval. split; [done|].
  destruct ds as [|d ds _] using rev_ind; [done|]. rewrite last_snoc. intros [= ->].
  unfold tight in Ht. rewrite last_snoc, length_app in Ht. cbn [length] in Ht.
  replace (Z.of_nat (length ds + 1) - 1) with (Z.of_nat (length ds)) in Ht by lia.
  by apply (tight_last b (proj1 pow2_base) ds 0 v).
Qed.

(** One digit of what is left *)
Lemma pow2_put s ds w r rest : writing b v 0 n [0] s ds rest -> 0 < rest -> rest = w + b * r -> 0 <= w -> 0 <= r -> exists s',
  runs (put_char s (Z.of_nat n - Z.of_nat (length ds) - 1) (char_of (w mod b))) s' /\
  writing b v 0 n [0] s' (ds ++ [w mod b]) (w / b + r) /\ tight (ds ++ [w mod b]).
Proof.
  intros Hw Hpos Hrest Hw0 Hr0. pose proof pow2_base as Hb. pose proof (Z.mod_pos_bound w b ltac:(lia)).
  pose proof (Z.div_mod w b ltac:(lia)). assert (0 <= w / b) by (apply Z.div_pos; lia).
  destruct (writing_digit b v 0 n [0] Hb s ds rest (w mod b) (w / b + r) Hw) as (s' & Hput & Hw'); [|lia|lia|lia|].
  { by apply (writing_room b v 0 n [0] Hb Hv s ds rest). }
  exists s'. split; [done|]. split; [done|]. apply tight_snoc. by eapply (writing_low b v 0 n [0] Hb).
Qed.

(** The digits that lie in one word *)
Lemma pow2_word_spec fuel s ds w nb V : writing b v 0 n [0] s ds (w + 2 ^ nb * V) -> tight ds -> 0 < V -> 0 <= w < 2 ^ nb ->
  0 <= nb < Z.of_nat fuel -> exists s' ds' w' nb',
  runs (pow2_word fuel k (b - 1) s (Z.of_nat n - Z.of_nat (length ds)) w nb)
    (s', Z.of_nat n - Z.of_nat (length ds'), w', nb') /\
  writing b v 0 n [0] s' ds' (w' + 2 ^ nb' * V) /\ tight ds' /\ 0 <= w' < 2 ^ nb' /\ 0 <= nb' < k.
Proof.
  intros Hw Ht HV. revert s ds w nb Hw Ht. induction fuel as [|fuel IH]; intros s ds w nb Hw Ht Hwr Hnb; [lia|].
  cbn [pow2_word]. destruct (Z.leb_spec k nb) as [Hle|Hlt].
  - assert (2 ^ nb = b * 2 ^ (nb - k)) as Hpow by (rewrite <- Z.pow_add_r by lia; f_equal; lia).
    pose proof (Z.pow_pos_nonneg 2 (nb - k) ltac:(lia) ltac:(lia)) as Hp.
    assert (0 < 2 ^ (nb - k) * V) as HpV by (apply Z.mul_pos_pos; lia).
    destruct (pow2_put s ds w (2 ^ (nb - k) * V) _ Hw) as (s1 & Hput & Hw1 & Ht1); [nia|rewrite Hpow; lia|lia|lia|].
    destruct (IH s1 (ds ++ [w mod b]) (w / b) (nb - k)) as (s2 & ds2 & w2 & nb2 & Hrun & Hrest); [done|done| |lia|].
    { split; [apply Z.div_pos; lia|]. apply Z.div_lt_upper_bound; [lia|]. rewrite <- Hpow. lia. }
    exists s2, ds2, w2, nb2. split; [|done].
    rewrite pow2_mask. eapply runs_bind; [apply runs_lift, pow2_digit|]. eapply runs_bind; [exact Hput|].
    rewrite Z.shiftr_div_pow2 by lia. rewrite length_app in Hrun. cbn [length] in Hrun.
    by replace (Z.of_nat n - Z.of_nat (length ds) - 1) with (Z.of_nat n - Z.of_nat (length ds + 1)) by lia.
  - exists s, ds, w, nb. split; [done|]. split; [done|]. split; [done|]. lia.
Qed.

(** The digits of the last word *)
Lemma pow2_last_spec fuel s ds w : writing b v 0 n [0] s ds w -> tight ds -> 0 <= w < 2 ^ Z.of_nat fuel -> exists s' ds',
  runs (pow2_last fuel k (b - 1) s (Z.of_nat n - Z.of_nat (length ds)) w) (s', Z.of_nat n - Z.of_nat (length ds')) /\
  writing b v 0 n [0] s' ds' 0 /\ tight ds'.
Proof.
  revert s ds w. induction fuel as [|fuel IH]; intros s ds w Hw Ht Hwr; cbn [pow2_last].
  { change (2 ^ Z.of_nat 0) with 1 in Hwr. assert (w = 0) as -> by lia. cbn. by exists s, ds. }
  destruct (Z.eqb_spec w 0) as [->|Hw0]; cbn [negb]; [by exists s, ds|].
  pose proof pow2_base as Hb. destruct (pow2_put s ds w 0 w Hw) as (s1 & Hput & Hw1 & Ht1); [lia..|].
  rewrite Z.add_0_r in Hw1.
  destruct (IH s1 (ds ++ [w mod b]) (w / b) Hw1 Ht1) as (s2 & ds2 & Hrun & Hrest).
  { split; [apply Z.div_pos; lia|]. apply Z.div_lt_upper_bound; [lia|].
    rewrite Nat2Z.inj_succ, Z.pow_succ_r in Hwr by lia. nia. }
  exists s2, ds2. split; [|done].
  rewrite pow2_mask. eapply runs_bind; [apply runs_lift, pow2_digit|]. eapply runs_bind; [exact Hput|].
  rewrite Z.shiftr_div_pow2 by lia. rewrite length_app in Hrun. cbn [length] in Hrun.
  by replace (Z.of_nat n - Z.of_nat (length ds) - 1) with (Z.of_nat n - Z.of_nat (length ds + 1)) by lia.
Qed.

End pow2.

(** ** [maxPow] *)

Section maxpow.
Context `{T : Target}.

Lemma maxPow_loop_spec b fuel n p : 2 <= b <= 62 -> p = b ^ n -> 1 <= n -> p <= word_max -> word_max < p * 2 ^ Z.of_nat fuel ->
  exists bb nd, maxPow_loop fuel b (word_max / b) p n = OK (bb, nd) /\ bb = b ^ nd /\ 1 <= nd /\
    bb <= word_max /\ word_max / b <= bb.
Proof.
  intros Hb. revert n p. induction fuel as [|fuel IH]; intros n p Hp Hn Hmax Hfuel; [change (2 ^ Z.of_nat 0) with 1 in Hfuel; lia|].
  cbn [maxPow_loop]. destruct (Z.ltb_spec p (word_max / b)) as [Hlt|Hge].
  - assert (0 < p) as Hp0 by (rewrite Hp; apply Z.pow_pos_nonneg; lia).
    assert (p * b <= word_max) as Hpb.
    { pose proof (Z.mul_div_le word_max b ltac:(lia)). assert ((p + 1) * b <= word_max / b * b) by (apply Z.mul_le_mono_nonneg_r; lia). lia. }
    rewrite wrap_small by (unfold word; unfold word_max in Hpb; fold Base in *; nia).
    rewrite Nat2Z.inj_succ, Z.pow_succ_r in Hfuel by lia.
    apply IH; [|lia|done|].
    + rewrite Hp, Z.add_1_r, Z.pow_succ_r by lia. lia.
    + assert (p * (2 * 2 ^ Z.of_nat fuel) <= p * b * 2 ^ Z.of_nat fuel); [|lia].
      pose proof (Z.pow_pos_nonneg 2 (Z.of_nat fuel) ltac:(lia) ltac:(lia)). nia.
  - by exists p, n.
Qed.

Lemma maxPow_spec b : 2 <= b <= 62 -> exists bb nd, maxPow b = OK (bb, nd) /\ bb = b ^ nd /\ 1 <= nd /\
  1 < bb < Base /\ Base <= bb * bb.
Proof.
  intros Hb. pose proof Base_gt0 as HB.
  assert (2 ^ 32 <= Base <= 2 ^ 64) as HBr by (unfold Base; destruct UintSize_cases as [-> | ->]; lia).
  destruct (maxPow_loop_spec b 64 1 b Hb) as (bb & nd & Hrun & Hbb & Hnd & Hle & Hge).
  - by rewrite Z.pow_1_r.
  - lia.
  - unfold word_max. lia.
  - unfold word_max. change (Z.of_nat 64) with 64. lia.
  - exists bb, nd. split; [exact Hrun|]. split; [done|]. split; [done|].
    unfold word_max in *.
    assert ((Base - 1) / 62 <= (Base - 1) / b) by (apply Z.div_le_compat_l; lia).
    assert (69273666 <= (Base - 1) / 62) by (apply Z.div_le_lower_bound; lia).
    assert (Base - 1 < 62 * ((Base - 1) / 62 + 1)) by (pose proof (Z.mul_succ_div_gt (Base - 1) 62); lia).
    split; [lia|]. assert (69273666 * bb <= bb * bb) by (apply Z.mul_le_mono_nonneg_r; lia). lia.
Qed.

End maxpow.
