(* ===== verification/NatConvSpec.v ===== *)
(** * Conversion to text: specifications

    The number of bits, the loop of [convertWords] that divides by the big
    base, and what [natI2a] writes for bases that are powers of two. *)

From S2P Require Import Prelude Words Digits Carry Shift DivWord Memory Logic NatCore Loops NatDiv NatDivSpec NatConv NatText.
From iris.proofmode Require Import proofmode.
From iris.base_logic.lib Require Import own ghost_map.

Local Open Scope Z_scope.
Local Open Scope c_scope.

Section specs.
Context `{T : Target} `{!memGS Σ}.

Lemma wp_runs {A} (c : M A) a Φ : runs c a → Φ a ⊢ wp c Φ.
Proof. iIntros (Hc) "H". iIntros (m) "Hm !>". iExists a, m. by iFrame. Qed.

(** ** [natBitLen] *)

Lemma smear_log2 x n : 0 < x → 0 <= n → 0 < Z.lor x (Z.shiftr x n) ∧ Z.log2 (Z.lor x (Z.shiftr x n)) = Z.log2 x.
Proof.
  intros Hx Hn. assert (0 <= Z.shiftr x n) by (apply Z.shiftr_nonneg; lia).
  assert (Z.log2 (Z.shiftr x n) <= Z.log2 x) as Hle.
  { apply Z.log2_le_mono. rewrite Z.shiftr_div_pow2; [|done].
    pose proof (Z.pow_pos_nonneg 2 n ltac:(lia) Hn). apply Z.div_le_upper_bound; [done|]. nia. }
  rewrite Z.log2_lor; [|lia..]. split; [|lia].
  assert (0 <= Z.lor x (Z.shiftr x n)) by (by apply Z.lor_nonneg; split; lia).
  assert (Z.lor x (Z.shiftr x n) ≠ 0); [|lia]. intros [Hz _]%Z.lor_eq_0_iff. lia.
Qed.

Lemma wp_natBitLen x dq xs Φ : digits xs → normalized xs → xs ≠ [] →
  view x dq xs -∗ (view x dq xs -∗ Φ (Z.log2 (value xs) + 1)) -∗ wp (natBitLen x) Φ.
Proof.
  iIntros (Hd Hn Hne) "[%Hl Hx] HΦ". rewrite /natBitLen.
  destruct xs as [|top xs _] using rev_ind; [done|]. rewrite length_app /= in Hl.
  apply digits_app in Hd as [Hd [Ht _]%digits_cons].
  assert (top ≠ 0) as Ht0. { intros ->. apply Hn. by rewrite last_snoc. }
  rewrite (proj2 (Z.leb_le 0 (len x - 1))); [|lia]. iApply wp_bind.
  iApply (wp_load_opt _ _ _ _ top with "Hx"); [lia| |].
  { rewrite lookup_app_r; [|lia]. by replace (Z.to_nat (len x - 1) - length xs)%nat with O by lia. }
  iIntros "Hx".
  destruct (smear_log2 top 1) as [P1 L1]; [lia..|]. set (t1 := Z.lor top _) in *.
  destruct (smear_log2 t1 2) as [P2 L2]; [lia..|]. set (t2 := Z.lor t1 _) in *.
  destruct (smear_log2 t2 4) as [P3 L3]; [lia..|]. set (t3 := Z.lor t2 _) in *.
  destruct (smear_log2 t3 8) as [P4 L4]; [lia..|]. set (t4 := Z.lor t3 _) in *.
  destruct (smear_log2 t4 16) as [P5 L5]; [lia..|]. set (t5 := Z.lor t4 _) in *.
  rewrite Z.shiftr_shiftr; [|lia]. change (16 + 16) with 32.
  destruct (smear_log2 t5 32) as [P6 L6]; [lia..|]. set (t6 := Z.lor t5 _) in *.
  assert (Z.log2 t6 = Z.log2 top) as Hlog by congruence.
  assert (Z.log2 top < UintSize) as Hlt by (apply Z.log2_lt_pow2; [lia|fold Base; lia]).
  assert (word UintSize t6) as Hw. { split; [lia|]. apply Z.log2_lt_pow2; lia. }
  iApply wp_bind. iApply wp_lift; [by apply Len_eq|]. iApply wp_ret.
  assert ((len x - 1) * UintSize + bitlen t6 = Z.log2 (value (xs ++ [top])) + 1) as ->.
  { rewrite /bitlen (proj2 (Z.eqb_neq t6 0)); [|lia]. rewrite Hlog value_snoc.
    pose proof (value_bound xs Hd) as Hb. pose proof (Z.log2_spec top ltac:(lia)) as Hs.
    assert (Bpow (length xs) = 2 ^ (UintSize * Z.of_nat (length xs))) as HB.
    { rewrite /Bpow /Base. rewrite -Z.pow_mul_r; [done| |lia]. destruct UintSize_cases as [-> | ->]; lia. }
    assert (0 < UintSize) by (destruct UintSize_cases as [-> | ->]; lia).
    pose proof (Z.log2_nonneg top).
    assert (0 <= UintSize * Z.of_nat (length xs)) as HP0 by (apply Z.mul_nonneg_nonneg; lia).
    rewrite (Z.log2_unique (value xs + Bpow (length xs) * top) (UintSize * Z.of_nat (length xs) + Z.log2 top)); [lia|lia|].
    rewrite HB in Hb |- *. rewrite -Z.add_succ_r !Z.pow_add_r; [|lia..].
    pose proof (Z.pow_pos_nonneg 2 (UintSize * Z.of_nat (length xs)) ltac:(lia) HP0) as HA.
    set (A := 2 ^ (UintSize * Z.of_nat (length xs))) in *.
    assert (A * 2 ^ Z.log2 top <= A * top)%Z by (apply Z.mul_le_mono_nonneg_l; lia).
    rewrite Z.pow_succ_r in Hs; [|done].
    assert (A * (top + 1) <= A * (2 ^ Z.log2 top * 2 ^ 1))%Z by (apply Z.mul_le_mono_nonneg_l; lia). lia. }
  iApply "HΦ". iFrame. iPureIntro. rewrite length_app /=. lia.
Qed.

(** ** Division by the big base *)

Lemma wp_leaf_loop b v o n tail nd bb fuel q qs s ds i Φ :
  i = Z.of_nat n - Z.of_nat (length ds) →
  2 <= b <= 62 → v < b ^ Z.of_nat n → bb = b ^ nd → 1 <= nd → 1 < bb < Base →
  digits qs → normalized qs → value qs < bb ^ Z.of_nat fuel → writing b v o n tail s ds (value qs) →
  owned q qs -∗
  (∀ q' s' ds', ⌜writing b v o n tail s' ds' 0⌝ -∗ owned q' [] -∗ Φ (q', s', Z.of_nat n - Z.of_nat (length ds'))) -∗
  wp (leaf_loop fuel q b nd bb (Z.of_nat o) s i) Φ.
Proof.
  intros Hi Hb Hv Hbb Hnd Hbr. revert q qs s ds i Hi.
  induction fuel as [|fuel IH]; intros q qs s ds i -> Hdq Hnq Hfuel Hw; iIntros "Hq HΦ"; cbn [leaf_loop].
  all: iDestruct (owned_len with "Hq") as %Hlq.
  all: pose proof (value_nonneg qs Hdq) as Hq0.
  - change (bb ^ Z.of_nat 0) with 1 in Hfuel.
    assert (qs = []) as -> by (apply normalized_value_0; [done|done|lia]).
    rewrite Hlq /=. iApply wp_ret. iApply ("HΦ" with "[%] Hq"). done.
  - destruct (Z.ltb_spec 0 (len q)) as [Hpos|Hz].
    + assert (qs ≠ []) as Hne by (intros ->; simpl in *; lia).
      iDestruct (owned_view with "Hq") as "[Hv Hcl]". iApply wp_bind.
      iApply (wp_natDivW with "Hv"); [done|done|lia|].
      iIntros (nq nqs (Hdn & Hnn & Hvn)) "Hnq Hv". iApply wp_bind. iApply wp_defined; [done|].
      iDestruct ("Hcl" $! qs with "[//] Hv") as "Hq". iApply wp_bind.
      iApply (wp_natFree_owned with "Hq").
      pose proof (Z.mod_pos_bound (value qs) bb ltac:(lia)) as Hmod.
      pose proof (Z.div_mod (value qs) bb ltac:(lia)) as Hdm.
      assert (0 <= value nqs) as Hn0 by (by apply value_nonneg).
      destruct (word_digits_spec b v o n tail Hb Hv nd s ds (value qs mod bb) (value nqs)) as (s' & ds' & Hrun & Hw');
        [lia| |by rewrite -Hbb|done|].
      { replace (value qs mod bb + b ^ nd * value nqs)%Z with (value qs); [done|]. rewrite Hvn -Hbb. lia. }
      iApply wp_bind. iApply (wp_runs _ _ _ Hrun).
      iApply (IH nq nqs s' ds' _ eq_refl with "Hnq HΦ"); try done.
      rewrite Hvn. apply Z.div_lt_upper_bound; [lia|]. by rewrite Nat2Z.inj_succ Z.pow_succ_r in Hfuel; [|lia].
    + assert (qs = []) as -> by (destruct qs; [done|simpl in *; lia]).
      iApply wp_ret. iApply ("HΦ" with "[%] Hq"). done.
Qed.

(** ** Bases that are powers of two *)

Lemma TrailingZeros_pow2 k : 1 <= k <= 5 → TrailingZeros (2 ^ k) = OK k.
Proof.
  intros Hk. assert (k = 1 ∨ k = 2 ∨ k = 3 ∨ k = 4 ∨ k = 5) as [->|[->|[->|[->| ->]]]] by lia;
    rewrite /TrailingZeros; destruct UintSize_cases as [-> | ->]; by vm_compute.
Qed.

(** The digit that straddles two words *)
Lemma straddle k nb w x : 0 < nb < k → k <= UintSize → 0 <= w < 2 ^ nb → 0 <= x →
  Z.land (Z.lor w (w_shl UintSize x nb)) (2 ^ k - 1) = (w + 2 ^ nb * x) mod 2 ^ k ∧
  (w + 2 ^ nb * x) / 2 ^ k = x / 2 ^ (k - nb).
Proof.
  intros Hnb Hk Hw Hx. assert (0 < 2 ^ nb) by (apply Z.pow_pos_nonneg; lia). split.
  - rewrite land_mask; [|lia]. rewrite -Z.land_ones; [|lia]. rewrite -Z.land_ones; [|lia].
    assert (w + 2 ^ nb * x = Z.lor w (Z.shiftl x nb)) as ->.
    { rewrite Z.lor_comm Z.shiftl_mul_pow2; [|lia]. rewrite lor_shifted_add; lia. }
    rewrite !Z.land_lor_distr_l. f_equal. rewrite /w_shl /wrap -Z.land_ones; [|lia].
    rewrite -Z.land_assoc. f_equal. apply Z.bits_inj'. intros i Hi.
    rewrite Z.land_spec !Z.testbit_ones; [|lia..].
    destruct (Z.ltb_spec i k), (Z.ltb_spec i UintSize); rewrite ?(proj2 (Z.leb_le 0 i)) //; lia.
  - replace k with (nb + (k - nb)) at 1 by lia. rewrite Z.pow_add_r; [|lia..].
    rewrite -Z.div_div; [|lia|apply Z.pow_pos_nonneg; lia]. f_equal.
    rewrite Z.mul_comm Z.div_add; [|lia]. rewrite Z.div_small; lia.
Qed.

Lemma drop_pos xs j : digits xs → normalized xs → (j < length xs)%nat → 0 < value (drop j xs).
Proof.
  intros Hd Hn Hj. assert (normalized (drop j xs)) as Hnd.
  { rewrite /normalized last_lookup lookup_drop length_drop.
    replace (j + Nat.pred (length xs - j))%nat with (Nat.pred (length xs)) by lia. by rewrite -last_lookup. }
  pose proof (normalized_bound (drop j xs) (digits_drop j xs Hd) Hnd) as Hb.
  assert (drop j xs ≠ []) as Hne. { intros H0. apply (f_equal length) in H0. rewrite length_drop /= in H0. lia. }
  specialize (Hb Hne).
  pose proof (Bpow_gt0 (length (drop j xs) - 1)). lia.
Qed.

Lemma wp_i2a_pow2 x dq xs k n Φ :
  1 <= k <= 5 → digits xs → normalized xs → xs ≠ [] → value xs < (2 ^ k) ^ Z.of_nat n →
  view x dq xs -∗
  (∀ s es, ⌜shown s n (chars es) [0] ∧ base_digits (2 ^ k) es ∧ from_le (2 ^ k) es = value xs ∧ last es ≠ Some 0 ∧ (length es <= n)%nat⌝ -∗
     view x dq xs -∗ Φ (s, Z.of_nat n - Z.of_nat (length es))) -∗
  wp (i2a_pow2 x (2 ^ k) (replicate (S n) 0) (Z.of_nat n)) Φ.
Proof.
  iIntros (Hk Hd Hn Hne Hv) "[%Hlx Hx] HΦ". rewrite /i2a_pow2.
  assert (32 <= UintSize <= 64) as HU by (destruct UintSize_cases as [-> | ->]; lia).
  iApply wp_bind. iApply wp_lift; [by apply TrailingZeros_pow2|].
  assert (u64 (Z.shiftl 1 k) - 1 = 2 ^ k - 1) as ->.
  { pose proof (pow2_base k Hk). rewrite Z.shiftl_1_l wrap_small; [done|]. unfold word. lia. }
  destruct xs as [|x0 xs']; [done|]. set (xs := x0 :: xs') in *.
  pose proof Hd as [Hx0 _]%digits_cons. iApply wp_bind.
  iApply (wp_load_opt _ _ _ _ x0 with "Hx"); [done|done|]. iIntros "Hx". iApply wp_bind.
  iApply (wp_for_up (λ j st, let '(s, i, w, nb) := st in ∃ ds,
      ⌜i = Z.of_nat n - Z.of_nat (length ds) ∧ writing (2 ^ k) (value xs) 0 n [0] s ds (w + 2 ^ nb * value (drop (S j) xs)) ∧
       tight k (value xs) ds ∧ 0 <= w < 2 ^ nb ∧ 0 <= nb <= UintSize⌝ ∗ arr_opt (data x) dq xs)%I with "[Hx]").
  - iIntros (j [[[s i] w] nb] Hj) "(%ds & (-> & Hw & Ht & Hwr & Hnb) & Hx)". iDestruct "Hw" as %Hw.
    iDestruct "Ht" as %Ht. iDestruct "Hwr" as %Hwr. iDestruct "Hnb" as %Hnb.
    destruct (lookup_lt_is_Some_2 xs (S j)) as [xj Hxj]; [lia|].
    pose proof (digits_lookup _ _ _ Hd Hxj) as Hxjr.
    pose proof (drop_pos xs (S j) Hd Hn ltac:(lia)) as HV.
    assert (value (drop (S j) xs) = xj + Base * value (drop (S (S j)) xs))%Z as HVs
      by (rewrite (drop_S xs xj (S j) Hxj) value_cons //).
    pose proof (value_nonneg _ (digits_drop (S (S j)) xs Hd)) as HV'.
    destruct (pow2_word_spec k (value xs) n Hk Hv 65 s ds w nb (value (drop (S j) xs)) Hw Ht HV Hwr ltac:(lia))
      as (s1 & ds1 & w1 & nb1 & Hrun & Hw1 & Ht1 & Hw1r & Hnb1).
    iApply wp_bind. iApply (wp_runs _ _ _ Hrun). destruct (Z.eqb_spec nb1 0) as [->|Hnb0].
    + iApply wp_bind. iApply (wp_load_opt _ _ _ _ xj with "Hx"); [lia|rewrite -Hxj; f_equal; lia|]. iIntros "Hx".
      iApply wp_ret. iExists ds1. iFrame. iPureIntro. split; [done|]. split; [|split; [done|split; [done|lia]]].
      change (2 ^ 0) with 1 in *. assert (w1 = 0) as -> by lia. rewrite HVs Z.add_0_l Z.mul_1_l in Hw1. exact Hw1.
    + iApply wp_bind. iApply (wp_load_opt _ _ _ _ xj with "Hx"); [lia|rewrite -Hxj; f_equal; lia|]. iIntros "Hx".
      destruct (straddle k nb1 w1 xj) as [Hland Hdiv]; [lia|lia|lia|lia|].
      set (W := (w1 + 2 ^ nb1 * xj)%Z) in *. set (nb2 := UintSize - (k - nb1)).
      assert (2 ^ nb1 * Base = 2 ^ k * 2 ^ nb2) as Hpow by (rewrite /Base /nb2 -!Z.pow_add_r; [f_equal; lia|lia..]).
      assert (0 < 2 ^ nb1) by (apply Z.pow_pos_nonneg; lia). assert (0 < 2 ^ nb2) by (apply Z.pow_pos_nonneg; lia).
      destruct (pow2_put k (value xs) n Hk Hv s1 ds1 W (2 ^ nb2 * value (drop (S (S j)) xs)) _ Hw1)
        as (s2 & Hput & Hw2 & Ht2).
      { assert (0 < 2 ^ nb1 * value (drop (S j) xs)) by (apply Z.mul_pos_pos; lia). lia. }
      { rewrite HVs Z.mul_assoc -Hpow /W. lia. } { rewrite /W. assert (0 <= 2 ^ nb1 * xj) by (apply Z.mul_nonneg_nonneg; lia). lia. }
      { apply Z.mul_nonneg_nonneg; lia. }
      rewrite Hland. iApply wp_bind. iApply wp_lift; [exact (pow2_digit k Hk W)|].
      iApply wp_bind. iApply (wp_runs _ _ _ Hput). iApply wp_ret. iExists (ds1 ++ [W mod 2 ^ k]). iFrame. iPureIntro.
      rewrite length_app /=. split; [lia|]. rewrite Z.shiftr_div_pow2; [|lia]. rewrite -Hdiv. split; [exact Hw2|].
      split; [exact Ht2|]. split; [|lia]. rewrite Hdiv. split; [apply Z.div_pos; [lia|apply Z.pow_pos_nonneg; lia]|].
      apply Z.div_lt_upper_bound; [apply Z.pow_pos_nonneg; lia|].
      rewrite -Z.pow_add_r; [|lia..]. replace (k - nb1 + nb2) with UintSize by lia. fold Base. lia.
  - iExists []. iFrame. iPureIntro. split; [simpl; lia|]. split; [|split; [done|split; [fold Base; lia|lia]]].
    assert (value xs = x0 + 2 ^ UintSize * value (drop 1 xs))%Z as <- by done.
    apply writing_start; [apply shown_start|by apply value_nonneg].
  - iIntros ([[[s i] w] nb]) "(%ds & (-> & Hw & Ht & Hwr & Hnb) & Hx)". iDestruct "Hw" as %Hw.
    iDestruct "Ht" as %Ht. iDestruct "Hwr" as %Hwr. iDestruct "Hnb" as %Hnb.
    rewrite drop_ge in Hw; [|simpl in *; lia]. rewrite value_nil Z.mul_0_r Z.add_0_r in Hw.
    destruct (pow2_last_spec k (value xs) n Hk Hv 65 s ds w Hw Ht) as (s' & ds' & Hrun & Hw' & Ht').
    { split; [lia|]. eapply Z.lt_le_trans; [apply Hwr|]. apply Z.pow_le_mono_r; lia. }
    iApply (wp_runs _ _ _ Hrun). destruct (tight_numeral k (value xs) n Hk s' ds' Hw' Ht') as [Hval Hlast].
    iApply ("HΦ" with "[%] [$Hx]"); [|done]. split; [apply Hw'|]. split; [apply Hw'|].
    split; [done|]. split; [done|]. by eapply wr_length.
Qed.
End specs.
