(* ===== verification/DivisorsSpec.v ===== *)
(** * The table of divisors: specification of natconv.c's [divisors]

    The divisors are powers of the base of about 8, 16, 32 and 64 words, each
    grown to the largest power of the same length, together with their number
    of bits and of digits. *)

From S2P Require Import Prelude Words Digits Shift DivWord Memory Logic NatCore Loops NatMul NatSqrSpec NatDiv NatDivSpec NatConv NatExpSpec NatText NatConvSpec.
From iris.proofmode Require Import proofmode.
From iris.base_logic.lib Require Import own ghost_map.

Local Open Scope Z_scope.
Local Open Scope c_scope.

Section specs.
Context `{T : Target} `{!memGS Σ}.

(** ** One divisor *)

(** The digits [ds] of divisor [i] *)
Definition divisor_digits (b : Z) (i : nat) (d : divisor) (ds : list Z) : Prop :=
  digits ds ∧ normalized ds ∧ 0 < ndigits d ∧ value ds = b ^ ndigits d ∧
  nbits d = Z.log2 (value ds) + 1 ∧ (2 <= length ds <= 8 * 2 ^ i)%nat.

Definition divisor_rep (b : Z) (i : nat) (d : divisor) : iProp Σ :=
  ∃ ds, ⌜divisor_digits b i d ds⌝ ∗ owned (bbb d) ds.

Definition table_rep (b : Z) (table : list divisor) : iProp Σ :=
  [∗ list] i ↦ d ∈ table, divisor_rep b i d.

Lemma table_rep_snoc b table d :
  table_rep b (table ++ [d]) ⊣⊢ table_rep b table ∗ divisor_rep b (length table) d.
Proof. apply big_sepL_snoc. Qed.

(** Growing the divisor keeps its length: [larger] runs ahead by one factor. *)
Lemma wp_divisors_grow b larger rest dst rest' ds nd (f : nat) Φ :
  2 <= b <= 62 → digits ds → normalized ds → value ds = b ^ nd → 0 < nd →
  len larger = Z.of_nat (length ds) → Z.of_nat (length ds) <= cap dst →
  Bpow (length ds) <= value ds * 2 ^ Z.of_nat f →
  arr_opt (data larger) (DfracOwn 1) (ds ++ rest) -∗ arr_opt (data dst) (DfracOwn 1) (ds ++ rest') -∗
  (∀ ls ds' nd', ⌜length ls = length ds ∧ length ds' = length ds ∧ digits ds' ∧ normalized ds' ∧
      value ds' = b ^ nd' ∧ 0 < nd' ∧ value ds <= value ds'⌝ -∗
     arr_opt (data larger) (DfracOwn 1) (ls ++ rest) -∗ arr_opt (data dst) (DfracOwn 1) (ds' ++ rest') -∗ Φ nd') -∗
  wp (divisors_grow (S f) larger dst b nd) Φ.
Proof.
  iIntros (Hb Hd Hn Hv Hnd Hll Hcap Hf) "Hl Hdst HΦ". pose proof Base_pos.
  iInduction f as [|f IH] forall (ds nd Hd Hn Hv Hnd Hll Hcap Hf).
  { pose proof (value_bound ds Hd). change (2 ^ Z.of_nat 0) with 1 in Hf. lia. }
  cbn [divisors_grow]. rewrite arr_opt_app. iDestruct "Hl" as "[Hl Hr]". iApply wp_bind.
  iApply (wp_mulAddVWW True larger larger ds ds b 0 with "Hl [//]"); try done; [lia|lia|apply reads_self|].
  iIntros (outs c (Hlo & Hdo & Hc & Hvo)) "Hl _". rewrite Z.add_0_r in Hvo.
  destruct (Z.eqb_spec c 0) as [->|Hc0].
  - rewrite Z.mul_0_r Z.add_0_r in Hvo. iApply wp_bind.
    iApply (wp_natCopy dst ds rest' larger (DfracOwn 1) outs with "Hdst [$Hl]"); [lia|lia|iPureIntro; lia|].
    iIntros "Hdst [_ Hl]".
    assert (0 < value ds) by (rewrite Hv; apply Z.pow_pos_nonneg; lia).
    assert (value ds <= value outs) by nia.
    iApply ("IH" $! outs (nd + 1) with "[%] [%] [%] [%] [%] [%] [%] [Hl Hr] Hdst"); try done; try lia.
    + by apply (normalized_larger ds).
    + rewrite Hvo Hv Z.pow_add_r; lia.
    + rewrite Hlo. etransitivity; [exact Hf|]. rewrite Hvo Nat2Z.inj_succ Z.pow_succ_r; [|lia].
      pose proof (Z.pow_pos_nonneg 2 (Z.of_nat f) ltac:(lia) ltac:(lia)). nia.
    + rewrite arr_opt_app Hlo. iFrame.
    + rewrite Hlo. iIntros (ls ds' nd' (? & ? & ? & ? & ? & ? & ?)) "Hl Hdst".
      iApply ("HΦ" with "[%] Hl Hdst"). split_and!; try done. lia.
  - iApply wp_ret. iApply ("HΦ" $! outs ds nd with "[%] [Hl Hr] Hdst"); [done|].
    rewrite arr_opt_app Hlo. iFrame.
Qed.
(** Growing a power, and its measures *)
Lemma wp_divisor b (i : nat) table (d : nat_t) ds nd Φ :
  2 <= b <= 62 → digits ds → normalized ds → 0 < nd → value ds = b ^ nd → (2 <= length ds <= 8 * 2 ^ i)%nat →
  owned d ds -∗ (∀ x, divisor_rep b i x -∗ Φ (table ++ [x])) -∗
  wp (let! larger := natDup d in
      let! nd := divisors_grow (S (Z.to_nat (UintSize * len d))) larger d b nd in
      let! nb := natBitLen d in
      let! _ := natFree larger in
      ret (table ++ [Divisor d nb nd])) Φ.
Proof.
  iIntros (Hb Hd Hn Hnd Hv Hlen) "Hd HΦ". pose proof UintSize_pos.
  iDestruct (owned_cap with "Hd") as "[[%Hld %Hcap] Hd]".
  iDestruct (owned_view with "Hd") as "[Hdv Hcl]". iApply wp_bind.
  iApply (wp_natDup with "Hdv"). iIntros (larger) "Hl [_ Hdv]".
  iDestruct (owned_len with "Hl") as %Hll. iDestruct (owned_view with "Hl") as "[[_ Hl] Hcll]". iApply wp_bind.
  iApply (wp_divisors_grow b larger [] d [] ds nd _ with "[Hl] [Hdv]"); rewrite ?app_nil_r; try done; [lia| |].
  { assert (0 <= UintSize * len d) as He by (apply Z.mul_nonneg_nonneg; lia).
    rewrite Z2Nat.id; [|done]. rewrite /Bpow /Base -Z.pow_mul_r; [|lia..]. rewrite -Hld.
    assert (0 < value ds) by (rewrite Hv; apply Z.pow_pos_nonneg; lia).
    pose proof (Z.pow_pos_nonneg 2 _ ltac:(lia) He). nia. }
  iIntros (ls ds' nd' (Hl1 & Hl2 & Hd' & Hn' & Hv' & Hnd' & _)) "Hl Hd". rewrite !app_nil_r.
  iDestruct ("Hcll" $! ls with "[//] [Hl]") as "Hl"; [iFrame; iPureIntro; lia|]. iApply wp_bind.
  iApply (wp_natBitLen d _ ds' with "[Hd]"); [done|done| |iFrame; iPureIntro; lia|].
  { intros ->. simpl in Hl2. lia. }
  iIntros "Hd". iDestruct ("Hcl" $! ds' with "[//] Hd") as "Hd". iApply wp_bind.
  iApply (wp_natFree_owned with "Hl"). iApply wp_ret. iApply "HΦ". iExists ds'. iFrame. iPureIntro.
  split_and!; cbn [ndigits nbits]; done || lia.
Qed.

(** The power that divisor [i] starts from: the eighth power of the big base,
    or the square of the divisor before *)
Lemma wp_divisor_start b bb nd0 (i : nat) (table : list divisor) Φ :
  2 <= b <= 62 → bb = b ^ nd0 → 1 <= nd0 → 1 < bb < Base → Base <= bb * bb →
  length table = i → (i <= 3)%nat →
  table_rep b table -∗
  (∀ d ds nd, ⌜digits ds ∧ normalized ds ∧ 0 < nd ∧ value ds = b ^ nd ∧ (2 <= length ds <= 8 * 2 ^ i)%nat⌝ -∗
     owned d ds -∗ table_rep b table -∗ Φ (d, nd)) -∗
  wp (match last table with
      | None =>
          let! z := natNewLen 0 in
          let! d := natExpWW z bb leafSize in
          ret (d, nd0 * leafSize)
      | Some t =>
          let! d := natSqr (bbb t) in
          ret (d, 2 * ndigits t)
      end) Φ.
Proof.
  iIntros (Hb Hbb Hnd Hbr Hsq Hi Hi3) "Ht HΦ". destruct table as [|t table _] using rev_ind.
  - simpl in Hi. subst i. cbn [last]. iApply wp_bind. iApply wp_natNewLen; [done|]. iIntros (z [Hlz Hcz]) "Hz".
    iApply wp_bind. iApply (wp_natExpWW z _ bb leafSize with "Hz"); [done| |done|simpl; lia|].
    { unfold leafSize, Base. destruct UintSize_cases as [-> | ->]; lia. }
    iIntros (d ds (Hd & Hn & Hv)) "Hd". iApply wp_ret. iApply ("HΦ" with "[%] Hd Ht").
    unfold leafSize in *. pose proof (power_length ds bb 8 Hd Hn Hbr ltac:(lia) Hv).
    assert (1 < length ds)%nat.
    { apply value_length; [done|]. rewrite /Bpow Z.pow_1_r Hv. change 8 with (2 + 6). rewrite Z.pow_add_r; [|lia..].
      rewrite Z.pow_2_r. pose proof (Z.pow_pos_nonneg bb 6 ltac:(lia) ltac:(lia)). nia. }
    split_and!; try done; [lia| |simpl; lia]. by rewrite Hv Hbb Z.pow_mul_r; [|lia..].
  - assert (last (table ++ [t]) = Some t) as -> by apply last_snoc.
    iDestruct (table_rep_snoc with "Ht") as "[Ht (%ts & (%Hd & %Hn & %Hnd' & %Hv & %Hnb & %Hlen) & Hts)]".
    rewrite length_app Nat.add_1_r in Hi. subst i.
    iDestruct (owned_view with "Hts") as "[Htv Hcl]". iApply wp_bind.
    assert (8 * 2 ^ length table <= 32)%nat as Hsmall.
    { destruct (length table) as [|[|[|]]]; simpl; lia. }
    iApply (wp_natSqr with "Htv"); [apply view_half|done|unfold karatsubaSqrThreshold; lia|].
    iIntros (d ds (Hds & Hns & Hvs)) "Hd Htv". iDestruct ("Hcl" with "[//] Htv") as "Hts". iApply wp_ret.
    iApply ("HΦ" with "[%] Hd [Ht Hts]").
    + assert (0 < value ts) by (rewrite Hv; apply Z.pow_pos_nonneg; lia).
      assert (1 < length ds)%nat.
      { apply value_length; [done|]. pose proof (normalized_bound ts Hd Hn ltac:(intros ->; simpl in *; lia)).
        pose proof (Bpow_mono 1 (length ts - 1) ltac:(lia)). rewrite Hvs. nia. }
      assert (length ds <= length ts + length ts)%nat.
      { apply length_value; [done..|]. rewrite Bpow_add Hvs. pose proof (value_bound ts Hd).
        apply Z.mul_lt_mono_nonneg; lia. }
      split_and!; try done; [lia|rewrite Hvs Hv Z.pow_twice_r //|rewrite Nat.pow_succ_r'; lia].
    + iApply table_rep_snoc. iFrame. by iPureIntro.
Qed.

(** ** The table *)

Lemma divisors_count_step fuel w m k : 0 <= w < 2 ^ 31 →
  divisors_count (S fuel) w m k = if w <? Z.shiftr m 1 then divisors_count fuel (2 * w) m (k + 1) else k.
Proof.
  intros Hw. cbn [divisors_count]. rewrite Z.shiftl_mul_pow2; [|done]. change (2 ^ 1) with 2.
  rewrite (Z.mul_comm w 2) wrap_small; [done|]. unfold word. destruct UintSize_cases as [-> | ->]; lia.
Qed.

Lemma divisors_count_range m : 8 < m <= 129 → 1 <= divisors_count 64 leafSize m 1 <= 4.
Proof.
  intros Hm. assert (Z.shiftr m 1 <= 64) as Hh.
  { rewrite Z.shiftr_div_pow2; [|done]. apply Z.lt_succ_r, Z.div_lt_upper_bound; lia. }
  unfold leafSize.
  do 4 (rewrite divisors_count_step; [|lia]; case_match; [|lia]). lia.
Qed.

Lemma wp_divisors m b nd0 bb Φ :
  2 <= b <= 62 → bb = b ^ nd0 → 1 <= nd0 → 1 < bb < Base → Base <= bb * bb → m <= 129 →
  (∀ table, ⌜(table = [] ↔ m <= leafSize) ∧ (length table <= 4)%nat⌝ -∗ table_rep b table -∗ Φ table) -∗
  wp (divisors m b nd0 bb) Φ.
Proof.
  iIntros (Hb Hbb Hnd Hbr Hsq Hm) "HΦ". rewrite /divisors. cbn [orb Z.eqb leafSize].
  destruct (Z.leb_spec m leafSize) as [Hle|Hgt]; unfold leafSize in *.
  { iApply wp_ret. iApply "HΦ"; [iPureIntro; split; [done|simpl; lia]|]. by iApply big_sepL_nil. }
  pose proof (divisors_count_range m ltac:(lia)) as Hk. unfold leafSize in Hk. set (k := divisors_count _ _ _ _) in *.
  iApply wp_bind. iApply wp_malloc_ok.
  iApply (wp_for_up (λ i table, ⌜length table = i⌝ ∗ table_rep b table)%I with "[]").
  - iIntros (i table Hi) "[%Hlt Ht]". iApply wp_bind.
    iApply (wp_divisor_start b bb nd0 i table with "Ht"); [done..|lia|].
    iIntros (d ds nd (Hd & Hn & Hnd' & Hv & Hlen)) "Hd Ht".
    iApply (wp_divisor b i table d ds nd with "Hd"); [done..|]. iIntros (x) "Hx".
    iSplit; [iPureIntro; rewrite length_app /=; lia|]. iApply table_rep_snoc. rewrite Hlt. iFrame.
  - iSplit; [done|]. by iApply big_sepL_nil.
  - iIntros (table) "[%Hlt Ht]". iApply ("HΦ" with "[%] Ht"). split; [|lia]. split; [|lia].
    intros ->. simpl in Hlt. lia.
Qed.
End specs.
