(* ===== verification/ConvertSpec.v ===== *)
(** * Splitting a number into digits: specification of natconv.c's [convertWords]

    [convertWords] divides by the largest divisor of about half the length,
    converts the remainder with the smaller divisors, and ends with divisions
    by the big base.  It fills its window of the buffer with the digits of the
    number. *)

From S2P Require Import Prelude Words Digits Shift DivWord Memory Logic NatCore NatDiv NatDivSpec NatConv NatText NatConvSpec DivisorsSpec.
From iris.proofmode Require Import proofmode.
From iris.base_logic.lib Require Import own ghost_map.

Local Open Scope Z_scope.
Local Open Scope c_scope.

(** ** The choice of a divisor *)

Lemma table_get_runs (table : list divisor) (i : nat) d :
  table !! i = Some d → runs (table_get table (Z.of_nat i)) d.
Proof.
  intros Hd m. rewrite /table_get (proj2 (Z.leb_le _ _)); [|lia]. by rewrite Nat2Z.id Hd.
Qed.

(** [pick_index] stops at the first divisor, or above one of at most [minLen]
    bits. *)
Lemma pick_index_spec (table : list divisor) minLen (i : nat) : (i <= length table)%nat →
  ∃ j : nat, runs (pick_index i table (Z.of_nat i) minLen) (Z.of_nat j) ∧ (j <= i)%nat ∧
    (j = 0%nat ∨ ∃ d, table !! (j - 1)%nat = Some d ∧ nbits d <= minLen).
Proof.
  induction i as [|i IH]; intros Hi; cbn [pick_index].
  { exists 0%nat. split; [done|]. split; [done|by left]. }
  rewrite (proj2 (Z.ltb_lt 0 _)); [|lia]. replace (Z.of_nat (S i) - 1) with (Z.of_nat i) by lia.
  destruct (lookup_lt_is_Some_2 table i) as [d Hd]; [lia|].
  destruct (Z.ltb_spec minLen (nbits d)) as [Hlt|Hge].
  - destruct IH as (j & Hrun & Hle & Hj); [lia|]. exists j. split; [|split; [lia|done]].
    eapply runs_bind; [by apply table_get_runs|]. by rewrite (proj2 (Z.ltb_lt _ _)).
  - exists (S i). split; [|split; [lia|]].
    + eapply runs_bind; [by apply table_get_runs|]. by rewrite (proj2 (Z.ltb_ge _ _)).
    + right. exists d. by replace (S i - 1)%nat with i by lia.
Qed.

Lemma log2_smaller x y : 0 < x → Z.log2 x < Z.log2 y → x < y.
Proof. intros Hx. apply Z.log2_lt_cancel. Qed.

Section specs.
Context `{T : Target} `{!memGS Σ}.

Lemma table_lookup b table (i : nat) d : table !! i = Some d →
  table_rep b table ⊢ divisor_rep b i d ∗ (divisor_rep b i d -∗ table_rep b table).
Proof. intros Hd. by apply big_sepL_lookup_acc. Qed.

(** Reading a divisor *)
Lemma divisor_view b i d :
  divisor_rep b i d ⊢ ∃ ds, ⌜divisor_digits b i d ds⌝ ∗ view (bbb d) (DfracOwn 1) ds ∗
    (view (bbb d) (DfracOwn 1) ds -∗ divisor_rep b i d).
Proof.
  iIntros "(%ds & %Hds & H)". iDestruct (owned_view with "H") as "[Hv Hcl]". iExists ds. iFrame "Hv".
  iSplit; [done|]. iIntros "Hv". iExists ds. iSplit; [done|]. by iApply "Hcl".
Qed.

Lemma divisor_small b i d ds xs minLen : divisor_digits b i d ds → 0 < value xs →
  nbits d <= minLen → minLen < Z.log2 (value xs) + 1 → value ds < value xs.
Proof.
  intros (Hd & Hn & Hnd & Hv & Hnb & Hlen) Hx Hle Hlt. apply log2_smaller; [|lia].
  pose proof (normalized_bound ds Hd Hn ltac:(intros ->; simpl in *; lia)). pose proof (Bpow_gt0 (length ds - 1)). lia.
Qed.

(** The divisor that [split_loop] settles on is not larger than the number. *)
Lemma wp_choose {A} b table (i : nat) q dq qs (K : Z → M A) Φ :
  digits qs → normalized qs → leafSize < Z.of_nat (length qs) → (i < length table)%nat →
  view q dq qs -∗ table_rep b table -∗
  (∀ (j : nat) d ds, ⌜(j <= i)%nat ∧ table !! j = Some d ∧ divisor_digits b j d ds ∧ value ds <= value qs⌝ -∗
     view q dq qs -∗ table_rep b table -∗ wp (K (Z.of_nat j)) Φ) -∗
  wp (let! maxLen := natBitLen q in
      let minLen := Z.shiftr maxLen 1 in
      let! index := pick_index (Z.to_nat (Z.of_nat i)) table (Z.of_nat i) minLen in
      let! d := table_get table index in
      let! index :=
        (if maxLen <=? nbits d then
           let! c := natCmp (bbb d) q in
           if 0 <=? c then assert_ (0 <=? index - 1) ;! ret (index - 1) else ret index
         else ret index) in
      K index) Φ.
Proof.
  iIntros (Hdq Hnq Hlen Hi) "Hq Ht HΦ". unfold leafSize in Hlen.
  assert (qs ≠ []) as Hne by (intros ->; simpl in *; lia).
  pose proof (normalized_bound qs Hdq Hnq Hne) as Hnb.
  pose proof (Bpow_mono 8 (length qs - 1) ltac:(lia)) as H8. pose proof (Bpow_gt0 8).
  iApply wp_bind. iApply (wp_natBitLen with "Hq"); [done..|]. iIntros "Hq".
  set (maxLen := Z.log2 (value qs) + 1) in *. pose proof (Z.log2_nonneg (value qs)) as Hlog.
  assert (Z.shiftr maxLen 1 < maxLen) as Hmin.
  { rewrite Z.shiftr_div_pow2; [|done]. apply Z.div_lt_upper_bound; lia. }
  rewrite Nat2Z.id. destruct (pick_index_spec table (Z.shiftr maxLen 1) i) as (j & Hrun & Hji & Hj); [lia|].
  iApply wp_bind. iApply (wp_runs _ _ _ Hrun).
  destruct (lookup_lt_is_Some_2 table j) as [d Hd]; [lia|].
  iApply wp_bind. iApply (wp_runs _ _ _ (table_get_runs _ _ _ Hd)).
  iDestruct (table_lookup with "Ht") as "[Hdiv Hcl]"; [exact Hd|].
  iDestruct (divisor_view with "Hdiv") as (ds Hds) "[Hv Hcld]". pose proof Hds as (Hdd & Hdn & _ & _ & Hdb & Hdl).
  iApply wp_bind. destruct (Z.leb_spec maxLen (nbits d)) as [Hbig|Hsm].
  2:{ iApply wp_ret. iApply ("HΦ" $! j d ds with "[%] Hq [Hv Hcl Hcld]"); [|by iApply "Hcl"; iApply "Hcld"].
      split_and!; [lia|done|done|]. apply Z.lt_le_incl.
      apply (divisor_small b j d ds qs (nbits d) Hds ltac:(lia)); [done|lia]. }
  iApply wp_bind. iApply (wp_natCmp with "Hv Hq"); [done..|]. iIntros "Hv Hq".
  iDestruct ("Hcl" with "[Hv Hcld]") as "Ht"; [by iApply "Hcld"|].
  destruct (Z.lt_ge_cases (value ds) (value qs)) as [Hlt|Hge].
  { rewrite cmpZ_lt //. iApply wp_ret. iApply ("HΦ" $! j d ds with "[%] Hq Ht"). split_and!; done || lia. }
  assert ((0 <=? cmpZ (value ds) (value qs)) = true) as ->.
  { pose proof (cmpZ_ge _ _ Hge) as Hc%Z.ltb_ge. by apply Z.leb_le. }
  destruct Hj as [->|(d' & Hd' & Hnb')].
  { pose proof (value_bound ds Hdd). pose proof (Bpow_mono (length ds) 8 ltac:(simpl in *; lia)). lia. }
  destruct j as [|j]; [simpl in Hd', Hdl|].
  { pose proof (value_bound ds Hdd). pose proof (Bpow_mono (length ds) 8 ltac:(lia)). lia. }
  replace (S j - 1)%nat with j in Hd' by lia. iApply wp_bind. iApply wp_assert; [apply Z.leb_le; lia|]. iApply wp_ret.
  iDestruct (table_lookup with "Ht") as "[Hdiv Hcl]"; [exact Hd'|].
  iDestruct (divisor_view with "Hdiv") as (ds' Hds') "[Hv Hcld]".
  replace (Z.of_nat (S j) - 1) with (Z.of_nat j) by lia.
  iApply ("HΦ" $! j d' ds' with "[%] Hq [Hv Hcl Hcld]"); [|by iApply "Hcl"; iApply "Hcld"].
  split_and!; [lia|done|done|]. apply Z.lt_le_incl.
  apply (divisor_small b j d' ds' qs (Z.shiftr maxLen 1) Hds' ltac:(lia)); lia.
Qed.

(** ** The loop over the divisors *)

Context (b nd bb : Z).
Hypothesis Hb : 2 <= b <= 62.
Hypothesis Hbb : bb = b ^ nd.
Hypothesis Hnd : 1 <= nd.
Hypothesis Hbr : 1 < bb < Base.
Hypothesis Hsq : Base <= bb * bb.

(** What a conversion of [x] at [o] does to the buffer *)
Definition converts (c : list Z → M (list Z)) (x : nat_t) (dq : dfrac) (xs : list Z) table (o n : nat) : Prop :=
  ∀ s tail Φ, shown s (o + n) [] tail →
    view x dq xs -∗ table_rep b table -∗
    (∀ s' ds, ⌜writing b (value xs) o n tail s' ds 0 ∧ length ds = n⌝ -∗
       view x dq xs -∗ table_rep b table -∗ Φ s') -∗
    wp (c s) Φ.

(** There is room for the remainder in front of what is written. *)
Lemma split_room v o n tail s ds Q (k : nat) R : v < b ^ Z.of_nat n →
  writing b v o n tail s ds (R + b ^ Z.of_nat k * Q) → 0 < Q → 0 <= R → (length ds + k < n)%nat.
Proof.
  intros Hv [Hs Hl Hd Hval _] HQ HR.
  pose proof (NatText.pow_pos b (proj1 Hb) k). pose proof (NatText.pow_pos b (proj1 Hb) (length ds)).
  pose proof (from_le_range b (proj1 Hb) ds Hd).
  enough (length (ds ++ replicate k 0%Z) < n)%nat by (rewrite length_app length_replicate in H2; lia).
  apply (NatText.fits b (proj1 Hb) _ n v); [|done].
  rewrite length_app length_replicate Nat2Z.inj_add Z.pow_add_r; [|lia..].
  assert (b ^ Z.of_nat (length ds) * b ^ Z.of_nat k <= b ^ Z.of_nat (length ds) * (R + b ^ Z.of_nat k * Q))%Z; [|lia].
  apply Z.mul_le_mono_nonneg_l; nia.
Qed.

(** The digits of a quotient come after those of the remainder. *)
Lemma writing_split v o n tail s ds Q (k : nat) R s' ds' : (length ds + k < n)%nat →
  writing b v o n tail s ds (R + b ^ Z.of_nat k * Q) → 0 <= Q →
  writing b R (o + (n - length ds - k)) k (chars ds ++ tail) s' ds' 0 → length ds' = k →
  writing b v o n tail s' (ds ++ ds') Q.
Proof.
  intros Hlt [Hs Hl Hd Hval _] HQ [Hs' _ Hd' Hval' _] Hk.
  split; [|rewrite length_app; lia|by apply Forall_app| |done].
  - rewrite chars_app. apply shown_app; [rewrite chars_length; lia|]. rewrite chars_length.
    by replace (o + n - length ds)%nat with (o + (n - length ds - k) + k)%nat by lia.
  - rewrite from_le_app length_app Hk Nat2Z.inj_add Z.pow_add_r; [|lia..]. lia.
Qed.

Lemma wp_split_loop v (t : nat) conv table o n tail fuel q qs r rs index slen s ds Φ :
  v < b ^ Z.of_nat n → slen = Z.of_nat n - Z.of_nat (length ds) → (t <= length table <= 4)%nat →
  (∀ r rs (j : nat) d o', (j < t)%nat → table !! j = Some d → digits rs → normalized rs →
     value rs < b ^ ndigits d → (j = 0%nat → (length rs <= 8)%nat) →
     converts (conv r (Z.of_nat j) (Z.of_nat o')) r (DfracOwn 1) rs table o' (Z.to_nat (ndigits d))) →
  digits qs → normalized qs → writing b v o n tail s ds (value qs) → (length qs <= fuel)%nat →
  (leafSize < Z.of_nat (length qs) → ∃ i : nat, index = Z.of_nat i ∧ (i < t)%nat) →
  owned q qs -∗ owned r rs -∗ table_rep b table -∗
  (∀ q' r' qs' rs' s' ds', ⌜digits qs' ∧ normalized qs' ∧ writing b v o n tail s' ds' (value qs')⌝ -∗
     owned q' qs' -∗ owned r' rs' -∗ table_rep b table -∗ Φ (q', r', Z.of_nat n - Z.of_nat (length ds'), s')) -∗
  wp (split_loop fuel conv table q r index (Z.of_nat o) slen s) Φ.
Proof.
  intros Hv Hslen Ht Hconv. revert q qs r rs index slen s ds Hslen.
  induction fuel as [|fuel IH]; intros q qs r rs index slen s ds -> Hdq Hnq Hw Hfuel Hidx; iIntros "Hq Hr Ht HΦ".
  all: iDestruct (owned_len with "Hq") as %Hlq; cbn [split_loop].
  { rewrite (proj2 (Z.ltb_ge leafSize (len q))); [|unfold leafSize; lia]. iApply wp_ret.
    by iApply ("HΦ" with "[%] Hq Hr Ht"). }
  destruct (Z.ltb_spec leafSize (len q)) as [Hbig|Hsm]; [|iApply wp_ret; by iApply ("HΦ" with "[%] Hq Hr Ht")].
  destruct Hidx as (i & -> & Hi); [lia|].
  iDestruct (owned_view with "Hq") as "[Hqv Hcl]".
  iApply (wp_choose with "Hqv Ht"); [done|done|lia|lia|].
  iIntros (j d dds (Hji & Hd & Hdd & Hle)) "Hqv Ht". iDestruct ("Hcl" with "[//] Hqv") as "Hq".
  pose proof Hdd as (Hdg & Hdn & Hdp & Hdv & _ & Hdl).
  iApply wp_bind. iApply (wp_runs _ _ _ (table_get_runs _ _ _ Hd)).
  iDestruct (table_lookup with "Ht") as "[Hdiv Hclt]"; [exact Hd|].
  iDestruct (divisor_view with "Hdiv") as (es Hes) "[Hdv Hcld]".
  pose proof Hes as (Heg & Hen & _ & Hev & _ & Hel). rewrite Hdv -Hev in Hle.
  iDestruct (owned_block with "Hr") as (wr Hcr) "Hr". iApply wp_bind.
  assert (length es <= 64)%nat as Hes64.
  { assert (j < 4)%nat as Hj by lia. destruct j as [|[|[|[|]]]]; simpl in Hel; lia. }
  iApply (wp_natDiv_self r wr q qs (bbb d) _ es with "Hq Hr Hdv"); [done..|lia|done|unfold divRecursiveThreshold; lia|lia|].
  iIntros (q' r' qs' rs' (Hdq' & Hnq' & Hvq' & Hdr' & Hnr' & Hvr')) "Hq Hr Hdv".
  iDestruct ("Hclt" with "[Hdv Hcld]") as "Ht"; [by iApply "Hcld"|].
  pose proof (Bpow_mono 1 (length es - 1) ltac:(lia)) as Hes1. unfold Bpow in Hes1 at 1. rewrite Z.pow_1_r in Hes1.
  pose proof (normalized_bound es Heg Hen ltac:(intros ->; simpl in *; lia)) as Hesb. pose proof Base_gt0.
  assert (0 < value es) as Hes0 by lia. assert (value es ≠ 0) as Hesz by lia.
  pose proof (Z.div_mod (value qs) (value es) Hesz) as Hdm. rewrite -Hvq' -Hvr' in Hdm.
  pose proof (Z.mod_pos_bound (value qs) (value es) Hes0) as Hmod. rewrite -Hvr' in Hmod.
  assert (0 < value qs') as HQ by (rewrite Hvq'; apply Z.div_str_pos; lia).
  set (k := Z.to_nat (ndigits d)). assert (ndigits d = Z.of_nat k) as Hk by lia. rewrite Hk in Hev |- *.
  replace (value qs) with (value rs' + b ^ Z.of_nat k * value qs')%Z in Hw by (rewrite -Hev; lia).
  pose proof (split_room _ _ _ _ _ _ _ _ _ Hv Hw HQ ltac:(lia)) as Hroom.
  iDestruct (owned_view with "Hr") as "[Hrv Hclr]". iApply wp_bind.
  replace (Z.of_nat o + (Z.of_nat n - Z.of_nat (length ds) - Z.of_nat k)) with (Z.of_nat (o + (n - length ds - k))) by lia.
  iApply (Hconv r' rs' j d (o + (n - length ds - k))%nat with "Hrv Ht"); [lia|done|done|done| | | |].
  { rewrite Hk -Hev. lia. }
  { intros ->. apply length_value; [done|done|]. pose proof (value_bound es Heg).
    pose proof (Bpow_mono (length es) 8 ltac:(simpl in Hel; lia)). lia. }
  { fold k. replace (o + (n - length ds - k) + k)%nat with (o + n - length (chars ds))%nat by (rewrite chars_length; lia).
    apply shown_tail. apply Hw. }
  fold k. iIntros (s' ds' [Hw' Hl']) "Hrv Ht". iDestruct ("Hclr" with "[//] Hrv") as "Hr".
  replace (Z.of_nat n - Z.of_nat (length ds) - Z.of_nat k) with (Z.of_nat n - Z.of_nat (length (ds ++ ds'))) by (rewrite length_app; lia).
  iApply (IH with "Hq Hr Ht HΦ"); [done|done|done| | |].
  - by apply (writing_split v o n tail s ds (value qs') k (value rs') s' ds' Hroom Hw ltac:(lia) Hw').
  - enough (length qs' <= length qs - 1)%nat by lia. apply length_value; [done..|].
    rewrite Hvq'. apply Z.div_lt_upper_bound; [lia|]. pose proof (value_bound qs Hdq) as Hqb.
    replace (length qs) with (1 + (length qs - 1))%nat in Hqb by (unfold leafSize in *; lia).
    rewrite Bpow_add in Hqb. unfold Bpow in Hqb at 1. rewrite Z.pow_1_r in Hqb. pose proof (Bpow_gt0 (length qs - 1)). nia.
  - intros _. exists j. split; [done|lia].
Qed.

(** ** [convertWords] *)

Lemma wp_convertWords (fuel t : nat) x dq xs (o n : nat) table :
  (t < fuel)%nat → (t <= length table <= 4)%nat → digits xs → normalized xs → value xs < b ^ Z.of_nat n →
  (table ≠ [] → t = 0%nat → (length xs <= 8)%nat) →
  converts (λ s, convertWords fuel x (Z.of_nat o) (Z.of_nat n) s b nd bb table (Z.of_nat t)) x dq xs table o n.
Proof.
  revert t x dq xs o n. induction fuel as [|fuel IH]; intros t x dq xs o n Hf Ht Hd Hn Hv H0 s tail Φ Hs; [lia|].
  iIntros "Hx Ht HΦ". cbn [convertWords]. iApply wp_bind. iApply (wp_natDup with "Hx"). iIntros (q) "Hq Hx".
  iDestruct (owned_len with "Hq") as %Hlq. iApply wp_bind.
  iAssert (wp (match table with
    | [] => ret (q, Z.of_nat n, s)
    | _ =>
        let! r := natNewLen 0 in
        let! st := split_loop (S (Z.to_nat (len q)))
          (fun r index o' s =>
             let! d := table_get table index in
             convertWords fuel r o' (ndigits d) s b nd bb table index)
          table q r (Z.of_nat t - 1) (Z.of_nat o) (Z.of_nat n) s in
        let '(q, r, slen, s) := st in
        let! _ := natFree r in
        ret (q, slen, s)
    end) (λ '(q, slen, s), ∃ qs ds, ⌜digits qs ∧ normalized qs ∧ writing b (value xs) o n tail s ds (value qs) ∧
      slen = Z.of_nat n - Z.of_nat (length ds)⌝ ∗ owned q qs ∗ table_rep b table))%I with "[Hq Ht]" as "Hloop".
  { assert (writing b (value xs) o n tail s [] (value xs)) as Hw by (apply writing_start; [done|by apply value_nonneg]).
    destruct table as [|d0 table'].
    { iApply wp_ret. iExists xs, []. iFrame. iPureIntro. split_and!; try done. simpl. lia. }
    set (table := d0 :: table') in *. iApply wp_bind. iApply wp_natNewLen; [done|]. iIntros (r [Hlr Hcr]) "Hr".
    iDestruct (owned_whole r [] with "Hr") as "Hr"; [done|lia|]. iApply wp_bind.
    iApply (wp_split_loop (value xs) t _ table o n tail _ q xs r [] _ _ s [] with "Hq Hr Ht"); try done; [simpl; lia| |lia| |].
    - intros r' rs j d o' Hj Hdj Hdr Hnr Hvr H8 s' tail' Φ' Hs'. iIntros "Hr Ht HΦ".
      iApply wp_bind. iApply (wp_runs _ _ _ (table_get_runs _ _ _ Hdj)).
      iDestruct (table_lookup with "Ht") as "[(%es & %Hes & He) Hcl]"; [exact Hdj|]. destruct Hes as (Hes1 & Hes2 & Hes3 & Hes4).
      iDestruct ("Hcl" with "[He]") as "Ht"; [iExists es; by iFrame|].
      set (k := Z.to_nat (ndigits d)) in *. replace (ndigits d) with (Z.of_nat k) in Hvr |- * by lia.
      iApply (IH j r' (DfracOwn 1) rs o' k with "Hr Ht HΦ"); try done; lia.
    - unfold leafSize. intros Hl8. destruct t as [|t]; [pose proof (H0 ltac:(done) eq_refl); lia|]. exists t. lia.
    - iIntros (q' r' qs' rs' s' ds' (Hdq & Hnq & Hw')) "Hq Hr Ht". iApply wp_bind. iApply (wp_natFree_owned with "Hr").
      iApply wp_ret. iExists qs', ds'. iFrame. by iPureIntro. }
  iApply (wp_wand with "Hloop"). iIntros ([[q' slen] s']) "(%qs & %ds & (%Hdq & %Hnq & %Hw & ->) & Hq & Ht)".
  iDestruct (owned_len with "Hq") as %Hlq'. iApply wp_bind.
  iApply (wp_leaf_loop b (value xs) o n tail nd bb with "Hq"); try done.
  { rewrite Hlq'. replace (Z.to_nat (2 * Z.of_nat (length qs))) with (2 * length qs)%nat by lia.
    pose proof (value_bound qs Hdq) as Hvb. eapply Z.lt_le_trans; [apply Hvb|].
    etransitivity; [|apply (Z.pow_le_mono_r bb (2 * Z.of_nat (length qs))); lia].
    rewrite Z.pow_mul_r; [|lia..]. rewrite Z.pow_2_r. apply Z.pow_le_mono_l. pose proof Base_gt0. lia. }
  iIntros (q1 s1 ds1 Hw1) "Hq1". iApply wp_bind. iApply (wp_natFree_owned with "Hq1").
  destruct (pad_zeros_spec b (value xs) o n tail Hb s1 ds1 Hw1) as (s2 & k & Hpad & Hw2 & Hk).
  replace (Z.to_nat (Z.of_nat n - Z.of_nat (length ds1))) with (n - length ds1)%nat by lia.
  iApply (wp_runs _ _ _ Hpad). iApply ("HΦ" with "[%] Hx Ht"). split; [exact Hw2|]. rewrite length_app length_replicate. lia.
Qed.
End specs.

(** ** Bases that are not powers of two *)

Section other.
Context `{T : Target} `{!memGS Σ}.

(** The divisors are freed. *)
Lemma wp_free_table b table Φ : 
  table_rep b table -∗ Φ tt -∗
  wp (for_up 0 (Z.of_nat (length table)) tt (fun k _ =>
        let! d := table_get table k in
        let! _ := natFree (bbb d) in
        ret tt)) Φ.
Proof.
  iIntros "Ht HΦ".
  iApply (wp_for_up (λ k _, [∗ list] d ∈ drop k table, ∃ ds, owned (bbb d) ds)%I with "[Ht]").
  - iIntros (k [] Hk) "Ht". destruct (lookup_lt_is_Some_2 table k) as [d Hd]; [lia|].
    rewrite (drop_S table d k Hd) /=. iDestruct "Ht" as "[(%ds & Hd) Ht]". rewrite Z.add_0_l.
    iApply wp_bind. iApply (wp_runs _ _ _ (table_get_runs _ _ _ Hd)).
    iApply wp_bind. iApply (wp_natFree_owned with "Hd"). by iApply wp_ret.
  - rewrite drop_0. iApply (big_sepL_mono with "Ht"). iIntros (i d _) "(%ds & _ & H)". by iExists ds.
  - iIntros ([]) "_". done.
Qed.

Lemma wp_i2a_other x dq xs b n Φ :
  2 <= b <= 62 → digits xs → normalized xs → (0 < length xs <= 129)%nat → value xs < b ^ Z.of_nat n →
  view x dq xs -∗
  (∀ s es, ⌜shown s n (chars es) [0] ∧ base_digits b es ∧ from_le b es = value xs ∧ last es ≠ Some 0 ∧ (length es <= n)%nat⌝ -∗
     view x dq xs -∗ Φ (s, Z.of_nat n - Z.of_nat (length es))) -∗
  wp (i2a_other x b (Z.of_nat n) (replicate (S n) 0)) Φ.
Proof.
  iIntros (Hb Hd Hn Hlen Hv) "Hx HΦ". rewrite /i2a_other.
  iAssert ⌜len x = Z.of_nat (length xs)⌝%I as %Hlx; [by iDestruct "Hx" as "[% _]"|].
  destruct (maxPow_spec b Hb) as (bb & nd & Hmax & Hbb & Hnd & Hbr & Hsq).
  iApply wp_bind. iApply wp_lift; [exact Hmax|]. iApply wp_bind.
  iApply (wp_divisors (len x) b nd bb); [done..|lia|]. iIntros (table [Hnil Hlt]) "Ht".
  assert (0 < value xs) as Hv0.
  { pose proof (normalized_bound xs Hd Hn ltac:(intros ->; simpl in *; lia)). pose proof (Bpow_gt0 (length xs - 1)). lia. }
  iApply wp_bind.
  iApply (wp_convertWords b nd bb Hb Hbb Hnd Hbr Hsq (S (length table)) (length table) x dq xs 0 n table
    with "Hx Ht"); [lia|lia|done|done|done| |apply shown_start|].
  { intros Hne H0. by destruct table. }
  iIntros (s ds [Hw Hl]) "Hx Ht".
  destruct (skip_zeros_spec b (value xs) n Hb (conj Hv0 Hv) s ds Hw Hl) as (es & Hskip & Hs & He & Hev & Hlast & Hle).
  iApply wp_bind. iApply (wp_runs _ _ _ Hskip). iApply wp_bind. iApply (wp_free_table with "Ht"). iApply wp_ret.
  by iApply ("HΦ" $! s es with "[%] Hx").
Qed.
End other.
