(* ===== verification/BigInt.v ===== *)
(** * Signed integers: [cmake/bigint/src/bigint.c], and the program of test.c

    A [BigInt*] is the address of a struct of the store; [None] is the null
    pointer.  [intOne] is the address of the constant of that name. *)

From S2P Require Import Prelude Words Digits Carry Memory Logic NatCore NatAdd NatSub NatMul NatDiv NatConv.
From iris.proofmode Require Import proofmode.
From iris.base_logic.lib Require Import own ghost_map.

Local Open Scope Z_scope.
Local Open Scope c_scope.

Section code.
Context `{T : Target}.

(** A dereference of a possibly null pointer *)
Definition deref (p : option positive) : M positive :=
  match p with
  | Some p => ret p
  | None => fail NullDeref
  end.

(** Reading [p->neg], [p->abs] *)
Definition get_neg (p : positive) : M bool := let! o := get_obj p in defined (neg o).
Definition get_abs (p : positive) : M nat_t := let! o := get_obj p in defined (abs o).

(** Writing them *)
Definition set_neg (p : positive) (b : bool) : M unit :=
  let! o := get_obj p in set_obj p (MkBigInt (Some b) (abs o)).
Definition set_abs (p : positive) (a : nat_t) : M unit :=
  let! o := get_obj p in set_obj p (MkBigInt (neg o) (Some a)).

(** [z->neg = z->abs.len > 0 && neg] *)
Definition set_sign (z : positive) (neg : bool) : M unit :=
  let! a := get_abs z in set_neg z ((0 <? len a) && neg).

(** [v] is the 64-bit pattern read as a signed number; [natNew] takes a [Word]. *)
Definition BigIntNewI (v : Z) : M (option positive) :=
  let! p := malloc_obj in
  match p with
  | None => ret None
  | Some p =>
      let x := u64 v in
      let! x := (if v <? 0 then set_neg p true ;! ret (u64 (- x))
                 else set_neg p false ;! ret x) in
      let! a := natNew (wrap UintSize x) in
      set_abs p a ;!
      ret (Some p)
  end.

Definition BigIntNewU (v : Z) : M (option positive) :=
  let! p := malloc_obj in
  match p with
  | None => ret None
  | Some p =>
      let! a := natNew (wrap UintSize v) in
      set_abs p a ;!
      set_neg p false ;!
      ret (Some p)
  end.

Definition BigIntFree (t : positive) : M unit :=
  let! a := get_abs t in
  let! a := natFree a in
  set_abs t a ;!
  free_obj t.

Definition BigIntAdd (x y : positive) : M (option positive) :=
  let! neg := get_neg x in
  let! z := malloc_obj in
  match z with
  | None => ret None
  | Some z =>
      let! xn := get_neg x in
      let! yn := get_neg y in
      let! xa := get_abs x in
      let! ya := get_abs y in
      let! neg :=
        (if Bool.eqb xn yn then
           let! a := natAdd xa ya in
           set_abs z a ;! ret neg
         else
           let! c := natCmp xa ya in
           if 0 <=? c then
             let! a := natSub xa ya in
             set_abs z a ;! ret neg
           else
             let! a := natSub ya xa in
             set_abs z a ;! ret (negb neg)) in
      set_sign z neg ;!
      ret (Some z)
  end.

Definition BigIntSub (x y : positive) : M (option positive) :=
  let! z := malloc_obj in
  match z with
  | None => ret None
  | Some z =>
      let! neg := get_neg x in
      let! xn := get_neg x in
      let! yn := get_neg y in
      let! xa := get_abs x in
      let! ya := get_abs y in
      let! neg :=
        (if negb (Bool.eqb xn yn) then
           let! a := natAdd xa ya in
           set_abs z a ;! ret neg
         else
           let! c := natCmp xa ya in
           if 0 <=? c then
             let! a := natSub xa ya in
             set_abs z a ;! ret neg
           else
             let! a := natSub ya xa in
             set_abs z a ;! ret (negb neg)) in
      set_sign z neg ;!
      ret (Some z)
  end.

Definition BigIntMul (x y : positive) : M (option positive) :=
  let! z := malloc_obj in
  match z with
  | None => ret None
  | Some z =>
      let! xa := get_abs x in
      let! ya := get_abs y in
      let! a := natMul xa ya in
      set_abs z a ;!
      let! xn := get_neg x in
      let! yn := get_neg y in
      set_sign z (negb (Bool.eqb xn yn)) ;!
      ret (Some z)
  end.

(** [r] is the struct the last parameter leads to. *)
Definition QuoRem (x y r : positive) : M (option positive) :=
  let! z := malloc_obj in
  match z with
  | None => ret None
  | Some z =>
      let! za := get_abs z in
      let! ra := get_abs r in
      let! xa := get_abs x in
      let! ya := get_abs y in
      let! (q, rr) := natDiv za ra xa ya in
      set_abs z q ;!
      let! xn := get_neg x in
      let! yn := get_neg y in
      set_sign z (negb (Bool.eqb xn yn)) ;!
      let! rr := natNorm rr in
      set_abs r rr ;!
      let! xn := get_neg x in
      set_neg r ((0 <? len rr) && xn) ;!
      ret (Some z)
  end.

Definition BigIntDiv (intOne x y : positive) : M (option positive) :=
  let! r := malloc_obj in
  match r with
  | None => ret None
  | Some r =>
      let! yneg := get_neg y in
      let! z := QuoRem x y r in
      BigIntFree r ;!
      match z with
      | None => ret None
      | Some z =>
          let! rn := get_neg r in
          if rn then (if yneg then BigIntAdd z intOne else BigIntSub z intOne)
          else ret (Some z)
      end
  end.

Section text.
Variable log_estimate : Z -> Z -> Z.

Definition BigInt2Text (x : positive) (base : Z) : M (option (list Z)) :=
  let! a := get_abs x in
  let! n := get_neg x in
  natI2a log_estimate a n base.

Definition BigInt2String (x : positive) : M (option (list Z)) := BigInt2Text x 10.
Definition BigInt2HexStr (x : positive) : M (option (list Z)) := BigInt2Text x 16.

(** The loop of [Fibonacci] in test.c: the locals are [a], [b] and [sum]. *)
Definition fib_round (st : option positive * option positive * option positive)
    : M (option positive * option positive * option positive) :=
  let '(a, b, _) := st in
  let! pa := deref a in
  let! pb := deref b in
  let! sum := BigIntAdd pa pb in
  BigIntFree pa ;!
  ret (b, sum, sum).

(** The numbers of [Fibonacci], up to the conversion to text; [rounds] is
    [n * 10000]. *)
Definition fib_run (rounds : Z) : M (option positive * option positive * option positive) :=
  let! a := BigIntNewU 1 in
  let! b := BigIntNewU 1 in
  for_up 0 rounds (a, b, None) (fun _ st => fib_round st).
End text.

End code.

(** ** Specifications *)

(** The signed value of a struct *)
Definition sval `{T : Target} (n : bool) (xs : list Z) : Z := if n then - value xs else value xs.

(** [BigIntAdd] (or [BigIntSub], when [same] tells that the signs differ) meets
    none of the defects of [natAdd] and [natSub]. *)
Definition signed_safe `{T : Target} (same : bool) (xs ys : list Z) : bool :=
  if same then add_safe xs ys
  else if value ys <=? value xs then carry_safe (-1) xs ys else carry_safe (-1) ys xs.

Section specs.
Context `{T : Target} `{!memGS Σ}.

(** A live struct, only to be read, that shows [xs] *)
Definition bigint_ro (p : positive) (a : nat_t) dq dq' (n : bool) (xs : list Z) : iProp Σ :=
  obj p dq (MkBigInt (Some n) (Some a)) ∗ view a dq' xs.

(** A live struct and its array *)
Definition bigint (p : positive) (n : bool) (xs : list Z) : iProp Σ :=
  ∃ a, obj p (DfracOwn 1) (MkBigInt (Some n) (Some a)) ∗ owned a xs.

Lemma bigint_ro_acc p n xs : bigint p n xs ⊢ ∃ a,
  bigint_ro p a (DfracOwn 1) (DfracOwn 1) n xs ∗
  (bigint_ro p a (DfracOwn 1) (DfracOwn 1) n xs -∗ bigint p n xs).
Proof.
  iIntros "(%a & Hp & Ha)". iDestruct (owned_view with "Ha") as "[Hv Hcl]".
  iExists a. iFrame. iIntros "[Hp Hv]". iExists a. iFrame. by iApply ("Hcl" with "[//]").
Qed.

(** *** Fields *)

Lemma wp_get_neg p dq n a Φ :
  obj p dq (MkBigInt (Some n) a) -∗ (obj p dq (MkBigInt (Some n) a) -∗ Φ n) -∗ wp (get_neg p) Φ.
Proof.
  iIntros "Hp HΦ". iApply wp_bind. iApply (wp_get_obj with "Hp"). iIntros "Hp".
  iApply wp_defined; [done|]. by iApply "HΦ".
Qed.

Lemma wp_get_abs p dq n a Φ :
  obj p dq (MkBigInt n (Some a)) -∗ (obj p dq (MkBigInt n (Some a)) -∗ Φ a) -∗ wp (get_abs p) Φ.
Proof.
  iIntros "Hp HΦ". iApply wp_bind. iApply (wp_get_obj with "Hp"). iIntros "Hp".
  iApply wp_defined; [done|]. by iApply "HΦ".
Qed.

Lemma wp_set_neg p n n' a Φ :
  obj p (DfracOwn 1) (MkBigInt n a) -∗
  (obj p (DfracOwn 1) (MkBigInt (Some n') a) -∗ Φ tt) -∗ wp (set_neg p n') Φ.
Proof.
  iIntros "Hp HΦ". iApply wp_bind. iApply (wp_get_obj with "Hp"). iIntros "Hp".
  by iApply (wp_set_obj with "Hp").
Qed.

Lemma wp_set_abs p n a a' Φ :
  obj p (DfracOwn 1) (MkBigInt n a) -∗
  (obj p (DfracOwn 1) (MkBigInt n (Some a')) -∗ Φ tt) -∗ wp (set_abs p a') Φ.
Proof.
  iIntros "Hp HΦ". iApply wp_bind. iApply (wp_get_obj with "Hp"). iIntros "Hp".
  by iApply (wp_set_obj with "Hp").
Qed.

(** The sign of a result: zero is not negative *)
Lemma wp_set_sign z n0 n a xs Φ :
  obj z (DfracOwn 1) (MkBigInt n0 (Some a)) -∗ owned a xs -∗
  (∀ n', ⌜sval n' xs = sval n xs ∧ (n' = true → xs ≠ [])⌝ -∗ bigint z n' xs -∗ Φ tt) -∗
  wp (set_sign z n) Φ.
Proof.
  iIntros "Hz Ha HΦ". iApply wp_bind. iApply (wp_get_abs with "Hz"). iIntros "Hz".
  iDestruct (owned_len with "Ha") as %Hl.
  iApply (wp_set_neg with "Hz"). iIntros "Hz". iApply ("HΦ" with "[%]"); [|iExists a; iFrame].
  rewrite Hl. destruct xs as [|x xs].
  - rewrite /sval value_nil /=. by destruct n.
  - rewrite (proj2 (Z.ltb_lt _ _)); [|simpl; lia]. by destruct n.
Qed.

(** *** Construction and destruction *)

Lemma wp_BigIntNewU v Φ :
  (∀ p, bigint p false [wrap UintSize v] -∗ Φ (Some p)) -∗ wp (BigIntNewU v) Φ.
Proof.
  iIntros "HΦ". iApply wp_bind. iApply wp_malloc_obj. iIntros (p) "Hp".
  iApply wp_bind. iApply wp_natNew. iIntros (a _) "Ha".
  iApply wp_bind. iApply (wp_set_abs with "Hp"). iIntros "Hp".
  iApply wp_bind. iApply (wp_set_neg with "Hp"). iIntros "Hp". iApply wp_ret.
  iApply "HΦ". iExists a. iFrame.
Qed.

Lemma wp_BigIntNewI v Φ :
  (∀ p, bigint p (v <? 0) [wrap UintSize (u64 (Z.abs v))] -∗ Φ (Some p)) -∗ wp (BigIntNewI v) Φ.
Proof.
  iIntros "HΦ". iApply wp_bind. iApply wp_malloc_obj. iIntros (p) "Hp". iApply wp_bind.
  destruct (Z.ltb_spec v 0).
  - iApply wp_bind. iApply (wp_set_neg with "Hp"). iIntros "Hp". iApply wp_ret.
    iApply wp_bind. iApply wp_natNew. iIntros (a _) "Ha".
    iApply wp_bind. iApply (wp_set_abs with "Hp"). iIntros "Hp". iApply wp_ret.
    iApply "HΦ". iExists a. iFrame. rewrite Z.abs_neq; [|lia].
    assert (u64 (- u64 v) = u64 (- v)) as ->; [|done].
    rewrite /wrap -(Z.sub_0_l (v mod _)) Zminus_mod_idemp_r. done.
  - iApply wp_bind. iApply (wp_set_neg with "Hp"). iIntros "Hp". iApply wp_ret.
    iApply wp_bind. iApply wp_natNew. iIntros (a _) "Ha".
    iApply wp_bind. iApply (wp_set_abs with "Hp"). iIntros "Hp". iApply wp_ret.
    iApply "HΦ". iExists a. iFrame. rewrite Z.abs_eq //.
Qed.

Lemma wp_BigIntFree p n xs Φ : bigint p n xs -∗ Φ tt -∗ wp (BigIntFree p) Φ.
Proof.
  iIntros "(%a & Hp & Ha) HΦ". iApply wp_bind. iApply (wp_get_abs with "Hp"). iIntros "Hp".
  iApply wp_bind. iApply (wp_natFree_owned with "Ha").
  iApply wp_bind. iApply (wp_set_abs with "Hp"). iIntros "Hp".
  by iApply (wp_free_obj with "Hp").
Qed.

(** *** Addition and subtraction *)

(** The operands: non-empty and normalized *)
Definition operand (xs : list Z) : Prop := digits xs ∧ normalized xs ∧ xs ≠ [].

Lemma operand_length xs : operand xs → (0 < length xs)%nat.
Proof. intros (_ & _ & H). destruct xs; [done|simpl; lia]. Qed.

Lemma operand_le xs ys : operand xs → operand ys → value ys <= value xs → (length ys <= length xs)%nat.
Proof.
  intros (Hdx & Hnx & _) (Hdy & Hny & _) Hle.
  destruct (Nat.le_gt_cases (length ys) (length xs)) as [|Hlt]; [done|].
  pose proof (value_lt_length xs ys Hdx Hdy Hny Hlt). lia.
Qed.

(** The block the two functions share *)
Lemma wp_signed_block (same : bool) neg z o xa xs dq ya ys dq' Φ :
  operand xs → operand ys → signed_safe same xs ys = true →
  obj z (DfracOwn 1) o -∗ view xa dq xs -∗ view ya dq' ys -∗
  (∀ neg' a zs n0, ⌜digits zs ∧ normalized zs ∧
      sval neg' zs = (if same then sval neg xs + sval neg ys else sval neg xs - sval neg ys)%Z⌝ -∗
     obj z (DfracOwn 1) (MkBigInt n0 (Some a)) -∗ owned a zs -∗
     view xa dq xs -∗ view ya dq' ys -∗ Φ neg') -∗
  wp (if same then
        let! a := natAdd xa ya in
        set_abs z a ;! ret neg
      else
        let! c := natCmp xa ya in
        if 0 <=? c then
          let! a := natSub xa ya in
          set_abs z a ;! ret neg
        else
          let! a := natSub ya xa in
          set_abs z a ;! ret (negb neg)) Φ.
Proof.
  iIntros (Hx Hy Hs) "Hz Hx Hy HΦ". pose proof Hx as (Hdx & Hnx & Hex). pose proof Hy as (Hdy & Hny & Hey).
  pose proof (operand_length _ Hx). pose proof (operand_length _ Hy).
  destruct o as [n0 a0]. destruct same; simpl in Hs.
  - iApply wp_bind. iApply (wp_natAdd_owned with "Hx Hy"); [done..|by right|].
    iIntros (a zs (Hd & Hn & Hv)) "Ha Hx Hy". iApply wp_bind. iApply (wp_set_abs with "Hz").
    iIntros "Hz". iApply wp_ret. iApply ("HΦ" with "[%] Hz Ha Hx Hy").
    split; [done|]. split; [done|]. rewrite /sval (proj2 Hv) //. destruct neg; lia.
  - iApply wp_bind. iApply (wp_natCmp with "Hx Hy"); [done..|]. iIntros "Hx Hy".
    destruct (Z.leb_spec (value ys) (value xs)) as [Hle|Hlt].
    + assert ((0 <=? cmpZ (value xs) (value ys)) = true) as ->.
      { destruct (Z.eq_dec (value xs) (value ys)) as [->|]; [by rewrite cmpZ_eq|].
        rewrite cmpZ_gt //. lia. }
      pose proof (operand_le xs ys Hx Hy Hle).
      iApply wp_bind. iApply (wp_natSub_owned with "Hx Hy"); [done|done|lia|done|done|].
      iIntros (a zs (Hd & Hn & Hv)) "Ha Hx Hy". iApply wp_bind. iApply (wp_set_abs with "Hz").
      iIntros "Hz". iApply wp_ret. iApply ("HΦ" with "[%] Hz Ha Hx Hy").
      split; [done|]. split; [done|]. rewrite /sval Hv. destruct neg; lia.
    + rewrite cmpZ_lt //=. pose proof (operand_le ys xs Hy Hx ltac:(lia)).
      iApply wp_bind. iApply (wp_natSub_owned with "Hy Hx"); [done|done|lia|done|lia|].
      iIntros (a zs (Hd & Hn & Hv)) "Ha Hy Hx". iApply wp_bind. iApply (wp_set_abs with "Hz").
      iIntros "Hz". iApply wp_ret. iApply ("HΦ" with "[%] Hz Ha Hx Hy").
      split; [done|]. split; [done|]. rewrite /sval Hv. destruct neg; simpl; lia.
Qed.

Lemma wp_BigIntAdd x xa nx xs dx dxv y ya ny ys dy dyv Φ :
  operand xs → operand ys → signed_safe (Bool.eqb nx ny) xs ys = true →
  bigint_ro x xa dx dxv nx xs -∗ bigint_ro y ya dy dyv ny ys -∗
  (∀ p n zs, ⌜digits zs ∧ normalized zs ∧ (n = true → zs ≠ []) ∧
      sval n zs = (sval nx xs + sval ny ys)%Z⌝ -∗
     bigint p n zs -∗ bigint_ro x xa dx dxv nx xs -∗ bigint_ro y ya dy dyv ny ys -∗ Φ (Some p)) -∗
  wp (BigIntAdd x y) Φ.
Proof.
  iIntros (Hx Hy Hs) "[Hx Hxv] [Hy Hyv] HΦ". rewrite /BigIntAdd.
  iApply wp_bind. iApply (wp_get_neg with "Hx"). iIntros "Hx".
  iApply wp_bind. iApply wp_malloc_obj. iIntros (z) "Hz".
  iApply wp_bind. iApply (wp_get_neg with "Hx"). iIntros "Hx".
  iApply wp_bind. iApply (wp_get_neg with "Hy"). iIntros "Hy".
  iApply wp_bind. iApply (wp_get_abs with "Hx"). iIntros "Hx".
  iApply wp_bind. iApply (wp_get_abs with "Hy"). iIntros "Hy". iApply wp_bind.
  iApply (wp_signed_block with "Hz Hxv Hyv"); [done..|].
  iIntros (n a zs n0 (Hd & Hn & Hv)) "Hz Ha Hxv Hyv". iApply wp_bind.
  iApply (wp_set_sign with "Hz Ha"). iIntros (n' (Hn' & Hnz)) "Hz". iApply wp_ret.
  iApply ("HΦ" with "[%] Hz [$Hx $Hxv] [$Hy $Hyv]"). split; [done|]. split; [done|]. split; [done|].
  rewrite Hn' Hv /sval. destruct nx, ny; simpl; lia.
Qed.

Lemma wp_BigIntSub x xa nx xs dx dxv y ya ny ys dy dyv Φ :
  operand xs → operand ys → signed_safe (negb (Bool.eqb nx ny)) xs ys = true →
  bigint_ro x xa dx dxv nx xs -∗ bigint_ro y ya dy dyv ny ys -∗
  (∀ p n zs, ⌜digits zs ∧ normalized zs ∧ (n = true → zs ≠ []) ∧
      sval n zs = (sval nx xs - sval ny ys)%Z⌝ -∗
     bigint p n zs -∗ bigint_ro x xa dx dxv nx xs -∗ bigint_ro y ya dy dyv ny ys -∗ Φ (Some p)) -∗
  wp (BigIntSub x y) Φ.
Proof.
  iIntros (Hx Hy Hs) "[Hx Hxv] [Hy Hyv] HΦ". rewrite /BigIntSub.
  iApply wp_bind. iApply wp_malloc_obj. iIntros (z) "Hz".
  iApply wp_bind. iApply (wp_get_neg with "Hx"). iIntros "Hx".
  iApply wp_bind. iApply (wp_get_neg with "Hx"). iIntros "Hx".
  iApply wp_bind. iApply (wp_get_neg with "Hy"). iIntros "Hy".
  iApply wp_bind. iApply (wp_get_abs with "Hx"). iIntros "Hx".
  iApply wp_bind. iApply (wp_get_abs with "Hy"). iIntros "Hy". iApply wp_bind.
  iApply (wp_signed_block with "Hz Hxv Hyv"); [done..|].
  iIntros (n a zs n0 (Hd & Hn & Hv)) "Hz Ha Hxv Hyv". iApply wp_bind.
  iApply (wp_set_sign with "Hz Ha"). iIntros (n' (Hn' & Hnz)) "Hz". iApply wp_ret.
  iApply ("HΦ" with "[%] Hz [$Hx $Hxv] [$Hy $Hyv]"). split; [done|]. split; [done|]. split; [done|].
  rewrite Hn' Hv /sval. destruct nx, ny; simpl; lia.
Qed.

Lemma wp_BigIntMul x xa nx xs dx dxv y ya ny ys dy dyv Φ :
  digits xs → digits ys → Z.of_nat (Nat.min (length xs) (length ys)) < karatsubaThreshold →
  bigint_ro x xa dx dxv nx xs -∗ bigint_ro y ya dy dyv ny ys -∗
  (∀ p n zs, ⌜digits zs ∧ (operand xs → operand ys → normalized zs) ∧
      sval n zs = (sval nx xs * sval ny ys)%Z⌝ -∗
     bigint p n zs -∗ bigint_ro x xa dx dxv nx xs -∗ bigint_ro y ya dy dyv ny ys -∗ Φ (Some p)) -∗
  wp (BigIntMul x y) Φ.
Proof.
  iIntros (Hx Hy Hs) "[Hx Hxv] [Hy Hyv] HΦ". rewrite /BigIntMul.
  iApply wp_bind. iApply wp_malloc_obj. iIntros (z) "Hz".
  iApply wp_bind. iApply (wp_get_abs with "Hx"). iIntros "Hx".
  iApply wp_bind. iApply (wp_get_abs with "Hy"). iIntros "Hy". iApply wp_bind.
  iApply (wp_natMul with "Hxv Hyv"); [done..|].
  iIntros (a zs (Hd & Hv & Hn)) "Ha Hxv Hyv".
  iApply wp_bind. iApply (wp_set_abs with "Hz"). iIntros "Hz".
  iApply wp_bind. iApply (wp_get_neg with "Hx"). iIntros "Hx".
  iApply wp_bind. iApply (wp_get_neg with "Hy"). iIntros "Hy". iApply wp_bind.
  iApply (wp_set_sign with "Hz Ha"). iIntros (n' (Hn' & _)) "Hz". iApply wp_ret.
  iApply ("HΦ" with "[%] Hz [$Hx $Hxv] [$Hy $Hyv]"). split; [done|]. split.
  { intros (_ & ? & ?) (_ & ? & ?). auto. }
  rewrite Hn' /sval Hv. destruct nx, ny; simpl; lia.
Qed.

(** [BigIntDiv] reads the fields of a struct it has just allocated. *)
Lemma wpe_BigIntDiv intOne x y dy n a :
  obj y dy (MkBigInt (Some n) a) -∗ wpe (BigIntDiv intOne x y) Uninit.
Proof.
  iIntros "Hy". iApply wpe_bind. iApply wp_malloc_obj. iIntros (r) "Hr".
  iApply wpe_bind. iApply (wp_get_neg with "Hy"). iIntros "Hy". iApply wpe_bind_l.
  iApply wpe_bind. iApply wp_malloc_obj. iIntros (z) "Hz". iApply wpe_bind_l.
  iApply wpe_bind. iApply (wp_get_obj with "Hz"). iIntros "_". iApply wpe_defined.
Qed.

(** *** The Fibonacci numbers *)

Fixpoint fib (n : nat) : Z :=
  match n with
  | O => 0
  | S p => match p with
           | O => 1
           | S q => fib p + fib q
           end
  end.

Lemma fib_SS n : fib (S (S n)) = fib (S n) + fib n.
Proof. done. Qed.

Lemma fib_bounds n : 0 < fib (S n) <= fib (S (S n)) ∧ fib (S (S n)) <= 2 * fib (S n).
Proof. induction n as [|n IH]; [simpl; lia|]. rewrite !(fib_SS (S n)). rewrite fib_SS in IH |- *. lia. Qed.

(** Neighbours differ by at most one digit, so the addition is exact. *)
Lemma fib_safe xs ys : operand xs → operand ys → value xs <= value ys <= 2 * value xs →
  add_safe xs ys = true.
Proof.
  intros Hx Hy Hle. pose proof (operand_le ys xs Hy Hx ltac:(lia)) as Hl.
  destruct Hx as (Hdx & Hnx & Hex), Hy as (Hdy & Hny & Hey).
  assert (length ys - length xs <= 1)%nat as Hd.
  { destruct (Nat.le_gt_cases (length ys) (S (length xs))) as [|Hgt]; [lia|].
    pose proof (normalized_bound ys Hdy Hny Hey) as Hb. pose proof (value_bound xs Hdx) as Hb'.
    pose proof (Bpow_mono (S (length xs)) (length ys - 1) ltac:(lia)) as Hm. rewrite Bpow_S in Hm.
    pose proof (Bpow_gt0 (length xs)). pose proof Base_pos. assert (2 * Bpow (length xs) <= Base * Bpow (length xs)); [|lia].
    apply Z.mul_le_mono_nonneg_r; lia. }
  rewrite /add_safe. destruct (Nat.ltb_spec (length xs) (length ys)).
  - apply carry_safe_exact; [lia|]. right. left. lia.
  - apply carry_safe_exact; [lia|]. right. left. lia.
Qed.

Lemma wp_fib_round a b o xs ys Φ :
  operand xs → operand ys → value xs <= value ys <= 2 * value xs →
  bigint a false xs -∗ bigint b false ys -∗
  (∀ p zs, ⌜operand zs ∧ value zs = (value xs + value ys)%Z⌝ -∗
     bigint b false ys -∗ bigint p false zs -∗ Φ (Some b, Some p, Some p)) -∗
  wp (fib_round (Some a, Some b, o)) Φ.
Proof.
  iIntros (Hx Hy Hle) "Ha Hb HΦ". rewrite /fib_round. iApply wp_bind. iApply wp_ret.
  iApply wp_bind. iApply wp_ret. iApply wp_bind.
  iDestruct (bigint_ro_acc with "Ha") as (na) "[Ha Hca]".
  iDestruct (bigint_ro_acc with "Hb") as (nb) "[Hb Hcb]".
  iApply (wp_BigIntAdd with "Ha Hb"); [done|done|simpl; by apply fib_safe|].
  iIntros (p n zs (Hd & Hn & Hnz & Hv)) "Hp Ha Hb".
  iDestruct ("Hca" with "Ha") as "Ha". iDestruct ("Hcb" with "Hb") as "Hb".
  destruct Hx as (Hdx & Hnx & Hex). pose proof (normalized_bound xs Hdx Hnx Hex).
  pose proof (Bpow_gt0 (length xs - 1)). rewrite /sval in Hv.
  assert (n = false) as ->. { destruct n; [|done]. pose proof (value_nonneg zs Hd). lia. }
  iApply wp_bind. iApply (wp_BigIntFree with "Ha"). iApply wp_ret.
  iApply ("HΦ" with "[%] Hb Hp"). split; [|done]. split; [done|]. split; [done|].
  intros ->. rewrite value_nil in Hv. lia.
Qed.

Lemma wp_fib_run (rounds : nat) Φ :
  (∀ a b o xs ys, ⌜operand xs ∧ operand ys ∧ value xs = fib (S rounds) ∧
      value ys = fib (S (S rounds)) ∧ (rounds ≠ 0%nat → o = Some b)⌝ -∗
     bigint a false xs -∗ bigint b false ys -∗ Φ (Some a, Some b, o)) -∗
  wp (fib_run (Z.of_nat rounds)) Φ.
Proof.
  iIntros "HΦ". iApply wp_bind. iApply wp_BigIntNewU. iIntros (a) "Ha".
  iApply wp_bind. iApply wp_BigIntNewU. iIntros (b) "Hb".
  assert (wrap UintSize 1 = 1) as ->.
  { apply wrap_small. pose proof Base_pos. unfold word. fold Base. lia. }
  assert (operand [1]) as H1.
  { split; [|done]. apply digits_cons. pose proof Base_pos. split; [lia|constructor]. }
  assert (value [1] = 1) as Hv1 by (rewrite value_cons value_nil; lia).
  iApply (wp_for_up (λ k st, ∃ a b o xs ys, ⌜st = (Some a, Some b, o) ∧ operand xs ∧ operand ys ∧
      value xs = fib (S k) ∧ value ys = fib (S (S k)) ∧ (k ≠ 0%nat → o = Some b)⌝ ∗
      bigint a false xs ∗ bigint b false ys)%I with "[Ha Hb]").
  - iIntros (k st Hk) "(%a' & %b' & %o & %xs & %ys & (-> & Hx & Hy & %Hvx & %Hvy & _) & Ha & Hb)".
    iDestruct "Hx" as %Hx. iDestruct "Hy" as %Hy.
    iApply (wp_fib_round with "Ha Hb"); [done|done|rewrite Hvx Hvy; pose proof (fib_bounds k); lia|].
    iIntros (p zs (Hz & Hvz)) "Hb Hp". iExists b', p, (Some p), ys, zs. iFrame. iPureIntro.
    rewrite Hvz Hvx Hvy (fib_SS (S k)). split; [done|]. split; [done|]. split; [done|].
    split; [done|]. split; [lia|done].
  - iExists a, b, None, [1], [1]. iFrame. iPureIntro. rewrite Hv1. done.
  - iIntros (st) "(%a' & %b' & %o & %xs & %ys & (-> & %Hx & %Hy & %Hvx & %Hvy & %Ho) & Ha & Hb)".
    rewrite Z.sub_0_r Nat2Z.id in Hvx Hvy Ho. by iApply ("HΦ" with "[%] Ha Hb").
Qed.

End specs.

(** ** Properties *)

(** In the memory [m], the struct at [p] has the sign [n] and the digits [xs]. *)
Definition holds_big (m : mem) (p : positive) (n : bool) (xs : list Z) : Prop :=
  exists a, objs m !! p = Some (MkBigInt (Some n) (Some a)) /\ holds m a xs.

Definition holds_bigb (m : mem) (p : positive) (n : bool) (xs : list Z) : bool :=
  match objs m !! p with
  | Some (MkBigInt (Some n') (Some a)) => Bool.eqb n n' && holdsb m a xs
  | _ => false
  end.

Lemma holds_bigb_holds m p n xs : holds_bigb m p n xs = true -> holds_big m p n xs.
Proof.
  rewrite /holds_bigb /holds_big. destruct (objs m !! p) as [[[n'|] [a|]]|]; try done.
  rewrite andb_true_iff. intros [->%Bool.eqb_prop H]. exists a. split; [done|].
  by apply holdsb_holds.
Qed.

(** A memory with the given structs at 2, 4, ... *)
Definition mem_add_big (m : mem) (x : bool * list Z) : mem :=
  let a := whole (next m) (Z.of_nat (length (snd x))) in
  let m := mem_add m (snd x) in
  Mem (cells m) (blocks m) (<[next m := MkBigInt (Some (fst x)) (Some a)]> (objs m))
      (Pos.succ (next m)) (oom m).
Definition mem_of_big (l : list (bool * list Z)) : mem := foldl mem_add_big mem_empty l.

(** Closes the premises of a theorem on a concrete memory. *)
Ltac concrete :=
  first
    [ by apply mem_wfb_wf; vm_compute
    | by intros ?
    | by apply holdsb_holds; vm_compute
    | by apply holds_bigb_holds; vm_compute
    | by repeat constructor; vm_compute
    | by vm_compute ].

Section properties.
Context `{T : Target}.

Lemma mem_ro_big `{!memGS Σ} m p n xs : holds_big m p n xs →
  mem_ro m ⊢ ∃ a, bigint_ro p a DfracDiscarded DfracDiscarded n xs.
Proof.
  iIntros ((a & Ho & Ha)) "#Hro". iExists a. iSplit; [by iApply mem_ro_obj|by iApply mem_ro_view].
Qed.

Lemma interp_big `{!memGS Σ} m p n xs : interp m -∗ bigint p n xs -∗ ⌜holds_big m p n xs⌝.
Proof.
  iIntros "Hm (%a & Hp & Ha)". iDestruct (owned_view with "Ha") as "[Ha _]".
  iDestruct (interp_obj with "Hm Hp") as %Ho. iDestruct (interp_view with "Hm Ha") as %Ha.
  iPureIntro. by exists a.
Qed.

(** What the three operations share: a run on two structs of a memory *)
Lemma big_op_adequate (op : positive -> positive -> M (option positive)) (m : mem) x y nx xs ny ys
    (ψ : bool → list Z → Prop) :
  mem_wf m → mem_room m → holds_big m x nx xs → holds_big m y ny ys →
  (∀ Σ `{!memGS Σ} xa ya Φ,
     bigint_ro x xa DfracDiscarded DfracDiscarded nx xs -∗
     bigint_ro y ya DfracDiscarded DfracDiscarded ny ys -∗
     (∀ p n zs, ⌜ψ n zs⌝ -∗ bigint p n zs -∗ Φ (Some p)) -∗ wp (op x y) Φ) →
  ∃ p m' n zs, op x y m = OK (Some p, m') ∧ holds_big m' p n zs ∧ ψ n zs ∧ mem_extends m m'.
Proof.
  intros Hwf Hroom Hx Hy Hop.
  destruct (ro_adequacy m (op x y) (λ r m', ∃ p n zs, r = Some p ∧ holds_big m' p n zs ∧ ψ n zs))
    as (r & m' & Hrun & (p & n & zs & -> & ? & ?) & Hext); [done..| |by exists p, m', n, zs].
  iIntros (Σ HG) "#Hro". iDestruct (mem_ro_big _ _ _ _ Hx with "Hro") as (xa) "Hx".
  iDestruct (mem_ro_big _ _ _ _ Hy with "Hro") as (ya) "Hy".
  iApply (Hop with "Hx Hy"). iIntros (p n zs Hψ) "Hp". iIntros (m') "Hm".
  iDestruct (interp_big with "Hm Hp") as %?. iPureIntro. by exists p, n, zs.
Qed.

End properties.





(** C3: the product of two integers, the shorter of fewer than 40 digits, is
    exact. *)
Theorem BigIntMul_correct `{T : Target} (m : mem) (x y : positive) nx xs ny ys :
  mem_wf m -> mem_room m -> holds_big m x nx xs -> holds_big m y ny ys ->
  digits xs -> digits ys -> Z.of_nat (Nat.min (length xs) (length ys)) < karatsubaThreshold ->
  exists p m' n zs, BigIntMul x y m = OK (Some p, m') /\ holds_big m' p n zs /\
    (digits zs /\ (operand xs -> operand ys -> normalized zs) /\
     sval n zs = sval nx xs * sval ny ys) /\ mem_extends m m'.
Proof.
  intros Hwf Hroom Hx Hy Hdx Hdy Hs.
  apply (big_op_adequate BigIntMul m x y nx xs ny ys (λ n zs, digits zs ∧
    (operand xs → operand ys → normalized zs) ∧ sval n zs = (sval nx xs * sval ny ys)%Z)); try done.
  iIntros (Σ HG xa ya Φ) "Hx Hy HΦ". iApply (wp_BigIntMul with "Hx Hy"); [done..|].
  iIntros (p n zs Hψ) "Hp _ _". by iApply ("HΦ" with "[%] Hp").
Qed.

Lemma BigIntMul_correct_witness :
  let m := mem_of_big [(false, [2 ^ 64 - 1; 7]); (true, [3; 8])] in
  exists p m' n zs, BigIntMul (T := target64) 2 4 m = OK (Some p, m') /\ holds_big m' p n zs /\
    (digits (T := target64) zs /\
     (operand (T := target64) [2 ^ 64 - 1; 7] -> operand (T := target64) [3; 8] -> normalized zs) /\
     sval (T := target64) n zs =
       sval (T := target64) false [2 ^ 64 - 1; 7] * sval (T := target64) true [3; 8]) /\
    mem_extends m m'.
Proof. intros m. apply (BigIntMul_correct (T := target64)); concrete. Defined.

(** [BigIntDiv] always reads indeterminate struct fields: [QuoRem] hands the
    fields of the structs it has just allocated to [natDiv]. *)
Theorem BigIntDiv_uninit `{T : Target} (m : mem) (intOne x y : positive) ny ys :
  mem_wf m -> mem_room m -> holds_big m y ny ys ->
  BigIntDiv intOne x y m = Er Uninit.
Proof.
  intros Hwf Hroom (a & Ho & _). apply ro_adequacy_err; [done..|].
  iIntros (Σ HG) "#Hro". iDestruct (mem_ro_obj _ _ _ Ho with "Hro") as "Hy".
  by iApply (wpe_BigIntDiv with "Hy").
Qed.

Lemma BigIntDiv_uninit_witness :
  BigIntDiv (T := target64) 6 2 4 (mem_of_big [(false, [9]); (false, [2])]) = Er Uninit.
Proof. apply (BigIntDiv_uninit (T := target64) _ _ _ _ false [2]); concrete. Defined.



(** The texts of a buffer and of a string *)
Definition text (s : option (list Z)) : option (list Z) := option_map c_str s.

(** The exact number of base-[b] digits below a power of two, as an instance of
    the parameter [log_estimate] *)
Fixpoint log_loop (fuel : nat) (p b n e : Z) : Z :=
  match fuel with
  | O => e
  | S fuel => if p * b <=? n then log_loop fuel (p * b) b n (e + 1) else e
  end.
Definition log_exact (bits b : Z) : Z := log_loop (S (Z.to_nat bits)) 1 b (2 ^ bits) 0.

Definition run_text (c : M (option (list Z))) : option (list Z) :=
  match c mem_empty with
  | OK (s, _) => text s
  | Er _ => None
  end.

(** The calls in the comments of [main] in test.c: z = x + y, zz = z + y, and zz
    in the given base *)
Definition test_main (base : Z) : M (option (list Z)) :=
  let! x := BigIntNewU (T := target64) 9000000000000000000 in
  let! y := BigIntNewU (T := target64) 9000000000000000000 in
  let! px := deref x in
  let! py := deref y in
  let! z := BigIntAdd (T := target64) px py in
  let! pz := deref z in
  let! zz := BigIntAdd (T := target64) pz py in
  let! pzz := deref zz in
  BigInt2Text (T := target64) log_exact pzz base.

(** The texts the comments of test.c expect, in bases 10, 16 and 62
    ("27000000000000000000", "176b344f2a78c0000", "wawhL6Tc75u"); but zero is
    the empty text. *)
Theorem test_c_texts :
  run_text (test_main 10) = Some ([50; 55] ++ replicate 18 48) /\
  run_text (test_main 16) =
    Some [49; 55; 54; 98; 51; 52; 52; 102; 50; 97; 55; 56; 99; 48; 48; 48; 48] /\
  run_text (test_main 62) = Some [119; 97; 119; 104; 76; 54; 84; 99; 55; 53; 117] /\
  run_text (let! x := BigIntNewU (T := target64) 0 in
            let! p := deref x in BigInt2String (T := target64) log_exact p) = Some [].
Proof. repeat split; by vm_compute. Qed.
