(* ===== verification/BigText.v ===== *)
(** * The text of an integer: [natI2a] and [BigInt2Text]

    For numbers of at most 129 words the conversion writes the numeral of the
    value, without leading zeros, in every base from 2 to 62.  The bound is
    that of the exact division: the largest divisor then has 64 words, and
    [natDiv] leaves the schoolbook algorithm at 100. *)

From S2P Require Import Prelude Words Digits Carry Memory Logic NatCore NatConv NatText NatConvSpec DivisorsSpec ConvertSpec BigInt.
From iris.proofmode Require Import proofmode.
From iris.base_logic.lib Require Import own ghost_map.

Local Open Scope Z_scope.
Local Open Scope c_scope.

(** What is relied on of [(ssize_t)((double)bits / log2((double)base))]: with
    one more digit, the estimate is enough for numbers of [bits] bits. *)
Definition estimates `{T : Target} (log_estimate : Z -> Z -> Z) : Prop := forall bits b,
  0 < bits <= 129 * UintSize -> 2 <= b <= 62 ->
  0 <= log_estimate bits b /\ 2 ^ bits <= b ^ (log_estimate bits b + 1).

(** The text of a signed number of magnitude [v] *)
Definition text_of (neg : bool) (b v : Z) (t : list Z) : Prop :=
  if v =? 0 then t = [48]
  else exists u, numeral b v u /\ t = (if neg then [45] else []) ++ u.

(** ** Numerals *)

Lemma numeral_fits b es v n : 2 <= b -> base_digits b es -> from_le b es = v -> last es <> Some 0 ->
  v < b ^ Z.of_nat n -> (length es <= n)%nat.
Proof.
  intros Hb He Hv Hl Hlt. destruct es as [|d es _] using rev_ind; [cbn; lia|].
  apply Forall_app in He as [He Hd]. apply Forall_cons_1 in Hd as [Hd _].
  rewrite last_snoc in Hl. assert (d ≠ 0) by congruence.
  rewrite from_le_snoc in Hv. pose proof (from_le_range b Hb es He). pose proof (NatText.pow_pos b Hb (length es)).
  rewrite length_app Nat.add_1_r. apply (fits b Hb es n v); [nia|done].
Qed.

Lemma chars_no_zero b es : b <= 62 -> base_digits b es -> 0 ∉ chars es.
Proof.
  intros Hb He Hin. unfold chars in Hin. apply list_elem_of_In, in_map_iff in Hin as (d & Hd & Hin).
  apply in_rev, list_elem_of_In in Hin.
  pose proof (proj1 (Forall_forall _ _) He d Hin) as Hr. cbv beta in Hr.
  by destruct (char_of_digit d ltac:(lia)) as [H0 _].
Qed.

Lemma pow2_base_cases `{T : Target} b : 2 <= b <= 62 ->
  (b =? Z.land b (w_neg UintSize b)) = true -> exists k, 1 <= k <= 5 /\ b = 2 ^ k.
Proof.
  intros Hb He. pose proof (digit_cases (fun d => negb (2 <=? d) || negb (d =? Z.land d (w_neg UintSize d)) ||
    existsb (fun k => d =? 2 ^ k) [1; 2; 3; 4; 5]) 63 b) as Hall. cbv beta in Hall.
  rewrite He (proj2 (Z.leb_le 2 b)) in Hall; [|lia]. cbn [negb orb] in Hall.
  apply existsb_exists in Hall as (k & Hk & Heq%Z.eqb_eq); [|destruct UintSize_cases as [-> | ->]; by vm_compute|lia].
  exists k. split; [|done]. cbn in Hk. lia.
Qed.

(** The text, at the start of the buffer, is what is returned. *)
Lemma finish_text (s t : list Z) (n : nat) (i : Z) :
  i = Z.of_nat n - Z.of_nat (length t) -> shown s n t [0] -> 0 ∉ t -> exists s',
  runs (if (0 <=? i) && (i <=? Z.of_nat n) then
          let k := Z.to_nat (Z.of_nat n - i) in
          let s := take k (drop (Z.to_nat i) s) ++ drop k s in
          let! s := put_char s (Z.of_nat n - i) 0 in
          ret (Some s)
        else fail OutOfBounds) (Some s') /\ c_str s' = t /\ 0 ∈ s'.
Proof.
  intros -> Hs H0. pose proof Hs as (_ & Hle & _). destruct (shown_moved s n t Hs H0) as (s' & Hput & Ht).
  exists s'. split; [|done]. rewrite (proj2 (Z.leb_le _ _)); [|lia]. rewrite (proj2 (Z.leb_le _ _)); [|lia].
  cbn zeta beta iota delta [andb]. replace (Z.of_nat n - (Z.of_nat n - Z.of_nat (length t))) with (Z.of_nat (length t)) by lia.
  rewrite Nat2Z.id. replace (Z.to_nat (Z.of_nat n - Z.of_nat (length t))) with (n - length t)%nat by lia.
  eapply runs_bind; [exact Hput|apply runs_ret].
Qed.

(** The minus sign, when there is one *)
Lemma sign_text (s t : list Z) (n : nat) (neg : bool) : shown s n t [0] -> (neg = true -> length t < n)%nat -> exists s',
  runs (if neg then
          let i := Z.of_nat n - Z.of_nat (length t) - 1 in
          let! s := put_char s i 45 in
          ret (s, i)
        else ret (s, Z.of_nat n - Z.of_nat (length t)))
    (s', Z.of_nat n - Z.of_nat (length ((if neg then [45] else []) ++ t))) /\
  shown s' n ((if neg then [45] else []) ++ t) [0].
Proof.
  intros Hs Hn. destruct neg; [|by exists s].
  destruct (shown_put s n t [0] 45 Hs) as (s' & Hput & Hs'); [by apply Hn|]. exists s'. split; [|done].
  eapply runs_bind; [exact Hput|]. cbn [app length].
  by replace (Z.of_nat n - Z.of_nat (S (length t))) with (Z.of_nat n - Z.of_nat (length t) - 1) by lia.
Qed.

Section specs.
Context `{T : Target} `{!memGS Σ}.
Variable log_estimate : Z -> Z -> Z.

(** Both ways to write the digits *)
Lemma wp_i2a_digits x dq xs b n Φ :
  2 <= b <= 62 → digits xs → normalized xs → (0 < length xs <= 129)%nat → value xs < b ^ Z.of_nat n →
  view x dq xs -∗
  (∀ s es, ⌜shown s n (chars es) [0] ∧ base_digits b es ∧ from_le b es = value xs ∧ last es ≠ Some 0 ∧ (length es <= n)%nat⌝ -∗
     view x dq xs -∗ Φ (s, Z.of_nat n - Z.of_nat (length es))) -∗
  wp (if b =? Z.land b (w_neg UintSize b) then i2a_pow2 x b (replicate (S n) 0) (Z.of_nat n)
      else i2a_other x b (Z.of_nat n) (replicate (S n) 0)) Φ.
Proof.
  iIntros (Hb Hd Hn Hlen Hv) "Hx HΦ". destruct (b =? _) eqn:Hp; [|by iApply (wp_i2a_other with "Hx HΦ")].
  destruct (pow2_base_cases b Hb Hp) as (k & Hk & ->).
  iApply (wp_i2a_pow2 with "Hx HΦ"); try done. intros ->. simpl in *. lia.
Qed.

Lemma wp_natI2a x dq xs neg b Φ : estimates log_estimate →
  2 <= b <= 62 → digits xs → normalized xs → (length xs <= 129)%nat →
  view x dq xs -∗ (∀ s, ⌜text_of neg b (value xs) (c_str s) ∧ 0 ∈ s⌝ -∗ view x dq xs -∗ Φ (Some s)) -∗
  wp (natI2a log_estimate x neg b) Φ.
Proof.
  iIntros (Hest Hb Hd Hn Hlen) "Hx HΦ". rewrite /natI2a.
  iAssert ⌜len x = Z.of_nat (length xs)⌝%I as %Hlx; [by iDestruct "Hx" as "[% _]"|].
  iApply wp_bind. iApply wp_assert; [by vm_compute (MaxBase); rewrite !(proj2 (Z.leb_le _ _)); [|lia..]|].
  destruct (decide (xs = [])) as [->|Hne].
  { rewrite Hlx /=. iApply wp_bind. iApply wp_malloc_ok. iApply wp_ret. iApply ("HΦ" with "[%] Hx"). split; [done|set_solver]. }
  assert (0 < length xs)%nat as Hlen0 by (destruct xs; [done|simpl; lia]).
  assert (0 < value xs) as Hv0.
  { pose proof (normalized_bound xs Hd Hn Hne). pose proof (Bpow_gt0 (length xs - 1)). lia. }
  rewrite (proj2 (Z.eqb_neq (len x) 0)); [|lia].
  iApply wp_bind. iApply (wp_natBitLen with "Hx"); [done..|]. iIntros "Hx".
  set (bits := Z.log2 (value xs) + 1).
  destruct (Hest bits b) as [He0 Hest']; [|done|].
  { pose proof (Z.log2_nonneg (value xs)). assert (Z.log2 (value xs) < 129 * UintSize); [|lia].
    apply Z.log2_lt_pow2; [done|]. eapply Z.lt_le_trans; [by apply value_bound|].
    rewrite /Bpow /Base -Z.pow_mul_r; [|destruct UintSize_cases as [-> | ->]; lia|lia].
    apply Z.pow_le_mono_r; [lia|]. destruct UintSize_cases as [-> | ->]; lia. }
  set (e := log_estimate bits b) in *.
  assert (value xs < b ^ (e + 1)) as Hv.
  { eapply Z.lt_le_trans; [|exact Hest']. pose proof (Z.log2_spec (value xs) Hv0). rewrite /bits Z.add_1_r. lia. }
  set (n := Z.to_nat (if neg then e + 1 + 1 else e + 1)).
  assert ((if neg then e + 1 + 1 else e + 1) = Z.of_nat n) as Hslen by (rewrite /n; destruct neg; lia).
  rewrite Hslen. iApply wp_bind. iApply wp_malloc_ok. iApply wp_bind.
  replace (Z.to_nat (Z.of_nat n + 1)) with (S n) by lia.
  assert (value xs < b ^ Z.of_nat n) as Hvn.
  { eapply Z.lt_le_trans; [exact Hv|]. apply Z.pow_le_mono_r; [lia|]. rewrite -Hslen. destruct neg; lia. }
  iApply (wp_i2a_digits with "Hx"); [done..|].
  iIntros (s es (Hs & He & Hval & Hlast & Hle)) "Hx".
  assert (neg = true → length (chars es) < n)%nat as Hroom.
  { intros ->. rewrite chars_length. pose proof (numeral_fits b es (value xs) (Z.to_nat (e + 1)) ltac:(lia) He Hval Hlast) as Hfit.
    rewrite Z2Nat.id in Hfit; [|lia]. specialize (Hfit Hv). lia. }
  destruct (sign_text s (chars es) n neg Hs Hroom) as (s1 & Hsign & Hs1). rewrite chars_length in Hsign.
  iApply wp_bind. iApply (wp_runs _ _ _ Hsign).
  destruct (finish_text s1 ((if neg then [45] else []) ++ chars es) n _ eq_refl Hs1) as (s2 & Hfin & Ht & H0).
  { intros [Hin|Hin]%elem_of_app; [destruct neg; set_solver|]. by apply (chars_no_zero b es ltac:(lia) He). }
  iApply (wp_runs _ _ _ Hfin). iApply ("HΦ" with "[%] Hx").
  split; [|done]. rewrite /text_of (proj2 (Z.eqb_neq _ 0)); [|lia]. exists (chars es). split; [by exists es|done].
Qed.

End specs.

(** [log_exact] is such an estimate. *)
Lemma log_loop_spec b v : 2 <= b -> forall fuel p e, p = b ^ e -> 0 <= e -> v < b ^ (e + Z.of_nat fuel) -> p <= v ->
  e <= log_loop fuel p b v e /\ v < b ^ (log_loop fuel p b v e + 1).
Proof.
  intros Hb. induction fuel as [|fuel IH]; intros p e Hp He Hfuel Hle; simpl.
  { rewrite Z.add_0_r in Hfuel. lia. }
  destruct (Z.leb_spec (p * b) v) as [Hpb|Hpb].
  - destruct (IH (p * b) (e + 1)) as [H1 H2]; [rewrite Hp Z.pow_add_r //; lia|lia| |done|lia].
    by replace (e + 1 + Z.of_nat fuel) with (e + Z.of_nat (S fuel)) by lia.
  - split; [lia|]. rewrite Z.pow_add_r; lia.
Qed.

Lemma log_exact_estimates `{T : Target} : estimates log_exact.
Proof.
  intros bits b Hbits Hb. unfold log_exact.
  destruct (log_loop_spec b (2 ^ bits) ltac:(lia) (S (Z.to_nat bits)) 1 0) as [H1 H2]; [done|done| | |lia].
  - rewrite Z.add_0_l. apply Z.lt_le_trans with (2 ^ Z.of_nat (S (Z.to_nat bits))); [apply Z.pow_lt_mono_r; lia|].
    apply Z.pow_le_mono_l. lia.
  - pose proof (Z.pow_pos_nonneg 2 bits). lia.
Qed.


