(* ===== verification/BigTest.v ===== *)
(** * Comparing a text with a file: [checkres] of [cmake/bigint/test.c]

    [Fibonacci] hands the text of the number it has computed to [checkres],
    which compares it with a file.  The file is a parameter: the bytes that
    [fread] delivers, if it can be opened. *)

From S2P Require Import Prelude.

Local Open Scope Z_scope.

(** What [checkres] prints, or why it returns without a word *)
Inductive report : Type :=
  | NotFound
  | NoMemory
  | Unread                          (* [fread] did not return 1 *)
  | NoDifference
  | Differs (i : nat) (total : Z).

(** The loop: [std] is what is left of the block, [res] of the text. *)
Fixpoint compare (std res : list Z) (i : nat) : Prelude.res (option nat) :=
  match std with
  | [] => Er OutOfBounds
  | c :: std =>
      if c =? 0 then OK None else
      match res with
      | [] => Er OutOfBounds
      | d :: res =>
          if d =? 0 then OK None else
          if negb (c =? d) then OK (Some i) else compare std res (S i)
      end
  end.

(** [mem]: whether [malloc] succeeds.  [fread] of a member of size 0 returns 0. *)
Definition checkres (file : option (list Z)) (mem : bool) (res : list Z) : Prelude.res report :=
  match file with
  | None => OK NotFound
  | Some std =>
      if negb mem then OK NoMemory else
      if Z.of_nat (length std) =? 0 then OK Unread else
      match compare std res 0 with
      | OK None => OK NoDifference
      | OK (Some i) => OK (Differs i (Z.of_nat (length std)))
      | Er e => Er e
      end
  end.

Definition no_zero (l : list Z) : Prop := Forall (fun c => c <> 0) l.

(** Over a common part the loop goes on. *)
Lemma compare_common p std res i : no_zero p -> compare (p ++ std) (p ++ res) i = compare std res (i + length p).
Proof.
  revert i. induction p as [|c p IH]; intros i Hp; cbn [app length]; [by rewrite Nat.add_0_r|].
  apply Forall_cons in Hp as [Hc Hp]. cbn [compare]. rewrite (proj2 (Z.eqb_neq c 0)), Z.eqb_refl by done. cbn [negb].
  rewrite IH by done. f_equal. lia.
Qed.

(** With a file and a text [t] that hold no null byte, [checkres] names the
    first byte that differs, and is silent when the text ends before the file;
    when the file ends first, and so whenever the file holds just the text, as
    the files of the repository do, it reads past the block it has read the
    file to. *)
Theorem checkres_behaviour (std t : list Z) : no_zero std -> no_zero t -> std <> [] ->
  (forall p c d std' t', std = p ++ c :: std' -> t = p ++ d :: t' -> c <> d ->
     checkres (Some std) true (t ++ [0]) = OK (Differs (length p) (Z.of_nat (length std)))) /\
  (forall c std', std = t ++ c :: std' -> checkres (Some std) true (t ++ [0]) = OK NoDifference) /\
  (forall t', t = std ++ t' -> checkres (Some std) true (t ++ [0]) = Er OutOfBounds).
Proof.
  intros Hs Ht Hne. unfold checkres. cbn [negb].
  rewrite (proj2 (Z.eqb_neq _ 0)) by (destruct std; cbn; [done|lia]).
  split; [|split].
  - intros p c d std' t' Hstd Htext Hcd. rewrite Hstd in Hs |- * at 1. rewrite Htext in Ht |- *.
    apply Forall_app in Hs as [Hp [Hc _]%Forall_cons]. apply Forall_app in Ht as [_ [Hd _]%Forall_cons].
    rewrite <- app_assoc, compare_common by done. cbn [app compare].
    by rewrite (proj2 (Z.eqb_neq c 0)), (proj2 (Z.eqb_neq d 0)), (proj2 (Z.eqb_neq c d)) by done.
  - intros c std' Hstd. rewrite Hstd in Hs |- *. apply Forall_app in Hs as [_ [Hc _]%Forall_cons].
    rewrite compare_common by done. cbn [compare]. by rewrite (proj2 (Z.eqb_neq c 0)) by done.
  - intros t' ->. rewrite <- app_assoc, <- (app_nil_r std) at 1. by rewrite compare_common.
Qed.

(** "13", compared with "15", "137" and "13" *)
Lemma checkres_behaviour_witness :
  checkres (Some [49; 53]) true [49; 51; 0] = OK (Differs 1 2) /\
  checkres (Some [49; 51; 55]) true [49; 51; 0] = OK NoDifference /\
  checkres (Some [49; 51]) true [49; 51; 0] = Er OutOfBounds.
Proof.
  split; [|split].
  - destruct (checkres_behaviour [49; 53] [49; 51]) as [H _]; [by repeat constructor..|done|].
    by apply (H [49] 53 51 [] []).
  - destruct (checkres_behaviour [49; 51; 55] [49; 51]) as (_ & H & _); [by repeat constructor..|done|].
    by apply (H 55 []).
  - destruct (checkres_behaviour [49; 51] [49; 51]) as (_ & _ & H); [by repeat constructor..|done|].
    by apply (H []).
Defined.
