(* ===== verification/FibText.v ===== *)
(** * The program of [cmake/bigint/test.c], from the loop to the comparison

    [Fibonacci] computes a Fibonacci number, converts it to text and hands the
    text to [checkres], which compares it with a file. *)

From S2P Require Import Prelude Words Digits Memory Logic NatCore NatConv NatText BigInt BigText BigTest.
From iris.proofmode Require Import proofmode.
From iris.base_logic.lib Require Import own ghost_map.

Local Open Scope Z_scope.
Local Open Scope c_scope.

Section code.
Context `{T : Target}.
Variable log_estimate : Z -> Z -> Z.

(** The number and its text *)
Definition Fibonacci_string (rounds : Z) : M (option positive * option positive * option (list Z)) :=
  let! st := fib_run rounds in
  let '(a, b, sum) := st in
  let! s := deref sum in
  let! p := BigInt2String log_estimate s in
  ret (a, b, p).

(** [file] is what [fopen] and [fread] deliver, [room] whether the [malloc] of
    [checkres] succeeds.  Without memory for the text, there is no character to
    read. *)
Definition Fibonacci_rounds (file : option (list Z)) (room : bool) (rounds : Z) : M report :=
  let! st := Fibonacci_string rounds in
  let '(a, b, p) := st in
  let! rep := lift (checkres file room (default [] p)) in
  let! pa := deref a in
  BigIntFree pa ;!
  let! pb := deref b in
  BigIntFree pb ;!
  ret rep.

Definition Fibonacci (file : option (list Z)) (room : bool) (n : Z) : M report :=
  Fibonacci_rounds file room (n * 10000).

End code.

(** [checkres] reads a text up to its null byte. *)
Lemma compare_text std t l i : no_zero t -> compare std (t ++ 0 :: l) i = compare std (t ++ [0]) i.
Proof.
  intros Ht. revert std i. induction Ht as [|c t Hc Ht IH]; intros std i; destruct std as [|d std]; [done..|].
  cbn [app compare]. destruct (d =? 0); [done|]. rewrite (proj2 (Z.eqb_neq c 0)) //.
  by destruct (d =? c); cbn [negb].
Qed.

Lemma checkres_text file room t l : no_zero t -> checkres file room (t ++ 0 :: l) = checkres file room (t ++ [0]).
Proof. intros Ht. destruct file as [std|]; [|done]. unfold checkres. by rewrite compare_text. Qed.

Section specs.
Context `{T : Target} `{!memGS Σ}.
Variable log_estimate : Z -> Z -> Z.

(** The sum is the number that [b] points to; its text ends with a null byte. *)
Lemma wp_Fibonacci_string (rounds : nat) Φ :
  estimates log_estimate → rounds ≠ 0%nat → fib (S (S rounds)) < Bpow 129 →
  (∀ a b t l xs ys, ⌜numeral 10 (fib (S (S rounds))) t⌝ -∗
     bigint a false xs -∗ bigint b false ys -∗ Φ (Some a, Some b, Some (t ++ 0 :: l))) -∗
  wp (Fibonacci_string log_estimate (Z.of_nat rounds)) Φ.
Proof.
  iIntros (Hest Hr Hfib) "HΦ". iApply wp_bind. iApply wp_fib_run.
  iIntros (a b o xs ys (_ & (Hdy & Hny & Hne) & _ & Hvy & Ho)) "Ha Hb". rewrite Ho //.
  iApply wp_bind. iApply wp_ret. iApply wp_bind.
  iDestruct (bigint_ro_acc with "Hb") as (n) "[[Hb Hn] Hcl]". iApply wp_bind. iApply (wp_get_abs with "Hb"). iIntros "Hb".
  iApply wp_bind. iApply (wp_get_neg with "Hb"). iIntros "Hb".
  iApply (wp_natI2a with "Hn"); [done|lia|done|done| |].
  { rewrite -Hvy in Hfib. apply length_value; done. }
  iIntros (s [Ht H0]) "Hn". iDestruct ("Hcl" with "[$Hb $Hn]") as "Hb". iApply wp_ret.
  destruct (c_str_split s H0) as (l & Hs & _). rewrite Hs.
  pose proof (fib_bounds (S rounds)) as [[Hpos _] _]. rewrite /text_of Hvy (proj2 (Z.eqb_neq _ 0)) in Ht; [|lia].
  destruct Ht as (u & Hu & ->). by iApply ("HΦ" with "[%] Ha Hb").
Qed.
End specs.

(** ** Properties *)

Lemma numeral_no_zero b v t : b <= 62 -> numeral b v t -> no_zero t.
Proof.
  intros Hb (ds & -> & Hd & _). apply Forall_forall. intros c Hc ->. by apply (chars_no_zero b ds).
Qed.

(** Every second number at most triples. *)
Lemma fib_pow3 k : fib (S (S (2 * k))) <= 3 ^ Z.of_nat k.
Proof.
  induction k as [|k IH]; [done|]. replace (S (S (2 * S k))) with (S (S (S (S (2 * k))))) by lia.
  pose proof (fib_bounds (S (2 * k))) as [_ H]. rewrite (fib_SS (S (S (2 * k)))).
  rewrite Nat2Z.inj_succ Z.pow_succ_r; lia.
Qed.

Lemma fib_10002 : fib (S (S (Z.to_nat 10000))) < Bpow (T := target64) 129.
Proof.
  replace (Z.to_nat 10000) with (2 * Z.to_nat 5000)%nat by lia.
  eapply Z.le_lt_trans; [apply fib_pow3|]. rewrite Z2Nat.id; [|lia]. by vm_compute.
Qed.

Lemma fib_text_nonempty n t : numeral 10 (fib (S n)) t -> t <> [].
Proof.
  intros (ds & -> & _ & Hv & _) H0. apply (f_equal length) in H0. rewrite chars_length in H0.
  destruct ds; [|done]. pose proof (fib_bounds n) as [[Hp _] _]. rewrite -Hv in Hp. done.
Qed.

(** The program ends as the comparison of the file with the numeral ends, an
    invalid read of the comparison included. *)
Lemma Fibonacci_outcome `{T : Target} (log_estimate : Z -> Z -> Z) (m : mem) (rounds : nat) file room :
  estimates log_estimate -> mem_wf m -> mem_room m -> rounds <> 0%nat -> fib (S (S rounds)) < Bpow 129 ->
  exists t, numeral 10 (fib (S (S rounds))) t /\
    (forall rep, checkres file room (t ++ [0]) = OK rep -> exists m',
       Fibonacci_rounds log_estimate file room (Z.of_nat rounds) m = OK (rep, m') /\ mem_extends m m') /\
    (forall e, checkres file room (t ++ [0]) = Er e ->
       Fibonacci_rounds log_estimate file room (Z.of_nat rounds) m = Er e).
Proof.
  intros Hest Hwf Hroom Hr Hfib.
  destruct (ro_adequacy m (Fibonacci_string log_estimate (Z.of_nat rounds)) (fun _ _ =>
    exists t, numeral 10 (fib (S (S rounds))) t)) as (_ & _ & _ & (t & Ht) & _); [done..| |].
  { iIntros (Σ HG) "_". iApply (wp_Fibonacci_string with "[]"); [done..|]. iIntros (a b t l xs ys Ht) "_ _".
    iIntros (m') "_". iPureIntro. by exists t. }
  pose proof (numeral_no_zero 10 _ t ltac:(lia) Ht) as Hnz. exists t. split; [done|]. split.
  - intros rep Hrep.
    destruct (ro_adequacy m (Fibonacci_rounds log_estimate file room (Z.of_nat rounds)) (fun r _ => r = rep))
      as (r & m' & Hrun & -> & Hext); [done..| |by exists m'].
    iIntros (Σ HG) "_". iApply wp_bind. iApply (wp_Fibonacci_string with "[]"); [done..|].
    iIntros (a b t' l xs ys Ht') "Ha Hb". rewrite -(numeral_unique 10 _ t t' ltac:(lia) Ht Ht').
    iApply wp_bind. iApply wp_lift; [by rewrite /= checkres_text|].
    iApply wp_bind. iApply wp_ret. iApply wp_bind. iApply (wp_BigIntFree with "Ha").
    iApply wp_bind. iApply wp_ret. iApply wp_bind. iApply (wp_BigIntFree with "Hb"). iApply wp_ret.
    by iIntros (m') "_".
  - intros e He. apply ro_adequacy_err; [done..|]. iIntros (Σ HG) "_". iApply wpe_bind.
    iApply (wp_Fibonacci_string with "[]"); [done..|]. iIntros (a b t' l xs ys Ht') "_ _".
    rewrite -(numeral_unique 10 _ t t' ltac:(lia) Ht Ht'). iApply wpe_bind_l.
    iIntros (m') "Hm". iPureIntro. by rewrite /lift /= checkres_text // He.
Qed.


