(* ===== verification/Monad.v ===== *)
(** * The state and error monad of the coroutine and RPC components

    A C operation on a state [S] is a function from the state to a result and
    a new state, or to an error.  [Memory.v] has its own instance, on which
    the program logic of the big-integer component is built. *)

From S2P Require Import Prelude.

Local Open Scope Z_scope.

Definition ST (S A : Type) : Type := S -> res (A * S).

Section operations.
Context {S : Type}.

Definition s_ret {A} (a : A) : ST S A := fun s => OK (a, s).
Definition s_bind {A B} (c : ST S A) (f : A -> ST S B) : ST S B := fun s =>
  match c s with
  | OK (a, s') => f a s'
  | Er e => Er e
  end.
Definition s_fail {A} (e : error) : ST S A := fun _ => Er e.
Definition s_assert (b : bool) : ST S unit := if b then s_ret tt else s_fail AssertFail.
Definition s_get {A} (f : S -> A) : ST S A := fun s => OK (f s, s).
Definition s_mod (f : S -> S) : ST S unit := fun s => OK (tt, f s).

(** A dereference: the value behind an optional pointer *)
Definition s_some {A} (e : error) (o : option A) : ST S A :=
  match o with Some a => s_ret a | None => s_fail e end.

(** [if (b) c] *)
Definition s_when (b : bool) (c : ST S unit) : ST S unit := if b then c else s_ret tt.

End operations.

Declare Scope st_scope.
Delimit Scope st_scope with st.
Notation "'let*' x := c 'in' k" := (s_bind c (fun x => k))
  (at level 10, x binder, c at level 100, k at level 200) : st_scope.
Notation "c ;* k" := (s_bind c (fun _ => k)) (at level 100, right associativity) : st_scope.

(** Rewriting with the equations of the monad *)
Section laws.
Context {S : Type}.

Lemma s_bind_OK {A B} (c : ST S A) (f : A -> ST S B) s a s' :
  c s = OK (a, s') -> s_bind c f s = f a s'.
Proof. unfold s_bind. intros ->. done. Qed.

Lemma s_bind_Er {A B} (c : ST S A) (f : A -> ST S B) s e :
  c s = Er e -> s_bind c f s = Er e.
Proof. unfold s_bind. intros ->. done. Qed.

Lemma s_bind_assoc {A B C} (c : ST S A) (f : A -> ST S B) (g : B -> ST S C) s :
  s_bind (s_bind c f) g s = s_bind c (fun a => s_bind (f a) g) s.
Proof. unfold s_bind. by destruct (c s) as [[a s']|]. Qed.

Lemma s_bind_inv {A B} (c : ST S A) (f : A -> ST S B) s b s'' :
  s_bind c f s = OK (b, s'') -> exists a s', c s = OK (a, s') /\ f a s' = OK (b, s'').
Proof. unfold s_bind. destruct (c s) as [[a s']|]; [eauto|done]. Qed.

Lemma s_assert_true (b : bool) (s : S) : b = true -> s_assert b s = OK (tt, s).
Proof. intros ->. done. Qed.

Lemma s_assert_inv (b : bool) (s s' : S) u :
  s_assert b s = OK (u, s') -> b = true /\ s' = s.
Proof. destruct b; [intros [= <-]|]; done. Qed.

Lemma s_some_inv {A} e (o : option A) (s s' : S) a :
  s_some e o s = OK (a, s') -> o = Some a /\ s' = s.
Proof. destruct o; [intros [= <- <-]|]; done. Qed.

End laws.

(** One step of a successful run: turns [s_bind c f s = OK _] into the runs of
    its parts, and evaluates the primitive ones. *)
Ltac st_inv :=
  repeat match goal with
  | H : s_bind _ _ _ = OK _ |- _ =>
      let a := fresh "a" in let s := fresh "s" in let H1 := fresh "Hrun" in
      apply s_bind_inv in H as (a & s & H1 & H)
  | H : s_ret _ _ = OK _ |- _ => injection H as ? ?; subst
  | H : s_get _ _ = OK _ |- _ => injection H as ? ?; subst
  | H : s_mod _ _ = OK _ |- _ => injection H as ? ?; subst
  | H : s_fail _ _ = OK _ |- _ => discriminate H
  | H : s_assert _ _ = OK _ |- _ => apply s_assert_inv in H as [? ->]
  | H : s_some _ _ _ = OK _ |- _ => apply s_some_inv in H as [? ->]
  end.
