(* ===== verification/Bytes.v ===== *)
(** * Bytes of C objects

    The coroutine component copies stack bytes, the RPC component copies the
    object representations of integers into its messages.  Both targets are
    little-endian. *)

From S2P Require Import Prelude Words.

Local Open Scope Z_scope.

(** [is_bytes l]: every element of [l] is a byte. *)
Definition is_byte (b : Z) : Prop := 0 <= b < 256.
Definition is_bytes (l : list Z) : Prop := Forall is_byte l.

(** The [n] bytes of an integer object, lowest first *)
Fixpoint le_bytes (n : nat) (v : Z) : list Z :=
  match n with
  | O => []
  | S n => v mod 256 :: le_bytes n (v / 256)
  end.

Fixpoint le_value (l : list Z) : Z :=
  match l with
  | [] => 0
  | b :: l => b + 256 * le_value l
  end.

(** The bytes in front of the first null byte *)
Fixpoint before_null (l : list Z) : list Z :=
  match l with [] => [] | c :: l => if c =? 0 then [] else c :: before_null l end.

(** [sprintf(buf, "%d", i)] of a number that is not negative, with at most
    [n + 1] digits *)
Fixpoint decimal (n : nat) (i : Z) : list Z :=
  match n with
  | O => [48 + i]
  | S n => (if i <? 10 then [] else decimal n (i / 10)) ++ [48 + i mod 10]
  end.

(** The number a decimal numeral stands for *)
Definition of_decimal (l : list Z) : Z := fold_left (fun v c => 10 * v + (c - 48)) l 0.

Lemma of_decimal_decimal n i : 0 <= i < 10 ^ Z.of_nat (S n) -> of_decimal (decimal n i) = i.
Proof.
  revert i. induction n as [|n IH]; intros i Hi; cbn [decimal].
  { change (10 ^ Z.of_nat 1) with 10 in Hi. unfold of_decimal. cbn. lia. }
  rewrite Nat2Z.inj_succ, Z.pow_succ_r in Hi by lia.
  pose proof (Z.div_mod i 10 ltac:(lia)). unfold of_decimal in *. rewrite fold_left_app. cbn [fold_left].
  destruct (Z.ltb_spec i 10).
  - cbn. rewrite Z.mod_small by lia. lia.
  - rewrite IH; [lia|]. split; [apply Z.div_pos; lia|]. apply Z.div_lt_upper_bound; lia.
Qed.

Lemma decimal_digits n i : 0 <= i < 10 ^ Z.of_nat (S n) ->
  Forall (fun c => 48 <= c < 58) (decimal n i) /\ (1 <= length (decimal n i) <= S n)%nat.
Proof.
  revert i. induction n as [|n IH]; intros i Hi; cbn [decimal].
  { change (10 ^ Z.of_nat 1) with 10 in Hi. split; [|cbn; lia]. constructor; [lia|constructor]. }
  rewrite Nat2Z.inj_succ, Z.pow_succ_r in Hi by lia. pose proof (Z.mod_pos_bound i 10 ltac:(lia)).
  rewrite Forall_app, length_app. cbn [length].
  assert (Forall (fun c => 48 <= c < 58) [48 + i mod 10]) by (constructor; [lia|constructor]).
  destruct (i <? 10); cbn [length]; [split; [by split|lia]|].
  destruct (IH (i / 10)) as [Hd Hl]; [|split; [by split|lia]].
  split; [apply Z.div_pos; lia|apply Z.div_lt_upper_bound; lia].
Qed.

Lemma le_bytes_length n v : length (le_bytes n v) = n.
Proof. revert v. induction n; intros v; simpl; [done|]. by rewrite IHn. Qed.

Lemma le_bytes_ok n v : is_bytes (le_bytes n v).
Proof.
  revert v. induction n as [|n IH]; intros v; constructor; [|apply IH].
  unfold is_byte. apply Z.mod_pos_bound. lia.
Qed.

Lemma pow256_S (n : nat) : 256 ^ Z.of_nat (S n) = 256 * 256 ^ Z.of_nat n.
Proof. rewrite Nat2Z.inj_succ, Z.pow_succ_r by lia. done. Qed.

Lemma pow256_pos (n : nat) : 0 < 256 ^ Z.of_nat n.
Proof. apply Z.pow_pos_nonneg; lia. Qed.

Lemma le_value_bytes n v : le_value (le_bytes n v) = v mod 256 ^ Z.of_nat n.
Proof.
  revert v. induction n as [|n IH]; intros v; [simpl; by rewrite Z.mod_1_r|].
  simpl le_bytes. cbn [le_value]. rewrite IH, pow256_S.
  rewrite Z.rem_mul_r; [lia|lia|]. pose proof (pow256_pos n). lia.
Qed.

Lemma le_value_small n v : 0 <= v < 256 ^ Z.of_nat n -> le_value (le_bytes n v) = v.
Proof. intros. rewrite le_value_bytes. by apply Z.mod_small. Qed.

Lemma le_value_range l : is_bytes l -> 0 <= le_value l < 256 ^ Z.of_nat (length l).
Proof.
  induction 1 as [|b l Hb Hl IH]; [simpl; lia|].
  cbn [length le_value]. rewrite pow256_S. unfold is_byte in Hb. lia.
Qed.

Lemma le_bytes_value l : is_bytes l -> le_bytes (length l) (le_value l) = l.
Proof.
  induction 1 as [|b l Hb Hl IH]; [done|]. unfold is_byte in Hb. cbn [length le_value le_bytes].
  rewrite (mod_unique_range _ 256 (le_value l)), (div_unique_range _ 256 (le_value l)) by lia.
  rewrite IH. f_equal. lia.
Qed.

(** Zero bytes above the stored ones do not change the value. *)
Lemma le_value_app l l' :
  le_value (l ++ l') = le_value l + 256 ^ Z.of_nat (length l) * le_value l'.
Proof.
  induction l as [|b l IH]; [simpl; lia|].
  cbn [app length le_value]. rewrite pow256_S, IH. lia.
Qed.

Lemma le_value_zeros n : le_value (replicate n 0) = 0.
Proof. induction n; cbn [replicate le_value]; lia. Qed.

#[export] Hint Resolve le_bytes_ok : cword.
#[export] Hint Rewrite le_bytes_length : bytes.

(** ** Strings

    A C string is the bytes before its terminating zero; the model passes the
    bytes without the zero. *)
Definition is_string (s : list Z) : Prop := Forall (fun b => 0 < b < 256) s.

Lemma is_string_bytes s : is_string s -> is_bytes s.
Proof. intros Hs. eapply Forall_impl; [exact Hs|]. unfold is_byte. lia. Qed.

(** [strlen] and the string at the front of a buffer that holds a zero *)
Fixpoint c_string (l : list Z) : option (list Z) :=
  match l with
  | [] => None
  | b :: l => if b =? 0 then Some [] else option_map (cons b) (c_string l)
  end.

Lemma c_string_app s l : is_string s -> c_string (s ++ 0 :: l) = Some s.
Proof.
  induction 1 as [|b s Hb Hs IH]; [done|]. simpl.
  rewrite (proj2 (Z.eqb_neq b 0)) by lia. rewrite IH. done.
Qed.

Lemma c_string_is_string l s : is_bytes l -> c_string l = Some s -> is_string s.
Proof.
  intros Hl. revert s. induction Hl as [|b l Hb Hl IH]; intros s; simpl; [done|].
  case_if; [intros [= <-]; constructor|].
  destruct (c_string l) as [s'|]; [|done]. intros [= <-].
  constructor; [unfold is_byte in Hb; lia|by apply IH].
Qed.
