(* ===== verification/Ctx.v ===== *)
(** * Contexts of [cmake/coroutine/src/ctx.c] and the switch of
      [swap_ctx_x64.asm], on x86-64 with the System V calling convention

    A register holds a 64-bit integer; a code address is an element of a type
    [C], so that the coroutine component can instantiate it with what remains
    to be executed.  [None] in [ret] is the null pointer of a fresh context. *)

From S2P Require Import Prelude Words.

Local Open Scope Z_scope.

(** [struct co_ctx] *)
Record co_ctx (C : Type) : Type := CoCtx {
  ret : option C;
  rbx : Z; r12 : Z; r13 : Z; r14 : Z; r15 : Z; rbp : Z; rsp : Z; rdi : Z;
  ss_size : Z;
  ss_sp : Z
}.
Arguments CoCtx {C}.
Arguments ret {C}. Arguments rbx {C}. Arguments r12 {C}. Arguments r13 {C}.
Arguments r14 {C}. Arguments r15 {C}. Arguments rbp {C}. Arguments rsp {C}.
Arguments rdi {C}. Arguments ss_size {C}. Arguments ss_sp {C}.

Section code.
Context {C : Type}.

(** [new_ctx]: a zeroed context; the allocation itself belongs to the caller. *)
Definition ctx_zero : co_ctx C := CoCtx None 0 0 0 0 0 0 0 0 0 0.

(** [ctx->ss_sp = ...; ctx->ss_size = ...] *)
Definition set_stack (c : co_ctx C) (sp size : Z) : co_ctx C :=
  CoCtx (ret c) (rbx c) (r12 c) (r13 c) (r14 c) (r15 c) (rbp c) (rsp c) (rdi c) size sp.

(** The stack pointer of a fresh context: the last place for a pointer in the
    stack, rounded down to a multiple of 16 *)
Definition initial_sp (sp size : Z) : Z := Z.land (u64 (sp + size - 8)) (u64 (-16)).

(** [make_ctx]: all registers are cleared, the stack description is kept. *)
Definition make_ctx (c : co_ctx C) (fn : C) : co_ctx C :=
  CoCtx (Some fn) 0 0 0 0 0 0 (initial_sp (ss_sp c) (ss_size c)) 0 (ss_size c) (ss_sp c).

(** ** [swap_ctx]

    The registers a running thread has at the call of [swap_ctx].  [sp] points
    at the return address the call has pushed. *)
Record cpu : Type := Cpu {
  c_rbx : Z; c_r12 : Z; c_r13 : Z; c_r14 : Z; c_r15 : Z; c_rbp : Z; c_rsp : Z; c_rdi : Z
}.

(** The first half stores into [from], with the stack pointer after the return
    address has been popped. *)
Definition save_ctx (from : co_ctx C) (retaddr : C) (r : cpu) : co_ctx C :=
  CoCtx (Some retaddr) (c_rbx r) (c_r12 r) (c_r13 r) (c_r14 r) (c_r15 r) (c_rbp r)
    (c_rsp r + 8) (c_rdi r) (ss_size from) (ss_sp from).

(** The second half loads from [to]; pushing the return address and returning
    leaves the stack pointer where it was loaded. *)
Definition load_ctx (to : co_ctx C) : cpu :=
  Cpu (rbx to) (r12 to) (r13 to) (r14 to) (r15 to) (rbp to) (rsp to) (rdi to).

(** [swap_ctx(from, to)] as executed by code that is to continue at [retaddr]:
    the new contents of [from], the address execution continues at (none when
    [to] was never made) and the registers there. *)
Definition swap_ctx (from to : co_ctx C) (retaddr : C) (r : cpu) : co_ctx C * option C * cpu :=
  (save_ctx from retaddr r, ret to, load_ctx to).

(** ** Properties *)

(** What a normal return to [retaddr] would leave in the registers *)
Definition returned (r : cpu) : cpu :=
  Cpu (c_rbx r) (c_r12 r) (c_r13 r) (c_r14 r) (c_r15 r) (c_rbp r) (c_rsp r + 8) (c_rdi r).

(** Switching away and back again is invisible: whatever ran in between and
    whatever registers it had, the code that called [swap_ctx] continues at its
    return address with its callee-saved registers and its stack pointer as
    after a normal return, and the stack description of its context is kept. *)
Lemma swap_ctx_back (a b : co_ctx C) (ra rb : C) (r r' : cpu) :
  let '(a1, _, _) := swap_ctx a b ra r in
  let '(b1, target, regs) := swap_ctx b a1 rb r' in
  target = Some ra /\ regs = returned r /\
  ss_size a1 = ss_size a /\ ss_sp a1 = ss_sp a /\ ret b1 = Some rb /\ load_ctx b1 = returned r'.
Proof. simpl. done. Qed.

Lemma land_align (j a : Z) : 0 <= j <= 64 -> 0 <= a < 2 ^ 64 ->
  Z.land a (Z.shiftl (Z.ones (64 - j)) j) = 2 ^ j * (a / 2 ^ j).
Proof.
  intros Hj Ha. replace (2 ^ j * (a / 2 ^ j)) with (Z.shiftl (Z.shiftr a j) j);
    [|rewrite Z.shiftl_mul_pow2, Z.shiftr_div_pow2 by lia; lia].
  apply Z.bits_inj'. intros n Hn. rewrite Z.land_spec, !Z.shiftl_spec by lia.
  destruct (Z.ltb_spec n j).
  - rewrite !(Z.testbit_neg_r _ (n - j)) by lia. apply andb_false_r.
  - rewrite Z.shiftr_spec by lia. replace (n - j + j) with n by lia.
    destruct (Z.ltb_spec n 64).
    + rewrite Z.ones_spec_low by lia. apply andb_true_r.
    + rewrite Z.ones_spec_high by lia. rewrite andb_false_r.
      rewrite <- (Z.mod_small a (2 ^ 64)), Z.mod_pow2_bits_high by lia. done.
Qed.

Lemma initial_sp_eq (sp size : Z) :
  0 <= sp -> 8 <= size -> sp + size < 2 ^ 64 -> initial_sp sp size = 16 * ((sp + size - 8) / 16).
Proof. intros. unfold initial_sp. rewrite wrap_small by (unfold word; lia). apply (land_align 4); lia. Qed.

(** The stack pointer [make_ctx] computes is a multiple of 16, leaves at
    least eight and at most 23 bytes above it, and lies in the stack when the
    stack has at least 24 bytes; but the function then starts with that very
    stack pointer, whereas the calling convention wants the stack pointer to be
    8 below a multiple of 16 at the entry of a function: the entry of every
    coroutine is misaligned. *)
Theorem make_ctx_stack (c : co_ctx C) (fn : C) (from : co_ctx C) (ra : C) (r : cpu) :
  0 <= ss_sp c -> 24 <= ss_size c -> ss_sp c + ss_size c < 2 ^ 64 ->
  let '(_, target, regs) := swap_ctx from (make_ctx c fn) ra r in
  target = Some fn /\ c_rsp regs mod 16 = 0 /\ (c_rsp regs + 8) mod 16 <> 0 /\
  8 <= ss_sp c + ss_size c - c_rsp regs <= 23 /\ ss_sp c < c_rsp regs.
Proof.
  intros Hsp Hsize Htop. simpl. rewrite initial_sp_eq by lia.
  split; [done|]. set (q := (ss_sp c + ss_size c - 8) / 16).
  assert (16 * q = (ss_sp c + ss_size c - 8) - (ss_sp c + ss_size c - 8) mod 16) by
    (unfold q; pose proof (Z.div_mod (ss_sp c + ss_size c - 8) 16); lia).
  pose proof (Z.mod_pos_bound (ss_sp c + ss_size c - 8) 16).
  split; [rewrite Z.mul_comm, Z.mod_mul; lia|].
  rewrite (mod_unique_range (16 * q + 8) 16 q) by lia. lia.
Qed.

End code.

Lemma make_ctx_stack_witness :
  let '(_, target, regs) := swap_ctx (ctx_zero (C := nat))
    (make_ctx (set_stack ctx_zero 1000 100) 7%nat) 3%nat (Cpu 1 2 3 4 5 6 7 8) in
  target = Some 7%nat /\ c_rsp regs mod 16 = 0 /\ (c_rsp regs + 8) mod 16 <> 0 /\
  8 <= 1000 + 100 - c_rsp regs <= 23 /\ 1000 < c_rsp regs.
Proof.
  apply (make_ctx_stack (set_stack ctx_zero 1000 100) 7%nat ctx_zero 3%nat (Cpu 1 2 3 4 5 6 7 8));
    simpl; lia.
Defined.
