(* ===== verification/Coroutine.v ===== *)
(** * The coroutine library [cmake/coroutine/src/co.c]

    The configuration modelled is the one with the library's own contexts
    (without [USE_NATIVE_CO]) on x86-64 Linux.  All coroutines of a thread run
    on one shared stack; a coroutine that swaps out has the used part of that
    stack copied to the heap, and copied back when it is resumed.

    The body of a coroutine is a tree of the actions it performs between its
    calls of the library.  Its local variables are the bytes of its frames,
    which live on the shared stack: an action reads them from there, and the
    rest of the body depends on what it finds.  Heap allocations succeed or
    fail as [malloc_result] says, by the number of the allocation. *)

From S2P Require Import Prelude Words Monad Bytes Ctx.

Local Open Scope Z_scope.
Local Open Scope st_scope.

(** ** Bodies *)

Inductive prog (W : Type) : Type :=
  | PRet                                           (* the function returns *)
  | PAct (f : list Z -> W -> list Z * W)           (* changes the frames and the world *)
         (k : list Z -> W -> prog W)
  | PSwap (k : list Z -> prog W)                   (* [co_swap()], then the frames found *)
  | PId (k : Z -> prog W)                          (* [co_id()] *)
  | PNew (child : prog W) (k : Z -> prog W).       (* [co_new(child, ...)] *)
Arguments PRet {W}. Arguments PAct {W}. Arguments PSwap {W}.
Arguments PId {W}. Arguments PNew {W}.

(** Where a context continues: the entry function [_co_main], or the return of
    [co_swap] in the coroutine with id [self]. *)
Inductive cont (W : Type) : Type :=
  | Entry
  | After (self : Z) (k : list Z -> prog W).
Arguments Entry {W}. Arguments After {W}.

(** ** Data *)

Inductive state : Type := CO_NONE | CO_READY | CO_RUNNING | CO_SUSPEND | CO_STOPED.

#[export] Instance state_eq_dec : EqDecision state.
Proof. solve_decision. Defined.

(** [struct coroutine]; [func] stands for the function applied to its argument.
    [stack] is the private copy: the bytes written to it so far. *)
Record coroutine (W : Type) : Type := Co {
  func : prog W;
  ctx : option (co_ctx (cont W));
  status : state;
  co_cap : Z;
  size : Z;
  stack : option (list Z)
}.
Arguments Co {W}. Arguments func {W}. Arguments ctx {W}. Arguments status {W}.
Arguments co_cap {W}. Arguments size {W}. Arguments stack {W}.

(** [struct co_env]; [co] is the array of [cap] pointers, [stack_addr] the
    address of the shared stack and [shared] its bytes, zero where absent. *)
Record co_env (W : Type) : Type := Env {
  nco : Z;
  cap : Z;
  running_id : Z;
  co : list (option (coroutine W));
  stack_size : Z;
  stack_addr : Z;
  shared : gmap Z Z
}.
Arguments Env {W}. Arguments nco {W}. Arguments cap {W}. Arguments running_id {W}.
Arguments co {W}. Arguments stack_size {W}. Arguments stack_addr {W}. Arguments shared {W}.

(** The thread-local pointer [env]: null, to a freed environment (after a
    [co_open] that failed halfway), or to a live one *)
Inductive env_ptr (W : Type) : Type :=
  | ENull
  | EFreed
  | EAt (e : co_env W).
Arguments ENull {W}. Arguments EFreed {W}. Arguments EAt {W}.

(** The thread: its [env], everything else the bodies act on, the number of
    allocations made so far and the number of live heap blocks. *)
Record St (W : Type) : Type := MkSt {
  env : env_ptr W;
  world : W;
  nalloc : nat;
  nlive : Z
}.
Arguments MkSt {W}. Arguments env {W}. Arguments world {W}. Arguments nalloc {W}.
Arguments nlive {W}.

(** ** Updates of single fields *)
Section updates.
Context {W : Type}.
Implicit Types (c : coroutine W) (e : co_env W) (s : St W).

Definition c_status c v := Co (func c) (ctx c) v (co_cap c) (size c) (stack c).
Definition c_ctx c v := Co (func c) v (status c) (co_cap c) (size c) (stack c).
Definition c_stack c cap size stack := Co (func c) (ctx c) (status c) cap size stack.
Definition e_nco e v := Env v (cap e) (running_id e) (co e) (stack_size e) (stack_addr e) (shared e).
Definition e_running e v := Env (nco e) (cap e) v (co e) (stack_size e) (stack_addr e) (shared e).
Definition e_array e cap (co : list (option (coroutine W))) := Env (nco e) cap (running_id e) co (stack_size e) (stack_addr e) (shared e).
Definition e_shared e v := Env (nco e) (cap e) (running_id e) (co e) (stack_size e) (stack_addr e) v.
Definition s_env s v := MkSt v (world s) (nalloc s) (nlive s).
Definition s_world s v := MkSt (env s) v (nalloc s) (nlive s).
End updates.

(** ** The bytes of the shared stack *)

(** The bytes in [a, b) *)
Definition peek (m : gmap Z Z) (a : Z) : Z := default 0 (m !! a).
Definition read_range (m : gmap Z Z) (a b : Z) : list Z := map (peek m) (seqZ a (b - a)).

Fixpoint write_at (m : gmap Z Z) (a : Z) (l : list Z) : gmap Z Z :=
  match l with
  | [] => m
  | b :: l => write_at (<[a := b]> m) (a + 1) l
  end.

(** ** The library *)

Definition STACK_SIZE : Z := 1024 * 1024.
Definition DEFAULT_COROUTINE : Z := 15.
Definition sizeof_env : Z := 40.

Definition _IsValidCap (n : Z) : bool := (Z.land (u64 (n + 1)) n =? 0) && (0 <? n).

(** [while (n <= cap) n <<= 1;] *)
Fixpoint align_loop (fuel : nat) (n cap : Z) : res Z :=
  if n <=? cap then
    match fuel with
    | O => Er OutOfFuel
    | S fuel => align_loop fuel (2 * n) cap
    end
  else OK n.

(** A capacity is below [2^16], so 17 doublings are enough. *)
Definition _align (cap : Z) : res Z :=
  match align_loop 17 1 cap with
  | OK n => if _IsValidCap (n - 1) then OK (n - 1) else Er AssertFail
  | Er e => Er e
  end.

Definition ALIGN (x a : Z) : Z := Z.land (u64 (x + a - 1)) (w_not 64 (a - 1)).

Section library.
Context {W : Type}.
Variable malloc_result : nat -> option Z.
Notation ST := (ST (St W)).

(** *** Allocation and access *)

(** [malloc]/[calloc]: an address, or null; [realloc] of a live block moves it. *)
Definition alloc : ST (option Z) := fun s =>
  match malloc_result (nalloc s) with
  | Some a => OK (Some a, MkSt (env s) (world s) (S (nalloc s)) (nlive s + 1))
  | None => OK (None, MkSt (env s) (world s) (S (nalloc s)) (nlive s))
  end.
Definition realloc : ST (option Z) := fun s =>
  OK (malloc_result (nalloc s), MkSt (env s) (world s) (S (nalloc s)) (nlive s)).
Definition free : ST unit := fun s =>
  OK (tt, MkSt (env s) (world s) (nalloc s) (nlive s - 1)).

Definition get_env : ST (co_env W) := fun s =>
  match env s with
  | EAt e => OK (e, s)
  | ENull => Er NullDeref
  | EFreed => Er OutOfBounds
  end.
Definition set_env (e : co_env W) : ST unit := s_mod (fun s => s_env s (EAt e)).
Definition set_ptr (p : env_ptr W) : ST unit := s_mod (fun s => s_env s p).
Definition mod_env (f : co_env W -> co_env W) : ST unit :=
  let* e := get_env in set_env (f e).

(** [env->co[id]], and a store there *)
Definition get_co (id : Z) : ST (option (coroutine W)) :=
  let* e := get_env in
  if (0 <=? id) && (id <? Z.of_nat (length (co e)))
  then s_some OutOfBounds (co e !! Z.to_nat id) else s_fail OutOfBounds.
Definition set_co (id : Z) (c : option (coroutine W)) : ST unit :=
  let* e := get_env in
  if (0 <=? id) && (id <? Z.of_nat (length (co e)))
  then set_env (e_array e (cap e) (<[Z.to_nat id := c]> (co e))) else s_fail OutOfBounds.

(** The coroutine behind [env->co[id]] and an update of it *)
Definition the_co (id : Z) : ST (coroutine W) :=
  let* c := get_co id in s_some NullDeref c.
Definition mod_co (id : Z) (f : coroutine W -> coroutine W) : ST unit :=
  let* c := the_co id in set_co id (Some (f c)).

(** *** Construction *)

Definition new_ctx : ST (option (co_ctx (cont W))) :=
  let* p := alloc in s_ret (option_map (fun _ => ctx_zero) p).

Definition _co_new (body : prog W) : ST (option (coroutine W)) :=
  let* p := alloc in
  match p with
  | None => s_ret None
  | Some _ =>
      let* x := new_ctx in
      s_ret (Some (Co body x CO_READY 0 0 None))
  end.

Definition _co_delete (c : coroutine W) : ST unit :=
  s_when (bool_decide (is_Some (ctx c))) free ;*
  s_when (bool_decide (is_Some (stack c))) free ;*
  free.

Definition co_open (cap_ share_stack_size : Z) : ST bool :=
  let size := if share_stack_size =? 0 then STACK_SIZE else share_stack_size in
  let size := ALIGN size 8 in
  let* p := alloc in
  match p with
  | None => set_ptr ENull ;* s_ret false
  | Some a =>
      (* [calloc(1, sizeof(co_env) + size)] is too small when the sum wraps *)
      if 2 ^ 64 <=? sizeof_env + size then s_fail OutOfBounds else
      let* n := (if cap_ =? 0
                 then s_assert (_IsValidCap DEFAULT_COROUTINE) ;* s_ret DEFAULT_COROUTINE
                 else fun s => match _align cap_ with OK n => OK (n, s) | Er e => Er e end) in
      let* q := alloc in
      match q with
      | None => free ;* set_ptr EFreed ;* s_ret false
      | Some _ =>
          let* x := new_ctx in
          match x with
          | None => free ;* free ;* set_ptr EFreed ;* s_ret false
          | Some _ =>
              set_env (Env 0 n (-1) (replicate (Z.to_nat n) None) size (a + sizeof_env) ∅) ;*
              s_ret true
          end
      end
  end.

(** [for (int i = 0; i < env->cap; i++)] of [co_close] *)
Fixpoint close_all (n : nat) (i : Z) : ST unit :=
  match n with
  | O => s_ret tt
  | S n =>
      let* c := get_co i in
      match c with
      | Some c => _co_delete c ;* set_co i None
      | None => s_ret tt
      end ;*
      close_all n (i + 1)
  end.

Definition co_close : ST unit := fun s =>
  match env s with
  | ENull => OK (tt, s)
  | EFreed => Er OutOfBounds
  | EAt e =>
      (close_all (Z.to_nat (cap e)) 0 ;*
       free ;*                           (* the array *)
       free ;*                           (* the main context *)
       free ;*                           (* the environment *)
       set_ptr ENull) s
  end.

(** The search of [co_new]: the first empty slot from [nco] on, with the index
    reduced by a bitwise and with the capacity *)
Fixpoint find_slot (n : nat) (i : Z) (c : option (coroutine W)) : ST Z :=
  match n with
  | O => s_fail AssertFail
  | S n =>
      let* e := get_env in
      let id := Z.land (i + nco e) (cap e) in
      let* o := get_co id in
      match o with
      | None =>
          set_co id c ;*
          mod_env (fun e => e_nco e (nco e + 1)) ;*
          s_ret id
      | Some _ => find_slot n (i + 1) c
      end
  end.

Definition co_new (body : prog W) : ST Z :=
  let* c := _co_new body in
  let* e := get_env in
  if cap e <=? nco e then
    let id := cap e in
    let cap' := id * 2 + 1 in
    if INT_MAX <? cap' then s_fail IntOverflow else
    s_assert (_IsValidCap cap') ;*
    let* p := realloc in
    match p with
    | None => s_ret (-1)
    | Some _ =>
        mod_env (fun e => e_array e cap' (co e ++ replicate (Z.to_nat (cap' - id)) None)) ;*
        set_co id c ;*
        mod_env (fun e => e_nco e (nco e + 1)) ;*
        s_ret id
    end
  else find_slot (Z.to_nat (cap e)) 0 c.

Definition co_id : ST Z := let* e := get_env in s_ret (running_id e).

(** *** Running on the shared stack *)

(** The stack pointer a coroutine starts with; its frames lie below *)
Definition entry_sp (e : co_env W) : Z := initial_sp (stack_addr e) (stack_size e).

(** An access to the bytes in [a, b) of the shared stack *)
Definition in_stack (e : co_env W) (a b : Z) : bool :=
  (stack_addr e <=? a) && (b <=? stack_addr e + stack_size e).

(** The frames of the running coroutine, when its stack pointer is [sp] *)
Definition frames (sp : Z) : ST (list Z) :=
  let* e := get_env in
  if in_stack e sp (entry_sp e) then s_ret (read_range (shared e) sp (entry_sp e))
  else s_fail OutOfBounds.

(** New contents of the frames, and the stack pointer that belongs to them *)
Definition set_frames (l : list Z) : ST Z :=
  let* e := get_env in
  let sp := entry_sp e - Z.of_nat (length l) in
  if in_stack e sp (entry_sp e) then
    set_env (e_shared e (write_at (shared e) sp l)) ;* s_ret sp
  else s_fail OutOfBounds.

(** The private copy after a [memcpy] of [l] to its start *)
Definition overwrite (old l : list Z) : list Z := l ++ drop (length l) old.

(** A private copy that is too small is replaced. *)
Definition grow_stack (id : Z) (c : coroutine W) (used : Z) : ST unit :=
  if co_cap c <? used then
    s_when (bool_decide (is_Some (stack c))) free ;*
    let* p := alloc in
    mod_co id (fun c => c_stack c used (size c) (option_map (fun _ => []) p))
  else s_ret tt.

(** [_save_stack].  It copies from its local variable [dummy] on, which lies below
    the frames of its caller; the stack pointer of a coroutine that swaps out is
    taken to be the address of [dummy], so that the frames of a body that swaps
    are those of [co_swap] and [_save_stack] included. *)
Definition _save_stack (id sp : Z) : ST unit :=
  let* c := the_co id in
  let* e := get_env in
  s_assert (stack_addr e <? sp) ;*
  let top := stack_addr e + stack_size e in
  let used := top - sp in
  s_assert (u64 used <=? stack_size e) ;*
  grow_stack id c used ;*
  mod_co id (fun c => c_stack c (co_cap c) used
    (option_map (fun old => overwrite old (read_range (shared e) sp top)) (stack c))).

(** The registers at a call of [swap_ctx] from frames that start at [sp]; every
    local variable is in the frames. *)
Definition regs_at (sp : Z) : cpu := Cpu 0 0 0 0 0 0 (sp - 8) 0.

(** [co_swap], called with the stack pointer [sp]; the coroutine is to continue
    with [k]. *)
Definition co_swap (k : cont W) (sp : Z) : ST unit :=
  let* e := get_env in
  let id := running_id e in
  s_assert (0 <=? id) ;*
  mod_co id (fun c => c_status c CO_SUSPEND) ;*
  mod_env (fun e => e_running e (-1)) ;*
  _save_stack id sp ;*
  let* c := the_co id in
  let* x := s_some NullDeref (ctx c) in
  mod_co id (fun c => c_ctx c (Some (save_ctx x k (regs_at sp)))).

(** Runs the body of the coroutine [self] until it returns ([true]) or swaps
    out ([false]). *)
Fixpoint run (self : Z) (p : prog W) (sp : Z) : ST bool :=
  match p with
  | PRet => s_ret true
  | PAct f k =>
      let* l := frames sp in
      let* w := s_get world in
      s_mod (fun s => s_world s (f l w).2) ;*
      let* sp' := set_frames (f l w).1 in
      run self (k (f l w).1 (f l w).2) sp'
  | PSwap k => co_swap (After self k) sp ;* s_ret false
  | PId k => let* i := co_id in run self (k i) sp
  | PNew child k => let* i := co_new child in run self (k i) sp
  end.

(** The end of [_co_main], after the function has returned *)
Definition _co_main_end (self : Z) : ST unit :=
  mod_co self (fun c => c_status c CO_STOPED) ;*
  mod_env (fun e => e_nco e (nco e - 1)) ;*
  mod_env (fun e => e_running e (-1)) ;*
  let* c := the_co self in
  let* _ := s_some NullDeref (ctx c) in
  s_ret tt.

Definition finish (self : Z) (returned : bool) : ST unit :=
  if returned then _co_main_end self else s_ret tt.

(** [_co_main], entered with the stack pointer [sp] *)
Definition _co_main (sp : Z) : ST unit :=
  let* e := get_env in
  let id := running_id e in
  let* c := the_co id in
  let* r := run id (func c) sp in
  finish id r.

(** [swap_ctx(env->main, co->ctx)], up to the switch back to the main context *)
Definition enter (id : Z) : ST unit :=
  let* c := the_co id in
  let* x := s_some NullDeref (ctx c) in
  let* target := s_some NullDeref (ret x) in
  let sp := c_rsp (load_ctx x) in
  match target with
  | Entry => _co_main sp
  | After self k =>
      let* l := frames sp in
      let* r := run self (k l) sp in
      finish self r
  end.

(** The [memcpy] that puts the private copy of [c] back *)
Definition restore_stack (c : coroutine W) : ST unit :=
  let* e := get_env in
  let* saved := s_some NullDeref (stack c) in
  let at_ := stack_addr e + stack_size e - size c in
  if negb (in_stack e at_ (at_ + size c)) then s_fail OutOfBounds else
  if Z.of_nat (length saved) <? size c then s_fail Uninit else
  set_env (e_shared e (write_at (shared e) at_ (take (Z.to_nat (size c)) saved))).

Definition co_resume (id : Z) : ST bool :=
  let* e := get_env in
  s_assert (running_id e =? -1) ;*
  s_assert ((0 <=? id) && (id <? cap e)) ;*
  let* o := get_co id in
  match o with
  | None => s_ret false
  | Some c =>
      match status c with
      | CO_READY =>
          mod_env (fun e => e_running e id) ;*
          mod_co id (fun c => c_status c CO_RUNNING) ;*
          let* x := s_some NullDeref (ctx c) in
          let x := make_ctx (set_stack x (stack_addr e) (stack_size e)) Entry in
          mod_co id (fun c => c_ctx c (Some x)) ;*
          enter id ;*
          s_ret true
      | CO_SUSPEND =>
          mod_env (fun e => e_running e id) ;*
          mod_co id (fun c => c_status c CO_RUNNING) ;*
          restore_stack c ;*
          enter id ;*
          s_ret true
      | CO_STOPED =>
          _co_delete c ;*
          set_co id None ;*
          s_ret false
      | CO_NONE | CO_RUNNING => s_fail AssertFail
      end
  end.

(** *** Waiting *)

(** [while (co_resume(id));] *)
Fixpoint co_join (fuel : nat) (id : Z) : ST unit :=
  match fuel with
  | O => s_fail OutOfFuel
  | S fuel =>
      let* b := co_resume id in
      if b then co_join fuel id else s_ret tt
  end.

(** One execution of the inner loop of [co_wait] from index [i] *)
Fixpoint wait_round (fuel : nat) (i : Z) (flag : bool) : ST bool :=
  let* e := get_env in
  if i <? cap e then
    match fuel with
    | O => s_fail OutOfFuel
    | S fuel =>
        let* b := co_resume i in
        wait_round fuel (i + 1) (b || flag)
    end
  else s_ret flag.

Fixpoint co_wait (rounds slots : nat) : ST unit :=
  match rounds with
  | O => s_fail OutOfFuel
  | S rounds =>
      let* flag := wait_round slots 0 false in
      if flag then co_wait rounds slots else s_ret tt
  end.

End library.
