(* ===== verification/CoMain.v ===== *)
(** * The example program [cmake/coroutine/main.c]

    The world of its coroutines is what they print.  A line printed by [foo]
    is kept as the coroutine id and the value in it; the thread id is the same
    in all lines of a thread. *)

From S2P Require Import Prelude Words Monad Bytes Ctx Coroutine.

Local Open Scope Z_scope.
Local Open Scope st_scope.

Inductive line : Type :=
  | MainStart
  | Line (id value : Z)
  | MainEnd.

#[export] Instance line_eq_dec : EqDecision line.
Proof. solve_decision. Defined.

Abbreviation world_t := (list line).

(** The frame of [foo] holds [start] and [i], of four bytes each. *)
Definition frame (start i : Z) : list Z := le_bytes 4 start ++ le_bytes 4 i.
Definition get_start (l : list Z) : Z := le_value (take 4 l).
Definition get_i (l : list Z) : Z := le_value (take 4 (drop 4 l)).

(** [for (; i < 3; i++) { printf(...); co_swap(); }], for at most [n] rounds *)
Fixpoint foo_loop (n : nat) : prog world_t :=
  match n with
  | O => PRet
  | S n =>
      PAct (fun l w => (l, w)) (fun l _ =>
        if get_i l <? 3 then
          PId (fun id =>
          PAct (fun l w => (l, w ++ [Line id (get_start l + get_i l)])) (fun _ _ =>
          PSwap (fun _ =>
          PAct (fun l w => (frame (get_start l) (get_i l + 1), w)) (fun _ _ =>
          foo_loop n))))
        else PRet)
  end.

(** [foo(&arg)] with [arg.n = n]: four evaluations of the loop condition *)
Definition foo (n : Z) : prog world_t :=
  PAct (fun _ w => (frame n 0, w)) (fun _ _ => foo_loop 4).

Section main.
Variable malloc_result : nat -> option Z.
Notation ST := (ST (St world_t)).
Notation alloc := (alloc malloc_result).

Definition printf (l : line) : ST unit := s_mod (fun s => s_world s (world s ++ [l])).

(** The loop of [test] that creates the coroutines *)
Fixpoint create (n : nat) (i : Z) : ST unit :=
  match n with
  | O => s_ret tt
  | S n => let* _ := co_new malloc_result (foo (i * 100)) in create n (i + 1)
  end.

Definition NUM : nat := 10.

Definition test (fuel : nat) : ST unit :=
  let* arg := alloc in
  match arg with
  | None => s_ret tt
  | Some _ =>
      let* ar_id := alloc in
      match ar_id with
      | None => free
      | Some _ =>
          create NUM 0 ;*
          printf MainStart ;*
          co_wait malloc_result fuel fuel ;*
          printf MainEnd ;*
          free ;*
          free
      end
  end.

Definition worker (fuel : nat) : ST Z :=
  let* b := co_open malloc_result 0 0 in
  if negb b then s_ret 1 else
  test fuel ;*
  co_close ;*
  s_ret 0.

End main.

(** The state in which a thread starts *)
Definition thread_start : St world_t := MkSt ENull [] 0 0.

(** The lines a thread prints: round robin over the coroutines, three rounds *)
Definition expected : list line :=
  [MainStart] ++
  flat_map (fun i => map (fun j => Line j (j * 100 + i)) (seqZ 0 10)) (seqZ 0 3) ++
  [MainEnd].
