(* ===== verification/CoSpec.v ===== *)
(** * What the coroutine library promises: every coroutine has its own stack

    The specification keeps, for every slot, a body that has not started, a
    suspended body with the bytes of its own frames, or a finished one; there
    is no shared stack, no copying and no context.  The simulation below shows
    that the operations of [Coroutine.v] implement it, errors included. *)

From S2P Require Import Prelude Words Monad Bytes Ctx Coroutine.

Local Open Scope Z_scope.
Local Open Scope res_scope.

(** ** The specification *)

Inductive task (W : Type) : Type :=
  | TReady (p : prog W)
  | TSusp (k : list Z -> prog W) (l : list Z)
  | TDone.
Arguments TReady {W}. Arguments TSusp {W}. Arguments TDone {W}.

Record spec (W : Type) : Type := Spec {
  tasks : list (option (task W));
  count : Z;
  spec_world : W
}.
Arguments Spec {W}. Arguments tasks {W}. Arguments count {W}. Arguments spec_world {W}.

Section spec.
Context {W : Type}.
Implicit Types (t : spec W).

Definition slots t : Z := Z.of_nat (length (tasks t)).
Definition set_task t (i : Z) (o : option (task W)) : spec W :=
  Spec (<[Z.to_nat i := o]> (tasks t)) (count t) (spec_world t).

(** The first empty slot from [i] on *)
Fixpoint first_free (l : list (option (task W))) (i : Z) : option Z :=
  match l with
  | [] => None
  | None :: _ => Some i
  | Some _ :: l => first_free l (i + 1)
  end.

(** A new task takes the first empty slot at or above the number of tasks that
    have not finished; without one the library fails.  A full table is
    extended. *)
Definition spec_new (p : prog W) t : res (Z * spec W) :=
  if slots t <=? count t then
    if INT_MAX <? 2 * slots t + 1 then Er IntOverflow else
    OK (slots t, Spec (tasks t ++ Some (TReady p) :: replicate (length (tasks t)) None)
                   (count t + 1) (spec_world t))
  else
    match first_free (drop (Z.to_nat (count t)) (tasks t)) (count t) with
    | Some i => OK (i, Spec (<[Z.to_nat i := Some (TReady p)]> (tasks t)) (count t + 1) (spec_world t))
    | None => Er (if count t =? 0 then AssertFail else OutOfBounds)
    end.

(** Runs a body with the frames [l] of its own stack of [room] bytes, until it
    returns ([None]) or swaps out. *)
Fixpoint spec_run (room self : Z) (p : prog W) (l : list Z) t
  : res (option ((list Z -> prog W) * list Z) * spec W) :=
  match p with
  | PRet => OK (None, t)
  | PAct f k =>
      let '(l', w') := f l (spec_world t) in
      if room <? Z.of_nat (length l') then Er OutOfBounds else
      spec_run room self (k l' w') l' (Spec (tasks t) (count t) w')
  | PSwap k => if room <=? Z.of_nat (length l) then Er AssertFail else OK (Some (k, l), t)
  | PId k => spec_run room self (k self) l t
  | PNew child k => let? (i, t) := spec_new child t in spec_run room self (k i) l t
  end.

(** The task of slot [i] after a run *)
Definition spec_finish (i : Z) (r : option ((list Z -> prog W) * list Z) * spec W) : bool * spec W :=
  match r with
  | (Some (k, l), t) => (true, set_task t i (Some (TSusp k l)))
  | (None, t) =>
      let t := set_task t i (Some TDone) in (true, Spec (tasks t) (count t - 1) (spec_world t))
  end.

Definition spec_resume (room i : Z) t : res (bool * spec W) :=
  if negb ((0 <=? i) && (i <? slots t)) then Er AssertFail else
  match tasks t !! Z.to_nat i with
  | None | Some None => OK (false, t)
  | Some (Some TDone) => OK (false, set_task t i None)
  | Some (Some (TReady p)) =>
      let? r := spec_run room i p [] t in OK (spec_finish i r)
  | Some (Some (TSusp k l)) =>
      let? r := spec_run room i (k l) l t in OK (spec_finish i r)
  end.

(** *** Waiting *)

Fixpoint spec_join (room : Z) (fuel : nat) (i : Z) t : res (unit * spec W) :=
  match fuel with
  | O => Er OutOfFuel
  | S fuel =>
      let? (b, t) := spec_resume room i t in
      if b then spec_join room fuel i t else OK (tt, t)
  end.

(** One pass over the slots from [i] on *)
Fixpoint spec_round (room : Z) (fuel : nat) (i : Z) (flag : bool) t : res (bool * spec W) :=
  if i <? slots t then
    match fuel with
    | O => Er OutOfFuel
    | S fuel =>
        let? (b, t) := spec_resume room i t in
        spec_round room fuel (i + 1) (b || flag) t
    end
  else OK (flag, t).

(** Round robin until a pass finds nothing to resume *)
Fixpoint spec_wait (room : Z) (rounds n : nat) t : res (unit * spec W) :=
  match rounds with
  | O => Er OutOfFuel
  | S rounds =>
      let? (flag, t) := spec_round room n 0 false t in
      if flag then spec_wait room rounds n t else OK (tt, t)
  end.

Definition unfinished (o : option (task W)) : Z :=
  match o with
  | Some (TReady _) | Some (TSusp _ _) => 1
  | Some TDone | None => 0
  end.

(** The invariant of the specification: a power of two less one slots, and the
    count is the number of unfinished tasks. *)
Definition spec_inv t : Prop :=
  (exists k, 1 <= k <= 31 /\ slots t = 2 ^ k - 1) /\
  count t = zsum unfinished (tasks t).

Lemma unfinished_range o : 0 <= unfinished o <= 1.
Proof. destruct o as [[]|]; simpl; lia. Qed.

Lemma count_range t : spec_inv t -> 0 <= count t <= slots t.
Proof.
  intros [_ ->]. split.
  - apply zsum_nonneg. intros. pose proof (unfinished_range a). lia.
  - unfold slots. rewrite <- (Z.mul_1_l (Z.of_nat _)). apply zsum_bound.
    intros a _. pose proof (unfinished_range a). lia.
Qed.

(** A full table has a task in every slot. *)
Lemma zsum_full (l : list (option (task W))) i :
  Z.of_nat (length l) <= zsum unfinished l -> l !! i <> Some None.
Proof.
  revert i. induction l as [|o l IH]; intros i Hl; [done|].
  pose proof (unfinished_range o).
  assert (zsum unfinished l <= 1 * Z.of_nat (length l)) by
    (apply zsum_bound; intros a _; pose proof (unfinished_range a); lia).
  cbn [length zsum] in Hl. destruct i as [|i]; simpl.
  - intros [= ->]. simpl in *. lia.
  - apply IH. lia.
Qed.

Lemma first_free_Some (l : list (option (task W))) (i j : Z) :
  first_free l i = Some j ->
  i <= j < i + Z.of_nat (length l) /\ l !! Z.to_nat (j - i) = Some None /\
  forall n, i <= n < j -> exists x, l !! Z.to_nat (n - i) = Some (Some x).
Proof.
  revert i. induction l as [|[x|] l IH]; intros i; cbn [first_free length]; [done| |].
  - intros (Hr & Hj & Hn)%IH. split; [lia|].
    replace (Z.to_nat (j - i)) with (S (Z.to_nat (j - (i + 1)))) by lia. split; [done|].
    intros n Hni. destruct (decide (n = i)) as [->|].
    + rewrite Z.sub_diag. simpl. eauto.
    + replace (Z.to_nat (n - i)) with (S (Z.to_nat (n - (i + 1)))) by lia. apply Hn. lia.
  - intros [= ->]. rewrite Z.sub_diag. split; [lia|]. split; [done|]. lia.
Qed.

Lemma first_free_None (l : list (option (task W))) (i : Z) (n : nat) :
  first_free l i = None -> (n < length l)%nat -> exists x, l !! n = Some (Some x).
Proof.
  revert i n. induction l as [|[x|] l IH]; intros i n Hf Hn; simpl in *; [lia| |done].
  destruct n as [|n]; simpl; [eauto|]. apply (IH (i + 1)); [done|lia].
Qed.

(** ** The invariant is kept *)

Lemma spec_new_inv p t i t' : spec_inv t -> spec_new p t = OK (i, t') ->
  spec_inv t' /\ 0 <= i < slots t' /\ slots t <= slots t' /\
  (forall j o, tasks t !! j = Some (Some o) -> tasks t' !! j = Some (Some o)).
Proof.
  intros Hinv. pose proof (count_range t Hinv) as Hc. destruct Hinv as [(k & Hk & Hs) Hn].
  unfold spec_new. case_if.
  - case_if; [done|]. intros [= <- <-]. unfold spec_inv, slots in *. cbn [tasks count].
    rewrite length_app, zsum_app. cbn [length zsum unfinished].
    rewrite length_replicate, zsum_replicate by done.
    split; [split; [|lia]|split; [lia|]].
    + exists (k + 1). rewrite Z.pow_add_r by lia. change (2 ^ 1) with 2.
      split; [|lia]. split; [lia|]. apply Z.lt_succ_r, (Z.pow_lt_mono_r_iff 2); [lia|lia|].
      rewrite Z.pow_add_r by lia. unfold INT_MAX in *. lia.
    + split; [lia|]. intros j o Hj. rewrite lookup_app_l; [done|]. by eapply lookup_lt_Some.
  - destruct (first_free _ _) as [j|] eqn:Hf; [|done]. intros [= <- <-].
    apply first_free_Some in Hf as (Hr & Hj & _). rewrite length_drop in Hr.
    rewrite lookup_drop in Hj.
    replace (Z.to_nat (count t) + Z.to_nat (j - count t))%nat with (Z.to_nat j) in Hj by lia.
    unfold spec_inv, slots in *. cbn [tasks count]. rewrite length_insert.
    rewrite (zsum_insert _ _ _ None) by done. cbn [unfinished].
    split; [split; [eauto|lia]|]. split; [lia|]. split; [lia|]. intros j' o Hj'.
    rewrite list_lookup_insert_ne; [done|]. intros <-. congruence.
Qed.

Lemma spec_run_inv room self p l t r t' : spec_inv t -> spec_run room self p l t = OK (r, t') ->
  spec_inv t' /\ slots t <= slots t' /\
  (forall j o, tasks t !! j = Some (Some o) -> tasks t' !! j = Some (Some o)).
Proof.
  revert l t. induction p as [|f k IH|k IH|k IH|child _ k IH]; intros l t Hinv; cbn [spec_run].
  - intros [= <- <-]. eauto with lia.
  - destruct (f l (spec_world t)) as [l' w']. case_if; [done|]. intros Hr.
    apply IH in Hr; [|done]. done.
  - case_if; [done|]. intros [= <- <-]. eauto with lia.
  - eauto.
  - destruct (spec_new child t) as [[i t1]|] eqn:Hnew; [|done]. simpl. intros Hr.
    apply spec_new_inv in Hnew as (Hinv1 & Hi & Hle & Hkeep); [|done].
    apply IH in Hr as (? & ? & Hkeep'); [|done].
    split; [done|]. split; [lia|]. auto.
Qed.

Lemma spec_resume_inv room i t b t' : spec_inv t -> spec_resume room i t = OK (b, t') ->
  spec_inv t' /\ slots t <= slots t'.
Proof.
  intros Hinv. unfold spec_resume. case_if; [done|].
  assert (forall x r t1, tasks t !! Z.to_nat i = Some (Some x) -> unfinished (Some x) = 1 ->
    spec_inv t1 -> slots t <= slots t1 ->
    (forall j o, tasks t !! j = Some (Some o) -> tasks t1 !! j = Some (Some o)) ->
    spec_inv (spec_finish i (r, t1)).2 /\ slots t <= slots (spec_finish i (r, t1)).2) as Hfin.
  { intros x r t1 Hi Hx [Hs Hn] Hle Hkeep. apply Hkeep in Hi.
    destruct r as [[k l]|]; unfold spec_inv, slots in *; cbn; rewrite length_insert;
      rewrite (zsum_insert _ _ _ (Some x)) by done; rewrite Hx; cbn;
      (split; [split; [done|lia]|lia]). }
  destruct (tasks t !! Z.to_nat i) as [[x|]|] eqn:Hi; [|intros [= <- <-]; eauto with lia..].
  destruct x as [p|k l|].
  - destruct (spec_run _ _ _ _ _) as [[r t1]|] eqn:Hr; [|done]. cbn [res_bind].
    apply spec_run_inv in Hr as (? & ? & ?); [|done].
    intros Heq. assert (spec_finish i (r, t1) = (b, t')) as Heq' by congruence.
    specialize (Hfin _ r t1 eq_refl). rewrite Heq' in Hfin. auto.
  - destruct (spec_run _ _ _ _ _) as [[r t1]|] eqn:Hr; [|done]. cbn [res_bind].
    apply spec_run_inv in Hr as (? & ? & ?); [|done].
    intros Heq. assert (spec_finish i (r, t1) = (b, t')) as Heq' by congruence.
    specialize (Hfin _ r t1 eq_refl). rewrite Heq' in Hfin. auto.
  - intros [= <- <-]. destruct Hinv as [Hs Hn]. unfold spec_inv, slots in *. cbn.
    rewrite length_insert, (zsum_insert _ _ _ (Some TDone)) by done. cbn.
    split; [split; [done|lia]|lia].
Qed.

End spec.
