(* ===== verification/CoSim.v ===== *)
(** * The library of [Coroutine.v] implements the specification of [CoSpec.v]

    The relation [rep] connects a state of the library with a state of the
    specification: the frames a suspended task owns are the first bytes of the
    private copy of the coroutine, and its context points just below them. *)

From S2P Require Import Prelude Words Monad Bytes Ctx Coroutine CoSpec.

Local Open Scope Z_scope.
Local Open Scope st_scope.

(** Computes the fields of an updated state. *)
Ltac st_norm :=
  cbv [s_env s_world e_nco e_running e_array e_shared c_status c_ctx c_stack];
  cbn [env world nalloc nlive nco cap running_id co stack_size stack_addr shared
       func ctx status co_cap size stack fst snd].

(** ** Bytes of the shared stack *)

Lemma read_range_length m a b : a <= b -> length (read_range m a b) = Z.to_nat (b - a).
Proof. intros. unfold read_range. rewrite length_map, length_seqZ. done. Qed.

Lemma read_range_nil m a b : b <= a -> read_range m a b = [].
Proof. intros. unfold read_range. rewrite seqZ_nil by lia. done. Qed.

Lemma read_range_cons m a b : a < b -> read_range m a b = peek m a :: read_range m (a + 1) b.
Proof.
  intros. unfold read_range. rewrite seqZ_cons by lia. simpl. do 3 f_equal; lia.
Qed.

Lemma read_range_app m a b c : a <= b <= c ->
  read_range m a c = read_range m a b ++ read_range m b c.
Proof.
  intros Habc. unfold read_range. rewrite <- map_app. f_equal.
  replace (c - a) with ((b - a) + (c - b)) by lia. rewrite seqZ_app by lia.
  do 2 f_equal. lia.
Qed.

Lemma peek_write_before m a l b : b < a -> peek (write_at m a l) b = peek m b.
Proof.
  revert m a. induction l as [|v l IH]; intros m a Hb; simpl; [done|].
  rewrite IH by lia. unfold peek. rewrite lookup_insert_ne by lia. done.
Qed.

Lemma read_write m a l : read_range (write_at m a l) a (a + Z.of_nat (length l)) = l.
Proof.
  revert m a. induction l as [|v l IH]; intros m a; simpl write_at; cbn [length].
  - apply read_range_nil. lia.
  - rewrite read_range_cons by lia. rewrite peek_write_before by lia.
    unfold peek at 1. rewrite lookup_insert_eq. simpl. f_equal.
    replace (a + Z.of_nat (S (length l))) with (a + 1 + Z.of_nat (length l)) by lia. apply IH.
Qed.

Lemma read_write_prefix m a l b : a <= b <= a + Z.of_nat (length l) ->
  read_range (write_at m a l) a b = take (Z.to_nat (b - a)) l.
Proof.
  intros Hb. pose proof (read_write m a l) as Hrw.
  rewrite (read_range_app _ a b) in Hrw by lia.
  rewrite <- Hrw at 2. rewrite take_app_length'; [done|]. rewrite read_range_length; lia.
Qed.

Lemma overwrite_take old l : take (length l) (overwrite old l) = l.
Proof. unfold overwrite. apply take_app_length. Qed.

Lemma overwrite_length old l : (length l <= length (overwrite old l))%nat.
Proof. unfold overwrite. rewrite length_app. lia. Qed.

(** The index computed by a bitwise and with a capacity [2^k - 1] *)
Lemma IsValidCap_pow k : 1 <= k <= 31 -> _IsValidCap (2 ^ k - 1) = true.
Proof.
  intros Hk. unfold _IsValidCap. replace (2 ^ k - 1 + 1) with (2 ^ k) by lia.
  assert (2 ^ 1 <= 2 ^ k) by (apply Z.pow_le_mono_r; lia).
  assert (2 ^ k < 2 ^ 64) by (apply Z.pow_lt_mono_r; lia).
  rewrite wrap_small by (unfold word; lia).
  rewrite land_pow_mask by lia.
  simpl. apply Z.ltb_lt. lia.
Qed.

Section sim.
Context {W : Type}.
Variable malloc_result : nat -> option Z.
Hypothesis malloc_ok : forall n, is_Some (malloc_result n).
Variables (sa ss : Z).
Hypothesis sa_pos : 0 <= sa.
Hypothesis ss_pos : 24 <= ss.
Hypothesis top_ok : sa + ss < 2 ^ 64.
(** The number of live blocks besides those of the coroutines *)
Variable base : Z.

Definition sp0 : Z := initial_sp sa ss.
Definition room : Z := sp0 - sa.

Lemma sp0_range : sa < sp0 <= sa + ss - 8.
Proof.
  clear malloc_ok. unfold sp0. rewrite initial_sp_eq by lia.
  pose proof (Z.div_mod (sa + ss - 8) 16). pose proof (Z.mod_pos_bound (sa + ss - 8) 16). lia.
Qed.

(** ** The relation *)

(** The heap blocks of a slot *)
Definition blocks_of (o : option (coroutine W)) : Z :=
  match o with
  | None => 0
  | Some c => 1 + (if ctx c then 1 else 0) + (if stack c then 1 else 0)
  end.

Definition buf_ok (c : coroutine W) : Prop :=
  0 <= co_cap c /\ (stack c = None -> co_cap c = 0).

Definition task_rep (i : Z) (c : coroutine W) (t : task W) : Prop :=
  buf_ok c /\ exists x, ctx c = Some x /\
  match t with
  | TReady p => status c = CO_READY /\ func c = p
  | TSusp k l =>
      status c = CO_SUSPEND /\ ret x = Some (After i k) /\
      rsp x = sp0 - Z.of_nat (length l) /\ Z.of_nat (length l) < room /\
      size c = sa + ss - rsp x /\
      exists saved, stack c = Some saved /\ size c <= Z.of_nat (length saved) /\
        take (length l) saved = l
  | TDone => status c = CO_STOPED
  end.

Definition slot_rep (i : Z) (oc : option (coroutine W)) (ot : option (task W)) : Prop :=
  match oc, ot with
  | None, None => True
  | Some c, Some t => task_rep i c t
  | _, _ => False
  end.

(** The slot of the coroutine that is running *)
Definition run_rep (oc : option (coroutine W)) (ot : option (task W)) : Prop :=
  unfinished ot = 1 /\
  exists c, oc = Some c /\ status c = CO_RUNNING /\ is_Some (ctx c) /\ buf_ok c.

Definition rel_slot (r i : Z) oc ot : Prop :=
  if decide (i = r) then run_rep oc ot else slot_rep i oc ot.

(** The array and the tasks, when [r] is running ([-1] for none) *)
Definition array_rep (r : Z) (arr : list (option (coroutine W))) (ts : list (option (task W))) : Prop :=
  length arr = length ts /\
  forall i oc ot, arr !! i = Some oc -> ts !! i = Some ot -> rel_slot r (Z.of_nat i) oc ot.

Inductive rep (r : Z) (sh : gmap Z Z) : St W -> spec W -> Prop :=
  | Rep arr w a t :
      array_rep r arr (tasks t) -> spec_inv t -> spec_world t = w -> r < slots t ->
      rep r sh (MkSt (EAt (Env (count t) (slots t) r arr ss sa sh)) w a
               (base + zsum blocks_of arr)) t.

(** Agreement of a run of the library with one of the specification *)
Definition agree {A B} (R : A -> St W -> B -> spec W -> Prop)
    (x : res (A * St W)) (y : res (B * spec W)) : Prop :=
  match x, y with
  | OK (a, s), OK (b, t) => R a s b t
  | Er e, Er e' => e = e'
  | _, _ => False
  end.

Lemma array_rep_lookup r arr ts i oc :
  array_rep r arr ts -> arr !! i = Some oc ->
  exists ot, ts !! i = Some ot /\ rel_slot r (Z.of_nat i) oc ot.
Proof.
  intros [Hlen Hall] Hi. assert (i < length ts)%nat as [ot Hot]%lookup_lt_is_Some_2.
  { rewrite <- Hlen. by eapply lookup_lt_Some. }
  eauto.
Qed.

Lemma array_rep_lookup_r r arr ts i ot :
  array_rep r arr ts -> ts !! i = Some ot ->
  exists oc, arr !! i = Some oc /\ rel_slot r (Z.of_nat i) oc ot.
Proof.
  intros [Hlen Hall] Hi. assert (i < length arr)%nat as [oc Hoc]%lookup_lt_is_Some_2.
  { rewrite Hlen. by eapply lookup_lt_Some. }
  eauto.
Qed.

Lemma array_rep_insert r r' arr ts i oc ot :
  array_rep r arr ts -> rel_slot r' (Z.of_nat i) oc ot ->
  (forall j oc ot, i <> j -> rel_slot r (Z.of_nat j) oc ot -> rel_slot r' (Z.of_nat j) oc ot) ->
  array_rep r' (<[i:=oc]> arr) (<[i:=ot]> ts).
Proof.
  intros [Hlen Hall] Hi Hj. split; [by rewrite !length_insert|]. intros j oc' ot'.
  destruct (decide (i = j)) as [<-|].
  - intros H1 H2. pose proof (lookup_lt_Some _ _ _ H1) as Hlt. rewrite length_insert in Hlt.
    rewrite list_lookup_insert_eq in H1 by done. rewrite list_lookup_insert_eq in H2 by lia.
    simplify_eq. done.
  - rewrite !list_lookup_insert_ne by done. intros. apply Hj; [done|]. eauto.
Qed.

Lemma rel_slot_other r i oc ot : i <> r -> rel_slot r i oc ot = slot_rep i oc ot.
Proof. intros. unfold rel_slot. by rewrite decide_False. Qed.

Lemma rel_slot_self r oc ot : rel_slot r r oc ot = run_rep oc ot.
Proof. unfold rel_slot. by rewrite decide_True. Qed.

(** Leaving or entering the running state changes no other slot. *)
Lemma rel_slot_switch r r' (i j : nat) oc ot :
  i <> j -> (r = Z.of_nat i \/ r = -1) -> (r' = Z.of_nat i \/ r' = -1) ->
  rel_slot r (Z.of_nat j) oc ot -> rel_slot r' (Z.of_nat j) oc ot.
Proof. intros. rewrite !rel_slot_other in * by lia. done. Qed.

Lemma slot_empty r i oc ot : rel_slot r i oc ot -> (oc = None <-> ot = None).
Proof.
  unfold rel_slot. case_decide; [intros (Hot & c & -> & _)|].
  - split; [done|]. intros ->. done.
  - destruct oc, ot; simpl; done.
Qed.

Lemma array_rep_app r arr ts arr' ts' :
  array_rep r arr ts -> length arr' = length ts' -> r < Z.of_nat (length ts) ->
  (forall i oc ot, r < i -> arr' !! Z.to_nat (i - Z.of_nat (length ts)) = Some oc ->
    ts' !! Z.to_nat (i - Z.of_nat (length ts)) = Some ot -> slot_rep i oc ot) ->
  array_rep r (arr ++ arr') (ts ++ ts').
Proof.
  intros [Hlen Hall] Hlen' Hr Hnew. split; [rewrite !length_app; lia|]. intros i oc ot.
  destruct (decide (i < length ts)%nat).
  - rewrite !lookup_app_l by lia. apply Hall.
  - rewrite !lookup_app_r by lia. intros Hoc Hot. rewrite rel_slot_other by lia.
    apply Hnew; [lia| |].
    + rewrite <- Hoc. f_equal. lia.
    + rewrite <- Hot. f_equal. lia.
Qed.

Lemma rep_intro r sh arr w a t n c b :
  array_rep r arr (tasks t) -> spec_inv t -> spec_world t = w -> r < slots t ->
  n = count t -> c = slots t -> b = base + zsum blocks_of arr ->
  rep r sh (MkSt (EAt (Env n c r arr ss sa sh)) w a b) t.
Proof. intros ????-> -> ->. by constructor. Qed.

(** ** Single accesses *)

Lemma get_env_at e w a b : get_env (MkSt (EAt e) w a b) = OK (e, MkSt (EAt e) w a b) :> res (_ * St W).
Proof. done. Qed.

Lemma get_co_at e w a b i oc : 0 <= i -> co e !! Z.to_nat i = Some oc ->
  get_co i (MkSt (EAt e) w a b) = OK (oc, MkSt (EAt e) w a b) :> res (_ * St W).
Proof.
  intros Hi Hoc. unfold get_co, s_bind. simpl. pose proof (lookup_lt_Some _ _ _ Hoc).
  rewrite (proj2 (Z.leb_le _ _)), (proj2 (Z.ltb_lt _ _)) by lia. simpl. rewrite Hoc. done.
Qed.

Lemma set_co_at e w a b i c : 0 <= i < Z.of_nat (length (co e)) ->
  set_co i c (MkSt (EAt e) w a b) =
    OK (tt, MkSt (EAt (e_array e (cap e) (<[Z.to_nat i:=c]> (co e)))) w a b) :> res (_ * St W).
Proof.
  intros Hi. unfold set_co, s_bind. simpl.
  rewrite (proj2 (Z.leb_le _ _)), (proj2 (Z.ltb_lt _ _)) by lia. done.
Qed.

Lemma the_co_at e w a b i c : 0 <= i -> co e !! Z.to_nat i = Some (Some c) ->
  the_co i (MkSt (EAt e) w a b) = OK (c, MkSt (EAt e) w a b) :> res (_ * St W).
Proof. intros Hi Hc. unfold the_co, s_bind. erewrite get_co_at by done. done. Qed.

Lemma mod_co_at e w a b i c f : 0 <= i -> co e !! Z.to_nat i = Some (Some c) ->
  mod_co i f (MkSt (EAt e) w a b) =
    OK (tt, MkSt (EAt (e_array e (cap e) (<[Z.to_nat i:=Some (f c)]> (co e)))) w a b)
    :> res (_ * St W).
Proof.
  intros Hi Hc. unfold mod_co, s_bind. erewrite the_co_at by done.
  pose proof (lookup_lt_Some _ _ _ Hc). rewrite set_co_at by lia. done.
Qed.

Lemma alloc_at s : exists p, alloc malloc_result s =
  OK (Some p, MkSt (env s) (world s) (S (nalloc s)) (nlive s + 1)) :> res (_ * St W).
Proof. clear - malloc_ok. unfold alloc. destruct (malloc_ok (nalloc s)) as [p ->]. eauto. Qed.

(** ** Creation *)

Lemma find_slot_at (n : nat) i r arr sh w a b t c :
  array_rep r arr (tasks t) -> spec_inv t -> Z.of_nat n + i = slots t -> 0 <= i ->
  count t + i <= slots t ->
  find_slot n i (Some c) (MkSt (EAt (Env (count t) (slots t) r arr ss sa sh)) w a b) =
  match first_free (drop (Z.to_nat (count t + i)) (tasks t)) (count t + i) with
  | Some j => OK (j, MkSt (EAt (Env (count t + 1) (slots t) r
                (<[Z.to_nat j := Some c]> arr) ss sa sh)) w a b)
  | None => Er (if count t =? 0 then AssertFail else OutOfBounds)
  end.
Proof.
  intros Harr Hinv. pose proof (count_range t Hinv) as Hc.
  destruct Hinv as [(k & Hk & Hs) _]. pose proof (proj1 Harr) as Hlen.
  revert i. induction n as [|n IH]; intros i Hn Hi Hle.
  - rewrite drop_ge by (unfold slots in *; lia). simpl. rewrite (proj2 (Z.eqb_eq _ 0)) by lia. done.
  - cbn [find_slot]. unfold s_bind at 1. rewrite get_env_at. cbn [nco cap].
    rewrite Z.add_comm, Hs, (land_mask_small k) by lia. rewrite <- Hs.
    destruct (Z.eq_dec (count t + i) (slots t)) as [He|].
    + rewrite drop_ge by (unfold slots in *; lia). cbn [first_free].
      rewrite (proj2 (Z.eqb_neq _ 0)) by lia. apply s_bind_Er.
      unfold get_co, s_bind. simpl. unfold slots in *.
      rewrite (proj2 (Z.leb_le 0 _)), (proj2 (Z.ltb_ge _ _)) by lia. done.
    + assert (Z.to_nat (count t + i) < length arr)%nat as Hlt by (unfold slots in *; lia).
      apply lookup_lt_is_Some_2 in Hlt as [oc Hoc].
      erewrite s_bind_OK by (apply get_co_at; [lia|done]).
      destruct (array_rep_lookup _ _ _ _ _ Harr Hoc) as (ot & Hot & Hrel).
      apply slot_empty in Hrel. rewrite (drop_S _ _ _ Hot).
      destruct oc as [c'|], ot as [x|]; try (exfalso; intuition congruence); cbn [first_free].
      * replace (S (Z.to_nat (count t + i))) with (Z.to_nat (count t + (i + 1))) by lia.
        rewrite <- Z.add_assoc. apply IH; lia.
      * unfold slots in *. erewrite s_bind_OK by (apply set_co_at; simpl; lia). done.
Qed.

Lemma task_rep_new i p : task_rep i (Co p (Some ctx_zero) CO_READY 0 0 None) (TReady p).
Proof. split; [split; simpl; lia|]. eexists. simpl. done. Qed.

Lemma _co_new_at p e w a b : exists a', _co_new malloc_result p (MkSt e w a b) =
  OK (Some (Co p (Some ctx_zero) CO_READY 0 0 None), MkSt e w a' (b + 2)) :> res (_ * St W).
Proof.
  unfold _co_new. destruct (alloc_at (MkSt e w a b)) as [q Hq].
  erewrite s_bind_OK by exact Hq. cbn [env world nalloc nlive].
  unfold new_ctx. destruct (alloc_at (MkSt e w (S a) (b + 1))) as [q' Hq'].
  replace (b + 2) with (b + 1 + 1) by lia. unfold s_bind. rewrite Hq'. simpl. eexists. done.
Qed.

Lemma rel_slot_new r i p : r <> i ->
  rel_slot r i (Some (Co p (Some ctx_zero) CO_READY 0 0 None)) (Some (TReady p)).
Proof. intros. rewrite rel_slot_other by done. apply task_rep_new. Qed.

Lemma sim_new r sh s t p : rep r sh s t ->
  agree (fun i s' i' t' => i = i' /\ rep r sh s' t') (co_new malloc_result p s) (spec_new p t).
Proof.
  intros [arr w a t' Harr Hinv Hw Hr]. unfold co_new.
  destruct (_co_new_at p (EAt (Env (count t') (slots t') r arr ss sa sh)) w a
    (base + zsum blocks_of arr)) as [a' Hnew].
  erewrite s_bind_OK by exact Hnew. erewrite s_bind_OK by done. cbn [cap nco].
  pose proof (fun i t'' => spec_new_inv p t' i t'' Hinv) as Hinv'.
  pose proof (proj1 Harr) as Hlen. unfold spec_new. case_if.
  - rewrite (Z.mul_comm 2). case_if; [done|].
    destruct Hinv as [(k & Hk & Hs) Hn]. pose proof (count_range t') as Hc.
    rewrite s_bind_OK with (a := tt) (s' := MkSt (EAt (Env (count t') (slots t') r arr ss sa sh))
      w a' (base + zsum blocks_of arr + 2)).
    2: { apply s_assert_true. replace (slots t' * 2 + 1) with (2 ^ (k + 1) - 1) by
           (rewrite Z.pow_add_r; lia).
         apply IsValidCap_pow. split; [lia|]. apply Z.lt_succ_r, (Z.pow_lt_mono_r_iff 2); [lia|lia|].
         rewrite Z.pow_add_r by lia. unfold INT_MAX in *. lia. }
    unfold realloc, s_bind at 1. cbn [nalloc env world nlive]. destruct (malloc_ok a') as [q ->].
    erewrite s_bind_OK by done. cbn [co cap].
    erewrite s_bind_OK.
    2: { apply set_co_at. cbn [co e_array]. rewrite length_app, length_replicate. unfold slots. lia. }
    cbn. st_norm. split; [done|].
    assert (<[Z.to_nat (slots t') := Some (Co p (Some ctx_zero) CO_READY 0 0 None)]>
      (arr ++ replicate (Z.to_nat (slots t' * 2 + 1 - slots t')) None) =
      arr ++ Some (Co p (Some ctx_zero) CO_READY 0 0 None) :: replicate (length (tasks t')) None)
      as Harr'.
    { unfold slots. replace (Z.to_nat (Z.of_nat (length (tasks t')))) with (length arr + 0)%nat by lia.
      rewrite insert_app_r.
      replace (Z.to_nat _) with (S (length (tasks t'))) by lia. done. }
    rewrite Harr'. destruct (Hinv' (slots t') _
      ltac:(unfold spec_new; repeat case_if; try reflexivity; exfalso; lia)) as (Hinv1 & _).
    apply rep_intro; cbn [tasks count spec_world]; try done.
    + apply array_rep_app; [done|simpl; rewrite !length_replicate; done|done|].
      intros i oc ot Hi. unfold slots in *.
      destruct (Z.to_nat (i - Z.of_nat (length (tasks t')))) as [|j]; simpl.
      * intros [= <-] [= <-]. apply task_rep_new.
      * intros [-> _]%lookup_replicate [-> _]%lookup_replicate. done.
    + unfold slots in *. cbn [tasks]. rewrite length_app. simpl. lia.
    + unfold slots in *. cbn [tasks]. rewrite length_app. simpl. rewrite length_replicate. lia.
    + rewrite zsum_app. simpl. rewrite zsum_replicate by done. lia.
  - rewrite (find_slot_at _ _ _ _ _ _ _ _ t') by (unfold slots in *; auto; lia).
    rewrite Z.add_0_r. destruct (first_free _ _) as [j|] eqn:Hf; [|done]. split; [done|].
    destruct (Hinv' j _ ltac:(unfold spec_new; rewrite Hf; case_if; [exfalso; lia|reflexivity])) as (Hinv1 & _).
    pose proof (count_range t' Hinv) as Hc.
    apply first_free_Some in Hf as (Hr1 & Hj & _). rewrite length_drop in Hr1.
    rewrite lookup_drop in Hj.
    replace (Z.to_nat (count t') + Z.to_nat (j - count t'))%nat with (Z.to_nat j) in Hj by lia.
    destruct (array_rep_lookup_r _ _ _ _ _ Harr Hj) as (oc & Hoc & Hrel).
    assert (oc = None) as -> by (by eapply slot_empty in Hrel; apply Hrel).
    apply rep_intro; cbn [tasks count spec_world]; try done.
    + apply (array_rep_insert r); [done| |done].
      apply rel_slot_new. rewrite Z2Nat.id by lia. intros ->.
      rewrite Z2Nat.id, rel_slot_self in Hrel by lia. by destruct Hrel as [? _].
    + unfold slots in *. cbn [tasks]. by rewrite length_insert.
    + unfold slots in *. cbn [tasks]. by rewrite length_insert.
    + rewrite (zsum_insert _ _ _ None) by done. simpl. lia.
Qed.

(** ** Swapping out *)

Lemma c_stack_id (c : coroutine W) : c_stack c (co_cap c) (size c) (stack c) = c.
Proof. by destruct c. Qed.

Lemma e_array_id (e : co_env W) : e_array e (cap e) (co e) = e.
Proof. by destruct e. Qed.

Lemma e_array_twice (e : co_env W) n l n' l' : e_array (e_array e n l) n' l' = e_array e n' l'.
Proof. done. Qed.

(** After [grow_stack] there is a private copy that is large enough. *)
Lemma grow_stack_at e w a b i c used :
  co e !! Z.to_nat i = Some (Some c) -> 0 <= i -> buf_ok c -> 0 < used ->
  exists cap' old a',
    grow_stack malloc_result i c used (MkSt (EAt e) w a b) =
      OK (tt, MkSt (EAt (e_array e (cap e)
        (<[Z.to_nat i := Some (c_stack c cap' (size c) (Some old))]> (co e)))) w a'
        (b + (if stack c then 0 else 1))) /\ 0 <= cap'.
Proof.
  intros Hc Hi [Hcap Hnull] Hused. unfold grow_stack. case_if.
  - assert (exists b', s_when (bool_decide (is_Some (stack c))) free (MkSt (EAt e) w a b) =
      OK (tt, MkSt (EAt e) w a b') /\ b' + 1 = b + (if stack c then 0 else 1)) as (b' & Hfree & Hb).
    { destruct (stack c); [|rewrite bool_decide_false by (intros [? ?]; done)].
      - rewrite bool_decide_true by eauto. unfold free. simpl. eexists. split; [done|lia].
      - simpl. eexists. split; [done|lia]. }
    rewrite (s_bind_OK _ _ _ _ _ Hfree).
    destruct (alloc_at (MkSt (EAt e) w a b')) as [q Hq].
    rewrite (s_bind_OK _ _ _ _ _ Hq). cbn [env world nalloc nlive].
    erewrite mod_co_at by done. rewrite Hb. simpl. do 3 eexists. split; [done|lia].
  - destruct (stack c) as [old|] eqn:Hst; [|specialize (Hnull eq_refl); lia].
    exists (co_cap c), old, a. split; [|done]. rewrite <- Hst, c_stack_id.
    rewrite list_insert_id by done. rewrite e_array_id, Z.add_0_r. done.
Qed.

(** The private copy after [_save_stack] *)
Lemma save_stack_at e w a b i c sp :
  co e !! Z.to_nat i = Some (Some c) -> 0 <= i -> buf_ok c ->
  stack_addr e = sa -> stack_size e = ss -> sa < sp <= sp0 ->
  exists saved cap' a',
    _save_stack malloc_result i sp (MkSt (EAt e) w a b) =
      OK (tt, MkSt (EAt (e_array e (cap e)
        (<[Z.to_nat i := Some (c_stack c cap' (sa + ss - sp) (Some saved))]> (co e)))) w a'
        (b + (if stack c then 0 else 1))) /\
    0 <= cap' /\ sa + ss - sp <= Z.of_nat (length saved) /\
    take (Z.to_nat (sa + ss - sp)) saved = read_range (shared e) sp (sa + ss).
Proof.
  intros Hc Hi Hbuf Hsa Hss Hsp. pose proof sp0_range as Hsp0.
  pose proof (lookup_lt_Some _ _ _ Hc) as Hlt.
  unfold _save_stack. erewrite s_bind_OK by (by apply the_co_at).
  erewrite s_bind_OK by apply get_env_at. rewrite Hsa, Hss.
  erewrite s_bind_OK by (apply s_assert_true, Z.ltb_lt; lia).
  erewrite s_bind_OK by (apply s_assert_true, Z.leb_le; rewrite wrap_small; unfold word; lia).
  destruct (grow_stack_at e w a b i c (sa + ss - sp)) as (cap' & old & a' & Hgrow & Hcap');
    [done..|lia|].
  rewrite (s_bind_OK _ _ _ _ _ Hgrow).
  erewrite mod_co_at; [|done|st_norm; by rewrite list_lookup_insert_eq].
  assert (length (read_range (shared e) sp (sa + ss)) = Z.to_nat (sa + ss - sp)) as Hlen
    by (apply read_range_length; lia).
  st_norm. rewrite list_insert_insert_eq. simpl option_map.
  eexists (overwrite old (read_range (shared e) sp (sa + ss))), cap', a'.
  split; [done|]. split; [done|].
  pose proof (overwrite_length old (read_range (shared e) sp (sa + ss))).
  split; [lia|]. rewrite <- Hlen. apply overwrite_take.
Qed.

(** [co_swap] leaves the coroutine suspended, with its frames saved. *)
Lemma co_swap_at n cp i arr sh w a b c k (l : list Z) :
  arr !! Z.to_nat i = Some (Some c) -> 0 <= i -> buf_ok c -> is_Some (ctx c) ->
  Z.of_nat (length l) < room -> read_range sh (sp0 - Z.of_nat (length l)) sp0 = l ->
  exists c' a',
    co_swap malloc_result (After i k) (sp0 - Z.of_nat (length l))
      (MkSt (EAt (Env n cp i arr ss sa sh)) w a b) =
      OK (tt, MkSt (EAt (Env n cp (-1) (<[Z.to_nat i := Some c']> arr) ss sa sh)) w a'
        (b - blocks_of (Some c) + blocks_of (Some c'))) /\
    task_rep i c' (TSusp k l).
Proof.
  intros Hc Hi Hbuf [x Hx] Hroom Hframes. pose proof sp0_range as Hsp0. unfold room in *.
  pose proof (lookup_lt_Some _ _ _ Hc) as Hlt.
  set (sp := sp0 - Z.of_nat (length l)) in *.
  unfold co_swap. erewrite s_bind_OK by apply get_env_at. cbn [running_id].
  erewrite s_bind_OK by (apply s_assert_true, Z.leb_le; lia).
  erewrite s_bind_OK by (apply mod_co_at; [done|exact Hc]).
  erewrite s_bind_OK by reflexivity. st_norm.
  edestruct save_stack_at with (i := i) (sp := sp) as (saved & cap' & a' & Hsave & Hcap' & Hlen & Htake);
    [..|rewrite (s_bind_OK _ _ _ _ _ Hsave)].
  { simpl. by rewrite list_lookup_insert_eq. }
  { done. } { exact Hbuf. } { done. } { done. } { lia. }
  st_norm. rewrite list_insert_insert_eq.
  erewrite s_bind_OK by (apply the_co_at; [done|simpl; by rewrite list_lookup_insert_eq]).
  cbn [ctx]. rewrite Hx. erewrite s_bind_OK by reflexivity.
  erewrite mod_co_at; [|done|simpl; by rewrite list_lookup_insert_eq].
  st_norm. rewrite list_insert_insert_eq.
  do 2 eexists. split.
  - do 3 f_equal. cbn. rewrite Hx. destruct (stack c); lia.
  - split; [split; [done|]; done|]. eexists. split; [done|].
    cbn. split; [done|]. split; [done|]. split; [lia|]. split; [unfold room; lia|]. split; [lia|].
    eexists. split; [done|]. split; [lia|].
    simpl shared in Htake. rewrite (read_range_app _ sp sp0), Hframes in Htake by lia.
    apply (f_equal (take (length l))) in Htake.
    rewrite take_app_length, take_take in Htake. rewrite <- Htake at 2. f_equal. lia.
Qed.

(** Without room for the frames of [co_swap] the check of [_save_stack] fails. *)
Lemma co_swap_full n cp i arr sh w a b (c : coroutine W) k sp :
  arr !! Z.to_nat i = Some (Some c) -> 0 <= i -> sp <= sa ->
  co_swap malloc_result k sp (MkSt (EAt (Env n cp i arr ss sa sh)) w a b) = Er AssertFail.
Proof.
  intros Hc Hi Hsp. pose proof (lookup_lt_Some _ _ _ Hc) as Hlt.
  unfold co_swap. erewrite s_bind_OK by apply get_env_at. cbn [running_id].
  erewrite s_bind_OK by (apply s_assert_true, Z.leb_le; lia).
  erewrite s_bind_OK by (apply mod_co_at; [done|exact Hc]).
  erewrite s_bind_OK by reflexivity. st_norm. apply s_bind_Er.
  unfold _save_stack.
  erewrite s_bind_OK by (apply the_co_at; [done|simpl; by rewrite list_lookup_insert_eq]).
  erewrite s_bind_OK by apply get_env_at. cbn [stack_addr].
  rewrite (proj2 (Z.ltb_ge _ _)) by done. done.
Qed.

(** ** Running *)

(** The end of a run: the coroutine has returned, or is suspended. *)
Definition ran (self : Z) (r : bool) (s : St W)
    (o : option ((list Z -> prog W) * list Z)) (t : spec W) : Prop :=
  match o with
  | None => r = true /\ exists sh, rep self sh s t
  | Some (k, l) => r = false /\ exists sh, rep (-1) sh s (set_task t self (Some (TSusp k l)))
  end.

Lemma set_task_inv (t : spec W) i o o' : spec_inv t -> 0 <= i -> tasks t !! Z.to_nat i = Some o ->
  spec_inv (Spec (<[Z.to_nat i:=o']> (tasks t)) (count t - unfinished o + unfinished o') (spec_world t)).
Proof.
  intros [Hs Hn] Hi Ho. unfold spec_inv, slots in *. cbn [tasks count].
  rewrite length_insert, (zsum_insert _ _ _ o) by done. split; [done|lia].
Qed.

Lemma run_rep_at self sh s t : rep self sh s t -> 0 <= self ->
  exists arr w a c ot,
    s = MkSt (EAt (Env (count t) (slots t) self arr ss sa sh)) w a (base + zsum blocks_of arr) /\
    spec_world t = w /\ array_rep self arr (tasks t) /\ spec_inv t /\ self < slots t /\
    arr !! Z.to_nat self = Some (Some c) /\ tasks t !! Z.to_nat self = Some ot /\
    unfinished ot = 1 /\ status c = CO_RUNNING /\ is_Some (ctx c) /\ buf_ok c.
Proof.
  intros [arr w a t' Harr Hinv Hw Hr] Hself.
  assert (Z.to_nat self < length arr)%nat as [oc Hoc]%lookup_lt_is_Some_2.
  { rewrite (proj1 Harr). unfold slots in Hr. lia. }
  destruct (array_rep_lookup _ _ _ _ _ Harr Hoc) as (ot & Hot & Hrel).
  rewrite Z2Nat.id, rel_slot_self in Hrel by done. destruct Hrel as (Hu & c & -> & ? & ? & ?).
  exists arr, w, a, c, ot. done.
Qed.

Lemma in_stack_frames n c r (arr : list (option (coroutine W))) sh (l : list Z) :
  in_stack (Env n c r arr ss sa sh) (sp0 - Z.of_nat (length l)) sp0 = (Z.of_nat (length l) <=? room).
Proof.
  pose proof sp0_range. unfold in_stack, room. simpl.
  destruct (Z.leb_spec sa (sp0 - Z.of_nat (length l))), (Z.leb_spec sp0 (sa + ss)),
    (Z.leb_spec (Z.of_nat (length l)) (sp0 - sa)); simpl; lia || done.
Qed.

Lemma sim_run self p l sh s t : rep self sh s t -> 0 <= self ->
  Z.of_nat (length l) <= room -> read_range sh (sp0 - Z.of_nat (length l)) sp0 = l ->
  agree (ran self) (run malloc_result self p (sp0 - Z.of_nat (length l)) s)
    (spec_run room self p l t).
Proof.
  intros Hrep Hself. revert l sh s t Hrep.
  induction p as [|f k IH|k IH|k IH|child _ k IH]; intros l sh s t Hrep Hroom Hframes;
    cbn [run spec_run].
  - split; eauto.
  - destruct (run_rep_at _ _ _ _ Hrep Hself)
      as (arr & w & a & c & ot & -> & Hw & Harr & Hinv & Hs & Hc & Hot & Hu & Hst & Hctx & Hbuf).
    unfold frames at 1. rewrite s_bind_OK with (a := l)
      (s' := MkSt (EAt (Env (count t) (slots t) self arr ss sa sh)) w a (base + zsum blocks_of arr)).
    2: { erewrite s_bind_OK by apply get_env_at. unfold entry_sp. cbn [stack_addr stack_size].
         fold sp0. rewrite in_stack_frames, (proj2 (Z.leb_le _ _)) by done.
         cbn [shared]. rewrite Hframes. done. }
    erewrite s_bind_OK by reflexivity. erewrite s_bind_OK by reflexivity. st_norm.
    rewrite Hw. destruct (f l w) as [l' w'] eqn:Hf. cbn [fst snd].
    unfold set_frames, s_bind at 1, s_bind at 1. rewrite get_env_at. unfold entry_sp.
    cbn [stack_addr stack_size]. fold sp0. rewrite in_stack_frames.
    case_if; case_if; try lia; [|done]. st_norm.
    apply (IH l' w' l' (write_at sh (sp0 - Z.of_nat (length l')) l')); [|done|].
    + apply rep_intro; done.
    + pose proof (read_write sh (sp0 - Z.of_nat (length l')) l') as Hrw.
      rewrite Z.sub_add in Hrw. exact Hrw.
  - destruct (run_rep_at _ _ _ _ Hrep Hself)
      as (arr & w & a & c & ot & -> & Hw & Harr & Hinv & Hs & Hc & Hot & Hu & Hst & Hctx & Hbuf).
    case_if.
    + erewrite s_bind_Er; [|eapply co_swap_full; [exact Hc|done|unfold room in *; lia]]. done.
    + edestruct co_swap_at as (c' & a' & Hswap & Htask); [exact Hc|exact Hself|exact Hbuf|exact Hctx| |
        exact Hframes|rewrite (s_bind_OK _ _ _ _ _ Hswap)]; [lia|].
      split; [done|]. exists sh. unfold set_task.
      pose proof (set_task_inv t self ot (Some (TSusp k l)) Hinv Hself Hot) as Hinv'.
      rewrite Hu in Hinv'. cbn [unfinished] in Hinv'. rewrite Z.sub_add in Hinv'.
      apply rep_intro; cbn [tasks count spec_world]; try done.
      * apply (array_rep_insert self); [done| |].
        { rewrite Z2Nat.id, rel_slot_other by lia. exact Htask. }
        { intros j oc' ot' Hij. apply (rel_slot_switch _ _ (Z.to_nat self)); [done|lia|lia]. }
      * unfold slots in *. cbn [tasks]. rewrite length_insert. lia.
      * unfold slots in *. cbn [tasks]. by rewrite length_insert.
      * rewrite (zsum_insert _ _ _ (Some c)) by done. lia.
  - destruct (run_rep_at _ _ _ _ Hrep Hself)
      as (arr & w & a & c & ot & -> & _). apply (IH self l sh); done.
  - pose proof (sim_new _ _ _ _ child Hrep) as Hnew.
    unfold s_bind. destruct (co_new malloc_result child s) as [[i s']|e],
      (spec_new child t) as [[i' t']|e']; simpl in Hnew; try done.
    destruct Hnew as [<- Hrep']. cbn [res_bind]. apply (IH i l sh); done.
Qed.

(** ** Resuming *)

Lemma sim_finish self r s o t : 0 <= self -> ran self r s o t ->
  exists s' sh, finish self r s = OK (tt, s') /\ rep (-1) sh s' (spec_finish self (o, t)).2.
Proof.
  intros Hself. destruct o as [[k l]|]; intros [-> [sh Hrep]]; [by do 2 eexists|].
  destruct (run_rep_at _ _ _ _ Hrep Hself)
    as (arr & w & a & c & ot & -> & Hw & Harr & Hinv & Hs & Hc & Hot & Hu & Hst & [x Hctx] & Hbuf).
  pose proof (lookup_lt_Some _ _ _ Hc) as Hlt.
  cbn [finish]. unfold _co_main_end. erewrite s_bind_OK by (by apply mod_co_at).
  erewrite s_bind_OK by reflexivity. erewrite s_bind_OK by reflexivity. st_norm.
  erewrite s_bind_OK by (apply the_co_at; [done|simpl; by rewrite list_lookup_insert_eq]).
  cbn [ctx]. rewrite Hctx. do 2 eexists. split; [reflexivity|]. cbn [spec_finish snd].
  pose proof (set_task_inv t self ot (Some TDone) Hinv Hself Hot) as Hinv'.
  rewrite Hu in Hinv'. cbn [unfinished] in Hinv'. rewrite Z.add_0_r in Hinv'.
  apply rep_intro; cbn [tasks count spec_world set_task]; try done.
  - apply (array_rep_insert self); [done| |].
    + rewrite Z2Nat.id, rel_slot_other by lia. split; [done|]. eexists. split; [reflexivity|done].
    + intros j oc' ot' Hij. apply (rel_slot_switch _ _ (Z.to_nat self)); [done|lia|lia].
  - unfold slots in *. cbn [tasks]. rewrite length_insert. lia.
  - unfold slots in *. cbn [tasks]. by rewrite length_insert.
  - rewrite (zsum_insert _ _ _ (Some c)) by done. cbn. rewrite Hctx. lia.
Qed.

(** A run followed by its end *)
Lemma sim_enter self p l sh s t : rep self sh s t -> 0 <= self ->
  Z.of_nat (length l) <= room -> read_range sh (sp0 - Z.of_nat (length l)) sp0 = l ->
  agree (fun _ s' b t' => exists sh', rep (-1) sh' s' t' /\ b = true)
    ((let* r := run malloc_result self p (sp0 - Z.of_nat (length l)) in finish self r) s)
    (res_bind (spec_run room self p l t) (fun r => OK (spec_finish self r))).
Proof.
  intros Hrep Hself Hroom Hframes.
  pose proof (sim_run self p l sh s t Hrep Hself Hroom Hframes) as Hsim. unfold s_bind.
  destruct (run _ _ _ _ _) as [[r s']|], (spec_run _ _ _ _ _) as [[o t']|]; simpl in Hsim; try done.
  apply sim_finish in Hsim as (s'' & sh' & -> & Hrep'); [|done]. cbn [res_bind].
  destruct (spec_finish self (o, t')) as [b t''] eqn:Hfin. exists sh'. split; [done|].
  destruct o as [[k' l']|]; simpl in Hfin; congruence.
Qed.

Lemma agree_true (c : ST (St W) unit) s y :
  agree (fun _ s' b t' => exists sh', rep (-1) sh' s' t' /\ b = true) (c s) y ->
  agree (fun b s' b' t' => b = b' /\ exists sh', rep (-1) sh' s' t') ((c ;* s_ret true) s) y.
Proof.
  unfold s_bind. destruct (c s) as [[u s']|], y as [[b t']|]; simpl; try done.
  intros (sh' & ? & ->). eauto.
Qed.

(** The state in which the coroutine of slot [i] has been marked as running *)
Lemma rep_run (sh' : gmap Z Z) arr w a (t : spec W) (i : Z) c c' ot :
  array_rep (-1) arr (tasks t) -> spec_inv t -> spec_world t = w -> 0 <= i ->
  arr !! Z.to_nat i = Some (Some c) -> tasks t !! Z.to_nat i = Some ot -> unfinished ot = 1 ->
  status c' = CO_RUNNING -> is_Some (ctx c') -> buf_ok c' ->
  blocks_of (Some c') = blocks_of (Some c) ->
  rep i sh' (MkSt (EAt (Env (count t) (slots t) i (<[Z.to_nat i := Some c']> arr) ss sa sh')) w a
    (base + zsum blocks_of arr)) t.
Proof.
  intros Harr Hinv Hw Hi Hc Hot Hu Hst Hctx Hbuf Hb.
  pose proof (lookup_lt_Some _ _ _ Hot) as Hlt.
  apply rep_intro; try done.
  - replace (tasks t) with (<[Z.to_nat i := ot]> (tasks t)) by (by apply list_insert_id).
    apply (array_rep_insert (-1)); [done| |].
    + rewrite Z2Nat.id, rel_slot_self by done. split; [done|]. by exists c'.
    + intros j oc' ot' Hij. apply (rel_slot_switch _ _ (Z.to_nat i)); [done|lia|lia].
  - unfold slots. lia.
  - rewrite (zsum_insert _ _ _ (Some c)) by done. lia.
Qed.

(** Resuming a coroutine that has not started *)
Lemma sim_resume_ready sh arr w a t i c p :
  array_rep (-1) arr (tasks t) -> spec_inv t -> spec_world t = w -> 0 <= i ->
  arr !! Z.to_nat i = Some (Some c) -> tasks t !! Z.to_nat i = Some (Some (TReady p)) ->
  task_rep i c (TReady p) ->
  agree (fun b s' b' t' => b = b' /\ exists sh', rep (-1) sh' s' t')
    ((mod_env (fun e => e_running e i) ;*
      mod_co i (fun c => c_status c CO_RUNNING) ;*
      let* x := s_some NullDeref (ctx c) in
      let x := make_ctx (set_stack x sa ss) Entry in
      mod_co i (fun c => c_ctx c (Some x)) ;*
      enter malloc_result i ;*
      s_ret true)
      (MkSt (EAt (Env (count t) (slots t) (-1) arr ss sa sh)) w a (base + zsum blocks_of arr)))
    (res_bind (spec_run room i p [] t) (fun r => OK (spec_finish i r))).
Proof.
  intros Harr Hinv Hw Hi Hc Hot (Hbuf & x & Hx & Hst & Hp).
  pose proof (lookup_lt_Some _ _ _ Hc) as Hlt. pose proof sp0_range.
  erewrite s_bind_OK by reflexivity. st_norm.
  erewrite s_bind_OK by (by apply mod_co_at). st_norm. rewrite Hx.
  erewrite s_bind_OK by reflexivity.
  erewrite s_bind_OK by (apply mod_co_at; [done|simpl; by rewrite list_lookup_insert_eq]).
  st_norm. rewrite list_insert_insert_eq. apply agree_true. unfold enter.
  erewrite s_bind_OK by (apply the_co_at; [done|simpl; by rewrite list_lookup_insert_eq]).
  cbn [ctx]. erewrite s_bind_OK by reflexivity. erewrite s_bind_OK by reflexivity.
  cbn [load_ctx c_rsp rsp make_ctx set_stack ss_sp ss_size]. fold sp0. unfold _co_main.
  erewrite s_bind_OK by apply get_env_at. cbn [running_id].
  erewrite s_bind_OK by (apply the_co_at; [done|simpl; by rewrite list_lookup_insert_eq]).
  cbn [func]. rewrite Hp. rewrite <- (Z.sub_0_r sp0). change 0 with (Z.of_nat (length (@nil Z))).
  apply (sim_enter i p [] sh); [|done|unfold room; simpl; lia|apply read_range_nil; simpl; lia].
  eapply rep_run; try done. cbn. by rewrite Hx.
Qed.

(** Resuming a suspended coroutine *)
Lemma sim_resume_susp sh arr w a t i c k l :
  array_rep (-1) arr (tasks t) -> spec_inv t -> spec_world t = w -> 0 <= i ->
  arr !! Z.to_nat i = Some (Some c) -> tasks t !! Z.to_nat i = Some (Some (TSusp k l)) ->
  task_rep i c (TSusp k l) ->
  agree (fun b s' b' t' => b = b' /\ exists sh', rep (-1) sh' s' t')
    ((mod_env (fun e => e_running e i) ;*
      mod_co i (fun c => c_status c CO_RUNNING) ;*
      restore_stack c ;*
      enter malloc_result i ;*
      s_ret true)
      (MkSt (EAt (Env (count t) (slots t) (-1) arr ss sa sh)) w a (base + zsum blocks_of arr)))
    (res_bind (spec_run room i (k l) l t) (fun r => OK (spec_finish i r))).
Proof.
  intros Harr Hinv Hw Hi Hc Hot
    (Hbuf & x & Hx & Hst & Hret & Hrsp & Hroom & Hsize & saved & Hsaved & Hlen & Htake).
  pose proof (lookup_lt_Some _ _ _ Hc) as Hlt. pose proof sp0_range. unfold room in Hroom.
  erewrite s_bind_OK by reflexivity. st_norm.
  erewrite s_bind_OK by (by apply mod_co_at). st_norm.
  set (sp := sp0 - Z.of_nat (length l)) in *.
  set (sh' := write_at sh sp (take (Z.to_nat (size c)) saved)).
  assert (read_range sh' sp sp0 = l) as Hframes.
  { unfold sh'. rewrite read_write_prefix.
    - rewrite take_take. transitivity (take (length l) saved); [|exact Htake]. f_equal. lia.
    - rewrite length_take. unfold sp in *. lia. }
  rewrite s_bind_OK with (a := tt) (s' := MkSt (EAt (Env (count t) (slots t) i
    (<[Z.to_nat i:=Some (c_status c CO_RUNNING)]> arr) ss sa sh')) w a (base + zsum blocks_of arr)).
  2: { unfold restore_stack. erewrite s_bind_OK by apply get_env_at. rewrite Hsaved.
       erewrite s_bind_OK by reflexivity. cbn [stack_addr stack_size].
       replace (sa + ss - size c) with sp by lia. unfold in_stack. cbn [stack_addr stack_size].
       rewrite (proj2 (Z.leb_le _ _)), (proj2 (Z.leb_le _ _)) by (unfold sp in *; lia).
       cbn [negb andb]. rewrite (proj2 (Z.ltb_ge _ _)) by lia.
       unfold c_status. rewrite Hsaved. done. }
  apply agree_true. unfold enter.
  erewrite s_bind_OK by (apply the_co_at; [done|simpl; by rewrite list_lookup_insert_eq]).
  st_norm. rewrite Hx. erewrite s_bind_OK by reflexivity. rewrite Hret.
  erewrite s_bind_OK by reflexivity. cbn [load_ctx c_rsp]. rewrite Hrsp.
  rewrite s_bind_OK with (a := l) (s' := MkSt (EAt (Env (count t) (slots t) i
    (<[Z.to_nat i:=Some (c_status c CO_RUNNING)]> arr) ss sa sh')) w a (base + zsum blocks_of arr)).
  2: { unfold frames. erewrite s_bind_OK by apply get_env_at. unfold entry_sp.
       cbn [stack_addr stack_size]. fold sp0. unfold sp. rewrite in_stack_frames.
       rewrite (proj2 (Z.leb_le _ _)) by (unfold room; lia). cbn [shared]. fold sp.
       rewrite Hframes. unfold c_status. by rewrite Hx. }
  apply (sim_enter i (k l) l sh'); [|done|unfold room; lia|done].
  eapply rep_run; try done; by rewrite ?Hx.
Qed.

(** Reclaiming a finished coroutine *)
Lemma co_delete_at (c : coroutine W) e w a b :
  _co_delete c (MkSt e w a b) = OK (tt, MkSt e w a (b - blocks_of (Some c))).
Proof.
  unfold _co_delete, s_when, free. destruct (ctx c) eqn:Hx, (stack c) eqn:Hs;
    rewrite ?(bool_decide_true _ (mk_is_Some _ _ eq_refl));
    rewrite ?(bool_decide_false (is_Some None)) by (intros [? ?]; done);
    cbn; rewrite Hx, Hs; do 3 f_equal; lia.
Qed.

Lemma sim_resume sh s t i : rep (-1) sh s t ->
  agree (fun b s' b' t' => b = b' /\ exists sh', rep (-1) sh' s' t')
    (co_resume malloc_result i s) (spec_resume room i t).
Proof.
  intros Hrep. pose proof sp0_range as Hsp0.
  inversion Hrep as [arr w a t' Harr Hinv Hw Hr]; subst. unfold co_resume, spec_resume.
  erewrite s_bind_OK by apply get_env_at. cbn [running_id cap].
  erewrite s_bind_OK by (by apply s_assert_true).
  destruct ((0 <=? i) && (i <? slots t)) eqn:Hi; [|done]. cbn [negb].
  erewrite s_bind_OK by (by apply s_assert_true). bool_to_prop.
  assert (Z.to_nat i < length arr)%nat as [oc Hoc]%lookup_lt_is_Some_2.
  { rewrite (proj1 Harr). unfold slots in *. lia. }
  destruct (array_rep_lookup _ _ _ _ _ Harr Hoc) as (ot & Hot & Hrel).
  rewrite Z2Nat.id, rel_slot_other in Hrel by lia.
  erewrite s_bind_OK by (by apply get_co_at). rewrite Hot.
  destruct oc as [c|], ot as [x|]; try done; [|split; [done|by exists sh]].
  cbn [slot_rep] in Hrel. destruct x as [p|k l|].
  - pose proof (sim_resume_ready sh arr _ a t i c p Harr Hinv eq_refl) as Hsim.
    pose proof Hrel as (_ & y & _ & Hst & _). rewrite Hst. cbn [stack_addr stack_size].
    apply Hsim; done.
  - pose proof (sim_resume_susp sh arr _ a t i c k l Harr Hinv eq_refl) as Hsim.
    pose proof Hrel as (_ & y & _ & Hst & _). rewrite Hst. apply Hsim; done.
  - destruct Hrel as (Hbuf & y & Hy & Hst). rewrite Hst.
    erewrite s_bind_OK by apply co_delete_at.
    erewrite s_bind_OK by (apply set_co_at; apply lookup_lt_Some in Hoc; simpl; lia).
    split; [done|]. exists sh. st_norm. unfold set_task.
    pose proof (set_task_inv t i (Some TDone) None Hinv) as Hinv'.
    cbn [unfinished] in Hinv'. rewrite Z.sub_0_r, Z.add_0_r in Hinv'.
    apply rep_intro; cbn [tasks count spec_world]; auto.
    + apply (array_rep_insert (-1)); [done| |done].
      rewrite Z2Nat.id, rel_slot_other by lia. done.
    + unfold slots in *. cbn [tasks]. by rewrite length_insert.
    + unfold slots in *. cbn [tasks]. by rewrite length_insert.
    + rewrite (zsum_insert _ _ _ (Some c)) by done. simpl. lia.
Qed.

(** ** Waiting *)

Lemma sim_join fuel i sh s t : rep (-1) sh s t ->
  agree (fun _ s' _ t' => exists sh', rep (-1) sh' s' t')
    (co_join malloc_result fuel i s) (spec_join room fuel i t).
Proof.
  revert sh s t. induction fuel as [|fuel IH]; intros sh s t Hrep; [done|]. cbn [co_join spec_join].
  pose proof (sim_resume sh s t i Hrep) as Hsim. unfold s_bind.
  destruct (co_resume _ _ _) as [[b s']|], (spec_resume _ _ _) as [[b' t']|]; simpl in Hsim; try done.
  destruct Hsim as [<- [sh' Hrep']]. cbn [res_bind]. destruct b; [by eapply IH|by exists sh'].
Qed.

Lemma sim_round fuel i flag sh s t : rep (-1) sh s t ->
  agree (fun b s' b' t' => b = b' /\ exists sh', rep (-1) sh' s' t')
    (wait_round malloc_result fuel i flag s) (spec_round room fuel i flag t).
Proof.
  revert i flag sh s t. induction fuel as [|fuel IH]; intros i flag sh s t Hrep.
  - destruct Hrep as [arr w a t Harr Hinv Hw Hr]. cbn [wait_round spec_round].
    erewrite s_bind_OK by apply get_env_at. cbn [cap]. case_if; [done|].
    split; [done|]. exists sh. by apply rep_intro.
  - assert (exists e, get_env s = OK (e, s) /\ cap e = slots t) as (e & He & Hcap)
      by (destruct Hrep; eexists; done).
    cbn [wait_round spec_round]. rewrite (s_bind_OK _ _ _ _ _ He), Hcap.
    case_if; [|split; [done|by exists sh]].
    pose proof (sim_resume sh s t i Hrep) as Hsim. unfold s_bind.
    destruct (co_resume _ _ _) as [[b s']|], (spec_resume _ _ _) as [[b' t']|]; simpl in Hsim; try done.
    destruct Hsim as [<- [sh' Hrep']]. cbn [res_bind]. by eapply IH.
Qed.

Lemma sim_wait rounds n sh s t : rep (-1) sh s t ->
  agree (fun _ s' _ t' => exists sh', rep (-1) sh' s' t')
    (co_wait malloc_result rounds n s) (spec_wait room rounds n t).
Proof.
  revert sh s t. induction rounds as [|rounds IH]; intros sh s t Hrep; [done|].
  cbn [co_wait spec_wait]. pose proof (sim_round n 0 false sh s t Hrep) as Hsim. unfold s_bind.
  destruct (wait_round _ _ _ _ _) as [[b s']|], (spec_round _ _ _ _ _) as [[b' t']|];
    simpl in Hsim; try done.
  destruct Hsim as [<- [sh' Hrep']]. cbn [res_bind]. destruct b; [by eapply IH|by exists sh'].
Qed.

(** ** Closing *)

Lemma close_all_at (n : nat) i w a e b : Z.of_nat (length (co e)) = i + Z.of_nat n -> 0 <= i ->
  exists e', close_all n i (MkSt (EAt e) w a b) =
    OK (tt, MkSt (EAt e') w a (b - zsum blocks_of (drop (Z.to_nat i) (co e)))) :> res (_ * St W).
Proof.
  revert i e b. induction n as [|n IH]; intros i e b Hlen Hi; cbn [close_all].
  - rewrite drop_ge by lia. simpl. rewrite Z.sub_0_r. by eexists.
  - assert (Z.to_nat i < length (co e))%nat as [oc Hoc]%lookup_lt_is_Some_2 by lia.
    erewrite s_bind_OK by (by apply get_co_at). rewrite (drop_S _ _ _ Hoc).
    replace (S (Z.to_nat i)) with (Z.to_nat (i + 1)) by lia. destruct oc as [c|].
    + erewrite s_bind_OK; [|erewrite s_bind_OK by apply co_delete_at; apply set_co_at; lia].
      destruct (IH (i + 1) (e_array e (cap e) (<[Z.to_nat i := None]> (co e)))
        (b - blocks_of (Some c))) as [e' He']; [simpl; rewrite length_insert; lia|lia|].
      exists e'. rewrite He'. cbn [co e_array]. rewrite drop_insert_lt by lia.
      do 3 f_equal. cbn [zsum]. lia.
    + erewrite s_bind_OK by reflexivity. apply IH; lia.
Qed.

Lemma co_close_at sh s t : rep (-1) sh s t -> exists s',
  co_close s = OK (tt, s') /\ env s' = ENull /\ nlive s' = base - 3 /\ world s' = spec_world t.
Proof.
  intros [arr w a t' Harr Hinv Hw Hr]. unfold co_close. cbn [env cap].
  edestruct (close_all_at (Z.to_nat (slots t')) 0) as [e' He'];
    [|done|rewrite (s_bind_OK _ _ _ _ _ He')].
  { simpl. rewrite (proj1 Harr). unfold slots. lia. }
  eexists. split; [reflexivity|]. simpl. split; [done|]. split; [|done].
  rewrite drop_0. lia.
Qed.

End sim.
