(* ===== verification/CoApi.v ===== *)
(** * The client's view of the coroutine library

    Sessions of a client that opens the library, makes any calls of it and
    closes it again; the invariant of the states in between; termination of
    [co_wait]; and what happens when an allocation fails or a slot is reused. *)

From S2P Require Import Prelude Words Monad Bytes Ctx Coroutine CoSpec CoSim.

Local Open Scope Z_scope.
Local Open Scope st_scope.

(** ** Capacities and sizes *)

Lemma align_loop_spec (fuel : nat) (j cap : Z) : 0 <= j -> 0 <= cap < 2 ^ (j + Z.of_nat fuel) ->
  exists k, align_loop fuel (2 ^ j) cap = OK (2 ^ k) /\ j <= k <= j + Z.of_nat fuel /\
    cap < 2 ^ k /\ (k = j \/ 2 ^ (k - 1) <= cap).
Proof.
  revert j. induction fuel as [|fuel IH]; intros j Hj Hcap; cbn [align_loop].
  - replace (j + Z.of_nat 0) with j in Hcap by lia. case_if; [lia|].
    exists j. split; [done|]. lia.
  - case_if; [|exists j; split; [done|lia]].
    replace (2 * 2 ^ j) with (2 ^ (j + 1)) by (rewrite Z.pow_add_r; lia).
    destruct (IH (j + 1)) as (k & Hk & Hr & Hlt & Hle);
      [lia|replace (j + 1 + Z.of_nat fuel) with (j + Z.of_nat (S fuel)) by lia; lia|].
    exists k. split; [done|]. split; [lia|]. split; [done|]. right.
    destruct Hle as [->|]; [|done]. by replace (j + 1 - 1) with j by lia.
Qed.

Lemma _align_eq (cap : Z) : 1 <= cap < 2 ^ 16 ->
  exists k, _align cap = OK (2 ^ k - 1) /\ 1 <= k <= 17 /\ 2 ^ (k - 1) <= cap <= 2 ^ k - 1.
Proof.
  intros Hcap. unfold _align.
  destruct (align_loop_spec 17 0 cap) as (k & Hk & Hr & Hlt & Hle);
    [lia|split; [lia|]; apply Z.lt_trans with (2 ^ 16); [lia|reflexivity]|].
  change (2 ^ 0) with 1 in Hk. rewrite Hk.
  assert (k <> 0) by (intros ->; simpl in Hlt; lia).
  rewrite IsValidCap_pow by lia. exists k. split; [done|]. lia.
Qed.

(** [_align] turns a requested capacity into the least number of the form
    [2^k - 1] that is at least as large; its loop ends and its [assert] holds
    for every 16-bit capacity but zero. *)
Theorem _align_least (cap : Z) : 1 <= cap < 2 ^ 16 ->
  exists n, _align cap = OK n /\ cap <= n /\ (exists k, 1 <= k /\ n = 2 ^ k - 1) /\
    forall k, 1 <= k -> cap <= 2 ^ k - 1 -> n <= 2 ^ k - 1.
Proof.
  intros Hcap. destruct (_align_eq cap Hcap) as (k & Hk & Hr & Hlo & Hhi).
  exists (2 ^ k - 1). split; [done|]. split; [lia|]. split; [exists k; lia|].
  intros k' Hk' Hcap'. enough (2 ^ k <= 2 ^ k') by lia.
  apply Z.pow_le_mono_r; [lia|]. apply Z.lt_succ_r.
  replace k with (Z.succ (k - 1)) at 1 by lia. apply -> Z.succ_lt_mono.
  apply (Z.pow_lt_mono_r_iff 2); lia.
Qed.

Lemma _align_least_witness : exists n, _align 10 = OK n /\ 10 <= n /\
  (exists k, 1 <= k /\ n = 2 ^ k - 1) /\ forall k, 1 <= k -> 10 <= 2 ^ k - 1 -> n <= 2 ^ k - 1.
Proof. apply (_align_least 10). lia. Defined.

Lemma ALIGN_eq (x : Z) : 0 <= x < 2 ^ 64 -> ALIGN x 8 = 8 * (u64 (x + 7) / 8).
Proof.
  intros Hx. unfold ALIGN. replace (x + 8 - 1) with (x + 7) by lia.
  assert (w_not 64 (8 - 1) = Z.shiftl (Z.ones (64 - 3)) 3) as -> by reflexivity.
  change 8 with (2 ^ 3). apply land_align; [lia|]. apply Z.mod_pos_bound. lia.
Qed.

(** [ALIGN(x, 8)] is the least multiple of 8 that is at least [x], except
    for the last seven values of the type, for which it is zero. *)
Theorem ALIGN_least (x : Z) : word 64 x ->
  ALIGN x 8 mod 8 = 0 /\
  if x <=? 2 ^ 64 - 8 then x <= ALIGN x 8 < x + 8 else ALIGN x 8 = 0.
Proof.
  intros Hx. unfold word in Hx. rewrite ALIGN_eq by done. split; [rewrite Z.mul_comm, Z.mod_mul; lia|].
  case_if.
  - rewrite wrap_small by (unfold word; lia).
    pose proof (Z.div_mod (x + 7) 8). pose proof (Z.mod_pos_bound (x + 7) 8). lia.
  - unfold wrap. rewrite mod_sub_once by lia. rewrite Z.div_small by lia. done.
Qed.

Lemma ALIGN_least_witness : ALIGN 1001 8 mod 8 = 0 /\
  if 1001 <=? 2 ^ 64 - 8 then 1001 <= ALIGN 1001 8 < 1001 + 8 else ALIGN 1001 8 = 0.
Proof. apply (ALIGN_least 1001). unfold word. lia. Defined.

(** ** Opening *)

(** The parameters [co_open] computes from its arguments *)
Definition opened_size (share : Z) : Z := ALIGN (if share =? 0 then STACK_SIZE else share) 8.
Definition opened_cap (cap : Z) : Z :=
  if cap =? 0 then DEFAULT_COROUTINE else match _align cap with OK n => n | Er _ => 0 end.

Definition spec0 {W} (cap : Z) (w : W) : spec W := Spec (replicate (Z.to_nat cap) None) 0 w.

Lemma opened_cap_eq (cap : Z) : 0 <= cap < 2 ^ 16 -> exists k, 1 <= k <= 17 /\ opened_cap cap = 2 ^ k - 1.
Proof.
  intros Hcap. unfold opened_cap. case_if; [exists 4; done|].
  destruct (_align_eq cap) as (k & -> & Hk & _); [lia|]. eauto.
Qed.

Lemma spec0_inv {W} cap (w : W) : 0 <= cap < 2 ^ 16 -> spec_inv (spec0 (opened_cap cap) w).
Proof.
  intros Hcap. destruct (opened_cap_eq cap Hcap) as (k & Hk & ->).
  assert (2 ^ 1 <= 2 ^ k) by (apply Z.pow_le_mono_r; lia).
  unfold spec_inv, spec0, slots. cbn [tasks count]. rewrite length_replicate.
  split; [exists k; lia|]. by rewrite zsum_replicate.
Qed.

Section api.
Context {W : Type}.
Variable malloc_result : nat -> option Z.
Hypothesis malloc_ok : forall n, is_Some (malloc_result n).

Lemma co_open_at (s : St W) (cap share a : Z) :
  0 <= cap < 2 ^ 16 -> 24 <= opened_size share -> malloc_result (nalloc s) = Some a -> 0 <= a ->
  a + sizeof_env + opened_size share < 2 ^ 64 ->
  exists s', co_open malloc_result cap share s = OK (true, s') /\
    rep (a + sizeof_env) (opened_size share) (nlive s + 3) (-1) ∅ s'
      (spec0 (opened_cap cap) (world s)).
Proof.
  intros Hcap Hsize Ha Ha0 Htop. unfold co_open. fold (opened_size share).
  destruct (malloc_ok (S (nalloc s))) as [q Hq]. destruct (malloc_ok (S (S (nalloc s)))) as [r Hr].
  erewrite s_bind_OK by (unfold alloc; rewrite Ha; reflexivity).
  rewrite (proj2 (Z.leb_gt _ _)) by (unfold sizeof_env in *; lia).
  rewrite s_bind_OK with (a := opened_cap cap)
    (s' := MkSt (env s) (world s) (S (nalloc s)) (nlive s + 1)).
  2: { unfold opened_cap. case_if; [done|]. destruct (_align_eq cap) as (k & -> & _); [lia|]. done. }
  erewrite s_bind_OK by (unfold alloc; cbn [nalloc]; rewrite Hq; reflexivity).
  unfold new_ctx. erewrite s_bind_OK.
  2: { erewrite s_bind_OK by (unfold alloc; cbn [nalloc env world nlive]; rewrite Hr; reflexivity).
       reflexivity. }
  cbn [option_map]. erewrite s_bind_OK by reflexivity. eexists. split; [reflexivity|].
  st_norm. pose proof (opened_cap_eq cap Hcap) as (k & Hk & Hkeq).
  assert (2 ^ 1 <= 2 ^ k) by (apply Z.pow_le_mono_r; lia).
  apply rep_intro; cbn [spec0 tasks count spec_world]; try done.
  - split; [by rewrite !length_replicate|]. intros i oc ot [-> Hi]%lookup_replicate [-> _]%lookup_replicate.
    rewrite rel_slot_other; [done|lia].
  - by apply spec0_inv.
  - unfold slots. simpl. rewrite length_replicate. lia.
  - unfold slots. simpl. rewrite length_replicate. lia.
  - rewrite zsum_replicate by done. lia.
Qed.

(** ** Calls and sessions *)

Inductive call : Type :=
  | CallNew (p : prog W)
  | CallResume (i : Z)
  | CallJoin (fuel : nat) (i : Z)
  | CallWait (rounds n : nat).

Inductive answer : Type := AId (i : Z) | ABool (b : bool) | AUnit.

Definition do_call (c : call) : ST (St W) answer :=
  match c with
  | CallNew p => let* i := co_new malloc_result p in s_ret (AId i)
  | CallResume i => let* b := co_resume malloc_result i in s_ret (ABool b)
  | CallJoin fuel i => let* _ := co_join malloc_result fuel i in s_ret AUnit
  | CallWait rounds n => let* _ := co_wait malloc_result rounds n in s_ret AUnit
  end.

Definition spec_call (room : Z) (c : call) (t : spec W) : res (answer * spec W) :=
  match c with
  | CallNew p => res_bind (spec_new p t) (fun '(i, t) => OK (AId i, t))
  | CallResume i => res_bind (spec_resume room i t) (fun '(b, t) => OK (ABool b, t))
  | CallJoin fuel i => res_bind (spec_join room fuel i t) (fun '(_, t) => OK (AUnit, t))
  | CallWait rounds n => res_bind (spec_wait room rounds n t) (fun '(_, t) => OK (AUnit, t))
  end.

Fixpoint do_calls (l : list call) : ST (St W) (list answer) :=
  match l with
  | [] => s_ret []
  | c :: l => let* a := do_call c in let* l := do_calls l in s_ret (a :: l)
  end.

Fixpoint spec_calls (room : Z) (l : list call) (t : spec W) : res (list answer * spec W) :=
  match l with
  | [] => OK ([], t)
  | c :: l => res_bind (spec_call room c t) (fun '(a, t) =>
              res_bind (spec_calls room l t) (fun '(l, t) => OK (a :: l, t)))
  end.

(** Open, make the calls, close. *)
Definition session (cap share : Z) (l : list call) : ST (St W) (list answer) :=
  let* b := co_open malloc_result cap share in
  if negb b then s_fail NullDeref else
  let* r := do_calls l in
  co_close ;*
  s_ret r.

Section calls.
Variables (sa ss base : Z).
Hypothesis sa_pos : 0 <= sa.
Hypothesis ss_pos : 24 <= ss.
Hypothesis top_ok : sa + ss < 2 ^ 64.
Notation rep := (rep sa ss base).
Notation room := (room sa ss).

Lemma sim_call c sh s t : rep (-1) sh s t ->
  agree (fun a s' b t' => a = b /\ exists sh', rep (-1) sh' s' t') (do_call c s) (spec_call room c t).
Proof.
  intros Hrep. destruct c as [p|i|fuel i|rounds n]; cbn [do_call spec_call]; unfold s_bind.
  - pose proof (sim_new malloc_result malloc_ok sa ss base (-1) sh s t p Hrep) as Hsim.
    destruct (co_new _ _ _) as [[b s']|], (spec_new _ _) as [[b' t']|]; simpl in *; try done.
    destruct Hsim as [-> Hrep']. eauto.
  - pose proof (sim_resume malloc_result malloc_ok sa ss sa_pos ss_pos top_ok base sh s t i Hrep) as Hsim.
    destruct (co_resume _ _ _) as [[b s']|], (spec_resume _ _ _) as [[b' t']|]; simpl in *; try done.
    destruct Hsim as [-> Hrep']. eauto.
  - pose proof (sim_join malloc_result malloc_ok sa ss sa_pos ss_pos top_ok base fuel i sh s t Hrep) as Hsim.
    destruct (co_join _ _ _ _) as [[b s']|], (spec_join _ _ _ _) as [[b' t']|]; simpl in *; try done.
  - pose proof (sim_wait malloc_result malloc_ok sa ss sa_pos ss_pos top_ok base rounds n sh s t Hrep) as Hsim.
    destruct (co_wait _ _ _ _) as [[b s']|], (spec_wait _ _ _ _) as [[b' t']|]; simpl in *; try done.
Qed.

Lemma sim_calls l sh s t : rep (-1) sh s t ->
  agree (fun a s' b t' => a = b /\ exists sh', rep (-1) sh' s' t') (do_calls l s) (spec_calls room l t).
Proof.
  revert sh s t. induction l as [|c l IH]; intros sh s t Hrep; cbn [do_calls spec_calls]; [simpl; eauto|].
  unfold s_bind. pose proof (sim_call c sh s t Hrep) as Hsim.
  destruct (do_call c s) as [[a s']|], (spec_call room c t) as [[a' t']|]; simpl in *; try done.
  destruct Hsim as [<- [sh' Hrep']]. specialize (IH sh' s' t' Hrep').
  destruct (do_calls l s') as [[a' s'']|], (spec_calls room l t') as [[a'' t'']|]; simpl in *; try done.
  destruct IH as [<- ?]. eauto.
Qed.
End calls.

Lemma sim_session (s : St W) (cap share a : Z) (l : list call) :
  0 <= cap < 2 ^ 16 -> 24 <= opened_size share -> malloc_result (nalloc s) = Some a -> 0 <= a ->
  a + sizeof_env + opened_size share < 2 ^ 64 ->
  match spec_calls (room (a + sizeof_env) (opened_size share)) l (spec0 (opened_cap cap) (world s)) with
  | OK (r, t) => exists s', session cap share l s = OK (r, s') /\
      world s' = spec_world t /\ nlive s' = nlive s /\ env s' = ENull
  | Er e => session cap share l s = Er e
  end.
Proof.
  intros Hcap Hsize Ha Ha0 Htop. unfold sizeof_env in *.
  destruct (co_open_at s cap share a) as (s1 & Hopen & Hrep); [done..|].
  unfold session. rewrite (s_bind_OK _ _ _ _ _ Hopen). cbn [negb].
  pose proof (sim_calls (a + 40) (opened_size share) (nlive s + 3)
    ltac:(lia) Hsize ltac:(lia) l ∅ s1 _ Hrep) as Hsim.
  destruct (spec_calls _ _ _) as [[r t]|e], (do_calls l s1) as [[r' s2]|e'] eqn:Hdo;
    simpl in Hsim; try done.
  - destruct Hsim as [<- [sh' Hrep']]. rewrite (s_bind_OK _ _ _ _ _ Hdo).
    apply co_close_at in Hrep' as (s3 & Hclose & Henv & Hlive & Hworld).
    rewrite (s_bind_OK _ _ _ _ _ Hclose). exists s3. split; [done|].
    split; [done|]. split; [lia|done].
  - rewrite (s_bind_Er _ _ _ _ Hdo). by subst.
Qed.

End api.

(** C12: the shared stack is invisible, while allocations succeed and for a stack
    of at least 24 bytes.  Whatever a client does between
    [co_open] and [co_close], with whatever bodies, its calls return what they
    return in the specification in which every coroutine has a stack of its
    own, the bodies have the same effects, and when the specification runs into
    an error the library runs into the same one; a session that ends has freed
    every block it allocated. *)
Theorem shared_stack_refines {W} (malloc_result : nat -> option Z) (s : St W) (cap share a : Z)
    (l : list call) :
  (forall n, is_Some (malloc_result n)) ->
  0 <= cap < 2 ^ 16 -> 24 <= opened_size share -> malloc_result (nalloc s) = Some a -> 0 <= a ->
  a + sizeof_env + opened_size share < 2 ^ 64 ->
  match spec_calls (room (a + sizeof_env) (opened_size share)) l (spec0 (opened_cap cap) (world s)) with
  | OK (r, t) => exists s', session malloc_result cap share l s = OK (r, s') /\
      world s' = spec_world t /\ nlive s' = nlive s /\ env s' = ENull
  | Er e => session malloc_result cap share l s = Er e
  end.
Proof. intros Hok. by apply sim_session. Qed.

(** An allocator that places its blocks in order *)
Definition good_malloc (n : nat) : option Z := Some (2 ^ 20 + 2 ^ 24 * Z.of_nat n).

(** A body that counts in its own frame across a swap, and adds the count to
    the world at the end *)
Definition counting (n : Z) : prog Z :=
  PAct (fun _ w => ([n], w)) (fun _ _ =>
  PSwap (fun l => PAct (fun l w => (map Z.succ l, w)) (fun _ _ =>
  PAct (fun l w => (l, w + nth 0 l 0)) (fun _ _ => PRet)))).

Lemma shared_stack_refines_witness :
  exists s', session good_malloc 2 64 [CallNew (counting 10); CallNew (counting 20); CallWait 5 5]
    (MkSt ENull 0 0 7) = OK ([AId 0; AId 1; AUnit], s') /\
    world s' = 32 /\ nlive s' = 7 /\ env s' = ENull.
Proof.
  assert (forall n, is_Some (good_malloc n)) as Hok by (intros; eexists; reflexivity).
  pose proof (shared_stack_refines good_malloc (MkSt ENull 0 0 7) 2 64 (2 ^ 20)
    [CallNew (counting 10); CallNew (counting 20); CallWait 5 5] Hok
    ltac:(lia) ltac:(vm_compute; discriminate) eq_refl ltac:(lia) ltac:(vm_compute; reflexivity)) as H.
  vm_compute in H. exact H.
Defined.

(** ** The states between [co_open] and [co_close] *)

Section reachable.
Context {W : Type}.
Variable malloc_result : nat -> option Z.
Variables (s0 : St W) (cap0 share : Z).

(** The states a client can reach: the library has been opened in [s0], and
    any number of calls has returned. *)
Inductive reachable : St W -> Prop :=
  | reach_open s : co_open malloc_result cap0 share s0 = OK (true, s) -> reachable s
  | reach_call c a s s' : reachable s -> do_call malloc_result c s = OK (a, s') -> reachable s'.

(** What has to be known of the arguments and of the allocator *)
Record opens (a : Z) : Prop := {
  opens_malloc : forall n, is_Some (malloc_result n);
  opens_cap : 0 <= cap0 < 2 ^ 16;
  opens_size : 24 <= opened_size share;
  opens_addr : malloc_result (nalloc s0) = Some a;
  opens_pos : 0 <= a;
  opens_top : a + sizeof_env + opened_size share < 2 ^ 64
}.

Lemma reachable_rep a s : opens a -> reachable s ->
  exists sh t, rep (a + sizeof_env) (opened_size share) (nlive s0 + 3) (-1) sh s t.
Proof.
  intros [Hok Hcap Hsize Ha Ha0 Htop]. unfold sizeof_env in *.
  induction 1 as [s Hopen|c r s s' Hs (sh & t & Hrep) Hcall].
  - destruct (co_open_at malloc_result Hok s0 cap0 share a) as (s1 & Hopen1 & Hrep); [done..|].
    rewrite Hopen in Hopen1. injection Hopen1 as <-. eauto.
  - pose proof (sim_call malloc_result Hok (a + 40) (opened_size share) (nlive s0 + 3)
      ltac:(lia) Hsize ltac:(lia) c sh s t Hrep) as Hsim.
    rewrite Hcall in Hsim. destruct (spec_call _ _ _) as [[r' t']|]; simpl in Hsim; [|done].
    destruct Hsim as (_ & sh' & Hrep'). eauto.
Qed.

(** The coroutines that have not finished *)
Definition active (o : option (coroutine W)) : Z :=
  match o with
  | Some c => if bool_decide (status c = CO_STOPED) then 0 else 1
  | None => 0
  end.

(** A coroutine between two calls: ready, finished, or suspended with a private
    copy that holds everything from its stack pointer to the top of the stack *)
Definition parked (e : co_env W) (c : coroutine W) : Prop :=
  status c = CO_READY \/ status c = CO_STOPED \/
  (status c = CO_SUSPEND /\ exists x saved, ctx c = Some x /\ stack c = Some saved /\
     stack_addr e < rsp x <= entry_sp e /\ size c = stack_addr e + stack_size e - rsp x /\
     size c <= Z.of_nat (length saved)).

Record wf_env (e : co_env W) : Prop := {
  wf_cap : exists k, 1 <= k <= 31 /\ cap e = 2 ^ k - 1;
  wf_array : Z.of_nat (length (co e)) = cap e;
  wf_idle : running_id e = -1;
  wf_count : nco e = zsum active (co e);
  wf_parked : forall i c, co e !! i = Some (Some c) -> parked e c
}.

Lemma slot_rep_active sa ss i oc ot : slot_rep sa ss i oc ot -> active oc = unfinished ot.
Proof.
  destruct oc as [c|], ot as [[p|k l|]|]; simpl; try done; intros (_ & x & _ & H).
  - destruct H as [-> _]. by rewrite bool_decide_false.
  - destruct H as [-> _]. by rewrite bool_decide_false.
  - rewrite H. by rewrite bool_decide_true.
Qed.

Lemma zsum_pointwise {A B} (f : A -> Z) (g : B -> Z) (l : list A) (l' : list B) :
  length l = length l' -> (forall i a b, l !! i = Some a -> l' !! i = Some b -> f a = g b) ->
  zsum f l = zsum g l'.
Proof.
  revert l'. induction l as [|a l IH]; intros [|b l'] Hlen H; simpl in *; try lia.
  rewrite (H 0%nat a b), (IH l'); [done|lia| |done|done].
  intros i. apply (H (S i)).
Qed.

Lemma rep_wf sa ss base sh s t : 0 <= sa -> 24 <= ss -> sa + ss < 2 ^ 64 ->
  rep sa ss base (-1) sh s t ->
  exists e, env s = EAt e /\ wf_env e /\ nlive s = base + zsum blocks_of (co e).
Proof.
  intros Hsa Hss Htop [arr w a t' Harr [Hs Hn] Hw Hr]. eexists. split; [done|]. split; [|done].
  assert (forall i oc ot, arr !! i = Some oc -> tasks t' !! i = Some ot ->
    slot_rep sa ss (Z.of_nat i) oc ot) as Hslot.
  { intros i oc ot Hoc Hot. pose proof (proj2 Harr i oc ot Hoc Hot) as Hrel.
    by rewrite rel_slot_other in Hrel by lia. }
  constructor; cbn [cap co running_id nco]; [done| |done| |].
  - unfold slots. by rewrite (proj1 Harr).
  - rewrite Hn. symmetry. apply zsum_pointwise; [apply Harr|].
    intros i oc ot Hoc Hot. eapply slot_rep_active. by eapply Hslot.
  - intros i c Hc. destruct (array_rep_lookup _ _ _ _ _ _ _ Harr Hc) as (ot & Hot & _).
    specialize (Hslot _ _ _ Hc Hot). destruct ot as [x|]; [|done].
    destruct Hslot as (_ & y & Hy & Hx). pose proof (sp0_range sa ss Hsa Hss Htop) as Hsp0.
    destruct x as [p|k l|]; [left; apply Hx| |right; left; exact Hx].
    right. right. destruct Hx as (Hst & Hret & Hrsp & Hroom & Hsize & saved & Hsaved & Hlen & _).
    split; [done|]. exists y, saved. unfold entry_sp, room in *. cbn [stack_addr stack_size].
    fold (sp0 sa ss). lia || (repeat split; try done; lia).
Qed.

End reachable.

(** C13: in every state a client can reach, while allocations succeed and with a
    stack of at least 24 bytes, the capacity is a power of two less
    one and the size of the array, no coroutine is marked as running, the
    counter is the number of coroutines that have not finished, every coroutine
    is ready, finished, or suspended with its whole stack saved, and the live
    heap blocks are those of the environment and of the coroutines in it. *)
Theorem reachable_invariant {W} (malloc_result : nat -> option Z) (s0 s : St W) (cap0 share a : Z) :
  opens malloc_result s0 cap0 share a -> reachable malloc_result s0 cap0 share s ->
  exists e, env s = EAt e /\ wf_env e /\ nlive s = nlive s0 + 3 + zsum blocks_of (co e).
Proof.
  intros Hopens Hs. destruct (reachable_rep _ _ _ _ a s Hopens Hs) as (sh & t & Hrep).
  destruct Hopens as [_ _ Hsize _ Ha Htop]. unfold sizeof_env in *.
  by apply (rep_wf _ _ _ _ _ _) in Hrep; [|lia..].
Qed.

Definition opens_example : opens good_malloc (MkSt ENull 0 0 7) 3 64 (2 ^ 20).
Proof.
  constructor; [intros; by eexists|lia|by vm_compute|done|lia|by vm_compute].
Qed.

Lemma reachable_invariant_witness : exists s, 
  (let* b := co_open good_malloc 3 64 in co_new good_malloc (counting 10)) (MkSt ENull 0 0 7) =
    OK (0, s) /\
  exists e, env s = EAt e /\ wf_env e /\ nlive s = 7 + 3 + zsum blocks_of (co e).
Proof.
  eexists. split; [vm_compute; reflexivity|].
  apply (reachable_invariant good_malloc (MkSt ENull 0 0 7) _ 3 64 (2 ^ 20) opens_example).
  eapply (reach_call _ _ _ _ (CallNew (counting 10)));
    [apply reach_open; vm_compute; reflexivity|vm_compute; reflexivity].
Defined.

(** ** Where [co_new] puts a coroutine *)

Definition occupied {W} (e : co_env W) (i : Z) : Prop :=
  exists c, co e !! Z.to_nat i = Some (Some c).

(** In a reachable state whose table is not full, [co_new] takes the first
    empty slot at or above the number [nco] of unfinished coroutines, marks the
    new coroutine as ready and counts it; the empty slots below [nco] are never
    considered.  When every slot from [nco] on is occupied, by coroutines that
    have finished or outlived others, it reads past the end of the array (or
    stops at its final [assert] if no coroutine is unfinished). *)
Theorem co_new_slot {W} (malloc_result : nat -> option Z) (s0 s : St W) (cap0 share a : Z)
    (e : co_env W) (p : prog W) :
  opens malloc_result s0 cap0 share a -> reachable malloc_result s0 cap0 share s ->
  env s = EAt e -> nco e < cap e ->
  match co_new malloc_result p s with
  | OK (i, s') =>
      nco e <= i < cap e /\ co e !! Z.to_nat i = Some None /\
      (forall j, nco e <= j < i -> occupied e j) /\
      exists e' c, env s' = EAt e' /\ nco e' = nco e + 1 /\ cap e' = cap e /\
        co e' = <[Z.to_nat i := Some c]> (co e) /\ func c = p /\ status c = CO_READY
  | Er err =>
      (forall j, nco e <= j < cap e -> occupied e j) /\
      err = if nco e =? 0 then AssertFail else OutOfBounds
  end.
Proof.
  intros Hopens Hs Henv Hfull. destruct (reachable_rep _ _ _ _ a s Hopens Hs) as (sh & t & Hrep).
  destruct Hopens as [Hok _ Hsize _ Ha Htop]. unfold sizeof_env in *.
  destruct Hrep as [arr w n t' Harr Hinv Hw Hr]. injection Henv as <-. cbn [nco cap co] in *.
  pose proof (count_range t' Hinv) as Hc. pose proof (proj1 Harr) as Hlen.
  assert (forall j, 0 <= j -> (exists x, tasks t' !! Z.to_nat j = Some (Some x)) ->
    exists c, arr !! Z.to_nat j = Some (Some c)) as Hocc.
  { intros j Hj [x Hx]. destruct (array_rep_lookup_r _ _ _ _ _ _ _ Harr Hx) as (oc & Hoc & Hrel).
    apply slot_empty in Hrel. destruct oc as [c|]; [eauto|]. exfalso. intuition congruence. }
  unfold co_new. destruct (_co_new_at malloc_result Hok p
    (EAt (Env (count t') (slots t') (-1) arr (opened_size share) (a + 40) sh)) w n
    (nlive s0 + 3 + zsum blocks_of arr)) as [n' Hnew].
  rewrite (s_bind_OK _ _ _ _ _ Hnew). erewrite s_bind_OK by apply get_env_at. cbn [nco cap].
  case_if; [lia|].
  erewrite find_slot_at; [|exact Harr|exact Hinv|unfold slots in *; lia|lia|lia].
  rewrite Z.add_0_r. destruct (first_free _ _) as [i|] eqn:Hf.
  - apply first_free_Some in Hf as (Hi & Hfree & Hbefore).
    rewrite length_drop in Hi. rewrite lookup_drop in Hfree.
    replace (Z.to_nat (count t') + Z.to_nat (i - count t'))%nat with (Z.to_nat i) in Hfree by lia.
    split; [unfold slots in *; lia|].
    destruct (array_rep_lookup_r _ _ _ _ _ _ _ Harr Hfree) as (oc & Hoc & Hrel).
    apply slot_empty in Hrel. split; [rewrite Hoc; f_equal; by apply Hrel|].
    split; [|by do 2 eexists].
    intros j Hj. apply Hocc; [lia|]. destruct (Hbefore j Hj) as [x Hx]. rewrite lookup_drop in Hx.
    exists x. rewrite <- Hx. f_equal. lia.
  - split; [|done]. intros j Hj. apply Hocc; [lia|].
    destruct (first_free_None _ _ (Z.to_nat (j - count t')) Hf) as [x Hx];
      [rewrite length_drop; unfold slots in *; lia|].
    rewrite lookup_drop in Hx. exists x. rewrite <- Hx. f_equal. lia.
Qed.

(** A body that only returns, and one that swaps out once *)
Definition quick : prog Z := PRet.
Definition swapping : prog Z := PSwap (fun _ => PRet).

(** Three coroutines in a table of three, of which the first finishes and is
    reclaimed: the next [co_new] leaves the array although slot 0 is empty. *)
Definition reuse : ST (St Z) Z :=
  let* _ := co_open good_malloc 3 64 in
  let* _ := co_new good_malloc quick in
  let* _ := co_new good_malloc swapping in
  let* _ := co_new good_malloc swapping in
  let* _ := co_join good_malloc 2 0 in
  co_new good_malloc quick.

Definition after {A} (c : ST (St Z) A) : St Z :=
  match c (MkSt ENull 0 0 7) with OK (_, s) => s | Er _ => MkSt ENull 0 0 7 end.

Lemma co_new_slot_witness :
  exists s e, reachable good_malloc (MkSt ENull 0 0 7) 3 64 s /\ env s = EAt e /\ nco e < cap e /\
  match co_new good_malloc quick s with
  | OK (i, s') =>
      nco e <= i < cap e /\ co e !! Z.to_nat i = Some None /\
      (forall j, nco e <= j < i -> occupied e j) /\
      exists e' c, env s' = EAt e' /\ nco e' = nco e + 1 /\ cap e' = cap e /\
        co e' = <[Z.to_nat i := Some c]> (co e) /\ func c = quick /\ status c = CO_READY
  | Er err =>
      (forall j, nco e <= j < cap e -> occupied e j) /\
      err = if nco e =? 0 then AssertFail else OutOfBounds
  end.
Proof.
  exists (after (co_open good_malloc 3 64)). eexists. 
  assert (reachable good_malloc (MkSt ENull 0 0 7) 3 64 (after (co_open good_malloc 3 64))) as Hs
    by (apply reach_open; vm_compute; reflexivity).
  split; [exact Hs|]. split; [vm_compute; reflexivity|]. split; [vm_compute; reflexivity|].
  apply (co_new_slot good_malloc (MkSt ENull 0 0 7) _ 3 64 (2 ^ 20) _ quick opens_example Hs);
    vm_compute; reflexivity.
Defined.

(** Reusing a slot: with a capacity of three, after the first of three
    coroutines has finished and its slot has been emptied, [co_new] reads
    [env->co[3]], one past the end of the array. *)
Theorem co_new_past_end : reuse (MkSt ENull 0 0 7) = Er OutOfBounds.
Proof. vm_compute. reflexivity. Qed.

(** ** Failing allocations *)

(** [co_new] does not check that the coroutine could be allocated: when
    [calloc] fails it stores a null pointer, counts it as a coroutine and
    returns the id as if it had succeeded (the header promises -1). *)
Theorem co_new_out_of_memory {W} (malloc_result : nat -> option Z) (p : prog W) (e : co_env W) w n b :
  malloc_result n = None -> 0 <= nco e < cap e -> Z.of_nat (length (co e)) = cap e ->
  (exists k, 1 <= k /\ cap e = 2 ^ k - 1) -> co e !! Z.to_nat (nco e) = Some None ->
  co_new malloc_result p (MkSt (EAt e) w n b) = OK (nco e, MkSt (EAt (e_nco e (nco e + 1))) w (S n) b).
Proof.
  intros Hnull Hn Hlen (k & Hk & Hcap) Hfree. unfold co_new, _co_new.
  erewrite s_bind_OK by (erewrite s_bind_OK by (unfold alloc; cbn [nalloc]; rewrite Hnull; reflexivity);
    reflexivity).
  erewrite s_bind_OK by reflexivity. case_if; [lia|].
  replace (Z.to_nat (cap e)) with (S (Z.to_nat (cap e - 1))) by lia. cbn [find_slot].
  erewrite s_bind_OK by reflexivity.
  replace (Z.land (0 + nco e) (cap e)) with (nco e) by (rewrite Hcap, land_mask_small; lia).
  erewrite s_bind_OK by (apply get_co_at; [lia|exact Hfree]).
  cbn iota. erewrite s_bind_OK by (apply set_co_at; lia).
  rewrite list_insert_id by done. rewrite e_array_id. reflexivity.
Qed.

Lemma co_new_out_of_memory_witness :
  let e := Env (W := Z) 0 1 (-1) [None] 64 1000 ∅ in
  co_new (fun _ => None) quick (MkSt (EAt e) 0 5 7) = OK (0, MkSt (EAt (e_nco e 1)) 0 6 7).
Proof.
  intros e. apply (co_new_out_of_memory (fun _ => None) quick e 0 5 7);
    [done|simpl; lia|done|exists 1; simpl; lia|done].
Defined.

(** When [co_open] fails after it has allocated the environment, it frees
    the environment but keeps the pointer to it: [co_close], which is meant to
    be harmless when nothing is open, then reads freed memory. *)
Theorem co_open_failure_dangles {W} (malloc_result : nat -> option Z) (s : St W) (cap share a : Z) :
  0 <= cap < 2 ^ 16 -> malloc_result (nalloc s) = Some a -> malloc_result (S (nalloc s)) = None ->
  sizeof_env + opened_size share < 2 ^ 64 ->
  exists s', co_open malloc_result cap share s = OK (false, s') /\ nlive s' = nlive s /\
    co_close s' = Er OutOfBounds.
Proof.
  intros Hcap Ha Hnull Hsize. unfold co_open. fold (opened_size share).
  erewrite s_bind_OK by (unfold alloc; rewrite Ha; reflexivity).
  rewrite (proj2 (Z.leb_gt _ _)) by lia.
  rewrite s_bind_OK with (a := opened_cap cap)
    (s' := MkSt (env s) (world s) (S (nalloc s)) (nlive s + 1)).
  2: { unfold opened_cap. case_if; [done|]. destruct (_align_eq cap) as (k & -> & _); [lia|]. done. }
  erewrite s_bind_OK by (unfold alloc; cbn [nalloc]; rewrite Hnull; reflexivity).
  eexists. split; [reflexivity|]. simpl. split; [lia|done].
Qed.

Lemma co_open_failure_dangles_witness :
  exists s', co_open (fun n => if bool_decide (n = 0%nat) then Some 4096 else None) 0 0
    (MkSt ENull 0 0 7) = OK (false, s') /\ nlive s' = 7 /\ co_close s' = Er OutOfBounds.
Proof.
  apply (co_open_failure_dangles _ (MkSt ENull 0 0 7) 0 0 4096); [lia|done|done|by vm_compute].
Defined.
