(* ===== verification/CoLive.v ===== *)
(** * Waiting for coroutines ends; the output of the example program

    [co_wait] loops until a pass over the table resumes nothing.  It ends when
    every body swaps out a bounded number of times; the bound on the number of
    passes is two more than the number of swaps.  For the bodies of
    [cmake/coroutine/main.c] the lines printed are computed on the
    specification and hold for every allocator. *)

From S2P Require Import Prelude Words Monad Bytes Ctx Coroutine CoSpec CoSim CoApi CoMain.

Local Open Scope Z_scope.
Local Open Scope res_scope.

Section live.
Context {W : Type}.
Variable room : Z.

(** A body that swaps out at most [n] times, creates no coroutines and whose
    frames always leave a byte of the stack *)
Fixpoint short (n : nat) (p : prog W) : Prop :=
  match p with
  | PRet => True
  | PAct f k => forall l w, Z.of_nat (length l) < room ->
      Z.of_nat (length (f l w).1) < room /\ short n (k (f l w).1 (f l w).2)
  | PSwap k =>
      match n with
      | O => False
      | S n => forall l, Z.of_nat (length l) < room -> short n (k l)
      end
  | PId k => forall i, short n (k i)
  | PNew _ _ => False
  end.

Lemma spec_run_short self n p l (t : spec W) : short n p -> Z.of_nat (length l) < room ->
  exists o w, spec_run room self p l t = OK (o, Spec (tasks t) (count t) w) /\
    match o with
    | None => True
    | Some (k, l') => Z.of_nat (length l') < room /\ exists m, n = S m /\ short m (k l')
    end.
Proof.
  revert l t. induction p as [|f k IH|k IH|k IH|child _ k IH]; intros l t Hp Hl; cbn [spec_run short] in *.
  - exists None, (spec_world t). destruct t. done.
  - destruct (Hp l (spec_world t) Hl) as [Hl' Hk]. destruct (f l (spec_world t)) as [l' w']. simpl in *.
    case_if; [lia|]. apply (IH l' w' l' (Spec (tasks t) (count t) w') Hk Hl').
  - case_if; [lia|]. exists (Some (k, l)), (spec_world t). split; [by destruct t|]. split; [done|].
    destruct n as [|m]; [done|]. eauto.
  - apply IH; [apply Hp|done].
  - done.
Qed.

(** The number of passes after which the slot is empty is at most [L]. *)
Definition level (L : nat) (o : option (task W)) : Prop :=
  match L, o with
  | _, None => True
  | S _, Some TDone => True
  | S (S n), Some (TReady p) => short n p
  | S (S n), Some (TSusp k l) => Z.of_nat (length l) < room /\ short n (k l)
  | _, _ => False
  end.

Hypothesis room_pos : 0 < room.

Lemma spec_resume_level (L : nat) (i : Z) (t : spec W) (o : option (task W)) :
  0 <= i < slots t -> tasks t !! Z.to_nat i = Some o -> level (S L) o ->
  exists b t' o', spec_resume room i t = OK (b, t') /\ tasks t' = <[Z.to_nat i := o']> (tasks t) /\
    level L o' /\ (b = false -> o' = None) /\ (L = 0%nat -> b = false).
Proof.
  intros Hi Ho HL. unfold spec_resume.
  rewrite (proj2 (Z.leb_le _ _)), (proj2 (Z.ltb_lt _ _)) by lia. cbn [andb negb]. rewrite Ho.
  assert (forall n p l, L = S n -> short n p -> Z.of_nat (length l) < room ->
    exists b t' o', res_bind (spec_run room i p l t) (fun r => OK (spec_finish i r)) = OK (b, t') /\
      tasks t' = <[Z.to_nat i := o']> (tasks t) /\ level L o' /\ (b = false -> o' = None) /\
      (L = 0%nat -> b = false)) as Hrun.
  { intros n p l -> Hp Hl.
    destruct (spec_run_short i n p l t Hp Hl) as ([[k l']|] & w & -> & Hr); cbn [res_bind].
    - destruct Hr as (Hl' & m & -> & Hk). do 3 eexists. split; [reflexivity|]. simpl. by split_and!.
    - do 3 eexists. split; [reflexivity|]. simpl. destruct n; by split_and!. }
  destruct o as [[p|k l|]|].
  - destruct L as [|n]; [done|]. by apply (Hrun n p []).
  - destruct L as [|n]; [done|]. destruct HL as [Hl Hk]. by apply (Hrun n (k l) l).
  - exists false, (set_task t i None), None. split_and!; try done. by destruct L as [|[]].
  - exists false, t, None. rewrite list_insert_id by done. split_and!; try done. by destruct L as [|[]].
Qed.

(** A pass takes every slot one level down; it resumes nothing only when all
    slots are empty afterwards. *)
Lemma spec_round_level (L : nat) (fuel : nat) (i : Z) (flag : bool) (t : spec W) :
  0 <= i -> slots t <= i + Z.of_nat fuel ->
  (forall j o, tasks t !! j = Some o -> level (if decide (Z.of_nat j < i) then L else S L) o) ->
  (flag = false -> forall j o, Z.of_nat j < i -> tasks t !! j = Some o -> o = None) ->
  exists b t', spec_round room fuel i flag t = OK (b, t') /\ slots t' = slots t /\
    (forall j o, tasks t' !! j = Some o -> level L o) /\
    (b = false -> forall j o, tasks t' !! j = Some o -> o = None) /\
    (L = 0%nat -> b = flag).
Proof.
  revert i flag t. induction fuel as [|fuel IH]; intros i flag t Hi Hfuel Hlev Hflag;
    cbn [spec_round]; unfold slots in *.
  - case_if; [lia|]. exists flag, t. split; [done|]. split; [done|]. split.
    { intros j o Ho. specialize (Hlev j o Ho). pose proof (lookup_lt_Some _ _ _ Ho).
      rewrite decide_True in Hlev by lia. done. }
    split; [|done]. intros Hf j o Ho. pose proof (lookup_lt_Some _ _ _ Ho).
    apply (Hflag Hf j o); [lia|done].
  - case_if.
    2: { exists flag, t. split; [done|]. split; [done|]. split.
      { intros j o Ho. specialize (Hlev j o Ho). pose proof (lookup_lt_Some _ _ _ Ho).
        rewrite decide_True in Hlev by lia. done. }
      split; [|done]. intros Hf j o Ho. pose proof (lookup_lt_Some _ _ _ Ho).
      apply (Hflag Hf j o); [lia|done]. }
    assert (Z.to_nat i < length (tasks t))%nat as [o Ho]%lookup_lt_is_Some_2 by lia.
    pose proof (Hlev _ _ Ho) as HoL. rewrite decide_False in HoL by lia.
    destruct (spec_resume_level L i t o) as (b & t1 & o' & -> & Ht1 & Ho' & Hb & HL0);
      [unfold slots; lia|done|done|]. cbn [res_bind].
    destruct (IH (i + 1) (b || flag) t1) as (b' & t' & Hround & Hlen & Hlev' & Hnone & HL0').
    + lia.
    + rewrite Ht1, length_insert. lia.
    + intros j oj. rewrite Ht1. intros [(<- & -> & _)|(Hne & Hj)]%list_lookup_insert_Some.
      * rewrite decide_True by lia. done.
      * specialize (Hlev j oj Hj). repeat case_decide; try done; lia.
    + intros [-> ->]%orb_false_iff j oj Hj. rewrite Ht1.
      intros [(<- & -> & _)|(Hne & Hj')]%list_lookup_insert_Some; [auto|].
      apply (Hflag eq_refl j); [lia|done].
    + exists b', t'. split; [exact Hround|]. rewrite Hlen, Ht1, length_insert.
      split; [done|]. split; [done|]. split; [done|]. intros HL. rewrite HL0', HL0; done.
Qed.

Lemma spec_wait_level (L n : nat) (t : spec W) : slots t <= Z.of_nat n ->
  (forall j o, tasks t !! j = Some o -> level (S L) o) ->
  exists t', spec_wait room (S L) n t = OK (tt, t') /\ slots t' = slots t /\
    forall j o, tasks t' !! j = Some o -> o = None.
Proof.
  revert t. induction L as [|L IH]; intros t Hn Hlev.
  - cbn [spec_wait]. destruct (spec_round_level 0 n 0 false t) as (b & t' & -> & Hs & _ & Hnone & Hb);
      [lia|lia| |lia|].
    { intros j o Ho. rewrite decide_False by lia. eauto. }
    rewrite Hb by done. cbn [res_bind]. exists t'. split; [done|]. split; [done|].
    apply Hnone. by apply Hb.
  - set (r := S L) at 1. cbn [spec_wait].
    destruct (spec_round_level (S L) n 0 false t) as (b & t' & -> & Hs & Hlev' & Hnone & _);
      [lia|lia| |lia|].
    { intros j o Ho. rewrite decide_False by lia. eauto. }
    cbn [res_bind]. destruct b.
    + destruct (IH t') as (t'' & Hwait & Hs' & Hall); [lia|done|].
      exists t''. unfold r. split; [done|]. split; [lia|done].
    + exists t'. split; [done|]. split; [done|]. by apply Hnone.
Qed.

(** ** Creating the coroutines *)

Fixpoint spec_create (ps : list (prog W)) (t : spec W) : res (spec W) :=
  match ps with
  | [] => OK t
  | p :: ps => let? (_, t) := spec_new p t in spec_create ps t
  end.

Definition ready (ps : list (prog W)) : list (option (task W)) := map (fun p => Some (TReady p)) ps.

Lemma spec_create_eq (ps done_ : list (prog W)) (m : nat) (w : W) :
  2 * Z.of_nat (length done_ + length ps) + 1 <= INT_MAX ->
  exists m', spec_create ps (Spec (ready done_ ++ replicate m None) (Z.of_nat (length done_)) w) =
    OK (Spec (ready (done_ ++ ps) ++ replicate m' None) (Z.of_nat (length done_ + length ps)) w) /\
    Z.of_nat (length done_ + length ps + m') <=
      Z.max (Z.of_nat (length done_ + m)) (2 * Z.of_nat (length done_ + length ps) + 1).
Proof.
  revert done_ m. induction ps as [|p ps IH]; intros done_ m Hlen; cbn [spec_create].
  - exists m. rewrite app_nil_r. simpl. split; [by rewrite Nat.add_0_r|lia].
  - assert (length (ready done_) = length done_) as Hr by apply length_map.
    assert (exists i m1, spec_new p (Spec (ready done_ ++ replicate m None) (Z.of_nat (length done_)) w) =
      OK (i, Spec (ready (done_ ++ [p]) ++ replicate m1 None) (Z.of_nat (length (done_ ++ [p]))) w) /\
      (m1 = pred m \/ (m = 0%nat /\ m1 = length done_))) as (i & m1 & -> & Hm1).
    { unfold spec_new, slots. cbn [tasks count spec_world].
      unfold ready. rewrite map_app, <- app_assoc. fold (ready done_). cbn [map app].
      rewrite !length_app, length_replicate, Hr, Nat2Z.inj_add. cbn [length].
      replace (Z.of_nat (length done_) + Z.of_nat 1) with (Z.of_nat (length done_) + 1) by lia.
      destruct m as [|m].
      - rewrite (proj2 (Z.leb_le _ _)), (proj2 (Z.ltb_ge _ _)) by (cbn [length] in Hlen; lia).
        eexists _, (length done_). cbn [replicate app]. rewrite Nat.add_0_r, <- app_assoc, Nat2Z.inj_add. auto.
      - rewrite (proj2 (Z.leb_gt _ _)) by lia. rewrite drop_app_length' by lia.
        cbn [replicate first_free].
        eexists _, m. split; [|by left].
        rewrite Nat2Z.id, <- Hr, <- (Nat.add_0_r (length (ready done_))), insert_app_r.
        rewrite <- app_assoc, Nat.add_0_r, Nat2Z.inj_add. done. }
    cbn [res_bind]. destruct (IH (done_ ++ [p]) m1) as (m' & -> & Hm'); [rewrite length_app; simpl in *; lia|].
    exists m'. rewrite <- app_assoc. simpl. rewrite length_app in *. simpl in *.
    split; [do 2 f_equal; lia|]. lia.
Qed.

End live.

(** ** A larger stack changes nothing *)

Section mono.
Context {W : Type}.
Variables room room' : Z.
Hypothesis Hroom : room <= room'.

(** [keeps x y]: a result of [x] is a result of [y]. *)
Definition keeps {A} (x y : res A) : Prop := forall a, x = OK a -> y = OK a.

Lemma keeps_bind {A B} (x y : res A) (f g : A -> res B) :
  keeps x y -> (forall a, keeps (f a) (g a)) -> keeps (res_bind x f) (res_bind y g).
Proof.
  intros Hx Hf b Hb. apply res_bind_OK in Hb as (a & Ha & Hb).
  rewrite (Hx a Ha). simpl. by apply Hf.
Qed.

Lemma keeps_refl {A} (x : res A) : keeps x x.
Proof. by intros a. Qed.

Lemma spec_run_mono self p l (t : spec W) :
  keeps (spec_run room self p l t) (spec_run room' self p l t).
Proof.
  revert l t. induction p as [|f k IH|k IH|k IH|child _ k IH]; intros l t; cbn [spec_run].
  - apply keeps_refl.
  - destruct (f l (spec_world t)) as [l' w']. case_if; [done|]. case_if; [lia|]. apply IH.
  - case_if; [done|]. case_if; [lia|]. apply keeps_refl.
  - apply IH.
  - apply keeps_bind; [apply keeps_refl|]. intros [i t']. apply IH.
Qed.

Lemma spec_resume_mono i (t : spec W) : keeps (spec_resume room i t) (spec_resume room' i t).
Proof.
  unfold spec_resume. case_if; [apply keeps_refl|].
  destruct (tasks t !! Z.to_nat i) as [[[p|k l|]|]|]; try apply keeps_refl;
    (apply keeps_bind; [apply spec_run_mono|intros; apply keeps_refl]).
Qed.

Lemma spec_round_mono fuel i flag (t : spec W) :
  keeps (spec_round room fuel i flag t) (spec_round room' fuel i flag t).
Proof.
  revert i flag t. induction fuel as [|fuel IH]; intros i flag t; cbn [spec_round];
    case_if; try apply keeps_refl.
  apply keeps_bind; [apply spec_resume_mono|]. intros [b t']. apply IH.
Qed.

Lemma spec_wait_mono rounds n (t : spec W) :
  keeps (spec_wait room rounds n t) (spec_wait room' rounds n t).
Proof.
  revert t. induction rounds as [|rounds IH]; intros t; cbn [spec_wait]; [done|].
  apply keeps_bind; [apply spec_round_mono|]. intros [b t']. destruct b; [apply IH|apply keeps_refl].
Qed.
End mono.

(** ** Waiting on the library *)

Local Open Scope st_scope.

Section wait.
Context {W : Type}.
Variable malloc_result : nat -> option Z.

(** Once every task is gone the library holds nothing but its environment. *)
Lemma zsum_zero {A} (f : A -> Z) (l : list A) :
  (forall i a, l !! i = Some a -> f a = 0) -> zsum f l = 0.
Proof.
  induction l as [|a l IH]; intros H; [done|]. simpl.
  rewrite (H 0%nat a), IH; [done| |done]. intros i. apply (H (S i)).
Qed.

Lemma rep_empty sa ss base sh s (t : spec W) : rep sa ss base (-1) sh s t ->
  (forall j o, tasks t !! j = Some o -> o = None) ->
  exists e, env s = EAt e /\ nco e = 0 /\ (forall i o, co e !! i = Some o -> o = None) /\
    nlive s = base.
Proof.
  intros [arr w a t' Harr [_ Hn] _ _] Hnone. eexists. split; [done|]. cbn [nco co nlive].
  assert (forall i o, arr !! i = Some o -> o = None) as Harr'.
  { intros i o Ho. destruct (array_rep_lookup _ _ _ _ _ _ _ Harr Ho) as (ot & Hot & Hrel).
    apply (slot_empty _ _ _ _ _ _ Hrel). by eapply Hnone. }
  split; [|split; [done|]].
  - rewrite Hn. apply zsum_zero. intros i o Ho. by rewrite (Hnone _ _ Ho).
  - rewrite zsum_zero; [lia|]. intros i o Ho. by rewrite (Harr' _ _ Ho).
Qed.

Fixpoint create_all (ps : list (prog W)) : ST (St W) unit :=
  match ps with
  | [] => s_ret tt
  | p :: ps => let* _ := co_new malloc_result p in create_all ps
  end.

Section rep.
Hypothesis malloc_ok : forall n, is_Some (malloc_result n).
Variables (sa ss base : Z).
Notation rep := (rep sa ss base).

Lemma sim_create ps sh s t : rep (-1) sh s t ->
  match spec_create ps t with
  | OK t' => exists s', create_all ps s = OK (tt, s') /\ rep (-1) sh s' t'
  | Er e => create_all ps s = Er e
  end.
Proof.
  revert s t. induction ps as [|p ps IH]; intros s t Hrep; cbn [spec_create create_all]; [eauto|].
  pose proof (sim_new malloc_result malloc_ok sa ss base (-1) sh s t p Hrep) as Hsim. unfold s_bind.
  destruct (co_new malloc_result p s) as [[i s']|e], (spec_new p t) as [[i' t']|e'];
    simpl in Hsim; try done; cbn [res_bind].
  - destruct Hsim as [_ Hrep']. by apply IH.
  - by subst.
Qed.
End rep.
End wait.

(** C14: [co_wait] ends.  After [co_open], creating any number of coroutines
    whose bodies swap out at most [n] times, create no coroutines themselves and
    have frames that always leave a byte of the shared stack, and waiting takes at most [n + 2] passes over the table; afterwards
    every slot is empty, no coroutine is counted, and the heap holds nothing
    but the environment. *)
Theorem co_wait_ends {W} (malloc_result : nat -> option Z) (s : St W) (cap share a : Z)
    (ps : list (prog W)) (n slots_ : nat) :
  opens malloc_result s cap share a ->
  Forall (short (room (a + sizeof_env) (opened_size share)) n) ps ->
  2 * Z.of_nat (length ps) + 1 <= INT_MAX ->
  2 ^ 17 + 2 * Z.of_nat (length ps) <= Z.of_nat slots_ ->
  exists s' e,
    (let* _ := co_open malloc_result cap share in
     create_all malloc_result ps ;*
     co_wait malloc_result (S (S n)) slots_) s = OK (tt, s') /\
    env s' = EAt e /\ nco e = 0 /\ (forall i o, co e !! i = Some o -> o = None) /\
    nlive s' = nlive s + 3.
Proof.
  intros [Hok Hcap Hsize Ha Ha0 Htop] Hps Hlen Hslots. unfold sizeof_env in *.
  destruct (co_open_at malloc_result Hok s cap share a) as (s1 & Hopen & Hrep); [done..|].
  rewrite (s_bind_OK _ _ _ _ _ Hopen). unfold sizeof_env in Hrep.
  set (rm := room (a + 40) (opened_size share)) in *.
  assert (0 < rm) as Hrm.
  { pose proof (sp0_range (a + 40) (opened_size share)). unfold rm, room. lia. }
  destruct (opened_cap_eq cap Hcap) as (k & Hk & Hck).
  destruct (spec_create_eq ps [] (Z.to_nat (opened_cap cap)) (world s)) as (m & Hcreate & Hm);
    [simpl; lia|]. simpl in Hcreate. change (Z.of_nat 0) with 0 in Hcreate.
  pose proof (sim_create malloc_result Hok _ _ _ ps _ _ _ Hrep) as Hsim.
  unfold spec0 in Hsim. rewrite Hcreate in Hsim. destruct Hsim as (s2 & Hcr & Hrep2).
  rewrite (s_bind_OK _ _ _ _ _ Hcr).
  assert (opened_cap cap <= 2 ^ 17).
  { rewrite Hck. assert (2 ^ k <= 2 ^ 17) by (apply Z.pow_le_mono_r; lia). lia. }
  destruct (spec_wait_level rm Hrm (S n) slots_
    (Spec (ready ps ++ replicate m None) (Z.of_nat (length ps)) (world s)))
    as (t' & Hwait & Hs' & Hnone).
  { unfold slots, ready. cbn [tasks]. rewrite length_app, length_map, length_replicate.
    simpl in Hm. lia. }
  { intros j o. cbn [tasks]. rewrite lookup_app_Some. unfold ready.
    intros [(p & -> & Hp)%list_lookup_fmap_Some|[_ [-> _]%lookup_replicate]]; [|done].
    simpl. rewrite Forall_lookup in Hps. by eapply Hps. }
  pose proof (sim_wait malloc_result Hok (a + 40) (opened_size share) ltac:(lia) Hsize ltac:(lia)
    (nlive s + 3) (S (S n)) slots_ _ _ _ Hrep2) as Hsim. fold rm in Hsim. rewrite Hwait in Hsim.
  destruct (co_wait _ _ _ _) as [[[] s3]|] eqn:Hco; simpl in Hsim; [|done].
  destruct Hsim as [sh' Hrep3]. exists s3.
  destruct (rep_empty _ _ _ _ _ _ Hrep3 Hnone) as (e & He). exists e. done.
Qed.

Lemma co_wait_ends_witness : exists s' e,
  (let* _ := co_open good_malloc 3 64 in
   create_all good_malloc [counting 1; counting 2; swapping; quick] ;*
   co_wait good_malloc 3 (Z.to_nat (2 ^ 17 + 8))) (MkSt ENull 0 0 7) = OK (tt, s') /\
  env s' = EAt e /\ nco e = 0 /\ (forall i o, co e !! i = Some o -> o = None) /\ nlive s' = 10.
Proof.
  apply (co_wait_ends good_malloc (MkSt ENull 0 0 7) 3 64 (2 ^ 20)
    [counting 1; counting 2; swapping; quick] 1 (Z.to_nat (2 ^ 17 + 8)) opens_example).
  - assert (room (2 ^ 20 + sizeof_env) (opened_size 64) = 56) as -> by (vm_compute; reflexivity).
    assert (forall n, short 56 1 (counting n)) as Hc.
    { intros n l w _. split; [simpl; lia|]. intros l' Hl' l'' w' Hl''. simpl. rewrite length_map.
      split; [done|]. intros l3 w3 Hl3. done. }
    rewrite !Forall_cons, Forall_nil. split_and!; try apply Hc; done.
  - vm_compute. discriminate.
  - rewrite Z2Nat.id; simpl; lia.
Defined.

(** ** The example program *)

Lemma room_large (sa ss : Z) : 0 <= sa -> 24 <= ss -> sa + ss < 2 ^ 64 -> ss - 24 <= room sa ss.
Proof.
  intros Hsa Hss Htop. unfold room, sp0. rewrite initial_sp_eq by lia.
  pose proof (Z.div_mod (sa + ss - 8) 16). pose proof (Z.mod_pos_bound (sa + ss - 8) 16). lia.
Qed.

(** Allocating, freeing and printing between two calls of the library *)
Lemma rep_alloc {W} (malloc_result : nat -> option Z) sa ss base sh (s : St W) t :
  (forall n, is_Some (malloc_result n)) -> rep sa ss base (-1) sh s t ->
  exists q s', alloc malloc_result s = OK (Some q, s') /\ rep sa ss (base + 1) (-1) sh s' t.
Proof.
  intros Hok [arr w a t' Harr Hinv Hw Hr]. unfold alloc. cbn [nalloc]. destruct (Hok a) as [q ->].
  do 2 eexists. split; [reflexivity|]. apply rep_intro; try done. cbn [nlive]. lia.
Qed.

Lemma rep_free {W} sa ss base sh (s : St W) t : rep sa ss base (-1) sh s t ->
  exists s', free s = OK (tt, s') /\ rep sa ss (base - 1) (-1) sh s' t.
Proof.
  intros [arr w a t' Harr Hinv Hw Hr]. eexists. split; [reflexivity|].
  apply rep_intro; try done. cbn [nlive]. lia.
Qed.

Lemma rep_printf sa ss base sh (s : St world_t) t l : rep sa ss base (-1) sh s t ->
  exists s', printf l s = OK (tt, s') /\
    rep sa ss base (-1) sh s' (Spec (tasks t) (count t) (spec_world t ++ [l])).
Proof.
  intros [arr w a t' Harr Hinv Hw Hr]. eexists. split; [reflexivity|]. subst w.
  by apply rep_intro.
Qed.

Lemma create_eq malloc_result (n : nat) (i : Z) (s : St world_t) :
  create malloc_result n i s =
  create_all malloc_result (map (fun j => foo (j * 100)) (seqZ i (Z.of_nat n))) s.
Proof.
  revert i s. induction n as [|n IH]; intros i s; [done|].
  rewrite seqZ_cons by lia. cbn [create map create_all]. unfold s_bind.
  destruct (co_new _ _ _) as [[j s']|]; [|done]. rewrite IH. repeat f_equal; lia.
Qed.

(** The bodies of [test], and the specification's run of them on a small stack *)
Definition bodies : list (prog world_t) := map (fun j => foo (j * 100)) (seqZ 0 10).

Lemma spec_main : exists t,
  spec_wait 40 20 20 (Spec (ready bodies ++ replicate 5 None) 10 [MainStart]) = OK (tt, t) /\
  spec_world t ++ [MainEnd] = expected.
Proof. eexists. split; vm_compute; reflexivity. Qed.

Lemma spec_main_create : spec_create bodies (spec0 (opened_cap 0) []) =
  OK (Spec (ready bodies ++ replicate 5 None) 10 []).
Proof. reflexivity. Qed.

Lemma test_at malloc_result sa ss base sh (s : St world_t) :
  (forall n, is_Some (malloc_result n)) -> 0 <= sa -> 64 <= ss -> sa + ss < 2 ^ 64 ->
  rep sa ss base (-1) sh s (spec0 (opened_cap 0) []) ->
  exists s' sh' t, test malloc_result 20 s = OK (tt, s') /\ rep sa ss base (-1) sh' s' t /\
    spec_world t = expected.
Proof.
  intros Hok Hsa Hss Htop Hrep. unfold test.
  destruct (rep_alloc _ _ _ _ _ _ _ Hok Hrep) as (q1 & s2 & Ha1 & Hrep2).
  rewrite (s_bind_OK _ _ _ _ _ Ha1).
  destruct (rep_alloc _ _ _ _ _ _ _ Hok Hrep2) as (q2 & s3 & Ha2 & Hrep3).
  rewrite (s_bind_OK _ _ _ _ _ Ha2).
  pose proof (sim_create malloc_result Hok _ _ _ bodies _ _ _ Hrep3) as Hc.
  rewrite spec_main_create in Hc. destruct Hc as (s4 & Hcr & Hrep4).
  rewrite (s_bind_OK _ _ _ _ _ (eq_trans (create_eq malloc_result 10 0 s3) Hcr)).
  destruct (rep_printf _ _ _ _ _ _ MainStart Hrep4) as (s5 & Hp5 & Hrep5).
  rewrite (s_bind_OK _ _ _ _ _ Hp5).
  destruct spec_main as (t & Hspec & Hexp).
  pose proof (room_large sa ss Hsa ltac:(lia) Htop) as Hroom.
  apply (spec_wait_mono 40 (room sa ss)) in Hspec; [|lia].
  pose proof (sim_wait malloc_result Hok sa ss Hsa ltac:(lia) Htop _ 20 20 _ _ _ Hrep5) as Hsim.
  cbn [tasks count spec_world app] in Hsim. rewrite Hspec in Hsim.
  destruct (co_wait _ _ _ s5) as [[[] s6]|] eqn:Hco; simpl in Hsim; [|done].
  destruct Hsim as [sh' Hrep6]. rewrite (s_bind_OK _ _ _ _ _ Hco).
  destruct (rep_printf _ _ _ _ _ _ MainEnd Hrep6) as (s7 & Hp7 & Hrep7).
  rewrite (s_bind_OK _ _ _ _ _ Hp7). rewrite Hexp in Hrep7.
  destruct (rep_free _ _ _ _ _ _ Hrep7) as (s8 & Hf8 & Hrep8).
  rewrite (s_bind_OK _ _ _ _ _ Hf8).
  destruct (rep_free _ _ _ _ _ _ Hrep8) as (s9 & Hf9 & Hrep9).
  assert (base + 1 + 1 - 1 - 1 = base) as Hb by lia. rewrite Hb in Hrep9.
  exists s9, sh'. eexists. split; [exact Hf9|]. split; [exact Hrep9|done].
Qed.

Lemma worker_runs (malloc_result : nat -> option Z) (a : Z) :
  (forall n, is_Some (malloc_result n)) -> malloc_result 0%nat = Some a -> 0 <= a < 2 ^ 63 ->
  exists s, worker malloc_result 20 thread_start = OK (0, s) /\
    world s = expected /\ nlive s = 0 /\ env s = ENull.
Proof.
  intros Hok Ha Hpos. assert (opened_size 0 = 2 ^ 20) as Hsize by (vm_compute; reflexivity).
  destruct (co_open_at malloc_result Hok thread_start 0 0 a) as (s1 & Hopen & Hrep);
    [lia|lia|done|lia|unfold sizeof_env; lia|].
  rewrite Hsize in Hrep. unfold sizeof_env in Hrep. cbn [world nlive thread_start] in Hrep.
  unfold worker. rewrite (s_bind_OK _ _ _ _ _ Hopen). cbn [negb].
  destruct (test_at malloc_result (a + 40) (2 ^ 20) _ _ _ Hok ltac:(lia) ltac:(lia) ltac:(lia) Hrep)
    as (s2 & sh & t & Htest & Hrep2 & Hexp).
  rewrite (s_bind_OK _ _ _ _ _ Htest).
  destruct (co_close_at _ _ _ _ _ _ Hrep2) as (s3 & Hclose & Henv & Hlive & Hworld).
  rewrite (s_bind_OK _ _ _ _ _ Hclose). exists s3. split; [done|].
  split; [congruence|]. split; [lia|done].
Qed.

(** A thread of the example program succeeds, prints the lines of its ten
    coroutines round robin, in three rounds, and leaves no allocated block
    behind, whatever addresses the allocator returns. *)
Theorem worker_output (malloc_result : nat -> option Z) (a : Z) :
  (forall n, is_Some (malloc_result n)) -> malloc_result 0%nat = Some a -> 0 <= a < 2 ^ 63 ->
  exists s, worker malloc_result 20 thread_start = OK (0, s) /\
    world s = expected /\ nlive s = 0 /\ env s = ENull.
Proof. apply worker_runs. Qed.

Lemma worker_output_witness : exists s, worker good_malloc 20 thread_start = OK (0, s) /\
  world s = expected /\ nlive s = 0 /\ env s = ENull.
Proof. apply (worker_output good_malloc (2 ^ 20)); [intros; by eexists|done|lia]. Defined.

(** ** A thread whose allocations fail *)

Section no_memory.
Variable malloc_result : nat -> option Z.

Lemma alloc_some {W} (s : St W) a : malloc_result (nalloc s) = Some a ->
  alloc malloc_result s = OK (Some a, MkSt (env s) (world s) (S (nalloc s)) (nlive s + 1)).
Proof. intros Ha. unfold alloc. by rewrite Ha. Qed.
Lemma alloc_null {W} (s : St W) : malloc_result (nalloc s) = None ->
  alloc malloc_result s = OK (None, MkSt (env s) (world s) (S (nalloc s)) (nlive s)).
Proof. intros Ha. unfold alloc. by rewrite Ha. Qed.

Ltac alloc_step := erewrite s_bind_OK by (first [apply alloc_some; eassumption | apply alloc_null; eassumption]); cbv iota.

(** [co_open] in a thread that starts, when one of its three allocations fails, and when none does *)
Lemma co_open_null k : (k < 3)%nat -> malloc_result k = None -> (forall j, (j < k)%nat -> is_Some (malloc_result j)) ->
  exists s, co_open malloc_result 0 0 thread_start = OK (false, s) /\ world s = [] /\ nlive s = 0.
Proof.
  intros Hk Hnull Hsome. unfold co_open. cbv zeta.
  destruct k as [|k]; [|destruct (Hsome 0%nat) as [a0 H0]; [lia|]]; alloc_step; [by do 2 eexists|].
  assert ((2 ^ 64 <=? sizeof_env + ALIGN (if 0 =? 0 then STACK_SIZE else 0) 8) = false) as -> by (vm_compute; reflexivity).
  erewrite s_bind_OK by reflexivity.
  destruct k as [|k]; [|destruct (Hsome 1%nat) as [a1 H1]; [lia|]]; alloc_step; [by do 2 eexists|].
  destruct k as [|k]; [|lia]. unfold new_ctx.
  erewrite s_bind_OK by (alloc_step; reflexivity). by do 2 eexists.
Qed.

Lemma co_open_some : (forall j, (j < 3)%nat -> is_Some (malloc_result j)) ->
  exists a, co_open malloc_result 0 0 thread_start =
    OK (true, MkSt (EAt (Env 0 15 (-1) (replicate 15 None) (2 ^ 20) a ∅)) [] 3 3).
Proof.
  intros Hsome. destruct (Hsome 0%nat) as [a0 H0]; [lia|]. destruct (Hsome 1%nat) as [a1 H1]; [lia|].
  destruct (Hsome 2%nat) as [a2 H2]; [lia|].
  unfold co_open. cbv zeta. alloc_step.
  assert ((2 ^ 64 <=? sizeof_env + ALIGN (if 0 =? 0 then STACK_SIZE else 0) 8) = false) as -> by (vm_compute; reflexivity).
  erewrite s_bind_OK by reflexivity. alloc_step. unfold new_ctx.
  erewrite s_bind_OK by (alloc_step; reflexivity). exists (a0 + sizeof_env). by vm_compute.
Qed.

Lemma co_close_empty a n l :
  co_close (MkSt (W := world_t) (EAt (Env 0 15 (-1) (replicate 15 None) (2 ^ 20) a ∅)) [] n l) = OK (tt, MkSt ENull [] n (l - 1 - 1 - 1)).
Proof. reflexivity. Qed.

(** A thread one of whose first five allocations fails prints nothing and frees
    what it allocated: three of them are those of [co_open], the other two those
    of [test]. *)
Lemma worker_null k : (k < 5)%nat -> malloc_result k = None -> (forall j, (j < k)%nat -> is_Some (malloc_result j)) ->
  exists s, worker malloc_result 20 thread_start = OK (if decide (k < 3)%nat then 1 else 0, s) /\ world s = [] /\ nlive s = 0.
Proof.
  intros Hk Hnull Hsome. unfold worker. destruct (decide (k < 3)%nat) as [Hlt|Hge].
  { destruct (co_open_null k) as (s & Hopen & Hw & Hlive); [done..|].
    rewrite (s_bind_OK _ _ _ _ _ Hopen). by eexists. }
  destruct co_open_some as [a Ha]; [intros; apply Hsome; lia|]. rewrite (s_bind_OK _ _ _ _ _ Ha). cbn [negb].
  unfold test. assert (k = 3 \/ k = 4)%nat as [-> | ->] by lia; [|destruct (Hsome 3%nat) as [a3 H3]; [lia|]].
  - erewrite s_bind_OK by (alloc_step; reflexivity). cbn [env world nalloc nlive].
    erewrite s_bind_OK by apply co_close_empty. by eexists.
  - erewrite s_bind_OK by (do 2 alloc_step; reflexivity). cbn [env world nalloc nlive].
    erewrite s_bind_OK by apply co_close_empty. by eexists.
Qed.
End no_memory.
