(* ===== verification/C11Threads.v ===== *)
(** * Threads as in C11: [cmake/coroutine/inc/c11_threads.h]

    For systems without threads.h, the header defines its functions by those of
    pthreads.  First what they make of the results; then what a program can rely
    on, for any system that keeps the promises of [PthreadsLaws]: mutual
    exclusion, values of their own for each thread, and functions called once.
    Conditions show only in that waiting for one gives the mutex away. *)

From stdpp Require Import gmap.
From S2P Require Import Prelude Words.

Local Open Scope Z_scope.

(** ** Results

    Each function is its result given what the function of pthreads returns.
    The numbers of the errors are those of the system: the header is for systems
    of which they differ (MinGW has others than Linux). *)

Class Errno : Type := { EINTR : Z; ETIMEDOUT : Z }.

Definition thrd_success : Z := 0.
Definition thrd_timedout : Z := 1.
Definition thrd_busy : Z := 2.
Definition thrd_error : Z := 3.

(** [ret == 0 ? thrd_success : thrd_error] *)
Definition result (ret : Z) : Z := if ret =? 0 then thrd_success else thrd_error.

(** [(int)(intptr_t)p] and [(void* )(intptr_t)res], with 64-bit pointers *)
Definition int_of_ptr (p : Z) : Z := let x := p mod 2 ^ 32 in if x <? 2 ^ 31 then x else x - 2 ^ 32.
Definition ptr_of_int (res : Z) : Z := u64 res.

Definition thrd_create (ret : Z) : Z := result ret.
(** The code, and what is stored through [res] if it is not null *)
Definition thrd_join (ret thread_result : Z) (res : bool) : Z * option Z :=
  (result ret, if res then Some (int_of_ptr thread_result) else None).
Definition thrd_detach (ret : Z) : Z := result ret.
Definition thrd_exit (res : Z) : Z := ptr_of_int res.
Definition thrd_sleep `{Errno} (ret errno : Z) : Z := if ret =? 0 then 0 else if errno =? EINTR then -1 else -2.

(** Whether the mutex is made recursive, and the code *)
Definition mtx_init (type ret : Z) : bool * Z := (negb (Z.land type 1 =? 0), result ret).
Definition mtx_lock (ret : Z) : Z := result ret.
Definition mtx_timedlock `{Errno} (ret : Z) : Z :=
  if ret =? 0 then thrd_success else if ret =? ETIMEDOUT then thrd_timedout else thrd_error.
Definition mtx_trylock (ret : Z) : Z := if ret =? 0 then thrd_success else thrd_busy.
Definition mtx_unlock (ret : Z) : Z := result ret.
Definition cnd_init (ret : Z) : Z := result ret.
Definition cnd_signal (ret : Z) : Z := result ret.
Definition cnd_broadcast (ret : Z) : Z := result ret.
Definition cnd_wait (ret : Z) : Z := result ret.
Definition cnd_timedwait `{Errno} (ret : Z) : Z :=
  if ret =? 0 then thrd_success else if ret =? ETIMEDOUT then thrd_timedout else thrd_error.
Definition tss_create (ret : Z) : Z := result ret.
Definition tss_set (ret : Z) : Z := result ret.

(** The value a thread ends with is the value it is joined with, whether it
    calls [thrd_exit] or returns an [int] where the system expects a pointer:
    the upper half of the register is then arbitrary. *)
Theorem join_value (r upper ret : Z) : - 2 ^ 31 <= r < 2 ^ 31 ->
  (thrd_join ret (thrd_exit r) true).2 = Some r /\ (thrd_join ret (u64 (r mod 2 ^ 32 + 2 ^ 32 * upper)) true).2 = Some r.
Proof.
  intros Hr. unfold thrd_join, thrd_exit, ptr_of_int, u64, wrap, int_of_ptr. cbn [snd].
  assert (forall x, (x mod 2 ^ 64) mod 2 ^ 32 = x mod 2 ^ 32) as Hmod by (intros x; apply Z.mod_mod_divide; by exists (2 ^ 32)).
  rewrite !Hmod. rewrite (Z.mul_comm (2 ^ 32) upper), Z_mod_plus_full, Z.mod_mod by lia.
  assert ((if r mod 2 ^ 32 <? 2 ^ 31 then r mod 2 ^ 32 else r mod 2 ^ 32 - 2 ^ 32) = r) as ->; [|done].
  destruct (decide (0 <= r)).
  - rewrite Z.mod_small by lia. case_if; lia.
  - assert (r mod 2 ^ 32 = r + 2 ^ 32) as -> by (symmetry; apply Z.mod_unique with (q := -1); lia). case_if; lia.
Qed.

(** ** The system *)

(** Threads, mutexes, conditions, keys and flags are numbers.  A lock that would
    wait has no result.  [holder] is the thread that holds a mutex, with how
    often it has locked it. *)
Class Pthreads (W : Type) : Type := {
  pthread_mutex_init : W -> nat -> bool -> Z * W;
  pthread_mutex_lock : W -> nat -> nat -> option (Z * W);
  pthread_mutex_timedlock : W -> nat -> nat -> option (Z * W);
  pthread_mutex_trylock : W -> nat -> nat -> Z * W;
  pthread_mutex_unlock : W -> nat -> nat -> Z * W;
  pthread_mutex_destroy : W -> nat -> W;
  pthread_cond_block : W -> nat -> nat -> nat -> W;      (* a thread begins to wait *)
  pthread_cond_wake : W -> nat -> nat -> nat -> option (Z * W);
  pthread_cond_signal : W -> nat -> Z * W;
  pthread_cond_broadcast : W -> nat -> Z * W;
  pthread_key_create : W -> Z * nat * W;
  pthread_getspecific : W -> nat -> nat -> Z;
  pthread_setspecific : W -> nat -> nat -> Z -> Z * W;
  pthread_key_delete : W -> nat -> W;
  pthread_once : W -> nat -> bool * W;                   (* whether it calls the function *)
  holder : W -> nat -> option (nat * nat);
  recursive : W -> nat -> bool;
  once_done : W -> nat -> bool
}.

(** What an attempt to lock may do *)
Definition lock_outcome {W} `{Pthreads W} (w : W) (t m : nat) (ret : Z) (w' : W) : Prop :=
  (forall m', recursive w' m' = recursive w m') /\
  (forall m', m' <> m -> holder w' m' = holder w m') /\
  (if decide (ret = 0) then
     (holder w m = None /\ holder w' m = Some (t, 1%nat)) \/
     (recursive w m = true /\ exists n, holder w m = Some (t, n) /\ holder w' m = Some (t, S n))
   else holder w' m = holder w m).

Definition same_holders {W} `{Pthreads W} (w w' : W) : Prop :=
  (forall m, recursive w' m = recursive w m) /\ (forall m, holder w' m = holder w m).

(** The documentation of pthreads.  Unlocking is promised to its holder only. *)
Class PthreadsLaws (W : Type) `{Pthreads W} : Prop := {
  init_law w m r : let '(ret, w') := pthread_mutex_init w m r in ret = 0 ->
    holder w' m = None /\ recursive w' m = r;
  lock_law w t m ret w' : pthread_mutex_lock w t m = Some (ret, w') -> lock_outcome w t m ret w';
  lock_again w t m n : recursive w m = true -> holder w m = Some (t, n) -> is_Some (pthread_mutex_lock w t m);
  timedlock_law w t m ret w' : pthread_mutex_timedlock w t m = Some (ret, w') -> lock_outcome w t m ret w';
  trylock_law w t m : let '(ret, w') := pthread_mutex_trylock w t m in lock_outcome w t m ret w';
  unlock_law w t m n : holder w m = Some (t, S n) -> let '(ret, w') := pthread_mutex_unlock w t m in
    ret = 0 /\ holder w' m = match n with O => None | S _ => Some (t, n) end /\
    (forall m', recursive w' m' = recursive w m') /\ (forall m', m' <> m -> holder w' m' = holder w m');
  block_law w t c m : holder w m = Some (t, 1%nat) -> let w' := pthread_cond_block w t c m in
    holder w' m = None /\ (forall m', recursive w' m' = recursive w m') /\ (forall m', m' <> m -> holder w' m' = holder w m');
  wake_law w t c m ret w' : pthread_cond_wake w t c m = Some (ret, w') ->
    holder w m = None /\ holder w' m = Some (t, 1%nat) /\
    (forall m', recursive w' m' = recursive w m') /\ (forall m', m' <> m -> holder w' m' = holder w m');
  signal_law w c : same_holders w (pthread_cond_signal w c).2 /\ same_holders w (pthread_cond_broadcast w c).2;
  key_law w : let '(ret, k, w') := pthread_key_create w in ret = 0 -> forall t, pthread_getspecific w' t k = 0;
  specific_law w t k v : let '(ret, w') := pthread_setspecific w t k v in
    forall t' k', pthread_getspecific w' t' k' =
      if decide (ret = 0 /\ t' = t /\ k' = k) then v else pthread_getspecific w t' k';
  once_law w f : let '(b, w') := pthread_once w f in
    b = negb (once_done w f) /\ forall f', once_done w' f' = if decide (f' = f) then true else once_done w f'
}.

(** ** The functions, with the system *)

Section code.
Context `{EN : Errno} {W : Type} `{Pthreads W}.

Definition mtx_recursive : Z := 1.

Definition c_mtx_init (w : W) (m : nat) (type : Z) : Z * W :=
  let r := negb (Z.land type mtx_recursive =? 0) in
  let '(ret, w) := pthread_mutex_init w m r in
  (result ret, w).
Definition c_mtx_destroy (w : W) (m : nat) : W := pthread_mutex_destroy w m.

Definition c_tss_create (w : W) : Z * nat * W :=
  let '(ret, k, w) := pthread_key_create w in (tss_create ret, k, w).
Definition c_tss_get (w : W) (t k : nat) : Z := pthread_getspecific w t k.
Definition c_tss_set (w : W) (t k : nat) (v : Z) : Z * W :=
  let '(ret, w) := pthread_setspecific w t k v in (tss_set ret, w).
Definition c_tss_delete (w : W) (k : nat) : W := pthread_key_delete w k.
Definition c_call_once (w : W) (f : nat) : bool * W := pthread_once w f.

(** The calls that concern a mutex that exists; waiting for a condition is its
    begin and its end, between which other threads run. *)
Inductive mcall : Type :=
  | MtxLock (m : nat) | MtxTimedlock (m : nat) | MtxTrylock (m : nat) | MtxUnlock (m : nat)
  | CndWaitBegin (c m : nat) | CndWaitEnd (c m : nat) | CndTimedwaitEnd (c m : nat)
  | CndSignal (c : nat) | CndBroadcast (c : nat).

Definition c_result (f : Z -> Z) (r : Z * W) : option (Z * W) := Some (f r.1, r.2).

(** What the thread [t] gets, unless it has to wait *)
Definition c_call (w : W) (t : nat) (c : mcall) : option (Z * W) :=
  match c with
  | MtxLock m => pthread_mutex_lock w t m ≫= c_result mtx_lock
  | MtxTimedlock m => pthread_mutex_timedlock w t m ≫= c_result mtx_timedlock
  | MtxTrylock m => c_result mtx_trylock (pthread_mutex_trylock w t m)
  | MtxUnlock m => c_result mtx_unlock (pthread_mutex_unlock w t m)
  | CndWaitBegin c m => Some (thrd_success, pthread_cond_block w t c m)
  | CndWaitEnd c m => pthread_cond_wake w t c m ≫= c_result cnd_wait
  | CndTimedwaitEnd c m => pthread_cond_wake w t c m ≫= c_result cnd_timedwait
  | CndSignal c => c_result cnd_signal (pthread_cond_signal w c)
  | CndBroadcast c => c_result cnd_broadcast (pthread_cond_broadcast w c)
  end.

(** ** Programs *)

(** A call with the thread that made it and its result *)
Notation record_ := (nat * mcall * Z)%type.

(** How often [t] has locked [m] and not unlocked it, by the results it got *)
Definition depth_step (t m : nat) (d : nat) (x : record_) : nat :=
  let '(t', c, r) := x in
  if negb (Nat.eqb t t') then d else
  match c with
  | MtxLock m' | MtxTimedlock m' | MtxTrylock m' => if Nat.eqb m m' && (r =? thrd_success) then S d else d
  | MtxUnlock m' => if Nat.eqb m m' && (r =? thrd_success) then pred d else d
  | CndWaitBegin _ m' => if Nat.eqb m m' then 0%nat else d
  | CndWaitEnd _ m' | CndTimedwaitEnd _ m' => if Nat.eqb m m' then 1%nat else d
  | CndSignal _ | CndBroadcast _ => d
  end.
Definition depth (t m : nat) (l : list record_) : nat := fold_left (depth_step t m) l 0%nat.

(** The rules for a program: it unlocks, and waits with, what it has locked. *)
Definition follows_rules (l : list record_) (t : nat) (c : mcall) : Prop :=
  match c with
  | MtxUnlock m => (0 < depth t m l)%nat
  | CndWaitBegin _ m => depth t m l = 1%nat
  | _ => True
  end.

(** The calls of all threads, in any order *)
Inductive runs (w0 : W) : list record_ -> W -> Prop :=
  | runs_nil : runs w0 [] w0
  | runs_call l w t c r w' : runs w0 l w -> follows_rules l t c -> c_call w t c = Some (r, w') ->
      runs w0 (l ++ [(t, c, r)]) w'.

End code.

(** ** What a program can rely on *)

Section laws.
Context `{EN : Errno} {W : Type} `{PthreadsLaws W}.
Implicit Types w : W.

(** What the system says about the holder is what the threads have been told. *)
Definition told (l : list (nat * mcall * Z)) (w : W) (m : nat) : Prop :=
  (forall t, depth t m l = match holder w m with Some (t', n) => if Nat.eqb t t' then n else 0%nat | None => 0%nat end) /\
  (forall t n, holder w m = Some (t, n) -> (0 < n)%nat /\ (recursive w m = false -> n = 1%nat)).

Lemma depth_snoc t m l x : depth t m (l ++ [x]) = depth_step t m (depth t m l) x.
Proof. unfold depth. by rewrite fold_left_app. Qed.

Lemma result_success r : result r = thrd_success <-> r = 0.
Proof. unfold result. destruct (Z.eqb_spec r 0); split; done. Qed.

(** A call that leaves the mutex alone *)
Lemma told_other l w w' m x : told l w m -> holder w' m = holder w m -> recursive w' m = recursive w m ->
  (forall t, depth_step t m (depth t m l) x = depth t m l) -> told (l ++ [x]) w' m.
Proof.
  intros [Hd Hn] Hh Hr Hx. split; [intros t; by rewrite depth_snoc, Hx, Hd, Hh|]. rewrite Hh, Hr. done.
Qed.

(** A mutex that is taken or given back by [t] *)
Lemma told_change l w w' m t c r n : told l w m -> recursive w' m = recursive w m ->
  (forall t', t' <> t -> depth t' m l = 0%nat) -> depth_step t m (depth t m l) (t, c, r) = n ->
  holder w' m = (if decide (n = 0%nat) then None else Some (t, n)) -> (recursive w m = false -> (n <= 1)%nat) ->
  told (l ++ [(t, c, r)]) w' m.
Proof.
  intros [Hd Hn] Hr Hz Hx Hh Hrec. split.
  - intros t'. rewrite depth_snoc. destruct (decide (t' = t)) as [-> |Hne].
    + rewrite Hx, Hh. destruct (decide (n = 0%nat)); [done|]. by rewrite Nat.eqb_refl.
    + unfold depth_step. rewrite (proj2 (Nat.eqb_neq t' t)) by done. cbn [negb]. rewrite Hz, Hh by done.
      destruct (decide (n = 0%nat)); [done|]. by rewrite (proj2 (Nat.eqb_neq t' t)).
  - rewrite Hh, Hr. intros t' n'. destruct (decide (n = 0%nat)) as [|Hne]; [done|]. intros [= <- <-].
    split; [lia|]. intros Hf. specialize (Hrec Hf). lia.
Qed.

Lemma others_free l w m t n : told l w m -> (holder w m = None \/ holder w m = Some (t, n)) ->
  forall t', t' <> t -> depth t' m l = 0%nat.
Proof.
  intros [Hd _] Hh t' Hne. rewrite Hd. destruct Hh as [-> | ->]; [done|]. by rewrite (proj2 (Nat.eqb_neq t' t)).
Qed.

(** Locking in any of its ways, with the code [f] makes of the result *)
Lemma told_lock l w w' m m' t c ret (f : Z -> Z) : told l w m -> lock_outcome w t m' ret w' ->
  (f ret = thrd_success <-> ret = 0) ->
  (forall d, depth_step t m d (t, c, f ret) = if Nat.eqb m m' && (f ret =? thrd_success) then S d else d) ->
  (forall t' d, t' <> t -> depth_step t' m d (t, c, f ret) = d) ->
  told (l ++ [(t, c, f ret)]) w' m.
Proof.
  intros Ht (Hrec & Hoth & Hret) Hf Hstep Hstep'.
  assert (forall t', depth_step t' m (depth t' m l) (t, c, f ret) =
    if Nat.eqb t' t && Nat.eqb m m' && (f ret =? thrd_success) then S (depth t' m l) else depth t' m l) as Hall.
  { intros t'. destruct (Nat.eqb_spec t' t) as [-> |Hne]; [apply Hstep|by apply Hstep']. }
  destruct (Nat.eqb_spec m m') as [<-|Hne].
  2:{ apply (told_other l w); [done|by apply Hoth|done|]. intros t'. by rewrite Hall, andb_false_r. }
  destruct (decide (ret = 0)) as [He|He].
  - assert (f ret =? thrd_success = true) as Hs by (by apply Z.eqb_eq, Hf). rewrite Hs in Hall.
    destruct Hret as [[Hn Hh]|[Hr (n & Hn & Hh)]].
    + apply (told_change l w _ _ _ _ _ 1%nat); [done|done|by apply (others_free l w m t 0); [|left]| |done|done].
      rewrite Hall, Nat.eqb_refl. cbn [andb]. by rewrite (proj1 Ht), Hn.
    + apply (told_change l w _ _ _ _ _ (S n)); [done|done|by apply (others_free l w m t n); [|right]| |done|congruence].
      rewrite Hall, Nat.eqb_refl. cbn [andb]. by rewrite (proj1 Ht), Hn, Nat.eqb_refl.
  - apply (told_other l w); [done|done|done|]. intros t'. rewrite Hall.
    assert (f ret =? thrd_success = false) as -> by (apply Z.eqb_neq; intros ?; by apply He, Hf). by rewrite andb_false_r.
Qed.

(** The holder, from what the threads have been told *)
Lemma told_holder l w m t : told l w m -> (0 < depth t m l)%nat -> holder w m = Some (t, depth t m l).
Proof.
  intros [Hd _] Hp. rewrite Hd in Hp |- *. destruct (holder w m) as [[t' n]|]; [|lia].
  destruct (Nat.eqb_spec t t') as [-> |]; [done|lia].
Qed.

(** One call takes the mutex [m'] from [n] to [n'] times locked by [t]. *)
Lemma told_moved l w w' m m' t c r (n n' : nat) : (forall k, told l w k) ->
  holder w m' = (if decide (n = 0%nat) then None else Some (t, n)) ->
  holder w' m' = (if decide (n' = 0%nat) then None else Some (t, n')) ->
  (forall k, recursive w' k = recursive w k) -> (forall k, k <> m' -> holder w' k = holder w k) ->
  (forall t' k d, depth_step t' k d (t, c, r) = if Nat.eqb t' t && Nat.eqb k m' then if decide (d = n) then n' else depth_step t' k d (t, c, r) else d) ->
  (n' <= n \/ n' <= 1)%nat -> told (l ++ [(t, c, r)]) w' m.
Proof.
  intros Ht Hh Hh' Hrec Hoth Hstep Hle. destruct (decide (m = m')) as [-> |Hne].
  - assert (holder w m' = None \/ holder w m' = Some (t, n)) as Hor by (rewrite Hh; destruct (decide (n = 0%nat)); tauto).
    apply (told_change l w _ _ _ _ _ n'); [done|done|by apply (others_free l w m' t n)| |done|].
    + rewrite Hstep, !Nat.eqb_refl. cbn [andb]. rewrite decide_True; [done|]. rewrite (proj1 (Ht m')), Hh.
      destruct (decide (n = 0%nat)); [done|]. by rewrite Nat.eqb_refl.
    + intros Hf. destruct Hle as [Hle|]; [|done]. destruct (decide (n = 0%nat)) as [|Hn0]; [lia|].
      destruct (proj2 (Ht m') t n) as [_ H1]; [by rewrite Hh|]. specialize (H1 Hf). lia.
  - apply (told_other l w); [done|by apply Hoth|done|]. intros t'.
    rewrite Hstep, (proj2 (Nat.eqb_neq m m')) by done. by rewrite andb_false_r.
Qed.

Ltac told_steps := intros; unfold depth_step;
  repeat match goal with |- context [Nat.eqb ?a ?b] => destruct (Nat.eqb_spec a b); subst end;
  cbn; repeat case_match; done || lia.

Lemma told_step l w t c r w' : (forall m, told l w m) -> follows_rules l t c -> c_call w t c = Some (r, w') ->
  forall m, told (l ++ [(t, c, r)]) w' m.
Proof.
  intros Ht Hrules Hc m. destruct c as [m'|m'|m'|m'|c m'|c m'|c m'|c|c]; cbn [c_call follows_rules] in *.
  - destruct (pthread_mutex_lock w t m') as [[ret w2]|] eqn:E; [|done]. injection Hc as <- <-.
    apply (told_lock l w _ m m' t _ ret mtx_lock); [done|by apply lock_law|apply result_success|told_steps..].
  - destruct (pthread_mutex_timedlock w t m') as [[ret w2]|] eqn:E; [|done]. injection Hc as <- <-.
    apply (told_lock l w _ m m' t _ ret mtx_timedlock); [done|by apply timedlock_law| |told_steps..].
    unfold mtx_timedlock. repeat case_match; split; intros; done || lia.
  - pose proof (trylock_law w t m') as E. destruct (pthread_mutex_trylock w t m') as [ret w2]. injection Hc as <- <-.
    apply (told_lock l w _ m m' t _ ret mtx_trylock); [done|done| |told_steps..].
    unfold mtx_trylock. repeat case_match; split; intros; done || lia.
  - pose proof (told_holder l w m' t (Ht m') Hrules) as Hh. destruct (depth t m' l) as [|n] eqn:Ed; [lia|].
    pose proof (unlock_law w t m' n Hh) as E. destruct (pthread_mutex_unlock w t m') as [ret w2].
    destruct E as (-> & Hh2 & Hrec & Hoth). injection Hc as <- <-. cbn [fst snd].
    apply (told_moved l w _ m m' t _ _ (S n) n); [done|done| |done|done| |lia].
    + rewrite Hh2. by destruct n.
    + change (mtx_unlock 0) with 0. told_steps.
  - pose proof (told_holder l w m' t (Ht m') ltac:(lia)) as Hh. rewrite Hrules in Hh.
    destruct (block_law w t c m' Hh) as (Hh2 & Hrec & Hoth). injection Hc as <- <-.
    apply (told_moved l w _ m m' t _ _ 1 0); [done|done|done|done|done| |lia]. told_steps.
  - destruct (pthread_cond_wake w t c m') as [[ret w2]|] eqn:E; [|done]. injection Hc as <- <-.
    destruct (wake_law w t c m' ret w2 E) as (Hh & Hh2 & Hrec & Hoth).
    apply (told_moved l w _ m m' t _ _ 0 1); [done|done|done|done|done| |lia]. told_steps.
  - destruct (pthread_cond_wake w t c m') as [[ret w2]|] eqn:E; [|done]. injection Hc as <- <-.
    destruct (wake_law w t c m' ret w2 E) as (Hh & Hh2 & Hrec & Hoth).
    apply (told_moved l w _ m m' t _ _ 0 1); [done|done|done|done|done| |lia]. told_steps.
  - injection Hc as <- <-. destruct (signal_law w c) as [[Hr Hh] _]. apply (told_other l w); [done|done|done|]. told_steps.
  - injection Hc as <- <-. destruct (signal_law w c) as [_ [Hr Hh]]. apply (told_other l w); [done|done|done|]. told_steps.
Qed.

Lemma runs_told w0 l w : (forall m, holder w0 m = None) -> runs w0 l w -> forall m, told l w m.
Proof.
  intros Hfree Hr. induction Hr as [|l w t c r w' Hr IH Hrules Hc].
  - intros m. split; rewrite Hfree; done.
  - by apply (told_step l w t c r w').
Qed.

(** However the calls of the threads interleave: as long as each unlocks, and
    waits with, only what it has locked by the results it got, no two of them
    have locked the same mutex, one that is not recursive is locked at most
    once, a lock of it by a thread that has locked it does not succeed, and
    [mtx_trylock] of a mutex another thread has locked is [thrd_busy]. *)
Theorem mutual_exclusion w0 l w m : (forall m, holder w0 m = None) -> runs w0 l w ->
  (forall t t', (0 < depth t m l)%nat -> (0 < depth t' m l)%nat -> t = t') /\
  (recursive w m = false -> forall t, (depth t m l <= 1)%nat) /\
  (forall t, (0 < depth t m l)%nat ->
     (recursive w m = false -> forall r w', c_call w t (MtxLock m) = Some (r, w') -> r = thrd_error) /\
     (recursive w m = true -> is_Some (c_call w t (MtxLock m))) /\
     (forall t' r w', t' <> t -> c_call w t' (MtxTrylock m) = Some (r, w') -> r = thrd_busy)).
Proof.
  intros Hfree Hr. pose proof (runs_told w0 l w Hfree Hr m) as Ht. split; [|split].
  - intros t t' H1 H2. apply (told_holder l w m t Ht) in H1. apply (told_holder l w m t' Ht) in H2. congruence.
  - intros Hrec t. destruct (decide (depth t m l = 0%nat)) as [|Hd]; [lia|].
    pose proof (told_holder l w m t Ht ltac:(lia)) as Hh. destruct Ht as [_ Hn]. destruct (Hn _ _ Hh) as [_ ->]; [lia|done].
  - intros t Hd. pose proof (told_holder l w m t Ht Hd) as Hh. split; [|split].
    + intros Hrec r w'. cbn [c_call]. destruct (pthread_mutex_lock w t m) as [[ret w2]|] eqn:E; [|done]. intros [= <- <-].
      apply lock_law in E as (_ & _ & E). destruct (decide (ret = 0)) as [He|He].
      * destruct E as [[? _]|[? _]]; congruence.
      * cbn. unfold mtx_lock, result. by rewrite (proj2 (Z.eqb_neq ret 0)).
    + intros Hrec. cbn [c_call]. destruct (lock_again w t m _ Hrec Hh) as [[ret w2] ->]. by eexists.
    + intros t' r w' Hne. cbn [c_call]. pose proof (trylock_law w t' m) as E.
      destruct (pthread_mutex_trylock w t' m) as [ret w2]. intros [= <- <-]. destruct E as (_ & _ & E).
      destruct (decide (ret = 0)) as [He|He].
      * destruct E as [[? _]|[_ (n & Hn & _)]]; [congruence|]. rewrite Hh in Hn. congruence.
      * cbn. unfold mtx_trylock. by rewrite (proj2 (Z.eqb_neq ret 0)).
Qed.

(** [mtx_init] makes a mutex that is recursive exactly when its type says so. *)
Lemma mtx_init_type w m type : let '(r, w') := c_mtx_init w m type in
  r = thrd_success -> holder w' m = None /\ recursive w' m = Z.odd type.
Proof.
  unfold c_mtx_init. pose proof (init_law w m (negb (Z.land type mtx_recursive =? 0))) as E.
  destruct (pthread_mutex_init _ _ _) as [ret w']. intros Hs%(proj1 (result_success _)). destruct (E Hs) as [-> ->].
  split; [done|]. unfold mtx_recursive. change 1 with (Z.ones 1). rewrite Z.land_ones by lia.
  change (2 ^ 1) with 2. rewrite Zmod_odd. by destruct (Z.odd type).
Qed.

(** *** Values of threads, and functions called once *)

(** A new key has the value null in every thread; a thread that sets it finds
    its value, and the others keep theirs. *)
Theorem tss_values w t k v : 
  (let '(r, k, w') := c_tss_create w in r = thrd_success -> forall t', c_tss_get w' t' k = 0) /\
  (let '(r, w') := c_tss_set w t k v in
     (r = thrd_success -> c_tss_get w' t k = v) /\
     (forall t' k', t' <> t \/ k' <> k \/ r <> thrd_success -> c_tss_get w' t' k' = c_tss_get w t' k')).
Proof.
  unfold c_tss_create, c_tss_set, c_tss_get, tss_create, tss_set. split.
  - pose proof (key_law w) as E. destruct (pthread_key_create w) as [[ret k'] w']. intros Hs%(proj1 (result_success _)). by apply E.
  - pose proof (specific_law w t k v) as E. destruct (pthread_setspecific w t k v) as [ret w']. split.
    + intros Hs%(proj1 (result_success _)). rewrite E. by rewrite decide_True.
    + intros t' k' Hor. rewrite E. rewrite decide_False; [done|]. rewrite result_success in Hor. tauto.
Qed.

(** The flags given to [call_once] in a run, with whether it called the function *)
Fixpoint once_calls w (l : list nat) : list (nat * bool) :=
  match l with
  | [] => []
  | f :: l => let '(b, w') := c_call_once w f in (f, b) :: once_calls w' l
  end.

(** The function of a flag is called by the first of its calls, and by no other. *)
Theorem called_once l : forall w f, once_done w f = false ->
  length (List.filter (fun x => Nat.eqb f x.1 && x.2) (once_calls w l)) = if decide (f ∈ l) then 1%nat else 0%nat.
Proof.
  assert (forall l w f, once_done w f = true -> List.filter (fun x => Nat.eqb f x.1 && x.2) (once_calls w l) = []) as Hdone.
  { clear l. induction l as [|g l IH]; intros w f Hf; [done|]. cbn [once_calls]. unfold c_call_once.
    pose proof (once_law w g) as E. destruct (pthread_once w g) as [b w']. destruct E as [-> E]. cbn.
    destruct (Nat.eqb_spec f g) as [-> |Hne]; cbn; [rewrite Hf; cbn|]; apply IH; rewrite E; by case_decide. }
  induction l as [|g l IH]; intros w f Hf; [done|]. cbn [once_calls]. unfold c_call_once.
  pose proof (once_law w g) as E. destruct (pthread_once w g) as [b w']. destruct E as [-> E]. cbn.
  destruct (Nat.eqb_spec f g) as [-> |Hne]; cbn.
  - rewrite Hf. cbn. rewrite Hdone by (rewrite E; by rewrite decide_True). rewrite decide_True by left. done.
  - rewrite IH by (rewrite E; by rewrite decide_False). case_decide as H1; case_decide as H2; try done.
    + exfalso. apply H2. by right.
    + exfalso. apply H1. by apply elem_of_cons in H2 as [?|?].
Qed.

End laws.

(** ** A system that keeps the promises *)

(** As in Linux *)
#[local] Instance linux : Errno := {| EINTR := 4; ETIMEDOUT := 110 |}.

Record Sys : Type := MkSys {
  sys_holder : nat -> option (nat * nat);
  sys_recursive : nat -> bool;
  sys_values : nat -> nat -> Z;
  sys_keys : nat;
  sys_once : nat -> bool
}.

Definition at_nat {A} (f : nat -> A) (k : nat) (v : A) : nat -> A := fun j => if decide (j = k) then v else f j.
Definition set_holder (w : Sys) (m : nat) (h : option (nat * nat)) : Sys :=
  MkSys (at_nat (sys_holder w) m h) (sys_recursive w) (sys_values w) (sys_keys w) (sys_once w).

(** EBUSY, and EDEADLK for a plain mutex the thread has locked itself *)
Definition sys_lock (w : Sys) (t m : nat) (busy : Z * Sys) : Z * Sys :=
  match sys_holder w m with
  | None => (0, set_holder w m (Some (t, 1%nat)))
  | Some (t', n) =>
      if Nat.eqb t t' then if sys_recursive w m then (0, set_holder w m (Some (t, S n))) else (35, w)
      else busy
  end.

#[export] Instance sys_pthreads : Pthreads Sys := {
  pthread_mutex_init w m r := (0, MkSys (at_nat (sys_holder w) m None) (at_nat (sys_recursive w) m r) (sys_values w) (sys_keys w) (sys_once w));
  pthread_mutex_lock w t m :=
    match sys_holder w m with
    | Some (t', _) => if Nat.eqb t t' then Some (sys_lock w t m (16, w)) else None
    | None => Some (sys_lock w t m (16, w))
    end;
  pthread_mutex_timedlock w t m := Some (sys_lock w t m (ETIMEDOUT, w));
  pthread_mutex_trylock w t m := sys_lock w t m (16, w);
  pthread_mutex_unlock w t m :=
    match sys_holder w m with
    | Some (t', S n) => (0, set_holder w m (match n with O => None | S _ => Some (t', n) end))
    | _ => (1, w)
    end;
  pthread_mutex_destroy w m := w;
  pthread_cond_block w t c m := set_holder w m None;
  pthread_cond_wake w t c m := match sys_holder w m with None => Some (0, set_holder w m (Some (t, 1%nat))) | Some _ => None end;
  pthread_cond_signal w c := (0, w);
  pthread_cond_broadcast w c := (0, w);
  pthread_key_create w := (0, sys_keys w, MkSys (sys_holder w) (sys_recursive w)
    (fun t k => if Nat.eqb k (sys_keys w) then 0 else sys_values w t k) (S (sys_keys w)) (sys_once w));
  pthread_getspecific w t k := sys_values w t k;
  pthread_setspecific w t k v := (0, MkSys (sys_holder w) (sys_recursive w)
    (at_nat (sys_values w) t (at_nat (sys_values w t) k v)) (sys_keys w) (sys_once w));
  pthread_key_delete w k := w;
  pthread_once w f := (negb (sys_once w f), MkSys (sys_holder w) (sys_recursive w) (sys_values w) (sys_keys w) (at_nat (sys_once w) f true));
  holder := sys_holder;
  recursive := sys_recursive;
  once_done := sys_once
}.

Lemma at_nat_eq {A} (f : nat -> A) k v : at_nat f k v k = v.
Proof. unfold at_nat. by case_decide. Qed.
Lemma at_nat_ne {A} (f : nat -> A) k v j : j <> k -> at_nat f k v j = f j.
Proof. unfold at_nat. by case_decide. Qed.

Lemma sys_lock_outcome w t m e : e <> 0 -> let '(ret, w') := sys_lock w t m (e, w) in lock_outcome w t m ret w'.
Proof.
  intros He. unfold sys_lock. destruct (sys_holder w m) as [[t' n]|] eqn:Eh.
  - destruct (Nat.eqb_spec t t') as [<-|]; [destruct (sys_recursive w m) eqn:Er|]; (split; [done|split; [|]]); try done.
    + intros m' Hne. by apply at_nat_ne.
    + cbn. right. split; [done|]. exists n. by rewrite at_nat_eq.
    + by rewrite decide_False.
  - split; [done|]. split; [intros m' Hne; by apply at_nat_ne|]. cbn. left. by rewrite at_nat_eq.
Qed.

#[export] Instance sys_laws : PthreadsLaws Sys.
Proof.
  split.
  - intros w m r. cbn. by rewrite !at_nat_eq.
  - intros w t m ret w'. cbn. pose proof (sys_lock_outcome w t m 16 ltac:(done)) as Ho.
    destruct (sys_lock w t m (16, w)) as [r w2]. destruct (sys_holder w m) as [[t' n]|]; [destruct (Nat.eqb t t')|]; by intros [= <- <-].
  - intros w t m n Hr Hh. cbn in *. rewrite Hh, Nat.eqb_refl. by eexists.
  - intros w t m ret w'. cbn. pose proof (sys_lock_outcome w t m 110 ltac:(done)) as Ho.
    destruct (sys_lock w t m (110, w)) as [r w2]. by intros [= <- <-].
  - intros w t m. apply (sys_lock_outcome w t m 16). done.
  - intros w t m n Hh. cbn in *. rewrite Hh. split; [done|]. cbn. rewrite at_nat_eq. split; [by destruct n|].
    split; [done|]. intros m' Hne. by apply at_nat_ne.
  - intros w t c m Hh. cbn. rewrite at_nat_eq. split; [done|]. split; [done|]. intros m' Hne. by apply at_nat_ne.
  - intros w t c m ret w'. cbn. destruct (sys_holder w m) eqn:Eh; [done|]. intros [= <- <-]. cbn. rewrite at_nat_eq.
    split; [done|]. split; [done|]. split; [done|]. intros m' Hne. by apply at_nat_ne.
  - done.
  - intros w _ t. cbn. by rewrite Nat.eqb_refl.
  - intros w t k v t' k'. cbn. destruct (decide (t' = t)) as [-> |Hne].
    + rewrite at_nat_eq. destruct (decide (k' = k)) as [-> |Hne]; [by rewrite at_nat_eq, decide_True|].
      rewrite at_nat_ne, decide_False by tauto. done.
    + rewrite at_nat_ne, decide_False by tauto. done.
  - intros w f. cbn. done.
Qed.

(** Two threads and one plain mutex: the second is told that it is busy. *)
Definition idle : Sys := MkSys (fun _ => None) (fun _ => false) (fun _ _ => 0) 0 (fun _ => false).

Lemma mutual_exclusion_witness :
  let l := [(0%nat, MtxLock 5, thrd_success)] in
  exists w, runs idle l w /\ c_call w 1 (MtxTrylock 5) = Some (thrd_busy, w) /\
    (forall t t', (0 < depth t 5 l)%nat -> (0 < depth t' 5 l)%nat -> t = t').
Proof.
  intros l. exists (set_holder idle 5 (Some (0%nat, 1%nat))).
  assert (runs idle l (set_holder idle 5 (Some (0%nat, 1%nat)))) as Hr.
  { change l with ([] ++ l). eapply runs_call; [apply runs_nil|done|done]. }
  split; [done|]. split; [done|].
  by apply (mutual_exclusion idle l (set_holder idle 5 (Some (0%nat, 1%nat))) 5).
Defined.
