(* ===== verification/CoThreads.v ===== *)
(** * The threads of [cmake/coroutine/main.c]

    [main] creates ten threads, each of which runs [worker] with an environment
    of its own, and joins them one after the other.  The threads share nothing
    but the standard output, which takes whole lines; the allocator answers
    each of them in its own way. *)

From S2P Require Import Prelude Words Monad Ctx Coroutine CoMain CoLive C11Threads.

Local Open Scope Z_scope.

(** ** main *)

Definition N : nat := 10.

Section threads.
(** What the allocator answers to the thread [i], and what [thrd_create] returns
    for it *)
Variable malloc_result : nat -> nat -> option Z.
Variable create_ret : nat -> Z.

(** What the thread [i] prints *)
Definition thread_lines (i : nat) : res (list line) :=
  match worker (malloc_result i) 20 thread_start with OK (_, s) => OK (world s) | Er e => Er e end.

(** The threads created so far, each with the lines it has still to print, or
    none when [ar_id[i]] was not written *)
Record state : Type := MkState {
  threads : list (option (res (list line)));
  joined : nat;
  out : list (nat * line)
}.

Inductive step (s : state) : res state -> Prop :=
  | step_create i : i = length (threads s) -> (i < N)%nat ->
      step s (OK (MkState (threads s ++ [if thrd_create (create_ret i) =? thrd_success then Some (thread_lines i) else None])
        (joined s) (out s)))
  | step_print i l ls : threads s !! i = Some (Some (OK (l :: ls))) ->
      step s (OK (MkState (<[i := Some (OK ls)]> (threads s)) (joined s) (out s ++ [(i, l)])))
  | step_fault i e : threads s !! i = Some (Some (Er e)) -> step s (Er e)
  | step_join : length (threads s) = N -> threads s !! joined s = Some (Some (OK [])) ->
      step s (OK (MkState (threads s) (S (joined s)) (out s)))
  | step_join_none : length (threads s) = N -> threads s !! joined s = Some None -> step s (Er Uninit).

Definition main_start : state := MkState [] 0 [].

Inductive reachable : state -> Prop :=
  | reach_start : reachable main_start
  | reach_step s s' : reachable s -> step s (OK s') -> reachable s'.

(** *** Properties *)

(** The lines of the thread [i] among those printed *)
Definition lines_of (i : nat) (o : list (nat * line)) : list line := omap (fun '(j, l) => if decide (j = i) then Some l else None) o.

(** What is left to do: a created thread has its lines left, a thread not yet
    created its creation too *)
Definition work (t : option (res (list line))) : nat := match t with Some (OK ls) => length ls | _ => 0 end.
Definition uncreated (n : nat) : nat := list_sum (map (fun i => S (work (Some (thread_lines i)))) (seq n (N - n))).
Definition measure (s : state) : nat :=
  (uncreated (length (threads s)) + list_sum (map work (threads s)) + (N - joined s))%nat.

(** Each thread has printed the first of its lines; one that faults, or that was
    not created, none. *)
Definition thread_ok (o : list (nat * line)) (i : nat) (t : option (res (list line))) : Prop :=
  match t with
  | Some (OK ls) => create_ret i = 0 /\ thread_lines i = OK (lines_of i o ++ ls)
  | Some (Er e) => create_ret i = 0 /\ thread_lines i = Er e /\ lines_of i o = []
  | None => create_ret i <> 0 /\ lines_of i o = []
  end.

Record inv (s : state) : Prop := {
  inv_threads : forall i t, threads s !! i = Some t -> thread_ok (out s) i t;
  inv_new : forall i, (length (threads s) <= i)%nat -> lines_of i (out s) = [];
  inv_count : (length (threads s) <= N)%nat /\ (joined s <= N)%nat;
  inv_joined : forall i, (i < joined s)%nat -> threads s !! i = Some (Some (OK []))
}.

Lemma lines_of_app i o j l : lines_of i (o ++ [(j, l)]) = lines_of i o ++ (if decide (j = i) then [l] else []).
Proof. unfold lines_of. rewrite omap_app. cbn. by destruct (decide (j = i)). Qed.

Lemma thread_ok_other o i j l t : j <> i -> thread_ok o i t -> thread_ok (o ++ [(j, l)]) i t.
Proof.
  intros Hne. assert (lines_of i (o ++ [(j, l)]) = lines_of i o) as Heq
    by (by rewrite lines_of_app, decide_False, app_nil_r).
  unfold thread_ok. by rewrite Heq.
Qed.

Lemma uncreated_step n : (n < N)%nat -> uncreated n = (S (work (Some (thread_lines n))) + uncreated (S n))%nat.
Proof. intros Hn. unfold uncreated. replace (N - n)%nat with (S (N - S n)) by lia. done. Qed.

Lemma work_insert (ts : list (option (res (list line)))) i l ls : ts !! i = Some (Some (OK (l :: ls))) ->
  list_sum (map work ts) = S (list_sum (map work (<[i := Some (OK ls)]> ts))).
Proof.
  intros Hi. rewrite <- (take_drop_middle _ _ _ Hi) at 1. pose proof (lookup_lt_Some _ _ _ Hi).
  rewrite insert_take_drop, !map_app, !list_sum_app by done. cbn. lia.
Qed.

(** What a step can come to: a state with less work left, the join of a thread
    that was not created, or the fault of a thread *)
Definition outcome (s : state) (r : res state) : Prop :=
  (exists s', r = OK s' /\ (measure s' < measure s)%nat) \/
  (r = Er Uninit /\ exists i, (i < N)%nat /\ create_ret i <> 0) \/
  (exists i e, (i < N)%nat /\ create_ret i = 0 /\ thread_lines i = Er e /\ r = Er e).

Lemma inv_create s : inv s -> (length (threads s) < N)%nat ->
  let t := if thrd_create (create_ret (length (threads s))) =? thrd_success then Some (thread_lines (length (threads s))) else None in
  let s' := MkState (threads s ++ [t]) (joined s) (out s) in
  inv s' /\ (measure s' < measure s)%nat.
Proof.
  intros [Ht Hn [Hc1 Hc2] Hj] Hi. cbv zeta. split.
  - split; cbn [threads joined out].
    + intros i t [Hit|[Hle Hit]]%lookup_app_Some; [by apply Ht|].
      apply list_lookup_singleton_Some in Hit as [Heq <-]. assert (i = length (threads s)) as -> by lia.
      specialize (Hn _ (Nat.le_refl _)). unfold thrd_create, result, thrd_success.
      destruct (Z.eqb_spec (create_ret (length (threads s))) 0); cbn; [|done].
      by destruct (thread_lines _) as [ls|]; cbn; rewrite Hn.
    + intros i. rewrite length_app. cbn. intros Hle. apply Hn. lia.
    + rewrite length_app. cbn. lia.
    + intros i Hlt. apply lookup_app_l_Some. by apply Hj.
  - unfold measure. cbn [threads joined]. rewrite map_app, list_sum_app, length_app, (uncreated_step (length (threads s))) by done.
    cbn [length map list_sum foldr]. rewrite Nat.add_1_r. destruct (_ =? _); cbn [work list_sum foldr]; lia.
Qed.

Lemma inv_print s i l ls : inv s -> threads s !! i = Some (Some (OK (l :: ls))) ->
  let s' := MkState (<[i := Some (OK ls)]> (threads s)) (joined s) (out s ++ [(i, l)]) in
  inv s' /\ (measure s' < measure s)%nat.
Proof.
  intros [Ht Hn Hc Hj] Hi. cbv zeta. pose proof (lookup_lt_Some _ _ _ Hi) as Hlt. split.
  - split; cbn [threads joined out]; rewrite ?length_insert; [..|done|].
    + intros j t [(-> & <- & _)|[Hne Hjt]]%list_lookup_insert_Some; [|by apply thread_ok_other, Ht].
      cbn [thread_ok]. rewrite lines_of_app, decide_True, <- app_assoc by done. exact (Ht _ _ Hi).
    + intros j Hle. rewrite lines_of_app, decide_False, app_nil_r by lia. by apply Hn.
    + intros j Hlt'. specialize (Hj j Hlt'). rewrite list_lookup_insert_ne; [done|]. congruence.
  - unfold measure. cbn [threads joined]. rewrite length_insert. pose proof (work_insert _ _ _ _ Hi). lia.
Qed.

Lemma thread_inv_step s r : inv s -> step s r ->
  outcome s r /\ (forall s', r = OK s' -> inv s').
Proof.
  intros Hinv Hstep. pose proof Hinv as [Ht Hn [Hc1 Hc2] Hj].
  destruct Hstep as [i -> Hi|i l ls Hi|i e Hi|Hlen Hi|Hlen Hi].
  - destruct (inv_create s Hinv Hi) as [? ?]. split; [left; eauto|by intros ? [= <-]].
  - destruct (inv_print s i l ls Hinv Hi) as [? ?]. split; [left; eauto|by intros ? [= <-]].
  - destruct (Ht _ _ Hi) as (? & ? & _). split; [|done]. right. right. exists i, e.
    apply lookup_lt_Some in Hi. split; [lia|done].
  - pose proof (lookup_lt_Some _ _ _ Hi) as Hlt. split.
    + left. eexists. split; [reflexivity|]. unfold measure. cbn [threads joined]. lia.
    + intros s' [= <-]. split; cbn [threads joined out]; [done|done|lia|].
      intros i Hlt'. destruct (decide (i = joined s)) as [->|]; [done|]. apply Hj. lia.
  - split; [|done]. right. left. split; [done|]. exists (joined s).
    split; [apply lookup_lt_Some in Hi; lia|]. by destruct (Ht _ _ Hi).
Qed.

Lemma thread_inv_reachable s : reachable s -> inv s.
Proof.
  induction 1 as [|s s' _ IH Hstep]; [split; cbn; [done|done|lia|lia]|].
  by apply (thread_inv_step s _ IH Hstep).
Qed.

(** All that a thread prints, when it does not fault *)
Definition allocates (i : nat) : Prop :=
  (forall n, is_Some (malloc_result i n)) /\ (forall a, malloc_result i 0%nat = Some a -> 0 <= a < 2 ^ 63).
Definition lacks (i k : nat) : Prop :=
  malloc_result i k = None /\ (forall j, (j < k)%nat -> is_Some (malloc_result i j)).

Lemma thread_expected i : allocates i -> thread_lines i = OK expected.
Proof.
  intros [Hmalloc Haddr]. unfold thread_lines. destruct (Hmalloc 0%nat) as [a Ha].
  destruct (worker_runs (malloc_result i) a Hmalloc Ha (Haddr a Ha)) as (s & -> & -> & _). done.
Qed.

Lemma thread_silent i k : (k < 5)%nat -> lacks i k -> thread_lines i = OK [].
Proof.
  intros Hk [Hnull Hsome]. unfold thread_lines.
  destruct (worker_null (malloc_result i) k Hk Hnull Hsome) as (s & -> & -> & _). done.
Qed.

(** C15: however the threads run, whatever [malloc] answers each of them and
    whichever of them cannot be created, each thread prints the lines of its
    [worker] in order, all of them before it is joined; a thread prints the lines
    of its ten coroutines, round robin, when its allocations succeed, and nothing
    when one of the first five of them fails (those of [co_open] and [test]).
    Until all threads are joined there is a step, and each step leaves less work.
    Two things go wrong: [main] does not look at the result of [thrd_create] and
    joins a thread whose number was never written, and a [worker] that faults
    (as one may when a later allocation fails, in [co_new] or in the saving of a
    stack) takes the program with it. *)
Theorem main_threads s : reachable s ->
  (forall i ls, thread_lines i = OK ls -> exists rest, lines_of i (out s) ++ rest = ls) /\
  (forall i, (i < joined s)%nat -> create_ret i = 0 /\ thread_lines i = OK (lines_of i (out s))) /\
  (forall i, allocates i -> thread_lines i = OK expected) /\
  (forall i k, (k < 5)%nat -> lacks i k -> thread_lines i = OK []) /\
  ((joined s < N)%nat -> exists r, step s r) /\
  (forall r, step s r -> outcome s r).
Proof.
  intros Hr. pose proof (thread_inv_reachable s Hr) as Hinv. pose proof Hinv as [Ht Hn [Hc1 Hc2] Hj].
  split; [|split; [|split; [|split; [|split]]]].
  - intros i ls Hls. destruct (threads s !! i) as [t|] eqn:Hi; [|exists ls; rewrite Hn; [done|by apply lookup_ge_None]].
    specialize (Ht i t Hi). destruct t as [[ls'|e]|].
    + exists ls'. destruct Ht. congruence.
    + destruct Ht as (_ & ? & _). congruence.
    + exists ls. by destruct Ht as [_ ->].
  - intros i Hi. destruct (Ht i _ (Hj i Hi)) as [? H]. by rewrite app_nil_r in H.
  - apply thread_expected.
  - apply thread_silent.
  - intros Hlt. destruct (decide (length (threads s) < N)%nat) as [Hlen|Hlen].
    { eexists. by eapply step_create. }
    destruct (lookup_lt_is_Some_2 (threads s) (joined s)) as [t Hi]; [lia|].
    destruct t as [[[|l ls]|]|].
    + eexists. apply step_join; [lia|done].
    + eexists. by eapply step_print.
    + eexists. by eapply step_fault.
    + eexists. apply step_join_none; [lia|done].
  - intros r Hstep. by apply thread_inv_step.
Qed.

End threads.

Definition good_threads (i n : nat) : option Z := if decide (i = 2 /\ 2 <= n)%nat then None else Some (2 ^ 20).

Lemma main_threads_witness :
  reachable good_threads (fun _ => 0) main_start /\ (exists r, step good_threads (fun _ => 0) main_start r) /\
  thread_lines good_threads 1 = OK expected /\ thread_lines good_threads 2 = OK [].
Proof.
  split; [apply reach_start|].
  destruct (main_threads good_threads (fun _ => 0) main_start) as (_ & _ & Hall & Hnone & H & _); [apply reach_start|].
  split; [apply H; unfold N; cbn; lia|]. split.
  - apply Hall. split; [intros n; by eexists|intros a [= <-]; lia].
  - apply (Hnone 2%nat 2%nat); [lia|]. split; [done|]. intros j Hj. unfold good_threads.
    rewrite decide_False by lia. by eexists.
Defined.
