(* ===== verification/RpcBuffer.v ===== *)
(** * Buffers, readers and sockets of [cmake/rpc_c]

    The message buffer and the reader of rpc_util.c, and the bytes that travel
    over a socket.  A socket delivers its input in chunks: one [read] returns
    at most the rest of one chunk, and nothing at the end of the stream or when
    the chunk is empty (the peer has closed, or the timeout has passed). *)

From S2P Require Import Prelude Words Monad Bytes.

Local Open Scope Z_scope.
Local Open Scope st_scope.

(** ** State

    [nalloc] counts the allocations made so far (and so selects the answer of
    the allocator), [nlive] the blocks not yet freed; [inp] is what the socket
    will still deliver, [outp] what has been written to it, [nwrite] the number
    of writes, [nsock] the number of open sockets. *)
Record St : Type := MkSt {
  nalloc : nat;
  nlive : Z;
  inp : list (list Z);
  outp : list Z;
  nwrite : nat;
  nsock : Z
}.

Definition set_heap (s : St) a l := MkSt a l (inp s) (outp s) (nwrite s) (nsock s).
Definition set_inp (s : St) i := MkSt (nalloc s) (nlive s) i (outp s) (nwrite s) (nsock s).
Definition set_out (s : St) o n := MkSt (nalloc s) (nlive s) (inp s) o n (nsock s).
Definition set_sock (s : St) n := MkSt (nalloc s) (nlive s) (inp s) (outp s) (nwrite s) n.

(** [struct buffer]: the first [len] bytes of [data], and [cap] *)
Record buffer : Type := Buf { b_data : list Z; b_cap : Z }.
Definition b_len (b : buffer) : Z := Z.of_nat (length (b_data b)).

(** [struct reader] *)
Record reader : Type := Reader { r_data : list Z; r_pos : Z }.
Definition r_len (r : reader) : Z := Z.of_nat (length (r_data r)).

Section rpc.
Variable malloc_ok : nat -> bool.
Variable write_result : nat -> Z -> Z.
Notation ST := (ST St).

Definition alloc : ST bool := fun s =>
  OK (malloc_ok (nalloc s),
      set_heap s (S (nalloc s)) (nlive s + if malloc_ok (nalloc s) then 1 else 0)).
Definition realloc : ST bool := fun s => OK (malloc_ok (nalloc s), set_heap s (S (nalloc s)) (nlive s)).
Definition free : ST unit := fun s => OK (tt, set_heap s (nalloc s) (nlive s - 1)).

(** ** Buffers *)

Definition buffer_new (initial_cap : Z) : ST (option buffer) :=
  let* p := alloc in
  if negb p then s_ret None else
  let* d := alloc in
  if negb d then free ;* s_ret None else
  s_ret (Some (Buf [] initial_cap)).

Definition buffer_free (b : option buffer) : ST unit :=
  match b with
  | Some _ => free ;* free
  | None => s_ret tt
  end.

(** The [memcpy] to the end of the data, which holds [cap] bytes *)
Definition append_at (b : buffer) (cap : Z) (src : list Z) : ST (Z * buffer) :=
  if b_len b + Z.of_nat (length src) <=? cap then s_ret (0, Buf (b_data b ++ src) cap)
  else s_fail OutOfBounds.

Definition buffer_append (b : buffer) (src : list Z) : ST (Z * buffer) :=
  let need := u64 (b_len b + Z.of_nat (length src)) in
  if b_cap b <? need then
    let new_cap := u64 (b_cap b * 2) in
    let new_cap := if new_cap <? need then need else new_cap in
    let* ok := realloc in
    if negb ok then s_ret (-1, b) else append_at b new_cap src
  else append_at b (b_cap b) src.

Definition buffer_append_U32 (b : buffer) (val : Z) : ST (Z * buffer) :=
  buffer_append b (le_bytes 4 val).
Definition buffer_append_U8 (b : buffer) (val : Z) : ST (Z * buffer) :=
  buffer_append b (le_bytes 1 val).

Definition buffer_append_string (b : buffer) (str : list Z) : ST (Z * buffer) :=
  let* r := buffer_append_U32 b (Z.of_nat (length str)) in
  if fst r <? 0 then s_ret (-1, snd r) else buffer_append (snd r) str.

(** A statement that ignores the code an append returns *)
Definition just (c : ST (Z * buffer)) : ST buffer := let* r := c in s_ret (snd r).

(** ** Readers *)

Definition reader_init (data : list Z) : reader := Reader data 0.

(** The bytes read and the reader after them; [None] for the code -1, which
    leaves the reader and the destination unchanged *)
Definition reader_read_bytes (r : reader) (n : Z) : option (list Z * reader) :=
  if r_len r <? u64 (r_pos r + n) then None
  else Some (take (Z.to_nat n) (drop (Z.to_nat (r_pos r)) (r_data r)),
             Reader (r_data r) (r_pos r + n)).

Definition reader_read_uint32 (r : reader) : option (Z * reader) :=
  match reader_read_bytes r 4 with
  | Some (l, r) => Some (le_value l, r)
  | None => None
  end.
Definition reader_read_uint8 (r : reader) : option (Z * reader) :=
  match reader_read_bytes r 1 with
  | Some (l, r) => Some (le_value l, r)
  | None => None
  end.

(** ** Sockets *)

(** The count [read] is given: the [size_t] passed through an [int] *)
Definition int_count (n : Z) : Z :=
  let k := u32 n in if k <? 2 ^ 31 then k else k + (2 ^ 64 - 2 ^ 32).

(** [read(s, p, n)]: the bytes delivered, none at the end of the stream *)
Definition read_sock (n : Z) : ST (list Z) := fun s =>
  match inp s with
  | [] => OK ([], s)
  | c :: rest =>
      let k := Z.to_nat (int_count n) in
      let rest' := match drop k c with [] => rest | d => d :: rest end in
      OK (take k c, set_inp s rest')
  end.

(** [write(s, p, n)]: the first bytes, as many as the system accepts *)
Definition write_sock (l : list Z) : ST Z := fun s =>
  let n := write_result (nwrite s) (Z.of_nat (length l)) in
  OK (n, set_out s (outp s ++ take (Z.to_nat n) l) (S (nwrite s))).

Definition close_sock : ST unit := s_mod (fun s => set_sock s (nsock s - 1)).

(** The loop of [read_sock_until], with [remain] bytes still to come; every
    round that goes on has read at least one byte. *)
Fixpoint read_loop (fuel : nat) (remain : Z) (acc : list Z) : ST (option (list Z)) :=
  if 0 <? remain then
    match fuel with
    | O => s_fail OutOfFuel
    | S fuel =>
        let* l := read_sock remain in
        match l with
        | [] => s_ret None
        | _ =>
            if remain <? Z.of_nat (length l) then s_fail OutOfBounds
            else read_loop fuel (remain - Z.of_nat (length l)) (acc ++ l)
        end
    end
  else s_ret (Some acc).

Definition read_sock_until (buf_len : Z) : ST (option (list Z)) :=
  read_loop (Z.to_nat buf_len) buf_len [].

(** [rpc_read_u32], the same in rpc_util.c and rpc_server.c: a single read
    has to deliver all four bytes. *)
Definition rpc_read_u32 : ST (option Z) :=
  let* l := read_sock 4 in
  s_ret (if Z.of_nat (length l) =? 4 then Some (le_value l) else None).

End rpc.

(** ** Properties *)

(** Only the allocator may have moved on, with as many live blocks. *)
Definition grew (s s' : St) : Prop := exists n, s' = set_heap s n (nlive s).

Lemma grew_refl s : grew s s.
Proof. exists (nalloc s). by destruct s. Qed.

Lemma grew_trans s1 s2 s3 : grew s1 s2 -> grew s2 s3 -> grew s1 s3.
Proof. intros [n ->] [n' ->]. by exists n'. Qed.

#[export] Hint Resolve grew_refl : cword.

(** The buffer holds no more than its capacity. *)
Definition buf_ok (b : buffer) : Prop := b_len b <= b_cap b.

Section facts.
Variable malloc_ok : nat -> bool.

Lemma b_len_pos b : 0 <= b_len b.
Proof. unfold b_len. lia. Qed.

(** [buffer_append] adds exactly the given bytes at the end and never leaves
    the array; the capacity never shrinks and at least doubles when it has to
    grow; if [realloc] fails the result is -1 and the buffer is unchanged. *)
Theorem buffer_append_correct (b : buffer) (src : list Z) (s : St) :
  buf_ok b -> b_cap b < 2 ^ 63 -> b_len b + Z.of_nat (length src) < 2 ^ 64 ->
  exists r b' s', buffer_append malloc_ok b src s = OK ((r, b'), s') /\ grew s s' /\
    ((r = 0 /\ b_data b' = b_data b ++ src /\ buf_ok b' /\
      (b_cap b' = b_cap b \/ 2 * b_cap b <= b_cap b')) \/
     (r = -1 /\ b' = b /\ malloc_ok (nalloc s) = false /\
      b_cap b < b_len b + Z.of_nat (length src))).
Proof.
  unfold buf_ok. intros Hb Hcap Hlen. pose proof (b_len_pos b). unfold buffer_append.
  rewrite (wrap_small 64 (b_len b + _)) by (unfold word; lia).
  rewrite (wrap_small 64 (b_cap b * 2)) by (unfold word; lia). case_if.
  - unfold s_bind, realloc, append_at. destruct (malloc_ok (nalloc s)) eqn:Hm; cbn [negb].
    + rewrite (proj2 (Z.leb_le _ _)) by (destruct (b_cap b * 2 <? _) eqn:Hn; bool_to_prop; lia).
      do 3 eexists. split; [reflexivity|]. split; [by eexists|]. left. split; [done|]. split; [done|].
      unfold b_len. cbn [b_data b_cap]. rewrite length_app. unfold b_len in *.
      destruct (b_cap b * 2 <? _) eqn:Hn; bool_to_prop; lia.
    + do 3 eexists. split; [reflexivity|]. split; [by eexists|]. right. done.
  - unfold append_at. rewrite (proj2 (Z.leb_le _ _)) by lia.
    do 3 eexists. split; [reflexivity|]. split; [apply grew_refl|]. left.
    unfold b_len in *. cbn [b_data b_cap]. rewrite length_app. split; [done|]. split; [done|]. lia.
Qed.

(** The same with an allocator that does not fail, for use in chains of appends *)
Hypothesis Hok : forall n, malloc_ok n = true.

Lemma append_ok (b : buffer) (src : list Z) (s : St) :
  buf_ok b -> b_len b + Z.of_nat (length src) < 2 ^ 64 ->
  exists cap s', buffer_append malloc_ok b src s = OK ((0, Buf (b_data b ++ src) cap), s') /\
    grew s s' /\ buf_ok (Buf (b_data b ++ src) cap).
Proof.
  unfold buf_ok. intros Hb Hlen. pose proof (b_len_pos b). unfold buffer_append.
  rewrite (wrap_small 64 (b_len b + _)) by (unfold word; lia).
  assert (b_len (Buf (b_data b ++ src) 0) = b_len b + Z.of_nat (length src)) as Hl
    by (unfold b_len; cbn [b_data]; rewrite length_app; lia).
  case_if.
  - unfold s_bind, realloc, append_at. rewrite Hok. cbn [negb].
    rewrite (proj2 (Z.leb_le _ _)) by (destruct (u64 (b_cap b * 2) <? _) eqn:Hn; bool_to_prop; lia).
    do 2 eexists. split; [reflexivity|]. split; [by eexists|].
    change (b_len (Buf (b_data b ++ src) 0) <=
      if u64 (b_cap b * 2) <? b_len b + Z.of_nat (length src) then b_len b + Z.of_nat (length src)
      else u64 (b_cap b * 2)).
    rewrite Hl. destruct (u64 (b_cap b * 2) <? _) eqn:Hn; bool_to_prop; lia.
  - unfold append_at. rewrite (proj2 (Z.leb_le _ _)) by lia.
    do 2 eexists. split; [reflexivity|]. split; [apply grew_refl|].
    change (b_len (Buf (b_data b ++ src) 0) <= b_cap b). lia.
Qed.

Lemma just_append_ok (b : buffer) (src : list Z) (s : St) :
  buf_ok b -> b_len b + Z.of_nat (length src) < 2 ^ 64 ->
  exists cap s', just (buffer_append malloc_ok b src) s = OK (Buf (b_data b ++ src) cap, s') /\
    grew s s' /\ buf_ok (Buf (b_data b ++ src) cap).
Proof.
  intros Hb Hlen. destruct (append_ok b src s Hb Hlen) as (cap & s' & Happ & Hg & Hb').
  exists cap, s'. unfold just. by rewrite (s_bind_OK _ _ _ _ _ Happ).
Qed.

End facts.

Lemma buffer_append_correct_witness :
  exists r b' s', buffer_append (fun _ => true) (Buf [1; 2] 3) [7; 8] (MkSt 0 2 [] [] 0 0) = OK ((r, b'), s') /\
    grew (MkSt 0 2 [] [] 0 0) s' /\
    ((r = 0 /\ b_data b' = [1; 2; 7; 8] /\ buf_ok b' /\ (b_cap b' = 3 \/ 2 * 3 <= b_cap b')) \/
     (r = -1 /\ b' = Buf [1; 2] 3 /\ true = false /\ 3 < 2 + 2)).
Proof.
  apply (buffer_append_correct (fun _ => true) (Buf [1; 2] 3) [7; 8] (MkSt 0 2 [] [] 0 0));
    vm_compute; congruence.
Defined.

(** *** Readers *)

(** What is left to read *)
Definition rest (r : reader) : list Z := drop (Z.to_nat (r_pos r)) (r_data r).
Definition reader_ok (r : reader) : Prop := 0 <= r_pos r <= r_len r /\ r_len r < 2 ^ 63.

Lemma rest_length r : reader_ok r -> Z.of_nat (length (rest r)) = r_len r - r_pos r.
Proof. intros [Hr _]. unfold rest, r_len in *. rewrite length_drop. lia. Qed.

(** [reader_read_bytes] delivers the next bytes exactly when so many are
    left, and moves past them; otherwise it reports an error and moves
    nothing. *)
Lemma reader_read_bytes_correct (r : reader) (n : Z) : reader_ok r -> 0 <= n < 2 ^ 63 ->
  match reader_read_bytes r n with
  | Some (l, r') => Z.of_nat (length l) = n /\ rest r = l ++ rest r' /\ reader_ok r'
  | None => Z.of_nat (length (rest r)) < n
  end.
Proof.
  intros Hr Hn. pose proof (rest_length r Hr) as Hlen. destruct Hr as [Hpos Hmax].
  unfold reader_read_bytes. rewrite wrap_small by (unfold word; lia). case_if; [lia|].
  fold (rest r). rewrite length_take. split; [lia|]. split; [|split; cbn [r_pos]; unfold r_len in *; simpl; lia].
  unfold rest at 3. cbn [r_pos r_data]. rewrite <- (take_drop (Z.to_nat n) (rest r)) at 1. f_equal.
  unfold rest. rewrite drop_drop. f_equal. lia.
Qed.

(** Reading back what was put in front *)
Lemma read_bytes_app r l l' : reader_ok r -> rest r = l ++ l' ->
  exists r', reader_read_bytes r (Z.of_nat (length l)) = Some (l, r') /\ rest r' = l' /\ reader_ok r'.
Proof.
  intros Hr Hrest. pose proof (rest_length r Hr) as Hlen. rewrite Hrest, length_app in Hlen.
  destruct Hr as [Hpos Hmax]. unfold reader_read_bytes. rewrite wrap_small by (unfold word; lia).
  case_if; [lia|]. fold (rest r). rewrite Hrest, Nat2Z.id, take_app_length.
  eexists. split; [done|]. split; [|split; cbn [r_pos]; unfold r_len in *; simpl; lia].
  unfold rest in *. cbn [r_pos r_data].
  replace (Z.to_nat (r_pos r + Z.of_nat (length l))) with (Z.to_nat (r_pos r) + length l)%nat by lia.
  by rewrite <- drop_drop, Hrest, drop_app_length.
Qed.

Lemma read_u8_app r b l' : reader_ok r -> is_byte b -> rest r = b :: l' ->
  exists r', reader_read_uint8 r = Some (b, r') /\ rest r' = l' /\ reader_ok r'.
Proof.
  intros Hr Hb Hrest. destruct (read_bytes_app r [b] l' Hr Hrest) as (r' & Hread & ? & ?).
  exists r'. unfold reader_read_uint8. change (Z.of_nat (length [b])) with 1 in Hread. rewrite Hread. simpl. by rewrite Z.add_0_r.
Qed.

Lemma reader_init_ok l : Z.of_nat (length l) < 2 ^ 63 -> reader_ok (reader_init l) /\ rest (reader_init l) = l.
Proof. intros Hl. unfold reader_ok, reader_init, r_len, rest. simpl. split; [lia|done]. Qed.

(** *** Sockets *)

(** The bytes a socket delivers before its stream pauses or ends *)
Fixpoint stream (c : list (list Z)) : list Z :=
  match c with
  | [] => []
  | [] :: _ => []
  | l :: c => l ++ stream c
  end.

Lemma int_count_small n : 0 <= n < 2 ^ 31 -> int_count n = n.
Proof.
  intros Hn. unfold int_count. rewrite wrap_small by (unfold word; lia).
  by rewrite (proj2 (Z.ltb_lt _ _)) by lia.
Qed.

(** One [read] takes something off the stream, unless the stream is empty. *)
Lemma read_sock_stream n s : 0 < n < 2 ^ 31 -> exists l i,
  read_sock n s = OK (l, set_inp s i) /\ Z.of_nat (length l) <= n /\
  if decide (l = []) then stream (inp s) = [] else stream (inp s) = l ++ stream i.
Proof.
  intros Hn. unfold read_sock. rewrite int_count_small by lia.
  destruct (inp s) as [|c rest'] eqn:Hi.
  - exists [], []. split; [destruct s; simpl in *; by subst|]. simpl. split; [lia|done].
  - do 2 eexists. split; [reflexivity|]. rewrite length_take. split; [lia|].
    destruct c as [|b c]; [by rewrite take_nil|].
    destruct (Z.to_nat n) as [|k] eqn:Hk; [lia|]. cbn [take drop]. rewrite decide_False by done.
    destruct (drop k c) as [|d l] eqn:Hd; cbn [stream app]; f_equal; rewrite <- (take_drop k c) at 1;
      rewrite Hd.
    + by rewrite app_nil_r.
    + by rewrite <- app_assoc.
Qed.

(** [read_sock_until] ends; it delivers the first [n] bytes of the stream
    however they are split into chunks, and fails exactly when the stream ends
    or pauses before. *)
Lemma read_sock_until_eq (n : Z) (s : St) : 0 <= n < 2 ^ 31 ->
  exists i, 
  read_sock_until n s =
    OK (if n <=? Z.of_nat (length (stream (inp s)))
        then Some (take (Z.to_nat n) (stream (inp s))) else None, set_inp s i) /\
  (n <= Z.of_nat (length (stream (inp s))) -> stream i = drop (Z.to_nat n) (stream (inp s))).
Proof.
  intros Hn. unfold read_sock_until.
  enough (forall fuel remain acc s, 0 <= remain < 2 ^ 31 -> remain <= Z.of_nat fuel -> exists i,
    read_loop fuel remain acc s =
      OK (if remain <=? Z.of_nat (length (stream (inp s)))
          then Some (acc ++ take (Z.to_nat remain) (stream (inp s))) else None, set_inp s i) /\
    (remain <= Z.of_nat (length (stream (inp s))) ->
     stream i = drop (Z.to_nat remain) (stream (inp s)))) as H by (apply (H _ n []); lia).
  clear. induction fuel as [|fuel IH]; intros remain acc s Hr Hf; cbn [read_loop].
  - replace remain with 0 by lia. rewrite (proj2 (Z.leb_le 0 _)) by lia. simpl.
    exists (inp s). rewrite app_nil_r. by destruct s.
  - case_if.
    + destruct (read_sock_stream remain s) as (l & i & Hread & Hl & Hs); [lia|].
      rewrite (s_bind_OK _ _ _ _ _ Hread). destruct l as [|b l].
      * rewrite decide_True in Hs by done. rewrite Hs. exists i.
        rewrite (proj2 (Z.leb_gt _ _)) by (simpl; lia). split; [done|simpl; lia].
      * rewrite decide_False in Hs by done. rewrite (proj2 (Z.ltb_ge _ _)) by lia.
        destruct (IH (remain - Z.of_nat (length (b :: l))) (acc ++ b :: l) (set_inp s i))
          as (i' & Hloop & Hi'); [lia|cbn [length] in *; lia|].
        cbn [inp set_inp] in Hloop, Hi'. exists i'. rewrite Hloop, Hs, length_app.
        assert (take (Z.to_nat remain) ((b :: l) ++ stream i) =
          (b :: l) ++ take (Z.to_nat (remain - Z.of_nat (length (b :: l)))) (stream i)) as ->.
        { rewrite take_app_ge by lia. do 2 f_equal. lia. }
        rewrite app_assoc. split.
        -- destruct (Z.leb_spec (remain - Z.of_nat (length (b :: l))) (Z.of_nat (length (stream i)))),
             (Z.leb_spec remain (Z.of_nat (length (b :: l) + length (stream i)))); done || lia.
        -- intros Hle. rewrite Hi' by lia. rewrite drop_app_ge by lia. f_equal. lia.
    + replace remain with 0 by lia. rewrite (proj2 (Z.leb_le 0 _)) by lia. simpl.
      exists (inp s). rewrite app_nil_r. by destruct s.
Qed.

(** [rpc_read_u32] needs the four bytes in one chunk. *)
Lemma rpc_read_u32_eq (s : St) (c : list Z) (cs : list (list Z)) : inp s = c :: cs ->
  exists i, rpc_read_u32 s =
    OK (if 4 <=? Z.of_nat (length c) then Some (le_value (take 4 c)) else None, set_inp s i) /\
    (4 <= Z.of_nat (length c) -> i = match drop 4 c with [] => cs | d => d :: cs end).
Proof.
  intros Hi. unfold rpc_read_u32, s_bind, read_sock. rewrite Hi.
  change (Z.to_nat (int_count 4)) with 4%nat. eexists. split; [|reflexivity]. unfold s_ret.
  rewrite length_take. destruct (Z.leb_spec 4 (Z.of_nat (length c))).
  - rewrite (proj2 (Z.eqb_eq _ _)) by lia. done.
  - rewrite (proj2 (Z.eqb_neq _ _)) by lia. done.
Qed.
