(* ===== verification/RpcWire.v ===== *)
(** * The encoding of calls in [cmake/rpc_c]

    The argument macros of rpc_c.h, [buffer_append_dt] and the parser of
    rpc_util.c.  An argument is written as one byte for its type and the bytes
    of its value: the object representation of an integer, or a 16-bit length
    and the bytes of a string or of a packed protobuf message.  What
    protobuf-c packs a message into is an input of the model. *)

From S2P Require Import Prelude Words Monad Bytes RpcBuffer.

Local Open Scope Z_scope.
Local Open Scope st_scope.

(** ** Types and values *)

Inductive data_type_t : Type :=
  | DT_UNKNOWN
  | DT_S8 | DT_U8 | DT_S16 | DT_U16 | DT_S32 | DT_U32 | DT_S64 | DT_U64
  | DT_S8P | DT_U8P | DT_S16P | DT_U16P | DT_S32P | DT_U32P | DT_S64P | DT_U64P
  | DT_S8CP | DT_U8CP | DT_S16CP | DT_U16CP | DT_S32CP | DT_U32CP | DT_S64CP | DT_U64CP
  | DT_VP | DT_CVP | DT_PB.

#[export] Instance data_type_t_eq_dec : EqDecision data_type_t.
Proof. solve_decision. Defined.

(** The enumerators in the order of the source, which is their numbering *)
Definition all_types : list data_type_t :=
  [DT_UNKNOWN; DT_S8; DT_U8; DT_S16; DT_U16; DT_S32; DT_U32; DT_S64; DT_U64;
   DT_S8P; DT_U8P; DT_S16P; DT_U16P; DT_S32P; DT_U32P; DT_S64P; DT_U64P;
   DT_S8CP; DT_U8CP; DT_S16CP; DT_U16CP; DT_S32CP; DT_U32CP; DT_S64CP; DT_U64CP;
   DT_VP; DT_CVP; DT_PB].

Fixpoint index_of (d : data_type_t) (l : list data_type_t) (i : Z) : Z :=
  match l with
  | [] => i
  | e :: l => if decide (d = e) then i else index_of d l (i + 1)
  end.
Definition dt_code (d : data_type_t) : Z := index_of d all_types 0.
Definition dt_of (b : Z) : option data_type_t :=
  if 0 <=? b then all_types !! Z.to_nat b else None.

Inductive value : Type :=
  | VInt (v : Z)                (* an integer object *)
  | VStr (s : list Z)           (* a pointer to a string: the bytes before the terminating zero *)
  | VArr (s : list Z)           (* an array that holds a string *)
  | VMsg (packed : list Z).     (* a protobuf message: what it is packed into *)

Definition is_array (v : value) : bool := match v with VArr _ => true | _ => false end.

(** An argument of a call, with the type [GET_TYPE] finds for it *)
Record arg : Type := Arg { a_type : data_type_t; a_val : value }.

(** [sizeof] of the integer types *)
Definition dt_width (d : data_type_t) : option nat :=
  match d with
  | DT_S8 | DT_U8 => Some 1%nat
  | DT_S16 | DT_U16 => Some 2%nat
  | DT_S32 | DT_U32 => Some 4%nat
  | DT_S64 | DT_U64 => Some 8%nat
  | _ => None
  end.

Definition dt_string (d : data_type_t) : bool :=
  match d with DT_S8P | DT_U8P | DT_S8CP | DT_U8CP => true | _ => false end.

(** [GET_TYPE] of an [int64_t].  Where that is [long long] (LLP64, Windows) it
    is [DT_S64].  Where it is [long] (LP64, Linux) no branch of [_Generic]
    matches, and the value is taken for a pointer to a protobuf message. *)
Class Abi : Type := { int64_is_long_long : bool }.

Section wire.
Context `{Abi}.
Variable malloc_ok : nat -> bool.
Notation ST := (ST St).
Notation buffer_append := (buffer_append malloc_ok).
Notation alloc := (alloc malloc_ok).

(** ** Writing *)

(** [src] is the address of [v]: of a pointer, which is read, or of an array,
    which is the string.  Taking the one for the other reads outside. *)
Definition buffer_append_dt (b : buffer) (dt : data_type_t) (v : value) (isAr : bool) : ST (Z * buffer) :=
  match dt, v with
  | (DT_S8P | DT_U8P | DT_S8CP | DT_U8CP), (VStr str | VArr str) =>
      if negb (Bool.eqb isAr (is_array v)) then s_fail OutOfBounds else
      let len := u16 (Z.of_nat (length str)) in
      let* r := buffer_append b (le_bytes 2 len) in
      if negb (fst r =? 0) then s_ret r else
      buffer_append (snd r) (take (Z.to_nat len) str)
  | (DT_S8 | DT_U8), VInt v => buffer_append b (le_bytes 1 v)
  | (DT_S16 | DT_U16), VInt v => buffer_append b (le_bytes 2 v)
  | (DT_S32 | DT_U32), VInt v => buffer_append b (le_bytes 4 v)
  | (DT_S64 | DT_U64), VInt v => buffer_append b (le_bytes 8 v)
  | DT_PB, VMsg packed =>
      let* p := alloc in
      if negb p then s_ret (-2, b) else
      let res := Z.of_nat (length packed) in
      let* r := buffer_append b (le_bytes 2 res) in
      if negb (fst r =? 0) then free ;* s_ret r else
      let* r := buffer_append (snd r) packed in
      free ;* s_ret r
  | _, _ => s_fail AssertFail
  end.

(** [BUFFER_PUSH_ARG(x)]; an array is what has the address of its value. *)
Definition push_arg (b : buffer) (x : arg) : ST buffer :=
  let* b := just (buffer_append b (le_bytes 1 (dt_code (a_type x)))) in
  just (buffer_append_dt b (a_type x) (a_val x) (is_array (a_val x))).

Fixpoint push_each (b : buffer) (xs : list arg) : ST buffer :=
  match xs with
  | [] => s_ret b
  | x :: xs => let* b := push_arg b x in push_each b xs
  end.

(** [BUFFER_PUSH_ARGS(...)], for at most ten arguments *)
Definition push_args (b : buffer) (xs : list arg) : ST buffer :=
  let* b := just (buffer_append_U8 malloc_ok b (Z.of_nat (length xs))) in
  push_each b xs.

(** [BUFFER_PUSH_ARG(x)] for an [int64_t] variable [x] holding [v] *)
Definition get_type_int64 (v : Z) : ST data_type_t :=
  if int64_is_long_long then s_ret DT_S64 else
  if v =? 0 then s_ret DT_UNKNOWN else s_fail OutOfBounds.
Definition push_int64 (b : buffer) (v : Z) : ST buffer :=
  let* dt := get_type_int64 v in push_arg b (Arg dt (VInt v)).

(** [RPC_MAKE_REQ(func, ...)] *)
Definition make_req (func : list Z) (xs : list arg) : ST (option buffer) :=
  let* o := buffer_new malloc_ok 1024 in
  let* b := s_some NullDeref o in
  let size := u16 (Z.of_nat (length func)) in
  let* b := just (buffer_append b (le_bytes 2 size)) in
  let* b := just (buffer_append b (take (Z.to_nat size) func)) in
  let* b := push_args b xs in
  s_ret (Some b).

(** [RPC_MAKE_RSP(RES, ...)] *)
Definition make_rsp (b : buffer) (res : Z) (xs : list arg) : ST buffer :=
  let* b := just (buffer_append_U8 malloc_ok b res) in
  push_args b xs.

(** ** Parsing *)

(** [rpc_handle_arg_t]: given the user data, the type, the value and its
    length, the code returned and the new user data *)
Definition handle_arg (A : Type) : Type := A -> data_type_t -> value -> Z -> ST (Z * A).

Definition parse_arg {A} (r : reader) (u : A) (h : handle_arg A) : ST (Z * reader * A) :=
  let '(dt, r) :=
    match reader_read_bytes r 1 with
    | Some (l, r') => (dt_of (le_value l), r')
    | None => (Some DT_UNKNOWN, r)
    end in
  match dt with
  | None => s_ret (1, r, u)
  | Some dt =>
      match dt_width dt with
      | Some n =>
          match reader_read_bytes r (Z.of_nat n) with
          | None => s_ret (1, r, u)
          | Some (l, r) =>
              let* res := h u dt (VInt (le_value l)) (Z.of_nat n) in
              s_ret (if fst res =? 0 then 0 else 1, r, snd res)
          end
      | None =>
          if dt_string dt || bool_decide (dt = DT_PB) then
            match reader_read_bytes r 2 with
            | None => s_ret (1, r, u)
            | Some (l, r) =>
                let len := le_value l in
                let* p := alloc in
                match reader_read_bytes r len with
                | None => s_ret (1, r, u)
                | Some (body, r) =>
                    if negb p then s_fail NullDeref else
                    let* res := h u dt (VStr body) len in
                    s_ret (if fst res =? 0 then 0 else 1, r, snd res)
                end
            end
          else s_ret (1, r, u)
      end
  end.

(** [for (int i = 0; i < narg; ++i)] *)
Fixpoint parse_args {A} (n : nat) (i : Z) (r : reader) (u : A) (h : handle_arg A)
  : ST (Z * reader * A) :=
  match n with
  | O => s_ret (0, r, u)
  | S n =>
      let* x := parse_arg r u h in
      let '(c, r, u) := x in
      if negb (c =? 0) then s_ret (i + 1, r, u) else parse_args n (i + 1) r u h
  end.

Definition rpc_parse_req_args {A} (r : reader) (u : A) (h : handle_arg A) : ST (Z * reader * A) :=
  let '(narg, r) :=
    match reader_read_bytes r 1 with
    | Some (l, r') => (le_value l, r')
    | None => (0, r)
    end in
  parse_args (Z.to_nat narg) 0 r u h.

End wire.

(** ** The wire format *)

(** The bytes of an argument *)
Definition arg_bytes (x : arg) : list Z :=
  dt_code (a_type x) ::
  match dt_width (a_type x), a_val x with
  | Some n, VInt v => le_bytes n v
  | _, VStr s | _, VArr s => le_bytes 2 (Z.of_nat (length s)) ++ s
  | _, VMsg s => le_bytes 2 (Z.of_nat (length s)) ++ s
  | _, VInt _ => []
  end.

(** An argument the library can transmit *)
Definition arg_ok (x : arg) : Prop :=
  match a_val x with
  | VInt v => is_Some (dt_width (a_type x))
  | VStr s | VArr s => dt_string (a_type x) = true /\ is_string s /\ Z.of_nat (length s) < 2 ^ 16
  | VMsg s => a_type x = DT_PB /\ is_bytes s /\ Z.of_nat (length s) < 2 ^ 16
  end.

(** What the parser hands to the handler: integers arrive zero-extended, and
    the bytes of strings and messages as they are. *)
Definition arrives (x : arg) : value :=
  match a_val x, dt_width (a_type x) with
  | VInt v, Some n => VInt (v mod 256 ^ Z.of_nat n)
  | VMsg s, _ | VArr s, _ => VStr s
  | v, _ => v
  end.

Definition arrives_len (x : arg) : Z :=
  match a_val x, dt_width (a_type x) with
  | VInt _, Some n => Z.of_nat n
  | VInt _, None => 0
  | VStr s, _ | VArr s, _ | VMsg s, _ => Z.of_nat (length s)
  end.

Definition is_int (x : arg) : bool := match a_val x with VInt _ => true | _ => false end.
Definition args_bytes (xs : list arg) : list Z := concat (map arg_bytes xs).

Lemma dt_code_range d : 0 <= dt_code d < 28.
Proof. destruct d; vm_compute; split; congruence. Qed.

Lemma dt_of_code d : dt_of (dt_code d) = Some d.
Proof. by destruct d. Qed.

(** ** Writing produces the wire format *)

Lemma arg_bytes_ok x : arg_ok x -> is_bytes (arg_bytes x).
Proof.
  destruct x as [dt v]. unfold arg_ok, arg_bytes. cbn [a_type a_val]. pose proof (dt_code_range dt).
  intros Hx. constructor; [unfold is_byte; lia|]. destruct v as [v|s|s|s].
  - destruct Hx as [n ->]. apply le_bytes_ok.
  - destruct Hx as (_ & Hs & _). assert (is_bytes (le_bytes 2 (Z.of_nat (length s)) ++ s)) as Hb
      by (apply Forall_app; split; [apply le_bytes_ok|by apply is_string_bytes]).
    destruct (dt_width dt); exact Hb.
  - destruct Hx as (_ & Hs & _). assert (is_bytes (le_bytes 2 (Z.of_nat (length s)) ++ s)) as Hb
      by (apply Forall_app; split; [apply le_bytes_ok|by apply is_string_bytes]).
    destruct (dt_width dt); exact Hb.
  - destruct Hx as (-> & Hs & _). apply Forall_app. split; [apply le_bytes_ok|done].
Qed.

Section writing.
Context `{Abi}.
Variable malloc_ok : nat -> bool.
Hypothesis Hok : forall n, malloc_ok n = true.

(** A computation that appends [l] to the buffer *)
Definition appends (c : buffer -> ST St buffer) (l : list Z) : Prop :=
  forall b s, buf_ok b -> b_len b + Z.of_nat (length l) < 2 ^ 64 ->
  exists b' s', c b s = OK (b', s') /\ grew s s' /\ b_data b' = b_data b ++ l /\ buf_ok b'.

Lemma appends_bytes l : appends (fun b => just (buffer_append malloc_ok b l)) l.
Proof.
  intros b s Hb Hl. destruct (just_append_ok malloc_ok Hok b l s Hb Hl) as (cap & s' & Hr & Hg & Hb').
  do 2 eexists. split; [exact Hr|]. done.
Qed.

Lemma appends_ret : appends s_ret [].
Proof. intros b s Hb _. do 2 eexists. split; [reflexivity|]. rewrite app_nil_r. auto with cword. Qed.

Lemma appends_seq c1 c2 l1 l2 : appends c1 l1 -> appends c2 l2 ->
  appends (fun b => let* b := c1 b in c2 b) (l1 ++ l2).
Proof.
  intros H1 H2 b s Hb Hl. rewrite length_app in Hl.
  destruct (H1 b s Hb ltac:(lia)) as (b1 & s1 & Hr1 & Hg1 & Hd1 & Hb1).
  destruct (H2 b1 s1 Hb1) as (b2 & s2 & Hr2 & Hg2 & Hd2 & Hb2).
  { unfold b_len in *. rewrite Hd1, length_app. lia. }
  exists b2, s2. rewrite (s_bind_OK _ _ _ _ _ Hr1), Hd2, Hd1, app_assoc.
  split; [done|]. split; [by eapply grew_trans|done].
Qed.

(** An append followed by another one unless it failed *)
Lemma appends_then (l1 l2 : list Z) (fin : ST St unit) :
  appends (fun b => just (let* r := buffer_append malloc_ok b l1 in
    if negb (fst r =? 0) then fin ;* s_ret r else buffer_append malloc_ok (snd r) l2)) (l1 ++ l2).
Proof.
  intros b s Hb Hl. rewrite length_app in Hl.
  destruct (append_ok malloc_ok Hok b l1 s Hb ltac:(lia)) as (cap & s1 & Hr1 & Hg1 & Hb1).
  destruct (just_append_ok malloc_ok Hok (Buf (b_data b ++ l1) cap) l2 s1 Hb1) as (cap' & s2 & Hr2 & Hg2 & Hb2).
  { unfold b_len in *. cbn [b_data]. rewrite length_app. lia. }
  do 2 eexists. split; [|split; [by eapply grew_trans|split; [|exact Hb2]]].
  - unfold just in *. unfold s_bind at 1 2. rewrite Hr1. cbn [fst snd negb Z.eqb].
    unfold s_bind in Hr2. exact Hr2.
  - cbn [b_data]. by rewrite app_assoc.
Qed.

Lemma appends_string dt v str : v = VStr str \/ v = VArr str -> dt_string dt = true -> Z.of_nat (length str) < 2 ^ 16 ->
  appends (fun b => just (buffer_append_dt malloc_ok b dt v (is_array v)))
    (le_bytes 2 (Z.of_nat (length str)) ++ str).
Proof.
  intros Hv Hdt Hlen b s Hb Hl.
  pose proof (appends_then (le_bytes 2 (Z.of_nat (length str))) str (s_ret tt) b s Hb Hl) as Happ.
  destruct Hv as [-> | ->]; destruct dt; try discriminate Hdt; unfold buffer_append_dt; cbn [is_array Bool.eqb negb]; cbv zeta;
    rewrite wrap_small by (unfold word; lia); rewrite Nat2Z.id, firstn_all; exact Happ.
Qed.

(** The length is written with 16 bits, the message whole. *)
Lemma appends_message packed :
  appends (fun b => just (buffer_append_dt malloc_ok b DT_PB (VMsg packed) false))
    (le_bytes 2 (Z.of_nat (length packed)) ++ packed).
Proof.
  intros b s Hb Hl. rewrite length_app in Hl.
  set (s0 := set_heap s (S (nalloc s)) (nlive s + 1)).
  destruct (append_ok malloc_ok Hok b (le_bytes 2 (Z.of_nat (length packed))) s0 Hb ltac:(lia))
    as (cap & s1 & Hr1 & Hg1 & Hb1).
  destruct (append_ok malloc_ok Hok (Buf (b_data b ++ le_bytes 2 (Z.of_nat (length packed))) cap) packed s1 Hb1)
    as (cap' & s2 & Hr2 & Hg2 & Hb2).
  { unfold b_len in *. cbn [b_data]. rewrite length_app. lia. }
  unfold just, buffer_append_dt. unfold s_bind at 1 2, alloc. rewrite Hok. cbn [negb].
  fold s0. unfold s_bind at 1. rewrite Hr1. cbn [fst snd negb Z.eqb].
  unfold s_bind. rewrite Hr2. unfold free, s_ret. cbn [snd].
  do 2 eexists. split; [reflexivity|]. split; [|split; [cbn [b_data]; by rewrite app_assoc|exact Hb2]].
  destruct Hg1 as [n1 ->], Hg2 as [n2 ->]. exists n2. unfold s0, set_heap. cbn. f_equal. lia.
Qed.

Lemma push_arg_appends x : arg_ok x -> appends (fun b => push_arg malloc_ok b x) (arg_bytes x).
Proof.
  intros Hx. unfold push_arg, arg_bytes.
  assert (le_bytes 1 (dt_code (a_type x)) = [dt_code (a_type x)]) as Hcode.
  { pose proof (dt_code_range (a_type x)). simpl. by rewrite Z.mod_small by lia. }
  rewrite Hcode. change (dt_code (a_type x) :: ?l) with ([dt_code (a_type x)] ++ l).
  apply appends_seq; [apply appends_bytes|].
  destruct x as [dt [v|str|str|packed]]; cbn [a_type a_val is_array] in *.
  - destruct Hx as [n Hn]. cbn [a_type] in Hn. 
    destruct dt; try discriminate Hn; apply appends_bytes.
  - destruct Hx as (Hdt & _ & Hlen). cbn [a_type] in Hdt.
    destruct dt; try discriminate Hdt; apply (appends_string _ (VStr str)); auto.
  - destruct Hx as (Hdt & _ & Hlen). cbn [a_type] in Hdt.
    destruct dt; try discriminate Hdt; apply (appends_string _ (VArr str)); auto.
  - destruct Hx as (Hdt & _ & Hlen). cbn [a_type] in Hdt. rewrite Hdt. by apply appends_message.
Qed.

Lemma push_each_appends xs : Forall arg_ok xs ->
  appends (fun b => push_each malloc_ok b xs) (args_bytes xs).
Proof.
  induction 1 as [|x xs Hx Hxs IH]; [apply appends_ret|].
  unfold args_bytes. cbn [map concat push_each].
  apply (appends_seq (fun b => push_arg malloc_ok b x) (fun b => push_each malloc_ok b xs));
    [by apply push_arg_appends|exact IH].
Qed.

Lemma push_args_appends xs : Forall arg_ok xs ->
  appends (fun b => push_args malloc_ok b xs) (le_bytes 1 (Z.of_nat (length xs)) ++ args_bytes xs).
Proof.
  intros Hxs. apply (appends_seq (fun b => just (buffer_append_U8 malloc_ok b (Z.of_nat (length xs)))));
    [apply appends_bytes|by apply push_each_appends].
Qed.

Lemma make_rsp_appends res xs : Forall arg_ok xs ->
  appends (fun b => make_rsp malloc_ok b res xs)
    (le_bytes 1 res ++ le_bytes 1 (Z.of_nat (length xs)) ++ args_bytes xs).
Proof.
  intros Hxs. apply (appends_seq (fun b => just (buffer_append_U8 malloc_ok b res)));
    [apply appends_bytes|by apply push_args_appends].
Qed.

End writing.

(** ** Parsing reads the wire format back *)

Section parsing.
Variable malloc_ok : nat -> bool.
Hypothesis Hok : forall n, malloc_ok n = true.

(** The block [parse_arg] allocates for a string or a message *)
Definition arg_alloc (x : arg) : ST St unit :=
  if is_int x then s_ret tt else let* _ := alloc malloc_ok in s_ret tt.

(** The handler applied to the arguments one after the other, until one is
    refused: the result of [rpc_parse_req_args] *)
Fixpoint feed {A} (i : Z) (xs : list arg) (u : A) (h : handle_arg A) : ST St (Z * A) :=
  match xs with
  | [] => s_ret (0, u)
  | x :: xs =>
      arg_alloc x ;*
      let* res := h u (a_type x) (arrives x) (arrives_len x) in
      if fst res =? 0 then feed (i + 1) xs (snd res) h else s_ret (i + 1, snd res)
  end.

Lemma parse_arg_app {A} (x : arg) (r : reader) l' (u : A) h s :
  arg_ok x -> reader_ok r -> rest r = arg_bytes x ++ l' ->
  exists r', rest r' = l' /\ reader_ok r' /\
    parse_arg malloc_ok r u h s =
      (arg_alloc x ;* let* res := h u (a_type x) (arrives x) (arrives_len x) in
       s_ret (if fst res =? 0 then 0 else 1, r', snd res)) s.
Proof.
  intros Hx Hr Hrest. unfold parse_arg.
  destruct (read_bytes_app r [dt_code (a_type x)]
    (tl (arg_bytes x) ++ l') Hr Hrest) as (r1 & Hread1 & Hrest1 & Hr1).
  change (Z.of_nat (length [dt_code (a_type x)])) with 1 in Hread1. rewrite Hread1.
  cbn [le_value]. rewrite Z.mul_0_r, Z.add_0_r, dt_of_code.
  assert (forall str : list Z, rest r1 = (le_bytes 2 (Z.of_nat (length str)) ++ str) ++ l' ->
    Z.of_nat (length str) < 2 ^ 16 -> exists r', rest r' = l' /\ reader_ok r' /\
    match reader_read_bytes r1 2 with
    | None => s_ret (1, r1, u)
    | Some (l, r) =>
        let* p := alloc malloc_ok in
        match reader_read_bytes r (le_value l) with
        | None => s_ret (1, r, u)
        | Some (body, r) =>
            if negb p then s_fail NullDeref else
            let* res := h u (a_type x) (VStr body) (le_value l) in
            s_ret (if fst res =? 0 then 0 else 1, r, snd res)
        end
    end s =
    ((let* _ := alloc malloc_ok in s_ret tt) ;*
     let* res := h u (a_type x) (VStr str) (Z.of_nat (length str)) in
     s_ret (if fst res =? 0 then 0 else 1, r', snd res)) s) as Hstr.
  { intros str Hrest1' Hlen. rewrite <- app_assoc in Hrest1'.
    destruct (read_bytes_app _ _ _ Hr1 Hrest1') as (r2 & Hread2 & Hrest2 & Hr2).
    rewrite le_bytes_length in Hread2. change (Z.of_nat 2) with 2 in Hread2. rewrite Hread2.
    rewrite le_value_small by (change (256 ^ Z.of_nat 2) with (2 ^ 16); lia).
    destruct (read_bytes_app _ _ _ Hr2 Hrest2) as (r3 & Hread3 & Hrest3 & Hr3). rewrite Hread3.
    exists r3. split; [done|]. split; [done|]. unfold s_bind, alloc, s_ret. by rewrite Hok. }
  unfold arg_alloc, is_int, arrives, arrives_len. unfold arg_ok in Hx.
  unfold arg_bytes in Hrest1. cbn [tl] in Hrest1.
  destruct (a_val x) as [v|str|str|str].
  - destruct Hx as [n Hn]. rewrite Hn in *.
    destruct (read_bytes_app _ _ _ Hr1 Hrest1) as (r2 & Hread2 & Hrest2 & Hr2).
    rewrite le_bytes_length in Hread2. rewrite Hread2, le_value_bytes. exists r2. done.
  - destruct Hx as (Hdt & _ & Hlen).
    assert (dt_width (a_type x) = None) as Hw by (by destruct (a_type x)).
    rewrite Hw in *. rewrite Hdt. cbn [orb]. by apply Hstr.
  - destruct Hx as (Hdt & _ & Hlen).
    assert (dt_width (a_type x) = None) as Hw by (by destruct (a_type x)).
    rewrite Hw in *. rewrite Hdt. cbn [orb]. by apply Hstr.
  - destruct Hx as (Hdt & _ & Hlen). rewrite Hdt in *. cbn [dt_width dt_string orb] in *.
    rewrite bool_decide_true by done. by apply Hstr.
Qed.

Lemma parse_args_app {A} (xs : list arg) (i : Z) (r : reader) l' (u : A) h s :
  Forall arg_ok xs -> reader_ok r -> rest r = args_bytes xs ++ l' -> 0 <= i ->
  match feed i xs u h s with
  | OK ((c, u'), s') => exists r', parse_args malloc_ok (length xs) i r u h s = OK ((c, r', u'), s') /\
      reader_ok r' /\ (c = 0 -> rest r' = l')
  | Er e => parse_args malloc_ok (length xs) i r u h s = Er e
  end.
Proof.
  intros Hxs. revert i r u s. induction Hxs as [|x xs Hx Hxs IH]; intros i r u s Hr Hrest Hi;
    cbn [feed parse_args length].
  - exists r. simpl in Hrest. done.
  - unfold args_bytes in Hrest. cbn [map concat] in Hrest. rewrite <- app_assoc in Hrest.
    destruct (parse_arg_app x r _ u h s Hx Hr Hrest) as (r' & Hrest' & Hr' & Hparse).
    unfold s_bind in *. rewrite Hparse. destruct (arg_alloc x s) as [[[] s1]|e]; [|done].
    destruct (h u (a_type x) (arrives x) (arrives_len x) s1) as [[[c u'] s2]|e]; [|done].
    cbn [fst snd s_ret]. destruct (Z.eqb_spec c 0); cbn [negb Z.eqb].
    + apply IH; [done|exact Hrest'|lia].
    + exists r'. split; [done|]. split; [done|]. lia.
Qed.

(** The bytes of an argument list, with the count in front *)
Lemma rpc_parse_app {A} (xs : list arg) (r : reader) l' (u : A) h s :
  Forall arg_ok xs -> Z.of_nat (length xs) < 256 -> reader_ok r ->
  rest r = le_bytes 1 (Z.of_nat (length xs)) ++ args_bytes xs ++ l' ->
  match feed 0 xs u h s with
  | OK ((c, u'), s') => exists r', rpc_parse_req_args malloc_ok r u h s = OK ((c, r', u'), s') /\
      reader_ok r' /\ (c = 0 -> rest r' = l')
  | Er e => rpc_parse_req_args malloc_ok r u h s = Er e
  end.
Proof.
  intros Hxs Hlen Hr Hrest. unfold rpc_parse_req_args.
  destruct (read_bytes_app _ _ _ Hr Hrest) as (r1 & Hread & Hrest1 & Hr1).
  change (Z.of_nat (length (le_bytes 1 (Z.of_nat (length xs))))) with 1 in Hread. rewrite Hread.
  rewrite le_value_small by (simpl; lia). rewrite Nat2Z.id. by apply parse_args_app.
Qed.

(** The handler that only records what it is given *)
Definition collect : handle_arg (list (data_type_t * value * Z)) :=
  fun u dt v n => s_ret (0, u ++ [(dt, v, n)]).

Definition seen (x : arg) : data_type_t * value * Z := (a_type x, arrives x, arrives_len x).

(** The blocks the parser allocates and nobody frees *)
Definition kept (xs : list arg) : Z := zsum (fun x => if is_int x then 0 else 1) xs.

Lemma feed_collect i xs u s : exists s',
  feed i xs u collect s = OK ((0, u ++ map seen xs), s') /\ nlive s' = nlive s + kept xs.
Proof.
  revert i u s. induction xs as [|x xs IH]; intros i u s; cbn [feed].
  - exists s. simpl. rewrite app_nil_r. split; [done|]. unfold kept. simpl. lia.
  - unfold s_bind at 1, arg_alloc. unfold kept. cbn [zsum]. fold (kept xs).
    destruct (is_int x); unfold s_bind, alloc, s_ret, collect; rewrite ?Hok; cbn [fst snd Z.eqb].
    + destruct (IH (i + 1) (u ++ [seen x]) s) as (s' & Hf & Hl). exists s'.
      rewrite <- app_assoc in Hf. split; [exact Hf|lia].
    + destruct (IH (i + 1) (u ++ [seen x]) (set_heap s (S (nalloc s)) (nlive s + 1)))
        as (s' & Hf & Hl). exists s'. rewrite <- app_assoc in Hf. split; [exact Hf|].
      rewrite Hl. simpl. lia.
Qed.

End parsing.



(** *** Arbitrary input *)

(** What bytes say, whatever they are: the first argument, if it is well
    formed and whole, and the bytes behind it *)
Definition next_arg (l : list Z) : option (data_type_t * value * Z * list Z) :=
  match l with
  | [] => None
  | c :: l =>
      match dt_of c with
      | None => None
      | Some dt =>
          match dt_width dt with
          | Some n => if (n <=? length l)%nat then Some (dt, VInt (le_value (take n l)), Z.of_nat n, drop n l) else None
          | None =>
              if negb (dt_string dt || bool_decide (dt = DT_PB)) then None else
              match l with
              | a :: b :: l =>
                  let len := le_value [a; b] in
                  if len <=? Z.of_nat (length l)
                  then Some (dt, VStr (take (Z.to_nat len) l), len, drop (Z.to_nat len) l) else None
              | _ => None
              end
          end
      end
  end.

(** The arguments that can be read, [n] at most *)
Fixpoint args_of (n : nat) (l : list Z) : list (data_type_t * value * Z) :=
  match n with
  | O => []
  | S n => match next_arg l with Some (x, l) => x :: args_of n l | None => [] end
  end.

Definition advances (r r' : reader) : Prop := r_data r' = r_data r /\ r_pos r <= r_pos r' /\ reader_ok r'.

Lemma advances_read r n l r' : reader_ok r -> 0 <= n < 2 ^ 63 -> reader_read_bytes r n = Some (l, r') ->
  advances r r' /\ Z.of_nat (length l) = n.
Proof.
  intros Hr Hn Hread. pose proof (reader_read_bytes_correct r n Hr Hn) as Hc. rewrite Hread in Hc.
  destruct Hc as (Hl & _ & Hr'). split; [|done]. unfold reader_read_bytes in Hread.
  destruct (_ <? _); [done|]. injection Hread as _ <-. split; [done|]. split; [simpl; lia|done].
Qed.

Lemma advances_trans r1 r2 r3 : advances r1 r2 -> advances r2 r3 -> advances r1 r3.
Proof. intros (? & ? & ?) (? & ? & ?). split; [congruence|]. split; [lia|done]. Qed.

Lemma advances_refl r : reader_ok r -> advances r r.
Proof. intros. split; [done|]. split; [lia|done]. Qed.

(** A read is the next bytes, or there are too few of them. *)
Lemma read_next r n : reader_ok r -> 0 <= n < 2 ^ 63 ->
  if n <=? Z.of_nat (length (rest r)) then
    exists r', reader_read_bytes r n = Some (take (Z.to_nat n) (rest r), r') /\
      rest r' = drop (Z.to_nat n) (rest r) /\ advances r r'
  else reader_read_bytes r n = None.
Proof.
  intros Hr Hn. pose proof (reader_read_bytes_correct r n Hr Hn) as Hc.
  destruct (reader_read_bytes r n) as [[l r']|] eqn:Hread.
  - destruct (advances_read r n l r' Hr Hn Hread) as [Hadv _]. destruct Hc as (Hl & Hrest & _).
    rewrite (proj2 (Z.leb_le _ _)) by (rewrite Hrest, length_app; lia). exists r'.
    assert (Z.to_nat n = length l) as -> by lia. rewrite Hrest, take_app_length, drop_app_length. done.
  - by rewrite (proj2 (Z.leb_gt _ _)) by lia.
Qed.

Lemma is_bytes_rest r : is_bytes (r_data r) -> is_bytes (rest r).
Proof. intros Hb. by apply Forall_drop. Qed.

Section any_bytes.
Context {A : Type}.
Variable malloc_ok : nat -> bool.
Hypothesis Hok : forall n, malloc_ok n = true.
Variable h : handle_arg A.

(** The block for the bytes of a value *)
Definition value_alloc (v : value) : ST St unit :=
  match v with VStr _ => let* _ := alloc malloc_ok in s_ret tt | _ => s_ret tt end.

(** The handler is given the arguments in order until it refuses one; the
    result is zero or the number of that one. *)
Fixpoint hand_over (i : Z) (xs : list (data_type_t * value * Z)) (u : A) : ST St (Z * A) :=
  match xs with
  | [] => s_ret (0, u)
  | (dt, v, n) :: xs =>
      value_alloc v ;*
      let* res := h u dt v n in
      if fst res =? 0 then hand_over (i + 1) xs (snd res) else s_ret (i + 1, snd res)
  end.

Lemma hand_over_range i xs u s c u' s' : 0 <= i -> hand_over i xs u s = OK ((c, u'), s') ->
  c = 0 \/ i < c <= i + Z.of_nat (length xs).
Proof.
  revert i u s. induction xs as [|[[dt v] n] xs IH]; intros i u s Hi Hrun; cbn [hand_over length] in *.
  { left. by injection Hrun as <- _ _. }
  apply s_bind_inv in Hrun as (a & s1 & _ & Hrun). apply s_bind_inv in Hrun as ([c1 u1] & s2 & _ & Hrun). cbn [fst snd] in Hrun.
  destruct (c1 =? 0); [|injection Hrun as <- _ _; right; lia].
  apply IH in Hrun; [|lia]. lia.
Qed.

(** One argument *)
Lemma parse_arg_next r u s : reader_ok r -> is_bytes (r_data r) ->
  match next_arg (rest r) with
  | Some (dt, v, n, l) => exists r', rest r' = l /\ advances r r' /\
      parse_arg malloc_ok r u h s =
        (value_alloc v ;* let* res := h u dt v n in s_ret (if fst res =? 0 then 0 else 1, r', snd res)) s
  | None => exists r' s', parse_arg malloc_ok r u h s = OK ((1, r', u), s') /\ advances r r'
  end.
Proof.
  intros Hr Hbytes. pose proof (is_bytes_rest r Hbytes) as Hbr. unfold parse_arg.
  pose proof (read_next r 1 Hr ltac:(lia)) as H1. destruct (rest r) as [|c l] eqn:Hrest.
  { cbn [next_arg length] in *. rewrite H1. do 2 eexists. split; [reflexivity|by apply advances_refl]. }
  rewrite (proj2 (Z.leb_le _ _)) in H1 by (cbn [length]; lia). destruct H1 as (r1 & -> & Hrest1 & Hadv1).
  change (take (Z.to_nat 1) (c :: l)) with [c]. change (drop (Z.to_nat 1) (c :: l)) with l in Hrest1.
  assert (le_value [c] = c) as -> by (cbn [le_value]; lia). cbn [next_arg].
  pose proof Hadv1 as (Hd1 & _ & Hr1). apply Forall_cons in Hbr as [_ Hbl].
  destruct (dt_of c) as [dt|]; [|do 2 eexists; split; [reflexivity|done]].
  destruct (dt_width dt) as [n|] eqn:Hw.
  - assert (n <= 8)%nat by (destruct dt; simpl in Hw; simplify_eq; lia).
    pose proof (read_next r1 (Z.of_nat n) Hr1 ltac:(lia)) as H2. rewrite Hrest1, Nat2Z.id in H2.
    destruct (Nat.leb_spec n (length l)).
    + rewrite (proj2 (Z.leb_le _ _)) in H2 by lia. destruct H2 as (r2 & -> & Hrest2 & Hadv2). exists r2.
      split; [done|]. split; [by eapply advances_trans|]. reflexivity.
    + rewrite (proj2 (Z.leb_gt _ _)) in H2 by lia. rewrite H2. do 2 eexists. split; [reflexivity|done].
  - destruct (dt_string dt || _); cbn [negb]; [|do 2 eexists; split; [reflexivity|done]].
    pose proof (read_next r1 2 Hr1 ltac:(lia)) as H2. rewrite Hrest1 in H2.
    destruct l as [|a [|b l]]; [rewrite H2; do 2 eexists; split; [reflexivity|done]..|].
    rewrite (proj2 (Z.leb_le _ _)) in H2 by (cbn [length]; lia). destruct H2 as (r2 & -> & Hrest2 & Hadv2).
    change (take (Z.to_nat 2) (a :: b :: l)) with [a; b]. change (drop (Z.to_nat 2) (a :: b :: l)) with l in Hrest2.
    assert (advances r r2) as Hadv by (by eapply advances_trans). pose proof Hadv2 as (_ & _ & Hr2).
    assert (0 <= le_value [a; b] < 2 ^ 16) as Hlen.
    { apply (le_value_range [a; b]). apply Forall_cons in Hbl as [? Hbl]. apply Forall_cons in Hbl as [? _].
      constructor; [done|]. constructor; [done|]. constructor. }
    pose proof (read_next r2 (le_value [a; b]) Hr2 ltac:(lia)) as H3. rewrite Hrest2 in H3.
    cbv zeta. destruct (Z.leb_spec (le_value [a; b]) (Z.of_nat (length l))).
    + destruct H3 as (r3 & -> & Hrest3 & Hadv3). exists r3. split; [done|]. split; [by eapply advances_trans|].
      unfold value_alloc, s_bind, alloc, s_ret. by rewrite Hok.
    + rewrite H3. unfold s_bind at 1, alloc. rewrite Hok. do 2 eexists. split; [reflexivity|done].
Qed.

(** The loop: the arguments that can be read are handed over, and one that
    cannot ends it. *)
Lemma parse_args_any n i r u s c u' s1 : reader_ok r -> is_bytes (r_data r) -> 0 <= i ->
  hand_over i (args_of n (rest r)) u s = OK ((c, u'), s1) ->
  let k := length (args_of n (rest r)) in
  exists r' s', parse_args malloc_ok n i r u h s =
      OK ((if (c =? 0) && (k <? n)%nat then i + Z.of_nat k + 1 else c, r', u'), s') /\ advances r r'.
Proof.
  intros Hr Hb Hi. revert i r u s Hr Hb Hi. induction n as [|n IH]; intros i r u s Hr Hb Hi; cbn [args_of parse_args].
  { intros [= <- <- <-]. do 2 eexists. split; [reflexivity|by apply advances_refl]. }
  pose proof (parse_arg_next r u s Hr Hb) as Hnext. destruct (next_arg (rest r)) as [[[[dt v] m] l]|].
  - destruct Hnext as (r1 & Hrest1 & Hadv & Hp). cbn [hand_over]. intros Hrun.
    apply s_bind_inv in Hrun as ([] & s2 & Ha & Hrun). apply s_bind_inv in Hrun as ([c1 u1] & s3 & Hh & Hrun). cbn [fst snd] in Hrun.
    assert (parse_arg malloc_ok r u h s = OK ((if c1 =? 0 then 0 else 1, r1, u1), s3)) as Hp'.
    { by rewrite Hp, (s_bind_OK _ _ _ _ _ Ha), (s_bind_OK _ _ _ _ _ Hh). }
    rewrite (s_bind_OK _ _ _ _ _ Hp'). destruct Hadv as (Hd1 & Hpos & Hr1). rewrite <- Hrest1 in Hrun |- *.
    destruct (Z.eqb_spec c1 0); cbn [negb Z.eqb].
    + destruct (IH (i + 1) r1 u1 s3 Hr1 ltac:(by rewrite Hd1) ltac:(lia) Hrun) as (r' & s' & Hps & Hadv').
      exists r', s'. split; [|by eapply advances_trans]. rewrite Hps. cbn [length]. do 3 f_equal.
      change (S ?a <? S ?b)%nat with (a <? b)%nat. destruct (_ && _); [f_equal; lia|done].
    + injection Hrun as <- <- <-. rewrite (proj2 (Z.eqb_neq (i + 1) 0)) by lia. do 2 eexists. split; [reflexivity|done].
  - destruct Hnext as (r' & s' & Hp & Hadv). cbn [hand_over length]. intros [= <- <- <-].
    rewrite (s_bind_OK _ _ _ _ _ Hp). exists r', s'. cbn. split; [|done]. by rewrite Z.add_0_r.
Qed.

End any_bytes.



(** A message of 64 KiB is written with the length 0: the parser hands over an
    empty message and goes on in the middle of the real one. *)
Theorem big_message_desync (malloc_ok : nat -> bool) (packed : list Z) (s : St) :
  (forall n, malloc_ok n = true) -> length packed = Z.to_nat 65536 ->
  exists b s1 r s2, push_args malloc_ok (Buf [] 0) [Arg DT_PB (VMsg packed)] s = OK (b, s1) /\
    rpc_parse_req_args malloc_ok (reader_init (b_data b)) [] collect s1 = OK ((0, r, [(DT_PB, VStr [], 0)]), s2) /\
    rest r = packed.
Proof.
  intros Hok Hlen.
  assert (le_bytes 2 (Z.of_nat (length packed)) = [0; 0]) as Hzero by (by rewrite Hlen).
  destruct (appends_seq _ _ _ _ (appends_bytes malloc_ok Hok [1])
    (appends_seq _ _ _ _ (appends_bytes malloc_ok Hok (le_bytes 1 (dt_code DT_PB)))
       (appends_seq _ _ _ _ (appends_message malloc_ok Hok packed) appends_ret)) (Buf [] 0) s)
    as (b & s1 & Hpush & _ & Hd & _); [unfold buf_ok, b_len; cbn; lia|unfold b_len; rewrite !length_app, Hzero, Hlen; vm_compute; congruence|].
  cbn [b_data app] in Hd. rewrite app_nil_r, Hzero in Hd. change (le_bytes 1 (dt_code DT_PB)) with [27] in Hd. cbn [app] in Hd.
  destruct (reader_init_ok (b_data b)) as [Hr Hrest]; [rewrite Hd; cbn [length]; rewrite Hlen; vm_compute; congruence|].
  pose proof (rpc_parse_app malloc_ok Hok [Arg DT_PB (VMsg [])] (reader_init (b_data b)) packed [] collect s1) as Hparse.
  destruct (feed_collect malloc_ok Hok 0 [Arg DT_PB (VMsg [])] [] s1) as (s2 & Hfeed & _). rewrite Hfeed in Hparse.
  destruct Hparse as (r & Hp & _ & Hend); [by repeat constructor|done|exact Hr|by rewrite Hrest, Hd|].
  exists b, s1, r, s2. split; [|split; [exact Hp|by apply Hend]].
  rewrite <- Hpush. unfold push_args, buffer_append_U8. change (le_bytes 1 (Z.of_nat (length [Arg DT_PB (VMsg packed)]))) with [1].
  unfold push_each, push_arg. cbn [a_type a_val is_array]. unfold s_bind.
  destruct (just (buffer_append malloc_ok (Buf [] 0) [1]) s) as [[b1 t1]|]; [|done].
  by destruct (just (buffer_append malloc_ok b1 (le_bytes 1 (dt_code DT_PB))) t1) as [[b2 t2]|].
Qed.
