(* ===== verification/RpcServer.v ===== *)
(** * The RPC server [cmake/rpc_c/rpc_server.c]

    The table of registered functions and the handling of one connection.  A
    registered function gets the reader positioned after the function name and
    the buffer for the response, and returns the buffer it leaves. *)

From S2P Require Import Prelude Words Monad Bytes RpcBuffer RpcWire.

Local Open Scope Z_scope.
Local Open Scope st_scope.

Definition g_rpc_magic_num : Z := 0xceadbeef.
Definition RPC_OK : Z := 0.
Definition RPC_ERR : Z := 1.
Definition MAX_MSG_LEN : Z := 65536.
Definition MAX_FUNC_NAME_LEN : Z := 256.
Definition MAX_HANDLERS : Z := 128.

(** "Function not found" *)
Definition not_found : list Z :=
  [70; 117; 110; 99; 116; 105; 111; 110; 32; 110; 111; 116; 32; 102; 111; 117; 110; 100].

(** [rpc_handler_t] and [handler_entry] *)
Definition rpc_handler_t : Type := reader -> buffer -> ST St buffer.
Record handler_entry : Type := Entry { e_name : list Z; e_handler : rpc_handler_t }.

(** [rpc_server_register]: the code returned and the new table.  [strncpy]
    keeps at most 255 bytes of the name. *)
Definition rpc_server_register (t : list handler_entry) (name : list Z) (h : rpc_handler_t)
  : Z * list handler_entry :=
  if MAX_HANDLERS <=? Z.of_nat (length t) then (-1, t)
  else (0, t ++ [Entry (take (Z.to_nat (MAX_FUNC_NAME_LEN - 1)) name) h]).

Fixpoint find_handler (t : list handler_entry) (name : list Z) : option rpc_handler_t :=
  match t with
  | [] => None
  | e :: t => if bool_decide (e_name e = name) then Some (e_handler e) else find_handler t name
  end.

Section server.
Variable malloc_ok : nat -> bool.
Variable write_result : nat -> Z -> Z.
Notation ST := (ST St).
Notation write_sock := (write_sock write_result).

(** The response to a call: what the function leaves in the buffer, or the
    report that there is no such function *)
Definition respond (h : option rpc_handler_t) (r : reader) (b : buffer) : ST buffer :=
  match h with
  | Some h => h r b
  | None =>
      let* b := just (buffer_append_U8 malloc_ok b RPC_ERR) in
      let* b := just (buffer_append_U32 malloc_ok b (Z.of_nat (length not_found))) in
      just (buffer_append malloc_ok b not_found)
  end.

(** Writing the response, and freeing the message, the buffer and the socket *)
Definition send_response (callSN : Z) (b : buffer) : ST unit :=
  let out_len := u32 (b_len b) in
  let* _ := write_sock (le_bytes 4 g_rpc_magic_num) in
  let* _ := write_sock (le_bytes 4 callSN) in
  let* _ := write_sock (le_bytes 4 out_len) in
  let* _ := write_sock (b_data b) in
  free ;*
  buffer_free (Some b) ;*
  close_sock.

(** The part of [handle_client] from the message body on: [msg] has been
    allocated and read. *)
Definition handle_message (t : list handler_entry) (callSN : Z) (msg : list Z) : ST unit :=
  let r := reader_init msg in
  match reader_read_bytes r 2 with
  | None => free ;* close_sock
  | Some (l, r) =>
      let name_len := le_value l in
      if MAX_FUNC_NAME_LEN <=? name_len then free ;* close_sock else
      match reader_read_bytes r name_len with
      | None => free ;* close_sock
      | Some (name, r) =>
          let handler := find_handler t (default [] (c_string (name ++ [0]))) in
          let* o := buffer_new malloc_ok 256 in
          let* b := s_some NullDeref o in
          let* b := respond handler r b in
          send_response callSN b
      end
  end.

(** [handle_client], on an accepted socket *)
Definition handle_client (t : list handler_entry) : ST unit :=
  let* mn := rpc_read_u32 in
  match mn with
  | None => close_sock
  | Some mn =>
      if negb (mn =? g_rpc_magic_num) then close_sock else
      let* sn := rpc_read_u32 in
      match sn with
      | None => close_sock
      | Some callSN =>
          let* len := rpc_read_u32 in
          match len with
          | None => close_sock
          | Some msg_len =>
              if (msg_len =? 0) || (MAX_MSG_LEN <? msg_len) then close_sock else
              let* p := alloc malloc_ok in
              if negb p then close_sock else
              let* m := read_sock_until msg_len in
              match m with
              | None => free ;* close_sock
              | Some msg => handle_message t callSN msg
              end
          end
      end
  end.

(** The loop of [rpc_server_run]: [select] times out, reports a connection
    (whose input is [EvClient]) or fails; a signal stops the loop. *)
Inductive event : Type :=
  | EvTimeout
  | EvClient (input : list (list Z))
  | EvAcceptFails
  | EvSelectFails
  | EvSignal.

Fixpoint serve (t : list handler_entry) (evs : list event) : ST unit :=
  match evs with
  | [] => s_ret tt
  | EvTimeout :: evs | EvAcceptFails :: evs => serve t evs
  | EvSelectFails :: _ | EvSignal :: _ => close_sock
  | EvClient input :: evs =>
      s_mod (fun s => set_sock (set_inp s input) (nsock s + 1)) ;*
      handle_client t ;*
      serve t evs
  end.

End server.

(** ** The table of functions *)

(** A function that has been registered is found under its name cut to 255
    bytes, unless the name was taken before: the first registration wins; a
    full table is left alone and reported, and the table never has more than
    128 entries. *)
Theorem register_find (t : list handler_entry) (name : list Z) (h : rpc_handler_t) (m : list Z) :
  Z.of_nat (length t) <= MAX_HANDLERS ->
  let '(c, t') := rpc_server_register t name h in
  Z.of_nat (length t') <= MAX_HANDLERS /\
  if c =? 0
  then find_handler t' m =
         match find_handler t m with
         | Some h' => Some h'
         | None => if bool_decide (take 255 name = m) then Some h else None
         end
  else Z.of_nat (length t) = MAX_HANDLERS /\ t' = t.
Proof.
  intros Hlen. unfold rpc_server_register. case_if; [split; [lia|]; simpl; split; [lia|done]|].
  split; [rewrite length_app; simpl; lia|]. simpl (0 =? 0). cbv iota.
  change (Z.to_nat (MAX_FUNC_NAME_LEN - 1)) with 255%nat. clear.
  induction t as [|e t IH]; cbn [app find_handler e_name e_handler]; [by repeat case_bool_decide|].
  repeat case_bool_decide; try done; exact IH.
Qed.

Lemma register_find_witness :
  let '(c, t') := rpc_server_register [] [115; 117; 109] (fun _ b => s_ret b) in
  Z.of_nat (length t') <= MAX_HANDLERS /\
  if c =? 0
  then find_handler t' [115; 117; 109] =
         match find_handler [] [115; 117; 109] with
         | Some h' => Some h'
         | None => if bool_decide (take 255 [115; 117; 109] = [115; 117; 109])
                   then Some (fun _ b => s_ret b) else None
         end
  else Z.of_nat (length (@nil handler_entry)) = MAX_HANDLERS /\ t' = [].
Proof. apply (register_find [] [115; 117; 109] (fun _ b => s_ret b) [115; 117; 109]). by vm_compute. Defined.

(** ** A connection *)

(** The bytes of a request and of a response on the wire *)
Definition frame (callSN : Z) (body : list Z) : list Z :=
  le_bytes 4 g_rpc_magic_num ++ le_bytes 4 callSN ++ le_bytes 4 (Z.of_nat (length body)) ++ body.
Definition request (name : list Z) (payload : list Z) : list Z :=
  le_bytes 2 (Z.of_nat (length name)) ++ name ++ payload.

(** How a frame arrives: the three words whole, the body in any chunks *)
Definition arrives_as (inp : list (list Z)) (callSN : Z) (body : list Z) : Prop :=
  exists cs, inp = le_bytes 4 g_rpc_magic_num :: le_bytes 4 callSN ::
                   le_bytes 4 (Z.of_nat (length body)) :: cs /\ stream cs = body.

(** A socket that accepts every write whole *)
Definition writes_all (write_result : nat -> Z -> Z) : Prop := forall n l, write_result n l = l.

Lemma read_word s v rest' : inp s = le_bytes 4 v :: rest' ->
  rpc_read_u32 s = OK (Some (v mod 2 ^ 32), set_inp s rest').
Proof.
  intros Hi. unfold rpc_read_u32, s_bind, read_sock. rewrite Hi.
  change (Z.to_nat (int_count 4)) with 4%nat.
  replace (take 4 (le_bytes 4 v)) with (le_bytes 4 v) by done.
  replace (drop 4 (le_bytes 4 v)) with (@nil Z) by done. unfold s_ret.
  rewrite le_bytes_length, le_value_bytes. done.
Qed.

Section connection.
Variable malloc_ok : nat -> bool.
Variable write_result : nat -> Z -> Z.
Hypothesis Hok : forall n, malloc_ok n = true.
Hypothesis Hw : writes_all write_result.

Lemma write_all l s : write_sock write_result l s =
  OK (Z.of_nat (length l), set_out s (outp s ++ l) (S (nwrite s))).
Proof. unfold write_sock. by rewrite Hw, Nat2Z.id, firstn_all. Qed.

Lemma buffer_new_ok cap s : 0 <= cap -> exists b s', buffer_new malloc_ok cap s = OK (Some b, s') /\
  buf_ok b /\ b_data b = [] /\ s' = set_heap s (S (S (nalloc s))) (nlive s + 2).
Proof.
  intros Hcap. unfold buffer_new, s_bind, alloc. rewrite Hok. cbn [negb]. rewrite !Hok. cbn [negb].
  do 2 eexists.
  split; [reflexivity|]. split; [unfold buf_ok, b_len; simpl; lia|]. split; [done|].
  unfold set_heap. simpl. f_equal. lia.
Qed.

(** The state after a response has been written and everything freed, except
    for [k] blocks the registered function has not freed *)
Definition replied (s s' : St) (callSN : Z) (out : list Z) (k : Z) : Prop :=
  outp s' = outp s ++ frame callSN out /\ nsock s' = nsock s - 1 /\ nlive s' = nlive s + k.

(** A message is answered by the function it names. *)
Lemma handle_message_eq t callSN name payload (s : St) :
  is_string name -> Z.of_nat (length name) < MAX_FUNC_NAME_LEN ->
  Z.of_nat (length (request name payload)) < 2 ^ 62 ->
  exists r b s1, reader_ok r /\ rest r = payload /\ buf_ok b /\ b_data b = [] /\
    nlive s1 = nlive s + 2 /\ outp s1 = outp s /\ nsock s1 = nsock s /\
    handle_message malloc_ok write_result t callSN (request name payload) s =
      (let* b' := respond malloc_ok (find_handler t name) r b in
       send_response write_result callSN b') s1.
Proof.
  unfold MAX_FUNC_NAME_LEN. intros Hname Hlen Hsize. unfold handle_message.
  destruct (reader_init_ok (request name payload)) as [Hr Hrest]; [lia|].
  unfold request in Hrest.
  destruct (read_bytes_app _ _ _ Hr Hrest) as (r1 & Hread1 & Hrest1 & Hr1).
  rewrite le_bytes_length in Hread1. change (Z.of_nat 2) with 2 in Hread1. rewrite Hread1.
  rewrite le_value_small by (change (256 ^ Z.of_nat 2) with (2 ^ 16); lia). unfold MAX_FUNC_NAME_LEN.
  rewrite (proj2 (Z.leb_gt _ _)) by lia.
  destruct (read_bytes_app _ _ _ Hr1 Hrest1) as (r2 & Hread2 & Hrest2 & Hr2). rewrite Hread2.
  rewrite (c_string_app name []) by done. change (default [] (Some name)) with name.
  destruct (buffer_new_ok 256 s) as (b & s1 & Hnew & Hb & Hd & ->); [lia|].
  rewrite (s_bind_OK _ _ _ _ _ Hnew). erewrite s_bind_OK by reflexivity.
  do 3 eexists. split; [exact Hr2|]. split; [done|]. split; [exact Hb|]. split; [done|].
  split; [|split; [|split; [|reflexivity]]]; cbn; lia || done.
Qed.

(** The same for a whole connection *)
Lemma handle_client_eq t callSN name payload (s : St) :
  is_string name -> Z.of_nat (length name) < MAX_FUNC_NAME_LEN -> 0 <= callSN < 2 ^ 32 ->
  Z.of_nat (length (request name payload)) <= MAX_MSG_LEN ->
  arrives_as (inp s) callSN (request name payload) ->
  exists r b s1, reader_ok r /\ rest r = payload /\ buf_ok b /\ b_data b = [] /\
    nlive s1 = nlive s + 3 /\ outp s1 = outp s /\ nsock s1 = nsock s /\
    handle_client malloc_ok write_result t s =
      (let* b' := respond malloc_ok (find_handler t name) r b in
       send_response write_result callSN b') s1.
Proof.
  unfold MAX_MSG_LEN. intros Hname Hlen Hsn Hsize (cs & Hinp & Hcs).
  unfold handle_client. rewrite (s_bind_OK _ _ _ _ _ (read_word _ _ _ Hinp)).
  change (g_rpc_magic_num mod 2 ^ 32) with g_rpc_magic_num. rewrite Z.eqb_refl. cbn [negb].
  erewrite s_bind_OK by (apply read_word; reflexivity). cbn [set_inp].
  erewrite s_bind_OK by (apply read_word; reflexivity). rewrite !Z.mod_small by lia.
  assert (0 < Z.of_nat (length (request name payload))) by
    (unfold request; rewrite !length_app, le_bytes_length; lia).
  rewrite (proj2 (Z.eqb_neq _ _)) by lia. unfold MAX_MSG_LEN. rewrite (proj2 (Z.ltb_ge _ _)) by lia.
  cbn [orb]. unfold alloc at 1, s_bind at 1. rewrite Hok. cbn [negb].
  set (s1 := set_heap _ _ _).
  destruct (read_sock_until_eq (Z.of_nat (length (request name payload))) s1) as (i & Hread & _); [lia|].
  rewrite (s_bind_OK _ _ _ _ _ Hread). change (inp s1) with cs. rewrite Hcs.
  rewrite (proj2 (Z.leb_le _ _)) by lia. rewrite Nat2Z.id, firstn_all.
  destruct (handle_message_eq t callSN name payload (set_inp s1 i) Hname Hlen ltac:(lia))
    as (r & b & s2 & ? & ? & ? & ? & Hlive & Ho & Hs & Hmsg).
  exists r, b, s2. do 4 (split; [done|]). split; [rewrite Hlive; cbn; lia|].
  split; [exact Ho|]. split; [exact Hs|exact Hmsg].
Qed.

(** Writing the response *)
Lemma send_response_ok callSN b s : b_len b < 2 ^ 32 ->
  exists s', send_response write_result callSN b s = OK (tt, s') /\
    outp s' = outp s ++ frame callSN (b_data b) /\ nsock s' = nsock s - 1 /\ nlive s' = nlive s - 3.
Proof.
  intros Hlen. unfold send_response. pose proof (b_len_pos b).
  erewrite s_bind_OK by apply write_all. erewrite s_bind_OK by apply write_all.
  erewrite s_bind_OK by apply write_all. erewrite s_bind_OK by apply write_all.
  eexists. split; [reflexivity|]. unfold frame. cbn [outp nsock nlive set_heap set_out set_sock nalloc].
  rewrite wrap_small by (unfold word; lia). unfold b_len. rewrite <- !app_assoc. split; [done|].
  split; [done|lia].
Qed.

(** What the function computes is what the client gets. *)
Lemma handle_client_ok t callSN name payload out k (s : St) :
  is_string name -> Z.of_nat (length name) < MAX_FUNC_NAME_LEN -> 0 <= callSN < 2 ^ 32 ->
  Z.of_nat (length (request name payload)) <= MAX_MSG_LEN ->
  Z.of_nat (length out) < 2 ^ 32 ->
  arrives_as (inp s) callSN (request name payload) ->
  (forall r b s, reader_ok r -> rest r = payload -> buf_ok b -> b_data b = [] ->
    exists b' s', respond malloc_ok (find_handler t name) r b s = OK (b', s') /\ b_data b' = out /\
      nlive s' = nlive s + k /\ outp s' = outp s /\ nsock s' = nsock s) ->
  exists s', handle_client malloc_ok write_result t s = OK (tt, s') /\ replied s s' callSN out k.
Proof.
  intros Hname Hlen Hsn Hsize Hout Hinp Hh.
  destruct (handle_client_eq t callSN name payload s Hname Hlen Hsn Hsize Hinp)
    as (r & b & s1 & Hr & Hrest & Hb & Hd & Hlive & Ho & Hs & ->).
  destruct (Hh r b s1 Hr Hrest Hb Hd) as (b' & s2 & Hresp & Hd' & Hlive' & Ho' & Hs').
  rewrite (s_bind_OK _ _ _ _ _ Hresp).
  destruct (send_response_ok callSN b' s2) as (s3 & Hsend & Hout3 & Hsock3 & Hlive3);
    [unfold b_len; by rewrite Hd'|].
  exists s3. split; [exact Hsend|]. unfold replied. rewrite Hout3, Hd', Ho', Ho. split; [done|]. lia.
Qed.

(** A function that fails takes the server with it. *)
Lemma handle_client_fails t callSN name payload e (s : St) :
  is_string name -> Z.of_nat (length name) < MAX_FUNC_NAME_LEN -> 0 <= callSN < 2 ^ 32 ->
  Z.of_nat (length (request name payload)) <= MAX_MSG_LEN ->
  arrives_as (inp s) callSN (request name payload) ->
  (forall r b s, reader_ok r -> rest r = payload -> buf_ok b -> b_data b = [] ->
    respond malloc_ok (find_handler t name) r b s = Er e) ->
  handle_client malloc_ok write_result t s = Er e.
Proof.
  intros Hname Hlen Hsn Hsize Hinp Hh.
  destruct (handle_client_eq t callSN name payload s Hname Hlen Hsn Hsize Hinp)
    as (r & b & s1 & Hr & Hrest & Hb & Hd & _ & _ & _ & ->).
  by rewrite (s_bind_Er _ _ _ _ (Hh r b s1 Hr Hrest Hb Hd)).
Qed.

End connection.

(** *** Any input *)

Lemma stream_bytes c : Forall is_bytes c -> is_bytes (stream c).
Proof.
  induction 1 as [|l c Hl Hc IH]; [constructor|]. destruct l; [constructor|].
  cbn [stream]. by apply Forall_app.
Qed.

(** Reading a word leaves everything but the input alone. *)
Lemma read_u32_any s : Forall is_bytes (inp s) -> exists o i,
  rpc_read_u32 s = OK (o, set_inp s i) /\ Forall is_bytes i /\
  match o with Some v => 0 <= v < 2 ^ 32 | None => True end.
Proof.
  intros Hb. unfold rpc_read_u32, s_bind, read_sock. destruct (inp s) as [|c cs] eqn:Hi.
  - exists None, []. split; [destruct s; simpl in *; by subst|]. done.
  - apply Forall_cons in Hb as [Hc Hcs]. change (Z.to_nat (int_count 4)) with 4%nat.
    do 2 eexists. split; [reflexivity|]. split.
    + assert (is_bytes (drop 4 c)) as Hd by (by apply Forall_drop).
      destruct (drop 4 c); [done|by constructor].
    + destruct (Z.eqb_spec (Z.of_nat (length (take 4 c))) 4) as [Hl|]; [|done].
      assert (is_bytes (take 4 c)) as Ht by (by apply Forall_take).
      apply le_value_range in Ht. rewrite Hl in Ht. exact Ht.
Qed.

(** ** What functions leave alone *)

(** A computation that writes to no socket, opens and closes none, and leaves
    at least [k] blocks more than there were *)
Definition preserving {A} (k : Z) (c : ST St A) : Prop := forall s a s', c s = OK (a, s') ->
  outp s' = outp s /\ nsock s' = nsock s /\ nlive s + k <= nlive s'.

Lemma pres_ret {A} (a : A) : preserving 0 (s_ret a).
Proof. intros s b s' [= <- <-]. split; [done|]. split; [done|lia]. Qed.

Lemma pres_fail {A} k e : preserving k (@s_fail St A e).
Proof. done. Qed.

Lemma pres_some {A} e (o : option A) : preserving 0 (s_some e o).
Proof. destruct o; [apply pres_ret|apply pres_fail]. Qed.

Lemma pres_bind {A B} k1 k2 (c : ST St A) (f : A -> ST St B) : preserving k1 c -> (forall a, preserving k2 (f a)) ->
  preserving (k1 + k2) (s_bind c f).
Proof.
  intros Hc Hf s b s' (a & s1 & H1 & H2)%s_bind_inv. apply Hc in H1 as (? & ? & ?). apply Hf in H2 as (? & ? & ?).
  split; [congruence|]. split; [congruence|lia].
Qed.

Lemma pres_bind0 {A B} (c : ST St A) (f : A -> ST St B) : preserving 0 c -> (forall a, preserving 0 (f a)) -> preserving 0 (s_bind c f).
Proof. apply (pres_bind 0 0). Qed.

Lemma pres_alloc malloc_ok : preserving 0 (alloc malloc_ok).
Proof. unfold alloc. intros s a s'. destruct (malloc_ok _); intros [= <- <-]; cbn; (split; [done|]); (split; [done|lia]). Qed.

Lemma pres_append malloc_ok b l : preserving 0 (buffer_append malloc_ok b l).
Proof.
  unfold buffer_append, append_at. assert (forall cap, preserving 0 (if b_len b + Z.of_nat (length l) <=? cap
    then s_ret (0, Buf (b_data b ++ l) cap) else s_fail OutOfBounds)) as Hat by (intros cap; case_if; [apply pres_ret|done]).
  case_if; [|apply Hat]. apply pres_bind0; [|intros a; case_if; [apply pres_ret|apply Hat]].
  unfold realloc. intros s a s'. destruct (malloc_ok _); intros [= <- <-]; cbn; (split; [done|]); (split; [done|lia]).
Qed.

Lemma pres_just {c} : preserving 0 c -> preserving 0 (just c).
Proof. intros Hc. apply pres_bind0; [done|intros; apply pres_ret]. Qed.

Lemma pres_append_dt malloc_ok b dt v isAr : preserving 0 (buffer_append_dt malloc_ok b dt v isAr).
Proof.
  assert (forall str, preserving 0 (if negb (Bool.eqb isAr (is_array v)) then s_fail OutOfBounds else
    let len := u16 (Z.of_nat (length str)) in
    let* r := buffer_append malloc_ok b (le_bytes 2 len) in
    if negb (fst r =? 0) then s_ret r else buffer_append malloc_ok (snd r) (take (Z.to_nat len) str))) as Hstr.
  { intros str. case_if; [apply pres_fail|]. apply pres_bind0; [apply pres_append|]. intros r.
    case_if; [apply pres_ret|apply pres_append]. }
  assert (forall r : Z * buffer, preserving (-1) (free ;* s_ret r)) as Hfree.
  { intros r s a s' [= <- <-]. cbn. split; [done|]. split; [done|lia]. }
  destruct dt, v; cbn [buffer_append_dt]; try apply pres_fail; try apply pres_append; try apply Hstr.
  intros s a s' Hrun. apply s_bind_inv in Hrun as (ok & s1 & Ha & Hrun). unfold alloc in Ha.
  destruct (malloc_ok (nalloc s)); injection Ha as <- <-; cbn [negb] in Hrun.
  - assert (preserving (-1) (let* r := buffer_append malloc_ok b (le_bytes 2 (Z.of_nat (length packed))) in
      if negb (fst r =? 0) then free ;* s_ret r else
      let* r := buffer_append malloc_ok (snd r) packed in free ;* s_ret r)) as Hp.
    { apply (pres_bind 0 (-1)); [apply pres_append|]. intros r. case_if; [apply Hfree|].
      apply (pres_bind 0 (-1)); [apply pres_append|done]. }
    apply Hp in Hrun as (? & ? & Hl). cbn in *. split; [done|]. split; [done|lia].
  - injection Hrun as <- <-. cbn. split; [done|]. split; [done|lia].
Qed.

Lemma pres_push_arg malloc_ok b x : preserving 0 (push_arg malloc_ok b x).
Proof. apply pres_bind0; [apply pres_just, pres_append|intros; apply pres_just, pres_append_dt]. Qed.

Lemma pres_push_args malloc_ok xs b : preserving 0 (push_args malloc_ok b xs).
Proof.
  apply pres_bind0; [apply pres_just, pres_append|]. intros b1. revert b1. induction xs as [|x xs IH]; intros b1; cbn [push_each]; [apply pres_ret|].
  apply pres_bind0; [apply pres_push_arg|exact IH].
Qed.

Lemma pres_make_rsp malloc_ok b res xs : preserving 0 (make_rsp malloc_ok b res xs).
Proof. apply pres_bind0; [apply pres_just, pres_append|intros; apply pres_push_args]. Qed.

(** Parsing, with a function for the arguments that keeps to the same *)
Lemma pres_parse {A} malloc_ok (h : handle_arg A) r u : (forall u dt v n, preserving 0 (h u dt v n)) ->
  preserving 0 (rpc_parse_req_args malloc_ok r u h).
Proof.
  intros Hh. unfold rpc_parse_req_args. destruct (match reader_read_bytes r 1 with Some (l, r') => (le_value l, r') | None => (0, r) end)
    as [narg r1]. assert (forall n i r u, preserving 0 (parse_args malloc_ok n i r u h)) as Hall; [|apply Hall].
  induction n as [|n IH]; intros i r2 u2; cbn [parse_args]; [apply pres_ret|].
  apply pres_bind0; [|intros [[c r3] u3]; case_if; [apply pres_ret|apply IH]]. unfold parse_arg.
  assert (forall dt v m (r3 : reader), preserving 0 (let* res := h u2 dt v m in s_ret (if fst res =? 0 then 0 else 1, r3, snd res))) as Hone.
  { intros. apply pres_bind0; [apply Hh|intros; apply pres_ret]. }
  destruct (match reader_read_bytes r2 1 with Some (l, r') => (dt_of (le_value l), r') | None => (Some DT_UNKNOWN, r2) end) as [[dt|] r3];
    [|apply pres_ret]. destruct (dt_width dt) as [m|].
  - destruct (reader_read_bytes r3 (Z.of_nat m)) as [[l r4]|]; [apply Hone|apply pres_ret].
  - case_if; [|apply pres_ret]. destruct (reader_read_bytes r3 2) as [[l r4]|]; [|apply pres_ret].
    apply pres_bind0; [apply pres_alloc|]. intros p. destruct (reader_read_bytes r4 (le_value l)) as [[body r5]|]; [|apply pres_ret].
    case_if; [apply pres_fail|apply Hone].
Qed.

(** A registered function *)
Definition well_behaved (h : rpc_handler_t) : Prop := forall r b, preserving 0 (h r b).

(** One of the functions fails with [e] when it is called as the server calls it. *)
Definition function_fails (t : list handler_entry) (e : error) : Prop := exists x r b s,
  x ∈ t /\ reader_ok r /\ is_bytes (r_data r) /\ buf_ok b /\ b_data b = [] /\ e_handler x r b s = Er e.

Section any.
Variable malloc_ok : nat -> bool.
Variable write_result : nat -> Z -> Z.
Hypothesis Hok : forall n, malloc_ok n = true.

(** The four parts of a response *)
Definition parts (sn : Z) (out : list Z) : list (list Z) :=
  [le_bytes 4 g_rpc_magic_num; le_bytes 4 sn; le_bytes 4 (u32 (Z.of_nat (length out))); out].

(** Each part is written by one call, which may take a part of it only. *)
Definition cut_short (l : list (list Z)) (r : list Z) : Prop := exists ps, Forall2 prefix ps l /\ r = concat ps.

(** What a connection is sent: nothing, or one response, which is whole when
    every write is. *)
Definition answer (r : list Z) : Prop :=
  r = [] \/ exists sn out, cut_short (parts sn out) r /\ (writes_all write_result -> r = concat (parts sn out)).

(** At most one response has been written, no memory is lost track of below
    what there was, and the socket is closed. *)
Definition served (s s' : St) : Prop :=
  nsock s' = nsock s - 1 /\ nlive s <= nlive s' /\ exists r, outp s' = outp s ++ r /\ answer r.

Lemma served_nothing s s' : nsock s' = nsock s - 1 -> nlive s <= nlive s' -> outp s' = outp s -> served s s'.
Proof. intros H1 H2 H3. split; [done|]. split; [done|]. exists []. rewrite app_nil_r. split; [done|by left]. Qed.

Lemma respond_any t name r b s : Forall (fun e => well_behaved (e_handler e)) t ->
  reader_ok r -> buf_ok b -> is_bytes (r_data r) -> b_data b = [] ->
  (exists b' s', respond malloc_ok (find_handler t name) r b s = OK (b', s') /\
    outp s' = outp s /\ nsock s' = nsock s /\ nlive s <= nlive s') \/
  (exists e, respond malloc_ok (find_handler t name) r b s = Er e /\ function_fails t e).
Proof.
  intros Ht Hr Hb Hbytes Hd. destruct (find_handler t name) as [h|] eqn:Hf; cbn [respond].
  - assert (exists x, x ∈ t /\ e_handler x = h) as (x & Hx & <-).
    { clear - Hf. induction t as [|e t IH]; [done|]. cbn [find_handler] in Hf. destruct (bool_decide _).
      - injection Hf as <-. exists e. split; [left|done].
      - destruct (IH Hf) as (x & Hx & Hh). exists x. split; [by right|done]. }
    rewrite Forall_forall in Ht. destruct (e_handler x r b s) as [[b' s']|e] eqn:Hrun.
    + left. exists b', s'. split; [done|]. apply (Ht x Hx) in Hrun as (? & ? & ?). split; [done|]. split; [done|lia].
    + right. exists e. split; [done|]. by exists x, r, b, s.
  - left. destruct (appends_seq _ _ _ _ (appends_bytes malloc_ok Hok (le_bytes 1 RPC_ERR))
      (appends_seq _ _ _ _ (appends_bytes malloc_ok Hok (le_bytes 4 (Z.of_nat (length not_found))))
        (appends_bytes malloc_ok Hok not_found)) b s Hb) as (b' & s' & Hrun & [n ->] & _).
    + unfold b_len. rewrite Hd. vm_compute. reflexivity.
    + do 2 eexists. split; [exact Hrun|]. simpl. split; [done|]. split; [done|lia].
Qed.

Lemma handle_message_any t sn msg s : Forall (fun e => well_behaved (e_handler e)) t ->
  is_bytes msg -> Z.of_nat (length msg) <= MAX_MSG_LEN ->
  (exists s', handle_message malloc_ok write_result t sn msg s = OK (tt, s') /\
    served (set_heap s (nalloc s) (nlive s - 1)) s') \/
  (exists e, handle_message malloc_ok write_result t sn msg s = Er e /\ function_fails t e).
Proof.
  unfold MAX_MSG_LEN. intros Ht Hb Hlen. unfold handle_message.
  assert (served (set_heap s (nalloc s) (nlive s - 1))
    (set_sock (set_heap s (nalloc s) (nlive s - 1)) (nsock s - 1))) as Hclose.
  { apply served_nothing; cbn; done || lia. }
  destruct (reader_init_ok msg) as [Hr _]; [lia|].
  pose proof (reader_read_bytes_correct (reader_init msg) 2 Hr ltac:(lia)) as Hread1.
  destruct (reader_read_bytes (reader_init msg) 2) as [[l r1]|] eqn:He1;
    [|left; eexists; split; [reflexivity|exact Hclose]].
  destruct Hread1 as (Hl & Hrest & Hr1).
  destruct (advances_read (reader_init msg) 2 l r1 Hr ltac:(lia) He1) as [(Hd1 & _ & _) _]. cbn [r_data reader_init] in Hd1.
  assert (is_bytes l) as Hbl.
  { unfold rest in Hrest at 1. cbn [r_data r_pos reader_init] in Hrest. rewrite drop_0 in Hrest.
    rewrite Hrest in Hb. by apply Forall_app in Hb as [? _]. }
  apply le_value_range in Hbl. rewrite Hl in Hbl.
  destruct (MAX_FUNC_NAME_LEN <=? le_value l) eqn:Hn; [left; eexists; split; [reflexivity|exact Hclose]|].
  unfold MAX_FUNC_NAME_LEN in Hn. bool_to_prop.
  destruct (reader_read_bytes r1 (le_value l)) as [[name r2]|] eqn:He2;
    [|left; eexists; split; [reflexivity|exact Hclose]].
  destruct (advances_read r1 (le_value l) name r2 Hr1 ltac:(lia) He2) as [(Hd2 & _ & Hr2) _].
  destruct (buffer_new_ok malloc_ok Hok 256 s) as (b & s1 & Hnew & Hbuf & Hd & ->); [lia|].
  rewrite (s_bind_OK _ _ _ _ _ Hnew). erewrite s_bind_OK by reflexivity.
  destruct (respond_any t (default [] (c_string (name ++ [0]))) r2 b
    (set_heap s (S (S (nalloc s))) (nlive s + 2)) Ht Hr2 Hbuf) as [(b' & s2 & Hresp & Ho & Hs & Hlive)|(e & Hresp & He)];
    [by rewrite Hd2, Hd1|done| |].
  2:{ right. exists e. by rewrite (s_bind_Er _ _ _ _ Hresp). }
  rewrite (s_bind_OK _ _ _ _ _ Hresp). left.
  unfold send_response, write_sock. do 4 (erewrite s_bind_OK by reflexivity).
  eexists. split; [reflexivity|]. unfold served. cbn in *. rewrite Hs, Ho. split; [done|]. split; [lia|].
  rewrite <- !app_assoc. eexists. split; [reflexivity|]. right. exists sn, (b_data b'). unfold parts, b_len. split.
  - eexists [_; _; _; _]. split; [|cbn [concat]; by rewrite app_nil_r].
    repeat (apply Forall2_cons; split; [apply prefix_take|]). by apply Forall2_nil.
  - intros Hw. rewrite !Hw, !Nat2Z.id. cbn [concat]. by rewrite !firstn_all, app_nil_r.
Qed.

(** The whole of [handle_client] *)
Lemma handle_client_serves t s : Forall (fun e => well_behaved (e_handler e)) t -> Forall is_bytes (inp s) ->
  (exists s', handle_client malloc_ok write_result t s = OK (tt, s') /\ served s s') \/
  (exists e, handle_client malloc_ok write_result t s = Er e /\ function_fails t e).
Proof.
  intros Ht Hb. unfold handle_client.
  assert (forall i, exists s', close_sock (set_inp s i) = OK (tt, s') /\ served s s') as Hclose.
  { intros i. eexists. split; [reflexivity|]. apply served_nothing; cbn; done || lia. }
  destruct (read_u32_any s Hb) as (o1 & i1 & H1 & Hb1 & _). rewrite (s_bind_OK _ _ _ _ _ H1).
  destruct o1 as [mn|]; [|left; apply Hclose]. case_if; [left; apply Hclose|].
  destruct (read_u32_any (set_inp s i1) Hb1) as (o2 & i2 & H2 & Hb2 & _). rewrite (s_bind_OK _ _ _ _ _ H2).
  destruct o2 as [sn|]; [|left; apply Hclose].
  destruct (read_u32_any (set_inp s i2) Hb2) as (o3 & i3 & H3 & Hb3 & Ho3).
  erewrite s_bind_OK by exact H3. destruct o3 as [len|]; [|left; apply Hclose].
  destruct ((len =? 0) || (MAX_MSG_LEN <? len)) eqn:Hlen; [left; apply Hclose|].
  unfold MAX_MSG_LEN in Hlen. bool_to_prop.
  set (s1 := set_heap (set_inp (set_inp s i2) i3) (S (nalloc s)) (nlive s + 1)).
  assert (alloc malloc_ok (set_inp (set_inp s i2) i3) = OK (true, s1)) as Ha by (unfold alloc; by rewrite Hok).
  rewrite (s_bind_OK _ _ _ _ _ Ha). cbn [negb].
  destruct (read_sock_until_eq len s1) as (i & Hread & _); [lia|].
  rewrite (s_bind_OK _ _ _ _ _ Hread). change (inp s1) with i3.
  destruct (len <=? Z.of_nat (length (stream i3))) eqn:Hl; bool_to_prop.
  - destruct (handle_message_any t sn
      (take (Z.to_nat len) (stream i3)) (set_inp s1 i) Ht) as [(s' & Hrun & Hs)|Hfail].
    + by apply Forall_take, stream_bytes.
    + rewrite length_take. unfold MAX_MSG_LEN. lia.
    + left. exists s'. split; [exact Hrun|]. unfold served in *. cbn in Hs. 
      replace (nlive s + 1 - 1) with (nlive s) in Hs by lia. exact Hs.
    + right. destruct Hfail as (e & Hrun & He). exists e. split; [exact Hrun|exact He].
  - left. eexists. split; [reflexivity|]. apply served_nothing; cbn; done || lia.
Qed.

End any.

(** No client can make the server fail by what it sends: for any bytes in
    any chunks [handle_client] ends, closes the connection exactly once, and
    writes either nothing or one response, whole if every write is; unless the
    registered function that is called fails itself. *)
Theorem handle_client_any (malloc_ok : nat -> bool) (write_result : nat -> Z -> Z)
    (t : list handler_entry) (s : St) :
  (forall n, malloc_ok n = true) ->
  Forall (fun e => well_behaved (e_handler e)) t -> Forall is_bytes (inp s) ->
  (exists s', handle_client malloc_ok write_result t s = OK (tt, s') /\ served write_result s s') \/
  (exists e, handle_client malloc_ok write_result t s = Er e /\ function_fails t e).
Proof. intros Hok Ht Hb. by apply handle_client_serves. Qed.

Lemma handle_client_any_witness :
  let s := MkSt 0 0 [le_bytes 4 g_rpc_magic_num; [1; 0; 0; 0; 4; 0]; [0; 0; 9; 9]] [] 0 1 in
  exists s', handle_client (fun _ => true) (fun _ l => l) [Entry [115] (fun _ b => s_ret b)] s = OK (tt, s') /\
    served (fun _ l => l) s s'.
Proof.
  intros s. destruct (handle_client_any (fun _ => true) (fun _ l => l) [Entry [115] (fun _ b => s_ret b)] s)
    as [H|(e & Hrun & _)]; [done| | |exact H|by vm_compute in Hrun].
  - constructor; [intros r b; apply pres_ret|constructor].
  - repeat constructor; unfold is_byte; vm_compute; congruence.
Defined.
