(* ===== verification/RpcClient.v ===== *)
(** * The RPC client [cmake/rpc_c/rpc_client.c] and the response of a call

    A response object starts out indeterminate, as the local variables of the
    callers are; fields that have not been written are [None]. *)

From S2P Require Import Prelude Words Monad Bytes RpcBuffer RpcWire RpcServer.

Local Open Scope Z_scope.
Local Open Scope st_scope.

(** [object_t] and [rpc_rsp_t] *)
Record object_t : Type := Object { o_type : option data_type_t; o_v : option value }.
Record rpc_rsp_t : Type := Rsp { res : option Z; rsp_data : object_t }.

Definition rsp_uninit : rpc_rsp_t := Rsp None (Object None None).

(** A 64-bit object read as [int64_t] *)
Definition s64 (v : Z) : Z := if v <? 2 ^ 63 then v else v - 2 ^ 64.

Definition rsp_base_data : handle_arg object_t := fun bd dt v vlen =>
  match dt, v with
  | (DT_S8 | DT_U8 | DT_S16 | DT_U16 | DT_S32 | DT_U32 | DT_S64 | DT_U64), VInt x =>
      s_ret (0, Object (Some dt) (Some (VInt (s64 x))))
  | (DT_S8P | DT_U8P | DT_S8CP | DT_U8CP), VStr s =>
      s_ret (0, Object (Some dt) (Some (VStr s)))
  | _, _ => s_ret (1, bd)
  end.

Section client.
Variable malloc_ok : nat -> bool.
Variable write_result : nat -> Z -> Z.
Notation ST := (ST St).
Notation write_sock := (write_sock write_result).

Definition rpc_get_rsp (rspData : rpc_rsp_t) (requireCallSN : Z) : ST (Z * rpc_rsp_t) :=
  let* mn := rpc_read_u32 in
  match mn with
  | None => s_ret (-1, rspData)
  | Some mn =>
      if negb (mn =? g_rpc_magic_num) then s_ret (-1, rspData) else
      let* sn := rpc_read_u32 in
      match sn with
      | None => s_ret (-1, rspData)
      | Some callSN =>
          let* len := rpc_read_u32 in
          match len with
          | None => s_ret (-1, rspData)
          | Some resp_len =>
              let* p := alloc malloc_ok in
              if negb p then s_ret (-1, rspData) else
              let* m := read_sock_until resp_len in
              match m with
              | None => free ;* s_ret (-1, rspData)
              | Some rsp =>
                  match reader_read_uint8 (reader_init rsp) with
                  | None => free ;* s_ret (-1, rspData)
                  | Some (result_type, r) =>
                      if requireCallSN =? callSN then
                        let* x := rpc_parse_req_args malloc_ok r (rsp_data rspData) rsp_base_data in
                        let '(ret, _, d) := x in
                        free ;* s_ret (ret, Rsp (Some result_type) d)
                      else free ;* s_ret (-1, Rsp (Some result_type) (rsp_data rspData))
                  end
              end
          end
      end
  end.

Definition rpc_rsp_release (rsp : rpc_rsp_t) : ST rpc_rsp_t :=
  let* t := s_some Uninit (o_type (rsp_data rsp)) in
  s_when (dt_string t) free ;*
  s_ret (Rsp (res rsp) (Object (Some DT_UNKNOWN)
    (if dt_string t then None else o_v (rsp_data rsp)))).

(** What the system answers to [socket], [gethostbyname] and [connect] *)
Record network : Type := Net { sock_ok : bool; host_ok : bool; connect_ok : bool }.

(** [if (write_sock(sock, l) != |l|) { buffer_free(buf); close_sock(sock); return -1; }] *)
Definition send (l : list Z) (buf : buffer) (rsp : rpc_rsp_t) (k : ST (Z * rpc_rsp_t))
  : ST (Z * rpc_rsp_t) :=
  let* n := write_sock l in
  if negb (n =? Z.of_nat (length l)) then buffer_free (Some buf) ;* close_sock ;* s_ret (-1, rsp)
  else k.

(** [rpc_call] with the previous value of its static counter: the code, the new
    counter and the response *)
Definition rpc_call (net : network) (sn : Z) (buf : option buffer) (result : rpc_rsp_t)
  : ST (Z * Z * rpc_rsp_t) :=
  let callSN := u32 (sn + 1) in
  if negb (sock_ok net) then s_ret (-1, callSN, result) else
  s_mod (fun s => set_sock s (nsock s + 1)) ;*
  if negb (host_ok net) then close_sock ;* s_ret (-1, callSN, result) else
  if negb (connect_ok net) then close_sock ;* s_ret (-1, callSN, result) else
  let* x :=
    (let* b := s_some NullDeref buf in
     send (le_bytes 4 g_rpc_magic_num) b result (
     send (le_bytes 4 callSN) b result (
     send (le_bytes 4 (b_len b)) b result (
     send (b_data b) b result (
     buffer_free (Some b) ;*
     let* x := rpc_get_rsp result callSN in
     close_sock ;*
     s_ret x))))) in
  s_ret (fst x, callSN, snd x).

End client.

(** ** Receiving a response *)

Section receive.
Variable malloc_ok : nat -> bool.
Variable write_result : nat -> Z -> Z.
Hypothesis Hok : forall n, malloc_ok n = true.

(** A response made by [RPC_MAKE_RSP] *)
Definition rsp_bytes (code : Z) (xs : list arg) : list Z :=
  le_bytes 1 code ++ le_bytes 1 (Z.of_nat (length xs)) ++ args_bytes xs.

(** A response with the right number is decoded by the parser. *)
Lemma rpc_get_rsp_body (sn code : Z) payload rsp (s : St) :
  0 <= sn < 2 ^ 32 -> 0 <= code < 256 -> Z.of_nat (length payload) < 2 ^ 30 ->
  arrives_as (inp s) sn (code :: payload) ->
  exists i r, reader_ok r /\ rest r = payload /\
  rpc_get_rsp malloc_ok rsp sn s =
  match rpc_parse_req_args malloc_ok r (rsp_data rsp) rsp_base_data
      (set_inp (set_heap s (S (nalloc s)) (nlive s + 1)) i) with
  | OK ((c, _, d), s') => OK ((c, Rsp (Some code) d), set_heap s' (nalloc s') (nlive s' - 1))
  | Er e => Er e
  end.
Proof.
  intros Hsn Hcode Hlen (cs & Hinp & Hcs). unfold rpc_get_rsp.
  rewrite (s_bind_OK _ _ _ _ _ (read_word _ _ _ Hinp)).
  change (g_rpc_magic_num mod 2 ^ 32) with g_rpc_magic_num. rewrite Z.eqb_refl. cbn [negb].
  erewrite s_bind_OK by (apply read_word; reflexivity). cbn [set_inp].
  erewrite s_bind_OK by (apply read_word; reflexivity).
  assert (0 <= Z.of_nat (length (code :: payload)) < 2 ^ 31) as Hl by (cbn [length]; lia).
  rewrite !Z.mod_small by lia.
  unfold alloc at 1, s_bind at 1. rewrite Hok. cbn [negb]. set (s1 := set_heap (set_inp _ _) _ _).
  destruct (read_sock_until_eq (Z.of_nat (length (code :: payload))) s1) as (i & Hread & _); [lia|].
  rewrite (s_bind_OK _ _ _ _ _ Hread). change (inp s1) with cs. rewrite Hcs.
  rewrite (proj2 (Z.leb_le _ _)) by lia. rewrite Nat2Z.id, firstn_all.
  destruct (reader_init_ok (code :: payload)) as [Hr Hrest]; [lia|].
  destruct (read_u8_app _ code payload Hr) as (r & Hu8 & Hrest1 & Hr1); [unfold is_byte; lia|done|].
  exists i, r. split; [done|]. split; [done|]. rewrite Hu8, Z.eqb_refl.
  change (set_inp (set_heap s (S (nalloc s)) (nlive s + 1)) i) with (set_inp s1 i).
  destruct (rpc_parse_req_args malloc_ok r (rsp_data rsp) rsp_base_data (set_inp s1 i))
    as [[[[c r'] d] s']|e] eqn:Hp.
  - by rewrite (s_bind_OK _ _ _ _ _ Hp).
  - by rewrite (s_bind_Er _ _ _ _ Hp).
Qed.

Lemma rsp_bytes_cons code xs : 0 <= code < 256 ->
  rsp_bytes code xs = code :: le_bytes 1 (Z.of_nat (length xs)) ++ args_bytes xs.
Proof. intros. unfold rsp_bytes. simpl. by rewrite Z.mod_small by lia. Qed.

(** The response is decoded by feeding its values to [rsp_base_data]. *)
Lemma rpc_get_rsp_eq (sn code : Z) xs rsp (s : St) :
  0 <= sn < 2 ^ 32 -> 0 <= code < 256 -> Forall arg_ok xs -> Z.of_nat (length xs) < 256 ->
  Z.of_nat (length (rsp_bytes code xs)) < 2 ^ 30 -> arrives_as (inp s) sn (rsp_bytes code xs) ->
  exists i,
  rpc_get_rsp malloc_ok rsp sn s =
  match feed malloc_ok 0 xs (rsp_data rsp) rsp_base_data
      (set_inp (set_heap s (S (nalloc s)) (nlive s + 1)) i) with
  | OK ((c, d), s') => OK ((c, Rsp (Some code) d), set_heap s' (nalloc s') (nlive s' - 1))
  | Er e => Er e
  end.
Proof.
  intros Hsn Hcode Hxs Hn Hlen Hinp. rewrite rsp_bytes_cons in Hinp, Hlen by done. cbn [length] in Hlen.
  destruct (rpc_get_rsp_body sn code (le_bytes 1 (Z.of_nat (length xs)) ++ args_bytes xs) rsp s
    Hsn Hcode ltac:(lia) Hinp) as (i & r & Hr & Hrest & ->).
  exists i. set (s0 := set_inp _ i).
  pose proof (rpc_parse_app malloc_ok Hok xs r [] (rsp_data rsp) rsp_base_data s0 Hxs Hn Hr) as Hparse.
  rewrite app_nil_r in Hparse. specialize (Hparse Hrest).
  destruct (feed malloc_ok 0 xs (rsp_data rsp) rsp_base_data s0) as [[[c d] s']|e].
  - by destruct Hparse as (r' & -> & _).
  - by rewrite Hparse.
Qed.

(** A call on a working network: the request is written, its buffer freed, and
    the response awaited. *)
Lemma rpc_call_sends net (sn : Z) (b : buffer) rsp (s : St) :
  sock_ok net && host_ok net && connect_ok net = true -> writes_all write_result -> b_len b < 2 ^ 32 ->
  exists s1, inp s1 = inp s /\ outp s1 = outp s ++ frame (u32 (sn + 1)) (b_data b) /\
    nlive s1 = nlive s - 2 /\ nsock s1 = nsock s + 1 /\
    rpc_call malloc_ok write_result net sn (Some b) rsp s =
      (let* x := rpc_get_rsp malloc_ok rsp (u32 (sn + 1)) in
       close_sock ;* s_ret (fst x, u32 (sn + 1), snd x)) s1.
Proof.
  intros [[Hsock Hhost]%andb_true_iff Hconn]%andb_true_iff Hw Hlen. pose proof (b_len_pos b).
  unfold rpc_call. rewrite Hsock, Hhost, Hconn. cbn [negb].
  erewrite s_bind_OK by reflexivity.
  assert (forall l k s, send write_result l b rsp k s =
    k (set_out s (outp s ++ l) (S (nwrite s)))) as Hsend.
  { intros l k s0. unfold send. erewrite s_bind_OK by (by apply write_all).
    by rewrite Z.eqb_refl. }
  unfold s_bind at 1. erewrite (s_bind_OK (s_some _ _)) by reflexivity. rewrite !Hsend.
  unfold buffer_free. unfold s_bind at 1 2. unfold free.
  match goal with |- context [s_bind (rpc_get_rsp _ _ _) _ ?s1] => exists s1 end.
  split; [|split; [|split; [|split]]]; [| | | |
    unfold s_bind; destruct (rpc_get_rsp malloc_ok rsp (u32 (sn + 1)) _) as [[x s']|e]; reflexivity].
  all: cbn; try done.
  - unfold frame, b_len. by rewrite <- !app_assoc.
  - lia.
Qed.

End receive.

(** A write that is not accepted whole *)
Lemma send_fails write_result l b rsp k (s : St) :
  write_result (nwrite s) (Z.of_nat (length l)) <> Z.of_nat (length l) ->
  exists s', send write_result l b rsp k s = OK ((-1, rsp), s') /\
    nlive s' = nlive s - 2 /\ nsock s' = nsock s - 1.
Proof.
  intros Hwr. unfold send. erewrite s_bind_OK by reflexivity.
  rewrite (proj2 (Z.eqb_neq _ _)) by done. cbn [negb].
  eexists. split; [reflexivity|]. cbn. lia.
Qed.

(** A call that cannot reach the server leaks its request: when the host is
    unknown or the connection is refused, [rpc_call] returns -1 and closes the
    socket but does not free the buffer, which it frees on every other path and
    to which the caller keeps no claim; a failed write does free it. *)
Theorem rpc_call_unreachable_leaks (malloc_ok : nat -> bool) (write_result : nat -> Z -> Z)
    (sn : Z) (b : buffer) (rsp : rpc_rsp_t) (net : network) (s : St) :
  sock_ok net = true ->
  (host_ok net && connect_ok net = false ->
    exists s', rpc_call malloc_ok write_result net sn (Some b) rsp s = OK ((-1, u32 (sn + 1), rsp), s') /\
      nlive s' = nlive s /\ nsock s' = nsock s) /\
  (host_ok net && connect_ok net = true -> write_result (nwrite s) 4 <> 4 ->
    exists s', rpc_call malloc_ok write_result net sn (Some b) rsp s = OK ((-1, u32 (sn + 1), rsp), s') /\
      nlive s' = nlive s - 2 /\ nsock s' = nsock s).
Proof.
  intros Hsock. unfold rpc_call. rewrite Hsock. cbn [negb]. split.
  - intros Hnet. erewrite s_bind_OK by reflexivity.
    destruct (host_ok net), (connect_ok net); try discriminate Hnet; cbn [negb];
      (eexists; split; [reflexivity|]; cbn; split; [done|lia]).
  - intros [-> ->]%andb_true_iff Hwr. cbn [negb]. erewrite s_bind_OK by reflexivity.
    edestruct (send_fails write_result (le_bytes 4 g_rpc_magic_num) b rsp) as (s' & Hrun & Hl & Hs);
      [|erewrite s_bind_OK by exact Hrun; eexists; split; [reflexivity|]]; [exact Hwr|].
    rewrite Hl, Hs. cbn. lia.
Qed.

Lemma rpc_call_unreachable_leaks_witness :
  (true && false = false ->
    exists s', rpc_call (fun _ => true) (fun _ l => l) (Net true true false) 6 (Some (Buf [1] 9)) rsp_uninit
      (MkSt 2 2 [] [] 0 0) = OK ((-1, u32 7, rsp_uninit), s') /\ nlive s' = 2 /\ nsock s' = 0) /\
  (true && false = true -> 4 <> 4 -> exists s',
    rpc_call (fun _ => true) (fun _ l => l) (Net true true false) 6 (Some (Buf [1] 9)) rsp_uninit
      (MkSt 2 2 [] [] 0 0) = OK ((-1, u32 7, rsp_uninit), s') /\ nlive s' = 2 - 2 /\ nsock s' = 0).
Proof.
  apply (rpc_call_unreachable_leaks (fun _ => true) (fun _ l => l) 6 (Buf [1] 9) rsp_uninit
    (Net true true false) (MkSt 2 2 [] [] 0 0)). done.
Defined.

(** The report that there is no such function *)
Definition not_found_bytes : list Z := RPC_ERR :: le_bytes 4 (Z.of_nat (length not_found)) ++ not_found.

(** A call of a name that is not registered is answered by a report that
    the client cannot read: its text is written in another format than the
    arguments of a response, so the parser takes the length for the number of
    values and stops at the first; the client sees the code 1, and the response
    object keeps the indeterminate contents it had. *)
Theorem unknown_function (malloc_ok : nat -> bool) (write_result : nat -> Z -> Z)
    (t : list handler_entry) (name payload : list Z) (sn : Z) (rsp : rpc_rsp_t) (s c : St) :
  (forall n, malloc_ok n = true) -> writes_all write_result ->
  is_string name -> Z.of_nat (length name) < MAX_FUNC_NAME_LEN -> find_handler t name = None ->
  0 <= sn < 2 ^ 32 -> Z.of_nat (length (request name payload)) <= MAX_MSG_LEN ->
  arrives_as (inp s) sn (request name payload) ->
  (exists s', handle_client malloc_ok write_result t s = OK (tt, s') /\
     replied s s' sn not_found_bytes 0) /\
  (arrives_as (inp c) sn not_found_bytes ->
   exists c', rpc_get_rsp malloc_ok rsp sn c = OK ((1, Rsp (Some RPC_ERR) (rsp_data rsp)), c') /\
     nlive c' = nlive c).
Proof.
  intros Hok Hw Hname Hlen Hfind Hsn Hsize Hinp. split.
  - apply (handle_client_ok malloc_ok write_result Hok Hw t sn name payload); try done.
    rewrite Hfind. cbn [respond]. intros r b s1 _ _ Hb Hd.
    destruct (appends_seq _ _ _ _ (appends_bytes malloc_ok Hok (le_bytes 1 RPC_ERR))
      (appends_seq _ _ _ _ (appends_bytes malloc_ok Hok (le_bytes 4 (Z.of_nat (length not_found))))
        (appends_bytes malloc_ok Hok not_found)) b s1 Hb) as (b' & s' & Hrun & [n ->] & Hd' & _);
      [unfold b_len; rewrite Hd; by vm_compute|].
    do 2 eexists. split; [exact Hrun|]. rewrite Hd', Hd. cbn. split; [done|]. split; [lia|done].
  - intros Harr. unfold not_found_bytes in Harr.
    destruct (rpc_get_rsp_body malloc_ok Hok sn RPC_ERR (le_bytes 4 (Z.of_nat (length not_found)) ++ not_found)
        rsp c Hsn ltac:(done) ltac:(done) Harr)
      as (i & r & Hr & Hrest & ->).
    destruct (read_bytes_app r [18] ([0; 0; 0] ++ not_found) Hr Hrest) as (r1 & Hread & Hrest1 & Hr1).
    destruct (read_bytes_app r1 [0] ([0; 0] ++ not_found) Hr1 Hrest1) as (r2 & Hread2 & Hrest2 & Hr2).
    eexists. unfold rpc_parse_req_args. change (Z.of_nat (length [18])) with 1 in Hread.
    change (Z.of_nat (length [0])) with 1 in Hread2. rewrite Hread.
    change (Z.to_nat (le_value [18])) with 18%nat. cbn [parse_args]. unfold s_bind, parse_arg. rewrite Hread2.
    change (dt_of (le_value [0])) with (Some DT_UNKNOWN). split; [reflexivity|]. cbn. lia.
Qed.

Lemma unknown_function_witness :
  let s b := MkSt 0 0 [le_bytes 4 g_rpc_magic_num; le_bytes 4 7; le_bytes 4 (Z.of_nat (length b)); b] [] 0 1 in
  (exists s', handle_client (fun _ => true) (fun _ l => l) [] (s (request [115] [0])) = OK (tt, s') /\
     replied (s (request [115] [0])) s' 7 not_found_bytes 0) /\
  (exists c', rpc_get_rsp (fun _ => true) rsp_uninit 7 (s not_found_bytes) =
     OK ((1, Rsp (Some RPC_ERR) (Object None None)), c') /\ nlive c' = 0).
Proof.
  intros s.
  assert (forall b x l, b = x :: l -> arrives_as (inp (s b)) 7 b) as Harr.
  { intros b x l ->. exists [x :: l]. split; [done|]. cbn [stream]. apply app_nil_r. }
  destruct (unknown_function (fun _ => true) (fun _ l => l) [] [115] [0] 7 rsp_uninit
    (s (request [115] [0])) (s not_found_bytes)) as [Hserver Hclient]; try done.
  - repeat constructor.
  - by eapply Harr.
  - split; [exact Hserver|]. apply Hclient. by eapply Harr.
Defined.
