(* ===== verification/RpcMain.v ===== *)
(** * The functions and the callers of [cmake/rpc_c/main.c]

    The registered functions [sum], [concat] and [login], the calls the client
    program makes, and what a call of each of them comes to end to end.
    Unpacking a login message is protobuf-c's work: [unpack] is its
    documented result on a packed message, the user name and the password. *)

From S2P Require Import Prelude Words Monad Bytes RpcBuffer RpcWire RpcServer RpcClient.

Local Open Scope Z_scope.
Local Open Scope st_scope.

(** Texts of the program *)
Definition text_sum_failed : list Z :=       (* "RPC call add failed!" *)
  [82; 80; 67; 32; 99; 97; 108; 108; 32; 97; 100; 100; 32; 102; 97; 105; 108; 101; 100; 33].
Definition text_concat_failed : list Z :=    (* "RPC call concat failed!" *)
  [82; 80; 67; 32; 99; 97; 108; 108; 32; 99; 111; 110; 99; 97; 116; 32; 102; 97; 105; 108; 101; 100; 33].
Definition text_login_failed : list Z :=     (* "RPC call login failed!" *)
  [82; 80; 67; 32; 99; 97; 108; 108; 32; 108; 111; 103; 105; 110; 32; 102; 97; 105; 108; 101; 100; 33].
Definition name_sum : list Z := [115; 117; 109].
Definition name_concat : list Z := [99; 111; 110; 99; 97; 116].
Definition name_login : list Z := [108; 111; 103; 105; 110].
Definition witton : list Z := [119; 105; 116; 116; 111; 110].

Section main.
Context `{Abi}.
Variable malloc_ok : nat -> bool.
Variable write_result : nat -> Z -> Z.
Variable unpack : list Z -> option (list Z * list Z).
Notation ST := (ST St).

(** ** The functions of the server *)

Definition add : handle_arg Z := fun sum dt v vlen =>
  match dt, v with
  | (DT_S8 | DT_U8 | DT_S16 | DT_U16 | DT_S32 | DT_U32 | DT_S64 | DT_U64), VInt x =>
      let r := sum + s64 x in
      if (- 2 ^ 63 <=? r) && (r <? 2 ^ 63) then s_ret (0, r) else s_fail IntOverflow
  | _, _ => s_ret (1, sum)
  end.

Definition sum_handler : rpc_handler_t := fun args b =>
  let* x := rpc_parse_req_args malloc_ok args 0 add in
  let '(c, _, result) := x in
  if c =? 0 then
    let* b := just (buffer_append_U8 malloc_ok b RPC_OK) in
    let* b := just (buffer_append_U8 malloc_ok b 1) in
    push_int64 malloc_ok b result
  else make_rsp malloc_ok b RPC_ERR [Arg DT_S8CP (VStr text_sum_failed)].

(** [strcat] to an array of 256 bytes *)
Definition concat : handle_arg (list Z) := fun result dt v vlen =>
  match dt, v with
  | (DT_S8P | DT_U8P | DT_S8CP | DT_U8CP), VStr body =>
      let str := default [] (c_string (body ++ [0])) in
      if Z.of_nat (length result + length str) <? 256 then s_ret (0, result ++ str)
      else s_fail OutOfBounds
  | _, _ => s_ret (1, result)
  end.

Definition concat_handler : rpc_handler_t := fun args b =>
  let* x := rpc_parse_req_args malloc_ok args [] concat in
  let '(c, _, result) := x in
  if c =? 0 then make_rsp malloc_ok b RPC_OK [Arg DT_S8P (VArr result)]
  else make_rsp malloc_ok b RPC_ERR [Arg DT_S8CP (VStr text_concat_failed)].

(** The check of a login: the whole user name, and the first byte of the
    password, which is at a null pointer when the password is empty *)
Definition login_accepted (v : list Z) : ST bool :=
  match unpack v with
  | None => s_ret false
  | Some (username, psw) =>
      if bool_decide (username = witton) then
        match psw with
        | [] => s_fail NullDeref
        | c :: _ => s_ret (c =? 49)
        end
      else s_ret false
  end.

Definition parse_login : handle_arg buffer := fun b dt v vlen =>
  match dt, v with
  | DT_PB, VStr packed =>
      let* ok := login_accepted packed in
      if ok then let* b := make_rsp malloc_ok b RPC_OK [] in s_ret (0, b)
      else
        let* b := make_rsp malloc_ok b RPC_ERR [Arg DT_S8CP (VStr text_login_failed)] in
        s_ret (1, b)
  | _, _ =>
      let* b := make_rsp malloc_ok b RPC_ERR [Arg DT_S8CP (VStr text_login_failed)] in
      s_ret (1, b)
  end.

Definition login_handler : rpc_handler_t := fun args b =>
  let* x := rpc_parse_req_args malloc_ok args b parse_login in
  s_ret (snd x).

(** [server()]: the three registrations *)
Definition server_table : list handler_entry :=
  let t := snd (rpc_server_register [] name_sum sum_handler) in
  let t := snd (rpc_server_register t name_concat concat_handler) in
  snd (rpc_server_register t name_login login_handler).

(** ** The calls of the client

    Each returns the code of [rpc_call] and, after printing, releases the
    response.  Printing reads the result code and, of a successful call of
    [sum] or [concat], the value. *)

Definition print_result (ret : Z) (shown : bool) (r : rpc_rsp_t) : ST (Z * Z * option value) :=
  let* code := s_some Uninit (res r) in
  if (ret =? 0) && shown then
    let* v := s_some Uninit (o_v (rsp_data r)) in s_ret (ret, code, Some v)
  else s_ret (ret, code, None).

Definition call_and_print (net : network) (sn : Z) (func : list Z) (xs : list arg) (shown : bool)
  : ST (Z * Z * option value) :=
  let* buf := make_req malloc_ok func xs in
  let* x := rpc_call malloc_ok write_result net sn buf rsp_uninit in
  let '(ret, _, r) := x in
  let* p := print_result ret shown r in
  let* _ := rpc_rsp_release r in
  s_ret p.

(** [packed] is the packed message with user name "witton" and password "1". *)
Definition rpc_call_login (net : network) (sn : Z) (packed : list Z) :=
  call_and_print net sn name_login [Arg DT_PB (VMsg packed)] false.
Definition rpc_call_add (net : network) (sn : Z) :=
  call_and_print net sn name_sum [Arg DT_S32 (VInt 10)] true.
(** "Hello, ", "World!" and the two Chinese strings, in UTF-8 *)
Definition concat_args : list arg :=
  map (fun s => Arg DT_S8CP (VStr s))
    [[72; 101; 108; 108; 111; 44; 32]; [87; 111; 114; 108; 100; 33];
     [228; 189; 160; 229; 165; 189; 239; 188; 140]; [228; 184; 150; 231; 149; 140; 239; 188; 129]].
Definition rpc_call_concat (net : network) (sn : Z) :=
  call_and_print net sn name_concat concat_args true.

End main.

(** ** What the functions leave alone *)

Lemma table_well_behaved `{Abi} malloc_ok unpack : Forall (fun e => well_behaved (e_handler e)) (server_table malloc_ok unpack).
Proof.
  repeat apply Forall_cons_2; [..|constructor]; intros r b; apply pres_bind0.
  - apply pres_parse. intros u dt v n. destruct dt, v; try apply pres_ret; unfold add; cbv zeta; case_if; done || apply pres_ret.
  - intros [[c r'] result]. case_if; [|apply pres_make_rsp].
    do 2 (apply pres_bind0; [apply pres_just, pres_append|intros]). apply pres_bind0; [|intros; apply pres_push_arg].
    unfold get_type_int64. repeat case_if; done || apply pres_ret.
  - apply pres_parse. intros u dt v n. destruct dt, v; try apply pres_ret; unfold concat; cbv zeta; case_if; done || apply pres_ret.
  - intros [[c r'] result]. case_if; apply pres_make_rsp.
  - apply pres_parse. intros u dt v n.
    assert (forall (k : Z) res xs, preserving 0 (let* b := make_rsp malloc_ok u res xs in s_ret (k, b))) as Hrsp.
    { intros. apply pres_bind0; [apply pres_make_rsp|intros; apply pres_ret]. }
    destruct dt, v; try apply Hrsp. cbn [parse_login]. apply pres_bind0; [|intros ok; case_if; apply Hrsp].
    unfold login_accepted. destruct (unpack s) as [[username psw]|]; [|apply pres_ret].
    case_if; [|apply pres_ret]. destruct psw; [done|apply pres_ret].
  - intros [[c r'] result]. apply pres_ret.
Qed.

(** ** End to end *)

(** The arguments of a call as they travel *)
Definition payload (xs : list arg) : list Z := le_bytes 1 (Z.of_nat (length xs)) ++ args_bytes xs.

(** A call of [name] with the arguments [xs] that reaches the server whole *)
Definition calls (s : St) (callSN : Z) (name : list Z) (xs : list arg) : Prop :=
  0 <= callSN < 2 ^ 32 /\ Forall arg_ok xs /\ Z.of_nat (length xs) < 256 /\
  Z.of_nat (length (request name (payload xs))) <= MAX_MSG_LEN /\
  arrives_as (inp s) callSN (request name (payload xs)).

Lemma s64_mod v : - 2 ^ 63 <= v < 2 ^ 63 -> s64 (v mod 2 ^ 64) = v.
Proof.
  intros Hv. unfold s64. destruct (Z.ltb_spec v 0).
  - rewrite (mod_add_once v) by lia. rewrite (proj2 (Z.ltb_ge _ _)) by lia. lia.
  - rewrite Z.mod_small by lia. by rewrite (proj2 (Z.ltb_lt _ _)) by lia.
Qed.

Section server_side.
Context `{Abi}.
Variable malloc_ok : nat -> bool.
Variable write_result : nat -> Z -> Z.
Variable unpack : list Z -> option (list Z * list Z).
Hypothesis Hok : forall n, malloc_ok n = true.
Hypothesis Hw : writes_all write_result.
Notation server_table := (server_table malloc_ok unpack).
Notation handle_client := (handle_client malloc_ok write_result server_table).

(** A handler that parses its arguments and goes on with the result *)
Lemma parse_then {A} xs (r : reader) (u : A) h (k : Z * reader * A -> ST St buffer) s :
  Forall arg_ok xs -> Z.of_nat (length xs) < 256 -> reader_ok r -> rest r = payload xs ->
  match feed malloc_ok 0 xs u h s with
  | OK ((c, u'), s') => exists r',
      (let* x := rpc_parse_req_args malloc_ok r u h in k x) s = k (c, r', u') s'
  | Er e => (let* x := rpc_parse_req_args malloc_ok r u h in k x) s = Er e
  end.
Proof.
  intros Hxs Hn Hr Hrest. pose proof (rpc_parse_app malloc_ok Hok xs r [] u h s Hxs Hn Hr) as Hparse.
  rewrite app_nil_r in Hparse. specialize (Hparse Hrest).
  destruct (feed malloc_ok 0 xs u h s) as [[[c u'] s']|e].
  - destruct Hparse as (r' & Hrun & _). exists r'. by rewrite (s_bind_OK _ _ _ _ _ Hrun).
  - by rewrite (s_bind_Er _ _ _ _ Hparse).
Qed.

(** *** [sum] *)

(** What an argument adds to the sum: the bits of its type, as an unsigned
    number, read as an [int64_t] *)
Definition arg_int (x : arg) : Z :=
  match arrives x with VInt v => s64 v | _ => 0 end.

Lemma add_int x sum n : arg_ok x -> is_int x = true -> - 2 ^ 63 <= sum + arg_int x < 2 ^ 63 ->
  add sum (a_type x) (arrives x) n = s_ret (0, sum + arg_int x).
Proof.
  destruct x as [dt [v|str|str|str]]; try discriminate. intros [k Hk] _ Hsum. cbn [a_type] in *.
  assert (arrives (Arg dt (VInt v)) = VInt (v mod 256 ^ Z.of_nat k)) as Ha
    by (unfold arrives; cbn [a_val a_type]; by rewrite Hk).
  unfold arg_int in *. rewrite Ha in *.
  transitivity (let r := sum + s64 (v mod 256 ^ Z.of_nat k) in
    if (- 2 ^ 63 <=? r) && (r <? 2 ^ 63) then s_ret (0, r) else @s_fail St (Z * Z) IntOverflow);
    [by destruct dt|].
  cbv zeta. rewrite (proj2 (Z.leb_le _ _)) by lia. by rewrite (proj2 (Z.ltb_lt _ _)) by lia.
Qed.

Lemma feed_add i xs u s : Forall arg_ok xs -> Forall (fun x => is_int x = true) xs ->
  Z.abs u + zsum (fun x => Z.abs (arg_int x)) xs < 2 ^ 63 ->
  feed malloc_ok i xs u add s = OK ((0, u + zsum arg_int xs), s).
Proof.
  intros Hxs. revert i u s. induction Hxs as [|x xs Hx Hxs IH]; intros i u s Hint Hsum; cbn [feed zsum] in *.
  - by rewrite Z.add_0_r.
  - apply Forall_cons in Hint as [Hx' Hint].
    assert (0 <= zsum (fun x => Z.abs (arg_int x)) xs) by (apply zsum_nonneg; intros; lia).
    unfold arg_alloc. rewrite Hx', add_int by (done || lia).
    unfold s_bind, s_ret. cbn [fst snd Z.eqb]. rewrite IH; [do 3 f_equal; lia|done|lia].
Qed.

(** The result of the sum as a response *)
Lemma push_total b total s : int64_is_long_long = true -> buf_ok b -> b_data b = [] ->
  exists b' s', (let* b := just (buffer_append_U8 malloc_ok b RPC_OK) in
    let* b := just (buffer_append_U8 malloc_ok b 1) in push_int64 malloc_ok b total) s = OK (b', s') /\
    b_data b' = rsp_bytes RPC_OK [Arg DT_S64 (VInt total)] /\ grew s s'.
Proof.
  intros Habi Hb Hd.
  assert (appends (fun b => let* b := just (buffer_append_U8 malloc_ok b RPC_OK) in
    let* b := just (buffer_append_U8 malloc_ok b 1) in push_int64 malloc_ok b total)
    (rsp_bytes RPC_OK [Arg DT_S64 (VInt total)])) as Happ.
  { apply (appends_seq (fun b => just (buffer_append_U8 malloc_ok b RPC_OK))); [by apply appends_bytes|].
    apply (appends_seq (fun b => just (buffer_append_U8 malloc_ok b 1))); [by apply appends_bytes|].
    unfold push_int64, get_type_int64. rewrite Habi. unfold args_bytes. cbn [map List.concat]. rewrite app_nil_r.
    apply push_arg_appends; [done|]. by exists 8%nat. }
  destruct (Happ b s Hb) as (b' & s' & Hrun & Hg & Hd' & _); [unfold b_len; rewrite Hd; vm_compute; done|].
  exists b', s'. rewrite Hd' , Hd. done.
Qed.

Lemma respond_sum xs r b s : Forall arg_ok xs -> Z.of_nat (length xs) < 256 ->
  Forall (fun x => is_int x = true) xs -> zsum (fun x => Z.abs (arg_int x)) xs < 2 ^ 63 ->
  reader_ok r -> rest r = payload xs -> buf_ok b -> b_data b = [] ->
  sum_handler malloc_ok r b s =
    (let* b := just (buffer_append_U8 malloc_ok b RPC_OK) in
     let* b := just (buffer_append_U8 malloc_ok b 1) in push_int64 malloc_ok b (zsum arg_int xs)) s.
Proof.
  intros Hxs Hn Hint Hsum Hr Hrest Hb Hd.
  pose proof (parse_then xs r 0 add (fun x => let '(c, _, result) := x in
    if c =? 0 then
      let* b := just (buffer_append_U8 malloc_ok b RPC_OK) in
      let* b := just (buffer_append_U8 malloc_ok b 1) in
      push_int64 malloc_ok b result
    else make_rsp malloc_ok b RPC_ERR [Arg DT_S8CP (VStr text_sum_failed)]) s Hxs Hn Hr Hrest) as Hp.
  rewrite feed_add in Hp; [|done|done|lia]. destruct Hp as [r' Hp]. exact Hp.
Qed.

(** *** [concat] *)

Definition is_str (x : arg) : bool := match a_val x with VStr _ | VArr _ => true | _ => false end.
Definition arg_str (x : arg) : list Z := match a_val x with VStr s | VArr s => s | _ => [] end.
Definition all_text (xs : list arg) : list Z := List.concat (map arg_str xs).

Lemma concat_str x result n s : arg_ok x -> is_str x = true ->
  RpcMain.concat result (a_type x) (arrives x) n s =
    if Z.of_nat (length result + length (arg_str x)) <? 256 then OK ((0, result ++ arg_str x), s)
    else Er OutOfBounds.
Proof.
  destruct x as [dt [v|str|str|str]]; try discriminate; intros (Hdt & Hstr & _) _; cbn [a_type] in *.
  all: match goal with |- context [arrives ?x] => assert (arrives x = VStr str) as -> by done end.
  all: transitivity ((let str := default [] (c_string (str ++ [0])) in
    if Z.of_nat (length result + length str) <? 256 then s_ret (0, result ++ str)
    else @s_fail St (Z * list Z) OutOfBounds) s); [by destruct dt|].
  all: rewrite (c_string_app str []) by done; cbv zeta; cbn [default arg_str a_val]; by destruct (_ <? _).
Qed.

Lemma feed_concat i xs u s : Forall arg_ok xs -> Forall (fun x => is_str x = true) xs ->
  Z.of_nat (length u) < 256 ->
  if Z.of_nat (length u + length (all_text xs)) <? 256
  then exists n, feed malloc_ok i xs u RpcMain.concat s =
    OK ((0, u ++ all_text xs), set_heap s n (nlive s + Z.of_nat (length xs)))
  else feed malloc_ok i xs u RpcMain.concat s = Er OutOfBounds.
Proof.
  intros Hxs. revert i u s. induction Hxs as [|x xs Hx Hxs IH]; intros i u s Hstr Hu; cbn [feed].
  - unfold all_text. cbn. rewrite Nat.add_0_r, (proj2 (Z.ltb_lt _ _)) by done.
    exists (nalloc s). rewrite app_nil_r, Z.add_0_r. by destruct s.
  - apply Forall_cons in Hstr as [Hx' Hstr].
    assert (is_int x = false) as Hint by (by destruct x as [? []]).
    unfold all_text. cbn [map List.concat]. fold (all_text xs). rewrite length_app.
    unfold arg_alloc. rewrite Hint. unfold s_bind, alloc, s_ret. rewrite Hok, concat_str by done.
    destruct (Z.ltb_spec (Z.of_nat (length u + length (arg_str x))) 256) as [Hlt|Hge].
    + cbn [fst snd Z.eqb].
      specialize (IH (i + 1) (u ++ arg_str x) (set_heap s (S (nalloc s)) (nlive s + 1)) Hstr).
      rewrite length_app in IH. specialize (IH Hlt). rewrite Nat.add_assoc.
      destruct (_ <? 256); [|exact IH]. destruct IH as [n IH]. exists n. rewrite IH, app_assoc.
      do 2 f_equal. unfold set_heap. cbn. f_equal. lia.
    + by rewrite (proj2 (Z.ltb_ge _ _)) by lia.
Qed.

Lemma respond_concat xs r b s : Forall arg_ok xs -> Z.of_nat (length xs) < 256 ->
  Forall (fun x => is_str x = true) xs -> reader_ok r -> rest r = payload xs ->
  if Z.of_nat (length (all_text xs)) <? 256
  then exists n, concat_handler malloc_ok r b s =
    make_rsp malloc_ok b RPC_OK [Arg DT_S8P (VArr (all_text xs))]
      (set_heap s n (nlive s + Z.of_nat (length xs)))
  else concat_handler malloc_ok r b s = Er OutOfBounds.
Proof.
  intros Hxs Hn Hstr Hr Hrest.
  pose proof (parse_then xs r [] RpcMain.concat (fun x => let '(c, _, result) := x in
    if c =? 0 then make_rsp malloc_ok b RPC_OK [Arg DT_S8P (VArr result)]
    else make_rsp malloc_ok b RPC_ERR [Arg DT_S8CP (VStr text_concat_failed)]) s Hxs Hn Hr Hrest) as Hp.
  pose proof (feed_concat 0 xs [] s Hxs Hstr ltac:(done)) as Hf. cbn [length Nat.add] in Hf.
  destruct (_ <? 256); [|by rewrite Hf in Hp].
  destruct Hf as [n Hf]. exists n. rewrite Hf in Hp. destruct Hp as [r' Hp]. exact Hp.
Qed.

(** The text as the value of a response *)
Lemma text_ok xs : Forall arg_ok xs -> Z.of_nat (length (all_text xs)) < 256 ->
  Forall arg_ok [Arg DT_S8P (VArr (all_text xs))] /\
  Z.of_nat (length (rsp_bytes RPC_OK [Arg DT_S8P (VArr (all_text xs))])) < 2 ^ 30.
Proof.
  intros Hxs Hlt. split.
  - repeat constructor; cbn; [|lia]. clear - Hxs. unfold is_string, all_text.
    induction Hxs as [|x xs Hx Hxs IH]; [constructor|]. cbn [map List.concat].
    apply Forall_app. split; [|exact IH]. destruct x as [dt [v|str|str|str]];
      [constructor|by destruct Hx as (_ & ? & _)..|constructor].
  - unfold rsp_bytes, args_bytes. cbn [map List.concat]. rewrite app_nil_r.
    unfold arg_bytes. cbn [dt_width a_type a_val length]. rewrite !length_app. cbn [length].
    rewrite length_app, !le_bytes_length. lia.
Qed.

(** *** [login] *)

(** The response to a login *)
Definition login_reply (ok : bool) (b : buffer) : ST St buffer :=
  if ok then make_rsp malloc_ok b RPC_OK []
  else make_rsp malloc_ok b RPC_ERR [Arg DT_S8CP (VStr text_login_failed)].
Definition login_response (ok : bool) : list Z :=
  if ok then rsp_bytes RPC_OK [] else rsp_bytes RPC_ERR [Arg DT_S8CP (VStr text_login_failed)].

Lemma login_reply_appends ok : appends (login_reply ok) (login_response ok).
Proof. destruct ok; apply make_rsp_appends; [done| |done|]; repeat constructor. Qed.

Lemma respond_login packed r b s : arg_ok (Arg DT_PB (VMsg packed)) ->
  reader_ok r -> rest r = payload [Arg DT_PB (VMsg packed)] ->
  login_handler malloc_ok unpack r b s =
    (let* ok := login_accepted unpack packed in login_reply ok b) (set_heap s (S (nalloc s)) (nlive s + 1)).
Proof.
  intros Harg Hr Hrest.
  pose proof (parse_then [Arg DT_PB (VMsg packed)] r b (parse_login malloc_ok unpack) (fun x => s_ret (snd x)) s
    (Forall_cons_2 _ _ _ Harg (Forall_nil_2 _)) ltac:(done) Hr Hrest) as Hp.
  cbn [feed] in Hp. unfold arg_alloc in Hp. cbn [is_int a_val] in Hp. unfold s_bind, alloc, s_ret in Hp.
  rewrite Hok in Hp. cbn [a_type arrives a_val dt_width arrives_len parse_login] in Hp.
  unfold login_handler, s_bind, s_ret. revert Hp. unfold s_bind, s_ret, login_reply.
  destruct (login_accepted unpack packed _) as [[[] s1]|e]; cbn [fst snd]; [| |done];
    destruct (make_rsp malloc_ok b _ _ s1) as [[b' s2]|e]; cbn [fst snd Z.eqb];
    (done || by intros [r' ->]).
Qed.

End server_side.

(** *** The client *)

Section client_side.
Variable malloc_ok : nat -> bool.
Variable write_result : nat -> Z -> Z.
Hypothesis Hok : forall n, malloc_ok n = true.
Hypothesis Hw : writes_all write_result.

Lemma make_req_ok func xs s : Z.of_nat (length func) < 2 ^ 16 -> Forall arg_ok xs ->
  Z.of_nat (length (request func (payload xs))) < 2 ^ 32 ->
  exists b s', make_req malloc_ok func xs s = OK (Some b, s') /\ b_data b = request func (payload xs) /\
    inp s' = inp s /\ outp s' = outp s /\ nsock s' = nsock s /\ nlive s' = nlive s + 2.
Proof.
  intros Hfunc Hxs Hlen. unfold make_req.
  destruct (buffer_new_ok malloc_ok Hok 1024 s) as (b & s1 & Hnew & Hb & Hd & ->); [lia|].
  rewrite (s_bind_OK _ _ _ _ _ Hnew). erewrite s_bind_OK by reflexivity. cbv zeta.
  rewrite wrap_small by (unfold word; lia). rewrite Nat2Z.id, firstn_all.
  set (s0 := set_heap s _ _).
  destruct (appends_seq _ _ _ _ (appends_bytes malloc_ok Hok (le_bytes 2 (Z.of_nat (length func))))
    (appends_seq _ _ _ _ (appends_bytes malloc_ok Hok func) (push_args_appends malloc_ok Hok xs Hxs)) b s0 Hb)
    as (b' & s2 & Hrun & [n ->] & Hd' & _).
  { unfold b_len. rewrite Hd. unfold request, payload in Hlen. cbn [length]. lia. }
  exists b', (set_heap s0 n (nlive s0)). rewrite Hd', Hd. split; [|done].
  assert (forall A (k1 : buffer -> ST St buffer) (k2 : buffer -> ST St buffer) (f : buffer -> ST St A)
    (c : ST St buffer) s, (let* b := c in let* b := k1 b in let* b := k2 b in f b) s =
    (let* b := (let* b := c in let* b := k1 b in k2 b) in f b) s) as Hassoc.
  { intros A k1 k2 f c s1. unfold s_bind. destruct (c s1) as [[b1 s2]|]; [|done].
    by destruct (k1 b1 s2) as [[b2 s3]|]. }
  rewrite (Hassoc _ _ (fun b => push_args malloc_ok b xs)). by rewrite (s_bind_OK _ _ _ _ _ Hrun).
Qed.

(** The response that has arrived decides what is printed. *)
Lemma call_and_print_eq net sn func xs shown code ys (s : St) :
  sock_ok net && host_ok net && connect_ok net = true ->
  Z.of_nat (length func) < 2 ^ 16 -> Forall arg_ok xs ->
  Z.of_nat (length (request func (payload xs))) < 2 ^ 32 ->
  0 <= code < 256 -> Forall arg_ok ys -> Z.of_nat (length ys) < 256 ->
  Z.of_nat (length (rsp_bytes code ys)) < 2 ^ 30 ->
  arrives_as (inp s) (u32 (sn + 1)) (rsp_bytes code ys) ->
  exists s1, outp s1 = outp s ++ frame (u32 (sn + 1)) (request func (payload xs)) /\
    nlive s1 = nlive s + 1 /\ nsock s1 = nsock s + 1 /\
    call_and_print malloc_ok write_result net sn func xs shown s =
    match feed malloc_ok 0 ys (Object None None) rsp_base_data s1 with
    | OK ((ret, d), s2) =>
        (let* p := print_result ret shown (Rsp (Some code) d) in
         let* _ := rpc_rsp_release (Rsp (Some code) d) in s_ret p)
          (set_sock (set_heap s2 (nalloc s2) (nlive s2 - 1)) (nsock s2 - 1))
    | Er e => Er e
    end.
Proof.
  intros Hnet Hfunc Hxs Hlen Hcode Hys Hn Hrsp Harr. unfold call_and_print.
  destruct (make_req_ok func xs s Hfunc Hxs Hlen) as (b & s1 & Hreq & Hd & Hi & Ho & Hs & Hl).
  rewrite (s_bind_OK _ _ _ _ _ Hreq).
  destruct (rpc_call_sends malloc_ok write_result net sn b rsp_uninit s1 Hnet Hw)
    as (s2 & Hi2 & Ho2 & Hl2 & Hs2 & Hcall); [unfold b_len; by rewrite Hd|].
  unfold s_bind at 1. rewrite Hcall.
  destruct (rpc_get_rsp_eq malloc_ok Hok (u32 (sn + 1)) code ys rsp_uninit s2) as (i & Hget); try done.
  { apply Z.mod_pos_bound. lia. }
  { by rewrite Hi2, Hi. }
  exists (set_inp (set_heap s2 (S (nalloc s2)) (nlive s2 + 1)) i).
  split; [cbn; by rewrite Ho2, Ho, Hd|]. split; [cbn; lia|]. split; [cbn; lia|].
  unfold s_bind at 1. rewrite Hget. change (rsp_data rsp_uninit) with (Object None None).
  destruct (feed malloc_ok 0 ys (Object None None) rsp_base_data _) as [[[ret d] s3]|e]; reflexivity.
Qed.

End client_side.

(** A socket that delivers one frame *)
Definition delivers (sn : Z) (body : list Z) : St :=
  MkSt 0 0 [le_bytes 4 g_rpc_magic_num; le_bytes 4 sn; le_bytes 4 (Z.of_nat (length body)); body] [] 0 1.

Lemma delivers_arrives sn b body : arrives_as (inp (delivers sn (b :: body))) sn (b :: body).
Proof. exists [b :: body]. split; [done|]. cbn [stream]. apply app_nil_r. Qed.

(** ** The calls, end to end *)

Section calls.
Context `{Abi}.
Variable malloc_ok : nat -> bool.
Variable write_result : nat -> Z -> Z.
Variable unpack : list Z -> option (list Z * list Z).
Notation handle_client := (handle_client malloc_ok write_result (server_table malloc_ok unpack)).

(** C19: a call of [sum] with any integers whose magnitudes add up to less than
    2^63 is answered by their sum, and the client decodes that number; where
    [int64_t] is [long long].  Integers of fewer than 64 bits count as unsigned
    numbers whatever their type: a negative [int] adds 2^32 more than it should. *)
Theorem sum_call (xs : list arg) (sn : Z) (s c : St) :
  (forall n, malloc_ok n = true) -> writes_all write_result -> int64_is_long_long = true ->
  calls s sn name_sum xs -> Forall (fun x => is_int x = true) xs ->
  zsum (fun x => Z.abs (arg_int x)) xs < 2 ^ 63 ->
  let response := rsp_bytes RPC_OK [Arg DT_S64 (VInt (zsum arg_int xs))] in
  (exists s', handle_client s = OK (tt, s') /\ replied s s' sn response 0) /\
  (arrives_as (inp c) sn response -> exists c', rpc_get_rsp malloc_ok rsp_uninit sn c =
     OK ((0, Rsp (Some RPC_OK) (Object (Some DT_S64) (Some (VInt (zsum arg_int xs))))), c') /\
     nlive c' = nlive c).
Proof.
  intros Hok Hw Habi (Hsn & Hxs & Hn & Hsize & Hinp) Hint Hsum response.
  assert (Z.abs (zsum arg_int xs) < 2 ^ 63) as Htotal by
    (eapply Z.le_lt_trans; [|exact Hsum]; clear; induction xs; cbn [zsum]; lia).
  split.
  - apply (handle_client_ok malloc_ok write_result Hok Hw _ sn name_sum (payload xs)); try done.
    { repeat constructor. }
    intros r b s1 Hr Hrest Hb Hd. change (find_handler _ name_sum) with (Some (sum_handler malloc_ok)).
    cbn [respond]. rewrite (respond_sum malloc_ok Hok xs) by done.
    destruct (push_total malloc_ok Hok b (zsum arg_int xs) s1 Habi Hb Hd) as (b' & s2 & Hrun & Hd' & [n ->]).
    do 2 eexists. split; [exact Hrun|]. cbn. split; [done|]. split; [lia|done].
  - intros Harr. edestruct (rpc_get_rsp_eq malloc_ok Hok sn RPC_OK) as (i & Hget);
      [done|done| | | |exact Harr|]; [repeat constructor; by exists 8%nat|done|done|].
    eexists. rewrite Hget. cbn [feed]. unfold arg_alloc. cbn [is_int a_val]. unfold s_bind, s_ret at 1.
    assert (arrives (Arg DT_S64 (VInt (zsum arg_int xs))) = VInt (zsum arg_int xs mod 2 ^ 64)) as -> by done.
    cbn [rsp_base_data a_type]. rewrite s64_mod by lia. split; [reflexivity|]. cbn. lia.
Qed.

(** Where [int64_t] is [long] no branch of [GET_TYPE] matches the sum, and
    it is taken for the address of a protobuf message: every call of [sum]
    makes the server read through it, or stops at the assertion if it is zero. *)
Theorem sum_call_lp64 (xs : list arg) (sn : Z) (s : St) :
  (forall n, malloc_ok n = true) -> writes_all write_result -> int64_is_long_long = false ->
  calls s sn name_sum xs -> Forall (fun x => is_int x = true) xs ->
  zsum (fun x => Z.abs (arg_int x)) xs < 2 ^ 63 ->
  handle_client s = Er (if zsum arg_int xs =? 0 then AssertFail else OutOfBounds).
Proof.
  intros Hok Hw Habi (Hsn & Hxs & Hn & Hsize & Hinp) Hint Hsum.
  apply (handle_client_fails malloc_ok write_result Hok _ sn name_sum (payload xs)); try done.
  { repeat constructor. }
  intros r b s1 Hr Hrest Hb Hd. change (find_handler _ name_sum) with (Some (sum_handler malloc_ok)).
  cbn [respond]. rewrite (respond_sum malloc_ok Hok xs) by done.
  destruct (appends_seq _ _ _ _ (appends_bytes malloc_ok Hok (le_bytes 1 RPC_OK))
    (appends_bytes malloc_ok Hok (le_bytes 1 1)) b s1 Hb) as (b1 & s2 & Hrun & _ & Hd1 & Hb1);
    [unfold b_len; rewrite Hd; by vm_compute|].
  assert (forall total, push_int64 malloc_ok b1 total s2 = Er (if total =? 0 then AssertFail else OutOfBounds))
    as Hpush.
  { intros total. unfold push_int64, get_type_int64. rewrite Habi.
    destruct (total =? 0) eqn:Ht; [|done]. unfold s_bind at 1, s_ret, push_arg.
    destruct (appends_bytes malloc_ok Hok (le_bytes 1 (dt_code DT_UNKNOWN)) b1 s2 Hb1) as (b2 & s3 & Hr2 & _);
      [unfold b_len; rewrite Hd1, Hd; by vm_compute|].
    cbn [a_type a_val]. by rewrite (s_bind_OK _ _ _ _ _ Hr2). }
  unfold s_bind in Hrun |- *. rewrite <- (Hpush (zsum arg_int xs)).
  unfold buffer_append_U8. destruct (just _ s1) as [[b2 s3]|]; [|done]. by rewrite Hrun.
Qed.

(** A call of [concat] is answered by the concatenation of its strings, which
    the client decodes, if that takes fewer than 256 bytes; longer texts, which
    a request may well hold, are written past the end of an array of the
    server.  The copies of the arguments stay allocated. *)
Theorem concat_call (xs : list arg) (sn : Z) (s c : St) :
  (forall n, malloc_ok n = true) -> writes_all write_result ->
  calls s sn name_concat xs -> Forall (fun x => is_str x = true) xs ->
  let response := rsp_bytes RPC_OK [Arg DT_S8P (VArr (all_text xs))] in
  if Z.of_nat (length (all_text xs)) <? 256 then
    (exists s', handle_client s = OK (tt, s') /\ replied s s' sn response (Z.of_nat (length xs))) /\
    (arrives_as (inp c) sn response -> exists c', rpc_get_rsp malloc_ok rsp_uninit sn c =
       OK ((0, Rsp (Some RPC_OK) (Object (Some DT_S8P) (Some (VStr (all_text xs))))), c') /\
       nlive c' = nlive c + 1)
  else handle_client s = Er OutOfBounds.
Proof.
  intros Hok Hw (Hsn & Hxs & Hn & Hsize & Hinp) Hstr response. subst response.
  assert (is_string name_concat) as Hname by repeat constructor.
  pose proof (fun r b s => respond_concat malloc_ok Hok xs r b s Hxs Hn Hstr) as Hresp.
  change (find_handler _ name_concat) with (Some (concat_handler malloc_ok)) in *.
  destruct (Z.ltb_spec (Z.of_nat (length (all_text xs))) 256) as [Hlt|Hge].
  - destruct (text_ok xs Hxs Hlt) as [Hans Hlen]. split.
    + apply (handle_client_ok malloc_ok write_result Hok Hw _ sn name_concat (payload xs)); try done; [lia|].
      intros r b s1 Hr Hrest Hb Hd. destruct (Hresp r b s1 Hr Hrest) as [n Hrun].
      destruct (make_rsp_appends malloc_ok Hok RPC_OK _ Hans b (set_heap s1 n
        (nlive s1 + Z.of_nat (length xs))) Hb) as (b' & s2 & Hrsp & [k ->] & Hd' & _).
      { change (b_len b + Z.of_nat (length (rsp_bytes RPC_OK [Arg DT_S8P (VArr (all_text xs))])) < 2 ^ 64).
        unfold b_len. rewrite Hd. cbn [length]. lia. }
      do 2 eexists. split; [exact (eq_trans Hrun Hrsp)|]. rewrite Hd', Hd. cbn. split; [done|]. split; [lia|done].
    + intros Harr. destruct (rpc_get_rsp_eq malloc_ok Hok sn RPC_OK _ rsp_uninit c Hsn ltac:(done) Hans
        ltac:(done) Hlen Harr) as (i & Hget).
      eexists. rewrite Hget. cbn [feed]. unfold arg_alloc. cbn [is_int a_val]. unfold s_bind, alloc.
      rewrite Hok. cbn. split; [reflexivity|]. cbn. lia.
  - apply (handle_client_fails malloc_ok write_result Hok _ sn name_concat (payload xs)); try done.
    intros r b s1 Hr Hrest _ _. exact (Hresp r b s1 Hr Hrest).
Qed.

(** A login is accepted exactly for the user "witton" and any password whose
    first byte is '1'; an accepted login is answered by an empty response, any
    other by a text, and the user "witton" without a password makes the server
    read through a null pointer. *)
Theorem login_call (packed : list Z) (sn : Z) (s : St) :
  (forall n, malloc_ok n = true) -> writes_all write_result ->
  calls s sn name_login [Arg DT_PB (VMsg packed)] ->
  let answered ok := exists s', handle_client s = OK (tt, s') /\ replied s s' sn (login_response ok) 1 in
  match unpack packed with
  | Some (username, psw) =>
      if bool_decide (username = witton) then
        match psw with
        | [] => handle_client s = Er NullDeref
        | c :: _ => answered (c =? 49)
        end
      else answered false
  | None => answered false
  end.
Proof.
  intros Hok Hw (Hsn & Hxs & Hn & Hsize & Hinp) answered.
  assert (is_string name_login) as Hname by repeat constructor.
  pose proof (fun r b s => respond_login malloc_ok unpack Hok packed r b s (Forall_inv Hxs)) as Hresp.
  assert (forall ok, login_accepted unpack packed = s_ret ok -> answered ok) as Hans.
  { intros ok Hacc. apply (handle_client_ok malloc_ok write_result Hok Hw _ sn name_login
      (payload [Arg DT_PB (VMsg packed)])); try done; [by destruct ok|].
    change (find_handler _ name_login) with (Some (login_handler malloc_ok unpack)).
    intros r b s1 Hr Hrest Hb Hd. specialize (Hresp r b s1 Hr Hrest). rewrite Hacc in Hresp.
    destruct (login_reply_appends malloc_ok Hok ok b (set_heap s1 (S (nalloc s1)) (nlive s1 + 1)) Hb)
      as (b' & s2 & Hrun & [n ->] & Hd' & _); [unfold b_len; rewrite Hd; by destruct ok|].
    do 2 eexists. split; [exact (eq_trans Hresp Hrun)|]. rewrite Hd', Hd. done. }
  unfold login_accepted in *. destruct (unpack packed) as [[username psw]|]; [|by apply (Hans false)].
  destruct (bool_decide (username = witton)); [|by apply (Hans false)].
  destruct psw as [|c psw]; [|by apply (Hans (c =? 49))].
  apply (handle_client_fails malloc_ok write_result Hok _ sn name_login
    (payload [Arg DT_PB (VMsg packed)])); try done.
  intros r b s1 Hr Hrest _ _. exact (Hresp r b s1 Hr Hrest).
Qed.

End calls.

(** A call that cannot reach the server: what is printed is indeterminate. *)
Lemma call_fails_uninit (malloc_ok : nat -> bool) (write_result : nat -> Z -> Z) net sn func xs shown s :
  (forall n, malloc_ok n = true) ->
  Z.of_nat (length func) < 2 ^ 16 -> Forall arg_ok xs ->
  Z.of_nat (length (request func (payload xs))) < 2 ^ 32 ->
  sock_ok net && host_ok net && connect_ok net = false ->
  call_and_print malloc_ok write_result net sn func xs shown s = Er Uninit.
Proof.
  intros Hok Hfunc Hxs Hlen Hnet. unfold call_and_print.
  destruct (make_req_ok malloc_ok Hok func xs s Hfunc Hxs Hlen) as (b & s1 & Hreq & _).
  rewrite (s_bind_OK _ _ _ _ _ Hreq). unfold rpc_call.
  destruct (sock_ok net), (host_ok net), (connect_ok net); try discriminate Hnet; reflexivity.
Qed.

(** C20: what the client program prints on a working network, given the responses
    the theorems above show the server to send: [sum] of its only argument 10
    (not of the two numbers it prints), the concatenation of the four texts,
    and of the accepted login nothing: it releases a response that was never
    written, whose type it reads.  The same happens, already while printing,
    when the call fails. *)
Theorem client_calls (malloc_ok : nat -> bool) (write_result : nat -> Z -> Z)
    (net : network) (sn : Z) (packed : list Z) (s : St) :
  (forall n, malloc_ok n = true) -> writes_all write_result ->
  is_bytes packed -> Z.of_nat (length packed) < 2 ^ 16 ->
  let sends s' name xs := outp s' = outp s ++ frame (u32 (sn + 1)) (request name (payload xs)) /\
    nlive s' = nlive s /\ nsock s' = nsock s in
  let text := all_text concat_args in
  if sock_ok net && host_ok net && connect_ok net then
    (arrives_as (inp s) (u32 (sn + 1)) (rsp_bytes RPC_OK [Arg DT_S64 (VInt 10)]) -> exists s',
      rpc_call_add malloc_ok write_result net sn s = OK ((0, RPC_OK, Some (VInt 10)), s') /\
      sends s' name_sum [Arg DT_S32 (VInt 10)]) /\
    (arrives_as (inp s) (u32 (sn + 1)) (rsp_bytes RPC_OK [Arg DT_S8P (VArr text)]) -> exists s',
      rpc_call_concat malloc_ok write_result net sn s = OK ((0, RPC_OK, Some (VStr text)), s') /\
      sends s' name_concat concat_args) /\
    (arrives_as (inp s) (u32 (sn + 1)) (login_response true) ->
      rpc_call_login malloc_ok write_result net sn packed s = Er Uninit)
  else
    rpc_call_add malloc_ok write_result net sn s = Er Uninit /\
    rpc_call_concat malloc_ok write_result net sn s = Er Uninit /\
    rpc_call_login malloc_ok write_result net sn packed s = Er Uninit.
Proof.
  intros Hok Hw Hb Hlen sends text.
  assert (Forall arg_ok [Arg DT_S32 (VInt 10)]) as Hadd by (repeat constructor; by exists 4%nat).
  assert (Forall arg_ok concat_args) as Hcat by repeat constructor.
  assert (Forall arg_ok [Arg DT_PB (VMsg packed)]) as Hlog by (repeat constructor; done).
  assert (Z.of_nat (length (request name_login (payload [Arg DT_PB (VMsg packed)]))) < 2 ^ 32) as Hreq.
  { unfold request, payload, args_bytes. cbn [map List.concat arg_bytes a_type a_val dt_width].
    rewrite !length_app. cbn. lia. }
  destruct (sock_ok net && host_ok net && connect_ok net) eqn:Hnet.
  - split; [|split]; intros Harr.
    + destruct (call_and_print_eq malloc_ok write_result Hok Hw net sn name_sum [Arg DT_S32 (VInt 10)] true
        RPC_OK [Arg DT_S64 (VInt 10)] s) as (s1 & Ho & Hl & Hs & Hrun); try done.
      { repeat constructor. by exists 8%nat. }
      eexists. split; [exact Hrun|]. unfold sends. cbn. rewrite Ho. split; [done|]. lia.
    + destruct (call_and_print_eq malloc_ok write_result Hok Hw net sn name_concat concat_args true
        RPC_OK [Arg DT_S8P (VArr text)] s) as (s1 & Ho & Hl & Hs & Hrun); try done.
      { repeat constructor. }
      cbn [feed] in Hrun. unfold arg_alloc in Hrun. cbn [is_int a_val] in Hrun. unfold s_bind at 1 2 3, alloc in Hrun.
      rewrite Hok in Hrun. 
      eexists. split; [exact Hrun|]. unfold sends. cbn. rewrite Ho. split; [done|]. lia.
    + destruct (call_and_print_eq malloc_ok write_result Hok Hw net sn name_login [Arg DT_PB (VMsg packed)] false
        RPC_OK [] s) as (s1 & _ & _ & _ & Hrun); try done.
  - repeat split; by apply call_fails_uninit.
Qed.

(** ** Concrete calls *)

Definition llp64 : Abi := {| int64_is_long_long := true |}.
Definition lp64 : Abi := {| int64_is_long_long := false |}.

(** -5 and 3: the sum comes out as 4294967294. *)
Lemma sum_call_witness :
  let xs := [Arg DT_S32 (VInt (-5)); Arg DT_S8 (VInt 3)] in
  let s := delivers 7 (request name_sum (payload xs)) in
  let response := rsp_bytes RPC_OK [Arg DT_S64 (VInt 4294967294)] in
  (exists s', handle_client (fun _ => true) (fun _ l => l)
     (@server_table llp64 (fun _ => true) (fun _ => None)) s = OK (tt, s') /\ replied s s' 7 response 0) /\
  (exists c', rpc_get_rsp (fun _ => true) rsp_uninit 7 (delivers 7 response) =
     OK ((0, Rsp (Some RPC_OK) (Object (Some DT_S64) (Some (VInt 4294967294)))), c') /\ nlive c' = 0).
Proof.
  intros xs s response.
  destruct (@sum_call llp64 (fun _ => true) (fun _ l => l) (fun _ => None) xs 7 s (delivers 7 response))
    as [Hserver Hclient]; try done.
  - split; [lia|]. split; [repeat constructor; by eexists|]. split; [done|]. split; [by vm_compute|].
    apply delivers_arrives.
  - repeat constructor.
  - split; [exact Hserver|]. apply Hclient, delivers_arrives.
Defined.

Lemma sum_call_lp64_witness :
  handle_client (fun _ => true) (fun _ l => l) (@server_table lp64 (fun _ => true) (fun _ => None))
    (delivers 7 (request name_sum (payload [Arg DT_S32 (VInt 10)]))) = Er OutOfBounds.
Proof.
  apply (@sum_call_lp64 lp64 (fun _ => true) (fun _ l => l) (fun _ => None) [Arg DT_S32 (VInt 10)] 7
    (delivers 7 (request name_sum (payload [Arg DT_S32 (VInt 10)])))); try done.
  - split; [lia|]. split; [repeat constructor; by eexists|]. split; [done|]. split; [by vm_compute|].
    apply delivers_arrives.
  - repeat constructor.
Defined.

(** The call of the client program *)
Lemma concat_call_witness :
  let s := delivers 7 (request name_concat (payload concat_args)) in
  let text := all_text concat_args in
  let response := rsp_bytes RPC_OK [Arg DT_S8P (VArr text)] in
  (exists s', handle_client (fun _ => true) (fun _ l => l)
     (@server_table lp64 (fun _ => true) (fun _ => None)) s = OK (tt, s') /\ replied s s' 7 response 4) /\
  (exists c', rpc_get_rsp (fun _ => true) rsp_uninit 7 (delivers 7 response) =
     OK ((0, Rsp (Some RPC_OK) (Object (Some DT_S8P) (Some (VStr text)))), c') /\ nlive c' = 1).
Proof.
  intros s text response.
  destruct (@concat_call lp64 (fun _ => true) (fun _ l => l) (fun _ => None) concat_args 7 s
    (delivers 7 response)) as [Hserver Hclient]; try done.
  - split; [lia|]. split; [repeat constructor|]. split; [done|]. split; [by vm_compute|].
    apply delivers_arrives.
  - repeat constructor.
  - split; [exact Hserver|]. apply Hclient, delivers_arrives.
Defined.

(** With a message whose packed form stands for the user and the password *)
Lemma login_call_witness :
  let s := delivers 7 (request name_login (payload [Arg DT_PB (VMsg [1])])) in
  let unpack := fun _ => Some (witton, [49; 50]) in
  exists s', handle_client (fun _ => true) (fun _ l => l)
    (@server_table lp64 (fun _ => true) unpack) s = OK (tt, s') /\ replied s s' 7 (login_response true) 1.
Proof.
  intros s unpack. apply (@login_call lp64 (fun _ => true) (fun _ l => l) unpack [1] 7 s); try done.
  split; [lia|]. split; [repeat constructor; unfold is_byte; lia|]. split; [done|]. split; [by vm_compute|].
  apply delivers_arrives.
Defined.

Lemma client_calls_witness :
  let s := delivers 1 (rsp_bytes RPC_OK [Arg DT_S64 (VInt 10)]) in exists s',
  rpc_call_add (fun _ => true) (fun _ l => l) (Net true true true) 0 s =
    OK ((0, RPC_OK, Some (VInt 10)), s') /\
  outp s' = outp s ++ frame (u32 (0 + 1)) (request name_sum (payload [Arg DT_S32 (VInt 10)])) /\
  nlive s' = nlive s /\ nsock s' = nsock s.
Proof.
  intros s. destruct (client_calls (fun _ => true) (fun _ l => l) (Net true true true) 0 [] s)
    as (Hadd & _ & _); try done; [by constructor|].
  apply Hadd, delivers_arrives.
Defined.
