(* ===== verification/RpcRun.v ===== *)
(** * Running the RPC programs

    What surrounds the calls: the time limits of sockets (rpc_util.c), the life
    of the server from its socket to its end ([rpc_server_run]), and the two
    roles of main.c. *)

From S2P Require Import Prelude Words Monad Bytes RpcBuffer RpcWire RpcServer RpcClient RpcMain.

Local Open Scope Z_scope.
Local Open Scope st_scope.

(** ** Time limits *)

Inductive platform : Type := Windows | Posix.

Inductive sockopt : Type := SO_RCVTIMEO | SO_SNDTIMEO.

(** A call of [setsockopt], with the time it asks for in milliseconds (a [DWORD]
    of milliseconds on Windows, a [struct timeval] elsewhere), or the line of
    [perror] *)
Inductive action : Type := SetOpt (o : sockopt) (ms : Z) | Perror.

Definition limit (pf : platform) (second : Z) : Z :=
  match pf with Windows => u32 (second * 1000) | Posix => second * 1000 end.

(** [n]: what [setsockopt] returns *)
Definition set_sock_timeout (pf : platform) (n : sockopt -> Z) (second : Z) : list action :=
  if 0 <? second then
    let set o := SetOpt o (limit pf second) :: if n o <? 0 then [Perror] else [] in
    set SO_RCVTIMEO ++ set SO_SNDTIMEO
  else [].

(** [g_rpc_timeout_sec], 0 at first, as an argument and a result *)
Definition rpc_set_timeout (seconds : Z) : Z := u32 seconds.
Definition rpc_get_timeout (g_rpc_timeout_sec : Z) : Z := g_rpc_timeout_sec.
Definition rpc_set_sock_timeout (pf : platform) (n : sockopt -> Z) (g_rpc_timeout_sec : Z) : list action :=
  set_sock_timeout pf n g_rpc_timeout_sec.

(** ** The server *)

(** The answers to [socket], [bind] and [listen] *)
Record start_answers : Type := Start { a_socket : bool; a_bind : bool; a_listen : bool }.

Inductive outcome : Type := SocketFails | BindFails | ListenFails | Ran.

Section run.
Variable malloc_ok : nat -> bool.
Variable write_result : nat -> Z -> Z.

(** A list of events that does not end the loop stands for a server that still
    runs. *)
Definition rpc_server_run (a : start_answers) (t : list handler_entry) (evs : list event) : ST St outcome :=
  if negb (a_socket a) then s_ret SocketFails else
  s_mod (fun s => set_sock s (nsock s + 1)) ;*
  if negb (a_bind a) then close_sock ;* s_ret BindFails else
  if negb (a_listen a) then close_sock ;* s_ret ListenFails else
  serve malloc_ok write_result t evs ;*
  s_ret Ran.

(** ** main.c *)

Variable unpack : list Z -> option (list Z * list Z).

Definition server `{Abi} (a : start_answers) (evs : list event) : ST St outcome :=
  rpc_server_run a (server_table malloc_ok unpack) evs.

(** The three calls, each with the network it finds; the counter of [rpc_call]
    goes from 0 to 3. *)
Definition client (net : nat -> network) (packed : list Z) : ST St unit :=
  let* _ := rpc_call_login malloc_ok write_result (net 0%nat) 0 packed in
  let* _ := rpc_call_add malloc_ok write_result (net 1%nat) 1 in
  let* _ := rpc_call_concat malloc_ok write_result (net 2%nat) 2 in
  s_ret tt.

End run.

Inductive role : Type := Server | Client.

Definition text_server : list Z := [115; 101; 114; 118; 101; 114].
Definition text_client : list Z := [99; 108; 105; 101; 110; 116].

(** What [main] returns, and which role it has played with which time limit;
    [err] is the answer of [WSAStartup]. *)
Definition main (pf : platform) (err : Z) (argv : list (list Z)) : Z * option (role * Z) :=
  match argv with
  | _ :: cmd :: _ =>
      if match pf with Windows => negb (err =? 0) | Posix => false end then (1, None) else
      let g_rpc_timeout_sec := rpc_set_timeout 30 in
      if bool_decide (cmd = text_server) then (0, Some (Server, g_rpc_timeout_sec))
      else if bool_decide (cmd = text_client) then (0, Some (Client, g_rpc_timeout_sec))
      else (1, None)
  | _ => (1, None)
  end.

(** ** The server, from start to end *)

Definition ends (ev : event) : bool := match ev with EvSelectFails | EvSignal => true | _ => false end.
Definition input_of (ev : event) : list (list Z) := match ev with EvClient input => input | _ => [] end.

(** The connections that the loop accepts before it ends *)
Fixpoint accepted (evs : list event) : nat :=
  match evs with
  | [] => 0
  | ev :: evs => if ends ev then 0%nat else match ev with EvClient _ => S (accepted evs) | _ => accepted evs end
  end.

Section serving.
Variable malloc_ok : nat -> bool.
Variable write_result : nat -> Z -> Z.
Hypothesis Hok : forall n, malloc_ok n = true.

Lemma serve_any t evs s : Forall (fun e => well_behaved (e_handler e)) t ->
  Forall (fun ev => Forall is_bytes (input_of ev)) evs ->
  (exists s' rs, serve malloc_ok write_result t evs s = OK (tt, s') /\
    nsock s' = nsock s - Z.b2z (existsb ends evs) /\ nlive s <= nlive s' /\
    outp s' = outp s ++ List.concat rs /\ Forall (answer write_result) rs /\ length rs = accepted evs) \/
  (exists e, serve malloc_ok write_result t evs s = Er e /\ function_fails t e).
Proof.
  intros Ht Hevs. revert s. induction Hevs as [|ev evs Hev _ IH]; intros s.
  { left. exists s, []. cbn. rewrite app_nil_r, Z.sub_0_r. done. }
  destruct ev as [|input| | |]; cbn [serve existsb ends orb accepted]; try exact (IH s).
  - erewrite s_bind_OK by reflexivity. cbn [input_of] in Hev. set (s1 := set_sock _ _).
    destruct (handle_client_serves malloc_ok write_result Hok t s1 Ht Hev) as [(s2 & Hrun & Hs & Hl & r & Hr & Ha)|(e & Hrun & He)].
    2:{ right. exists e. by rewrite (s_bind_Er _ _ _ _ Hrun). }
    rewrite (s_bind_OK _ _ _ _ _ Hrun). destruct (IH s2) as [(s' & rs & Hrun' & Hs' & Hl' & Ho' & Hrs & Hlen)|Hfail]; [left|by right].
    unfold s1 in Hs, Hl, Hr. cbn in Hs, Hl, Hr.
    exists s', (r :: rs). split; [done|]. split; [lia|]. split; [lia|]. split; [by rewrite Ho', Hr, <- app_assoc|].
    split; [by constructor|]. cbn [length]. lia.
  - left. eexists _, []. split; [reflexivity|]. cbn. rewrite app_nil_r. split; [done|]. split; [lia|]. done.
  - left. eexists _, []. split; [reflexivity|]. cbn. rewrite app_nil_r. split; [done|]. split; [lia|]. done.
Qed.
End serving.



(** ** Time limits and the client *)

(** The limit of 30 seconds that main sets is the one the system is told, in
    both directions; on Windows a limit of 2^32 milliseconds or more is told
    as its remainder, which may be zero: no limit. *)
Theorem limit_exact (pf : platform) (second : Z) : 0 < second < 2 ^ 32 ->
  set_sock_timeout pf (fun _ => 0) second = [SetOpt SO_RCVTIMEO (limit pf second); SetOpt SO_SNDTIMEO (limit pf second)] /\
  (limit pf second = second * 1000 <-> pf = Posix \/ second * 1000 < 2 ^ 32) /\
  (limit pf second = 0 <-> pf = Windows /\ second mod 2 ^ 29 = 0).
Proof.
  intros Hs. unfold set_sock_timeout. rewrite (proj2 (Z.ltb_lt _ _)) by lia. split; [done|].
  assert (u32 (second * 1000) = (second * 1000) mod 2 ^ 32) as Hu by done.
  destruct pf; cbn [limit]; [|split; (split; [|]); intros; try tauto; try lia].
  - rewrite Hu. split.
    + split; [intros H; right; rewrite <- H; apply Z.mod_pos_bound; lia|].
      intros [?|H]; [done|]. by apply Z.mod_small; lia.
    + split.
      * intros H1. split; [done|]. apply Z.mod_divide; [done|]. apply Z.mod_divide in H1 as [q Hq]; [|done].
        apply (Z.gauss _ 125); [|by vm_compute]. exists q. lia.
      * intros [_ [q ->]%Z.mod_divide]; [|done]. apply Z.mod_divide; [done|]. exists (q * 125). lia.
  - destruct H as [? _]. done.
Qed.

Lemma limit_exact_witness : limit Windows 30 = 30000 /\ limit Windows (2 ^ 29) = 0.
Proof.
  split.
  - apply (limit_exact Windows 30); [lia|]. right. lia.
  - apply (limit_exact Windows (2 ^ 29)); [lia|]. by split.
Defined.

(** The client program does not get past its first call: the response to an
    accepted login is empty, and it reads the type of a value that was never
    written; when the call fails it reads a result that was never written. *)
Theorem client_is_undefined (malloc_ok : nat -> bool) (write_result : nat -> Z -> Z)
    (net : nat -> network) (packed : list Z) (s : St) :
  (forall n, malloc_ok n = true) -> writes_all write_result -> is_bytes packed -> Z.of_nat (length packed) < 2 ^ 16 ->
  (sock_ok (net 0%nat) && host_ok (net 0%nat) && connect_ok (net 0%nat) = true ->
   arrives_as (inp s) 1 (login_response true)) ->
  client malloc_ok write_result net packed s = Er Uninit.
Proof.
  intros Hok Hw Hb Hlen Harr. unfold client. apply s_bind_Er.
  assert (Forall arg_ok [Arg DT_PB (VMsg packed)]) as Hlog by (repeat constructor; done).
  assert (Z.of_nat (length (request name_login (payload [Arg DT_PB (VMsg packed)]))) < 2 ^ 32) as Hreq.
  { unfold request, payload, args_bytes. cbn [map List.concat arg_bytes a_type a_val dt_width].
    rewrite !length_app. cbn. lia. }
  destruct (sock_ok (net 0%nat) && host_ok (net 0%nat) && connect_ok (net 0%nat)) eqn:Hnet.
  - destruct (call_and_print_eq malloc_ok write_result Hok Hw (net 0%nat) 0 name_login [Arg DT_PB (VMsg packed)] false
      RPC_OK [] s) as (s1 & _ & _ & _ & Hrun); try done. by apply Harr.
  - by apply call_fails_uninit.
Qed.

Lemma client_is_undefined_witness :
  client (fun _ => true) (fun _ l => l) (fun _ => Net true true true) [] (delivers 1 (login_response true)) = Er Uninit.
Proof.
  apply (client_is_undefined (fun _ => true) (fun _ l => l) (fun _ => Net true true true) []); try done; [by constructor|].
  intros _. apply delivers_arrives.
Defined.
