(* ===== verification/TryCatch.v ===== *)
(** * Exceptions in C [cmake/c_try_catch]

    The macros of except.h keep a global stack of 256 jump buffers: TRY saves
    the context in the next one, THROW and the signal handler drop the last one
    and jump to it, CATCH and EXCEPT drop it when the block ends normally.  A
    program is a tree of statements.  A saved context is identified by the
    activation of the TRY that saved it ([fresh] numbers them); a jump unwinds
    to that activation, and is undefined when its function has returned. *)

From stdpp Require Import strings.
From S2P Require Import Prelude Words Monad.

Local Open Scope Z_scope.
Local Open Scope st_scope.

(** ** Programs *)

Inductive stmt : Type :=
  | Skip
  | Print (m : string)                    (* [printf(m)] *)
  | Fault (s : Z)                         (* an instruction that raises the signal [s] *)
  | Throw (x : Z)                         (* [THROW(x)] *)
  | Return
  | Seq (a b : stmt)
  | Call (body : stmt)                    (* a call of a function with that body *)
  | TryCatch (body : stmt) (x : Z) (h other : stmt)
                                          (* [TRY { body } CATCH(x) { h } else { other }] *)
  | TryExcept (body h : stmt).            (* [TRY { body } EXCEPT { h }] *)

(** ** State *)

Definition SIGFPE : Z := 8.
Definition SIGSEGV : Z := 11.
Definition NBUF : Z := 256.

Record jump_buffer : Type := JB { buf : option nat; result : Z }.

Record St : Type := MkSt {
  jmp_buf : list jump_buffer;             (* [__global_jmp_buf__] *)
  depth : Z;                              (* [__global_jmp_buf_depth___] *)
  installed : bool;                       (* the signal handler is in place *)
  fresh : nat;
  out : list string
}.

Definition set_bufs (s : St) l := MkSt l (depth s) (installed s) (fresh s) (out s).
Definition set_depth (s : St) d := MkSt (jmp_buf s) d (installed s) (fresh s) (out s).
Definition set_installed (s : St) b := MkSt (jmp_buf s) (depth s) b (fresh s) (out s).
Definition set_fresh (s : St) n := MkSt (jmp_buf s) (depth s) (installed s) n (out s).
Definition set_out (s : St) o := MkSt (jmp_buf s) (depth s) (installed s) (fresh s) o.

(** How a statement ends: normally, by a [return], by a jump to the context of
    the activation [t], or with the process killed by a signal *)
Inductive outcome : Type :=
  | Normal
  | Returned
  | Jumped (t : nat)
  | Killed.

Notation ST := (ST St).

(** [__global_jmp_buf__[i]] and an update of it *)
Definition get_buf (i : Z) : ST jump_buffer := fun s =>
  if i <? NBUF then s_some OutOfBounds (jmp_buf s !! Z.to_nat i) s else Er OutOfBounds.
Definition mod_buf (i : Z) (f : jump_buffer -> jump_buffer) : ST unit :=
  let* b := get_buf i in
  s_mod (fun s => set_bufs s (<[Z.to_nat i := f b]> (jmp_buf s))).

Definition decr : ST unit := s_mod (fun s => set_depth s (u32 (depth s - 1))).

(** [THROW(x)], and the same steps in the signal handler *)
Definition throw (x : Z) : ST outcome :=
  decr ;*
  let* d := s_get depth in
  mod_buf d (fun b => JB (buf b) x) ;*
  let* b := get_buf d in
  let* t := s_some Uninit (buf b) in
  s_ret (Jumped t).

Definition sig (s : Z) : ST outcome :=
  if (s =? SIGSEGV) || (s =? SIGFPE) then throw s else s_ret Normal.

(** [init_try_catch], given the answers of the two calls of [sigaction]; the
    process is aborted when one of them fails *)
Definition init_try_catch (ok1 ok2 : bool) : ST outcome :=
  if ok1 && ok2 then s_mod (fun s => set_installed s true) ;* s_ret Normal
  else s_ret Killed.

(** [TRY]: the context is saved in the next buffer. *)
Definition enter_try : ST nat :=
  let* d := s_get depth in
  let* t := s_get fresh in
  s_mod (fun s => set_fresh (set_depth s (u32 (d + 1))) (S t)) ;*
  mod_buf d (fun b => JB (Some t) (result b)) ;*
  s_ret t.

(** The end of the block of a TRY, entered as [t]: [CATCH] and [EXCEPT] up to
    the choice of the handler, which is [k] *)
Definition leave_try (t : nat) (o : outcome) (k : ST outcome) : ST outcome :=
  match o with
  | Normal => decr ;* s_ret Normal
  | Jumped t' => if bool_decide (t' = t) then k else s_ret (Jumped t')
  | _ => s_ret o
  end.

Fixpoint exec (p : stmt) : ST outcome :=
  match p with
  | Skip => s_ret Normal
  | Print m => s_mod (fun s => set_out s (out s ++ [m])) ;* s_ret Normal
  | Fault s =>
      let* i := s_get installed in
      if i then sig s else s_ret Killed
  | Throw x => throw x
  | Return => s_ret Returned
  | Seq a b =>
      let* o := exec a in
      match o with Normal => exec b | _ => s_ret o end
  | Call body =>
      let* o := exec body in
      s_ret (match o with Returned => Normal | _ => o end)
  | TryCatch body x h other =>
      let* t := enter_try in
      let* o := exec body in
      leave_try t o (
        let* d := s_get depth in
        let* b := get_buf d in
        if result b =? x then exec h else exec other)
  | TryExcept body h =>
      let* t := enter_try in
      let* o := exec body in
      leave_try t o (exec h)
  end.

(** A whole program: a jump to a function that has returned is undefined. *)
Definition main_result (p : stmt) : ST outcome :=
  let* o := exec p in
  match o with
  | Jumped _ => s_fail OutOfBounds
  | _ => s_ret o
  end.

(** ** The program [main.c] *)

Local Open Scope string_scope.

Definition segv : stmt := Fault SIGSEGV.
Definition div0 : stmt := Fault SIGFPE.

Definition test : stmt :=
  TryCatch
    (Seq (TryCatch (Call segv) SIGSEGV (Print "test SIGSEGV exception") Skip)
         (Call div0))
    SIGFPE (Print "test SIGFPE exception") Skip.

Definition main : stmt :=
  Seq
    (TryCatch
      (Seq (TryCatch
              (Seq (TryCatch (Call segv) SIGSEGV (Print "main SIGSEGV exception") Skip)
                   (Call div0))
              SIGFPE (Print "main SIGFPE exception") Skip)
      (Seq (Call test)
           segv))
      SIGSEGV (Print "main SIGSEGV exception") (Print "main other exception"))
  (Seq (TryCatch (Throw 1) 1 (Print "except 1") Skip)
  (Seq (TryCatch (Throw 2) 2 (Print "except 2") Skip)
  (Seq (TryExcept (Throw 3) (Print "except other"))
       (Print "ok")))).

Local Close Scope string_scope.

(** The state a process starts in, with the handler installed *)
Definition start : St := MkSt (replicate (Z.to_nat NBUF) (JB None 0)) 0 true 0 [].

(** ** Structured exceptions

    What the macros stand for: an exception goes to the handler of the
    innermost TRY around it, which ends it whether or not it names it. *)

Inductive sres : Type :=
  | SDone
  | SReturned
  | SRaised (x : Z).

Definition s_then (a b : list string * sres) : list string * sres :=
  match a with
  | (o, SDone) => (o ++ b.1, b.2)
  | _ => a
  end.

(** [a], followed by [h x] if it raises [x] *)
Definition s_catch (a : list string * sres) (h : Z -> list string * sres) : list string * sres :=
  match a with
  | (o, SRaised x) => (o ++ (h x).1, (h x).2)
  | _ => a
  end.

Fixpoint seval (p : stmt) : list string * sres :=
  match p with
  | Skip => ([], SDone)
  | Print m => ([m], SDone)
  | Fault x | Throw x => ([], SRaised x)
  | Return => ([], SReturned)
  | Seq a b => s_then (seval a) (seval b)
  | Call body => match seval body with (o, SReturned) => (o, SDone) | r => r end
  | TryCatch body x h other => s_catch (seval body) (fun y => if y =? x then seval h else seval other)
  | TryExcept body h => s_catch (seval body) (fun _ => seval h)
  end.

(** No [return] leaves the block of a TRY, and faults raise the two signals
    the library handles. *)
Fixpoint disciplined (in_try : bool) (p : stmt) : bool :=
  match p with
  | Skip | Print _ | Throw _ => true
  | Fault s => (s =? SIGSEGV) || (s =? SIGFPE)
  | Return => negb in_try
  | Seq a b => disciplined in_try a && disciplined in_try b
  | Call body => disciplined false body
  | TryCatch body _ h other =>
      disciplined true body && disciplined in_try h && disciplined in_try other
  | TryExcept body h => disciplined true body && disciplined in_try h
  end.

(** The number of TRY blocks that are open at the same time *)
Fixpoint height (p : stmt) : Z :=
  match p with
  | Skip | Print _ | Throw _ | Fault _ | Return => 0
  | Seq a b => Z.max (height a) (height b)
  | Call body => height body
  | TryCatch body _ h other => Z.max (1 + height body) (Z.max (height h) (height other))
  | TryExcept body h => Z.max (1 + height body) (height h)
  end.

(** ** The macros implement structured exceptions *)

(** The contexts below [d] are those of active TRY blocks, and nothing else
    is known. *)
Definition ready (d : Z) (s : St) : Prop :=
  depth s = d /\ 0 <= d /\ Z.of_nat (length (jmp_buf s)) = NBUF /\ installed s = true /\
  forall i : nat, Z.of_nat i < d -> exists t r, jmp_buf s !! i = Some (JB (Some t) r).

(** [s'] differs from [s] in nothing a TRY block below [d] relies on, and [o]
    has been printed. *)
Definition after (d : Z) (s s' : St) (o : list string) : Prop :=
  length (jmp_buf s') = length (jmp_buf s) /\ installed s' = installed s /\
  (forall i : nat, Z.of_nat i < d -> buf <$> jmp_buf s' !! i = buf <$> jmp_buf s !! i) /\
  out s' = out s ++ o.

Definition agrees (in_try : bool) (d : Z) (s : St) (r : list string * sres) (c : res (outcome * St)) : Prop :=
  match r.2 with
  | SDone => exists s', c = OK (Normal, s') /\ depth s' = d /\ after d s s' r.1
  | SReturned => in_try = false /\ exists s', c = OK (Returned, s') /\ depth s' = d /\ after d s s' r.1
  | SRaised x =>
      if d =? 0 then c = Er OutOfBounds
      else exists t s', c = OK (Jumped t, s') /\ depth s' = d - 1 /\ after d s s' r.1 /\
        jmp_buf s' !! Z.to_nat (d - 1) = Some (JB (Some t) x)
  end.

Lemma after_refl d s : after d s s [].
Proof. unfold after. rewrite app_nil_r. auto. Qed.

Lemma after_trans d s1 s2 s3 o1 o2 : after d s1 s2 o1 -> after d s2 s3 o2 -> after d s1 s3 (o1 ++ o2).
Proof.
  intros (Hl1 & Hi1 & Hb1 & Ho1) (Hl2 & Hi2 & Hb2 & Ho2).
  split; [congruence|]. split; [congruence|]. split; [|by rewrite Ho2, Ho1, app_assoc].
  intros i Hi. by rewrite Hb2, Hb1.
Qed.

Lemma after_le d d' s s' o : d <= d' -> after d' s s' o -> after d s s' o.
Proof. intros Hd (Hl & Hi & Hb & Ho). split; [done|]. split; [done|]. split; [|done]. intros i ?. apply Hb. lia. Qed.

Lemma after_depth d s s' o n : after d s s' o -> after d s (set_depth s' n) o.
Proof. done. Qed.

Lemma ready_after d s s' o : ready d s -> after d s s' o -> depth s' = d -> ready d s'.
Proof.
  intros (_ & Hd & Hl & Hi & Hb) (Hl' & Hi' & Hb' & _) Hdepth.
  split; [done|]. split; [done|]. split; [by rewrite Hl'|]. split; [by rewrite Hi'|].
  intros i Hlt. destruct (Hb i Hlt) as (t & r & Ht). specialize (Hb' i Hlt). rewrite Ht in Hb'.
  destruct (jmp_buf s' !! i) as [[b r']|]; [|done]. injection Hb' as ->. eauto.
Qed.

(** The rest of a statement after the part [a] *)
Lemma agrees_after in_try d s s' o r c : after d s s' o -> agrees in_try d s' r c ->
  agrees in_try d s (o ++ r.1, r.2) c.
Proof.
  intros Ha. unfold agrees. destruct r as [o' r]. cbn [fst snd]. destruct r as [| |x].
  - intros (s2 & Hc & Hd & Ha'). exists s2. split; [done|]. split; [done|]. by eapply after_trans.
  - intros (Hin & s2 & Hc & Hd & Ha'). split; [done|]. exists s2. split; [done|]. split; [done|]. by eapply after_trans.
  - destruct (d =? 0); [done|]. intros (t & s2 & Hc & Hd & Ha' & Hb). exists t, s2.
    split; [done|]. split; [done|]. split; [by eapply after_trans|done].
Qed.

Lemma throw_agrees in_try d s x : ready d s -> d <= NBUF -> agrees in_try d s ([], SRaised x) (throw x s).
Proof.
  unfold NBUF. intros (Hdepth & Hd & Hl & Hi & Hb) Hmax. unfold agrees. cbn [fst snd].
  destruct (Z.eqb_spec d 0) as [->|Hd0]; unfold throw, decr.
  - unfold s_bind at 1, s_mod at 1. unfold s_bind at 1, s_get. cbn [depth set_depth]. by rewrite Hdepth.
  - erewrite s_bind_OK by reflexivity. erewrite s_bind_OK by reflexivity. cbn [depth set_depth].
    rewrite Hdepth, wrap_small by (unfold word; lia).
    destruct (Hb (Z.to_nat (d - 1)) ltac:(lia)) as (t & r & Ht).
    assert (Z.to_nat (d - 1) < length (jmp_buf s))%nat by (unfold NBUF in Hl; lia).
    erewrite s_bind_OK.
    2: { unfold mod_buf. erewrite s_bind_OK.
         2: { unfold get_buf. cbn [jmp_buf set_depth]. unfold NBUF. rewrite (proj2 (Z.ltb_lt _ _)) by lia.
              rewrite Ht. reflexivity. }
         reflexivity. }
    erewrite s_bind_OK.
    2: { unfold get_buf. cbn [jmp_buf set_depth set_bufs]. unfold NBUF. rewrite (proj2 (Z.ltb_lt _ _)) by lia.
         rewrite list_lookup_insert_eq by done. reflexivity. }
    exists t. eexists. split; [reflexivity|]. split; [done|]. cbn [jmp_buf set_depth set_bufs].
    split; [|by rewrite list_lookup_insert_eq].
    split; [cbn [jmp_buf set_depth set_bufs]; by rewrite length_insert|]. split; [done|]. split; [|symmetry; apply app_nil_r].
    intros i Hlt. cbn [jmp_buf set_depth set_bufs]. destruct (decide (i = Z.to_nat (d - 1))) as [->|].
    + by rewrite list_lookup_insert_eq, Ht.
    + by rewrite list_lookup_insert_ne.
Qed.

(** [TRY] *)
Lemma enter_try_ready d s : ready d s -> d + 1 <= NBUF ->
  exists t r s1, enter_try s = OK (t, s1) /\ ready (d + 1) s1 /\ after d s s1 [] /\
    jmp_buf s1 !! Z.to_nat d = Some (JB (Some t) r).
Proof.
  unfold NBUF. intros (Hdepth & Hd & Hl & Hi & Hb) Hmax. unfold NBUF in Hl.
  destruct (lookup_lt_is_Some_2 (jmp_buf s) (Z.to_nat d)) as [[b0 r0] H0]; [lia|].
  unfold enter_try. erewrite s_bind_OK by reflexivity. erewrite s_bind_OK by reflexivity.
  rewrite Hdepth, wrap_small by (unfold word; lia).
  erewrite s_bind_OK by reflexivity. erewrite s_bind_OK.
  2: { unfold mod_buf. erewrite s_bind_OK.
       2: { unfold get_buf. cbn [jmp_buf set_depth set_fresh]. unfold NBUF. rewrite (proj2 (Z.ltb_lt _ _)) by lia.
            rewrite H0. reflexivity. }
       reflexivity. }
  do 3 eexists. split; [reflexivity|]. cbn [jmp_buf set_bufs set_depth set_fresh].
  split; [|split; [|by rewrite list_lookup_insert_eq by lia]].
  - split; [done|]. split; [lia|]. split; [cbn; rewrite length_insert; unfold NBUF; lia|]. split; [done|].
    intros i Hlt. cbn [jmp_buf set_bufs set_depth set_fresh]. destruct (decide (i = Z.to_nat d)) as [->|].
    + rewrite list_lookup_insert_eq by lia. eauto.
    + rewrite list_lookup_insert_ne by done. apply Hb. lia.
  - split; [cbn; by rewrite length_insert|]. split; [done|]. split; [|symmetry; apply app_nil_r].
    intros i Hlt. cbn [jmp_buf set_bufs set_depth set_fresh]. rewrite list_lookup_insert_ne by lia. done.
Qed.

(** Leaving a TRY block entered as [t] at depth [d]; [hs] is what the handler
    does with the exception [x] in the specification. *)
Lemma leave_try_agrees in_try d s s1 t r0 rb hs c k :
  ready d s -> d + 1 <= NBUF -> ready (d + 1) s1 -> after d s s1 [] ->
  jmp_buf s1 !! Z.to_nat d = Some (JB (Some t) r0) ->
  agrees true (d + 1) s1 rb c ->
  (forall x s2, rb.2 = SRaised x -> ready d s2 ->
     (exists b, jmp_buf s2 !! Z.to_nat d = Some (JB b x)) -> agrees in_try d s2 (hs x) (k s2)) ->
  agrees in_try d s (s_catch rb hs)
    match c with OK (o, s2) => leave_try t o k s2 | Er e => Er e end.
Proof.
  intros Hready Hmax Hready1 Ha Ht Hbody Hk. destruct rb as [o [| |x]]; cbn [s_catch fst snd] in *.
  - destruct Hbody as (s2 & -> & Hd & Ha'). eexists. split; [reflexivity|]. cbn [depth set_depth]. split.
    + rewrite Hd. destruct Hready as (_ & ? & _). unfold NBUF in Hmax. rewrite wrap_small by (unfold word; lia). lia.
    + apply after_depth. rewrite <- (app_nil_l o). eapply after_trans; [exact Ha|]. eapply after_le; [|exact Ha']. lia.
  - by destruct Hbody.
  - destruct Hready as (Hr1 & Hd0 & Hr3). unfold agrees in Hbody. cbn [fst snd] in Hbody.
    destruct (Z.eqb_spec (d + 1) 0); [lia|]. destruct Hbody as (t' & s2 & -> & Hd & Ha' & Hb).
    replace (d + 1 - 1) with d in * by lia.
    assert (t' = t) as ->.
    { destruct Ha' as (_ & _ & Htok & _). specialize (Htok (Z.to_nat d) ltac:(lia)).
      rewrite Ht, Hb in Htok. cbn in Htok. congruence. }
    cbn [leave_try]. rewrite bool_decide_true by done.
    assert (after d s s2 o) as Ha2.
    { rewrite <- (app_nil_l o). eapply after_trans; [exact Ha|]. eapply after_le; [|exact Ha']. lia. }
    apply (agrees_after in_try d s s2 o (hs x) (k s2) Ha2).
    apply Hk; [done| |by eexists].
    eapply ready_after; [|exact Ha2|exact Hd]. by split.
Qed.

Lemma s_then_agrees in_try d s ra rb a b :
  ready d s -> agrees in_try d s ra (exec a s) ->
  (forall s', ready d s' -> agrees in_try d s' rb (exec b s')) ->
  agrees in_try d s (s_then ra rb) (exec (Seq a b) s).
Proof.
  intros Hready Ha Hb. cbn [exec]. unfold s_bind. destruct ra as [o [| |x]]; cbn [s_then fst snd] in *.
  - destruct Ha as (s' & -> & Hd & Hafter). eapply agrees_after; [exact Hafter|].
    apply Hb. by eapply ready_after.
  - destruct Ha as (Hin & s' & -> & Hd & Hafter). split; [done|]. by exists s'.
  - unfold agrees in *. cbn [fst snd] in *. destruct (d =? 0); [by rewrite Ha|].
    destruct Ha as (t & s' & -> & Ha). by exists t, s'.
Qed.

Lemma height_nonneg p : 0 <= height p.
Proof. induction p; cbn [height]; lia. Qed.

Lemma exec_agrees p in_try d s : disciplined in_try p = true -> ready d s -> d + height p <= NBUF ->
  agrees in_try d s (seval p) (exec p s).
Proof.
  revert in_try d s. induction p as [|m|x|x| |a IHa b IHb|body IH|body IHb x h IHh other IHo|body IHb h IHh];
    intros in_try d s Hp Hready Hmax; cbn [disciplined height] in *.
  - exists s. split; [done|]. split; [apply Hready|apply after_refl].
  - eexists. split; [reflexivity|]. split; [apply Hready|]. split; [done|]. split; [done|]. done.
  - cbn [exec seval]. erewrite s_bind_OK by reflexivity.
    destruct Hready as (? & ? & ? & Hi & ?). rewrite Hi. unfold sig. rewrite Hp.
    apply throw_agrees; [done|lia].
  - apply throw_agrees; [done|lia].
  - split; [by destruct in_try|]. exists s. split; [done|]. split; [apply Hready|apply after_refl].
  - apply andb_true_iff in Hp as [Hpa Hpb]. apply s_then_agrees; [done|apply IHa; [done..|lia]|].
    intros s' Hs'. apply IHb; [done..|lia].
  - specialize (IH false d s Hp Hready Hmax). cbn [exec seval]. unfold s_bind.
    destruct (seval body) as [o [| |x]]; unfold agrees in *; cbn [fst snd] in *.
    + destruct IH as (s' & -> & IH). by exists s'.
    + destruct IH as (_ & s' & -> & IH). by exists s'.
    + destruct (d =? 0); [by rewrite IH|]. destruct IH as (t & s' & -> & IH). by exists t, s'.
  - apply andb_true_iff in Hp as [[Hpb Hph]%andb_true_iff Hpo]. cbn [exec seval].
    pose proof (height_nonneg body).
    destruct (enter_try_ready d s Hready) as (t & r & s1 & Henter & Hready1 & Ha & Ht); [lia|].
    rewrite (s_bind_OK _ _ _ _ _ Henter).
    eapply leave_try_agrees; [exact Hready|lia|exact Hready1|exact Ha|exact Ht|apply IHb; [done..|lia]|].
    intros y s2 _ Hready2 [b0 Hb0]. erewrite s_bind_OK by reflexivity.
    destruct Hready2 as (Hd2 & Hr2). erewrite s_bind_OK.
    2: { unfold get_buf. rewrite Hd2, (proj2 (Z.ltb_lt _ _)) by lia. rewrite Hb0. reflexivity. }
    cbn [result]. destruct (y =? x); [apply IHh|apply IHo]; (done || split || lia); done.
  - apply andb_true_iff in Hp as [Hpb Hph]. cbn [exec seval].
    pose proof (height_nonneg body).
    destruct (enter_try_ready d s Hready) as (t & r & s1 & Henter & Hready1 & Ha & Ht); [lia|].
    rewrite (s_bind_OK _ _ _ _ _ Henter).
    eapply leave_try_agrees; [exact Hready|lia|exact Hready1|exact Ha|exact Ht|apply IHb; [done..|lia]|].
    intros y s2 _ Hready2 _. apply IHh; [done..|lia].
Qed.

(** C33: the macros implement structured exceptions: a program in which no
    [return] leaves a TRY block and at most 256 blocks are open at a time prints
    what its specification prints and ends as it does, with the stack of buffers
    as it was; an exception outside every TRY is written to the buffer before
    the first one.  An exception that no CATCH names is dropped by the
    innermost TRY. *)
Theorem macros_are_exceptions (p : stmt) (s : St) :
  disciplined false p = true -> height p <= NBUF ->
  depth s = 0 -> Z.of_nat (length (jmp_buf s)) = NBUF -> installed s = true ->
  match seval p with
  | (o, SRaised _) => main_result p s = Er OutOfBounds
  | (o, r) => exists s', main_result p s = OK (if r is SReturned then Returned else Normal, s') /\
      out s' = out s ++ o /\ depth s' = 0
  end.
Proof.
  intros Hp Hheight Hd Hl Hi. assert (ready 0 s) as Hready.
  { split; [done|]. split; [done|]. split; [done|]. split; [done|]. intros i ?. lia. }
  pose proof (exec_agrees p false 0 s Hp Hready Hheight) as H. unfold main_result, s_bind.
  destruct (seval p) as [o [| |x]]; cbn [fst snd] in H.
  - destruct H as (s' & -> & Hd' & Ha). exists s'. split; [done|]. split; [apply Ha|done].
  - destruct H as (_ & s' & -> & Hd' & Ha). exists s'. split; [done|]. split; [apply Ha|done].
  - unfold agrees in H. cbn in H. by rewrite H.
Qed.

(** A division by zero that the CATCH around it does not name *)
Lemma macros_are_exceptions_witness :
  let p := Seq (TryCatch (Seq div0 (Print "skipped")) SIGSEGV (Print "not named") Skip) (Print "goes on") in
  exists s', main_result p start = OK (Normal, s') /\ out s' = ["goes on"%string] /\ depth s' = 0.
Proof.
  intros p. exact (macros_are_exceptions p start eq_refl ltac:(vm_compute; discriminate) eq_refl eq_refl eq_refl).
Defined.

Fixpoint nested (n : nat) : stmt :=
  match n with
  | O => Skip
  | S n => TryExcept (nested n) Skip
  end.

Lemma nested_too_deep n d s : Z.of_nat (length (jmp_buf s)) = NBUF -> 0 <= d <= NBUF -> depth s = d ->
  NBUF < d + Z.of_nat n -> exec (nested n) s = Er OutOfBounds.
Proof.
  unfold NBUF. revert d s. induction n as [|n IH]; intros d s Hl Hd Hdepth Hn; [lia|].
  cbn [nested exec]. unfold enter_try. unfold s_bind at 1 2. unfold s_bind at 1, s_get. rewrite Hdepth.
  rewrite wrap_small by (unfold word; lia). erewrite s_bind_OK by reflexivity. unfold s_bind at 1, mod_buf, get_buf.
  unfold s_bind at 1, NBUF. destruct (Z.ltb_spec d 256); [|done].
  cbn [jmp_buf set_depth set_fresh].
  destruct (lookup_lt_is_Some_2 (jmp_buf s) (Z.to_nat d)) as [b ->]; [lia|]. cbn [s_some s_ret].
  unfold s_mod, s_ret. unfold s_bind.
  rewrite (IH (d + 1)); [done| |lia|done|lia]. cbn [jmp_buf set_depth set_fresh set_bufs]. by rewrite length_insert.
Qed.

(** The stack of buffers has no bound check: entering the 257th TRY block
    that is open at the same time saves its context past the end of the array,
    while 256 are fine. *)
Theorem nesting_limit (n : nat) :
  if Z.of_nat n <=? NBUF
  then exists s, exec (nested n) start = OK (Normal, s) /\ depth s = 0
  else exec (nested n) start = Er OutOfBounds.
Proof.
  destruct (Z.leb_spec (Z.of_nat n) NBUF).
  - assert (seval (nested n) = ([], SDone)) as Hs.
    { clear. induction n as [|n IH]; [done|]. cbn [nested seval]. by rewrite IH. }
    assert (height (nested n) = Z.of_nat n /\ disciplined false (nested n) = true /\
      disciplined true (nested n) = true) as (Hh & Hp & _).
    { clear. induction n as [|n (IH1 & IH2 & IH3)]; [done|]. cbn [nested height disciplined].
      rewrite IH1, IH3. split; [lia|done]. }
    assert (ready 0 start) as Hready.
    { split; [done|]. split; [done|]. split; [by vm_compute|]. split; [done|]. intros i ?. lia. }
    pose proof (exec_agrees (nested n) false 0 start Hp Hready ltac:(lia)) as H'. rewrite Hs in H'.
    destruct H' as (s' & Hrun & Hd & _). exists s'. by split.
  - apply (nested_too_deep n 0); [by vm_compute|unfold NBUF; lia|done|lia].
Qed.

(** A [return] inside a TRY block leaves its context on the stack: after a
    function that returns so, the next exception, whatever handler is around
    it, jumps to the function that has returned. *)
Theorem return_leaves_context (x : Z) (h other after_return : stmt) :
  main_result
    (TryCatch (Seq (Call (TryExcept Return after_return)) (Throw x)) x h other) start = Er OutOfBounds.
Proof. reflexivity. Qed.

(** The lines the program prints, once its handlers are installed: every
    fault and every exception reaches the handler that names it, also across
    the call of [test]. *)
Theorem main_prints (s : St) :
  jmp_buf s = jmp_buf start -> depth s = 0 -> out s = [] ->
  exists s1 s2, init_try_catch true true s = OK (Normal, s1) /\ main_result main s1 = OK (Normal, s2) /\
    out s2 = ["main SIGSEGV exception"; "main SIGFPE exception"; "test SIGSEGV exception";
              "test SIGFPE exception"; "main SIGSEGV exception"; "except 1"; "except 2";
              "except other"; "ok"]%string /\ depth s2 = 0.
Proof.
  intros Hb Hd Ho. assert (ready 0 (set_installed s true)) as Hready.
  { split; [done|]. split; [done|]. split; [cbn [jmp_buf set_installed]; rewrite Hb; by vm_compute|].
    split; [done|]. intros i ?. lia. }
  pose proof (exec_agrees main false 0 _ eq_refl Hready ltac:(vm_compute; discriminate)) as H.
  destruct (seval main) as [o r] eqn:Hs. vm_compute in Hs. injection Hs as <- <-.
  destruct H as (s2 & Hrun & Hdepth & _ & _ & _ & Hout). cbn [out set_installed fst] in Hout. rewrite Ho in Hout.
  exists (set_installed s true), s2. split; [reflexivity|].
  unfold main_result. by rewrite (s_bind_OK _ _ _ _ _ Hrun).
Qed.

Lemma main_prints_witness :
  exists s1 s2, init_try_catch true true (set_installed start false) = OK (Normal, s1) /\
    main_result main s1 = OK (Normal, s2) /\
    out s2 = ["main SIGSEGV exception"; "main SIGFPE exception"; "test SIGSEGV exception";
              "test SIGFPE exception"; "main SIGSEGV exception"; "except 1"; "except 2";
              "except other"; "ok"]%string /\ depth s2 = 0.
Proof. apply (main_prints (set_installed start false)); reflexivity. Defined.
