(* ===== verification/Swiss.v ===== *)
(** * The hash table of [cmake/swissmap/swissmap.h]

    An open-addressing table in the style of Abseil's Swiss tables.  Every slot
    has a control byte: empty, deleted, or seven bits of the hash of its key.
    The control bytes are searched 16 at a time with SSE2 instructions, from a
    start that depends on the hash; the first 15 are repeated behind a sentinel
    at the end so that such a group may wrap around.

    The class is a template: [K], [V] and [std::hash] are parameters here, and
    so is the address of each block [new] returns, which salts the hash.  The
    control bytes and the slots share one block of memory; here they are two
    arrays. *)

From S2P Require Import Prelude Words Monad.

Local Open Scope Z_scope.
Local Open Scope st_scope.

Definition kWidth : Z := 16.

(** [enum class Ctrl : int8_t] *)
Definition kEmpty : Z := -128.
Definition kDeleted : Z := -2.
Definition kSentinel : Z := -1.

(** ** The vector instructions

    A 16-bit mask has bit [j] set when byte [j] of the group passes the test. *)

Fixpoint movemask (l : list bool) : Z :=
  match l with
  | [] => 0
  | b :: l => (if b then 1 else 0) + 2 * movemask l
  end.

(** [_mm_movemask_epi8] of a comparison of all bytes of a group *)
Definition group_mask (test : Z -> bool) (g : list Z) : Z := movemask (map test g).

(** [std::countr_zero] of a 16-bit number *)
Fixpoint ctz (n : nat) (m : Z) : Z :=
  match n with
  | O => 0
  | S n => if Z.odd m then 0 else 1 + ctz n (Z.div2 m)
  end.
Definition countr_zero (m : Z) : Z := ctz 16 m.

(** ** The class *)

Section swiss.
Context {K V : Type} `{EqDecision K}.

(** Raw memory for a key and a value, each of which is there once it has been
    constructed *)
Record Slot : Type := MkSlot { s_k : option K; s_v : option V }.

Record CSwissMap : Type := MkMap {
  m_ctrl : list Z;
  m_slot : list Slot;
  m_cap : Z;
  m_num : Z;
  m_growthInfo : Z;
  m_salt : Z;
  m_block : nat          (* which block [m_ctrl] points to *)
}.

Notation ST := (ST CSwissMap).

Definition set_ctrl (s : CSwissMap) l := MkMap l (m_slot s) (m_cap s) (m_num s) (m_growthInfo s) (m_salt s) (m_block s).
Definition set_slot (s : CSwissMap) l := MkMap (m_ctrl s) l (m_cap s) (m_num s) (m_growthInfo s) (m_salt s) (m_block s).
Definition set_num (s : CSwissMap) n g := MkMap (m_ctrl s) (m_slot s) (m_cap s) n g (m_salt s) (m_block s).

Variable hash : K -> Z.
Variable addr : nat -> Z.

(** *** Access to the arrays *)

Definition get_ctrl (i : Z) : ST Z := fun s =>
  if 0 <=? i then s_some OutOfBounds (m_ctrl s !! Z.to_nat i) s else Er OutOfBounds.
Definition put_ctrl (i c : Z) : ST unit :=
  let* _ := get_ctrl i in s_mod (fun s => set_ctrl s (<[Z.to_nat i := c]> (m_ctrl s))).
Definition get_slot (i : Z) : ST Slot := fun s =>
  if 0 <=? i then s_some OutOfBounds (m_slot s !! Z.to_nat i) s else Er OutOfBounds.
Definition mod_slot (i : Z) (f : Slot -> Slot) : ST unit :=
  let* x := get_slot i in s_mod (fun s => set_slot s (<[Z.to_nat i := f x]> (m_slot s))).

(** [_mm_loadu_si128] of the control bytes from index [i] *)
Definition read16 (i : Z) : ST (list Z) := fun s =>
  if (0 <=? i) && (i + 16 <=? Z.of_nat (length (m_ctrl s)))
  then OK (take 16 (drop (Z.to_nat i) (m_ctrl s)), s) else Er OutOfBounds.

(** *** Hashes and capacities *)

Definition H1 (h a : Z) : Z := Z.lxor (Z.shiftr h 7) (Z.shiftr a 12).
Definition H2 (h : Z) : Z := Z.land h 127.

Definition IsValidCapacity (n : Z) : bool := (Z.land (u64 (n + 1)) n =? 0) && (0 <? n).

Definition nextCap : ST Z :=
  let* cap := s_get m_cap in
  s_assert (IsValidCapacity (u64 (cap * 2 + 1))) ;*
  s_ret (u64 (cap * 2 + 1)).

Definition getSlotIndex (index mask : Z) : ST Z :=
  let* cap := s_get m_cap in
  s_assert ((cap =? 0) || IsValidCapacity cap) ;*
  s_ret (Z.land (u64 (index + countr_zero mask)) cap).

Definition setCtrl (index h : Z) : ST unit :=
  put_ctrl index h ;*
  if index <? kWidth - 1
  then let* cap := s_get m_cap in put_ctrl (index + cap + 1) h
  else s_ret tt.

(** *** Searching *)

(** [while (mask != 0)]: the slots of the group whose seven bits match, from
    the first on, until one holds the key *)
Fixpoint match_loop (fuel : nat) (index mask h2 : Z) (key : K) : ST (option Z) :=
  if mask =? 0 then s_ret None else
  match fuel with
  | O => s_fail OutOfFuel
  | S fuel =>
      let* slotIndex := getSlotIndex index mask in
      let* c := get_ctrl slotIndex in
      s_assert (c =? h2) ;*
      let* x := get_slot slotIndex in
      let* k := s_some Uninit (s_k x) in
      if decide (k = key) then s_ret (Some slotIndex)
      else match_loop fuel index (Z.land mask (mask - 1)) h2 key
  end.

(** A mask has 16 bits, so 16 rounds are enough. *)
Fixpoint find_loop (fuel : nat) (index h2 : Z) (key : K) : ST (bool * Z) :=
  match fuel with
  | O => s_fail OutOfFuel
  | S fuel =>
      let* g := read16 index in
      let* r := match_loop 16 index (group_mask (fun c => c =? h2) g) h2 key in
      match r with
      | Some i => s_ret (true, i)
      | None =>
          let mask := group_mask (fun c => c =? kEmpty) g in
          if negb (mask =? 0) then
            let* i := getSlotIndex index mask in s_ret (false, i)
          else
            let* cap := s_get m_cap in
            find_loop fuel (Z.land (u64 (index + kWidth)) cap) h2 key
      end
  end.

(** The salted hash of a key *)
Definition salted (salt : Z) (key : K) : Z := Z.lxor (u64 (hash key)) salt.

Variable probes : nat.       (* how many groups a search may look at *)

Definition findIndex (key : K) : ST (bool * Z * Z) :=
  let* s := s_get id in
  let k := salted (m_salt s) key in
  let h2 := H2 k in
  let index := Z.land (H1 k (addr (m_block s))) (m_cap s) in
  let* r := find_loop probes index h2 key in
  s_ret (r.1, r.2, h2).

(** *** Growing *)

Definition init (n : Z) : ST unit := s_mod (fun s =>
  MkMap (<[Z.to_nat n := kSentinel]> (replicate (Z.to_nat (n + kWidth)) kEmpty))
    (replicate (Z.to_nat n) (MkSlot None None)) n (m_num s)
    (u64 (u64 (n - n / 8) - m_num s)) (m_salt s) (S (m_block s))).

(** [new(x) V(v)] with [x] the address of the value in slot [i] *)
Definition construct_value (i : Z) (v : V) : ST unit := mod_slot i (fun x => MkSlot (s_k x) (Some v)).

(** The loop of [rehash] over the old arrays; [find] is [find(_, true)].  Its
    counter is an [int] ([auto i = 0]), whatever the capacity. *)
Fixpoint move_slots (find : K -> ST (option Z)) (n i : nat) (ctrl : list Z) (slot : list Slot) : ST unit :=
  match n with
  | O => s_ret tt
  | S n =>
      let* c := s_some OutOfBounds (ctrl !! i) in
      (if 0 <=? c then
         let* s := s_some OutOfBounds (slot !! i) in
         let* k := s_some Uninit (s_k s) in
         let* x := find k in
         let* x := s_some NullDeref x in
         let* v := s_some Uninit (s_v s) in
         construct_value x v
       else s_ret tt) ;*
      (if Z.of_nat i =? INT_MAX then s_fail IntOverflow else s_ret tt) ;*
      move_slots find n (S i) ctrl slot
  end.

Definition rehash (find : K -> ST (option Z)) (n : Z) : ST unit :=
  let* old := s_get id in
  init n ;*
  s_mod (fun s => set_num s 0 (m_growthInfo s)) ;*
  move_slots find (Z.to_nat (m_cap old)) 0 (m_ctrl old) (m_slot old).

(** *** Operations *)

(** [find]: the slot of the value, or none for a null pointer.  [fuel] bounds
    the nesting of [find] and [rehash]. *)
Fixpoint find (fuel : nat) (key : K) (isAdd : bool) : ST (option Z) :=
  match fuel with
  | O => s_fail OutOfFuel
  | S fuel =>
      let* r := findIndex key in
      let '(found, index, h2) := r in
      if found then s_ret (Some index) else
      if negb isAdd then s_ret None else
      let* g := read16 index in
      let mask := group_mask (fun c => c <? kSentinel) g in
      let* growth := s_get m_growthInfo in
      if negb (mask =? 0) && (0 <? growth) then
        let* index := getSlotIndex index mask in
        let* c := get_ctrl index in
        s_assert ((c =? kEmpty) || (c =? kDeleted)) ;*
        setCtrl index h2 ;*
        mod_slot index (fun x => MkSlot (Some key) (s_v x)) ;*
        s_mod (fun s => set_num s (u64 (m_num s + 1)) (u64 (m_growthInfo s - 1))) ;*
        s_ret (Some index)
      else
        let* n := nextCap in
        rehash (fun k => find fuel k true) n ;*
        find fuel key isAdd
  end.

(** Three levels are enough: the call itself, the search again after growing,
    and the moves of the old keys, for which there is always room. *)
Definition find_fuel : nat := 3.

(** [operator[]], and a read through the pointer it returns *)
Definition lookup_value (key : K) : ST (option V) :=
  let* x := find find_fuel key false in
  match x with
  | None => s_ret None
  | Some i =>
      let* s := get_slot i in
      let* v := s_some Uninit (s_v s) in
      s_ret (Some v)
  end.

Definition insert (key : K) (v : V) : ST unit :=
  let* x := find find_fuel key true in
  let* x := s_some NullDeref x in
  construct_value x v.

Definition erase (key : K) : ST bool :=
  let* r := findIndex key in
  let '(found, index, _) := r in
  if found then
    setCtrl index kDeleted ;*
    let* s := get_slot index in
    s_some Uninit (s_k s) ;*
    s_some Uninit (s_v s) ;*
    mod_slot index (fun _ => MkSlot None None) ;*
    s_mod (fun s => set_num s (u64 (m_num s - 1)) (u64 (m_growthInfo s + 1))) ;*
    s_ret true
  else s_ret false.

(** [foreach], with a function that may change the value and says whether to
    stop; [a] is what the function accumulates *)
Fixpoint foreach_loop {A} (n i : nat) (func : K -> V -> A -> bool * V * A) (a : A) : ST A :=
  match n with
  | O => s_ret a
  | S n =>
      let* c := get_ctrl (Z.of_nat i) in
      if 0 <=? c then
        let* s := get_slot (Z.of_nat i) in
        let* k := s_some Uninit (s_k s) in
        let* v := s_some Uninit (s_v s) in
        let '(stop, v', a) := func k v a in
        construct_value (Z.of_nat i) v' ;*
        if stop : bool then s_ret a else foreach_loop n (S i) func a
      else foreach_loop n (S i) func a
  end.
Definition foreach {A} (func : K -> V -> A -> bool * V * A) (a : A) : ST A :=
  let* cap := s_get m_cap in
  foreach_loop (Z.to_nat cap) 0 func a.

(** The constructor, with the salt it draws *)
Definition CSwissMap_new (salt : Z) : CSwissMap :=
  MkMap (<[0%nat := kSentinel]> (replicate 16 kEmpty)) [] 0 0 0 salt 0.

(** The destructor.  The block is released; the keys and values that are still
    in it, the result, are not destroyed. *)
Definition left_over (x : Slot) : bool := match x with MkSlot None None => false | _ => true end.
Definition CSwissMap_delete : ST (list Slot) :=
  let* l := s_get m_slot in
  s_mod (fun s => MkMap [] [] 0 0 0 0 (m_block s)) ;*
  s_ret (List.filter left_over l).

End swiss.
Arguments Slot : clear implicits.
Arguments CSwissMap : clear implicits.
