(* ===== verification/SwissProbe.v ===== *)
(** * Searching the control bytes

    What the masks and the groups of [Swiss] compute: a search visits the
    positions of a probe sequence, 16 at a time, and ends at the first group
    that has an empty byte. *)

From S2P Require Import Prelude Words Monad Swiss.

Local Open Scope Z_scope.
Local Open Scope st_scope.

(** ** Masks *)

Lemma movemask_range l : 0 <= movemask l < 2 ^ Z.of_nat (length l).
Proof.
  induction l as [|b l IH]; [simpl; lia|]. cbn [movemask length].
  rewrite Nat2Z.inj_succ, Z.pow_succ_r by lia. destruct b; lia.
Qed.

Lemma movemask_zero l : movemask l = 0 <-> forall j, l !! j <> Some true.
Proof.
  induction l as [|b l IH]; [done|]. cbn [movemask]. pose proof (movemask_range l). split.
  - intros Hm [|j]; [cbn; destruct b; [lia|done]|]. cbn. apply IH. destruct b; lia.
  - intros Hn. assert (movemask l = 0) as -> by (apply IH; intros j; apply (Hn (S j))).
    destruct b; [by destruct (Hn 0%nat)|done].
Qed.

Lemma land_double a b : Z.land (2 * a) (2 * b + 1) = 2 * Z.land a b.
Proof.
  apply Z.bits_inj'. intros n Hn. rewrite Z.land_spec. destruct (Z.eqb_spec n 0) as [->|].
  - by rewrite !Z.testbit_even_0.
  - replace n with (Z.succ (n - 1)) by lia.
    rewrite !Z.testbit_even_succ, Z.testbit_odd_succ by lia. by rewrite Z.land_spec.
Qed.

(** The lowest bit of a mask, and the mask without it *)
Lemma mask_step l n : movemask l <> 0 -> (length l <= n)%nat -> exists j,
  l !! j = Some true /\ (forall i, (i < j)%nat -> l !! i = Some false) /\
  ctz n (movemask l) = Z.of_nat j /\
  Z.land (movemask l) (movemask l - 1) = movemask (<[j := false]> l).
Proof.
  revert n. induction l as [|b l IH]; intros n Hm Hn; [done|]. cbn [length] in Hn.
  destruct n as [|n]; [lia|]. cbn [movemask ctz] in *. destruct b.
  - exists 0%nat. split; [done|]. split; [lia|].
    replace (1 + 2 * movemask l) with (2 * movemask l + 1) by lia.
    rewrite Z.odd_odd. split; [done|]. cbn [list_insert insert movemask].
    replace (2 * movemask l + 1 - 1) with (2 * movemask l) by lia.
    rewrite Z.land_comm, land_double, Z.land_diag. cbn. lia.
  - assert (movemask l <> 0) as Hm' by lia. destruct (IH n Hm' ltac:(lia)) as (j & Hj & Hlt & Hctz & Hland).
    exists (S j). split; [done|]. split; [by intros [|i] Hi; [|apply Hlt; lia]|]. rewrite Z.add_0_l. split.
    + rewrite Z.odd_even, Z.div2_div, Z.mul_comm, Z.div_mul by lia. lia.
    + replace (2 * movemask l - 1) with (2 * (movemask l - 1) + 1) by lia. rewrite land_double, Hland.
      change (<[S j:=false]> (false :: l)) with (false :: <[j:=false]> l). cbn [movemask]. lia.
Qed.

(** The mask of a test on a group of 16 bytes *)
Lemma group_mask_zero test g : group_mask test g = 0 <-> forall j c, g !! j = Some c -> test c = false.
Proof.
  unfold group_mask. rewrite movemask_zero. setoid_rewrite list_lookup_fmap. split.
  - intros Hn j c Hc. specialize (Hn j). rewrite Hc in Hn. cbn in Hn. by destruct (test c).
  - intros Ht j Hj. destruct (g !! j) eqn:Hg; [|done]. cbn in Hj. rewrite (Ht j z Hg) in Hj. done.
Qed.

Lemma group_mask_first test g : length g = 16%nat -> group_mask test g <> 0 -> exists j c,
  g !! j = Some c /\ test c = true /\ countr_zero (group_mask test g) = Z.of_nat j /\
  forall i c', (i < j)%nat -> g !! i = Some c' -> test c' = false.
Proof.
  intros Hl Hm. destruct (mask_step _ 16 Hm) as (j & Hj & Hlt & Hctz & _); [by rewrite length_map, Hl|].
  change (map test g) with (test <$> g) in *. rewrite list_lookup_fmap in Hj. destruct (g !! j) as [c|] eqn:Hc; [|done]. injection Hj as Hj.
  exists j, c. split; [done|]. split; [done|]. split; [exact Hctz|].
  intros i c' Hi Hc'. specialize (Hlt i Hi). rewrite list_lookup_fmap, Hc' in Hlt. by injection Hlt.
Qed.

(** ** The layout of the control bytes

    The bytes of the slots, the sentinel, and a copy of the first 15 bytes,
    filled up with empty ones *)

Definition layout (C : list Z) : list Z := C ++ kSentinel :: take 15 (C ++ replicate 15 kEmpty).

Lemma lookup_next {A} (x : A) l j : (x :: l) !! S j = l !! j.
Proof. done. Qed.

Lemma layout_length C : length (layout C) = (length C + 16)%nat.
Proof. unfold layout. rewrite length_app. cbn [length]. rewrite length_take, length_app, length_replicate. lia. Qed.

Lemma layout_low C p : (p < length C)%nat -> layout C !! p = C !! p.
Proof. intros Hp. unfold layout. by apply lookup_app_l. Qed.

Lemma layout_sentinel C : layout C !! length C = Some kSentinel.
Proof. unfold layout. rewrite lookup_app_r by lia. by rewrite Nat.sub_diag. Qed.

Lemma layout_clone C j : (j < length C)%nat -> (j < 15)%nat -> layout C !! (length C + 1 + j)%nat = C !! j.
Proof.
  intros Hj H15. unfold layout. rewrite lookup_app_r by lia.
  replace (length C + 1 + j - length C)%nat with (S j) by lia. rewrite lookup_next.
  rewrite lookup_take_lt by done. by rewrite lookup_app_l.
Qed.

Lemma layout_rest C p : (2 * length C + 1 <= p)%nat -> (p < length C + 16)%nat -> layout C !! p = Some kEmpty.
Proof.
  intros Hp Hlt. unfold layout. rewrite lookup_app_r by lia.
  replace (p - length C)%nat with (S (p - length C - 1)) by lia. rewrite lookup_next.
  rewrite lookup_take_lt by lia. rewrite lookup_app_r by lia. rewrite lookup_replicate_2 by lia. done.
Qed.

(** Where a position leads *)
Lemma layout_cases C p c : (p < length C + 16)%nat -> layout C !! p = Some c ->
  let q := (p mod (length C + 1))%nat in
  ((q < length C)%nat /\ C !! q = Some c /\ (p < 2 * length C + 1)%nat) \/
  (p = length C /\ c = kSentinel) \/
  ((2 * length C + 1 <= p)%nat /\ c = kEmpty).
Proof.
  intros Hp Hc q. destruct (Nat.lt_ge_cases p (length C)) as [Hlt|Hge].
  - left. rewrite layout_low in Hc by done. unfold q. rewrite Nat.mod_small by lia. split; [done|]. split; [done|lia].
  - destruct (Nat.eq_dec p (length C)) as [->|Hne].
    + right. left. rewrite layout_sentinel in Hc. split; [done|congruence].
    + destruct (Nat.lt_ge_cases p (2 * length C + 1)) as [Hlt|Hrest].
      * left. set (j := (p - (length C + 1))%nat). assert (p = length C + 1 + j)%nat as Hpj by lia.
        assert (q = j) as Hqj.
        { unfold q. rewrite Hpj. rewrite <- (Nat.mul_1_l (length C + 1)) at 1.
          rewrite Nat.add_comm, Nat.Div0.mod_add, Nat.mod_small; lia. }
        rewrite Hqj. rewrite Hpj, layout_clone in Hc by lia. split; [lia|]. split; [done|lia].
      * right. right. rewrite layout_rest in Hc by lia. split; [done|congruence].
Qed.

Lemma layout_lookup C p : (p < length C + 16)%nat -> layout C !! p =
  if decide (p = length C) then Some kSentinel
  else if decide (2 * length C + 1 <= p)%nat then Some kEmpty
  else C !! (p mod (length C + 1))%nat.
Proof.
  intros Hp. destruct (lookup_lt_is_Some_2 (layout C) p) as [c Hc]; [by rewrite layout_length|].
  rewrite Hc. destruct (layout_cases C p c Hp Hc) as [(Hq & HC & Hlt)|[[-> ->]|[Hge ->]]].
  - rewrite !decide_False; [done|lia|]. intros ->. rewrite Nat.mod_small in Hq by lia. lia.
  - by rewrite decide_True.
  - by rewrite decide_False, decide_True by lia.
Qed.

Lemma insert_layout C i h : (i < length C)%nat ->
  (if Z.of_nat i <? kWidth - 1 then <[(i + length C + 1)%nat := h]> (<[i := h]> (layout C))
   else <[i := h]> (layout C)) = layout (<[i := h]> C).
Proof.
  intros Hi. unfold layout, kWidth. rewrite insert_app_l by done.
  destruct (Z.ltb_spec (Z.of_nat i) (16 - 1)).
  - rewrite insert_app_r_alt by (rewrite length_insert; lia). rewrite length_insert.
    replace (i + length C + 1 - length C)%nat with (S i) by lia. cbn [list_insert insert].
    f_equal. rewrite <- insert_app_l by done. rewrite take_insert_lt by lia. done.
  - f_equal. f_equal. rewrite <- insert_app_l by done. by rewrite take_insert_ge by lia.
Qed.

(** ** Searching *)

Section search.
Context {K V : Type} `{EqDecision K}.
Notation Map := (CSwissMap K V).
Implicit Types (t : Map) (C : list Z) (key : K).

(** The arrays of a table whose control bytes are [C] *)
Definition shape t C : Prop :=
  exists e, 0 <= e <= 57 /\ m_cap t = 2 ^ e - 1 /\ Z.of_nat (length C) = m_cap t /\
    m_ctrl t = layout C /\ length (m_slot t) = length C.

(** Slot [i] holds the key. *)
Definition full t C (i : nat) key : Prop :=
  exists c x, C !! i = Some c /\ 0 <= c /\ m_slot t !! i = Some x /\ s_k x = Some key.

Definition keyed t C : Prop := forall i c, C !! i = Some c -> 0 <= c -> exists key, full t C i key.

Lemma shape_cap t C : shape t C -> m_cap t = Z.of_nat (length C) /\ Z.of_nat (length C) < 2 ^ 57.
Proof.
  intros (e & He & Hcap & Hlen & _). split; [done|].
  assert (2 ^ e <= 2 ^ 57) by (apply Z.pow_le_mono_r; lia). lia.
Qed.

(** The mask with the capacity wraps positions around. *)
Lemma land_cap t C (p : nat) : shape t C -> Z.of_nat p < 2 ^ 64 ->
  Z.land (u64 (Z.of_nat p)) (m_cap t) = Z.of_nat (p mod (length C + 1)).
Proof.
  intros (e & He & Hcap & Hlen & _) Hp. rewrite wrap_small by (unfold word; lia).
  rewrite Hcap, land_mask by lia. rewrite Nat2Z.inj_mod. f_equal. lia.
Qed.

Lemma valid_cap t C : shape t C -> (m_cap t =? 0) || IsValidCapacity (m_cap t) = true.
Proof.
  intros (e & He & Hcap & _). rewrite Hcap. destruct (Z.eqb_spec (2 ^ e - 1) 0); [done|].
  cbn [orb]. unfold IsValidCapacity. replace (2 ^ e - 1 + 1) with (2 ^ e) by lia.
  assert (2 ^ e <= 2 ^ 57) by (apply Z.pow_le_mono_r; lia). pose proof (Z.pow_pos_nonneg 2 e).
  rewrite wrap_small by (unfold word; lia). rewrite land_pow_mask by lia. cbn.
  apply Z.ltb_lt. lia.
Qed.

Lemma getSlotIndex_at t C (i j : nat) mask : shape t C -> (i <= length C)%nat -> (j < 16)%nat ->
  countr_zero mask = Z.of_nat j ->
  getSlotIndex (Z.of_nat i) mask t = OK (Z.of_nat ((i + j) mod (length C + 1)), t).
Proof.
  intros Ht Hi Hj Hmask. unfold getSlotIndex. destruct (shape_cap t C Ht) as [Hcap Hlt].
  erewrite s_bind_OK by reflexivity. rewrite (s_bind_OK _ _ _ tt t) by (apply s_assert_true; by eapply valid_cap).
  rewrite Hmask, <- Nat2Z.inj_add. unfold s_ret. by rewrite (land_cap t C) by (done || lia).
Qed.

Definition group C (i : nat) : list Z := take 16 (drop i (layout C)).

Lemma group_lookup C i j : (j < 16)%nat -> group C i !! j = layout C !! (i + j)%nat.
Proof. intros Hj. unfold group. by rewrite lookup_take_lt, lookup_drop. Qed.

Lemma group_length C i : (i <= length C)%nat -> length (group C i) = 16%nat.
Proof. intros Hi. unfold group. rewrite length_take, length_drop, layout_length. lia. Qed.

Lemma read16_at t C (i : nat) : shape t C -> (i <= length C)%nat ->
  read16 (Z.of_nat i) t = OK (group C i, t).
Proof.
  intros (e & He & Hcap & Hlen & Hctrl & _) Hi. unfold read16. rewrite Hctrl, layout_length.
  rewrite (proj2 (Z.leb_le _ _)), (proj2 (Z.leb_le _ _)) by lia. cbn [andb]. by rewrite Nat2Z.id.
Qed.

Lemma get_ctrl_at t C (i : nat) c : shape t C -> C !! i = Some c -> get_ctrl (Z.of_nat i) t = OK (c, t).
Proof.
  intros (e & He & Hcap & Hlen & Hctrl & _) Hc. unfold get_ctrl. rewrite (proj2 (Z.leb_le _ _)) by lia.
  rewrite Nat2Z.id, Hctrl, layout_low by (by eapply lookup_lt_Some). by rewrite Hc.
Qed.

Lemma get_slot_at t (i : nat) x : m_slot t !! i = Some x -> get_slot (Z.of_nat i) t = OK (x, t).
Proof.
  intros Hx. unfold get_slot. rewrite (proj2 (Z.leb_le _ _)) by lia. by rewrite Nat2Z.id, Hx.
Qed.

(** The slot a matching byte belongs to *)
Lemma match_full t C p h : keyed t C -> 0 <= h -> (p < length C + 16)%nat -> layout C !! p = Some h ->
  C !! (p mod (length C + 1))%nat = Some h /\ exists key, full t C (p mod (length C + 1)) key.
Proof.
  intros Hk Hh Hp Hc. destruct (layout_cases C p h Hp Hc) as [(Hq & HC & _)|[[_ ->]|[_ ->]]]; [|done..].
  split; [done|]. by eapply Hk.
Qed.

Lemma match_loop_spec fuel t C (i : nat) l h key :
  shape t C -> keyed t C -> (i <= length C)%nat -> 0 <= h -> length l = 16%nat ->
  (forall j, l !! j = Some true -> layout C !! (i + j)%nat = Some h) ->
  zsum Z.b2z l <= Z.of_nat fuel ->
  exists r, match_loop fuel (Z.of_nat i) (movemask l) h key t = OK (r, t) /\
    match r with
    | Some q => exists j, q = Z.of_nat ((i + j) mod (length C + 1)) /\ l !! j = Some true /\
        full t C ((i + j) mod (length C + 1)) key
    | None => forall j, l !! j = Some true -> ~ full t C ((i + j) mod (length C + 1)) key
    end.
Proof.
  intros Ht Hk Hi Hh. revert l. induction fuel as [|fuel IH]; intros l Hl Hmatch Hbits; cbn [match_loop].
  - assert (movemask l = 0) as Hm.
    { apply movemask_zero. intros j Hj.
      assert (1 <= zsum Z.b2z l); [|lia].
      apply (zsum_member Z.b2z l j true Hj). intros [] _; cbn; lia. }
    rewrite Hm. exists None. split; [done|]. intros j Hj. by apply movemask_zero with (j := j) in Hm.
  - destruct (Z.eqb_spec (movemask l) 0) as [Hm|Hm].
    + exists None. split; [done|]. intros j Hj. by apply movemask_zero with (j := j) in Hm.
    + destruct (mask_step l 16 Hm) as (j & Hj & _ & Hctz & Hland); [lia|].
      assert (j < 16)%nat as Hj16 by (rewrite <- Hl; by eapply lookup_lt_Some).
      rewrite (s_bind_OK _ _ _ _ _ (getSlotIndex_at t C i j _ Ht Hi Hj16 Hctz)).
      destruct (match_full t C (i + j) h Hk Hh ltac:(lia) (Hmatch j Hj)) as (HC & k0 & c & x & Hc & _ & Hx & Hkx).
      rewrite (s_bind_OK _ _ _ _ _ (get_ctrl_at t C _ h Ht HC)), Z.eqb_refl.
      rewrite (s_bind_OK _ _ _ tt t) by done.
      rewrite (s_bind_OK _ _ _ _ _ (get_slot_at t _ x Hx)), Hkx. erewrite s_bind_OK by reflexivity.
      destruct (decide (k0 = key)) as [->|Hne].
      * eexists. split; [done|]. exists j. split; [done|]. split; [done|]. exists h, x. auto.
      * rewrite Hland. destruct (IH (<[j := false]> l)) as (r & Hrun & Hr).
        -- by rewrite length_insert.
        -- intros j' Hj'. apply list_lookup_insert_Some in Hj' as [(_ & ? & _)|[_ ?]]; [done|auto].
        -- rewrite (zsum_insert _ _ _ true) by done. cbn. lia.
        -- exists r. split; [done|]. destruct r as [q|].
           ++ destruct Hr as (j' & -> & Hj' & Hf). exists j'. split; [done|]. split; [|done].
              apply list_lookup_insert_Some in Hj' as [(_ & ? & _)|[_ ?]]; done.
           ++ intros j' Hj' Hf. destruct (decide (j = j')) as [<-|Hjj].
              ** destruct Hf as (c' & x' & _ & _ & Hx' & Hkx'). congruence.
              ** apply (Hr j'); [by rewrite list_lookup_insert_ne|done].
Qed.

(** *** The probe sequence *)

Section sequence.
Context (t : Map) (C : list Z) (start : nat) (h : Z) (key : K).
Hypothesis Ht : shape t C.
Hypothesis Hk : keyed t C.
Hypothesis Hstart : (start <= length C)%nat.
Hypothesis Hh : 0 <= h.

Notation N := (length C + 1)%nat.

(** The start of the [n]th group *)
Definition pos (n : nat) : nat := ((start + 16 * n) mod N)%nat.

(** The key is in the [n]th group; the group has an empty byte. *)
Definition hit (n : nat) : Prop := exists j, (j < 16)%nat /\
  layout C !! (pos n + j)%nat = Some h /\ full t C ((pos n + j) mod N) key.
Definition gap (n : nat) : Prop := exists j, (j < 16)%nat /\ layout C !! (pos n + j)%nat = Some kEmpty.

Lemma pos_le n : (pos n <= length C)%nat.
Proof. unfold pos. pose proof (Nat.mod_upper_bound (start + 16 * n) N). lia. Qed.

Lemma pos_next n : Z.land (u64 (Z.of_nat (pos n) + kWidth)) (m_cap t) = Z.of_nat (pos (S n)).
Proof.
  destruct (shape_cap t C Ht) as [Hcap Hlt]. pose proof (pos_le n).
  replace (Z.of_nat (pos n) + kWidth) with (Z.of_nat (pos n + 16)) by (unfold kWidth; lia).
  rewrite (land_cap t C) by (done || lia). f_equal. unfold pos.
  rewrite Nat.Div0.add_mod_idemp_l. f_equal. lia.
Qed.

(** One group: the key, or an empty byte, or neither *)
Lemma find_group n : exists r,
  match_loop 16 (Z.of_nat (pos n)) (group_mask (fun c => c =? h) (group C (pos n))) h key t = OK (r, t) /\
  match r with
  | Some q => exists j, (j < 16)%nat /\ q = Z.of_nat ((pos n + j) mod N) /\
      layout C !! (pos n + j)%nat = Some h /\ full t C ((pos n + j) mod N) key
  | None => ~ hit n
  end.
Proof.
  pose proof (pos_le n) as Hn. pose proof (group_length C (pos n) Hn) as Hg.
  destruct (match_loop_spec 16 t C (pos n) (map (fun c => c =? h) (group C (pos n))) h key)
    as (r & Hrun & Hr); try done.
  - by rewrite length_map.
  - intros j Hj. assert (j < 16)%nat as Hj16.
    { rewrite <- Hg, <- (length_map (fun c => c =? h)). by eapply lookup_lt_Some. }
    change (map ?f ?l) with (f <$> l) in Hj. rewrite list_lookup_fmap, group_lookup in Hj by done.
    destruct (layout C !! (pos n + j)%nat) as [c|]; [|done]. injection Hj as Hj.
    apply Z.eqb_eq in Hj as ->. done.
  - etransitivity; [apply (zsum_bound Z.b2z _ 1); intros [] _; cbn; lia|]. rewrite length_map, Hg. lia.
  - exists r. split; [exact Hrun|].
    assert (forall j, (j < 16)%nat -> layout C !! (pos n + j)%nat = Some h ->
      map (fun c => c =? h) (group C (pos n)) !! j = Some true) as Hmap.
    { intros j Hj Hc. change (map ?f ?l) with (f <$> l). rewrite list_lookup_fmap, group_lookup, Hc by done.
      cbn. by rewrite Z.eqb_refl. }
    destruct r as [q|].
    + destruct Hr as (j & -> & Hj & Hf). exists j.
      assert (j < 16)%nat as Hj16.
      { rewrite <- Hg, <- (length_map (fun c => c =? h)). by eapply lookup_lt_Some. }
      split; [done|]. split; [done|]. split; [|done].
      change (map ?f ?l) with (f <$> l) in Hj. rewrite list_lookup_fmap, group_lookup in Hj by done.
      destruct (layout C !! (pos n + j)%nat) as [c|]; [|done]. injection Hj as Hj.
      apply Z.eqb_eq in Hj as ->. done.
    + intros (j & Hj & Hc & Hf). exact (Hr j (Hmap j Hj Hc) Hf).
Qed.

(** A search from the [m]th group ends at the first group with the key or an
    empty byte. *)
Lemma find_loop_spec fuel m : (exists n, (m <= n < m + fuel)%nat /\ (hit n \/ gap n)) ->
  exists n r, (m <= n)%nat /\ (forall n', (m <= n' < n)%nat -> ~ hit n' /\ ~ gap n') /\
    find_loop fuel (Z.of_nat (pos m)) h key t = OK (r, t) /\
    match r with
    | (true, q) => exists j, (j < 16)%nat /\ q = Z.of_nat ((pos n + j) mod N) /\
        layout C !! (pos n + j)%nat = Some h /\ full t C ((pos n + j) mod N) key
    | (false, q) => ~ hit n /\ exists j, (j < 16)%nat /\ q = Z.of_nat ((pos n + j) mod N) /\
        layout C !! (pos n + j)%nat = Some kEmpty /\
        forall j', (j' < j)%nat -> layout C !! (pos n + j')%nat <> Some kEmpty
    end.
Proof.
  revert m. induction fuel as [|fuel IH]; intros m (n & Hn & Hend); [lia|]. cbn [find_loop].
  pose proof (pos_le m) as Hm. rewrite (s_bind_OK _ _ _ _ _ (read16_at t C _ Ht Hm)).
  destruct (find_group m) as (r & Hrun & Hr). rewrite (s_bind_OK _ _ _ _ _ Hrun).
  destruct r as [q|].
  { exists m, (true, q). split; [lia|]. split; [lia|]. split; [done|exact Hr]. }
  destruct (Z.eqb_spec (group_mask (fun c => c =? kEmpty) (group C (pos m))) 0) as [Hz|Hz]; cbn [negb].
  - assert (~ gap m) as Hgap.
    { intros (j & Hj & Hc). rewrite group_mask_zero in Hz. specialize (Hz j kEmpty).
      rewrite group_lookup in Hz by done. discriminate (Hz Hc). }
    destruct (IH (S m)) as (n' & r & Hle & Hbefore & Hrun' & Hr').
    { exists n. split; [|done]. assert (n <> m) by (intros ->; tauto). lia. }
    exists n', r. split; [lia|]. split.
    { intros k Hkk. destruct (Nat.eq_dec k m) as [->|]; [done|]. apply Hbefore. lia. }
    split; [|done]. erewrite s_bind_OK by reflexivity. by rewrite pos_next.
  - destruct (group_mask_first _ _ (group_length C _ Hm) Hz) as (j & c & Hj & Hc & Hctz & Hfirst).
    assert (j < 16)%nat as Hj16 by (rewrite <- (group_length C (pos m) Hm); by eapply lookup_lt_Some).
    apply Z.eqb_eq in Hc as ->. rewrite group_lookup in Hj by done.
    rewrite (s_bind_OK _ _ _ _ _ (getSlotIndex_at t C (pos m) j _ Ht Hm Hj16 Hctz)).
    exists m. eexists. split; [lia|]. split; [lia|]. split; [reflexivity|]. split; [done|].
    exists j. split; [done|]. split; [done|]. split; [done|].
    intros j' Hj' Hc'. specialize (Hfirst j' kEmpty Hj'). rewrite group_lookup in Hfirst by lia.
    discriminate (Hfirst Hc').
Qed.

(** A group that starts at or below a position and reaches it *)
Lemma reach_slot i : (i <= length C)%nat -> exists n j, (n = 0 \/ 16 * n < N)%nat /\ (j < 16)%nat /\
  ((pos n + j) mod N = i)%nat /\ (16 <= N \/ pos n + j < 2 * length C + 1)%nat.
Proof.
  intros Hi. set (d := ((i + N - start) mod N)%nat).
  assert (d < N)%nat as Hd by (apply Nat.mod_upper_bound; lia).
  exists (d / 16)%nat, (d mod 16)%nat.
  pose proof (Nat.div_mod_eq d 16) as Hdm. pose proof (Nat.mod_upper_bound d 16 ltac:(lia)).
  split; [destruct (Nat.eq_dec (d / 16)%nat 0%nat) as [|Hq]; [by left|right; clearbody d; lia]|]. split; [done|]. split.
  - unfold pos. rewrite Nat.Div0.add_mod_idemp_l.
    replace (start + 16 * (d / 16) + d mod 16)%nat with (start + d)%nat by lia. unfold d.
    rewrite Nat.Div0.add_mod_idemp_r. replace (start + (i + N - start))%nat with (i + 1 * N)%nat by lia.
    rewrite Nat.Div0.mod_add. apply Nat.mod_small. lia.
  - destruct (Nat.lt_ge_cases N 16) as [Hlt|]; [|by left]. right.
    assert (d / 16 = 0)%nat as -> by (apply Nat.div_small; lia).
    pose proof (pos_le 0). rewrite Nat.mod_small by lia. lia.
Qed.

End sequence.

End search.
