(* ===== verification/SwissSpec.v ===== *)
(** * The hash table is a finite map

    The invariant of the tables of [Swiss], what each operation does to it, and
    what the operations mean for the finite map a table stands for.  A search
    for a key that is absent ends only at an empty byte, so every statement
    about one asks for [room]; growing makes room, erasing never does. *)

From S2P Require Import Prelude Words Monad Swiss SwissProbe.

Local Open Scope Z_scope.
Local Open Scope st_scope.

Section table.
Context {K V : Type} `{EqDecision K}.
Variable hash : K -> Z.
Variable addr : nat -> Z.
Variable probes : nat.
Notation Map := (CSwissMap K V).
Implicit Types (t : Map) (C : list Z) (key : K) (v : V).

(** ** The invariant *)

Definition tag t key : Z := H2 (salted hash (m_salt t) key).
Definition start t key : nat :=
  Z.to_nat (Z.land (H1 (salted hash (m_salt t) key) (addr (m_block t))) (m_cap t)).

(** A search for the key gets to slot [i] before it meets an empty byte. *)
Definition reach t C (i : nat) key : Prop := exists n j,
  (n = 0 \/ 16 * n < length C + 1)%nat /\ (j < 16)%nat /\
  ((pos C (start t key) n + j) mod (length C + 1) = i)%nat /\
  (16 <= length C + 1 \/ pos C (start t key) n + j < 2 * length C + 1)%nat /\
  forall n', (n' < n)%nat -> ~ gap C (start t key) n'.

(** The byte and the slot at an index belong together. *)
Definition slot_ok t C (i : nat) (c : Z) : Prop :=
  ((c = kEmpty \/ c = kDeleted) /\ m_slot t !! i = Some (MkSlot None None)) \/
  (0 <= c /\ exists key w, m_slot t !! i = Some (MkSlot (Some key) w) /\ c = tag t key /\ reach t C i key).

Definition occupied (c : Z) : Z := Z.b2z (0 <=? c).

Record wf t C : Prop := {
  wf_shape : shape t C;
  wf_slots : forall i c, C !! i = Some c -> slot_ok t C i c;
  wf_unique : forall i j key, full t C i key -> full t C j key -> i = j;
  wf_num : m_num t = zsum occupied C;
  wf_growth : 0 <= m_growthInfo t /\ m_growthInfo t + m_num t <= m_cap t - m_cap t / 8;
  wf_some : m_cap t = 0 \/ m_cap t + 1 <= 4 * (m_growthInfo t + m_num t);
  wf_spare : 3 <= m_cap t -> m_growthInfo t + m_num t < m_cap t - m_cap t / 8
}.

Definition has t C key : Prop := exists i, full t C i key.
Definition holds t C key v : Prop := exists i c,
  C !! i = Some c /\ 0 <= c /\ m_slot t !! i = Some (MkSlot (Some key) (Some v)).
Definition room C : Prop := (length C < 15)%nat \/ exists i : nat, C !! i = Some kEmpty.
Definition clean C : Prop := forall i : nat, C !! i <> Some kDeleted.

(** ** Consequences *)

Lemma tag_range t key : 0 <= tag t key < 128.
Proof. unfold tag, H2. change 127 with (2 ^ 7 - 1). rewrite land_mask by lia. apply Z.mod_pos_bound. lia. Qed.

Lemma start_le t C key : shape t C -> (start t key <= length C)%nat /\
  Z.land (H1 (salted hash (m_salt t) key) (addr (m_block t))) (m_cap t) = Z.of_nat (start t key).
Proof.
  intros (e & He & Hcap & Hlen & _). unfold start. rewrite Hcap, land_mask by lia.
  pose proof (Z.mod_pos_bound (H1 (salted hash (m_salt t) key) (addr (m_block t))) (2 ^ e)
    ltac:(apply Z.pow_pos_nonneg; lia)). lia.
Qed.

Lemma wf_keyed t C : wf t C -> keyed t C.
Proof.
  intros Hwf i c Hc Hpos. destruct (wf_slots t C Hwf i c Hc) as [[[-> | ->] _]|(_ & key & v & Hx & _)]; [done..|].
  exists key, c, (MkSlot (Some key) v). auto.
Qed.

Lemma full_slot t C i key : wf t C -> full t C i key ->
  exists w, C !! i = Some (tag t key) /\ m_slot t !! i = Some (MkSlot (Some key) w) /\ reach t C i key.
Proof.
  intros Hwf (c & x & Hc & Hpos & Hx & Hk).
  destruct (wf_slots t C Hwf i c Hc) as [[[-> | ->] _]|(_ & key' & v & Hx' & -> & Hr)]; [done..|].
  rewrite Hx in Hx'. injection Hx' as ->. injection Hk as ->. eauto.
Qed.

Lemma holds_has t C key v : holds t C key v -> has t C key.
Proof. intros (i & c & Hc & Hpos & Hx). exists i, c. eexists. split; [done|]. split; [done|]. split; [done|done]. Qed.

Lemma slots_small t C : shape t C -> (length C < 15)%nat -> (length C <= 7)%nat.
Proof.
  intros (e & He & Hcap & Hlen & _) Hlt. assert (e < 4) as He4.
  { apply Z.nle_gt. intros Hge. assert (2 ^ 4 <= 2 ^ e) by (apply Z.pow_le_mono_r; lia). lia. }
  assert (2 ^ e <= 2 ^ 3) by (apply Z.pow_le_mono_r; lia). lia.
Qed.

(** The byte a search reads when it reaches a slot *)
Lemma layout_reach C p i : (p < length C + 16)%nat -> (p mod (length C + 1) = i)%nat -> (i < length C)%nat ->
  (16 <= length C + 1 \/ p < 2 * length C + 1)%nat -> layout C !! p = C !! i.
Proof.
  intros Hp <- Hi Hor. rewrite layout_lookup by done. rewrite !decide_False; [done|lia|].
  intros ->. rewrite Nat.mod_small in Hi by lia. lia.
Qed.

(** ** Searching *)

Lemma findIndex_eq t C key : wf t C ->
  findIndex hash addr probes key t =
  match find_loop probes (Z.of_nat (pos C (start t key) 0)) (tag t key) key t with
  | OK ((b, i), t') => OK ((b, i, tag t key), t')
  | Er e => Er e
  end.
Proof.
  intros Hwf. destruct (start_le t C key (wf_shape _ _ Hwf)) as [Hle Hland].
  unfold findIndex. erewrite s_bind_OK by reflexivity. cbn [id]. rewrite Hland.
  assert (pos C (start t key) 0 = start t key) as ->.
  { unfold pos. rewrite Nat.add_0_r. apply Nat.mod_small. lia. }
  unfold s_bind, s_ret. fold (tag t key).
  by destruct (find_loop _ _ _ _ _) as [[[b i] t']|e].
Qed.

Lemma findIndex_found t C key i : wf t C -> full t C i key -> (length C + 1 <= 16 * probes)%nat ->
  findIndex hash addr probes key t = OK ((true, Z.of_nat i, tag t key), t).
Proof.
  intros Hwf Hfull Hprobes. rewrite (findIndex_eq t C) by done.
  destruct (start_le t C key (wf_shape _ _ Hwf)) as [Hle _].
  destruct (full_slot t C i key Hwf Hfull) as (v & Hc & Hx & n & j & Hn & Hj & Hi & Hor & Hgap).
  pose proof (wf_shape _ _ Hwf) as Hshape. pose proof (wf_keyed _ _ Hwf) as Hkeyed.
  pose proof (proj1 (tag_range t key)) as Htag.
  assert (hit t C (start t key) (tag t key) key n) as Hhit.
  { exists j. split; [done|]. rewrite (layout_reach C _ i), Hi; [split; [done|done]|..]; try done.
    - pose proof (pos_le C (start t key) Hle n). lia.
    - by eapply lookup_lt_Some. }
  destruct (find_loop_spec t C (start t key) (tag t key) key Hshape Hkeyed Hle Htag probes 0)
    as (n0 & [b q] & _ & Hbefore & Hrun & Hr).
  { exists n. split; [|by left]. lia. }
  rewrite Hrun. destruct b.
  - destruct Hr as (j0 & _ & -> & _ & Hf). do 4 f_equal. f_equal. by eapply (wf_unique _ _ Hwf).
  - exfalso. destruct Hr as (Hnhit & j0 & Hj0 & _ & Hempty & _).
    destruct (Nat.lt_trichotomy n0 n) as [Hlt|[->|Hgt]].
    + apply (Hgap n0 Hlt). by exists j0.
    + done.
    + by destruct (Hbefore n) as [? _]; [lia|].
Qed.

Lemma findIndex_absent t C key : wf t C -> ~ has t C key -> room C -> (length C + 1 <= 16 * probes)%nat ->
  exists n j, findIndex hash addr probes key t =
      OK ((false, Z.of_nat ((pos C (start t key) n + j) mod (length C + 1)), tag t key), t) /\
    (forall n', (n' < n)%nat -> ~ gap C (start t key) n') /\
    (n = 0 \/ 16 * n < length C + 1)%nat /\ (j < 16)%nat /\
    layout C !! (pos C (start t key) n + j)%nat = Some kEmpty /\
    forall j', (j' < j)%nat -> layout C !! (pos C (start t key) n + j')%nat <> Some kEmpty.
Proof.
  intros Hwf Habsent Hroom Hprobes. rewrite (findIndex_eq t C) by done.
  pose proof (wf_shape _ _ Hwf) as Hshape. pose proof (wf_keyed _ _ Hwf) as Hkeyed.
  destruct (start_le t C key Hshape) as [Hle _]. pose proof (proj1 (tag_range t key)) as Htag.
  assert (exists n0, (n0 = 0 \/ 16 * n0 < length C + 1)%nat /\ gap C (start t key) n0) as (n0 & Hn0 & Hgap0).
  { destruct Hroom as [Hsmall|[i Hi]].
    - apply (slots_small t C Hshape) in Hsmall. exists 0%nat. split; [by left|].
      assert (pos C (start t key) 0 = start t key) as Hp by (unfold pos; rewrite Nat.add_0_r; apply Nat.mod_small; lia).
      exists (2 * length C + 1 - start t key)%nat. rewrite Hp. split; [lia|]. apply layout_rest; lia.
    - assert (i < length C)%nat as Hlt by (by eapply lookup_lt_Some).
      destruct (reach_slot C (start t key) Hle i) as (n & j & Hn & Hj & Hij & Hor); [lia|].
      exists n. split; [done|]. exists j. split; [done|]. pose proof (pos_le C (start t key) Hle n).
      rewrite (layout_reach C _ i); [done|lia|done|done|done]. }
  destruct (find_loop_spec t C (start t key) (tag t key) key Hshape Hkeyed Hle Htag probes 0)
    as (n & [b q] & _ & Hbefore & Hrun & Hr).
  { exists n0. split; [lia|by right]. }
  rewrite Hrun. destruct b.
  - exfalso. destruct Hr as (j & _ & _ & _ & Hf). apply Habsent. by eexists.
  - destruct Hr as (_ & j & Hj & -> & Hempty & Hfirst). exists n, j. split; [done|].
    split; [intros n' Hn'; apply Hbefore; lia|]. split; [|done].
    assert (n <= n0)%nat; [|lia]. apply Nat.nlt_ge. intros Hlt. by destruct (Hbefore n0) as [_ ?]; [lia|].
Qed.

(** ** Changing a slot *)

Definition set_bytes t C (q : nat) (c : Z) (x : Slot K V) (n g : Z) : Map :=
  MkMap (layout (<[q := c]> C)) (<[q := x]> (m_slot t)) (m_cap t) n g (m_salt t) (m_block t).

Lemma shape_insert t C q c x n g : shape t C -> shape (set_bytes t C q c x n g) (<[q := c]> C).
Proof.
  intros (e & He & Hcap & Hlen & Hctrl & Hslot). exists e. cbn. rewrite !length_insert. auto.
Qed.

Lemma gap_insert C q c st n : c <> kEmpty -> gap (<[q := c]> C) st n -> gap C st n.
Proof.
  intros Hc (j & Hj & Hgap). exists j. split; [done|].
  assert (pos (<[q := c]> C) st n = pos C st n) as Hpos by (unfold pos; by rewrite length_insert).
  rewrite Hpos in Hgap. pose proof (lookup_lt_Some _ _ _ Hgap) as Hlt. rewrite layout_length, length_insert in Hlt.
  rewrite layout_lookup in Hgap |- * by (rewrite ?length_insert; lia). rewrite length_insert in Hgap.
  destruct (decide _); [done|]. destruct (decide _); [done|].
  by apply list_lookup_insert_Some in Hgap as [(_ & -> & _)|[_ ?]].
Qed.

Lemma reach_insert t C q c x n g i key : c <> kEmpty -> reach t C i key ->
  reach (set_bytes t C q c x n g) (<[q := c]> C) i key.
Proof.
  intros Hc (k & j & Hk & Hj & Hi & Hor & Hgap). exists k, j. unfold pos in *. rewrite length_insert.
  split; [done|]. split; [done|]. split; [exact Hi|]. split; [exact Hor|].
  intros n' Hn' Hg. apply (Hgap n' Hn'). by apply gap_insert in Hg.
Qed.

Lemma slot_ok_insert t C q c x n g i c' : c <> kEmpty -> i <> q -> slot_ok t C i c' ->
  slot_ok (set_bytes t C q c x n g) (<[q := c]> C) i c'.
Proof.
  intros Hc Hi [[Hc' Hx]|(Hpos & key & w & Hx & Htag & Hr)].
  - left. cbn. by rewrite list_lookup_insert_ne.
  - right. split; [done|]. exists key, w. cbn. rewrite list_lookup_insert_ne by done.
    split; [done|]. split; [done|]. by apply reach_insert.
Qed.

Lemma full_insert_ne t C q c x n g i key : i <> q ->
  full (set_bytes t C q c x n g) (<[q := c]> C) i key <-> full t C i key.
Proof.
  intros Hi. unfold full. cbn. by setoid_rewrite (list_lookup_insert_ne C q i c ltac:(done));
    setoid_rewrite (list_lookup_insert_ne (m_slot t) q i x ltac:(done)).
Qed.

Lemma full_insert_eq t C q c x n g key : (q < length C)%nat -> length (m_slot t) = length C ->
  full (set_bytes t C q c x n g) (<[q := c]> C) q key <-> 0 <= c /\ s_k x = Some key.
Proof.
  intros Hq Hl. unfold full. cbn. rewrite !list_lookup_insert_eq by lia. split.
  - intros (? & ? & [= <-] & ? & [= <-] & ?). done.
  - intros [? ?]. exists c, x. auto.
Qed.

Lemma occupied_free c : c = kEmpty \/ c = kDeleted -> occupied c = 0.
Proof. by intros [-> | ->]. Qed.

(** A new key *)
Lemma wf_store t C q c0 key : wf t C -> C !! q = Some c0 -> c0 = kEmpty \/ c0 = kDeleted ->
  reach t C q key -> ~ has t C key -> 0 < m_growthInfo t ->
  wf (set_bytes t C q (tag t key) (MkSlot (Some key) None) (m_num t + 1) (m_growthInfo t - 1))
    (<[q := tag t key]> C).
Proof.
  intros Hwf Hq Hfree Hreach Habsent Hgrow. pose proof (wf_shape _ _ Hwf) as Hshape.
  pose proof (tag_range t key) as Htag. assert (tag t key <> kEmpty) as Hne by (unfold kEmpty; lia).
  assert (q < length C)%nat as Hlt by (by eapply lookup_lt_Some).
  assert (length (m_slot t) = length C) as Hslots by (by destruct Hshape as (? & ? & ? & ? & ? & ?)).
  pose proof (wf_growth _ _ Hwf). pose proof (wf_some _ _ Hwf). pose proof (wf_spare _ _ Hwf).
  split; cbn [m_num m_growthInfo m_cap set_bytes]; try lia.
  - by apply shape_insert.
  - intros i c Hc. destruct (decide (i = q)) as [->|Hi].
    + rewrite list_lookup_insert_eq in Hc by done. injection Hc as <-. right. split; [lia|].
      exists key, None. cbn. rewrite list_lookup_insert_eq by lia. split; [done|]. split; [done|]. by apply reach_insert.
    + rewrite list_lookup_insert_ne in Hc by done. apply slot_ok_insert; [done|done|]. by apply (wf_slots _ _ Hwf).
  - intros i j k Hi Hj. destruct (decide (i = q)) as [->|Hiq], (decide (j = q)) as [->|Hjq]; [done|..].
    + apply full_insert_eq in Hi as [_ [= ->]]; [|done..]. apply full_insert_ne in Hj; [|done].
      by destruct Habsent; exists j.
    + apply full_insert_eq in Hj as [_ [= ->]]; [|done..]. apply full_insert_ne in Hi; [|done].
      by destruct Habsent; exists i.
    + rewrite full_insert_ne in Hi, Hj by done. by eapply (wf_unique _ _ Hwf).
  - rewrite (zsum_insert _ _ _ c0), (occupied_free c0) by done. rewrite (wf_num _ _ Hwf).
    unfold occupied at 3. rewrite (proj2 (Z.leb_le _ _)) by lia. cbn. lia.
Qed.

(** A key that goes *)
Lemma wf_erase t C q key : wf t C -> full t C q key ->
  wf (set_bytes t C q kDeleted (MkSlot None None) (m_num t - 1) (m_growthInfo t + 1)) (<[q := kDeleted]> C).
Proof.
  intros Hwf Hfull. pose proof (wf_shape _ _ Hwf) as Hshape.
  destruct (full_slot t C q key Hwf Hfull) as (w & Hc & Hx & _).
  assert (q < length C)%nat as Hlt by (by eapply lookup_lt_Some).
  assert (length (m_slot t) = length C) as Hslots by (by destruct Hshape as (? & ? & ? & ? & ? & ?)).
  pose proof (wf_growth _ _ Hwf). pose proof (wf_some _ _ Hwf). pose proof (wf_spare _ _ Hwf).
  split; cbn [m_num m_growthInfo m_cap set_bytes]; try lia.
  - by apply shape_insert.
  - intros i c Hi. destruct (decide (i = q)) as [->|Hiq].
    + rewrite list_lookup_insert_eq in Hi by done. injection Hi as <-. left. split; [by right|].
      cbn. by rewrite list_lookup_insert_eq by lia.
    + rewrite list_lookup_insert_ne in Hi by done. apply slot_ok_insert; [done|done|]. by apply (wf_slots _ _ Hwf).
  - intros i j k Hi Hj. destruct (decide (i = q)) as [->|Hiq], (decide (j = q)) as [->|Hjq]; [done|..].
    + by apply full_insert_eq in Hi as [_ ?].
    + by apply full_insert_eq in Hj as [_ ?].
    + rewrite full_insert_ne in Hi, Hj by done. by eapply (wf_unique _ _ Hwf).
  - rewrite (zsum_insert _ _ _ (tag t key)) by done. rewrite (wf_num _ _ Hwf). pose proof (tag_range t key).
    unfold occupied at 3. rewrite (proj2 (Z.leb_le _ _)) by lia. cbn. lia.
Qed.

(** A new value for a key *)
Lemma full_set_slot t C i key w0 j k : m_slot t !! i = Some (MkSlot (Some key) w0) -> forall w,
  full (set_slot t (<[i := MkSlot (Some key) w]> (m_slot t))) C j k <-> full t C j k.
Proof.
  intros Hx w. unfold full. cbn. destruct (decide (j = i)) as [->|].
  - rewrite list_lookup_insert_eq by (by eapply lookup_lt_Some). rewrite Hx.
    split; intros (c & x & Hc & Hp & [= <-] & Hk); eauto 10.
  - by rewrite list_lookup_insert_ne.
Qed.

Lemma wf_set_value t C i key w w' : wf t C -> m_slot t !! i = Some (MkSlot (Some key) w) ->
  wf (set_slot t (<[i := MkSlot (Some key) w']> (m_slot t))) C.
Proof.
  intros Hwf Hx. destruct Hwf as [Hshape Hslots Hunique Hnum Hgrowth Hsome Hspare]. split; try done.
  - destruct Hshape as (e & He & Hcap & Hlen & Hctrl & Hl). exists e. cbn. rewrite length_insert. auto.
  - intros j c Hc. destruct (Hslots j c Hc) as [[Hc' Hx']|(Hpos & k & u & Hx' & Htag & Hr)].
    + left. split; [done|]. cbn. rewrite list_lookup_insert_ne; [done|]. intros ->. congruence.
    + right. split; [done|]. destruct (decide (j = i)) as [->|Hne].
      * exists key, w'. cbn. rewrite list_lookup_insert_eq by (by eapply lookup_lt_Some).
        rewrite Hx in Hx'. injection Hx' as -> ->. done.
      * exists k, u. cbn. by rewrite list_lookup_insert_ne.
  - intros j j' k Hj Hj'. rewrite (full_set_slot t C i key w) in Hj, Hj' by done. by eapply Hunique.
Qed.

End table.
