(* ===== verification/SwissMap.v ===== *)
(** * The operations of the hash table

    What a search, an insertion with or without growing, and an erasure do to
    a table that keeps the invariant of [SwissSpec], and to its pairs. *)

From S2P Require Import Prelude Words Monad Swiss SwissProbe SwissSpec.

Local Open Scope Z_scope.
Local Open Scope st_scope.

Section operations.
Context {K V : Type} `{EqDecision K}.
Variable hash : K -> Z.
Variable addr : nat -> Z.
Variable probes : nat.
Notation Map := (CSwissMap K V).
Notation wf := (wf hash addr).
Notation reach := (reach hash addr).
Notation start := (start hash addr).
Notation tag := (tag hash).
Notation find := (find hash addr probes).
Implicit Types (t : Map) (C : list Z) (key : K) (v : V).

(** ** Control bytes and slots *)

Lemma put_ctrl_at t (i : nat) c : (i < length (m_ctrl t))%nat ->
  put_ctrl (Z.of_nat i) c t = OK (tt, set_ctrl t (<[i := c]> (m_ctrl t))).
Proof.
  intros [c0 Hc0]%lookup_lt_is_Some_2. unfold put_ctrl.
  assert (get_ctrl (Z.of_nat i) t = OK (c0, t)) as Hget.
  { unfold get_ctrl. rewrite (proj2 (Z.leb_le 0 (Z.of_nat i))) by lia. by rewrite Nat2Z.id, Hc0. }
  rewrite (s_bind_OK _ _ _ _ _ Hget). unfold s_mod. by rewrite Nat2Z.id.
Qed.

Lemma setCtrl_at t C (q : nat) h : shape t C -> (q < length C)%nat ->
  setCtrl (Z.of_nat q) h t = OK (tt, set_ctrl t (layout (<[q := h]> C))).
Proof.
  intros Hshape Hq. pose proof (shape_cap t C Hshape) as [Hcap _].
  destruct Hshape as (e & He & _ & Hlen & Hctrl & _).
  unfold setCtrl. erewrite s_bind_OK by (apply put_ctrl_at; rewrite Hctrl, layout_length; lia).
  rewrite <- (insert_layout C q h Hq), Hctrl.
  destruct (Z.of_nat q <? kWidth - 1) eqn:Hlt; [|done]. apply Z.ltb_lt in Hlt.
  erewrite s_bind_OK by reflexivity. cbn [m_cap set_ctrl]. rewrite Hcap.
  replace (Z.of_nat q + Z.of_nat (length C) + 1) with (Z.of_nat (q + length C + 1)) by lia.
  rewrite put_ctrl_at; [done|]. cbn [m_ctrl set_ctrl]. rewrite length_insert, layout_length.
  unfold kWidth in Hlt. lia.
Qed.

Lemma mod_slot_at t (i : nat) x f : m_slot t !! i = Some x ->
  mod_slot (Z.of_nat i) f t = OK (tt, set_slot t (<[i := f x]> (m_slot t))).
Proof.
  intros Hx. unfold mod_slot. rewrite (s_bind_OK _ _ _ _ _ (get_slot_at t i x Hx)).
  unfold s_mod. by rewrite Nat2Z.id.
Qed.

Lemma free_slot t C i c : wf t C -> C !! i = Some c -> c = kEmpty \/ c = kDeleted ->
  m_slot t !! i = Some (MkSlot None None).
Proof.
  intros Hwf Hc Hfree. destruct (wf_slots _ _ t C Hwf i c Hc) as [[_ ?]|[Hpos _]]; [done|].
  by destruct Hfree as [-> | ->].
Qed.

Lemma num_free t C i c : wf t C -> C !! i = Some c -> c = kEmpty \/ c = kDeleted -> m_num t < Z.of_nat (length C).
Proof.
  intros Hwf Hc Hfree. rewrite (wf_num _ _ t C Hwf).
  pose proof (zsum_insert occupied C i c 0 Hc) as Hins. rewrite (occupied_free c Hfree) in Hins.
  pose proof (zsum_bound occupied (<[i:=0]> C) 1) as Hb. rewrite length_insert in Hb.
  assert (zsum occupied (<[i:=0]> C) <= 1 * Z.of_nat (length C)); [|change (occupied 0) with 1 in Hins; lia].
  apply Hb. intros a _. unfold occupied. destruct (0 <=? a); cbn; lia.
Qed.

(** A byte that is free, when not all are taken *)
Lemma free_exists t C : wf t C -> m_num t < Z.of_nat (length C) ->
  exists i c, C !! i = Some c /\ (c = kEmpty \/ c = kDeleted).
Proof.
  intros Hwf Hnum. rewrite (wf_num _ _ t C Hwf) in Hnum.
  pose proof (wf_slots _ _ t C Hwf) as Hslots. clear Hwf.
  assert (forall i c, C !! i = Some c -> c = kEmpty \/ c = kDeleted \/ 0 <= c) as Hc.
  { intros i c Hi. destruct (Hslots i c Hi) as [[[]  _]|[? _]]; auto. }
  clear Hslots. induction C as [|c C IH]; [cbn in Hnum; lia|].
  destruct (Hc 0%nat c eq_refl) as [?|[?|Hpos]]; [by exists 0%nat, c; auto..|].
  destruct IH as (i & c' & ? & ?).
  - cbn [zsum length] in Hnum. unfold occupied at 1 in Hnum. rewrite (proj2 (Z.leb_le _ _) Hpos) in Hnum.
    cbn [Z.b2z] in Hnum. lia.
  - intros i c' Hi. by apply (Hc (S i)).
  - by exists (S i), c'.
Qed.

Lemma clean_room t C : wf t C -> clean C -> room C.
Proof.
  intros Hwf Hclean. destruct (Nat.lt_ge_cases (length C) 15) as [|Hge]; [by left|]. right.
  destruct (shape_cap t C (wf_shape _ _ _ _ Hwf)) as [Hcap _]. pose proof (wf_growth _ _ _ _ Hwf).
  destruct (free_exists t C Hwf) as (i & c & Hc & [-> | ->]); [|by exists i|by destruct (Hclean i)].
  rewrite Hcap in *. assert (1 <= Z.of_nat (length C) / 8); [apply Z.div_le_lower_bound; lia|lia].
Qed.

(** ** Searching *)

Lemma find_present fuel t C key i b : wf t C -> full t C i key -> (length C + 1 <= 16 * probes)%nat ->
  find (S fuel) key b t = OK (Some (Z.of_nat i), t).
Proof.
  intros Hwf Hi Hp. cbn [Swiss.find].
  by rewrite (s_bind_OK _ _ _ _ _ (findIndex_found _ _ _ t C key i Hwf Hi Hp)).
Qed.

Lemma find_missing fuel t C key : wf t C -> ~ has t C key -> room C -> (length C + 1 <= 16 * probes)%nat ->
  find (S fuel) key false t = OK (None, t).
Proof.
  intros Hwf Ha Hr Hp. destruct (findIndex_absent _ _ _ t C key Hwf Ha Hr Hp) as (n & j & Hrun & _).
  cbn [Swiss.find]. by rewrite (s_bind_OK _ _ _ _ _ Hrun).
Qed.

(** The first free byte of a group *)
Lemma pick_slot t C (i f : nat) cf : shape t C -> (i <= length C)%nat -> (f < 16)%nat ->
  layout C !! (i + f)%nat = Some cf -> cf < kSentinel ->
  let mask := group_mask (fun c => c <? kSentinel) (group C i) in
  mask <> 0 /\ exists j c, (j <= f)%nat /\ layout C !! (i + j)%nat = Some c /\ c < kSentinel /\
    getSlotIndex (Z.of_nat i) mask t = OK (Z.of_nat ((i + j) mod (length C + 1)), t).
Proof.
  intros Hshape Hi Hf Hcf Hlt mask. pose proof (group_length C i Hi) as Hl.
  assert (mask <> 0) as Hm.
  { intros Hz. unfold mask in Hz. rewrite group_mask_zero in Hz. specialize (Hz f cf).
    rewrite group_lookup in Hz by done. specialize (Hz Hcf). apply Z.ltb_ge in Hz. lia. }
  split; [done|]. destruct (group_mask_first _ _ Hl Hm) as (j & c & Hj & Hc & Hctz & Hfirst).
  assert (j < 16)%nat as Hj16 by (rewrite <- Hl; by eapply lookup_lt_Some).
  rewrite group_lookup in Hj by done. apply Z.ltb_lt in Hc. exists j, c. split; [|split; [done|split; [done|]]].
  - apply Nat.nlt_ge. intros Hfj. specialize (Hfirst f cf Hfj). rewrite group_lookup in Hfirst by done.
    specialize (Hfirst Hcf). apply Z.ltb_ge in Hfirst. lia.
  - by apply getSlotIndex_at.
Qed.

(** The free byte an insertion takes: from the empty byte the search ended at,
    the first one that is empty or deleted *)
Lemma free_found t C key n j : wf t C -> m_num t < Z.of_nat (length C) ->
  let p := (pos C (start t key) n + j)%nat in
  (forall n', (n' < n)%nat -> ~ gap C (start t key) n') ->
  (n = 0 \/ 16 * n < length C + 1)%nat -> (j < 16)%nat ->
  layout C !! p = Some kEmpty ->
  (forall j', (j' < j)%nat -> layout C !! (pos C (start t key) n + j')%nat <> Some kEmpty) ->
  let i := (p mod (length C + 1))%nat in
  let mask := group_mask (fun c => c <? kSentinel) (group C i) in
  mask <> 0 /\ exists q c0, getSlotIndex (Z.of_nat i) mask t = OK (Z.of_nat q, t) /\
    C !! q = Some c0 /\ (c0 = kEmpty \/ c0 = kDeleted) /\ reach t C q key.
Proof.
  intros Hwf Hnum p Hgap Hn Hj Hempty Hfirst i mask.
  pose proof (wf_shape _ _ _ _ Hwf) as Hshape. destruct (start_le hash addr t C key Hshape) as [Hle _].
  pose proof (pos_le C (start t key) Hle n) as Hpos.
  assert (i <= length C)%nat as Hi by (pose proof (Nat.mod_upper_bound p (length C + 1)); lia).
  destruct (layout_cases C p kEmpty) as [(Hq & HC & Hor)|[[_ ?]|[Hge _]]]; [unfold p; lia|done|..|done|].
  - (* the empty byte belongs to a slot, which is free *)
    fold i in Hq, HC. destruct (pick_slot t C i 0 kEmpty) as (Hm & j0 & c & Hj0 & Hc & _ & Hrun); try done.
    { lia. }
    { rewrite Nat.add_0_r. by rewrite layout_low. }
    split; [done|]. assert (j0 = 0)%nat as -> by lia. rewrite Nat.add_0_r in Hrun.
    rewrite Nat.mod_small in Hrun by lia. exists i, kEmpty. split; [exact Hrun|]. split; [done|]. split; [by left|].
    exists n, j. split; [done|]. split; [done|]. split; [done|]. split; [by right|done].
  - (* it is behind the copy of a small table, all of whose slots have been used *)
    destruct (free_exists t C Hwf Hnum) as (f & cf & Hf & Hfree).
    assert (f < length C)%nat as Hflt by (by eapply lookup_lt_Some).
    assert (length C <= 7)%nat as Hsmall by (apply (slots_small t C Hshape); unfold p in Hge; lia).
    assert (n = 0)%nat as -> by lia.
    assert (pos C (start t key) 0 = start t key) as Hp0 by (unfold pos; rewrite Nat.add_0_r; apply Nat.mod_small; lia).
    assert (p = start t key + j)%nat as Hpj by (unfold p; by rewrite Hp0). rewrite Hp0 in Hfirst.
    assert (p = 2 * length C + 1)%nat as Hp.
    { apply Nat.le_antisymm; [|done]. apply Nat.nlt_ge. intros Hgt.
      apply (Hfirst (2 * length C + 1 - start t key)%nat); [lia|]. apply layout_rest; lia. }
    assert (i = length C) as Hil.
    { unfold i. rewrite Hp. replace (2 * length C + 1)%nat with (length C + 1 * (length C + 1))%nat by lia.
      rewrite Nat.Div0.mod_add. apply Nat.mod_small. lia. }
    destruct (pick_slot t C i (1 + f) cf) as (Hm & j0 & c & Hj0 & Hc & Hclt & Hrun); try done.
    { lia. }
    { rewrite Hil, Nat.add_assoc. rewrite layout_clone by lia. done. }
    { destruct Hfree as [-> | ->]; done. }
    split; [done|]. rewrite Hil in Hc. destruct j0 as [|q].
    { rewrite Nat.add_0_r, layout_sentinel in Hc. injection Hc as <-. by destruct (Z.lt_irrefl kSentinel). }
    replace (length C + S q)%nat with (length C + 1 + q)%nat in Hc by lia. rewrite layout_clone in Hc by lia.
    exists q, c. split; [|split; [done|split]].
    + etransitivity; [exact Hrun|]. do 3 f_equal. rewrite Hil.
      replace (length C + S q)%nat with (q + 1 * (length C + 1))%nat by lia.
      rewrite Nat.Div0.mod_add. apply Nat.mod_small. lia.
    + destruct (wf_slots _ _ _ _ Hwf q c Hc) as [[? _]|[? _]]; [done|]. unfold kSentinel in Hclt. lia.
    + destruct (reach_slot C (start t key) Hle q) as (n & j' & Hn' & Hj' & Hq & Hor); [lia|].
      assert (n = 0)%nat as -> by lia. exists 0%nat, j'. split; [by left|]. split; [done|]. split; [done|]. split; [done|lia].
Qed.

(** ** Insertion *)

(** [find(key, true)] for a new key, with room left *)
Lemma find_store fuel t C key : wf t C -> ~ has t C key -> room C -> (length C + 1 <= 16 * probes)%nat ->
  0 < m_growthInfo t -> exists q c0, C !! q = Some c0 /\ (c0 = kEmpty \/ c0 = kDeleted) /\ reach t C q key /\
  find (S fuel) key true t = OK (Some (Z.of_nat q),
    set_bytes t C q (tag t key) (MkSlot (Some key) None) (m_num t + 1) (m_growthInfo t - 1)).
Proof.
  intros Hwf Ha Hroom Hp Hgrow. pose proof (wf_shape _ _ _ _ Hwf) as Hshape.
  destruct (shape_cap t C Hshape) as [Hcap Hbound]. pose proof (wf_growth _ _ _ _ Hwf) as Hg.
  pose proof (zsum_nonneg occupied C) as Hn0. rewrite <- (wf_num _ _ _ _ Hwf) in Hn0.
  assert (0 <= m_num t) as Hnum0 by (apply Hn0; intros a _; unfold occupied; destruct (0 <=? a); done). clear Hn0.
  assert (0 <= m_cap t / 8) by (apply Z.div_pos; lia).
  destruct (findIndex_absent _ _ _ t C key Hwf Ha Hroom Hp) as (n & j & Hrun & Hgap & Hn & Hj & Hempty & Hfirst).
  destruct (free_found t C key n j Hwf ltac:(lia) Hgap Hn Hj Hempty Hfirst) as (Hm & q & c0 & Hq & Hc0 & Hfree & Hreach).
  exists q, c0. split; [done|]. split; [done|]. split; [done|].
  set (i := ((pos C (start t key) n + j) mod (length C + 1))%nat) in *.
  assert (i <= length C)%nat as Hi by (pose proof (Nat.mod_upper_bound (pos C (start t key) n + j) (length C + 1)); lia).
  assert (q < length C)%nat as Hlt by (by eapply lookup_lt_Some).
  cbn [Swiss.find]. rewrite (s_bind_OK _ _ _ _ _ Hrun). cbn [negb].
  rewrite (s_bind_OK _ _ _ _ _ (read16_at t C i Hshape Hi)). erewrite s_bind_OK by reflexivity.
  rewrite (proj2 (Z.eqb_neq _ _) Hm), (proj2 (Z.ltb_lt _ _) Hgrow). cbn [negb andb].
  rewrite (s_bind_OK _ _ _ _ _ Hq), (s_bind_OK _ _ _ _ _ (get_ctrl_at t C q c0 Hshape Hc0)).
  rewrite (s_bind_OK _ _ _ tt t) by (apply s_assert_true; destruct Hfree as [-> | ->]; done).
  rewrite (s_bind_OK _ _ _ _ _ (setCtrl_at t C q _ Hshape Hlt)).
  erewrite s_bind_OK by (apply (mod_slot_at _ q (MkSlot None None)); exact (free_slot t C q c0 Hwf Hc0 Hfree)).
  erewrite s_bind_OK by reflexivity. unfold s_ret, set_bytes. cbn.
  rewrite !wrap_small by (unfold word; lia). done.
Qed.

(** Every key has its value. *)
Definition complete t C : Prop := forall i key, full t C i key ->
  exists v, m_slot t !! i = Some (MkSlot (Some key) (Some v)).

(** The table with a new key and its value in slot [q] *)
Definition store t C (q : nat) key v : Map :=
  set_bytes t C q (tag t key) (MkSlot (Some key) (Some v)) (m_num t + 1) (m_growthInfo t - 1).

Lemma complete_holds t C key : complete t C -> has t C key <-> exists v, holds t C key v.
Proof.
  intros Hcomplete. split; [|by intros [v Hv]; eapply holds_has].
  intros (i & Hi). destruct (Hcomplete i key Hi) as [v Hv]. destruct Hi as (c & x & Hc & Hpos & _).
  exists v, i, c. auto.
Qed.

Lemma holds_det t C key v w : wf t C -> holds t C key v -> holds t C key w -> v = w.
Proof.
  intros Hwf (i & c & Hc & Hpos & Hx) (j & c' & Hc' & Hpos' & Hx').
  assert (i = j) as ->; [|congruence].
  apply (wf_unique _ _ _ _ Hwf i j key); [exists c|exists c']; eexists; eauto.
Qed.

Section store.
Context t C (q : nat) (c0 : Z) key v.
Hypothesis Hwf : wf t C.
Hypothesis Hq : C !! q = Some c0.
Hypothesis Hfree : c0 = kEmpty \/ c0 = kDeleted.
Hypothesis Hreach : reach t C q key.
Hypothesis Habsent : ~ has t C key.
Hypothesis Hgrow : 0 < m_growthInfo t.

Notation t' := (store t C q key v).
Notation C' := (<[q := tag t key]> C).

Lemma store_shape : (q < length C)%nat /\ (q < length (m_slot t))%nat.
Proof.
  destruct (wf_shape _ _ _ _ Hwf) as (e & _ & _ & _ & _ & Hl). rewrite Hl.
  split; by eapply lookup_lt_Some.
Qed.

Lemma store_wf : wf t' C'.
Proof.
  pose proof store_shape as [_ Hlt].
  pose proof (wf_store hash addr t C q c0 key Hwf Hq Hfree Hreach Habsent Hgrow) as Hw.
  eapply (wf_set_value _ _ _ _ q key None (Some v)) in Hw; [|by apply list_lookup_insert_eq].
  unfold set_slot, set_bytes in Hw. cbn in Hw. by rewrite list_insert_insert_eq in Hw.
Qed.

Lemma store_holds k w : holds t' C' k w <-> (k = key /\ w = v) \/ holds t C k w.
Proof.
  pose proof store_shape as [Hlt Hlt']. unfold holds, store, set_bytes. cbn [m_slot]. split.
  - intros (i & c & Hc & Hpos & Hx). destruct (decide (i = q)) as [->|Hi].
    + left. rewrite list_lookup_insert_eq in Hx by done. by injection Hx as <- <-.
    + right. rewrite list_lookup_insert_ne in Hc by done. rewrite list_lookup_insert_ne in Hx by done. eauto.
  - intros [[-> ->]|(i & c & Hc & Hpos & Hx)].
    + exists q, (tag t key). rewrite !list_lookup_insert_eq by done. pose proof (tag_range hash t key).
      split; [done|]. split; [lia|done].
    + assert (i <> q) by (intros ->; rewrite Hq in Hc; injection Hc as <-; by destruct Hfree as [-> | ->]).
      exists i, c. by rewrite !list_lookup_insert_ne.
Qed.

Lemma store_complete : complete t C -> complete t' C'.
Proof.
  pose proof store_shape as [Hlt Hlt']. intros Hcomplete i k Hi. destruct (decide (i = q)) as [->|Hne].
  - apply full_insert_eq in Hi as [_ [= ->]]; [|done|]. { exists v. cbn. by apply list_lookup_insert_eq. }
    by destruct (wf_shape _ _ _ _ Hwf) as (e & _ & _ & _ & _ & ->).
  - apply full_insert_ne in Hi; [|done]. cbn. rewrite list_lookup_insert_ne by done. by apply Hcomplete.
Qed.

Lemma store_clean : clean C -> clean C'.
Proof.
  intros Hclean i Hi. apply list_lookup_insert_Some in Hi as [(_ & Heq & _)|[_ ?]]; [|by apply (Hclean i)].
  pose proof (tag_range hash t key). rewrite Heq in H. unfold kDeleted in H. lia.
Qed.

End store.

Lemma construct_value_at t (i : nat) k w v : m_slot t !! i = Some (MkSlot k w) ->
  construct_value (Z.of_nat i) v t = OK (tt, set_slot t (<[i := MkSlot k (Some v)]> (m_slot t))).
Proof. intros Hx. unfold construct_value. by rewrite (mod_slot_at t i _ _ Hx). Qed.

(** Storing a pair: the key by [find(key, true)], the value by placement [new] *)
Lemma store_pair fuel t C key v : wf t C -> ~ has t C key -> room C -> (length C + 1 <= 16 * probes)%nat ->
  0 < m_growthInfo t -> exists q c0 t1, C !! q = Some c0 /\ (c0 = kEmpty \/ c0 = kDeleted) /\ reach t C q key /\
  find (S fuel) key true t = OK (Some (Z.of_nat q), t1) /\
  construct_value (Z.of_nat q) v t1 = OK (tt, store t C q key v).
Proof.
  intros Hwf Ha Hroom Hp Hgrow. destruct (find_store fuel t C key Hwf Ha Hroom Hp Hgrow) as (q & c0 & Hq & Hfree & Hr & Hrun).
  exists q, c0. eexists. split; [done|]. split; [done|]. split; [done|]. split; [exact Hrun|].
  pose proof (store_shape t C q c0 Hwf Hq) as [_ Hlt].
  rewrite (construct_value_at _ q (Some key) None) by (cbn; by apply list_lookup_insert_eq).
  unfold set_slot, set_bytes, store. cbn. by rewrite list_insert_insert_eq.
Qed.

(** ** Growing *)

(** The table [init] leaves, with no slot in use *)
Definition blank (N : nat) (g salt : Z) (b : nat) : Map :=
  MkMap (layout (replicate N kEmpty)) (replicate N (MkSlot None None)) (Z.of_nat N) 0 g salt b.

Lemma layout_blank N :
  <[N := kSentinel]> (replicate (N + 16) kEmpty) = layout (replicate N kEmpty).
Proof.
  unfold layout. rewrite <- replicate_add, take_replicate, Nat.min_l by lia.
  rewrite replicate_add. rewrite insert_app_r_alt by (rewrite length_replicate; lia).
  rewrite length_replicate, Nat.sub_diag. done.
Qed.

Lemma blank_clean N : clean (replicate N kEmpty).
Proof. by intros i [? _]%lookup_replicate. Qed.

Lemma blank_full N g salt b i k : ~ full (blank N g salt b) (replicate N kEmpty) i k.
Proof. intros (c & x & [-> _]%lookup_replicate & ? & _). done. Qed.

Lemma blank_holds N g salt b k v : ~ holds (blank N g salt b) (replicate N kEmpty) k v.
Proof. intros (i & Hi)%holds_has. by apply blank_full in Hi. Qed.

Lemma blank_complete N g salt b : complete (blank N g salt b) (replicate N kEmpty).
Proof. intros i k Hi. by apply blank_full in Hi. Qed.

Lemma blank_wf N g salt b e : 0 <= e <= 57 -> Z.of_nat N = 2 ^ e - 1 -> 0 <= g <= Z.of_nat N - Z.of_nat N / 8 ->
  (N = 0%nat \/ Z.of_nat N + 1 <= 4 * g) -> (3 <= Z.of_nat N -> g < Z.of_nat N - Z.of_nat N / 8) ->
  wf (blank N g salt b) (replicate N kEmpty).
Proof.
  intros He HN Hg Hsome Hspare. split; cbn [m_growthInfo m_num m_cap blank]; try lia.
  - exists e. cbn. rewrite !length_replicate. auto.
  - intros i c [-> Hi]%lookup_replicate. left. split; [by left|]. cbn. by apply lookup_replicate.
  - intros i j k Hi. by apply blank_full in Hi.
  - by rewrite zsum_replicate.
Qed.

Section move.
Context (t : Map) (C : list Z) (G : Z) (fuel : nat).
Hypothesis Hwf : wf t C.
Hypothesis Hcomplete : complete t C.
Hypothesis HG : zsum occupied C <= G.

(** A pair in one of the first [i] slots of the old table *)
Definition moved (i : nat) key v : Prop := exists i' c, (i' < i)%nat /\
  C !! i' = Some c /\ 0 <= c /\ m_slot t !! i' = Some (MkSlot (Some key) (Some v)).

(** The new table when [i] slots have been moved *)
Record moving (i : nat) t1 C1 : Prop := {
  mv_wf : wf t1 C1;
  mv_complete : complete t1 C1;
  mv_clean : clean C1;
  mv_holds : forall key v, holds t1 C1 key v <-> moved i key v;
  mv_growth : m_growthInfo t1 = G - zsum occupied (take i C);
  mv_num : m_num t1 = zsum occupied (take i C);
  mv_probes : (length C1 + 1 <= 16 * probes)%nat
}.

Lemma occupied_nonneg (l : list Z) : 0 <= zsum occupied l.
Proof. apply zsum_nonneg. intros a _. unfold occupied. by destruct (0 <=? a). Qed.

Lemma occupied_take i c : C !! i = Some c -> zsum occupied (take (S i) C) = zsum occupied (take i C) + occupied c.
Proof. intros Hc. rewrite (take_S_r _ _ c) by done. rewrite zsum_app. cbn. lia. Qed.

Lemma moved_S i key v : moved (S i) key v <->
  moved i key v \/ exists c, C !! i = Some c /\ 0 <= c /\ m_slot t !! i = Some (MkSlot (Some key) (Some v)).
Proof.
  split.
  - intros (i' & c & Hi' & Hc & Hpos & Hx). destruct (Nat.eq_dec i' i) as [->|]; [by right; eauto|].
    left. exists i', c. split; [lia|done].
  - intros [(i' & c & Hi' & Hrest)|(c & Hrest)]; [exists i', c; split; [lia|done]|exists i, c; split; [lia|done]].
Qed.

(** A free slot is skipped. *)
Lemma moving_skip i t1 C1 c : C !! i = Some c -> c < 0 -> moving i t1 C1 -> moving (S i) t1 C1.
Proof.
  intros Hc Hneg [H1 H2 H3 H4 H5 H6 H7]. split; try done.
  - intros key v. rewrite moved_S, H4. split; [by left|].
    intros [?|(c' & Hc' & Hpos & _)]; [done|]. rewrite Hc in Hc'. injection Hc' as <-. lia.
  - rewrite (occupied_take i c Hc). unfold occupied at 2. rewrite (proj2 (Z.leb_gt _ _)) by lia. cbn. lia.
  - rewrite (occupied_take i c Hc). unfold occupied at 2. rewrite (proj2 (Z.leb_gt _ _)) by lia. cbn. lia.
Qed.

(** A pair goes to a slot of the new table. *)
Lemma moving_store i t1 C1 c key v : C !! i = Some c -> 0 <= c ->
  m_slot t !! i = Some (MkSlot (Some key) (Some v)) -> moving i t1 C1 ->
  exists q t2 t3, find (S fuel) key true t1 = OK (Some q, t2) /\
    construct_value q v t2 = OK (tt, t3) /\
    exists C3, moving (S i) t3 C3 /\ length C3 = length C1 /\ m_cap t3 = m_cap t1.
Proof.
  intros Hc Hpos Hx [H1 H2 H3 H4 H5 H6 H7]. assert (full t C i key) as Hfull by (exists c; eexists; eauto).
  assert (~ has t1 C1 key) as Ha.
  { rewrite (complete_holds t1 C1 key H2). intros [w Hw]. apply H4 in Hw as (i' & c' & Hi' & Hc' & Hpos' & Hx').
    assert (i' = i); [|lia]. apply (wf_unique _ _ _ _ Hwf i' i key); [|done]. exists c'. eexists. eauto. }
  pose proof (occupied_take i c Hc) as Htake. unfold occupied at 3 in Htake.
  rewrite (proj2 (Z.leb_le _ _) Hpos) in Htake. cbn [Z.b2z] in Htake.
  assert (0 < m_growthInfo t1) as Hgrow.
  { pose proof (occupied_nonneg (drop (S i) C)) as Hd. rewrite <- (take_drop (S i) C), zsum_app in HG. lia. }
  destruct (store_pair fuel t1 C1 key v H1 Ha (clean_room _ _ H1 H3) H7 Hgrow) as (q & c0 & t2 & Hq & Hfree & Hr & Hf & Hv).
  exists (Z.of_nat q), t2, (store t1 C1 q key v). split; [done|]. split; [done|].
  exists (<[q := tag t1 key]> C1). rewrite length_insert. split; [|done]. split.
  - by eapply store_wf.
  - by eapply store_complete.
  - by eapply store_clean.
  - intros k w. rewrite (store_holds t1 C1 q c0) by done. rewrite H4, moved_S. split.
    + intros [[-> ->]|?]; [right; eauto|by left].
    + intros [?|(c' & _ & _ & Hx')]; [by right|left]. rewrite Hx in Hx'. by injection Hx' as <- <-.
  - cbn. lia.
  - cbn. lia.
  - by rewrite length_insert.
Qed.

Lemma move_slots_spec n i t1 C1 : (i + n = length C)%nat -> Z.of_nat (length C) <= INT_MAX -> moving i t1 C1 ->
  exists t2 C2, move_slots (fun k => find (S fuel) k true) n i (m_ctrl t) (m_slot t) t1 = OK (tt, t2) /\
    moving (length C) t2 C2 /\ length C2 = length C1.
Proof.
  intros Hi Hmax. revert i t1 C1 Hi. induction n as [|n IH]; intros i t1 C1 Hi Hm.
  { exists t1, C1. split; [done|]. by replace (length C) with i by lia. }
  cbn [move_slots]. assert ((Z.of_nat i =? INT_MAX) = false) as -> by (apply Z.eqb_neq; lia).
  destruct (lookup_lt_is_Some_2 C i) as [c Hc]; [lia|].
  assert (m_ctrl t !! i = Some c) as ->.
  { destruct (wf_shape _ _ _ _ Hwf) as (e & _ & _ & _ & -> & _). rewrite layout_low; [done|lia]. }
  erewrite s_bind_OK by reflexivity. destruct (Z.leb_spec 0 c) as [Hpos|Hneg].
  - assert (exists key v, m_slot t !! i = Some (MkSlot (Some key) (Some v))) as (key & v & Hx).
    { destruct (wf_keyed _ _ _ _ Hwf i c Hc Hpos) as [key Hfull].
      destruct (Hcomplete i key Hfull) as [v ?]. eauto. }
    rewrite Hx. destruct (moving_store i t1 C1 c key v Hc Hpos Hx Hm) as (q & t2 & t3 & Hf & Hv & C3 & Hm3 & Hl & _).
    rewrite (s_bind_OK _ _ t1 tt t3).
    + erewrite s_bind_OK by reflexivity. destruct (IH (S i) t3 C3) as (t4 & C4 & Hrun & Hm4 & Hl4); [lia|done|].
      exists t4, C4. split; [exact Hrun|]. split; [done|congruence].
    + do 2 (erewrite s_bind_OK by reflexivity). cbn [s_k s_v]. rewrite (s_bind_OK _ _ _ _ _ Hf).
      do 2 (erewrite s_bind_OK by reflexivity). exact Hv.
  - do 2 (erewrite s_bind_OK by reflexivity). apply IH; [lia|]. by eapply moving_skip.
Qed.

End move.

(** Growing: the same pairs in a table twice as large, with room *)
Lemma rehash_spec fuel t C : wf t C -> complete t C -> m_growthInfo t = 0 ->
  (2 * (length C + 1) <= 16 * probes)%nat -> Z.of_nat (length C) <= INT_MAX ->
  exists t' C', (let* n := nextCap in rehash (fun k => find (S fuel) k true) n) t = OK (tt, t') /\
    wf t' C' /\ complete t' C' /\ clean C' /\ (forall key v, holds t' C' key v <-> holds t C key v) /\
    0 < m_growthInfo t' /\ m_num t' = m_num t /\ length C' = (2 * length C + 1)%nat.
Proof.
  intros Hwf Hcomplete Hzero Hp Hmax. destruct (shape_cap t C (wf_shape _ _ _ _ Hwf)) as [Hcap Hbound].
  pose proof (wf_growth _ _ _ _ Hwf) as Hg. pose proof (wf_some _ _ _ _ Hwf) as Hsome.
  pose proof (wf_spare _ _ _ _ Hwf) as Hspare. pose proof (wf_num _ _ _ _ Hwf) as Hnum.
  pose proof (occupied_nonneg C) as Hnum0. rewrite <- Hnum in Hnum0.
  destruct (wf_shape _ _ _ _ Hwf) as (e & He & Hcape & _).
  set (N := (2 * length C + 1)%nat). assert (Z.of_nat N = 2 * m_cap t + 1) as HN by lia.
  assert (Z.of_nat N = 2 ^ (e + 1) - 1) as HNe by (rewrite Z.pow_add_r by lia; lia).
  assert (e + 1 <= 57) as He57.
  { apply Z.nlt_ge. intros Hlt. assert (2 ^ 58 <= 2 ^ (e + 1)) by (apply Z.pow_le_mono_r; lia). unfold INT_MAX in *. lia. }
  assert (2 ^ (e + 1) <= 2 ^ 57) as HNmax by (apply Z.pow_le_mono_r; lia).
  set (G := Z.of_nat N - Z.of_nat N / 8 - m_num t).
  assert (0 <= G /\ m_num t <= G /\ (m_num t < G) /\ Z.of_nat N + 1 <= 4 * G /\ (3 <= Z.of_nat N -> 1 <= m_num t)) as (HG0 & HG & HGlt & HG4 & HN3).
  { unfold G. rewrite HN. assert (0 <= m_cap t) as Hc0 by lia. clear - Hg Hsome Hspare Hzero Hnum0 Hc0. rewrite Hzero in *. clear Hzero.
    Z.to_euclidean_division_equations. repeat split; lia. }
  assert (wf (blank N G (m_salt t) (S (m_block t))) (replicate N kEmpty)) as Hblank.
  { apply (blank_wf N G _ _ (e + 1)); unfold G in *; lia. }
  assert (nextCap t = OK (Z.of_nat N, t)) as Hnext.
  { unfold nextCap. erewrite s_bind_OK by reflexivity. rewrite wrap_small by (unfold word; lia).
    replace (m_cap t * 2 + 1) with (Z.of_nat N) by lia. rewrite (s_bind_OK _ _ _ tt t); [done|].
    apply s_assert_true. pose proof (valid_cap _ _ (wf_shape _ _ _ _ Hblank)) as Hv. cbn [m_cap blank] in Hv.
    rewrite (proj2 (Z.eqb_neq (Z.of_nat N) 0)) in Hv by lia. exact Hv. }
  rewrite (s_bind_OK _ _ _ _ _ Hnext). unfold rehash. do 3 (erewrite s_bind_OK by reflexivity).
  cbn [set_num m_ctrl m_slot m_cap m_num m_growthInfo m_salt m_block id].
  replace (Z.to_nat (Z.of_nat N + kWidth)) with (N + 16)%nat by (unfold kWidth; lia).
  rewrite Nat2Z.id, layout_blank, Hcap, Nat2Z.id.
  assert (0 <= Z.of_nat N / 8) by (apply Z.div_pos; lia).
  rewrite !wrap_small by (unfold word; rewrite ?wrap_small; unfold word; unfold G in *; lia). fold G.
  destruct (move_slots_spec t C G fuel Hwf Hcomplete) with (n := length C) (i := 0%nat)
    (t1 := blank N G (m_salt t) (S (m_block t))) (C1 := replicate N kEmpty)
    as (t2 & C2 & Hrun & [H1 H2 H3 H4 H5 H6 H7] & Hl).
  - lia.
  - done.
  - done.
  - split; try done.
    + apply blank_complete.
    + apply blank_clean.
    + intros k v. split; [by intros ?%blank_holds|]. intros (i' & _ & ? & _). lia.
    + rewrite take_0. cbn. lia.
    + rewrite length_replicate. lia.
  - exists t2, C2. split; [exact Hrun|]. split; [done|]. split; [done|]. split; [done|]. split.
    { intros k v. rewrite H4. split.
      - intros (i & c & _ & Hrest). by exists i, c.
      - intros (i & c & Hc & Hrest). exists i, c. split; [by eapply lookup_lt_Some|done]. }
    rewrite take_ge in H5, H6 by lia. split; [lia|]. split; [lia|]. rewrite Hl. by rewrite length_replicate.
Qed.

(** [goto refind] after growing *)
Lemma find_grow fuel t C key t' : wf t C -> ~ has t C key -> room C -> (length C + 1 <= 16 * probes)%nat ->
  m_growthInfo t = 0 -> (let* n := nextCap in rehash (fun k => find fuel k true) n) t = OK (tt, t') ->
  find (S fuel) key true t = find fuel key true t'.
Proof.
  intros Hwf Ha Hroom Hp Hzero Hgrow. pose proof (wf_shape _ _ _ _ Hwf) as Hshape.
  destruct (findIndex_absent _ _ _ t C key Hwf Ha Hroom Hp) as (n & j & Hrun & _).
  set (i := ((pos C (start t key) n + j) mod (length C + 1))%nat) in *.
  assert (i <= length C)%nat as Hi by (pose proof (Nat.mod_upper_bound (pos C (start t key) n + j) (length C + 1)); lia).
  cbn [Swiss.find]. rewrite (s_bind_OK _ _ _ _ _ Hrun). cbn [negb].
  rewrite (s_bind_OK _ _ _ _ _ (read16_at t C i Hshape Hi)). erewrite s_bind_OK by reflexivity.
  rewrite Hzero, andb_false_r. apply s_bind_inv in Hgrow as (n' & t1 & Hn & Hr).
  by rewrite (s_bind_OK _ _ _ _ _ Hn), (s_bind_OK _ _ _ _ _ Hr).
Qed.

(** ** What the operations do to the pairs *)

(** The new value of a key that is there *)
Lemma set_value_spec t C key v w (i : nat) c : wf t C -> complete t C ->
  C !! i = Some c -> 0 <= c -> m_slot t !! i = Some (MkSlot (Some key) (Some v)) ->
  let t' := set_slot t (<[i := MkSlot (Some key) (Some w)]> (m_slot t)) in
  wf t' C /\ complete t' C /\ forall k u, holds t' C k u <-> (k = key /\ u = w) \/ (k <> key /\ holds t C k u).
Proof.
  intros Hwf Hcomplete Hc Hpos Hx t'. assert (i < length (m_slot t))%nat as Hlt by (by eapply lookup_lt_Some).
  split; [by eapply wf_set_value|]. split.
  - intros j k Hj. unfold t' in Hj. rewrite (full_set_slot t C i key (Some v)) in Hj by done. cbn.
    destruct (Hcomplete j k Hj) as [u Hu]. destruct (decide (j = i)) as [->|].
    + rewrite list_lookup_insert_eq by done. rewrite Hx in Hu. injection Hu as <- <-. eauto.
    + rewrite list_lookup_insert_ne by done. eauto.
  - intros k u. unfold holds. cbn. split.
    + intros (j & c' & Hc' & Hpos' & Hx'). destruct (decide (j = i)) as [->|].
      * rewrite list_lookup_insert_eq in Hx' by done. injection Hx' as <- <-. by left.
      * rewrite list_lookup_insert_ne in Hx' by done. right. split; [|by eauto]. intros ->.
        assert (j = i); [|done]. apply (wf_unique _ _ _ _ Hwf j i key); [exists c'|exists c]; eexists; eauto.
    + intros [[-> ->]|[Hne (j & c' & Hc' & Hpos' & Hx')]].
      * exists i, c. by rewrite list_lookup_insert_eq.
      * exists j, c'. rewrite list_lookup_insert_ne; [done|]. intros ->. congruence.
Qed.

(** The table without a pair *)
Lemma erase_spec t C key v (i : nat) c : wf t C -> complete t C ->
  C !! i = Some c -> 0 <= c -> m_slot t !! i = Some (MkSlot (Some key) (Some v)) ->
  (length C + 1 <= 16 * probes)%nat ->
  let t' := set_bytes t C i kDeleted (MkSlot None None) (m_num t - 1) (m_growthInfo t + 1) in
  let C' := <[i := kDeleted]> C in
  erase hash addr probes key t = OK (true, t') /\ 1 <= m_num t /\
  wf t' C' /\ complete t' C' /\ forall k u, holds t' C' k u <-> k <> key /\ holds t C k u.
Proof.
  intros Hwf Hcomplete Hc Hpos Hx Hp t' C'. pose proof (wf_shape _ _ _ _ Hwf) as Hshape.
  assert (full t C i key) as Hfull by (exists c; eexists; eauto).
  assert (i < length C)%nat as Hlt by (by eapply lookup_lt_Some).
  destruct (shape_cap t C Hshape) as [Hcap Hbound]. pose proof (wf_growth _ _ _ _ Hwf).
  assert (length (m_slot t) = length C) as Hl by (by destruct Hshape as (e & _ & _ & _ & _ & ?)).
  assert (1 <= m_num t) as Hnum.
  { rewrite (wf_num _ _ _ _ Hwf). pose proof (zsum_member occupied C i c Hc) as Hm.
    unfold occupied at 2 in Hm. rewrite (proj2 (Z.leb_le _ _) Hpos) in Hm. apply Hm.
    intros a _. unfold occupied. by destruct (0 <=? a). }
  assert (0 <= m_cap t / 8) by (apply Z.div_pos; lia).
  split; [|split; [done|split; [by eapply wf_erase|split]]].
  - unfold erase. rewrite (s_bind_OK _ _ _ _ _ (findIndex_found _ _ _ t C key i Hwf Hfull Hp)).
    rewrite (s_bind_OK _ _ _ _ _ (setCtrl_at t C i _ Hshape Hlt)).
    erewrite s_bind_OK by (apply get_slot_at; exact Hx). do 2 (erewrite s_bind_OK by reflexivity).
    erewrite s_bind_OK by (apply mod_slot_at; exact Hx). erewrite s_bind_OK by reflexivity.
    unfold s_ret, t', set_bytes. cbn. rewrite !wrap_small by (unfold word; lia). done.
  - intros j k Hj. destruct (decide (j = i)) as [->|Hne].
    + by apply full_insert_eq in Hj as [? _].
    + apply full_insert_ne in Hj; [|done]. cbn. rewrite list_lookup_insert_ne by done. by apply Hcomplete.
  - intros k u. unfold holds, t', C', set_bytes. cbn [m_slot]. split.
    + intros (j & c' & Hc' & Hpos' & Hx'). destruct (decide (j = i)) as [->|Hne].
      { rewrite list_lookup_insert_eq in Hc' by done. by injection Hc' as <-. }
      rewrite list_lookup_insert_ne in Hc' by done. rewrite list_lookup_insert_ne in Hx' by done.
      split; [|by eauto]. intros ->. destruct Hne.
      apply (wf_unique _ _ _ _ Hwf j i key); [exists c'; eexists; eauto|done].
    + intros [Hne (j & c' & Hc' & Hpos' & Hx')]. assert (j <> i) by (intros ->; congruence).
      exists j, c'. by rewrite !list_lookup_insert_ne.
Qed.

(** A search for an absent key in a table with no empty byte does not end. *)
Lemma findIndex_exhausted t C key : wf t C -> ~ has t C key -> ~ room C ->
  findIndex hash addr probes key t = Er OutOfFuel.
Proof.
  intros Hwf Ha Hroom. rewrite (findIndex_eq _ _ _ t C) by done.
  pose proof (wf_shape _ _ _ _ Hwf) as Hshape. pose proof (wf_keyed _ _ _ _ Hwf) as Hkeyed.
  destruct (start_le hash addr t C key Hshape) as [Hle _]. pose proof (proj1 (tag_range hash t key)) as Htag.
  assert (15 <= length C)%nat as Hbig by (apply Nat.nlt_ge; intros ?; apply Hroom; by left).
  enough (forall n, find_loop probes (Z.of_nat (pos C (start t key) n)) (tag t key) key t = Er OutOfFuel) as -> by done.
  induction probes as [|f IH]; [done|]. intros n. cbn [find_loop].
  pose proof (pos_le C (start t key) Hle n) as Hpos.
  rewrite (s_bind_OK _ _ _ _ _ (read16_at t C _ Hshape Hpos)).
  destruct (find_group t C (start t key) (tag t key) key Hshape Hkeyed Hle Htag n) as (r & Hrun & Hr).
  rewrite (s_bind_OK _ _ _ _ _ Hrun). destruct r as [q|].
  { exfalso. destruct Hr as (j & _ & _ & _ & Hf). apply Ha. by eexists. }
  assert (group_mask (fun c => c =? kEmpty) (group C (pos C (start t key) n)) = 0) as ->.
  { apply group_mask_zero. intros j c Hc. apply Z.eqb_neq. intros ->.
    assert (j < 16)%nat as Hj by (rewrite <- (group_length C _ Hpos); by eapply lookup_lt_Some).
    rewrite group_lookup in Hc by done. apply Hroom.
    destruct (layout_cases C (pos C (start t key) n + j) kEmpty) as [(_ & ? & _)|[[_ ?]|[? _]]];
      [lia|done|right; eauto|done|lia]. }
  cbn [negb Z.eqb]. erewrite s_bind_OK by reflexivity.
  rewrite (pos_next t C (start t key) Hshape Hle n). apply IH.
Qed.

End operations.
