(* ===== verification/SwissRefine.v ===== *)
(** * The hash table refines a finite map

    Sequences of operations on a table give the answers of the same sequence
    on a finite map of stdpp, for as long as the searches end.  They end while
    the table has an empty byte: insertions alone never use the last one up,
    but erasures do not give any back. *)

From stdpp Require Import gmap fin_map_dom.
From S2P Require Import Prelude Words Monad Swiss SwissProbe SwissSpec SwissMap.

Local Open Scope Z_scope.
Local Open Scope st_scope.

Section refine.
Context {K V : Type} `{Countable K}.
Variable hash : K -> Z.
Variable addr : nat -> Z.
Variable probes : nat.
Notation Map := (CSwissMap K V).
Implicit Types (t : Map) (m : gmap K V) (key : K) (v : V).

(** ** The abstraction *)

Definition bytes_of t : list Z := take (Z.to_nat (m_cap t)) (m_ctrl t).

(** The table stands for the map. *)
Definition repr t m : Prop := exists C, wf hash addr t C /\ complete t C /\
  (forall key v, holds t C key v <-> m !! key = Some v) /\ m_num t = Z.of_nat (size m).

(** There is an empty byte: one of a slot, or one that fills up a small table. *)
Definition roomy t : bool := (m_cap t <? 15) || existsb (Z.eqb kEmpty) (bytes_of t).
Definition unerased t : bool := forallb (fun c => negb (c =? kDeleted)) (bytes_of t).

Lemma bytes_layout t C : shape t C -> bytes_of t = C.
Proof.
  intros (e & He & Hcap & Hlen & Hctrl & _). unfold bytes_of. rewrite Hctrl, <- Hlen, Nat2Z.id.
  unfold layout. by rewrite take_app_length.
Qed.

Lemma roomy_room t C : shape t C -> roomy t = true <-> room C.
Proof.
  intros Hs. pose proof (shape_cap t C Hs) as [Hcap _]. unfold roomy, room. rewrite (bytes_layout t C Hs).
  rewrite orb_true_iff, Z.ltb_lt, existsb_exists. setoid_rewrite Z.eqb_eq. rewrite Hcap.
  f_equiv; [lia|]. split.
  - intros (c & Hin & <-). apply list_elem_of_In, list_elem_of_lookup in Hin. done.
  - intros Hi. exists kEmpty. split; [|done]. by apply list_elem_of_In, list_elem_of_lookup.
Qed.

Lemma unerased_clean t C : shape t C -> unerased t = true <-> clean C.
Proof.
  intros Hs. unfold unerased, clean. rewrite (bytes_layout t C Hs), forallb_forall. split.
  - intros Hall i Hi. assert (In kDeleted C) as Hin by (apply list_elem_of_In, list_elem_of_lookup; eauto).
    by specialize (Hall _ Hin).
  - intros Hclean c Hin. apply list_elem_of_In, list_elem_of_lookup in Hin as [i Hi].
    destruct (Z.eqb_spec c kDeleted) as [->|]; [by destruct (Hclean i)|done].
Qed.

Lemma repr_has t m C key : complete t C -> (forall key v, holds t C key v <-> m !! key = Some v) ->
  m !! key = None -> ~ has t C key.
Proof.
  intros Hcomplete Hholds Hnone Hh. apply (complete_holds t C key Hcomplete) in Hh as [v Hv].
  apply Hholds in Hv. congruence.
Qed.

(** The conditions under which the search for a key ends *)
Definition searchable t m key : Prop := (is_Some (m !! key) \/ roomy t = true) /\
  m_cap t + 1 <= 16 * Z.of_nat probes.

(** ** The operations *)

Lemma lookup_spec t m key : repr t m -> searchable t m key ->
  lookup_value hash addr probes key t = OK (m !! key, t).
Proof.
  intros (C & Hwf & Hcomplete & Hholds & Hnum) [Hsome Hp].
  pose proof (wf_shape _ _ _ _ Hwf) as Hshape. destruct (shape_cap t C Hshape) as [Hcap _].
  unfold lookup_value, find_fuel. destruct (m !! key) as [v|] eqn:Hk.
  - apply Hholds in Hk as (i & c & Hc & Hpos & Hx).
    assert (full t C i key) as Hf by (exists c; eexists; eauto).
    erewrite s_bind_OK by (apply (find_present hash addr probes _ t C); [done|exact Hf|lia]).
    cbv beta iota. erewrite s_bind_OK by (apply get_slot_at; exact Hx). by erewrite s_bind_OK by reflexivity.
  - destruct Hsome as [[? ?]|Hroom]; [done|]. apply (roomy_room t C Hshape) in Hroom.
    erewrite s_bind_OK; [|apply (find_missing hash addr probes _ t C); [done| |done|lia]]; [done|].
    by eapply repr_has.
Qed.

(** A new pair goes to a table with room. *)
Lemma insert_store fuel t C m key v : wf hash addr t C -> complete t C ->
  (forall key v, holds t C key v <-> m !! key = Some v) -> m_num t = Z.of_nat (size m) ->
  m !! key = None -> room C -> (length C + 1 <= 16 * probes)%nat -> 0 < m_growthInfo t ->
  exists t' C', (let* x := find hash addr probes (S fuel) key true in
      let* x := s_some NullDeref x in construct_value x v) t = OK (tt, t') /\
    wf hash addr t' C' /\ complete t' C' /\
    (forall k w, holds t' C' k w <-> <[key := v]> m !! k = Some w) /\
    m_num t' = Z.of_nat (size (<[key := v]> m)) /\ m_cap t' = m_cap t /\ (clean C -> clean C').
Proof.
  intros Hwf Hcomplete Hholds Hnum Hnone Hroom Hp Hgrow.
  pose proof (repr_has t m C key Hcomplete Hholds Hnone) as Ha.
  destruct (store_pair hash addr probes fuel t C key v Hwf Ha Hroom Hp Hgrow)
    as (q & c0 & t1 & Hq & Hfree & Hr & Hf & Hv).
  exists (store hash t C q key v), (<[q := tag hash t key]> C). split; [|split; [|split; [|split; [|split; [|split]]]]].
  - rewrite (s_bind_OK _ _ _ _ _ Hf). by erewrite s_bind_OK by reflexivity.
  - by eapply store_wf.
  - by eapply store_complete.
  - intros k w. rewrite (store_holds hash addr t C q c0) by done. rewrite Hholds.
    destruct (decide (k = key)) as [->|Hne].
    + rewrite lookup_insert_eq. split; [intros [[_ ->]|?]; [done|congruence]|intros [= <-]; by left].
    + rewrite lookup_insert_ne by done. split; [intros [[? _]|?]; done|by right].
  - cbn. rewrite map_size_insert_None by done. lia.
  - done.
  - apply store_clean.
Qed.

Lemma insert_spec t m key v : repr t m -> searchable t m key ->
  2 * (m_cap t + 1) <= 16 * Z.of_nat probes -> m_cap t <= INT_MAX ->
  exists t', insert hash addr probes key v t = OK (tt, t') /\ repr t' (<[key := v]> m) /\
    (unerased t = true -> unerased t' = true) /\
    (m_cap t' = m_cap t \/ m_cap t' + 1 <= 8 * Z.of_nat (size m) \/ m_cap t' = 1).
Proof.
  intros (C & Hwf & Hcomplete & Hholds & Hnum) [Hsome _] Hp Hmax.
  pose proof (wf_shape _ _ _ _ Hwf) as Hshape. destruct (shape_cap t C Hshape) as [Hcap _].
  unfold insert, find_fuel. destruct (m !! key) as [v0|] eqn:Hk.
  - apply Hholds in Hk as (i & c & Hc & Hpos & Hx).
    assert (full t C i key) as Hf by (exists c; eexists; eauto).
    erewrite s_bind_OK by (apply (find_present hash addr probes _ t C); [done|exact Hf|lia]).
    erewrite s_bind_OK by reflexivity. rewrite (construct_value_at _ i (Some key) (Some v0)) by done.
    destruct (set_value_spec hash addr t C key v0 v i c Hwf Hcomplete Hc Hpos Hx) as (Hwf' & Hcomplete' & Hholds').
    eexists. split; [done|]. split; [|split; [|by left]].
    + exists C. split; [done|]. split; [done|]. split.
      * intros k w. rewrite Hholds'. destruct (decide (k = key)) as [->|Hne].
        -- rewrite lookup_insert_eq. split; [intros [[_ ->]|[? _]]; done|intros [= <-]; by left].
        -- rewrite lookup_insert_ne, Hholds by done. split; [intros [[? _]|[_ ?]]; done|by right].
      * cbn. rewrite Hnum, map_size_insert_Some; [done|]. exists v0. apply Hholds. by exists i, c.
    + intros Hu. apply (unerased_clean _ C); [by eapply wf_shape|]. by eapply unerased_clean.
  - destruct Hsome as [[? ?]|Hroom]; [done|]. apply (roomy_room t C Hshape) in Hroom.
    destruct (Z.eq_dec (m_growthInfo t) 0) as [Hzero|Hgrow].
    + (* the table grows first *)
      destruct (rehash_spec hash addr probes 1 t C Hwf Hcomplete Hzero) as
        (t1 & C1 & Hrun & Hwf1 & Hcomplete1 & Hclean1 & Hholds1 & Hgrow1 & Hnum1 & Hl1); [lia|lia|].
      destruct (insert_store 1 t1 C1 m key v Hwf1 Hcomplete1) as (t' & C' & Hrun' & Hwf' & Hc' & Hh' & Hn' & Hcap' & Hcl');
        [intros; by rewrite Hholds1|congruence|done|by eapply clean_room|lia|done|].
      exists t'. split; [|split; [|split]].
      * rewrite <- Hrun'. unfold s_bind. erewrite find_grow; try done; [by eapply repr_has|lia].
      * exists C'. auto.
      * intros _. apply (unerased_clean _ C'); [by eapply wf_shape|auto].
      * right. pose proof (wf_some _ _ _ _ Hwf).
        destruct (shape_cap t1 C1 (wf_shape _ _ _ _ Hwf1)) as [Hcap1 _]. lia.
    + pose proof (wf_growth _ _ _ _ Hwf).
      destruct (insert_store 2 t C m key v Hwf Hcomplete Hholds Hnum Hk Hroom) as (t' & C' & Hrun' & Hwf' & Hc' & Hh' & Hn' & Hcap' & Hcl');
        [lia|lia|].
      exists t'. split; [exact Hrun'|]. split; [exists C'; auto|]. split; [|by left].
      intros Hu. apply (unerased_clean _ C'); [by eapply wf_shape|]. apply Hcl'. by eapply unerased_clean.
Qed.

Lemma erase_found t m key v : repr t m -> m !! key = Some v -> m_cap t + 1 <= 16 * Z.of_nat probes ->
  exists t', erase hash addr probes key t = OK (true, t') /\ repr t' (delete key m) /\ m_cap t' = m_cap t.
Proof.
  intros (C & Hwf & Hcomplete & Hholds & Hnum) Hk Hp.
  destruct (shape_cap t C (wf_shape _ _ _ _ Hwf)) as [Hcap _].
  pose proof Hk as (i & c & Hc & Hpos & Hx)%Hholds.
  destruct (erase_spec hash addr probes t C key v i c Hwf Hcomplete Hc Hpos Hx) as (Hrun & Hn & Hwf' & Hcomplete' & Hholds');
    [lia|].
  eexists. split; [exact Hrun|]. split; [|done]. eexists. split; [done|]. split; [done|]. split.
  - intros k w. rewrite Hholds', lookup_delete_Some, Hholds. split; intros [? ?]; auto.
  - cbn. rewrite Hnum, map_size_delete_Some by done. cbn in Hn. rewrite Hnum in Hn. lia.
Qed.

Lemma erase_absent t m key : repr t m -> m !! key = None -> searchable t m key ->
  erase hash addr probes key t = OK (false, t).
Proof.
  intros (C & Hwf & Hcomplete & Hholds & Hnum) Hk [[[? ?]|Hroom] Hp]; [congruence|].
  pose proof (wf_shape _ _ _ _ Hwf) as Hshape. destruct (shape_cap t C Hshape) as [Hcap _].
  apply (roomy_room t C Hshape) in Hroom. pose proof (repr_has t m C key Hcomplete Hholds Hk) as Ha.
  destruct (findIndex_absent hash addr probes t C key Hwf Ha Hroom) as (n & j & Hrun & _); [lia|].
  unfold erase. by rewrite (s_bind_OK _ _ _ _ _ Hrun).
Qed.

(** Without an empty byte, the search for an absent key never ends. *)
Lemma exhausted t m key : repr t m -> m !! key = None -> roomy t = false ->
  findIndex hash addr probes key t = Er OutOfFuel.
Proof.
  intros (C & Hwf & Hcomplete & Hholds & Hnum) Hk Hroom. pose proof (wf_shape _ _ _ _ Hwf) as Hshape.
  apply (findIndex_exhausted hash addr probes t C key Hwf); [by eapply repr_has|].
  intros Hr. apply (roomy_room t C Hshape) in Hr. congruence.
Qed.

(** ** Sequences of operations *)

Inductive op : Type := Ins (key : K) (v : V) | Del (key : K) | Get (key : K).
Inductive reply : Type := Done | Erased (b : bool) | Found (x : option V).

Definition key_of (o : op) : K := match o with Ins k _ | Del k | Get k => k end.
Definition deletes (o : op) : bool := match o with Del _ => true | _ => false end.

Definition exec (o : op) : ST Map reply :=
  match o with
  | Ins key v => insert hash addr probes key v ;* s_ret Done
  | Del key => let* b := erase hash addr probes key in s_ret (Erased b)
  | Get key => let* x := lookup_value hash addr probes key in s_ret (Found x)
  end.

Fixpoint run (l : list op) : ST Map (list reply) :=
  match l with
  | [] => s_ret []
  | o :: l => let* r := exec o in let* rs := run l in s_ret (r :: rs)
  end.

(** The same operations on a finite map *)
Definition model1 (o : op) m : reply * gmap K V :=
  match o with
  | Ins key v => (Done, <[key := v]> m)
  | Del key => (Erased (bool_decide (is_Some (m !! key))), delete key m)
  | Get key => (Found (m !! key), m)
  end.

Fixpoint model (l : list op) m : list reply * gmap K V :=
  match l with
  | [] => ([], m)
  | o :: l => let '(r, m) := model1 o m in let '(rs, m) := model l m in (r :: rs, m)
  end.

(** What holds after [n] operations *)
Record after (n : nat) t m : Prop := {
  af_repr : repr t m;
  af_size : (size m <= n)%nat;
  af_cap : m_cap t <= 8 * Z.of_nat n + 1
}.

Lemma new_repr salt : repr (CSwissMap_new salt) ∅.
Proof.
  exists []. change (CSwissMap_new salt) with (@blank K V 0 0 salt 0). change [] with (replicate 0 kEmpty).
  split; [apply (blank_wf _ _ _ _ _ _ 0); first [done|by left|lia]|]. split; [apply blank_complete|]. split; [|done].
  intros k v. rewrite lookup_empty. split; [by intros ?%blank_holds|done].
Qed.

Lemma exec_step n t m o : after n t m -> (n < probes)%nat -> Z.of_nat n < 2 ^ 28 ->
  if decide (is_Some (m !! key_of o) \/ roomy t = true) then
    exists t', exec o t = OK ((model1 o m).1, t') /\ after (S n) t' (model1 o m).2 /\
      (deletes o = false -> unerased t = true -> unerased t' = true)
  else exec o t = Er OutOfFuel.
Proof.
  intros [Hrepr Hsize Hcap] Hn Hmax. destruct (decide _) as [Hs|Hs].
  - assert (searchable t m (key_of o)) as Hsearch by (split; [done|lia]). destruct o as [key v|key|key]; cbn [key_of] in *; cbn [exec model1 fst snd].
    + destruct (insert_spec t m key v Hrepr Hsearch) as (t' & Hrun & Hrepr' & Hu & Hcap'); [lia|unfold INT_MAX; lia|].
      exists t'. rewrite (s_bind_OK _ _ _ _ _ Hrun). split; [done|]. split; [|auto]. split; [done| |lia].
      destruct (m !! key) eqn:Hk; [rewrite map_size_insert_Some by eauto|rewrite map_size_insert_None by done]; lia.
    + destruct (m !! key) as [v|] eqn:Hk.
      * destruct (erase_found t m key v Hrepr Hk) as (t' & Hrun & Hrepr' & Hcap'); [by destruct Hsearch|].
        exists t'. rewrite (s_bind_OK _ _ _ _ _ Hrun). split; [done|]. split; [|done]. split; [done| |lia].
        rewrite map_size_delete_Some by done. lia.
      * exists t. rewrite (s_bind_OK _ _ _ _ _ (erase_absent t m key Hrepr Hk Hsearch)).
        rewrite delete_id by done. split; [done|]. split; [|done]. split; [done|lia|lia].
    + exists t. rewrite (s_bind_OK _ _ _ _ _ (lookup_spec t m key Hrepr Hsearch)).
      split; [done|]. split; [|done]. split; [done|lia|lia].
  - destruct (m !! key_of o) eqn:Hk; [by destruct Hs; left|].
    assert (roomy t = false) as Hr by (destruct (roomy t); [by destruct Hs; right|done]).
    pose proof (exhausted t m (key_of o) Hrepr Hk Hr) as He.
    assert (forall b, find hash addr probes find_fuel (key_of o) b t = Er OutOfFuel) as Hfind
      by (intros b; exact (s_bind_Er _ _ _ _ He)).
    destruct o as [key v|key|key]; cbn [key_of] in *; apply s_bind_Er.
    + exact (s_bind_Er _ _ _ _ (Hfind true)).
    + exact (s_bind_Er _ _ _ _ He).
    + exact (s_bind_Er _ _ _ _ (Hfind false)).
Qed.

Lemma run_from n l t m : after n t m -> (n + length l <= probes)%nat -> Z.of_nat (n + length l) <= 2 ^ 28 ->
  (exists t', run l t = OK ((model l m).1, t') /\ after (n + length l) t' (model l m).2) \/
  (run l t = Er OutOfFuel /\ exists l1 o l2 t1, l = l1 ++ o :: l2 /\ run l1 t = OK ((model l1 m).1, t1) /\
     repr t1 (model l1 m).2 /\ (model l1 m).2 !! key_of o = None /\ roomy t1 = false).
Proof.
  revert n t m. induction l as [|o l IH]; intros n t m Haf Hn Hmax; cbn [length] in Hn, Hmax.
  { left. exists t. rewrite Nat.add_0_r. done. }
  pose proof (exec_step n t m o Haf ltac:(lia) ltac:(lia)) as Hstep. destruct (decide _) as [Hs|Hs].
  - destruct Hstep as (t1 & Hexec & Haf1 & _). destruct (model1 o m) as [r m1] eqn:Hm1. cbn [fst snd] in *.
    destruct (IH (S n) t1 m1 Haf1 ltac:(lia) ltac:(lia)) as [(t2 & Hrun & Haf2)|(Hrun & l1 & o' & l2 & t2 & -> & Hrun1 & Hrest)].
    + left. exists t2. cbn [run model]. rewrite Hm1. destruct (model l m1) as [rs m2]. cbn [fst snd] in *.
      rewrite (s_bind_OK _ _ _ _ _ Hexec), (s_bind_OK _ _ _ _ _ Hrun). split; [done|].
      cbn [length]. by rewrite Nat.add_succ_r.
    + right. cbn [run]. rewrite (s_bind_OK _ _ _ _ _ Hexec), (s_bind_Er _ _ _ _ Hrun). split; [done|].
      exists (o :: l1), o', l2, t2. split; [done|]. cbn [run model]. rewrite Hm1.
      destruct (model l1 m1) as [rs m2]. cbn [fst snd] in *.
      by rewrite (s_bind_OK _ _ _ _ _ Hexec), (s_bind_OK _ _ _ _ _ Hrun1).
  - right. cbn [run]. rewrite (s_bind_Er _ _ _ _ Hstep). split; [done|].
    exists [], o, l, t. split; [done|]. split; [done|]. split; [apply Haf|]. cbn [model fst snd].
    destruct (m !! key_of o) eqn:Hk; [by destruct Hs; left|].
    split; [done|]. destruct (roomy t); [by destruct Hs; right|done].
Qed.

(** ** Visiting every pair *)

Section visit.
Context (t0 : Map) (C : list Z) (g : K -> V -> V).
Hypothesis Hwf0 : wf hash addr t0 C.
Hypothesis Hcomplete0 : complete t0 C.

(** A function that notes the pair, changes the value and goes on *)
Definition visit (k : K) (v : V) (a : list (K * V)) : bool * V * list (K * V) := (false, g k v, a ++ [(k, v)]).

Definition pair_at (i : nat) : option (K * V) :=
  match C !! i, m_slot t0 !! i with
  | Some c, Some (MkSlot (Some k) (Some v)) => if 0 <=? c then Some (k, v) else None
  | _, _ => None
  end.

Lemma pair_at_Some i k v : pair_at i = Some (k, v) <->
  exists c, C !! i = Some c /\ 0 <= c /\ m_slot t0 !! i = Some (MkSlot (Some k) (Some v)).
Proof.
  unfold pair_at. split.
  - destruct (C !! i) as [c|]; [|done]. destruct (m_slot t0 !! i) as [[[k'|] [v'|]]|]; [|done..].
    destruct (Z.leb_spec 0 c); [|done]. intros [= -> ->]. eauto.
  - intros (c & -> & Hpos & ->). by rewrite (proj2 (Z.leb_le _ _)) by done.
Qed.

(** The table when the first [i] slots have been visited *)
Record visited (i : nat) t : Prop := {
  vi_wf : wf hash addr t C;
  vi_complete : complete t C;
  vi_rest : forall j, (i <= j)%nat -> m_slot t !! j = m_slot t0 !! j;
  vi_holds : forall k w, holds t C k w <->
    exists j v, pair_at j = Some (k, v) /\ w = if decide (j < i)%nat then g k v else v;
  vi_num : m_num t = m_num t0
}.

Lemma visit_step i t k v : pair_at i = Some (k, v) -> visited i t -> exists t',
  construct_value (Z.of_nat i) (g k v) t = OK (tt, t') /\ visited (S i) t'.
Proof.
  intros Hi [H1 H2 H3 H4 H5]. pose proof Hi as (c & Hc & Hpos & Hx)%pair_at_Some.
  rewrite <- (H3 i) in Hx by done. eexists. split; [exact (construct_value_at t i (Some k) (Some v) (g k v) Hx)|].
  destruct (set_value_spec hash addr t C k v (g k v) i c H1 H2 Hc Hpos Hx) as (Hwf' & Hcomplete' & Hholds').
  split; try done.
  - intros j Hj. cbn. rewrite list_lookup_insert_ne by lia. apply H3. lia.
  - intros k' w. rewrite Hholds', H4. assert (forall j v', pair_at j = Some (k, v') -> j = i) as Huniq.
    { intros j v' (c' & Hc' & Hpos' & Hx')%pair_at_Some. apply pair_at_Some in Hi as (c2 & Hc2 & Hpos2 & Hx2).
      apply (wf_unique _ _ _ _ Hwf0 j i k); [exists c'|exists c2]; eexists; eauto. }
    split.
    + intros [[-> ->]|[Hne (j & v' & Hj & ->)]].
      * exists i, v. by rewrite decide_True by lia.
      * exists j, v'. split; [done|]. assert (j <> i) by (intros ->; congruence).
        destruct (decide (j < i)%nat), (decide (j < S i)%nat); done || lia.
    + intros (j & v' & Hj & ->). destruct (decide (k' = k)) as [->|Hne].
      * left. pose proof (Huniq j v' Hj) as ->. rewrite Hi in Hj. injection Hj as ->. by rewrite decide_True by lia.
      * right. split; [done|]. exists j, v'. split; [done|]. assert (j <> i) by (intros ->; congruence).
        destruct (decide (j < i)%nat), (decide (j < S i)%nat); done || lia.
Qed.

Lemma visit_skip i t : pair_at i = None -> visited i t -> visited (S i) t.
Proof.
  intros Hi [H1 H2 H3 H4 H5]. split; try done; [intros; apply H3; lia|].
  intros k w. rewrite H4. f_equiv; intros j. f_equiv; intros v. split; intros [Hj ->]; (split; [done|]);
    assert (j <> i) by (intros ->; congruence); destruct (decide (j < i)%nat), (decide (j < S i)%nat); done || lia.
Qed.

Lemma foreach_loop_spec n i t a : (i + n = length C)%nat -> visited i t -> exists t',
  foreach_loop n i visit a t = OK (a ++ omap pair_at (seq i n), t') /\ visited (length C) t'.
Proof.
  revert i t a. induction n as [|n IH]; intros i t a Hi Hv.
  { exists t. rewrite app_nil_r. replace (length C) with i by lia. done. }
  cbn [foreach_loop seq omap list_omap]. destruct (lookup_lt_is_Some_2 C i) as [c Hc]; [lia|].
  pose proof (vi_wf _ _ Hv) as Hwf. pose proof (wf_shape _ _ _ _ Hwf) as Hshape.
  rewrite (s_bind_OK _ _ _ _ _ (get_ctrl_at t C i c Hshape Hc)). destruct (Z.leb_spec 0 c) as [Hpos|Hneg].
  - destruct (wf_keyed _ _ _ _ Hwf0 i c Hc Hpos) as [k Hfull]. destruct (Hcomplete0 i k Hfull) as [v Hx].
    assert (pair_at i = Some (k, v)) as Hp by (apply pair_at_Some; eauto). rewrite Hp.
    destruct (visit_step i t k v Hp Hv) as (t1 & Hrun & Hv1). rewrite <- (vi_rest _ _ Hv i) in Hx by done.
    erewrite s_bind_OK by (apply get_slot_at; exact Hx). do 2 (erewrite s_bind_OK by reflexivity).
    cbn [visit]. rewrite (s_bind_OK _ _ _ _ _ Hrun).
    destruct (IH (S i) t1 (a ++ [(k, v)])) as (t2 & Hrun2 & Hv2); [lia|done|].
    exists t2. rewrite Hrun2, <- app_assoc. done.
  - assert (pair_at i = None) as Hp.
    { unfold pair_at. rewrite Hc. destruct (m_slot t0 !! i) as [[[] []]|]; try done.
      by rewrite (proj2 (Z.leb_gt _ _)). }
    rewrite Hp. apply IH; [lia|by apply visit_skip].
Qed.

End visit.

Lemma slot_pairs_NoDup t C n i : wf hash addr t C -> NoDup (omap (pair_at t C) (seq i n)).
Proof.
  intros Hwf. revert i. induction n as [|n IH]; intros i; [by apply NoDup_nil|].
  cbn [seq omap list_omap]. destruct (pair_at t C i) as [[k v]|] eqn:Hi; [|apply IH].
  apply NoDup_cons. split; [|apply IH]. intros (j & Hj & Hp)%list_elem_of_omap.
  apply list_elem_of_In, in_seq in Hj.
  apply pair_at_Some in Hi as (c & Hc & Hpos & Hx). apply pair_at_Some in Hp as (c' & Hc' & Hpos' & Hx').
  assert (i = j); [|lia]. apply (wf_unique _ _ _ _ Hwf i j k); [exists c|exists c']; eexists; eauto.
Qed.

Lemma foreach_spec g t m : repr t m -> exists l t', foreach (visit g) [] t = OK (l, t') /\
  l ≡ₚ map_to_list m /\ repr t' (map_imap (fun k v => Some (g k v)) m) /\ m_cap t' = m_cap t.
Proof.
  intros (C & Hwf & Hcomplete & Hholds & Hnum). destruct (shape_cap t C (wf_shape _ _ _ _ Hwf)) as [Hcap _].
  assert (forall k v, m !! k = Some v <-> exists j, pair_at t C j = Some (k, v)) as Hpairs.
  { intros k v. rewrite <- Hholds. unfold holds. f_equiv; intros j. by rewrite pair_at_Some. }
  destruct (foreach_loop_spec t C g Hwf Hcomplete (length C) 0 t []) as (t' & Hrun & Hv); [lia|split; try done|].
  { intros k w. rewrite Hholds, Hpairs. split; [intros [j Hj]; eauto|intros (j & v & Hj & ->); eauto]. }
  exists (omap (pair_at t C) (seq 0 (length C))), t'. split; [|split; [|split]].
  - unfold foreach. erewrite s_bind_OK by reflexivity. by rewrite Hcap, Nat2Z.id.
  - apply NoDup_Permutation; [by apply slot_pairs_NoDup|apply NoDup_map_to_list|].
    intros [k v]. rewrite elem_of_map_to_list, Hpairs, list_elem_of_omap. split.
    + intros (j & _ & Hj). by exists j.
    + intros [j Hj]. exists j. split; [|done]. apply list_elem_of_In, in_seq.
      apply pair_at_Some in Hj as (c & Hc & _). apply lookup_lt_Some in Hc. lia.
  - destruct Hv as [H1 H2 H3 H4 H5]. exists C. split; [done|]. split; [done|]. split.
    + intros k w. rewrite H4, map_lookup_imap, bind_Some. split.
      * intros (j & v & Hj & ->). exists v. split; [apply Hpairs; eauto|].
        rewrite decide_True; [done|]. apply pair_at_Some in Hj as (c & Hc & _). by apply lookup_lt_Some in Hc.
      * intros (v & Hk & [= <-]). apply Hpairs in Hk as [j Hj]. exists j, v. split; [done|].
        rewrite decide_True; [done|]. apply pair_at_Some in Hj as (c & Hc & _). by apply lookup_lt_Some in Hc.
    + rewrite H5, Hnum. rewrite <- (size_dom m), <- (size_dom (map_imap _ m)). do 2 f_equal. symmetry.
      apply dom_imap_L. intros k. rewrite elem_of_dom. unfold is_Some. split; [intros [v Hv]; eauto|intros (v & Hv & _); eauto].
  - destruct Hv as [Hwf' _ _ _ _]. destruct (shape_cap t' C (wf_shape _ _ _ _ Hwf')) as [-> _]. by rewrite Hcap.
Qed.

(** ** Tables nothing has been erased from *)

Lemma unerased_roomy t m : repr t m -> unerased t = true -> roomy t = true.
Proof.
  intros (C & Hwf & _) Hu. pose proof (wf_shape _ _ _ _ Hwf) as Hshape.
  apply (roomy_room t C Hshape). apply (clean_room hash addr t C Hwf). by apply (unerased_clean t C Hshape).
Qed.

Lemma run_undeleted n l t m : after n t m -> unerased t = true -> forallb (fun o => negb (deletes o)) l = true ->
  (n + length l <= probes)%nat -> Z.of_nat (n + length l) <= 2 ^ 28 ->
  exists t', run l t = OK ((model l m).1, t') /\ after (n + length l) t' (model l m).2 /\ unerased t' = true.
Proof.
  revert n t m. induction l as [|o l IH]; intros n t m Haf Hu Hl Hn Hmax; cbn [length] in Hn, Hmax.
  { exists t. rewrite Nat.add_0_r. done. }
  cbn [forallb] in Hl. apply andb_true_iff in Hl as [Ho Hl]. apply negb_true_iff in Ho.
  pose proof (exec_step n t m o Haf ltac:(lia) ltac:(lia)) as Hstep.
  rewrite decide_True in Hstep by (right; by eapply unerased_roomy, Hu; apply Haf).
  destruct Hstep as (t1 & Hexec & Haf1 & Hu1). destruct (model1 o m) as [r m1] eqn:Hm1. cbn [fst snd] in *.
  destruct (IH (S n) t1 m1 Haf1 (Hu1 Ho Hu) Hl ltac:(lia) ltac:(lia)) as (t2 & Hrun & Haf2 & Hu2).
  exists t2. cbn [run model]. rewrite Hm1. destruct (model l m1) as [rs m2]. cbn [fst snd] in *.
  rewrite (s_bind_OK _ _ _ _ _ Hexec), (s_bind_OK _ _ _ _ _ Hrun). split; [done|].
  cbn [length]. by rewrite Nat.add_succ_r.
Qed.

Lemma new_after salt : after 0 (CSwissMap_new salt) ∅.
Proof. split; [apply new_repr|done|done]. Qed.

End refine.

(** ** The theorems *)

(** A table of more than 2^31 - 1 slots cannot be rehashed: the [int] that
    counts them overflows, if nothing fails before. *)
Theorem rehash_overflows {K V} `{EqDecision K} find n (t t' : CSwissMap K V) :
  rehash find n t = OK (tt, t') -> m_cap t <= INT_MAX.
Proof.
  assert (forall k i ctrl slot (u u' : CSwissMap K V), move_slots find k i ctrl slot u = OK (tt, u') -> Z.of_nat i <= INT_MAX ->
    Z.of_nat (i + k) <= INT_MAX) as Hmove.
  { induction k as [|k IH]; intros i ctrl slot u u' Hrun Hi; [by rewrite Nat.add_0_r|]. cbn [move_slots] in Hrun.
    apply s_bind_inv in Hrun as (c & u1 & _ & Hrun). apply s_bind_inv in Hrun as ([] & u2 & _ & Hrun).
    destruct (Z.eqb_spec (Z.of_nat i) INT_MAX) as [|Hne]; [done|]. apply s_bind_inv in Hrun as ([] & u3 & _ & Hrun).
    apply IH in Hrun; lia. }
  intros Hrun. unfold rehash in Hrun. apply s_bind_inv in Hrun as (old & u1 & [= <- <-] & Hrun).
  apply s_bind_inv in Hrun as ([] & u2 & _ & Hrun). apply s_bind_inv in Hrun as ([] & u3 & _ & Hrun).
  apply Hmove in Hrun; [|done]. cbn in Hrun. lia.
Qed.

(** C26: the table refines a finite map.  Any sequence of at most 2^28
    insertions, erasures and look-ups on a new table, with any hash function,
    any salt and any addresses of its blocks, gives the answers of the same
    sequence on a finite map and leaves a table that stands for the resulting
    map; or, at some operation on a key that is absent, there is no empty byte
    left and the search does not end.  [probes] groups are enough for a search
    as soon as there are more of them than operations; with the bound on the
    operations the counter of [rehash] stays an [int] ([rehash_overflows]). *)
Theorem table_refines_map {K V} `{Countable K} (hash : K -> Z) (addr : nat -> Z) (probes : nat) (salt : Z) (l : list (op (V := V))) :
  (length l <= probes)%nat -> Z.of_nat (length l) <= 2 ^ 28 ->
  (exists t, run hash addr probes l (CSwissMap_new salt) = OK ((model l ∅).1, t) /\
     repr hash addr t (model l ∅).2) \/
  (run hash addr probes l (CSwissMap_new salt) = Er OutOfFuel /\ exists l1 o l2 t, l = l1 ++ o :: l2 /\
     run hash addr probes l1 (CSwissMap_new salt) = OK ((model l1 ∅).1, t) /\
     repr hash addr t (model l1 ∅).2 /\ (model l1 ∅).2 !! key_of o = None /\ roomy t = false).
Proof.
  intros Hl Hmax. destruct (run_from hash addr probes 0 l _ _ (new_after hash addr salt) Hl Hmax)
    as [(t & Hrun & Haf)|Hend]; [left|by right].
  exists t. split; [done|]. apply Haf.
Qed.

(** C27: a table nothing is erased from never fills up: every sequence of at
    most 2^28 insertions and look-ups succeeds, through all the growing of the
    table that it takes. *)
Theorem inserts_always_succeed {K V} `{Countable K} (hash : K -> Z) (addr : nat -> Z) (probes : nat) (salt : Z)
    (l : list (op (V := V))) :
  forallb (fun o => negb (deletes o)) l = true -> (length l <= probes)%nat -> Z.of_nat (length l) <= 2 ^ 28 ->
  exists t, run hash addr probes l (CSwissMap_new salt) = OK ((model l ∅).1, t) /\ repr hash addr t (model l ∅).2.
Proof.
  intros Hd Hl Hmax. destruct (run_undeleted hash addr probes 0 l _ _ (new_after hash addr salt) eq_refl Hd Hl Hmax)
    as (t & Hrun & Haf & _).
  exists t. split; [done|]. apply Haf.
Qed.

(** Twenty keys and an identity hash: the table has grown five times. *)
Definition twenty : list (op (K := Z) (V := Z)) :=
  map (fun i => Ins (Z.of_nat i) (Z.of_nat (i * i))) (seq 0 20) ++ [Get 7; Get 20; Ins 7 0; Get 7].

Definition mixed : list (op (K := Z) (V := Z)) := [Ins 1 10; Ins 2 20; Del 1; Get 1; Get 2; Del 5].

Lemma table_refines_map_witness :
  (length mixed <= 10)%nat /\ Z.of_nat (length mixed) <= 2 ^ 28 /\ exists t,
  run id (fun _ => 0) 10 mixed (CSwissMap_new 77) =
    OK ([Done; Done; Erased true; Found None; Found (Some 20); Erased false], t) /\
  repr id (fun _ => 0) t (model mixed ∅).2.
Proof.
  split; [cbn; lia|]. split; [done|].
  destruct (table_refines_map id (fun _ => 0) 10 77 mixed) as [(t & Hrun & Hrepr)|[Hend _]]; [cbn; lia|done| |].
  - exists t. split; [|exact Hrepr]. etransitivity; [exact Hrun|]. done.
  - exfalso. by vm_compute in Hend.
Defined.

Lemma inserts_always_succeed_witness :
  forallb (fun o => negb (deletes o)) twenty = true /\ (length twenty <= 24)%nat /\ Z.of_nat (length twenty) <= 2 ^ 28 /\
  exists t, run id (fun _ => 0) 24 twenty (CSwissMap_new 5) = OK ((model twenty ∅).1, t) /\
    repr id (fun _ => 0) t (model twenty ∅).2.
Proof.
  split; [done|]. split; [cbn; lia|]. split; [done|].
  apply (inserts_always_succeed id (fun _ => 0) 24 5 twenty); [done|cbn; lia|done].
Defined.

(** Six keys, and then nine times one key goes and another comes *)
Definition churn : list (op (K := Z) (V := Z)) :=
  map (fun i => Ins (Z.of_nat i) 0) (seq 1 6) ++
  concat (map (fun i => [Del (Z.of_nat i); Ins (Z.of_nat (i + 6)) 0]) (seq 1 9)).

(** Erasing does not give empty bytes back.  After six insertions and nine
    exchanges of a key a table of fifteen slots holds six keys and has no empty
    byte: the search for any absent key runs for ever, whatever its budget. *)
Theorem churn_hangs : exists t,
  run id (fun _ => 0) 100 churn (CSwissMap_new 0) = OK ((model churn ∅).1, t) /\
  repr id (fun _ => 0) t (model churn ∅).2 /\ size (model churn ∅).2 = 6%nat /\ m_cap t = 15 /\
  forall probes, lookup_value id (fun _ => 0) probes 100 t = Er OutOfFuel.
Proof.
  destruct (run_from id (fun _ => 0) 100 0 churn _ _ (new_after id (fun _ => 0) 0)) as [(t & Hrun & Haf)|[Hend _]];
    [cbn; lia|done| |by vm_compute in Hend].
  pose proof (af_repr _ _ _ _ _ Haf) as Hrepr. exists t. split; [done|]. split; [done|]. split; [by vm_compute|].
  assert (m_cap t = 15 /\ roomy t = false) as [Hcap Hroom].
  { remember (run id (fun _ => 0) 100 churn (CSwissMap_new 0)) as r eqn:Hr. vm_compute in Hr. subst r.
    injection Hrun as <-. by vm_compute. }
  split; [done|]. intros probes. unfold lookup_value, find_fuel. apply s_bind_Er. cbn [find]. apply s_bind_Er.
  apply (exhausted id (fun _ => 0) probes t (model churn ∅).2); [done|by vm_compute|done].
Qed.

(** [foreach] with a function that never stops calls it once for each pair
    of the table, in some order, and stores the values it assigns. *)
Theorem foreach_visits {K V} `{Countable K} (hash : K -> Z) (addr : nat -> Z) (g : K -> V -> V) (t : CSwissMap K V) (m : gmap K V) :
  repr hash addr t m -> exists l t', foreach (visit g) [] t = OK (l, t') /\ l ≡ₚ map_to_list m /\
    repr hash addr t' (map_imap (fun k v => Some (g k v)) m).
Proof. intros (l & t' & Hrun & Hl & Hr & _)%(foreach_spec hash addr g). eauto. Qed.

(** A table with one pair, to apply it to *)
Lemma one_pair : exists t : CSwissMap Z Z, repr id (fun _ => 0) t {[1 := 10]}.
Proof.
  destruct (run_undeleted id (fun _ => 0) 10 0 [Ins 1 10] _ _ (new_after id (fun _ => 0) 0)) as (t & _ & Haf & _);
    [done|done|cbn; lia|done|]. exists t. apply Haf.
Qed.

Lemma foreach_visits_witness : exists t : CSwissMap Z Z, repr id (fun _ => 0) t {[1 := 10]} /\
  exists l t', foreach (visit (fun k v => k + v)) [] t = OK (l, t') /\ l ≡ₚ map_to_list {[1 := 10]} /\
    repr id (fun _ => 0) t' (map_imap (fun k v => Some (k + v)) {[1 := 10]}).
Proof. destruct one_pair as [t Ht]. exists t. split; [exact Ht|]. apply (foreach_visits id (fun _ => 0) (fun k v => k + v) t {[1 := 10]} Ht). Defined.
