(* ===== verification/SwissMain.v ===== *)
(** * The program of [cmake/swissmap/main.cc], and the end of a table

    Ten thousand texts are inserted, printed by [foreach] and erased, and the
    destructor runs.  The hash of an [int] is left open, as are the salt and the
    addresses of the blocks. *)

From S2P Require Import Prelude Words Bytes Monad Swiss SwissProbe SwissSpec SwissMap SwissRefine.

Local Open Scope Z_scope.
Local Open Scope st_scope.

(** [sprintf(buf, "str%d", i)] *)
Definition text (i : Z) : list Z := [115; 116; 114] ++ decimal 9 i.

Section main.
Variable hash : Z -> Z.
Variable addr : nat -> Z.
Variable probes : nat.
Notation Map := (CSwissMap Z (list Z)).
Notation ST := (ST Map).

Fixpoint insert_loop (l : list Z) : ST unit :=
  match l with
  | [] => s_ret tt
  | i :: l => insert hash addr probes i (text i) ;* insert_loop l
  end.
Fixpoint erase_loop (l : list Z) : ST unit :=
  match l with
  | [] => s_ret tt
  | i :: l => let* _ := erase hash addr probes i in erase_loop l
  end.

(** The pairs that are printed, and what the destructor does not destroy *)
Definition main (num : nat) : ST (list (Z * list Z) * list (Slot Z (list Z))) :=
  insert_loop (seqZ 1 (Z.of_nat num)) ;*
  let* l := foreach (visit (fun _ v => v)) [] in
  erase_loop (seqZ 1 (Z.of_nat num)) ;*
  let* x := CSwissMap_delete in
  s_ret (l, x).

End main.

(** ** Properties *)

(** What the two loops do to the map *)
Lemma insert_all l (m : gmap Z (list Z)) i : foldl (fun m i => <[i := text i]> m) m l !! i =
  if decide (i ∈ l) then Some (text i) else m !! i.
Proof.
  revert m. induction l as [|j l IH]; intros m; [done|]. cbn [foldl]. rewrite IH.
  destruct (decide (i ∈ l)) as [Hi|Hi]; [by rewrite decide_True by by right|].
  destruct (decide (i = j)) as [->|Hne]; [by rewrite lookup_insert_eq, decide_True by by left|].
  by rewrite lookup_insert_ne, decide_False by set_solver.
Qed.

Lemma delete_all l (m : gmap Z (list Z)) i : foldl (fun m i => delete i m) m l !! i = if decide (i ∈ l) then None else m !! i.
Proof.
  revert m. induction l as [|j l IH]; intros m; [done|]. cbn [foldl]. rewrite IH.
  destruct (decide (i ∈ l)) as [Hi|Hi]; [by rewrite decide_True by by right|].
  destruct (decide (i = j)) as [->|Hne]; [by rewrite lookup_delete_eq, decide_True by by left|].
  by rewrite lookup_delete_ne, decide_False by set_solver.
Qed.

Section runs.
Variable hash : Z -> Z.
Variable addr : nat -> Z.
Variable probes : nat.
Notation Map := (CSwissMap Z (list Z)).
Notation insert_loop := (insert_loop hash addr probes).
Notation erase_loop := (erase_loop hash addr probes).

Lemma insert_loop_spec l n t m : after hash addr n t m -> unerased t = true ->
  (n + length l <= probes)%nat -> Z.of_nat (n + length l) <= 2 ^ 28 ->
  exists t', insert_loop l t = OK (tt, t') /\
    after hash addr (n + length l) t' (foldl (fun m i => <[i := text i]> m) m l) /\ unerased t' = true.
Proof.
  revert n t m. induction l as [|i l IH]; intros n t m Haf Hu Hn Hmax; cbn [length] in Hn, Hmax.
  { exists t. rewrite Nat.add_0_r. done. }
  pose proof (exec_step hash addr probes n t m (Ins i (text i)) Haf ltac:(lia) ltac:(lia)) as Hstep.
  rewrite decide_True in Hstep by (right; by eapply unerased_roomy, Hu; apply Haf).
  destruct Hstep as (t1 & Hexec & Haf1 & Hu1). cbn [exec model1 fst snd] in *.
  apply s_bind_inv in Hexec as ([] & t1' & Hins & [= ->]).
  destruct (IH (S n) t1 _ Haf1 (Hu1 eq_refl Hu) ltac:(lia) ltac:(lia)) as (t2 & Hrun & Haf2 & Hu2).
  exists t2. cbn [insert_loop foldl length]. rewrite (s_bind_OK _ _ _ _ _ Hins), Hrun. by rewrite Nat.add_succ_r.
Qed.

Lemma erase_loop_spec l t m : repr hash addr t m -> NoDup l -> (forall i, i ∈ l -> is_Some (m !! i)) ->
  m_cap t + 1 <= 16 * Z.of_nat probes ->
  exists t', erase_loop l t = OK (tt, t') /\ repr hash addr t' (foldl (fun m i => delete i m) m l).
Proof.
  revert t m. induction l as [|i l IH]; intros t m Hr Hnd Hin Hcap; [by exists t|].
  apply NoDup_cons in Hnd as [Hi Hnd]. destruct (Hin i) as [v Hv]; [by left|].
  destruct (erase_found hash addr probes t m i v Hr Hv Hcap) as (t1 & Hrun & Hr1 & Hcap1).
  destruct (IH t1 (delete i m) Hr1 Hnd) as (t2 & Hrun2 & Hr2); [|lia|].
  { intros j Hj. rewrite lookup_delete_ne by (intros ->; done). apply Hin. by right. }
  exists t2. cbn [erase_loop foldl]. by rewrite (s_bind_OK _ _ _ _ _ Hrun).
Qed.

(** An empty table has nothing to destroy. *)
Lemma empty_left_over (t : Map) : repr hash addr t ∅ -> List.filter left_over (m_slot t) = [].
Proof.
  intros (C & Hwf & Hcomplete & Hholds & _). destruct (wf_shape _ _ _ _ Hwf) as (e & _ & _ & _ & _ & Hslots).
  assert (forall x, x ∈ m_slot t -> left_over x = false) as Hnone; [|revert Hnone; clear; induction (m_slot t) as [|x l IH]; [done|];
    intros Hnone; cbn; rewrite (Hnone x) by left; apply IH; intros y Hy; apply Hnone; by right].
  intros x (i & Hx)%list_elem_of_lookup.
  destruct (lookup_lt_is_Some_2 C i) as [c Hc]; [apply lookup_lt_Some in Hx; lia|].
  destruct (wf_slots _ _ _ _ Hwf i c Hc) as [[_ Hx']|(Hpos & k & w & Hx' & _)]; [by assert (x = MkSlot None None) as -> by congruence|exfalso].
  destruct (Hcomplete i k) as [v Hv]; [by exists c, (MkSlot (Some k) w)|].
  assert (holds t C k v) as H by by exists i, c. apply Hholds in H. by rewrite lookup_empty in H.
Qed.


End runs.

(** C29: for any hash function the program ends, however its erasures leave the
    table: it prints each pair once, every erasure finds its key, the table
    stands for the empty map at the end, and the destructor finds nothing in it
    that it would have to destroy. *)
Theorem swiss_main_runs (hash : Z -> Z) (addr : nat -> Z) (probes : nat) (salt : Z) (num : nat) :
  (num < probes)%nat -> Z.of_nat num <= 2 ^ 28 ->
  exists l t, main hash addr probes num (CSwissMap_new salt) = OK ((l, []), t) /\
    l ≡ₚ map (fun i => (i, text i)) (seqZ 1 (Z.of_nat num)).
Proof.
  intros Hnum Hmax. set (keys := seqZ 1 (Z.of_nat num)). assert (length keys = num) as Hlen by (unfold keys; rewrite length_seqZ; lia).
  assert (NoDup keys) as Hnd by apply NoDup_seqZ.
  destruct (insert_loop_spec hash addr probes keys 0 _ _ (new_after hash addr salt) eq_refl) as (t1 & Hins & [Hr1 _ Hcap1] & _);
    [lia|lia|]. set (m1 := foldl _ _ _) in *.
  destruct (foreach_spec hash addr (fun _ v => v) t1 m1 Hr1) as (l & t2 & Hfor & Hl & Hr2 & Hcap2).
  assert (map_imap (fun _ v => Some v) m1 = m1) as Him by (apply map_eq; intros i; rewrite map_lookup_imap; by destruct (m1 !! i)).
  rewrite Him in Hr2.
  destruct (erase_loop_spec hash addr probes keys t2 m1 Hr2 Hnd) as (t3 & Her & Hr3).
  { intros i Hi. unfold m1. rewrite insert_all, decide_True by done. by eexists. }
  { lia. }
  assert (foldl (fun m i => delete i m) m1 keys = ∅) as Hempty.
  { apply map_eq. intros i. rewrite delete_all, lookup_empty. destruct (decide (i ∈ keys)) as [|Hi]; [done|].
    unfold m1. by rewrite insert_all, decide_False by done. }
  rewrite Hempty in Hr3. exists l. eexists. split.
  - unfold main. fold keys. rewrite (s_bind_OK _ _ _ _ _ Hins), (s_bind_OK _ _ _ _ _ Hfor), (s_bind_OK _ _ _ _ _ Her).
    unfold CSwissMap_delete, s_bind, s_get, s_mod, s_ret. rewrite (empty_left_over hash addr t3 Hr3). reflexivity.
  - rewrite Hl. apply NoDup_Permutation; [apply NoDup_map_to_list| |].
    + assert (Inj (=) (=) (fun i : Z => (i, text i))) as Hinj by (by intros i j [= ->]).
      by apply (NoDup_fmap_2 (fun i => (i, text i))).
    + intros [i v]. rewrite elem_of_map_to_list. unfold m1. rewrite insert_all.
      change (map ?f keys) with (f <$> keys). rewrite list_elem_of_fmap. destruct (decide (i ∈ keys)) as [Hi|Hi].
      * split; [intros [= <-]; by exists i|intros (j & [= -> ->] & _); done].
      * rewrite lookup_empty. split; [done|intros (j & [= -> ->] & Hj); done].
Qed.

(** With the hash of the usual libraries, the number itself *)
Lemma swiss_main_runs_witness : exists l t,
  main id (fun _ => 0) 10001 10000 (CSwissMap_new 0) = OK ((l, []), t) /\
  l ≡ₚ map (fun i => (i, text i)) (seqZ 1 (Z.of_nat 10000)).
Proof. apply swiss_main_runs; [apply Nat.ltb_lt|apply Z.leb_le]; by vm_compute. Defined.
