(* ===== verification/Iocp.v ===== *)
(** * The completion-port server [cmake/iocp/server.c]

    A main thread accepts connections, worker threads take completion packets
    off one queue.  Each connection has one [IoData] block, which is handed
    from the system (while an operation is under way) to the queue (when it has
    ended) to the worker that takes the packet, and back.  A step of the
    program is what one thread does between two calls that wait; the system's
    part, completing operations, is a step as well.

    Of the fields of [IoData], [Overlapped] and [nBytes] are only written, and
    left out.  The answers of the calls of the system are parameters. *)

From stdpp Require Import gmap.
From S2P Require Import Prelude Words Monad.

Local Open Scope Z_scope.
Local Open Scope st_scope.

Inductive IoKind : Type := IoREAD | IoWRITE.

(** A byte of a block from [malloc] is indeterminate until it is written. *)
Record IoData : Type := MkIo {
  buf : option (list (option Z));   (* [wsabuf.buf], the block it points to *)
  len : Z;                          (* [wsabuf.len] *)
  opCode : IoKind;
  cliSock : nat
}.

Definition set_buf (d : IoData) l := MkIo (Some l) (len d) (opCode d) (cliSock d).
Definition set_opCode (d : IoData) k := MkIo (buf d) (len d) k (cliSock d).

(** A completion packet: the number of bytes, and the block or null *)
Definition packet : Type := (Z * option nat)%type.

Inductive worker : Type :=
  | Waiting                         (* in [GetQueuedCompletionStatus] *)
  | Handling (k : packet)
  | Exited.

Record St : Type := MkSt {
  ios : gmap nat IoData;            (* the live blocks *)
  next : nat;
  socks : gset nat;                 (* the open sockets of clients *)
  pending : gset nat;               (* the operations under way *)
  queue : list packet;
  workers : list worker;
  IsExit : bool;
  finished : bool;                  (* the main thread has left [NetWork] *)
  printed : list (nat * list Z);    (* the lines of [PostWrite] *)
  sent : list (nat * list (option Z))  (* what [WSASend] was given *)
}.

Notation ST := (ST St).

Definition set_ios (s : St) x := MkSt x (next s) (socks s) (pending s) (queue s) (workers s) (IsExit s) (finished s) (printed s) (sent s).
Definition set_next (s : St) x := MkSt (ios s) x (socks s) (pending s) (queue s) (workers s) (IsExit s) (finished s) (printed s) (sent s).
Definition set_socks (s : St) x := MkSt (ios s) (next s) x (pending s) (queue s) (workers s) (IsExit s) (finished s) (printed s) (sent s).
Definition set_pending (s : St) x := MkSt (ios s) (next s) (socks s) x (queue s) (workers s) (IsExit s) (finished s) (printed s) (sent s).
Definition set_queue (s : St) x := MkSt (ios s) (next s) (socks s) (pending s) x (workers s) (IsExit s) (finished s) (printed s) (sent s).
Definition set_workers (s : St) x := MkSt (ios s) (next s) (socks s) (pending s) (queue s) x (IsExit s) (finished s) (printed s) (sent s).
Definition set_exit (s : St) x y := MkSt (ios s) (next s) (socks s) (pending s) (queue s) (workers s) x y (printed s) (sent s).
Definition set_printed (s : St) x := MkSt (ios s) (next s) (socks s) (pending s) (queue s) (workers s) (IsExit s) (finished s) x (sent s).
Definition set_sent (s : St) x := MkSt (ios s) (next s) (socks s) (pending s) (queue s) (workers s) (IsExit s) (finished s) (printed s) x.

(** ** The functions of the program *)

Definition get_io (p : nat) : ST IoData :=
  let* m := s_get ios in s_some OutOfBounds (m !! p).
Definition put_io (p : nat) (d : IoData) : ST unit := s_mod (fun s => set_ios s (<[p := d]> (ios s))).

(** [closesocket]; closing one that is not open is an error here, since the
    number may belong to another connection by then. *)
Definition closesocket (k : nat) : ST unit :=
  let* ks := s_get socks in
  if decide (k ∈ ks) then s_mod (fun s => set_socks s (socks s ∖ {[k]})) else s_fail BadFree.

Definition CloseConn (p : nat) : ST unit :=
  let* d := get_io p in
  closesocket (cliSock d) ;*
  s_mod (fun s => set_ios s (delete p (ios s))).

(** An operation on the block is under way. *)
Definition begin (p : nat) : ST unit := s_mod (fun s => set_pending s ({[p]} ∪ pending s)).

(** [ok]: the call of [WSARecv] or [WSASend] did not fail at once. *)
Definition PostRead (p : nat) (ok : bool) : ST bool :=
  let* d := get_io p in
  put_io p (set_opCode d IoREAD) ;*
  if ok then begin p ;* s_ret true else CloseConn p ;* s_ret false.

(** [printf("%s")] reads up to the first null byte. *)
Fixpoint c_string (l : list (option Z)) : res (list Z) :=
  match l with
  | [] => Er OutOfBounds
  | None :: _ => Er Uninit
  | Some c :: l =>
      if c =? 0 then OK [] else
      match c_string l with OK s => OK (c :: s) | Er e => Er e end
  end.

Definition PostWrite (p : nat) (ok : bool) : ST bool :=
  let* d := get_io p in
  put_io p (set_opCode d IoWRITE) ;*
  let* l := s_some NullDeref (buf d) in
  let* t := (fun s => match c_string l with OK t => OK (t, s) | Er e => Er e end) in
  s_mod (fun s => set_printed s (printed s ++ [(cliSock d, t)])) ;*
  if ok then
    s_mod (fun s => set_sent s (sent s ++ [(cliSock d, take (Z.to_nat (len d)) l)])) ;*
    begin p ;* s_ret true
  else CloseConn p ;* s_ret false.

(** The loop body of [WorkerThread] after [GetQueuedCompletionStatus]; [true]
    for [break] *)
Definition WorkerThread_body (k : packet) (ok : bool) : ST bool :=
  let '(dwIoSize, ctx) := k in
  if dwIoSize =? 0 then
    match ctx with
    | None => s_ret true
    | Some p => CloseConn p ;* s_ret false
    end
  else
    let* p := s_some NullDeref ctx in
    let* d := get_io p in
    match opCode d with
    | IoREAD =>
        let* l := s_some NullDeref (buf d) in
        (if (0 <=? dwIoSize) && (dwIoSize <? Z.of_nat (length l))
         then put_io p (set_buf d (<[Z.to_nat dwIoSize := Some 0]> l)) else s_fail OutOfBounds) ;*
        PostWrite p ok ;* s_ret false
    | IoWRITE => PostRead p ok ;* s_ret false
    end.

(** The loop body of [NetWork]; the answers say whether there is a client,
    whether its socket could be bound to the port, whether the two calls of
    [malloc] and the first [WSARecv] succeed. *)
Definition NetWork_accept (client bound mem membuf ok : bool) : ST unit :=
  if negb client then s_ret tt else
  let* n := s_get next in
  s_mod (fun s => set_socks (set_next s (S n)) ({[n]} ∪ socks s)) ;*
  if negb bound then closesocket n else
  if negb mem then closesocket n else
  put_io n (MkIo (if membuf then Some (replicate 1024 None) else None) 1024 IoREAD n) ;*
  PostRead n ok ;* s_ret tt.

(** The end of [NetWork] *)
Definition NetWork_exit : ST unit :=
  s_mod (fun s => set_queue s (queue s ++ [(0, None)])) ;*
  s_mod (fun s => set_exit s (IsExit s) true).

Definition OnSignal : ST unit := s_mod (fun s => set_exit s true (finished s)).

(** *** The start of [NetWork]

    What the process holds: Winsock started, the listening socket open and set
    to return at once, the completion port, and the worker threads *)
Record held : Type := MkHeld { wsa : bool; listener : bool; nonblocking : bool; port : bool; created : nat }.

(** The answers of the system; one for each processor of [CreateThread] *)
Record start_answers : Type := MkStart {
  a_startup : bool; a_socket : bool; a_bind : bool; a_listen : bool; a_port : bool;
  a_threads : list bool; a_ioctl : bool
}.

(** The loop of [CreateThread] *)
Fixpoint create_threads (l : list bool) (n : nat) : nat :=
  match l with
  | [] => n
  | ok :: l => create_threads l (if ok : bool then S n else n)
  end.

(** Whether it goes on behind the loop of [CreateThread], and what is held then.
    The result of [WSASocket] is not checked; [bind] fails on a socket that is
    none. *)
Definition NetWork_threads (a : start_answers) : bool * held :=
  if negb (a_startup a) then (false, MkHeld false false false false 0) else
  if negb (a_socket a && a_bind a) then (false, MkHeld true (a_socket a) false false 0) else
  if negb (a_listen a) then (false, MkHeld true true false false 0) else
  if negb (a_port a) then (false, MkHeld true true false false 0) else
  (true, MkHeld true true false true (create_threads (a_threads a) 0)).

(** A socket that cannot be set is only reported. *)
Definition SetNonblocking (ok : bool) (h : held) : held :=
  MkHeld (wsa h) (listener h) (nonblocking h || ok) (port h) (created h).

Definition NetWork_setup (a : start_answers) : bool * held :=
  let '(ok, h) := NetWork_threads a in
  if ok then (true, SetNonblocking (a_ioctl a) h) else (false, h).

(** [closesocket] and [WSACleanup] at the end; the port is not closed. *)
Definition NetWork_cleanup (h : held) : held := MkHeld false false false (port h) (created h).

(** [NetWork] with [n] worker threads created *)
Definition NetWork_start (n : nat) : St := MkSt ∅ 0 ∅ ∅ [] (replicate n Waiting) false false [] [].

(** ** Steps *)

Definition after_step {A} (c : ST A) (s : St) : res St :=
  match c s with OK (_, s') => OK s' | Er e => Er e end.

Definition handle (i : nat) (k : packet) (ok : bool) : ST unit :=
  let* b := WorkerThread_body k ok in
  s_mod (fun s => set_workers s (<[i := if b : bool then Exited else Waiting]> (workers s))).

(** The system ends an operation: its packet is queued. *)
Definition complete (p : nat) (n : Z) (s : St) : St :=
  set_queue (set_pending s (pending s ∖ {[p]})) (queue s ++ [(n, Some p)]).

Inductive step (s : St) : res St -> Prop :=
  | step_accept client bound mem membuf ok :
      IsExit s = false -> finished s = false ->
      (ok = true -> membuf = true) ->           (* [WSARecv] into a null buffer fails *)
      step s (after_step (NetWork_accept client bound mem membuf ok) s)
  | step_exit :
      IsExit s = true -> finished s = false -> step s (after_step NetWork_exit s)
  | step_signal : step s (after_step OnSignal s)
  | step_received p d l (bytes : list Z) :
      p ∈ pending s -> ios s !! p = Some d -> opCode d = IoREAD -> buf d = Some l ->
      Z.of_nat (length bytes) <= len d ->
      step s (OK (complete p (Z.of_nat (length bytes))
        (set_ios s (<[p := set_buf d (map Some bytes ++ drop (length bytes) l)]> (ios s)))))
  | step_sent p d n :
      p ∈ pending s -> ios s !! p = Some d -> opCode d = IoWRITE -> 0 < n <= len d ->
      step s (OK (complete p n s))
  | step_failed p : p ∈ pending s -> step s (OK (complete p 0 s))
  | step_take i k q :
      workers s !! i = Some Waiting -> queue s = k :: q ->
      step s (OK (set_workers (set_queue s q) (<[i := Handling k]> (workers s))))
  | step_handle i k ok :
      workers s !! i = Some (Handling k) -> step s (after_step (handle i k ok) s).

Inductive reachable (n : nat) : St -> Prop :=
  | reach_start : reachable n (NetWork_start n)
  | reach_step s s' : reachable n s -> step s (OK s') -> reachable n s'.
