(* ===== verification/IocpSafe.v ===== *)
(** * The completion-port server is safe but for full buffers

    Every live block belongs to one party at a time: the system, the queue or
    a worker.  From that it follows that whatever the clients send and in
    whatever order operations end and threads run, no block is used after it
    is freed and no socket is closed twice; the one access that can go wrong is
    the null byte behind a message that fills the buffer. *)

From stdpp Require Import gmap.
From S2P Require Import Prelude Words Monad Iocp.

Local Open Scope Z_scope.
Local Open Scope st_scope.

(** ** Blocks, sockets and their owners *)

(** The live blocks with their sockets *)
Definition pairs (m : gmap nat IoData) : list (nat * nat) :=
  (fun x => (x.1, cliSock x.2)) <$> map_to_list m.

Lemma pairs_insert m p d : m !! p = None -> pairs (<[p := d]> m) ≡ₚ (p, cliSock d) :: pairs m.
Proof. intros Hp. unfold pairs. by rewrite map_to_list_insert. Qed.

Lemma pairs_delete m p d : m !! p = Some d -> pairs m ≡ₚ (p, cliSock d) :: pairs (delete p m).
Proof. intros Hp. unfold pairs. by rewrite <- (map_to_list_delete m p d). Qed.

Lemma pairs_update m p d d' : m !! p = Some d -> cliSock d' = cliSock d -> pairs (<[p := d']> m) ≡ₚ pairs m.
Proof.
  intros Hp Hd. rewrite <- insert_delete_eq, pairs_insert by apply lookup_delete_eq.
  by rewrite Hd, <- pairs_delete.
Qed.

Lemma elem_of_pairs m p : p ∈ (pairs m).*1 <-> is_Some (m !! p).
Proof.
  unfold pairs. rewrite <- list_fmap_compose, list_elem_of_fmap. split.
  - intros ([q d] & -> & Hq). cbn. exists d. by apply elem_of_map_to_list.
  - intros [d Hd]. exists (p, d). split; [done|]. by apply elem_of_map_to_list.
Qed.

Lemma pairs_NoDup m : NoDup (pairs m).*1.
Proof.
  unfold pairs. rewrite <- list_fmap_compose.
  apply (NoDup_fmap_fst (map_to_list m)); [|apply NoDup_map_to_list].
  intros p d d' Hd Hd'. apply elem_of_map_to_list in Hd, Hd'. congruence.
Qed.

(** [R] lists the blocks that the queue and the workers own. *)
Record owned (R : list nat) (s : St) : Prop := {
  ow_blocks : R ++ elements (pending s) ≡ₚ (pairs (ios s)).*1;
  ow_socks : (pairs (ios s)).*2 ≡ₚ elements (socks s);
  ow_next : forall p d, ios s !! p = Some d -> (p < next s /\ cliSock d < next s)%nat
}.

Lemma owned_live R s p : owned (p :: R) s -> exists d, ios s !! p = Some d.
Proof. intros [Hb _ _]. apply elem_of_pairs. rewrite <- Hb. set_solver. Qed.

Lemma owned_NoDup R s : owned R s -> NoDup (R ++ elements (pending s)).
Proof. intros [Hb _ _]. rewrite Hb. apply pairs_NoDup. Qed.

Lemma owned_perm R R' s : R ≡ₚ R' -> owned R s -> owned R' s.
Proof. intros HR [H1 H2 H3]. split; [by rewrite <- HR|done|done]. Qed.

(** What a function does not change *)
Definition frame (s s' : St) : Prop :=
  next s' = next s /\ queue s' = queue s /\ workers s' = workers s /\ IsExit s' = IsExit s /\ finished s' = finished s.

Lemma get_io_at s p d : ios s !! p = Some d -> get_io p s = OK (d, s).
Proof. intros Hp. unfold get_io. erewrite s_bind_OK by reflexivity. by rewrite Hp. Qed.

Lemma CloseConn_spec R s p : owned (p :: R) s -> exists s', CloseConn p s = OK (tt, s') /\
  owned R s' /\ frame s s' /\ ios s' = delete p (ios s) /\ pending s' = pending s /\
  printed s' = printed s /\ sent s' = sent s.
Proof.
  intros How. destruct (owned_live R s p How) as [d Hd]. destruct How as [Hb Hs Hn].
  pose proof (pairs_delete _ _ _ Hd) as Hp. rewrite Hp in Hb, Hs. cbn in Hb, Hs.
  assert (cliSock d ∈ socks s) as Hin by (apply elem_of_elements; rewrite <- Hs; set_solver).
  unfold CloseConn. rewrite (s_bind_OK _ _ _ _ _ (get_io_at s p d Hd)).
  assert (closesocket (cliSock d) s = OK (tt, set_socks s (socks s ∖ {[cliSock d]}))) as Hclose.
  { unfold closesocket. erewrite s_bind_OK by reflexivity. by rewrite decide_True by done. }
  rewrite (s_bind_OK _ _ _ _ _ Hclose). eexists. split; [reflexivity|]. split; [|done].
  split; cbn.
  - by apply Permutation_cons_inv in Hb.
  - rewrite (union_difference_singleton_L (cliSock d) (socks s)) in Hs by done.
    rewrite elements_union_singleton in Hs by set_solver. by apply Permutation_cons_inv in Hs.
  - intros q d' Hq. apply lookup_delete_Some in Hq as [_ Hq]. by apply Hn.
Qed.

Lemma owned_update R s p d d' : owned R s -> ios s !! p = Some d -> cliSock d' = cliSock d ->
  owned R (set_ios s (<[p := d']> (ios s))).
Proof.
  intros [Hb Hs Hn] Hd Hk. pose proof (pairs_update _ _ _ _ Hd Hk) as Hp. split; cbn.
  - by rewrite Hp.
  - by rewrite Hp.
  - intros q e Hq. apply lookup_insert_Some in Hq as [[<- <-]|[_ Hq]]; [rewrite Hk|]; by eapply Hn.
Qed.

Lemma begin_spec R s p : owned (p :: R) s -> owned R (set_pending s ({[p]} ∪ pending s)).
Proof.
  intros How. pose proof (owned_NoDup _ _ How) as Hnd. apply NoDup_cons in Hnd as [Hp _].
  destruct How as [Hb Hs Hn]. split; [|done|done]. cbn. rewrite elements_union_singleton by set_solver.
  by rewrite <- Permutation_middle.
Qed.

Lemma PostRead_spec R s p d ok : owned (p :: R) s -> ios s !! p = Some d -> exists b s',
  PostRead p ok s = OK (b, s') /\ owned R s' /\ frame s s' /\ printed s' = printed s /\ sent s' = sent s /\
  ios s' = if ok then <[p := set_opCode d IoREAD]> (ios s) else delete p (ios s).
Proof.
  intros How Hd. unfold PostRead. rewrite (s_bind_OK _ _ _ _ _ (get_io_at s p d Hd)).
  erewrite s_bind_OK by reflexivity.
  pose proof (owned_update _ s p d (set_opCode d IoREAD) How Hd eq_refl) as Hup. destruct ok.
  - erewrite s_bind_OK by reflexivity. do 2 eexists. split; [reflexivity|].
    split; [by apply (begin_spec R _ p) in Hup|]. done.
  - destruct (CloseConn_spec _ _ _ Hup) as (s' & Hrun & How' & Hf & Hios & _ & Hpr & Hse).
    rewrite (s_bind_OK _ _ _ _ _ Hrun). do 2 eexists. split; [reflexivity|]. split; [done|].
    split; [done|]. split; [done|]. split; [done|]. rewrite Hios. cbn. apply delete_insert_eq.
Qed.

Lemma PostWrite_spec R s p d l t ok : owned (p :: R) s -> ios s !! p = Some d -> buf d = Some l -> c_string l = OK t ->
  exists b s', PostWrite p ok s = OK (b, s') /\ owned R s' /\ frame s s' /\
  printed s' = printed s ++ [(cliSock d, t)] /\
  sent s' = sent s ++ (if ok then [(cliSock d, take (Z.to_nat (len d)) l)] else []) /\
  ios s' = if ok then <[p := set_opCode d IoWRITE]> (ios s) else delete p (ios s).
Proof.
  intros How Hd Hl Ht. unfold PostWrite. rewrite (s_bind_OK _ _ _ _ _ (get_io_at s p d Hd)).
  erewrite s_bind_OK by reflexivity. rewrite Hl. erewrite s_bind_OK by reflexivity.
  erewrite s_bind_OK by (cbv beta; rewrite Ht; reflexivity). erewrite s_bind_OK by reflexivity.
  pose proof (owned_update _ s p d (set_opCode d IoWRITE) How Hd eq_refl) as Hup. destruct ok.
  - do 2 (erewrite s_bind_OK by reflexivity). do 2 eexists. split; [reflexivity|].
    split; [|done]. apply (begin_spec R _ p) in Hup. by destruct Hup.
  - destruct (CloseConn_spec R (set_printed (set_ios s (<[p:=set_opCode d IoWRITE]> (ios s)))
      (printed s ++ [(cliSock d, t)])) p) as (s' & Hrun & How' & Hf & Hios & _ & Hpr & Hse); [by destruct Hup|].
    erewrite s_bind_OK by exact Hrun. do 2 eexists. split; [reflexivity|]. split; [done|].
    split; [done|]. split; [done|]. split; [by rewrite app_nil_r|]. rewrite Hios. cbn. apply delete_insert_eq.
Qed.

(** ** The texts [PostWrite] prints *)

(** The first [n] bytes have been written. *)
Definition written (l : list (option Z)) (n : Z) : Prop := forall i : nat, Z.of_nat i < n -> exists c, l !! i = Some (Some c).

Lemma c_string_ends l n : written l (Z.of_nat n) -> l !! n = Some (Some 0) -> exists t, c_string l = OK t.
Proof.
  revert l. induction n as [|n IH]; intros l Hw Hn.
  - destruct l as [|x l]; [done|]. injection Hn as ->. by exists [].
  - destruct l as [|x l]; [done|]. destruct (Hw 0%nat) as [c Hc]; [lia|]. injection Hc as ->. cbn [c_string].
    destruct (c =? 0); [by exists []|]. destruct (IH l) as [t ->]; [|done|by eexists].
    intros i Hi. apply (Hw (S i)). lia.
Qed.

Lemma c_string_text t l : 0 ∉ t -> c_string (map Some t ++ Some 0 :: l) = OK t.
Proof.
  induction t as [|c t IH]; intros Hz; [done|]. cbn [map app c_string].
  rewrite (proj2 (Z.eqb_neq c 0)) by (intros ->; apply Hz; left). rewrite IH; [done|]. intros ?. apply Hz. by right.
Qed.

Lemma written_bytes l n : (n <= length l)%nat -> written l (Z.of_nat n) ->
  exists bytes rest, l = map Some bytes ++ rest /\ length bytes = n.
Proof.
  revert l. induction n as [|n IH]; intros l Hl Hw; [by exists [], l|].
  destruct l as [|x l]; [cbn in Hl; lia|]. destruct (Hw 0%nat) as [c Hc]; [lia|]. injection Hc as ->.
  destruct (IH l) as (bytes & rest & -> & Hb); [cbn in Hl; lia|intros i Hi; apply (Hw (S i)); lia|].
  exists (c :: bytes), rest. split; [done|]. cbn. by rewrite Hb.
Qed.

(** ** The invariant *)

Definition io_ok (d : IoData) : Prop := len d = 1024 /\ exists l, buf d = Some l /\ length l = 1024%nat.

(** What a packet says about its block *)
Definition packet_ok (m : gmap nat IoData) (k : packet) : Prop :=
  match k with
  | (n, None) => n = 0
  | (n, Some p) => 0 <= n <= 1024 /\
      forall d l, m !! p = Some d -> opCode d = IoREAD -> buf d = Some l -> written l n
  end.

Definition handled (w : worker) : option packet := match w with Handling k => Some k | _ => None end.
Definition packets (s : St) : list packet := queue s ++ omap handled (workers s).

(** The packets without a block, and the workers that have left *)
Definition farewell (k : packet) : Z := match k.2 with None => 1 | Some _ => 0 end.
Definition gone (w : worker) : Z := match w with Exited => 1 | _ => 0 end.
Definition farewells (s : St) : Z := zsum farewell (packets s) + zsum gone (workers s).

Record inv (s : St) : Prop := {
  inv_owned : owned (omap snd (packets s)) s;
  inv_io : map_Forall (fun _ => io_ok) (ios s);
  inv_packet : Forall (packet_ok (ios s)) (packets s);
  inv_farewell : farewells s = Z.b2z (finished s);
  inv_sent : Forall (fun x => length x.2 = 1024%nat) (sent s)
}.

Lemma omap_insert {A B} (f : A -> option B) (l : list A) i x y : l !! i = Some x ->
  omap f [x] ++ omap f (<[i := y]> l) ≡ₚ omap f [y] ++ omap f l.
Proof.
  revert i. induction l as [|z l IH]; intros [|i] Hi; [done..| |].
  - injection Hi as ->. cbn. destruct (f x), (f y); cbn; try done; apply Permutation_swap.
  - specialize (IH i Hi). cbn [omap list_omap insert list_insert] in *. destruct (f z) as [b|]; [|exact IH].
    rewrite <- !Permutation_middle. by rewrite IH.
Qed.

Lemma zsum_perm {A} (f : A -> Z) l l' : l ≡ₚ l' -> zsum f l = zsum f l'.
Proof. induction 1; cbn; lia. Qed.

(** A worker takes a packet or gives it up. *)
Lemma packets_take s i k q : workers s !! i = Some Waiting -> queue s = k :: q ->
  packets (set_workers (set_queue s q) (<[i := Handling k]> (workers s))) ≡ₚ packets s.
Proof.
  intros Hi Hq. unfold packets. rewrite Hq. cbn [queue workers set_workers set_queue].
  pose proof (omap_insert handled (workers s) i Waiting (Handling k) Hi) as Hp. cbn in Hp.
  rewrite Hp. by rewrite <- Permutation_middle.
Qed.

Lemma packets_done s i k w : workers s !! i = Some (Handling k) -> handled w = None ->
  packets s ≡ₚ k :: packets (set_workers s (<[i := w]> (workers s))).
Proof.
  intros Hi Hw. unfold packets. cbn [queue workers set_workers].
  pose proof (omap_insert handled (workers s) i (Handling k) w Hi) as Hp. cbn in Hp. rewrite Hw in Hp. cbn in Hp.
  rewrite <- Hp. by rewrite <- Permutation_middle.
Qed.

Lemma packet_ok_same (m m' : gmap nat IoData) k : (forall p, k.2 = Some p -> m' !! p = m !! p) -> packet_ok m k -> packet_ok m' k.
Proof. destruct k as [n [p|]]; [|done]. cbn. intros Hm. by rewrite (Hm p). Qed.

Lemma inv_start n : inv (NetWork_start n).
Proof.
  assert (omap handled (replicate n Waiting) = []) as Hw by (induction n; done).
  assert (zsum gone (replicate n Waiting) = 0) as Hg by (by apply zsum_replicate).
  split; cbn.
  - unfold packets. cbn. rewrite Hw.
    assert (pairs ∅ = []) as Hp by (unfold pairs; by rewrite map_to_list_empty).
    split; cbn; rewrite ?Hp; [by rewrite elements_empty..|].
    intros p d Hd. by rewrite lookup_empty in Hd.
  - apply map_Forall_empty.
  - unfold packets. cbn. by rewrite Hw.
  - unfold farewells, packets. cbn. rewrite Hw. cbn. by rewrite Hg.
  - done.
Qed.

(** A step that changes blocks no packet names *)
Lemma packets_frame s s' : frame s s' -> packets s' = packets s /\ farewells s' = farewells s.
Proof. intros (_ & Hq & Hw & _). unfold farewells, packets. by rewrite Hq, Hw. Qed.

Lemma named_live s k p : inv s -> k ∈ packets s -> k.2 = Some p -> is_Some (ios s !! p).
Proof.
  intros [Hown _ _ _ _] Hk Hp. apply elem_of_pairs. rewrite <- (ow_blocks _ _ Hown).
  apply elem_of_app. left. apply list_elem_of_omap. by exists k.
Qed.

(** *** The main thread *)

Lemma inv_accept s client bound mem membuf ok : inv s -> (ok = true -> membuf = true) ->
  exists s', NetWork_accept client bound mem membuf ok s = OK (tt, s') /\ inv s'.
Proof.
  intros Hinv Hok. unfold NetWork_accept. destruct client; cbn [negb]; [|by exists s].
  erewrite s_bind_OK by reflexivity. erewrite s_bind_OK by reflexivity.
  pose proof Hinv as [Hown Hio Hpk Hfw Hsent]. set (n := next s) in *.
  set (s1 := set_socks (set_next s (S n)) ({[n]} ∪ socks s)).
  assert (ios s !! n = None) as Hfresh.
  { destruct (ios s !! n) eqn:Hn; [|done]. apply (ow_next _ _ Hown) in Hn. lia. }
  assert (n ∉ socks s) as Hsock.
  { intros Hin. apply elem_of_elements in Hin. rewrite <- (ow_socks _ _ Hown) in Hin. unfold pairs in Hin.
    rewrite <- list_fmap_compose in Hin. apply list_elem_of_fmap in Hin as ([p d] & Hn & Hpd).
    apply elem_of_map_to_list, (ow_next _ _ Hown) in Hpd. cbn in Hn. lia. }
  assert (inv (set_next s (S n))) as Hnext.
  { split; try done. destruct Hown as [H1 H2 H3]. split; [done|done|]. intros p d Hp. apply H3 in Hp. cbn. lia. }
  assert (closesocket n s1 = OK (tt, set_next s (S n))) as Hclose.
  { unfold closesocket. erewrite s_bind_OK by reflexivity. cbn [socks s1 set_socks set_next].
    rewrite decide_True by set_solver. unfold s_mod, s1, set_socks. cbn. do 2 f_equal.
    replace (({[n]} ∪ socks s) ∖ {[n]}) with (socks s) by set_solver. by destruct s. }
  destruct bound; cbn [negb]; [|by eexists]. destruct mem; cbn [negb]; [|by eexists].
  set (d := MkIo (if membuf then Some (replicate 1024 None) else None) 1024 IoREAD n).
  erewrite s_bind_OK by reflexivity.
  set (s2 := set_ios s1 (<[n := d]> (ios s1))).
  assert (owned (n :: omap snd (packets s)) s2) as Hown2.
  { destruct Hown as [H1 H2 H3]. split; cbn.
    - rewrite pairs_insert by done. cbn. by rewrite <- H1.
    - rewrite pairs_insert by done. cbn. rewrite elements_union_singleton by done. by rewrite H2.
    - intros p e Hp. apply lookup_insert_Some in Hp as [[<- <-]|[_ Hp]]; [cbn; lia|]. apply H3 in Hp. cbn. lia. }
  destruct (PostRead_spec _ s2 n d ok Hown2) as (b & s3 & Hrun & Hown3 & Hf & Hpr & Hse & Hios);
    [apply lookup_insert_eq|].
  rewrite (s_bind_OK _ _ _ _ _ Hrun). eexists. split; [reflexivity|].
  assert (forall k, k ∈ packets s -> packet_ok (ios s) k -> packet_ok (ios s3) k) as Hsame.
  { intros k Hk. apply packet_ok_same. intros p Hp. destruct (named_live s k p Hinv Hk Hp) as [e He].
    assert (p <> n) by (intros ->; congruence). rewrite Hios.
    destruct ok; cbn; [rewrite !lookup_insert_ne by done|rewrite lookup_delete_ne, lookup_insert_ne by done]; done. }
  destruct (packets_frame s2 s3 Hf) as [Hpks Hfws]. change (packets s2) with (packets s) in Hpks.
  change (farewells s2) with (farewells s) in Hfws. split.
  - by rewrite Hpks.
  - rewrite Hios. destruct ok; cbn.
    + rewrite insert_insert_eq. apply map_Forall_insert_2; [|done]. split; [done|]. unfold d; rewrite Hok by done; by eexists.
    + by rewrite delete_insert_id.
  - rewrite Hpks. rewrite Forall_forall in Hpk |- *. intros k Hk. by apply Hsame; [|apply Hpk].
  - rewrite Hfws, Hfw. by destruct Hf as (_ & _ & _ & _ & ->).
  - by rewrite Hse.
Qed.

Lemma inv_exit s : inv s -> finished s = false -> exists s', NetWork_exit s = OK (tt, s') /\ inv s'.
Proof.
  intros [Hown Hio Hpk Hfw Hsent] Hfin. eexists. split; [reflexivity|].
  set (s' := set_exit _ _ _). assert (packets s' ≡ₚ (0, None) :: packets s) as Hp.
  { unfold packets, s'. cbn. rewrite <- app_assoc. cbn [app]. by rewrite <- Permutation_middle. }
  split; try done.
  - apply (owned_perm (omap snd (packets s))); [by rewrite Hp|]. by destruct Hown.
  - rewrite Hp. by apply Forall_cons.
  - unfold farewells. rewrite (zsum_perm _ _ _ Hp). cbn. unfold farewells in Hfw. rewrite Hfin in Hfw. cbn in Hfw. lia.
Qed.

Lemma inv_signal s : inv s -> inv (set_exit s true (finished s)).
Proof. intros [[H1 H2 H3] Hio Hpk Hfw Hsent]. by split. Qed.

(** *** The system *)

Lemma inv_complete s p n : inv s -> p ∈ pending s -> packet_ok (ios s) (n, Some p) -> inv (complete p n s).
Proof.
  intros [Hown Hio Hpk Hfw Hsent] Hp Hok.
  assert (packets (complete p n s) ≡ₚ (n, Some p) :: packets s) as Hpks.
  { unfold packets, complete. cbn. rewrite <- app_assoc. cbn [app]. by rewrite <- Permutation_middle. }
  split; try done.
  - apply (owned_perm (p :: omap snd (packets s))); [by rewrite Hpks|]. destruct Hown as [H1 H2 H3].
    split; [|done|done]. cbn [complete pending set_pending set_queue ios]. rewrite <- H1.
    assert (elements (pending s) ≡ₚ p :: elements (pending s ∖ {[p]})) as ->; [|by rewrite <- Permutation_middle].
    rewrite <- elements_union_singleton by set_solver. by rewrite <- union_difference_singleton_L.
  - rewrite Hpks. by apply Forall_cons.
  - unfold farewells. rewrite (zsum_perm _ _ _ Hpks). cbn. unfold farewells in Hfw. cbn in Hfw. lia.
Qed.

(** No packet names a block that belongs to the system. *)
Lemma pending_unnamed s p k : inv s -> p ∈ pending s -> k ∈ packets s -> k.2 <> Some p.
Proof.
  intros [Hown _ _ _ _] Hp Hk Hkp. pose proof (owned_NoDup _ _ Hown) as (_ & Hd & _)%NoDup_app.
  apply (Hd p); [|by apply elem_of_elements]. apply list_elem_of_omap. by exists k.
Qed.

Lemma inv_received s p d l (bytes : list Z) : inv s -> p ∈ pending s -> ios s !! p = Some d -> buf d = Some l ->
  Z.of_nat (length bytes) <= len d ->
  inv (complete p (Z.of_nat (length bytes)) (set_ios s (<[p := set_buf d (map Some bytes ++ drop (length bytes) l)]> (ios s)))).
Proof.
  intros Hinv Hp Hd Hl Hlen. pose proof Hinv as [Hown Hio Hpk Hfw Hsent].
  destruct (Hio p d Hd) as (Hlen1024 & l' & Hl' & Hll). assert (l' = l) as -> by congruence.
  set (d' := set_buf d (map Some bytes ++ drop (length bytes) l)).
  apply inv_complete; [|done|].
  - split; try done.
    + by apply (owned_update _ s p d).
    + apply map_Forall_insert_2; [|done]. split; [done|]. eexists. split; [reflexivity|].
      rewrite length_app, length_map, length_drop. lia.
    + rewrite Forall_forall in Hpk |- *. intros k Hk. apply (packet_ok_same (ios s)); [|by apply Hpk].
      intros q Hq. cbn. apply lookup_insert_ne. intros <-. by apply (pending_unnamed s p k Hinv Hp Hk).
  - cbn. split; [lia|]. intros e m He _ Hm i Hi. rewrite lookup_insert_eq in He. injection He as <-. injection Hm as <-.
    rewrite lookup_app_l by (rewrite length_map; lia). change (map Some bytes) with (Some <$> bytes).
    rewrite list_lookup_fmap. destruct (lookup_lt_is_Some_2 bytes i) as [c ->]; [lia|]. by exists c.
Qed.

(** *** The workers *)

Lemma inv_take s i k q : inv s -> workers s !! i = Some Waiting -> queue s = k :: q ->
  inv (set_workers (set_queue s q) (<[i := Handling k]> (workers s))).
Proof.
  intros [Hown Hio Hpk Hfw Hsent] Hi Hq. pose proof (packets_take s i k q Hi Hq) as Hp. split; try done.
  - apply (owned_perm (omap snd (packets s))); [by rewrite Hp|]. by destruct Hown.
  - by rewrite Hp.
  - unfold farewells. rewrite (zsum_perm _ _ _ Hp). cbn [workers set_workers set_queue].
    rewrite (zsum_insert _ _ _ Waiting) by done. unfold farewells in Hfw. cbn [finished set_workers set_queue]. cbn [gone]. lia.
Qed.

(** What a worker leaves behind when it is done with packet [k]: the blocks
    belong to the others, and only the block of [k] has changed. *)
Definition left_by (k : packet) (s s' : St) : Prop :=
  frame s s' /\ (forall p, k.2 <> Some p -> ios s' !! p = ios s !! p) /\
  map_Forall (fun _ => io_ok) (ios s') /\
  Forall (fun x => length x.2 = 1024%nat) (sent s') /\
  forall R, (forall p, k.2 = Some p -> owned (p :: R) s) -> (k.2 = None -> owned R s) -> owned R s'.

Lemma inv_done s s' i k w : inv s -> workers s !! i = Some (Handling k) -> left_by k s s' ->
  handled w = None -> gone w = farewell k -> inv (set_workers s' (<[i := w]> (workers s'))).
Proof.
  intros Hinv Hi (Hf & Hios & Hio' & Hsent' & Hown') Hw Hg. pose proof Hinv as [Hown Hio Hpk Hfw Hsent].
  pose proof Hf as (Hnext & Hq & Hws & Hex & Hfin).
  pose proof (packets_done s i k w Hi Hw) as Hp.
  assert (packets (set_workers s' (<[i := w]> (workers s'))) = packets (set_workers s (<[i := w]> (workers s)))) as Hsame
    by (unfold packets; cbn; by rewrite Hq, Hws).
  set (R := packets (set_workers s (<[i := w]> (workers s)))) in *.
  assert (forall k', k' ∈ R -> k' ∈ packets s) as HR by (intros k' Hk'; rewrite Hp; by right).
  split; rewrite ?Hsame; try done.
  - assert (owned (omap snd R) s') as [H1 H2 H3]; [|by split].
    apply Hown'.
    + intros p Hkp. apply (owned_perm (omap snd (packets s))); [|done]. rewrite Hp. cbn. by rewrite Hkp.
    + intros Hkp. apply (owned_perm (omap snd (packets s))); [|done]. rewrite Hp. cbn. by rewrite Hkp.
  - rewrite Hp in Hpk. apply Forall_cons in Hpk as [_ Hpk]. rewrite Forall_forall in Hpk |- *.
    intros k' Hk'. apply (packet_ok_same (ios s)); [|by apply Hpk]. intros p Hkp. cbn. apply Hios. intros Hk.
    pose proof (owned_NoDup _ _ Hown) as Hnd. rewrite Hp in Hnd. cbn in Hnd. rewrite Hk in Hnd. cbn in Hnd.
    apply NoDup_cons in Hnd as [Hnd _]. apply Hnd, elem_of_app. left. apply list_elem_of_omap. by exists k'.
  - unfold farewells in Hfw |- *. rewrite Hsame. rewrite (zsum_perm _ _ _ Hp) in Hfw. cbn [zsum] in Hfw.
    cbn [workers finished set_workers]. rewrite Hws, Hfin. rewrite (zsum_insert _ _ _ (Handling k)) by done.
    cbn [gone] in *. lia.
Qed.

Lemma CloseConn_left s p n : inv s -> (n, Some p) ∈ packets s -> exists s',
  CloseConn p s = OK (tt, s') /\ left_by (n, Some p) s s'.
Proof.
  intros Hinv Hk. pose proof Hinv as [Hown Hio _ _ Hsent].
  destruct (list_elem_of_split _ _ Hk) as (k1 & k2 & Hks).
  assert (owned (p :: omap snd (k1 ++ k2)) s) as Hown0.
  { apply (owned_perm (omap snd (packets s))); [|done]. by rewrite Hks, <- Permutation_middle. }
  destruct (CloseConn_spec _ _ _ Hown0) as (s' & Hrun & _ & Hf & Hios & _ & _ & Hse).
  exists s'. split; [done|]. split; [done|]. split.
  { intros q Hq. rewrite Hios. apply lookup_delete_ne. intros ->. by apply Hq. }
  split; [rewrite Hios; by apply map_Forall_delete|]. split; [by rewrite Hse|]. intros R HR _.
  destruct (CloseConn_spec _ _ _ (HR p eq_refl)) as (s2 & Hrun2 & Hown2 & _). congruence.
Qed.

Lemma PostRead_left s p n d ok : inv s -> (n, Some p) ∈ packets s -> ios s !! p = Some d -> exists b s',
  PostRead p ok s = OK (b, s') /\ left_by (n, Some p) s s'.
Proof.
  intros Hinv Hk Hd. pose proof Hinv as [Hown Hio _ _ Hsent].
  destruct (list_elem_of_split _ _ Hk) as (k1 & k2 & Hks).
  assert (owned (p :: omap snd (k1 ++ k2)) s) as Hown0.
  { apply (owned_perm (omap snd (packets s))); [|done]. by rewrite Hks, <- Permutation_middle. }
  destruct (PostRead_spec _ _ _ d ok Hown0 Hd) as (b & s' & Hrun & _ & Hf & _ & Hse & Hios).
  exists b, s'. split; [done|]. split; [done|]. split.
  { intros q Hq. assert (p <> q) by (intros ->; by apply Hq). rewrite Hios.
    destruct ok; [by apply lookup_insert_ne|by apply lookup_delete_ne]. }
  split; [|split; [by rewrite Hse|]].
  - rewrite Hios. destruct ok; [|by apply map_Forall_delete]. apply map_Forall_insert_2; [|done]. exact (Hio p d Hd).
  - intros R HR _. destruct (PostRead_spec _ _ _ d ok (HR p eq_refl) Hd) as (b2 & s2 & Hrun2 & Hown2 & _). congruence.
Qed.

(** The null byte behind the message, and the answer *)
Lemma answer_left s p n d l ok : inv s -> (n, Some p) ∈ packets s -> ios s !! p = Some d -> opCode d = IoREAD ->
  buf d = Some l -> 0 <= n < 1024 -> exists b s' t,
  (put_io p (set_buf d (<[Z.to_nat n := Some 0]> l)) ;* PostWrite p ok) s = OK (b, s') /\ left_by (n, Some p) s s' /\
  c_string (<[Z.to_nat n := Some 0]> l) = OK t /\
  printed s' = printed s ++ [(cliSock d, t)] /\
  sent s' = sent s ++ (if ok then [(cliSock d, <[Z.to_nat n := Some 0]> l)] else []).
Proof.
  intros Hinv Hk Hd Hop Hl Hn. pose proof Hinv as [Hown Hio Hpk _ Hsent].
  destruct (Hio p d Hd) as (Hlen & l' & Hl' & Hll). assert (l' = l) as -> by congruence.
  rewrite Forall_forall in Hpk. destruct (Hpk _ Hk) as [_ Hw]. specialize (Hw d l Hd Hop Hl).
  set (l2 := <[Z.to_nat n := Some 0]> l). set (d2 := set_buf d l2).
  destruct (c_string_ends l2 (Z.to_nat n)) as [t Ht].
  { intros i Hi. unfold l2. rewrite list_lookup_insert_ne by lia. apply Hw. lia. }
  { unfold l2. apply list_lookup_insert_eq. lia. }
  assert (length l2 = 1024%nat) as Hl2 by (unfold l2; by rewrite length_insert).
  set (s1 := set_ios s (<[p := d2]> (ios s))).
  assert (ios s1 !! p = Some d2) as Hd2 by apply lookup_insert_eq.
  assert (forall R, owned (p :: R) s -> owned (p :: R) s1) as Hs1 by (intros R HR; by apply (owned_update _ s p d)).
  destruct (list_elem_of_split _ _ Hk) as (k1 & k2 & Hks).
  assert (owned (p :: omap snd (k1 ++ k2)) s) as Hown0.
  { apply (owned_perm (omap snd (packets s))); [|done]. by rewrite Hks, <- Permutation_middle. }
  destruct (PostWrite_spec _ _ _ d2 l2 t ok (Hs1 _ Hown0) Hd2 eq_refl Ht) as (b & s' & Hrun & _ & Hf & Hpr & Hse & Hios).
  assert (take (Z.to_nat (Iocp.len d2)) l2 = l2) as Htake by (apply take_ge; cbn; lia). rewrite Htake in Hse.
  exists b, s', t. split; [by erewrite s_bind_OK by reflexivity|]. split; [|done].
  split; [by destruct Hf as (? & ? & ? & ? & ?)|]. split.
  { intros q Hq. assert (p <> q) by (intros ->; by apply Hq). rewrite Hios. unfold s1. cbn [ios set_ios].
    destruct ok; [rewrite !lookup_insert_ne by done|rewrite lookup_delete_ne, lookup_insert_ne by done]; done. }
  split; [|split].
  - rewrite Hios. unfold s1. cbn [ios set_ios].
    destruct ok; [rewrite insert_insert_eq|rewrite delete_insert_eq; by apply map_Forall_delete].
    apply map_Forall_insert_2; [|done]. split; [done|]. by exists l2.
  - rewrite Hse. apply Forall_app. split; [done|]. destruct ok; [|done]. by apply Forall_singleton.
  - intros R HR _. destruct (PostWrite_spec _ _ _ d2 l2 t ok (Hs1 _ (HR p eq_refl)) Hd2 eq_refl Ht) as (b3 & s3 & Hrun3 & Hown3 & _).
    congruence.
Qed.

(** A message that fills the buffer *)
Definition fills (s : St) (k : packet) : Prop := exists p d,
  k = (1024, Some p) /\ ios s !! p = Some d /\ opCode d = IoREAD.

Lemma body_spec s i k ok : inv s -> workers s !! i = Some (Handling k) ->
  (exists b s', WorkerThread_body k ok s = OK (b, s') /\ left_by k s s' /\ b = bool_decide (k.2 = None)) \/
  (WorkerThread_body k ok s = Er OutOfBounds /\ fills s k).
Proof.
  intros Hinv Hi. pose proof Hinv as [Hown Hio Hpk _ Hsent].
  assert (k ∈ packets s) as Hk by (rewrite (packets_done s i k Waiting) by done; left).
  rewrite Forall_forall in Hpk. pose proof (Hpk k Hk) as Hok. destruct k as [n [p|]]; cbn [packet_ok] in Hok.
  - destruct Hok as [Hn Hw]. destruct (named_live s _ p Hinv Hk eq_refl) as [d Hd].
    unfold WorkerThread_body. destruct (Z.eqb_spec n 0) as [->|Hn0].
    { left. destruct (CloseConn_left s p 0 Hinv Hk) as (s' & Hrun & Hleft). exists false, s'.
      by rewrite (s_bind_OK _ _ _ _ _ Hrun). }
    erewrite s_bind_OK by reflexivity. rewrite (s_bind_OK _ _ _ _ _ (get_io_at s p d Hd)).
    destruct (opCode d) eqn:Hop.
    + destruct (Hio p d Hd) as (Hlen & l & Hl & Hll). rewrite Hl. erewrite s_bind_OK by reflexivity. rewrite Hll.
      destruct (Z.eq_dec n 1024) as [->|Hne]; [right; split; [done|by exists p, d]|left].
      rewrite (proj2 (Z.leb_le _ _)), (proj2 (Z.ltb_lt _ _)) by lia. cbn [andb].
      destruct (answer_left s p n d l ok Hinv Hk Hd Hop Hl) as (b & s' & t & Hrun & Hleft & _); [lia|].
      exists false, s'. split; [|done]. apply s_bind_inv in Hrun as (a & s1 & H1 & H2).
      by rewrite (s_bind_OK _ _ _ _ _ H1), (s_bind_OK _ _ _ _ _ H2).
    + left. destruct (PostRead_left s p n d ok Hinv Hk Hd) as (b & s' & Hrun & Hleft).
      exists false, s'. by rewrite (s_bind_OK _ _ _ _ _ Hrun).
  - left. subst n. exists true, s. split; [done|]. split; [|done]. split; [done|]. split; [done|]. split; [done|].
    split; [done|]. intros R _ HR. by apply HR.
Qed.

Lemma inv_handle s i k ok : inv s -> workers s !! i = Some (Handling k) ->
  (exists s', handle i k ok s = OK (tt, s') /\ inv s') \/ (handle i k ok s = Er OutOfBounds /\ fills s k).
Proof.
  intros Hinv Hi. unfold handle. destruct (body_spec s i k ok Hinv Hi) as [(b & s' & Hrun & Hleft & ->)|[Hrun Hfull]].
  - left. rewrite (s_bind_OK _ _ _ _ _ Hrun). eexists. split; [reflexivity|].
    eapply inv_done; [done|done|done|by destruct k as [? []]|by destruct k as [? []]].
  - right. by rewrite (s_bind_Er _ _ _ _ Hrun).
Qed.

(** ** Every step *)

Lemma inv_step s r : inv s -> step s r ->
  (exists s', r = OK s' /\ inv s') \/
  (r = Er OutOfBounds /\ exists i k, workers s !! i = Some (Handling k) /\ fills s k).
Proof.
  intros Hinv Hstep. destruct Hstep as [client bound mem membuf ok _ _ Hok| |  |p d l bytes Hp Hd Hop Hl Hlen|p d n Hp Hd Hop Hn|p Hp|i k q Hi Hq|i k ok Hi].
  - left. destruct (inv_accept s client bound mem membuf ok Hinv Hok) as (s' & Hrun & Hinv').
    exists s'. unfold after_step. by rewrite Hrun.
  - left. destruct (inv_exit s Hinv) as (s' & Hrun & Hinv'); [done|]. exists s'. unfold after_step. by rewrite Hrun.
  - left. eexists. split; [reflexivity|]. by apply inv_signal.
  - left. eexists. split; [reflexivity|]. by apply inv_received.
  - left. eexists. split; [reflexivity|]. apply inv_complete; [done|done|]. destruct (inv_io _ Hinv p d Hd) as [Hlen _].
    split; [lia|]. intros d' l Hd' Hop'. congruence.
  - left. eexists. split; [reflexivity|]. apply inv_complete; [done|done|]. split; [lia|].
    intros d l _ _ _ i Hi. lia.
  - left. eexists. split; [reflexivity|]. by apply inv_take.
  - unfold after_step. destruct (inv_handle s i k ok Hinv Hi) as [(s' & -> & Hinv')|[-> Hfull]]; [left|right]; eauto 10.
Qed.

Lemma inv_reachable n s : reachable n s -> inv s.
Proof.
  induction 1 as [|s s' _ IH Hstep]; [apply inv_start|].
  destruct (inv_step s _ IH Hstep) as [(s2 & [= ->] & ?)|[? _]]; done.
Qed.

(** ** Theorems *)

(** C34: whatever the clients send, in whatever order operations end or fail,
    sockets are accepted and any number of workers run, no step uses a freed
    block, closes a socket twice, reads an indeterminate byte or dereferences
    null; the only access that can fail is the null byte behind a message that
    fills the buffer of 1024 bytes. *)
Theorem only_full_buffers_fail n s r : reachable n s -> step s r ->
  (exists s', r = OK s') \/
  (r = Er OutOfBounds /\ exists i k, workers s !! i = Some (Handling k) /\ fills s k).
Proof.
  intros Hr Hstep. destruct (inv_step s r (inv_reachable n s Hr) Hstep) as [(s' & -> & _)|Hfail]; [left|by right].
  by exists s'.
Qed.

(** A message of fewer than 1024 bytes is printed up to its first null byte,
    and answered by 1024 bytes: the message, a null byte, and whatever the
    buffer held behind it. *)
Theorem answer_is_whole_buffer w s i n p d : reachable w s -> workers s !! i = Some (Handling (n, Some p)) ->
  ios s !! p = Some d -> opCode d = IoREAD -> 0 < n < 1024 ->
  exists bytes rest s', buf d = Some (map Some bytes ++ rest) /\ Z.of_nat (length bytes) = n /\
    handle i (n, Some p) true s = OK (tt, s') /\
    sent s' = sent s ++ [(cliSock d, map Some bytes ++ Some 0 :: drop 1 rest)] /\
    length (map Some bytes ++ Some 0 :: drop 1 rest) = 1024%nat /\
    (0 ∉ bytes -> printed s' = printed s ++ [(cliSock d, bytes)]).
Proof.
  intros Hr Hi Hd Hop Hn. pose proof (inv_reachable w s Hr) as Hinv.
  assert ((n, Some p) ∈ packets s) as Hk by (rewrite (packets_done s i _ Waiting) by done; left).
  pose proof Hinv as [_ Hio Hpk _ _]. destruct (Hio p d Hd) as (Hlen & l & Hl & Hll).
  rewrite Forall_forall in Hpk. destruct (Hpk _ Hk) as [_ Hw]. specialize (Hw d l Hd Hop Hl).
  destruct (written_bytes l (Z.to_nat n)) as (bytes & rest & -> & Hb); [lia|by rewrite Z2Nat.id by lia|].
  assert (<[Z.to_nat n := Some 0]> (map Some bytes ++ rest) = map Some bytes ++ Some 0 :: drop 1 rest) as Hins.
  { rewrite insert_app_r_alt by (rewrite length_map; lia). rewrite length_map, Hb, Nat.sub_diag.
    destruct rest as [|x rest]; [|done]. rewrite app_nil_r, length_map in Hll. lia. }
  destruct (answer_left s p n d _ true Hinv Hk Hd Hop Hl) as (b & s' & t & Hrun & _ & Ht & Hpr & Hse); [lia|].
  rewrite Hins in *. exists bytes, rest, (set_workers s' (<[i := Waiting]> (workers s'))).
  split; [done|]. split; [lia|]. split; [|split; [done|split]].
  - unfold handle, WorkerThread_body. rewrite (proj2 (Z.eqb_neq n 0)) by lia.
    rewrite (s_bind_OK _ _ s false s'); [done|]. erewrite s_bind_OK by reflexivity.
    rewrite (s_bind_OK _ _ _ _ _ (get_io_at s p d Hd)), Hop, Hl. erewrite s_bind_OK by reflexivity.
    rewrite Hll, (proj2 (Z.leb_le _ _)), (proj2 (Z.ltb_lt _ _)) by lia. cbn [andb].
    rewrite Hins. apply s_bind_inv in Hrun as (a & s1 & H1 & H2).
    by rewrite (s_bind_OK _ _ _ _ _ H1), (s_bind_OK _ _ _ _ _ H2).
  - rewrite <- Hins, length_insert. done.
  - intros Hz. rewrite (c_string_text bytes) in Ht by done. injection Ht as <-. exact Hpr.
Qed.

(** Only one null packet is ever posted: however many workers there are, at
    most one leaves its loop, and none before the main thread has. *)
Theorem one_worker_leaves n s : reachable n s -> 0 <= zsum gone (workers s) <= Z.b2z (finished s).
Proof.
  intros Hr. pose proof (inv_farewell _ (inv_reachable n s Hr)) as Hf. unfold farewells in Hf.
  assert (0 <= zsum farewell (packets s)) by (apply zsum_nonneg; intros [? []] _; cbn; lia).
  assert (0 <= zsum gone (workers s)) by (apply zsum_nonneg; intros [] _; cbn; lia). lia.
Qed.

(** *** The start *)

Lemma create_threads_count l n : create_threads l n = (n + length (filter (eq true) l))%nat.
Proof.
  revert n. induction l as [|ok l IH]; intros n; cbn [create_threads]; [by rewrite Nat.add_0_r|]. rewrite IH.
  destruct ok; [rewrite filter_cons_True by done; cbn; lia|by rewrite filter_cons_False by done].
Qed.

(** [NetWork] goes on to its loop when every call succeeds that it checks,
    with one worker for each thread that was created, at most as many as
    processors; it gives up otherwise, and then the process holds nothing if
    Winsock was not started, and else Winsock and the listening socket, which
    nothing releases. *)
Theorem start_holds a :
  let '(ok, h) := NetWork_setup a in
  ok = (a_startup a && a_socket a && a_bind a && a_listen a && a_port a) /\
  wsa h = a_startup a /\ listener h = (a_startup a && a_socket a) /\ port h = ok /\
  (created h <= length (a_threads a))%nat /\ (ok = false -> created h = 0%nat) /\
  nonblocking h = ok && a_ioctl a.
Proof.
  unfold NetWork_setup, NetWork_threads. destruct a as [[] [] [] [] [] l i]; cbn; rewrite ?create_threads_count;
    pose proof (length_filter (eq true) l); repeat (split; [done || lia|]); done.
Qed.

(** *** One client, one worker *)

Definition fresh_io : IoData := MkIo (Some (replicate 1024 None)) 1024 IoREAD 0.

(** The states after the client has connected, its message has arrived, and
    the worker has taken the packet *)
Definition connected : St := MkSt {[0%nat := fresh_io]} 1 {[0%nat]} {[0%nat]} [] [Waiting] false false [] [].
Definition arrived (bytes : list Z) : St :=
  complete 0 (Z.of_nat (length bytes))
    (set_ios connected (<[0%nat := set_buf fresh_io (map Some bytes ++ drop (length bytes) (replicate 1024 None))]> (ios connected))).
Definition taken (bytes : list Z) : St :=
  set_workers (set_queue (arrived bytes) []) [Handling (Z.of_nat (length bytes), Some 0%nat)].

Lemma connected_pending : 0%nat ∈ pending connected.
Proof. cbn. set_solver. Qed.

Lemma connected_reachable : reachable 1 connected.
Proof.
  eapply reach_step; [apply reach_start|].
  assert (after_step (NetWork_accept true true true true true) (NetWork_start 1) = OK connected) as <- by (by vm_compute).
  by apply step_accept.
Qed.

Lemma taken_reachable bytes : Z.of_nat (length bytes) <= 1024 -> reachable 1 (taken bytes).
Proof.
  intros Hlen. assert (reachable 1 (arrived bytes)) as Ha.
  { eapply reach_step; [apply connected_reachable|].
    apply (step_received connected 0 fresh_io (replicate 1024 None) bytes); done. }
  eapply reach_step; [exact Ha|]. exact (step_take (arrived bytes) 0 (Z.of_nat (length bytes), Some 0%nat) [] eq_refl eq_refl).
Qed.

(** A message of exactly 1024 bytes makes the server write past its buffer. *)
Theorem full_message_overflows : exists s, reachable 1 s /\ step s (Er OutOfBounds).
Proof.
  exists (taken (replicate 1024 65)). split; [by apply taken_reachable|].
  assert (after_step (handle 0 (1024, Some 0%nat) true) (taken (replicate 1024 65)) = Er OutOfBounds) as <- by (by vm_compute).
  by apply step_handle.
Qed.

Lemma only_full_buffers_fail_witness : reachable 1 connected /\ step connected (OK (complete 0 0 connected)) /\
  ((exists s', OK (complete 0 0 connected) = OK s') \/
   (OK (complete 0 0 connected) = Er OutOfBounds /\ exists i k, workers connected !! i = Some (Handling k) /\ fills connected k)).
Proof.
  assert (step connected (OK (complete 0 0 connected))) as Hs by (apply step_failed, connected_pending).
  split; [exact connected_reachable|]. split; [exact Hs|].
  exact (only_full_buffers_fail 1 connected _ connected_reachable Hs).
Defined.

(** "No:1", the first message of the client program *)
Definition no1 : list Z := [78; 111; 58; 49].

Lemma answer_is_whole_buffer_witness : reachable 1 (taken no1) /\ exists s',
  handle 0 (4, Some 0%nat) true (taken no1) = OK (tt, s') /\
  sent s' = [(0%nat, map Some no1 ++ Some 0 :: replicate 1019 None)] /\ printed s' = [(0%nat, no1)].
Proof.
  split; [by apply taken_reachable|].
  destruct (answer_is_whole_buffer 1 (taken no1) 0 4 0 (set_buf fresh_io (map Some no1 ++ replicate 1020 None)))
    as (bytes & rest & s' & Hbuf & Hlen & Hrun & Hsent & _ & Hprinted);
    [by apply taken_reachable|done|by vm_compute|done|lia|].
  assert (length bytes = 4%nat) as Hb by lia. injection Hbuf as Hbuf.
  destruct bytes as [|b1 [|b2 [|b3 [|b4 [|]]]]]; try discriminate Hb.
  injection Hbuf as <- <- <- <- <-. exists s'. split; [exact Hrun|]. split; [exact Hsent|].
  apply Hprinted. set_solver.
Defined.

Lemma one_worker_leaves_witness : reachable 1 (taken no1) /\ 0 <= zsum gone (workers (taken no1)) <= Z.b2z (finished (taken no1)).
Proof. split; [by apply taken_reachable|]. apply (one_worker_leaves 1). by apply taken_reachable. Defined.
