(* ===== verification/IocpClient.v ===== *)
(** * The client of the completion-port servers: [cmake/iocp/client.c]

    The client numbers its messages, waits for an answer to each and prints it
    with [printf("%s")].  What [recv] answers is the environment; the result of
    [send] is not looked at. *)

From stdpp Require Import gmap.
From S2P Require Import Prelude Words Bytes Monad Iocp IocpSafe.

Local Open Scope Z_scope.
Local Open Scope res_scope.

(** ** The program *)

(** An answer of [recv]: 0, -1, or some bytes *)
Inductive reply : Type := RClosed | RError | RBytes (l : list Z).

Inductive event : Type :=
  | ESend (l : list Z)
  | ENothing                        (* "Recv Nothing" *)
  | EDisconnect                     (* "disconnect, exit" *)
  | ERecv (l : list Z).             (* "Recv: %s" *)

Definition client_buffer : Z := 1024.

(** [sprintf(buffer, "No:%d", k)] *)
Definition request (k : Z) : list Z := [78; 111; 58] ++ decimal 9 k.

(** The buffer after [memset] and [recv] *)
Definition received (l : list Z) : list (option Z) :=
  map Some l ++ replicate (Z.to_nat client_buffer - length l) (Some 0).

(** A round: whether the loop goes on, what it does, and [idx] *)
Definition client_round (idx : Z) (r : reply) : res (bool * list event * Z) :=
  let? idx := (if idx + 1 <? 2 ^ 31 then OK (idx + 1) else Er IntOverflow) in
  let req := ESend (request idx) in
  match r with
  | RClosed => OK (true, [req; ENothing], idx)
  | RError => OK (false, [req; EDisconnect], idx)
  | RBytes l =>
      let? t := c_string (received l) in
      OK (true, [req; ERecv t], idx)
  end.

(** The loop for the answers so far; [None]: it waits for the next. *)
Fixpoint client_loop (idx : Z) (rs : list reply) : res (list event * option Z) :=
  match rs with
  | [] => OK ([], None)
  | r :: rs =>
      let? x := client_round idx r in
      let '(on, ev, idx) := x in
      if on : bool then
        let? y := client_loop idx rs in
        OK (ev ++ y.1, y.2)
      else OK (ev, Some idx)
  end.

(** What the process holds when it ends *)
Record client_held : Type := MkClientHeld { c_wsa : bool; c_socket : bool }.

(** [main]: the events, and its result with what is still held, if it ends *)
Definition client_main (startup sock connected : bool) (rs : list reply) : res (list event * option (Z * client_held)) :=
  if negb startup then OK ([], Some (1, MkClientHeld false false)) else
  if negb (sock && connected) then OK ([], Some (1, MkClientHeld true sock)) else
  let? x := client_loop 0 rs in
  OK (x.1, match x.2 with Some _ => Some (0, MkClientHeld false false) | None => None end).

(** ** What it does *)

Definition fits_reply (r : reply) : Prop :=
  match r with RBytes l => (length l <= Z.to_nat client_buffer)%nat /\ Forall (fun c => 0 <= c < 256) l | _ => True end.

(** The replies the client can print: those that do not fill the buffer without
    a null byte *)
Definition printable (r : reply) : Prop :=
  match r with RBytes l => length l = Z.to_nat client_buffer -> 0 ∈ l | _ => True end.

Lemma c_string_map l rest : c_string (map Some l ++ rest) =
  if bool_decide (0 ∈ l) then OK (before_null l)
  else match c_string rest with OK s => OK (before_null l ++ s) | Er e => Er e end.
Proof.
  induction l as [|c l IH]; cbn [map app c_string before_null].
  - rewrite bool_decide_false by apply not_elem_of_nil. by destruct (c_string rest).
  - destruct (Z.eqb_spec c 0) as [->|Hc]; [by rewrite bool_decide_true by left|].
    rewrite IH. assert (bool_decide (0 ∈ c :: l) = bool_decide (0 ∈ l)) as ->.
    { apply bool_decide_ext. rewrite elem_of_cons. naive_solver. }
    destruct (bool_decide (0 ∈ l)); [done|]. by destruct (c_string rest).
Qed.

Lemma c_string_received l : (length l <= Z.to_nat client_buffer)%nat ->
  c_string (received l) =
    if decide (length l = Z.to_nat client_buffer /\ 0 ∉ l) then Er OutOfBounds else OK (before_null l).
Proof.
  intros Hl. unfold received. rewrite c_string_map. case_bool_decide as H0.
  - by rewrite decide_False by tauto.
  - destruct (decide (length l = Z.to_nat client_buffer)) as [He|He].
    + rewrite decide_True by done. by rewrite He, Nat.sub_diag.
    + rewrite decide_False by tauto. destruct (Z.to_nat client_buffer - length l)%nat eqn:E; [lia|].
      cbn. by rewrite app_nil_r.
Qed.

(** The events of a round *)
Definition answer_event (r : reply) : event :=
  match r with RClosed => ENothing | RError => EDisconnect | RBytes l => ERecv (before_null l) end.

Lemma client_round_spec idx r : 0 <= idx -> idx + 1 < 2 ^ 31 -> fits_reply r -> printable r ->
  client_round idx r = OK (match r with RError => false | _ => true end, [ESend (request (idx + 1)); answer_event r], idx + 1).
Proof.
  intros H0 Hi Hf Hp. unfold client_round. rewrite (proj2 (Z.ltb_lt _ _) Hi). cbn [res_bind].
  destruct r as [| |l]; [done..|]. cbn in Hf, Hp. rewrite c_string_received by apply Hf.
  rewrite decide_False by tauto. done.
Qed.

(** The replies up to the first error, with its own *)
Fixpoint until_error (rs : list reply) : list reply :=
  match rs with [] => [] | RError :: _ => [RError] | r :: rs => r :: until_error rs end.
Definition has_error (rs : list reply) : bool := existsb (fun r => match r with RError => true | _ => false end) rs.

(** The rounds from the number [idx + 1] on *)
Fixpoint dialogue (idx : Z) (rs : list reply) : list event :=
  match rs with [] => [] | r :: rs => [ESend (request (idx + 1)); answer_event r] ++ dialogue (idx + 1) rs end.

Lemma client_loop_spec rs : forall idx, 0 <= idx -> idx + Z.of_nat (length rs) < 2 ^ 31 ->
  Forall fits_reply rs -> Forall printable rs ->
  exists k, client_loop idx rs = OK (dialogue idx (until_error rs), if has_error rs then Some k else None).
Proof.
  induction rs as [|r rs IH]; intros idx H0 Hi Hf Hp; [by exists 0|].
  apply Forall_cons in Hf as [Hf1 Hf2], Hp as [Hp1 Hp2]. cbn [length] in Hi. cbn [client_loop].
  rewrite client_round_spec by (done || lia). cbn [res_bind]. destruct (IH (idx + 1)) as [k Hk]; [lia..|done|done|].
  destruct r as [| |l]; [|by exists (idx + 1)|]; rewrite Hk; by exists k.
Qed.

(** The messages of the client are numbered from one on, each is followed by
    the answer to it, cut off at its first null byte, and the first error of
    [recv] ends the program with success and nothing held; it goes on (even
    when the server has closed the connection) until then.  An answer that
    fills the buffer without a null byte is read past the buffer. *)
Theorem client_dialogue (rs : list reply) (l : list Z) :
  Z.of_nat (length rs) + 1 < 2 ^ 31 -> Forall fits_reply rs -> Forall printable rs ->
  client_main true true true rs =
    OK (dialogue 0 (until_error rs), if has_error rs then Some (0, MkClientHeld false false) else None) /\
  (length l = Z.to_nat client_buffer -> 0 ∉ l -> has_error rs = false ->
   client_main true true true (rs ++ [RBytes l]) = Er OutOfBounds).
Proof.
  intros Hlen Hf Hp. split.
  - unfold client_main. cbn [negb andb]. destruct (client_loop_spec rs 0) as [k ->]; [lia..|done|done|].
    cbn [res_bind fst snd]. by destruct (has_error rs).
  - intros Hl Hl0 He. unfold client_main. cbn [negb andb].
    assert (forall idx, 0 <= idx -> idx + Z.of_nat (length rs) + 1 < 2 ^ 31 ->
      client_loop idx (rs ++ [RBytes l]) = Er OutOfBounds) as Hloop; [|by rewrite Hloop by lia].
    clear Hlen. induction rs as [|r rs IH]; intros idx H0 Hi; cbn [app client_loop].
    + unfold client_round. cbn [length] in Hi. rewrite (proj2 (Z.ltb_lt _ _)) by lia. cbn [res_bind].
      rewrite c_string_received by lia. by rewrite decide_True.
    + apply Forall_cons in Hf as [Hf1 Hf2], Hp as [Hp1 Hp2]. cbn [length] in Hi.
      rewrite client_round_spec by (done || lia). cbn [res_bind].
      destruct r as [| |l']; [| done|]; (rewrite IH; [done|done|done|done|lia|lia]).
Qed.

Lemma client_dialogue_witness :
  client_main true true true [RBytes (request 1 ++ [0; 7]); RClosed; RError; RClosed] =
    OK ([ESend (request 1); ERecv (request 1); ESend (request 2); ENothing; ESend (request 3); EDisconnect],
        Some (0, MkClientHeld false false)) /\
  client_main true true true ([RClosed] ++ [RBytes (replicate 1024 65)]) = Er OutOfBounds.
Proof.
  split.
  - apply (client_dialogue [RBytes (request 1 ++ [0; 7]); RClosed; RError; RClosed] []); [done| |].
    + apply Forall_cons. split; [|by repeat constructor]. split; [by apply Nat.leb_le; vm_compute|].
      cbn. repeat (apply Forall_cons; split; [split; by vm_compute|]). by apply Forall_nil.
    + apply Forall_cons. split; [done|by repeat constructor].
  - apply (client_dialogue [RClosed] (replicate 1024 65)); [done|by repeat constructor|by repeat constructor|done| |done].
    rewrite elem_of_replicate. lia.
Defined.

(** A client that cannot connect leaves Winsock and its socket to the system. *)
Lemma client_unconnected sock connected rs : sock && connected = false ->
  client_main true sock connected rs = OK ([], Some (1, MkClientHeld true sock)).
Proof. unfold client_main. by intros ->. Qed.

(** ** With the server *)

Lemma request_bytes k : 0 <= k < 2 ^ 31 ->
  Forall (fun c => 0 < c < 256) (request k) /\ (4 <= length (request k) <= 13)%nat.
Proof.
  intros Hk. destruct (decimal_digits 9 k) as [Hd Hl]; [change (10 ^ Z.of_nat 10) with 10000000000; lia|].
  unfold request. split; [|rewrite length_app; cbn [length]; lia].
  apply Forall_app. split; [repeat (constructor; [lia|]); constructor|]. eapply Forall_impl; [exact Hd|]. cbn. lia.
Qed.

Lemma request_inj k k' : 0 <= k < 2 ^ 31 -> 0 <= k' < 2 ^ 31 -> request k = request k' -> k = k'.
Proof.
  intros Hk Hk' He. unfold request in He. apply (inj (app _)), (f_equal of_decimal) in He.
  by rewrite !of_decimal_decimal in He by (change (10 ^ Z.of_nat 10) with 10000000000; lia).
Qed.

Lemma before_null_app l rest : 0 ∉ l -> before_null (l ++ 0 :: rest) = l.
Proof.
  induction l as [|c l IH]; [done|]. rewrite not_elem_of_cons. intros [Hc Hl]. cbn.
  rewrite (proj2 (Z.eqb_neq c 0)) by done. by rewrite IH.
Qed.

Lemma map_Some_inj {A} (l l' : list A) : map Some l = map Some l' -> l = l'.
Proof. revert l'. induction l as [|a l IH]; intros [|b l']; [done..|]. intros [= -> H]. by rewrite (IH l'). Qed.


