(* ===== verification/IocpEx.v ===== *)
(** * The server with AcceptEx: [cmake/iocp/server_ex.c]

    As in server.c worker threads take completion packets off a queue; the
    main thread accepts with an overlapped operation that also receives the
    first message, and waits for it.  A signal handler closes the socket it
    waits on, by way of a global variable that the workers write as well.

    A step is what one thread does between two calls that wait.  Closing a
    socket that is not open is recorded in [stale], and not an error as it is
    for server.c, so that what the server does behind it is there to see: its
    number may belong to another connection by then.  The release of a block
    that an operation under way still writes to is an error.  Of [IoData], [nBytes] and the rest of
    [Overlapped] are only written, and left out. *)

From stdpp Require Import gmap.
From S2P Require Import Prelude Words Monad.
From S2P Require Iocp.

Local Open Scope Z_scope.
Local Open Scope st_scope.

Notation IoKind := Iocp.IoKind.
Notation IoREAD := Iocp.IoREAD.
Notation IoWRITE := Iocp.IoWRITE.
Notation packet := Iocp.packet.
Notation worker := Iocp.worker.
Notation Waiting := Iocp.Waiting.
Notation Handling := Iocp.Handling.
Notation Exited := Iocp.Exited.

Record IoData : Type := MkIo {
  hEvent : option (option nat);     (* indeterminate, or null, or an event *)
  buf : option (list (option Z));
  len : Z;
  opCode : IoKind;
  cliSock : option nat              (* [None]: [INVALID_SOCKET] *)
}.

Definition set_event (d : IoData) e := MkIo (Some e) (buf d) (len d) (opCode d) (cliSock d).
Definition set_buf (d : IoData) l := MkIo (hEvent d) (Some l) (len d) (opCode d) (cliSock d).

(** [memset(&data->Overlapped, 0, ...); data->opCode = k] *)
Definition set_op (d : IoData) k := MkIo (Some None) (buf d) (len d) k (cliSock d).

(** The main thread *)
Inductive mstate : Type :=
  | Idle                            (* before the next round of its loop *)
  | Accepting (p : nat)             (* in [WSAGetOverlappedResult] *)
  | Left.                           (* behind the loop *)

Record St : Type := MkSt {
  ios : gmap nat IoData;            (* the live blocks *)
  next : nat;
  socks : gset nat;                 (* the open sockets *)
  stale : list nat;                 (* the sockets closed while not open *)
  events : gset nat;                (* the open events *)
  pending : gset nat;               (* the operations under way *)
  queue : list packet;
  workers : list worker;
  curAcceptSock : option nat;
  mainst : mstate;
  signalled : bool;                 (* the handler has run; it is not installed again *)
  printed : list (option nat * list Z);
  sent : list (option nat * list (option Z))
}.

Notation ST := (ST St).

Definition set_ios (s : St) x := MkSt x (next s) (socks s) (stale s) (events s) (pending s) (queue s) (workers s) (curAcceptSock s) (mainst s) (signalled s) (printed s) (sent s).
Definition set_next (s : St) x := MkSt (ios s) x (socks s) (stale s) (events s) (pending s) (queue s) (workers s) (curAcceptSock s) (mainst s) (signalled s) (printed s) (sent s).
Definition set_socks (s : St) x y := MkSt (ios s) (next s) x y (events s) (pending s) (queue s) (workers s) (curAcceptSock s) (mainst s) (signalled s) (printed s) (sent s).
Definition set_events (s : St) x := MkSt (ios s) (next s) (socks s) (stale s) x (pending s) (queue s) (workers s) (curAcceptSock s) (mainst s) (signalled s) (printed s) (sent s).
Definition set_pending (s : St) x := MkSt (ios s) (next s) (socks s) (stale s) (events s) x (queue s) (workers s) (curAcceptSock s) (mainst s) (signalled s) (printed s) (sent s).
Definition set_queue (s : St) x := MkSt (ios s) (next s) (socks s) (stale s) (events s) (pending s) x (workers s) (curAcceptSock s) (mainst s) (signalled s) (printed s) (sent s).
Definition set_workers (s : St) x := MkSt (ios s) (next s) (socks s) (stale s) (events s) (pending s) (queue s) x (curAcceptSock s) (mainst s) (signalled s) (printed s) (sent s).
Definition set_cur (s : St) x := MkSt (ios s) (next s) (socks s) (stale s) (events s) (pending s) (queue s) (workers s) x (mainst s) (signalled s) (printed s) (sent s).
Definition set_main (s : St) x := MkSt (ios s) (next s) (socks s) (stale s) (events s) (pending s) (queue s) (workers s) (curAcceptSock s) x (signalled s) (printed s) (sent s).
Definition set_signalled (s : St) x := MkSt (ios s) (next s) (socks s) (stale s) (events s) (pending s) (queue s) (workers s) (curAcceptSock s) (mainst s) x (printed s) (sent s).
Definition set_out (s : St) x y := MkSt (ios s) (next s) (socks s) (stale s) (events s) (pending s) (queue s) (workers s) (curAcceptSock s) (mainst s) (signalled s) x y.

(** ** The functions of the program *)

Definition get_io (p : nat) : ST IoData := let* m := s_get ios in s_some OutOfBounds (m !! p).
Definition put_io (p : nat) (d : IoData) : ST unit := s_mod (fun s => set_ios s (<[p := d]> (ios s))).

(** [closesocket], which only fails for [INVALID_SOCKET] *)
Definition socks_less (k : option nat) (ks : gset nat) : gset nat :=
  match k with Some k => ks ∖ {[k]} | None => ks end.
Definition stale_more (k : option nat) (ks : gset nat) (l : list nat) : list nat :=
  match k with Some k => if decide (k ∈ ks) then l else l ++ [k] | None => l end.
Definition closesocket (k : option nat) : ST unit := s_mod (fun s =>
  set_socks s (socks_less k (socks s)) (stale_more k (socks s) (stale s))).

Definition WSACloseEvent (e : nat) : ST unit :=
  let* es := s_get events in
  if decide (e ∈ es) then s_mod (fun s => set_events s (events s ∖ {[e]})) else s_fail BadFree.

(** The block [wsabuf.buf] is released with the [IoData]. *)
Definition CloseConn (p : nat) : ST unit :=
  let* d := get_io p in
  let* e := s_some Uninit (hEvent d) in
  (match e with Some e => WSACloseEvent e | None => s_ret tt end) ;*
  closesocket (cliSock d) ;*
  s_mod (fun s => set_ios s (delete p (ios s))) ;*
  s_mod (fun s => set_cur s None).

Definition begin (p : nat) : ST unit := s_mod (fun s => set_pending s ({[p]} ∪ pending s)).

Definition PostRead (p : nat) (ok : bool) : ST bool :=
  let* d := get_io p in
  put_io p (set_op d IoREAD) ;*
  if ok then begin p ;* s_ret true else CloseConn p ;* s_ret false.

Definition PostWrite (p : nat) (ok : bool) : ST bool :=
  let* d := get_io p in
  put_io p (set_op d IoWRITE) ;*
  let* l := s_some NullDeref (buf d) in
  let* t := (fun s => match Iocp.c_string l with OK t => OK (t, s) | Er e => Er e end) in
  s_mod (fun s => set_out s (printed s ++ [(cliSock d, t)]) (sent s)) ;*
  if ok then
    s_mod (fun s => set_out s (printed s) (sent s ++ [(cliSock d, take (Z.to_nat (len d)) l)])) ;*
    begin p ;* s_ret true
  else CloseConn p ;* s_ret false.

(** [buf[n] = 0], and the answer *)
Definition put_null (p : nat) (n : Z) : ST unit :=
  let* d := get_io p in
  let* l := s_some NullDeref (buf d) in
  if (0 <=? n) && (n <? Z.of_nat (length l)) then put_io p (set_buf d (<[Z.to_nat n := Some 0]> l))
  else s_fail OutOfBounds.

Definition WorkerThread_body (k : packet) (ok : bool) : ST bool :=
  let '(dwIoSize, ctx) := k in
  if dwIoSize =? 0 then
    match ctx with
    | None => s_ret true
    | Some p => CloseConn p ;* s_ret false
    end
  else
    let* p := s_some NullDeref ctx in
    let* d := get_io p in
    match opCode d with
    | Iocp.IoREAD => put_null p dwIoSize ;* PostWrite p ok ;* s_ret false
    | Iocp.IoWRITE => PostRead p ok ;* s_ret false
    end.

Definition OnSignal : ST unit :=
  let* k := s_get curAcceptSock in
  (match k with Some _ => closesocket k | None => s_ret tt end) ;*
  s_mod (fun s => set_signalled s true).

Section network.
(** The number of processors; as many threads are created, unless that fails *)
Variable threadCount : nat.

(** What follows the loop of [NetWork] *)
Definition leave : ST unit :=
  s_mod (fun s => set_queue s (queue s ++ replicate threadCount (0, None))) ;*
  s_mod (fun s => set_main s Left).

(** What [AcceptEx] answers: that it has failed, that the operation is under
    way, or that it is over *)
Inductive accept_answer : Type := AcceptFailed | AcceptPending | AcceptDone.

(** The answers to the calls of a round, up to the wait *)
Record answers : Type := MkAns {
  a_mem : bool;                     (* [malloc] of the block *)
  a_socket : bool;                  (* [WSASocket] *)
  a_buf : bool;                     (* [malloc] of its buffer *)
  a_event : bool;                   (* [WSACreateEvent] *)
  a_accept : accept_answer;         (* [AcceptEx], of a socket that is one *)
  a_wait : bool                     (* [WSAWaitForMultipleEvents] did not fail *)
}.

(** [AcceptEx] fails when it is given [INVALID_SOCKET]. *)
Definition accepts (a : answers) : accept_answer := if a_socket a then a_accept a else AcceptFailed.

(** When the wait fails the block is released, with the [OVERLAPPED] and the
    buffer that an [AcceptEx] under way writes to. *)
Definition NetWork_accept (a : answers) : ST unit :=
  if negb (a_mem a) then leave else
  let* k := s_get next in
  s_mod (fun s => set_socks (set_next s (S k)) (if a_socket a then {[k]} ∪ socks s else socks s) (stale s)) ;*
  let sock := if a_socket a then Some k else None in
  s_mod (fun s => set_cur s sock) ;*
  put_io k (MkIo None (if a_buf a then Some (replicate 1024 None) else None) 1024 IoREAD sock) ;*
  if negb (a_buf a) then CloseConn k ;* leave else
  let* d := get_io k in
  put_io k (set_event d None) ;*
  if negb (a_event a) then CloseConn k ;* leave else
  let* e := s_get next in
  s_mod (fun s => set_events (set_next s (S e)) ({[e]} ∪ events s)) ;*
  put_io k (set_event d (Some e)) ;*
  match accepts a with
  | AcceptFailed => CloseConn k ;* leave
  | AcceptPending => if a_wait a then s_mod (fun s => set_main s (Accepting k)) else s_fail BadFree
  | AcceptDone => if a_wait a then s_mod (fun s => set_main s (Accepting k)) else CloseConn k ;* leave
  end.

(** The rest of the round, with the answer of [WSAGetOverlappedResult]: the
    number of bytes, or a failure *)
Definition NetWork_accepted (p : nat) (n : option Z) (bound ok : bool) : ST unit :=
  match n with
  | None => CloseConn p ;* leave
  | Some n =>
      (if n =? 0 then CloseConn p
       else if negb bound then CloseConn p
       else put_null p n ;* PostWrite p ok ;* s_ret tt) ;*
      s_mod (fun s => set_main s Idle)
  end.

(** The start of [NetWork] is that of server.c, but for [AcceptEx], which is
    looked up in the place of [SetNonblocking]; when that fails the threads are
    left waiting. *)
Definition NetWork_setup (a : Iocp.start_answers) : bool * Iocp.held :=
  let '(ok, h) := Iocp.NetWork_threads a in
  if ok then if Iocp.a_ioctl a then (true, h) else (false, Iocp.NetWork_cleanup h) else (false, h).

(** [NetWork] with [n] worker threads created *)
Definition NetWork_start (n : nat) : St :=
  MkSt ∅ 0 ∅ [] ∅ ∅ [] (replicate n Waiting) None Idle false [] [].

(** ** Steps *)

Definition after_step {A} (c : ST A) (s : St) : res St :=
  match c s with OK (_, s') => OK s' | Er e => Er e end.

Definition handle (i : nat) (k : packet) (ok : bool) : ST unit :=
  let* b := WorkerThread_body k ok in
  s_mod (fun s => set_workers s (<[i := if b : bool then Exited else Waiting]> (workers s))).

Definition complete (p : nat) (n : Z) (s : St) : St :=
  set_queue (set_pending s (pending s ∖ {[p]})) (queue s ++ [(n, Some p)]).

(** The buffer of an accepted connection: the message, what was there, and the
    addresses in the last 64 bytes *)
Definition accepted_buf (bytes addrs : list Z) (l : list (option Z)) : list (option Z) :=
  map Some bytes ++ take (960 - length bytes) (drop (length bytes) l) ++ map Some addrs.

Definition receive (p : nat) (d : IoData) (l : list (option Z)) (bytes addrs : list Z) (s : St) : St :=
  set_ios s (<[p := set_buf d (accepted_buf bytes addrs l)]> (ios s)).

Inductive step (s : St) : res St -> Prop :=
  | step_accept a : mainst s = Idle -> step s (after_step (NetWork_accept a) s)
  | step_accept_failed p : mainst s = Accepting p -> step s (after_step (NetWork_accepted p None false false) s)
  | step_accepted p d l bytes addrs bound ok :
      mainst s = Accepting p -> ios s !! p = Some d -> buf d = Some l ->
      (length bytes <= 960)%nat -> length addrs = 64%nat ->
      step s (after_step (NetWork_accepted p (Some (Z.of_nat (length bytes))) bound ok) (receive p d l bytes addrs s))
  | step_signal : signalled s = false -> step s (after_step OnSignal s)
  | step_received p d l (bytes : list Z) :
      p ∈ pending s -> ios s !! p = Some d -> opCode d = IoREAD -> buf d = Some l ->
      Z.of_nat (length bytes) <= len d ->
      step s (OK (complete p (Z.of_nat (length bytes))
        (set_ios s (<[p := set_buf d (map Some bytes ++ drop (length bytes) l)]> (ios s)))))
  | step_sent p d n :
      p ∈ pending s -> ios s !! p = Some d -> opCode d = IoWRITE -> 0 < n <= len d ->
      step s (OK (complete p n s))
  | step_failed p : p ∈ pending s -> step s (OK (complete p 0 s))
  | step_take i k q :
      workers s !! i = Some Waiting -> queue s = k :: q ->
      step s (OK (set_workers (set_queue s q) (<[i := Handling k]> (workers s))))
  | step_handle i k ok :
      workers s !! i = Some (Handling k) -> step s (after_step (handle i k ok) s).

Inductive reachable (n : nat) : St -> Prop :=
  | reach_start : reachable n (NetWork_start n)
  | reach_step s s' : reachable n s -> step s (OK s') -> reachable n s'.

End network.
