(* ===== verification/IocpExSafe.v ===== *)
(** * The server with AcceptEx: what holds and what does not

    Blocks have one owner each, as in server.c, so memory is safe but for full
    buffers and for a buffer that could not be allocated.  Without the signal
    no socket is closed twice; the signal itself has the socket of the pending
    accept closed twice.  The event of every connection that is served is
    lost. *)

From stdpp Require Import gmap.
From S2P Require Import Prelude Words Monad IocpEx.
From S2P Require Iocp IocpSafe.

Local Open Scope Z_scope.
Local Open Scope st_scope.

Notation handled := IocpSafe.handled.
Notation farewell := IocpSafe.farewell.
Notation gone := IocpSafe.gone.
Notation written := IocpSafe.written.

(** ** Blocks and their owners *)

Definition io_ok (d : IoData) : Prop := len d = 1024 /\ exists l, buf d = Some l /\ length l = 1024%nat.

(** The event of a block: [held] is the block whose event is still there. *)
Definition event_ok (held : option nat) (es : gset nat) (p : nat) (d : IoData) : Prop :=
  if decide (held = Some p) then exists e, hEvent d = Some (Some e) /\ e ∈ es else hEvent d = Some None.

(** The open sockets are those of the live blocks, but for the one that the
    handler has closed while its block lives; that is the one socket that is
    ever closed twice. *)
Definition sock_ok (s : St) : Prop := exists h : option nat,
  socks s = socks_less h (dom (ios s)) /\
  (forall k, h = Some k -> signalled s = true /\ stale s = [] /\ k ∈ dom (ios s)) /\
  (length (stale s) <= 1)%nat /\
  (signalled s = false -> stale s = [] /\ forall k, curAcceptSock s = Some k -> k ∈ socks s).

(** [R] lists the blocks that the queue and the threads own. *)
Record base (R : list nat) (held : option nat) (s : St) : Prop := {
  b_own : R ++ elements (pending s) ≡ₚ elements (dom (ios s));
  b_io : map_Forall (fun p d => io_ok d /\ cliSock d = Some p /\ (p < next s)%nat) (ios s);
  b_event : map_Forall (event_ok held (events s)) (ios s);
  b_below : forall e, e ∈ events s -> (e < next s)%nat;
  b_sock : sock_ok s
}.

Lemma base_perm R R' held s : R ≡ₚ R' -> base R held s -> base R' held s.
Proof. intros HR [H1 H2 H3 H4 H5]. split; [by rewrite <- HR|done..]. Qed.

Lemma base_live R held s p : base R held s -> p ∈ R -> exists d, ios s !! p = Some d.
Proof.
  intros [Hown _ _ _ _] Hp. assert (p ∈ dom (ios s)) as Hd by (apply elem_of_elements; rewrite <- Hown; set_solver).
  by apply elem_of_dom in Hd as [d ?]; exists d.
Qed.

Lemma base_NoDup R held s : base R held s -> NoDup (R ++ elements (pending s)).
Proof. intros [Hown _ _ _ _]. rewrite Hown. apply NoDup_elements. Qed.

Lemma ex_get_io_at s p d : ios s !! p = Some d -> get_io p s = OK (d, s).
Proof. intros Hp. unfold get_io, s_bind. cbn. by rewrite Hp. Qed.

(** The state behind [CloseConn] *)
Definition event_set (d : IoData) : gset nat := match hEvent d with Some (Some e) => {[e]} | _ => ∅ end.
Definition closed (p : nat) (d : IoData) (s : St) : St :=
  MkSt (delete p (ios s)) (next s) (socks_less (cliSock d) (socks s)) (stale_more (cliSock d) (socks s) (stale s))
    (events s ∖ event_set d) (pending s) (queue s) (workers s) None (mainst s) (signalled s) (printed s) (sent s).

Lemma CloseConn_run s p d e : ios s !! p = Some d -> hEvent d = Some e -> event_set d ⊆ events s ->
  CloseConn p s = OK (tt, closed p d s).
Proof.
  intros Hp He Hin. unfold CloseConn. rewrite (s_bind_OK _ _ _ _ _ (ex_get_io_at s p d Hp)).
  unfold s_bind at 1. rewrite He. cbn [s_some]. unfold event_set in Hin. rewrite He in Hin.
  assert ((match e with Some e => WSACloseEvent e | None => s_ret tt end) s = OK (tt, set_events s (events s ∖ event_set d))) as Hev.
  { unfold event_set. rewrite He. destruct e as [x|].
    - unfold WSACloseEvent, s_bind. cbn. by rewrite decide_True by set_solver.
    - cbn. unfold set_events. rewrite difference_empty_L. by destruct s. }
  cbn. by rewrite (s_bind_OK _ _ _ _ _ Hev).
Qed.

(** The sockets behind [CloseConn] *)
Lemma sock_closed s p d : sock_ok s -> ios s !! p = Some d -> cliSock d = Some p -> sock_ok (closed p d s).
Proof.
  intros (h & Hs & Hh & Hl & Hsig) Hp Hk. assert (p ∈ dom (ios s)) as Hd by (apply elem_of_dom; by exists d).
  unfold sock_ok, closed. cbn. rewrite Hk, dom_delete_L. cbn [socks_less stale_more].
  destruct (decide (h = Some p)) as [->|Hne].
  - destruct (Hh p eq_refl) as (Hsg & Hst & _). exists None. rewrite Hs. cbn. rewrite decide_False by set_solver.
    split; [set_solver|]. rewrite Hst, Hsg. done.
  - exists h. assert (p ∈ socks s) as Hin by (rewrite Hs; destruct h as [k|]; cbn; set_solver).
    rewrite decide_True by done. split; [rewrite Hs; destruct h as [k|]; cbn; set_solver|].
    split; [intros k Hk'; destruct (Hh k Hk') as (H1 & H2 & H3); split; [done|]; split; [done|]; set_solver|].
    split; [done|]. intros Hf. by split; [apply Hsig|].
Qed.

Lemma sock_same s s' : socks s' = socks s -> stale s' = stale s -> dom (ios s') = dom (ios s) ->
  signalled s' = signalled s -> curAcceptSock s' = curAcceptSock s -> sock_ok s -> sock_ok s'.
Proof. unfold sock_ok. by intros -> -> -> -> ->. Qed.

Definition release (held : option nat) (p : nat) : option nat := if decide (held = Some p) then None else held.

Lemma release_self held p : release held p <> Some p.
Proof. unfold release. by destruct (decide (held = Some p)). Qed.

Lemma event_ok_release held es p q d : p <> q -> event_ok (release held p) es q d <-> event_ok held es q d.
Proof.
  intros Hne. unfold event_ok, release. destruct (decide (held = Some p)) as [->|]; [|done].
  by rewrite !decide_False by congruence.
Qed.

(** The event of a block is its own or gone. *)
Definition one_event (held : option nat) (s : St) : Prop :=
  forall p d q d', ios s !! p = Some d -> ios s !! q = Some d' -> p <> q -> event_set d ## event_set d'.

Lemma base_one_event R held s : base R held s -> one_event held s.
Proof.
  intros [_ _ He _ _] p d q d' Hp Hq Hne. pose proof (He p d Hp) as H1. pose proof (He q d' Hq) as H2.
  unfold event_ok, event_set in *. destruct (decide (held = Some p)) as [->|].
  - rewrite decide_False in H2 by congruence. rewrite H2. set_solver.
  - rewrite H1. set_solver.
Qed.

Lemma base_closed R held s p d : base (p :: R) held s -> ios s !! p = Some d ->
  CloseConn p s = OK (tt, closed p d s) /\ base R (release held p) (closed p d s).
Proof.
  intros Hb Hp. pose proof Hb as [Hown Hio Hev Hbelow Hsock].
  pose proof (Hev p d Hp) as Hd. pose proof (Hio p d Hp) as (_ & Hk & _).
  split.
  - unfold event_ok in Hd. destruct (decide (held = Some p)); [destruct Hd as (ev & He & Hin)|]; eapply CloseConn_run; try done;
      unfold event_set; [rewrite He|rewrite Hd]; set_solver.
  - split; cbn.
    + rewrite dom_delete_L. assert (p ∈ dom (ios s)) as Hpd by (apply elem_of_dom; by exists d).
      rewrite (union_difference_singleton_L p (dom (ios s))) in Hown by done.
      rewrite elements_union_singleton in Hown by set_solver. by apply Permutation_cons_inv in Hown.
    + by apply map_Forall_delete.
    + intros q d' Hq. apply lookup_delete_Some in Hq as [Hne Hq]. pose proof (Hev q d' Hq) as Hq'.
      pose proof (base_one_event _ _ _ Hb p d q d' Hp Hq Hne) as Hdis. apply event_ok_release; [done|].
      unfold event_ok in *. destruct (decide (held = Some q)) as [->|]; [|done]. destruct Hq' as (e & He & Hin).
      exists e. split; [done|]. unfold event_set in Hdis at 2. rewrite He in Hdis. set_solver.
    + intros e He. apply Hbelow. set_solver.
    + by apply sock_closed.
Qed.

(** What a thread does to its block *)
Lemma base_update R held s p d d' : base R held s -> ios s !! p = Some d -> io_ok d' -> cliSock d' = cliSock d ->
  hEvent d' = hEvent d -> base R held (set_ios s (<[p := d']> (ios s))).
Proof.
  intros [Hown Hio Hev Hbelow Hsock] Hp Hok Hk He. assert (dom (<[p := d']> (ios s)) = dom (ios s)) as Hdom.
  { apply dom_insert_lookup_L. by exists d. }
  split; cbn; rewrite ?Hdom; try done.
  - apply map_Forall_insert_2; [|done]. destruct (Hio p d Hp) as (_ & H1 & H2). split; [done|]. split; [congruence|done].
  - apply map_Forall_insert_2; [|done]. pose proof (Hev p d Hp) as Hd. unfold event_ok in *. by rewrite He.
  - by apply (sock_same s).
Qed.

(** [memset] of a block forgets its event. *)
Lemma base_reset R held s p d k : base R held s -> ios s !! p = Some d ->
  base R (release held p) (set_ios s (<[p := set_op d k]> (ios s))).
Proof.
  intros [Hown Hio Hev Hbelow Hsock] Hp. assert (dom (<[p := set_op d k]> (ios s)) = dom (ios s)) as Hdom.
  { apply dom_insert_lookup_L. by exists d. }
  split; cbn; rewrite ?Hdom; try done.
  - apply map_Forall_insert_2; [|done]. exact (Hio p d Hp).
  - intros q d' Hq. apply lookup_insert_Some in Hq as [[<- <-]|[Hne Hq]].
    + unfold event_ok. by rewrite decide_False by apply release_self.
    + apply event_ok_release; [done|]. exact (Hev q d' Hq).
  - by apply (sock_same s).
Qed.

Lemma base_begin R held s p : base (p :: R) held s -> base R held (set_pending s ({[p]} ∪ pending s)).
Proof.
  intros Hb. pose proof (base_NoDup _ _ _ Hb) as Hnd. apply NoDup_cons in Hnd as [Hp _].
  destruct Hb as [Hown Hio Hev Hbelow Hsock]. split; try done. cbn. rewrite elements_union_singleton by set_solver.
  by rewrite <- Permutation_middle.
Qed.

Lemma base_out R held s x y : base R held s -> base R held (set_out s x y).
Proof. by intros []. Qed.

(** What a function does not change *)
Definition frame (s s' : St) : Prop :=
  next s' = next s /\ queue s' = queue s /\ workers s' = workers s /\ mainst s' = mainst s /\ signalled s' = signalled s.

(** [PostRead] and [PostWrite]: the block goes to the system, or is closed. *)
Lemma ex_PostRead_spec R held s p d ok : base (p :: R) held s -> ios s !! p = Some d -> exists b s',
  PostRead p ok s = OK (b, s') /\ base R (release held p) s' /\ frame s s' /\
  (forall q, q <> p -> ios s' !! q = ios s !! q) /\ events s' = events s.
Proof.
  intros Hb Hp. unfold PostRead. rewrite (s_bind_OK _ _ _ _ _ (ex_get_io_at s p d Hp)). erewrite s_bind_OK by reflexivity.
  pose proof (base_reset _ _ _ p d IoREAD Hb Hp) as Hr. destruct ok.
  - erewrite s_bind_OK by reflexivity. do 2 eexists. split; [reflexivity|].
    split; [by apply (base_begin R _ _ p) in Hr|]. split; [done|]. split; [|done].
    intros q Hq. cbn. by apply lookup_insert_ne.
  - destruct (base_closed R _ _ p (set_op d IoREAD) Hr) as [Hrun Hb']; [apply lookup_insert_eq|].
    rewrite (s_bind_OK _ _ _ _ _ Hrun). do 2 eexists. split; [reflexivity|]. split.
    { assert (release (release held p) p = release held p) as <-; [|done].
      unfold release. destruct (decide (held = Some p)); [done|by rewrite decide_False]. }
    split; [done|]. split; [|cbn; by rewrite difference_empty_L].
    intros q Hq. cbn. by rewrite lookup_delete_ne, lookup_insert_ne.
Qed.

Lemma ex_PostWrite_spec R held s p d l t ok : base (p :: R) held s -> ios s !! p = Some d -> buf d = Some l ->
  Iocp.c_string l = OK t -> exists b s',
  PostWrite p ok s = OK (b, s') /\ base R (release held p) s' /\ frame s s' /\
  (forall q, q <> p -> ios s' !! q = ios s !! q) /\ events s' = events s /\
  (ok = true -> ios s' !! p = Some (set_op d IoWRITE)).
Proof.
  intros Hb Hp Hl Ht. unfold PostWrite. rewrite (s_bind_OK _ _ _ _ _ (ex_get_io_at s p d Hp)). erewrite s_bind_OK by reflexivity.
  rewrite Hl. erewrite s_bind_OK by reflexivity. erewrite s_bind_OK by (cbv beta; rewrite Ht; reflexivity).
  erewrite s_bind_OK by reflexivity. pose proof (base_reset _ _ _ p d IoWRITE Hb Hp) as Hr. destruct ok.
  - do 2 (erewrite s_bind_OK by reflexivity). do 2 eexists. split; [reflexivity|].
    split; [by apply (base_begin R _ _ p) in Hr; destruct Hr|]. split; [done|].
    split; [intros q Hq; cbn; by apply lookup_insert_ne|]. split; [done|]. intros _. cbn. apply lookup_insert_eq.
  - assert (base (p :: R) (release held p) (set_out (set_ios s (<[p := set_op d IoWRITE]> (ios s))) (printed s ++ [(cliSock d, t)]) (sent s)))
      as Hr2 by (by apply base_out).
    destruct (base_closed R _ _ p (set_op d IoWRITE) Hr2) as [Hrun Hb']; [apply lookup_insert_eq|].
    erewrite s_bind_OK by exact Hrun. do 2 eexists. split; [reflexivity|]. split.
    { assert (release (release held p) p = release held p) as <-; [|done].
      unfold release. destruct (decide (held = Some p)); [done|by rewrite decide_False]. }
    split; [done|]. split; [|split; [cbn; by rewrite difference_empty_L|done]].
    intros q Hq. cbn. by rewrite lookup_delete_ne, lookup_insert_ne.
Qed.

(** [buf[n] = 0] and the answer *)
Lemma answer_spec R held s p d l n ok : base (p :: R) held s -> ios s !! p = Some d -> buf d = Some l ->
  written l n -> 0 <= n < 1024 -> exists b s',
  (put_null p n ;* PostWrite p ok) s = OK (b, s') /\ base R (release held p) s' /\ frame s s' /\
  (forall q, q <> p -> ios s' !! q = ios s !! q) /\ events s' = events s /\
  (ok = true -> exists l', ios s' !! p = Some (MkIo (Some None) l' (len d) IoWRITE (cliSock d))).
Proof.
  intros Hb Hp Hl Hw Hn. pose proof (b_io _ _ _ Hb p d Hp) as ((Hlen & l' & Hl' & Hll) & _). assert (l' = l) as -> by congruence.
  set (l2 := <[Z.to_nat n := Some 0]> l). set (d2 := set_buf d l2).
  destruct (IocpSafe.c_string_ends l2 (Z.to_nat n)) as [t Ht].
  { intros i Hi. unfold l2. rewrite list_lookup_insert_ne by lia. apply Hw. lia. }
  { unfold l2. apply list_lookup_insert_eq. lia. }
  assert (put_null p n s = OK (tt, set_ios s (<[p := d2]> (ios s)))) as Hput.
  { unfold put_null. rewrite (s_bind_OK _ _ _ _ _ (ex_get_io_at s p d Hp)), Hl. erewrite s_bind_OK by reflexivity.
    by rewrite Hll, (proj2 (Z.leb_le _ _)), (proj2 (Z.ltb_lt _ _)) by lia. }
  rewrite (s_bind_OK _ _ _ _ _ Hput).
  assert (base (p :: R) held (set_ios s (<[p := d2]> (ios s)))) as Hb2.
  { apply (base_update _ _ s p d); try done. split; [done|]. exists l2. split; [done|]. unfold l2. by rewrite length_insert. }
  destruct (ex_PostWrite_spec R held _ p d2 l2 t ok Hb2) as (b & s' & Hrun & Hb' & Hf & Hq & He & Hok);
    [apply lookup_insert_eq|done|done|].
  exists b, s'. split; [done|]. split; [done|]. split; [done|]. split.
  { intros q Hne. rewrite Hq by done. cbn. by apply lookup_insert_ne. }
  split; [done|]. intros Hok'. exists (Some l2). by rewrite (Hok Hok').
Qed.

(** ** The invariant *)

Section network.
Variable threadCount : nat.
Notation leave := (leave threadCount).
Notation NetWork_accept := (NetWork_accept threadCount).
Notation NetWork_accepted := (NetWork_accepted threadCount).
Notation step := (step threadCount).
Notation reachable := (reachable threadCount).

Definition packet_ok (m : gmap nat IoData) (k : packet) : Prop :=
  match k with
  | (n, None) => n = 0
  | (n, Some p) => 0 <= n <= 1024 /\
      forall d l, m !! p = Some d -> opCode d = IoREAD -> buf d = Some l -> written l n
  end.

Definition packets (s : St) : list packet := queue s ++ omap handled (workers s).
Definition farewells (s : St) : Z := zsum farewell (packets s) + zsum gone (workers s).

(** The block the main thread waits for *)
Definition acc (s : St) : option nat := match mainst s with Accepting p => Some p | _ => None end.
Definition owners (s : St) : list nat := omap snd (packets s) ++ option_list (acc s).

Record inv (s : St) : Prop := {
  inv_base : base (owners s) (acc s) s;
  inv_packet : Forall (packet_ok (ios s)) (packets s);
  inv_farewell : farewells s = match mainst s with Left => Z.of_nat threadCount | _ => 0 end
}.

(** The main thread owns nothing. *)
Record quiet (s : St) : Prop := {
  qu_base : base (omap snd (packets s)) None s;
  qu_packet : Forall (packet_ok (ios s)) (packets s);
  qu_farewell : farewells s = 0
}.

Lemma ex_packet_ok_same (m m' : gmap nat IoData) k : (forall p, k.2 = Some p -> m' !! p = m !! p) -> packet_ok m k -> packet_ok m' k.
Proof. destruct k as [n [p|]]; [|done]. cbn. intros Hm. by rewrite (Hm p). Qed.

(** The packets are as they were when their blocks are. *)
Lemma packets_same s s' : queue s' = queue s -> workers s' = workers s -> Forall (packet_ok (ios s)) (packets s) ->
  (forall p, p ∈ omap snd (packets s) -> ios s' !! p = ios s !! p) -> Forall (packet_ok (ios s')) (packets s').
Proof.
  intros Hq Hw Hpk Hios. assert (packets s' = packets s) as -> by (unfold packets; by rewrite Hq, Hw).
  rewrite Forall_forall in Hpk |- *. intros k Hk. apply (ex_packet_ok_same (ios s)); [|by apply Hpk].
  intros p Hp. apply Hios, list_elem_of_omap. by exists k.
Qed.

Lemma farewells_same s s' : queue s' = queue s -> workers s' = workers s -> farewells s' = farewells s.
Proof. intros Hq Hw. unfold farewells, packets. by rewrite Hq, Hw. Qed.

Lemma quiet_idle s : quiet s -> inv (set_main s Idle).
Proof.
  intros [Hb Hp Hf]. split; [|done|done]. unfold owners. cbn. rewrite app_nil_r. by destruct Hb.
Qed.

Lemma quiet_of s : inv s -> acc s = None -> mainst s <> Left -> quiet s.
Proof.
  intros [Hb Hp Hf] Ha Hm. split; [|done|by destruct (mainst s)]. unfold owners in Hb. by rewrite Ha, app_nil_r in Hb.
Qed.

Lemma zsum_replicate_one (n : nat) : zsum farewell (replicate n ((0, None) : packet)) = Z.of_nat n.
Proof. induction n as [|n IH]; [done|]. cbn [replicate zsum]. rewrite IH. cbn. lia. Qed.

Lemma leave_spec s : quiet s -> exists s', leave s = OK (tt, s') /\ inv s'.
Proof.
  intros [Hb Hp Hf]. eexists. split; [reflexivity|]. set (s' := set_main _ _).
  set (bye := replicate threadCount ((0, None) : packet)).
  assert (packets s' ≡ₚ bye ++ packets s) as Hpk.
  { unfold packets, s'. cbn. fold bye. rewrite <- app_assoc. apply Permutation_app_swap_app. }
  assert (forall n, omap snd (replicate n ((0, None) : packet)) = []) as Hbye by (induction n; done).
  split.
  - unfold owners. cbn [acc s' mainst set_main option_list]. rewrite app_nil_r.
    apply (base_perm (omap snd (packets s))); [by rewrite Hpk, omap_app; unfold bye; rewrite Hbye|]. by destruct Hb.
  - rewrite Hpk. apply Forall_app. split; [|done]. by apply Forall_replicate.
  - unfold farewells. rewrite (IocpSafe.zsum_perm _ _ _ Hpk), zsum_app. unfold bye. rewrite zsum_replicate_one.
    unfold farewells in Hf. cbn [s' set_main set_queue workers mainst]. lia.
Qed.

Lemma ex_inv_start n : inv (NetWork_start n).
Proof.
  assert (omap handled (replicate n Waiting) = []) as Hw by (induction n; done).
  split; cbn.
  - unfold owners, packets. cbn. rewrite Hw. split; cbn; [by rewrite dom_empty_L, elements_empty|apply map_Forall_empty..|set_solver|].
    exists None. cbn. rewrite dom_empty_L. split; [done|]. split; [done|]. split; [lia|]. done.
  - unfold packets. cbn. by rewrite Hw.
  - unfold farewells, packets. cbn. rewrite Hw. cbn. by apply zsum_replicate.
Qed.

(** *** The main thread *)

(** A fresh block, without an event *)
Lemma base_new R s d : base R None s -> io_ok d -> cliSock d = Some (next s) -> hEvent d = Some None ->
  base (next s :: R) None (set_cur (set_ios (set_socks (set_next s (S (next s))) ({[next s]} ∪ socks s) (stale s)) (<[next s := d]> (ios s))) (Some (next s))).
Proof.
  intros [Hown Hio Hev Hbelow Hsock] Hok Hk He.
  assert (ios s !! next s = None) as Hfresh.
  { destruct (ios s !! next s) eqn:E; [|done]. apply Hio in E. lia. }
  split; cbn.
  - rewrite dom_insert_L, elements_union_singleton by (by apply not_elem_of_dom). by rewrite Hown.
  - apply map_Forall_insert_2; [split; [done|split; [done|lia]]|]. intros q d' Hq. apply Hio in Hq as (H1 & H2 & H3).
    split; [done|]. split; [done|lia].
  - by apply map_Forall_insert_2.
  - intros e Hin. apply Hbelow in Hin. lia.
  - destruct Hsock as (h & Hs & Hh & Hl & Hsig). exists h. cbn. rewrite dom_insert_L, Hs.
    assert (next s ∉ dom (ios s)) as Hnd by (by apply not_elem_of_dom).
    split; [destruct h as [k|]; cbn; [destruct (Hh k eq_refl) as (_ & _ & Hkd)|]; set_solver|].
    split; [intros k Hk'; destruct (Hh k Hk') as (H1 & H2 & H3); split; [done|]; split; [done|]; set_solver|].
    split; [done|]. intros Hf. split; [by apply Hsig|]. intros k [= <-]. set_solver.
Qed.

(** Its event *)
Lemma base_event R s p d : base (p :: R) None s -> ios s !! p = Some d ->
  base (p :: R) (Some p) (set_ios (set_events (set_next s (S (next s))) ({[next s]} ∪ events s)) (<[p := set_event d (Some (next s))]> (ios s))).
Proof.
  intros [Hown Hio Hev Hbelow Hsock] Hp.
  assert (dom (<[p := set_event d (Some (next s))]> (ios s)) = dom (ios s)) as Hdom by (apply dom_insert_lookup_L; by exists d).
  split; cbn; rewrite ?Hdom; try done.
  - apply map_Forall_insert_2; [destruct (Hio p d Hp) as (H1 & H2 & H3); split; [done|split; [done|lia]]|].
    intros q d' Hq. apply Hio in Hq as (H1 & H2 & H3). split; [done|]. split; [done|lia].
  - intros q d' Hq. apply lookup_insert_Some in Hq as [[<- <-]|[Hne Hq]].
    + unfold event_ok. rewrite decide_True by done. exists (next s). split; [done|set_solver].
    + unfold event_ok. rewrite decide_False by congruence. apply Hev in Hq. done.
  - intros e [->%elem_of_singleton|Hin]%elem_of_union; [lia|]. apply Hbelow in Hin. lia.
  - by apply (sock_same s).
Qed.

(** A quiet state after the main thread has given up a block of its own *)
Lemma quiet_after s s' held R : quiet s -> base R held s' -> R ≡ₚ omap snd (packets s) -> held = None ->
  queue s' = queue s -> workers s' = workers s ->
  (forall p, p ∈ omap snd (packets s) -> ios s' !! p = ios s !! p) -> quiet s'.
Proof.
  intros [Hb Hp Hf] Hb' HR -> Hq Hw Hios. assert (packets s' = packets s) as Hpk by (unfold packets; by rewrite Hq, Hw).
  split; [|by apply (packets_same s)|by rewrite (farewells_same s)].
  rewrite Hpk. by apply (base_perm R).
Qed.

(** A quiet state from which blocks, sockets and events are as they were, and
    some numbers are used up *)
Lemma quiet_same s s' : quiet s -> (next s <= next s')%nat -> ios s' = ios s -> socks s' = socks s -> stale s' = stale s ->
  events s' = events s -> pending s' = pending s -> queue s' = queue s -> workers s' = workers s ->
  curAcceptSock s' = None -> signalled s' = signalled s -> quiet s'.
Proof.
  intros Hq Hn Hi Hs Hst He Hp Hqu Hw Hc Hsg. pose proof Hq as [[H1 H2 H3 H4 H5] Hpk Hf].
  assert (packets s' = packets s) as Hpks by (unfold packets; by rewrite Hqu, Hw).
  split; [|apply (packets_same s); try done; by rewrite Hi|by rewrite (farewells_same s)].
  rewrite Hpks. split; rewrite ?Hp, ?Hi, ?He; try done.
  - intros q d Hd. apply H2 in Hd as (? & ? & ?). split; [done|]. split; [done|lia].
  - intros e Hin. apply H4 in Hin. lia.
  - destruct H5 as (h & H6 & H7 & H8 & H9). exists h. rewrite Hs, Hi, Hst, Hsg, Hc. split; [done|]. split; [done|].
    split; [done|]. intros Hf'. by split; [apply H9|].
Qed.

(** What a round of the main thread may come to before the wait *)
Definition round_fails (a : answers) (s : St) : Prop :=
  (NetWork_accept a s = Er Uninit /\ a_buf a = false) \/
  (NetWork_accept a s = Er BadFree /\ accepts a = AcceptPending /\ a_wait a = false).

(** Without a socket *)
Lemma accept_no_socket s a : quiet s -> a_mem a = true -> a_socket a = false -> a_buf a = true ->
  exists s', NetWork_accept a s = OK (tt, s') /\ inv s'.
Proof.
  intros Hq Hmem Hsock Hbuf. pose proof Hq as [[_ Hio _ Hbelow _] _ _]. unfold NetWork_accept, accepts. rewrite Hmem, Hsock, Hbuf. cbn [negb].
  assert (ios s !! next s = None) as Hfresh.
  { destruct (ios s !! next s) eqn:E; [|done]. apply Hio in E. lia. }
  do 4 (erewrite s_bind_OK by reflexivity).
  erewrite s_bind_OK by (apply ex_get_io_at; apply lookup_insert_eq). erewrite s_bind_OK by reflexivity.
  destruct (a_event a); cbn [negb]; [do 3 (erewrite s_bind_OK by reflexivity)|].
  - erewrite s_bind_OK.
    2:{ eapply CloseConn_run; [apply lookup_insert_eq|reflexivity|unfold event_set; cbn; set_solver]. }
    apply leave_spec. eapply (quiet_same s); [done|cbn; lia|..]; try done; cbn.
    + rewrite !insert_insert_eq. by apply delete_insert_id.
    + assert (S (next s) ∉ events s) as Hne by (intros Hin%Hbelow; lia). unfold event_set. cbn. set_solver.
  - erewrite s_bind_OK by (eapply CloseConn_run; [apply lookup_insert_eq|reflexivity|unfold event_set; cbn; set_solver]).
    apply leave_spec. eapply (quiet_same s); [done|cbn; lia|..]; try done; cbn.
    + rewrite !insert_insert_eq. by apply delete_insert_id.
    + unfold event_set. cbn. set_solver.
Qed.

Lemma ex_inv_accept s a : inv s -> mainst s = Idle ->
  (exists s', NetWork_accept a s = OK (tt, s') /\ inv s') \/ round_fails a s.
Proof.
  intros Hinv Hmain. assert (acc s = None) as Hacc by (unfold acc; by rewrite Hmain).
  pose proof (quiet_of s Hinv Hacc ltac:(congruence)) as Hq. pose proof Hq as [Hb Hpk Hf].
  destruct (a_mem a) eqn:Hmem; [|left; unfold NetWork_accept; rewrite Hmem; by apply leave_spec].
  destruct (a_buf a) eqn:Hbuf.
  2:{ right. left. split; [|done]. unfold NetWork_accept. rewrite Hmem, Hbuf. cbn [negb].
      do 4 (erewrite s_bind_OK by reflexivity). unfold CloseConn, s_bind at 1 2. erewrite ex_get_io_at by apply lookup_insert_eq. done. }
  destruct (a_socket a) eqn:Hsock; [|left; by apply accept_no_socket].
  unfold round_fails, NetWork_accept. rewrite Hmem, Hsock, Hbuf. cbn [negb].
  do 4 (erewrite s_bind_OK by reflexivity). set (k := next s).
  erewrite s_bind_OK by (apply ex_get_io_at; apply lookup_insert_eq). erewrite s_bind_OK by reflexivity.
  cbn [set_ios ios]. rewrite insert_insert_eq.
  set (d := set_event _ None). set (s1 := set_ios _ _).
  assert (base (k :: omap snd (packets s)) None s1) as Hb1.
  { apply (base_new _ s d Hb); [|done|done]. split; [done|]. by eexists. }
  assert (ios s1 !! k = Some d) as Hk by apply lookup_insert_eq.
  assert (forall p, p ∈ omap snd (packets s) -> p <> k) as Hother.
  { intros p Hp ->. destruct (base_live _ _ _ _ Hb Hp) as [d' Hd']. apply (b_io _ _ _ Hb) in Hd' as (_ & _ & Hlt). unfold k in Hlt. lia. }
  assert (forall p, p ∈ omap snd (packets s) -> ios s1 !! p = ios s !! p) as Hsame1.
  { intros p Hp. apply Hother in Hp. cbn. by rewrite lookup_insert_ne. }
  destruct (a_event a); cbn [negb].
  2:{ left. destruct (base_closed _ _ _ k d Hb1 Hk) as [Hrun Hb2]. rewrite (s_bind_OK _ _ _ _ _ Hrun). apply leave_spec.
      apply (quiet_after s _ _ _ Hq Hb2); try done.
      intros p Hp. cbn. rewrite delete_insert_eq. apply lookup_delete_ne. apply Hother in Hp. congruence. }
  do 3 (erewrite s_bind_OK by reflexivity).
  set (s2 := set_ios _ _).
  assert (base (k :: omap snd (packets s)) (Some k) s2) as Hb2 by exact (base_event _ s1 k d Hb1 Hk).
  assert (forall p, p ∈ omap snd (packets s) -> ios s2 !! p = ios s !! p) as Hsame2.
  { intros p Hp. rewrite <- Hsame1 by done. apply Hother in Hp. unfold s2. cbn. by rewrite lookup_insert_ne. }
  assert (exists s', (CloseConn k ;* leave) s2 = OK (tt, s') /\ inv s') as Hclose.
  { destruct (base_closed _ _ _ k (set_event d (Some (S k))) Hb2) as [Hrun Hb3]; [apply lookup_insert_eq|].
    rewrite (s_bind_OK _ _ _ _ _ Hrun). apply leave_spec. apply (quiet_after s _ _ _ Hq Hb3); try done.
    + unfold release. by rewrite decide_True.
    + intros p Hp. rewrite <- Hsame2 by done. cbn. apply lookup_delete_ne. apply Hother in Hp. congruence. }
  assert (exists s', s_mod (fun s => set_main s (Accepting k)) s2 = OK (tt, s') /\ inv s') as Hwait.
  { eexists. split; [reflexivity|]. assert (packets (set_main s2 (Accepting k)) = packets s) as Hpks by done. split.
    + unfold owners. rewrite Hpks. cbn [acc mainst set_main option_list].
      apply (base_perm (k :: omap snd (packets s))); [by rewrite Permutation_app_comm|]. by destruct Hb2.
    + by apply (packets_same s).
    + by rewrite (farewells_same s). }
  destruct (accepts a), (a_wait a); eauto 6.
Qed.

(** No packet names the block the main thread waits for, nor one that belongs
    to the system. *)
Lemma owners_apart s : inv s -> NoDup (owners s) /\ (forall p, p ∈ owners s -> p ∉ pending s).
Proof.
  intros Hinv. pose proof (base_NoDup _ _ _ (inv_base s Hinv)) as (H1 & H2 & _)%NoDup_app. split; [done|].
  intros p Hp Hpend. apply (H2 p Hp). by apply elem_of_elements.
Qed.

Lemma accepting_spec s p : inv s -> mainst s = Accepting p -> exists d l,
  ios s !! p = Some d /\ io_ok d /\ buf d = Some l /\ length l = 1024%nat /\
  base (p :: omap snd (packets s)) (Some p) s /\ p ∉ omap snd (packets s) /\ farewells s = 0.
Proof.
  intros Hinv Hm. pose proof Hinv as [Hb Hp Hf]. assert (acc s = Some p) as Hacc by (unfold acc; by rewrite Hm).
  destruct (owners_apart s Hinv) as [Hnd _]. unfold owners in Hb, Hnd. rewrite Hacc in Hb, Hnd. cbn in Hb, Hnd.
  apply NoDup_app in Hnd as (_ & Hnd & _).
  assert (base (p :: omap snd (packets s)) (Some p) s) as Hb' by (apply (base_perm (omap snd (packets s) ++ [p])); [by rewrite Permutation_app_comm|done]).
  destruct (base_live _ _ _ p Hb') as [d Hd]; [left|]. pose proof (b_io _ _ _ Hb' p d Hd) as ((Hlen & l & Hl & Hll) & _).
  exists d, l. split; [done|]. split; [split; eauto|]. split; [done|]. split; [done|]. split; [done|].
  split; [|by rewrite Hm in Hf]. intros Hin. apply (Hnd p Hin). left.
Qed.

Lemma written_accepted bytes addrs l : (length bytes <= 960)%nat -> written (accepted_buf bytes addrs l) (Z.of_nat (length bytes)).
Proof.
  intros Hlen i Hi. unfold accepted_buf. rewrite lookup_app_l by (rewrite length_map; lia). change (map Some bytes) with (Some <$> bytes).
  rewrite list_lookup_fmap. destruct (lookup_lt_is_Some_2 bytes i) as [c ->]; [lia|]. by exists c.
Qed.

Lemma accepted_length bytes addrs l : (length bytes <= 960)%nat -> length addrs = 64%nat -> length l = 1024%nat ->
  length (accepted_buf bytes addrs l) = 1024%nat.
Proof. intros Hb Ha Hl. unfold accepted_buf. rewrite !length_app, length_take, length_drop, !length_map, Ha, Hl. lia. Qed.

(** The block goes, closed or to the system, and the main thread is quiet. *)
Lemma quiet_closed s p d : inv s -> mainst s = Accepting p -> ios s !! p = Some d ->
  CloseConn p s = OK (tt, closed p d s) /\ quiet (closed p d s).
Proof.
  intros Hinv Hm Hd. destruct (accepting_spec s p Hinv Hm) as (d' & l & Hd' & _ & _ & _ & Hb & Hnot & Hf).
  destruct (base_closed _ _ _ p d Hb Hd) as [Hrun Hb']. split; [done|]. pose proof Hinv as [_ Hp _].
  assert (packets (closed p d s) = packets s) as Hpk by done. split.
  - rewrite Hpk. unfold release in Hb'. by rewrite decide_True in Hb'.
  - apply (packets_same s); [done..|]. intros q Hq. cbn. apply lookup_delete_ne. intros <-. done.
  - by rewrite (farewells_same s).
Qed.

Lemma inv_accept_failed s p : inv s -> mainst s = Accepting p ->
  exists s', NetWork_accepted p None false false s = OK (tt, s') /\ inv s'.
Proof.
  intros Hinv Hm. destruct (accepting_spec s p Hinv Hm) as (d & _ & Hd & _).
  destruct (quiet_closed s p d Hinv Hm Hd) as [Hrun Hq]. cbn [NetWork_accepted]. rewrite (s_bind_OK _ _ _ _ _ Hrun).
  by apply leave_spec.
Qed.

Lemma inv_receive s p d l bytes addrs : inv s -> mainst s = Accepting p -> ios s !! p = Some d -> buf d = Some l ->
  (length bytes <= 960)%nat -> length addrs = 64%nat -> inv (receive p d l bytes addrs s).
Proof.
  intros Hinv Hm Hd Hl Hbytes Haddrs. pose proof Hinv as [Hb Hp Hf].
  destruct (accepting_spec s p Hinv Hm) as (d' & l' & Hd' & (Hlen & _) & Hl' & Hll & _ & Hnot & _).
  assert (d' = d) as -> by congruence. assert (l' = l) as -> by congruence.
  set (d2 := set_buf d (accepted_buf bytes addrs l)). split; [|apply (packets_same s); try done|done].
  - change (owners (receive p d l bytes addrs s)) with (owners s). change (acc (receive p d l bytes addrs s)) with (acc s).
    apply (base_update _ _ s p d d2); try done. split; [done|]. eexists. split; [reflexivity|]. by apply accepted_length.
  - intros q Hq. cbn. apply lookup_insert_ne. intros <-. done.
Qed.

Lemma inv_accepted s p d l bytes addrs bound ok : inv s -> mainst s = Accepting p -> ios s !! p = Some d -> buf d = Some l ->
  (length bytes <= 960)%nat -> length addrs = 64%nat -> exists s',
  NetWork_accepted p (Some (Z.of_nat (length bytes))) bound ok (receive p d l bytes addrs s) = OK (tt, s') /\ inv s'.
Proof.
  intros Hinv Hm Hd Hl Hbytes Haddrs. pose proof (inv_receive s p d l bytes addrs Hinv Hm Hd Hl Hbytes Haddrs) as Hinv1.
  set (s1 := receive p d l bytes addrs s) in *. assert (mainst s1 = Accepting p) as Hm1 by done.
  set (d2 := set_buf d (accepted_buf bytes addrs l)). assert (ios s1 !! p = Some d2) as Hd2 by apply lookup_insert_eq.
  destruct (quiet_closed s1 p d2 Hinv1 Hm1 Hd2) as [Hclose Hq]. cbn [NetWork_accepted].
  destruct (Z.eqb_spec (Z.of_nat (length bytes)) 0) as [Hz|Hz].
  { rewrite (s_bind_OK _ _ _ _ _ Hclose). eexists. split; [reflexivity|]. by apply quiet_idle. }
  destruct bound; cbn [negb].
  2:{ rewrite (s_bind_OK _ _ _ _ _ Hclose). eexists. split; [reflexivity|]. by apply quiet_idle. }
  destruct (accepting_spec s1 p Hinv1 Hm1) as (_ & _ & _ & _ & _ & _ & Hb & Hnot & Hf).
  destruct (answer_spec _ _ s1 p d2 _ (Z.of_nat (length bytes)) ok Hb Hd2 eq_refl) as (b & s2 & Hrun & Hb2 & (Hn & Hqu & Hw & _) & Hsame & _);
    [by apply written_accepted|lia|].
  assert ((put_null p (Z.of_nat (length bytes));* PostWrite p ok;* s_ret ()) s1 = OK (tt, s2)) as Hrun'.
  { apply s_bind_inv in Hrun as (u & s3 & H1 & H2). by rewrite (s_bind_OK _ _ _ _ _ H1), (s_bind_OK _ _ _ _ _ H2). }
  rewrite (s_bind_OK _ _ _ _ _ Hrun'). eexists. split; [reflexivity|]. apply quiet_idle.
  assert (packets s2 = packets s1) as Hpk by (unfold packets; by rewrite Hqu, Hw). split.
  - rewrite Hpk. unfold release in Hb2. by rewrite decide_True in Hb2.
  - apply (packets_same s1); [done|done|apply Hinv1|]. intros q Hq'. apply Hsame. intros ->. done.
  - by rewrite (farewells_same s1).
Qed.

(** The handler *)
Lemma ex_inv_signal s : inv s -> signalled s = false ->
  exists s', OnSignal s = OK (tt, s') /\ inv s' /\ ios s' = ios s /\ mainst s' = mainst s.
Proof.
  intros [[H1 H2 H3 H4 (h & Hs & Hh & _ & Hsig)] Hp Hf] Hsg. destruct (Hsig Hsg) as [Hst Hcur].
  assert (h = None) as -> by (destruct h as [k|]; [by destruct (Hh k eq_refl); congruence|done]). cbn in Hs.
  unfold OnSignal. erewrite s_bind_OK by reflexivity. destruct (curAcceptSock s) as [k|] eqn:Hc;
    (eexists; split; [reflexivity|]); (split; [|done]); (split; [split; try done|done|done]).
  - exists (Some k). cbn. rewrite Hs, Hst in *. specialize (Hcur k eq_refl). rewrite decide_True by done.
    split; [done|]. split; [intros ? [= <-]; done|]. split; [cbn; lia|done].
  - exists None. cbn. rewrite Hst. split; [done|]. split; [done|]. split; [cbn; lia|done].
Qed.

(** *** The system *)

Lemma ex_inv_complete s p n : inv s -> p ∈ pending s -> packet_ok (ios s) (n, Some p) -> inv (complete p n s).
Proof.
  intros [Hb Hpk Hf] Hp Hok.
  assert (packets (complete p n s) ≡ₚ (n, Some p) :: packets s) as Hpks.
  { unfold packets, complete. cbn. rewrite <- app_assoc. cbn [app]. by rewrite <- Permutation_middle. }
  split.
  - apply (base_perm (p :: owners s)); [unfold owners; rewrite Hpks; done|]. change (acc (complete p n s)) with (acc s).
    destruct Hb as [H1 H2 H3 H4 H5]. split; try done. cbn [complete pending set_pending set_queue ios]. rewrite <- H1.
    assert (elements (pending s) ≡ₚ p :: elements (pending s ∖ {[p]})) as ->; [|by rewrite <- Permutation_middle].
    rewrite <- elements_union_singleton by set_solver. by rewrite <- union_difference_singleton_L.
  - rewrite Hpks. by apply Forall_cons.
  - unfold farewells. rewrite (IocpSafe.zsum_perm _ _ _ Hpks). cbn. unfold farewells in Hf. cbn in Hf.
    destruct (mainst s); lia.
Qed.

Lemma ex_inv_received s p d l (bytes : list Z) : inv s -> p ∈ pending s -> ios s !! p = Some d -> buf d = Some l ->
  Z.of_nat (length bytes) <= len d ->
  inv (complete p (Z.of_nat (length bytes)) (set_ios s (<[p := set_buf d (map Some bytes ++ drop (length bytes) l)]> (ios s)))).
Proof.
  intros Hinv Hp Hd Hl Hlen. pose proof Hinv as [Hb Hpk Hf].
  destruct (b_io _ _ _ Hb p d Hd) as ((Hlen1024 & l' & Hl' & Hll) & _). assert (l' = l) as -> by congruence.
  set (d' := set_buf d (map Some bytes ++ drop (length bytes) l)).
  apply ex_inv_complete; [|done|].
  - split; [|apply (packets_same s); try done|done].
    + apply (base_update _ _ s p d d'); try done. split; [done|]. eexists. split; [reflexivity|].
      rewrite length_app, length_map, length_drop. lia.
    + intros q Hq. cbn. apply lookup_insert_ne. intros <-. destruct (owners_apart s Hinv) as [_ Hap].
      apply (Hap p); [|done]. unfold owners. set_solver.
  - cbn. split; [lia|]. intros e m He _ Hm i Hi. rewrite lookup_insert_eq in He. injection He as <-. injection Hm as <-.
    rewrite lookup_app_l by (rewrite length_map; lia). change (map Some bytes) with (Some <$> bytes).
    rewrite list_lookup_fmap. destruct (lookup_lt_is_Some_2 bytes i) as [c ->]; [lia|]. by exists c.
Qed.

(** *** The workers *)

Lemma ex_inv_take s i k q : inv s -> workers s !! i = Some Waiting -> queue s = k :: q ->
  inv (set_workers (set_queue s q) (<[i := Handling k]> (workers s))).
Proof.
  intros [Hb Hpk Hf] Hi Hq. set (s' := set_workers _ _).
  assert (packets s' ≡ₚ packets s) as Hp.
  { unfold packets. rewrite Hq. cbn [queue workers s' set_workers set_queue].
    pose proof (IocpSafe.omap_insert handled (workers s) i Waiting (Handling k) Hi) as Hp. cbn in Hp.
    rewrite Hp. by rewrite <- Permutation_middle. }
  split.
  - apply (base_perm (owners s)); [unfold owners; by rewrite Hp|]. by destruct Hb.
  - by rewrite Hp.
  - unfold farewells. rewrite (IocpSafe.zsum_perm _ _ _ Hp). cbn [workers s' set_workers set_queue mainst].
    rewrite (zsum_insert _ _ _ Waiting) by done. unfold farewells in Hf. cbn [IocpSafe.gone] in *.
    destruct (mainst s); lia.
Qed.

(** A worker is done with packet [k]: its block belongs to the system or is
    gone. *)
Lemma ex_inv_done s s' i k w R : inv s -> workers s !! i = Some (Handling k) -> handled w = None -> gone w = farewell k ->
  frame s s' -> packets s ≡ₚ k :: R -> (forall q, k.2 <> Some q -> ios s' !! q = ios s !! q) ->
  base (omap snd R ++ option_list (acc s)) (acc s) s' -> inv (set_workers s' (<[i := w]> (workers s'))).
Proof.
  intros Hinv Hi Hw Hg (Hnext & Hq & Hws & Hmain & Hsig) Hperm Hios Hb'. pose proof Hinv as [Hb Hpk Hf].
  set (s2 := set_workers s' _).
  assert (packets s ≡ₚ k :: packets s2) as Hp.
  { unfold packets, s2. cbn [queue workers set_workers]. rewrite Hq, Hws.
    pose proof (IocpSafe.omap_insert handled (workers s) i (Handling k) w Hi) as Hp. cbn in Hp. rewrite Hw in Hp. cbn in Hp.
    rewrite <- Hp. by rewrite <- Permutation_middle. }
  assert (R ≡ₚ packets s2) as HR by (rewrite Hp in Hperm; by apply Permutation_cons_inv in Hperm).
  assert (acc s2 = acc s) as Hacc by (unfold acc, s2; cbn; by rewrite Hmain).
  split.
  - unfold owners. rewrite Hacc. apply (base_perm (omap snd R ++ option_list (acc s))); [by rewrite HR|by destruct Hb'].
  - rewrite Hp in Hpk. apply Forall_cons in Hpk as [_ Hpk]. rewrite Forall_forall in Hpk |- *. intros k' Hk'.
    apply (ex_packet_ok_same (ios s)); [|by apply Hpk]. intros q Hkq. cbn. apply Hios. intros Hk.
    destruct (owners_apart s Hinv) as [Hnd _]. unfold owners in Hnd. rewrite Hp in Hnd. cbn in Hnd. rewrite Hk in Hnd.
    cbn in Hnd. apply NoDup_cons in Hnd as [Hnd _]. apply Hnd, elem_of_app. left. apply list_elem_of_omap. by exists k'.
  - unfold farewells in Hf |- *. rewrite (IocpSafe.zsum_perm _ _ _ Hp) in Hf. cbn [zsum] in Hf.
    change (workers s2) with (<[i := w]> (workers s')). change (mainst s2) with (mainst s'). rewrite Hws, Hmain. rewrite (zsum_insert _ _ _ (Handling k)) by done.
    cbn [IocpSafe.gone] in *. destruct (mainst s); lia.
Qed.

(** A message that fills the buffer *)
Definition fills (s : St) (k : packet) : Prop := exists p d,
  k = (1024, Some p) /\ ios s !! p = Some d /\ opCode d = IoREAD.

Lemma ex_inv_handle s i k ok : inv s -> workers s !! i = Some (Handling k) ->
  (exists s', handle i k ok s = OK (tt, s') /\ inv s') \/ (handle i k ok s = Er OutOfBounds /\ fills s k).
Proof.
  intros Hinv Hi. pose proof Hinv as [Hb Hpk Hf].
  assert (k ∈ packets s) as Hk.
  { unfold packets. apply elem_of_app. right. apply list_elem_of_omap. exists (Handling k). split; [|done]. by eapply list_elem_of_lookup_2. }
  destruct (list_elem_of_split _ _ Hk) as (k1 & k2 & Hks).
  assert (packets s ≡ₚ k :: (k1 ++ k2)) as Hperm by (rewrite Hks; by rewrite <- Permutation_middle).
  rewrite Forall_forall in Hpk. pose proof (Hpk k Hk) as Hok.
  set (R := omap snd (k1 ++ k2) ++ option_list (acc s)).
  assert (forall b s', WorkerThread_body k ok s = OK (b, s') -> frame s s' -> (forall q, k.2 <> Some q -> ios s' !! q = ios s !! q) ->
    base R (acc s) s' -> b = bool_decide (k.2 = None) -> exists s', handle i k ok s = OK (tt, s') /\ inv s') as Hdone.
  { intros b s' Hrun Hfr Hios Hb' ->. unfold handle. rewrite (s_bind_OK _ _ _ _ _ Hrun). eexists. split; [reflexivity|].
    eapply (ex_inv_done s s' i k _ (k1 ++ k2)); try done; by destruct k as [? []]. }
  destruct k as [n [p|]]; cbn [packet_ok] in Hok.
  2:{ left. subst n. apply (Hdone true s); [done|done|done| |done]. unfold R. apply (base_perm (owners s)); [|done].
      unfold owners. by rewrite Hperm. }
  destruct Hok as [Hn Hw].
  assert (base (p :: R) (acc s) s) as Hbp by (apply (base_perm (owners s)); [unfold owners; by rewrite Hperm|done]).
  assert (release (acc s) p = acc s) as Hrel.
  { unfold release. rewrite decide_False; [done|]. intros Ha. pose proof (base_NoDup _ _ _ Hbp) as Hnd.
    apply NoDup_cons in Hnd as [Hnd _]. apply Hnd. unfold R. rewrite Ha. set_solver. }
  destruct (base_live _ _ _ p Hbp) as [d Hd]; [left|].
  assert (forall s', (forall q, q <> p -> ios s' !! q = ios s !! q) -> forall q, Some p <> Some q -> ios s' !! q = ios s !! q) as Hne
    by (intros s' H q Hq; apply H; congruence).
  unfold WorkerThread_body in Hdone. destruct (Z.eqb_spec n 0) as [->|Hn0].
  { left. destruct (base_closed R _ s p d Hbp Hd) as [Hrun Hb']. rewrite Hrel in Hb'.
    apply (Hdone false (closed p d s)); [by rewrite (s_bind_OK _ _ _ _ _ Hrun)|done| |done|done].
    apply Hne. intros q Hq. cbn. by apply lookup_delete_ne. }
  assert (s_some NullDeref (Some p) s = OK (p, s)) as Hsome by done.
  destruct (opCode d) eqn:Hop.
  - destruct (b_io _ _ _ Hbp p d Hd) as ((Hlen & l & Hl & Hll) & _). specialize (Hw d l Hd Hop Hl).
    destruct (Z.eq_dec n 1024) as [->|Hne1024].
    { right. split; [|by exists p, d]. unfold handle, WorkerThread_body. apply s_bind_Er. cbn [Z.eqb].
      rewrite (s_bind_OK _ _ _ _ _ Hsome), (s_bind_OK _ _ _ _ _ (ex_get_io_at s p d Hd)), Hop.
      unfold put_null, s_bind at 1 2. by rewrite (ex_get_io_at s p d Hd), Hl; cbn; rewrite Hll. }
    left. destruct (answer_spec R _ s p d l n ok Hbp Hd Hl Hw) as (b & s' & Hrun & Hb' & Hfr & Hios & _); [lia|].
    rewrite Hrel in Hb'. apply (Hdone false s'); [|done|by apply Hne|done|done].
    rewrite (s_bind_OK _ _ _ _ _ Hsome), (s_bind_OK _ _ _ _ _ (ex_get_io_at s p d Hd)), Hop.
    apply s_bind_inv in Hrun as (u & s1 & H1 & H2). by rewrite (s_bind_OK _ _ _ _ _ H1), (s_bind_OK _ _ _ _ _ H2).
  - left. destruct (ex_PostRead_spec R _ s p d ok Hbp Hd) as (b & s' & Hrun & Hb' & Hfr & Hios & _).
    rewrite Hrel in Hb'. apply (Hdone false s'); [|done|by apply Hne|done|done].
    rewrite (s_bind_OK _ _ _ _ _ Hsome), (s_bind_OK _ _ _ _ _ (ex_get_io_at s p d Hd)), Hop.
    by rewrite (s_bind_OK _ _ _ _ _ Hrun).
Qed.

(** ** Every step *)

Lemma ex_inv_step s r : inv s -> step s r ->
  (exists s', r = OK s' /\ inv s') \/
  (r = Er OutOfBounds /\ exists i k, workers s !! i = Some (Handling k) /\ fills s k) \/
  (exists a, r = after_step (NetWork_accept a) s /\ mainst s = Idle /\
     ((r = Er Uninit /\ a_buf a = false) \/ (r = Er BadFree /\ accepts a = AcceptPending /\ a_wait a = false))).
Proof.
  intros Hinv Hstep. destruct Hstep as [a Hm|p Hm|p d l bytes addrs bound ok Hm Hd Hl Hb Ha|Hs|p d l bytes Hp Hd Hop Hl Hlen|p d n Hp Hd Hop Hn|p Hp|i k q Hi Hq|i k ok Hi];
    unfold after_step.
  - destruct (ex_inv_accept s a Hinv Hm) as [(s' & Hrun & Hinv')|[[Hrun Hbuf]|[Hrun Hw]]];
      [left|right; right; exists a..]; unfold after_step; rewrite Hrun; eauto 6.
  - left. destruct (inv_accept_failed s p Hinv Hm) as (s' & -> & Hinv'). eauto.
  - left. destruct (inv_accepted s p d l bytes addrs bound ok Hinv Hm Hd Hl Hb Ha) as (s' & -> & Hinv'). eauto.
  - left. destruct (ex_inv_signal s Hinv Hs) as (s' & -> & Hinv' & _). eauto.
  - left. eexists. split; [reflexivity|]. by apply ex_inv_received.
  - left. eexists. split; [reflexivity|]. apply ex_inv_complete; [done|done|].
    destruct (b_io _ _ _ (inv_base s Hinv) p d Hd) as ((Hlen & _) & _). split; [lia|]. intros d' l Hd' Hop'. congruence.
  - left. eexists. split; [reflexivity|]. apply ex_inv_complete; [done|done|]. split; [lia|]. intros d l _ _ _ i Hi. lia.
  - left. eexists. split; [reflexivity|]. by apply ex_inv_take.
  - destruct (ex_inv_handle s i k ok Hinv Hi) as [(s' & -> & Hinv')|[-> Hfull]]; [left|right; left]; eauto 10.
Qed.

Lemma ex_inv_reachable n s : reachable n s -> inv s.
Proof.
  induction 1 as [|s s' _ IH Hstep]; [apply ex_inv_start|].
  destruct (ex_inv_step s _ IH Hstep) as [(s2 & [= ->] & ?)|[[? _]|(a & _ & _ & [[? _]|[? _]])]]; done.
Qed.

(** ** Events that are lost *)

(** No block leads to the open event any more. *)
Definition lost (e : nat) (s : St) : Prop :=
  e ∈ events s /\ forall p d, ios s !! p = Some d -> e ∉ event_set d.

(** Nobody else's block has an event. *)
Lemma lost_iff R held s e : base R held s ->
  (e ∈ events s /\ forall p d, held = Some p -> ios s !! p = Some d -> e ∉ event_set d) -> lost e s.
Proof.
  intros Hb [He Hh]. split; [done|]. intros p d Hp. pose proof (b_event _ _ _ Hb p d Hp) as Hd. unfold event_ok in Hd.
  destruct (decide (held = Some p)) as [->|]; [by apply (Hh p d)|]. unfold event_set. rewrite Hd. set_solver.
Qed.

Lemma lost_closed e s p d : lost e s -> ios s !! p = Some d -> lost e (closed p d s).
Proof.
  intros [He Hh] Hd. pose proof (Hh p d Hd). split; cbn; [set_solver|]. intros q d' Hq.
  apply lookup_delete_Some in Hq as [_ Hq]. by apply (Hh q).
Qed.

Lemma lost_insert e s p d : lost e s -> e ∉ event_set d -> lost e (set_ios s (<[p := d]> (ios s))).
Proof.
  intros [He Hh] Hd. split; cbn; [done|]. intros q d' Hq. apply lookup_insert_Some in Hq as [[_ <-]|[_ Hq]]; [done|by apply (Hh q)].
Qed.

Lemma lost_same e s s' : lost e s -> ios s' = ios s -> events s' = events s -> lost e s'.
Proof. intros [He Hh] Hios Hev. split; [by rewrite Hev|]. intros q d. rewrite Hios. apply Hh. Qed.

(** The functions of the program keep lost what is lost. *)
Lemma CloseConn_inv p s u s' : CloseConn p s = OK (u, s') -> exists d, ios s !! p = Some d /\ s' = closed p d s.
Proof.
  unfold CloseConn, get_io, s_bind. cbn. destruct (ios s !! p) as [d|]; [|done]. cbn.
  destruct (hEvent d) as [[x|]|] eqn:He; [| |done]; cbn.
  - unfold WSACloseEvent, s_bind. cbn. destruct (decide (x ∈ events s)); [|done]. cbn. intros [= _ <-].
    exists d. split; [done|]. unfold closed, event_set. by rewrite He.
  - intros [= _ <-]. exists d. split; [done|]. unfold closed, event_set. by rewrite He, difference_empty_L.
Qed.

Lemma lost_CloseConn e p s u s' : lost e s -> CloseConn p s = OK (u, s') -> lost e s'.
Proof. intros Hl (d & Hd & ->)%CloseConn_inv. by apply lost_closed. Qed.

Lemma lost_reset e p s d k : lost e s -> lost e (set_ios s (<[p := set_op d k]> (ios s))).
Proof. intros Hl. by apply lost_insert. Qed.

Lemma get_io_inv p s d s' : get_io p s = OK (d, s') -> s' = s /\ ios s !! p = Some d.
Proof. unfold get_io, s_bind. cbn. destruct (ios s !! p) as [d'|]; [|done]. by intros [= <- <-]. Qed.

(** What ends an operation that was refused, or starts one *)
Lemma lost_tail e p (ok : bool) s b s' : lost e s ->
  (if ok then begin p ;* s_ret true else CloseConn p ;* s_ret false) s = OK (b, s') -> lost e s'.
Proof.
  intros Hl. destruct ok.
  - intros [= _ <-]. exact Hl.
  - intros (u & s1 & Hrun & Hret)%s_bind_inv. injection Hret as _ <-. by apply (lost_CloseConn e p s u).
Qed.

Lemma lost_PostRead e p ok s b s' : lost e s -> PostRead p ok s = OK (b, s') -> lost e s'.
Proof.
  intros Hl Hrun. unfold PostRead in Hrun. apply s_bind_inv in Hrun as (d & s1 & [-> Hd]%get_io_inv & Hrun).
  apply s_bind_inv in Hrun as (u & s2 & [= _ <-] & Hrun). eapply lost_tail; [|exact Hrun]. by apply lost_reset.
Qed.

Lemma lost_PostWrite e p ok s b s' : lost e s -> PostWrite p ok s = OK (b, s') -> lost e s'.
Proof.
  intros Hl Hrun. unfold PostWrite in Hrun. apply s_bind_inv in Hrun as (d & s1 & [-> Hd]%get_io_inv & Hrun).
  apply s_bind_inv in Hrun as (u & s2 & [= _ <-] & Hrun). apply s_bind_inv in Hrun as (l & s3 & [Hbuf ->]%s_some_inv & Hrun).
  apply s_bind_inv in Hrun as (t & s4 & Ht & Hrun). destruct (Iocp.c_string l); [|done]. injection Ht as _ <-.
  apply s_bind_inv in Hrun as (u2 & s5 & [= _ <-] & Hrun). destruct ok.
  - apply s_bind_inv in Hrun as (u3 & s6 & [= _ <-] & Hrun). injection Hrun as _ <-. by apply (lost_reset e p s d IoWRITE).
  - eapply (lost_tail e p false); [|exact Hrun]. by apply (lost_reset e p s d IoWRITE).
Qed.

Lemma lost_put_null e p n s u s' : lost e s -> put_null p n s = OK (u, s') -> lost e s'.
Proof.
  intros Hl Hrun. unfold put_null in Hrun. apply s_bind_inv in Hrun as (d & s1 & [-> Hd]%get_io_inv & Hrun).
  apply s_bind_inv in Hrun as (l & s3 & [Hbuf ->]%s_some_inv & Hrun). destruct (_ && _); [|done].
  injection Hrun as _ <-. apply lost_insert; [done|]. exact (proj2 Hl p d Hd).
Qed.

Lemma lost_leave e s u s' : lost e s -> leave s = OK (u, s') -> lost e s'.
Proof. intros Hl [= _ <-]. exact Hl. Qed.

Lemma lost_accepted e p n bound ok s u s' : lost e s -> NetWork_accepted p n bound ok s = OK (u, s') -> lost e s'.
Proof.
  intros Hl Hrun. destruct n as [n|]; cbn [NetWork_accepted] in Hrun; apply s_bind_inv in Hrun as (u1 & s1 & H1 & Hrun).
  - injection Hrun as _ <-. assert (lost e s1) as Hl1; [|exact Hl1].
    destruct (n =? 0); [by eapply lost_CloseConn|]. destruct (negb bound); [by eapply lost_CloseConn|].
    apply s_bind_inv in H1 as (u2 & s2 & H2 & H1). apply s_bind_inv in H1 as (b & s3 & H3 & [= _ <-]).
    eapply lost_PostWrite; [|exact H3]. by eapply lost_put_null.
  - eapply lost_leave; [|exact Hrun]. by eapply lost_CloseConn.
Qed.

Lemma lost_handle e i k ok s u s' : lost e s -> handle i k ok s = OK (u, s') -> lost e s'.
Proof.
  intros Hl Hrun. unfold handle in Hrun. apply s_bind_inv in Hrun as (b & s1 & H1 & [= _ <-]).
  assert (lost e s1) as Hl1; [|exact Hl1]. destruct k as [n [p|]]; unfold WorkerThread_body in H1; destruct (n =? 0).
  - apply s_bind_inv in H1 as (u2 & s2 & H2 & [= _ <-]). by eapply lost_CloseConn.
  - apply s_bind_inv in H1 as (q & s2 & [Hq ->]%s_some_inv & H1). apply s_bind_inv in H1 as (d & s3 & [-> Hd]%get_io_inv & H1).
    destruct (opCode d).
    + apply s_bind_inv in H1 as (u4 & s4 & H4 & H1). apply s_bind_inv in H1 as (b5 & s5 & H5 & [= _ <-]).
      eapply lost_PostWrite; [|exact H5]. by eapply lost_put_null.
    + apply s_bind_inv in H1 as (b5 & s5 & H5 & [= _ <-]). by eapply lost_PostRead.
  - by injection H1 as _ <-.
  - by apply s_bind_inv in H1 as (q & s2 & [Hq ->]%s_some_inv & H1).
Qed.

Lemma lost_signal e s u s' : lost e s -> OnSignal s = OK (u, s') -> lost e s'.
Proof.
  intros Hl Hrun. unfold OnSignal in Hrun. apply s_bind_inv in Hrun as (k & s1 & [= <- <-] & Hrun).
  apply s_bind_inv in Hrun as (u2 & s2 & H2 & [= _ <-]). assert (lost e s2) as Hl2; [|exact Hl2].
  destruct (curAcceptSock s) as [k|]; by injection H2 as _ <-.
Qed.

Lemma lost_accept e a s u s' : (e < next s)%nat -> lost e s -> NetWork_accept a s = OK (u, s') -> lost e s'.
Proof.
  intros Hlt Hl Hrun. unfold NetWork_accept in Hrun. generalize dependent (replicate 1024 (@None Z)). intros fresh Hrun.
  destruct (a_mem a); cbn [negb] in Hrun; [|by eapply lost_leave].
  do 4 (apply s_bind_inv in Hrun as (? & ? & [= <- <-] & Hrun)).
  set (d0 := MkIo None _ _ _ _) in Hrun.
  set (s0 := set_cur (set_socks (set_next s (S (next s))) (if a_socket a then {[next s]} ∪ socks s else socks s) (stale s)) (if a_socket a then Some (next s) else None)) in *.
  assert (lost e s0) as Hl0 by exact Hl.
  assert (lost e (set_ios s0 (<[next s := d0]> (ios s0)))) as Hl1 by (by apply lost_insert).
  destruct (a_buf a); cbn [negb] in Hrun.
  2:{ apply s_bind_inv in Hrun as (u1 & s1 & H1 & Hrun). eapply lost_leave; [|exact Hrun]. by eapply lost_CloseConn. }
  apply s_bind_inv in Hrun as (d & s1 & [-> Hd]%get_io_inv & Hrun). apply s_bind_inv in Hrun as (? & ? & [= _ <-] & Hrun).
  assert (lost e (set_ios s0 (<[next s := set_event d None]> (<[next s := d0]> (ios s0))))) as Hl2 by (by apply (lost_insert e _ _ _ Hl1)).
  destruct (a_event a); cbn [negb] in Hrun.
  2:{ apply s_bind_inv in Hrun as (u1 & s1 & H1 & Hrun). eapply lost_leave; [|exact Hrun]. eapply lost_CloseConn; [|exact H1]. exact Hl2. }
  do 3 (apply s_bind_inv in Hrun as (? & ? & [= <- <-] & Hrun)).
  match type of Hrun with _ ?s2 = _ => assert (lost e s2) as Hl3 end.
  { destruct Hl2 as [He Hh]. split; [clear -He; cbn in He |- *; set_solver|]. intros q d' Hq.
    cbn [ios set_ios set_events set_next] in Hq. apply lookup_insert_Some in Hq as [[_ <-]|[_ Hq]]; [|by apply (Hh q d')].
    unfold event_set. cbn. assert (e <> S (next s)) by lia. set_solver. }
  destruct (accepts a), (a_wait a); try discriminate Hrun; try (injection Hrun as _ <-; exact Hl3).
  all: apply s_bind_inv in Hrun as (u1 & s1 & H1 & Hrun); eapply lost_leave; [|exact Hrun]; by eapply lost_CloseConn.
Qed.

Lemma lost_step e s s' : inv s -> lost e s -> step s (OK s') -> lost e s'.
Proof.
  intros Hinv Hl Hstep. pose proof (b_below _ _ _ (inv_base s Hinv) e (proj1 Hl)) as Hlt.
  assert (forall {A} (c : ST A) s0 s1, after_step c s0 = OK s1 -> exists a, c s0 = OK (a, s1)) as Hafter.
  { intros A c s0 s1. unfold after_step. destruct (c s0) as [[a s2]|]; [|done]. intros [= ->]. by exists a. }
  remember (OK s') as r eqn:Heq.
  destruct Hstep as [a Hm|p Hm|p d l bytes addrs bound ok Hm Hd Hbuf Hb Ha|Hs|p d l bytes Hp Hd Hop Hbuf Hlen|p d n Hp Hd Hop Hn|p Hp|i k q Hi Hq|i k ok Hi].
  - apply Hafter in Heq as [u Hrun]. by eapply lost_accept.
  - apply Hafter in Heq as [u Hrun]. by eapply lost_accepted.
  - apply Hafter in Heq as [u Hrun]. eapply lost_accepted; [|exact Hrun]. apply lost_insert; [done|]. exact (proj2 Hl p d Hd).
  - apply Hafter in Heq as [u Hrun]. by eapply lost_signal.
  - injection Heq as <-. apply (lost_insert e s p); [done|]. exact (proj2 Hl p d Hd).
  - injection Heq as <-. exact Hl.
  - injection Heq as <-. exact Hl.
  - injection Heq as <-. exact Hl.
  - apply Hafter in Heq as [u Hrun]. by eapply lost_handle.
Qed.

Lemma all_gone ws : zsum gone ws = Z.of_nat (length ws) -> Forall (eq Exited) ws.
Proof.
  induction ws as [|w ws IH]; [done|]. cbn [zsum length]. intros H.
  assert (zsum gone ws <= 1 * Z.of_nat (length ws)) by (apply zsum_bound; intros [] _; cbn; lia).
  destruct w; cbn [gone] in H; [lia|lia|]. constructor; [done|]. apply IH. lia.
Qed.

(** ** Theorems *)


(** C37: until the signal no socket is closed twice and every open socket is
    that of one live block.  The signal, when the main thread waits for a client
    and the global variable still holds its socket, ends the loop and has that
    socket closed twice; when a worker has cleared the variable by closing
    another connection, it does nothing. *)
Theorem sockets_and_the_signal n s : reachable n s -> signalled s = false ->
  (stale s = [] /\ socks s = dom (ios s) /\ forall p d, ios s !! p = Some d -> cliSock d = Some p) /\
  (forall p, mainst s = Accepting p -> curAcceptSock s = Some p -> exists s1 s2,
     step s (OK s1) /\ step s1 (OK s2) /\ mainst s2 = Left /\ stale s2 = [p]) /\
  (curAcceptSock s = None -> OnSignal s = OK (tt, set_signalled s true)).
Proof.
  intros Hr Hsig. pose proof (ex_inv_reachable n s Hr) as Hinv. pose proof (inv_base s Hinv) as Hb.
  assert (socks s = dom (ios s) /\ stale s = []) as [Hsocks Hstale].
  { destruct (b_sock _ _ _ Hb) as (h & Hs & Hh & _ & Hst). destruct h as [k|]; [by destruct (Hh k eq_refl); congruence|].
    split; [done|by apply Hst]. }
  split; [|split].
  - split; [done|]. split; [done|]. intros p d Hp. by apply (b_io _ _ _ Hb p d Hp).
  - intros p Hm Hcur. destruct (accepting_spec s p Hinv Hm) as (d & _ & Hd & _).
    assert (p ∈ socks s) as Hin by (rewrite Hsocks; apply elem_of_dom; by exists d).
    set (s1 := set_signalled (set_socks s (socks s ∖ {[p]}) (stale s)) true).
    assert (OnSignal s = OK (tt, s1)) as Hrun1.
    { unfold OnSignal, s_bind. cbn. rewrite Hcur. cbn. by rewrite decide_True. }
    assert (step s (OK s1)) as Hstep1.
    { replace (OK s1) with (after_step OnSignal s) by (unfold after_step; by rewrite Hrun1). by apply step_signal. }
    assert (reachable n s1) as Hr1 by by eapply reach_step. pose proof (ex_inv_reachable n s1 Hr1) as Hinv1.
    assert (ios s1 !! p = Some d) as Hd1 by done. assert (mainst s1 = Accepting p) as Hm1 by done.
    destruct (quiet_closed s1 p d Hinv1 Hm1 Hd1) as [Hclose Hq].
    destruct (leave_spec (closed p d s1) Hq) as (s2 & Hleave & _).
    assert (NetWork_accepted p None false false s1 = OK (tt, s2)) as Hrun2.
    { cbn [NetWork_accepted]. by rewrite (s_bind_OK _ _ _ _ _ Hclose). }
    exists s1, s2. split; [done|]. split.
    { replace (OK s2) with (after_step (NetWork_accepted p None false false) s1) by (unfold after_step; by rewrite Hrun2).
      by apply step_accept_failed. }
    injection Hleave as <-. split; [done|]. cbn. destruct (b_io _ _ _ Hb p d Hd) as (_ & -> & _). cbn.
    rewrite decide_False by set_solver. by rewrite Hstale.
  - intros Hcur. unfold OnSignal, s_bind. cbn. by rewrite Hcur.
Qed.

(** Every worker is told to leave, where server.c tells one: none has left while
    the main thread is in its loop; behind it the null packets that wait or are
    being handled and the workers that have left are as many as there are
    processors, so that no worker is left when none of the packets is. *)
Theorem every_worker_is_told n s : reachable n s ->
  (mainst s <> Left -> zsum gone (workers s) = 0) /\
  (mainst s = Left -> zsum farewell (packets s) + zsum gone (workers s) = Z.of_nat threadCount) /\
  (mainst s = Left -> (length (workers s) <= threadCount)%nat -> zsum farewell (packets s) = 0 -> Forall (eq Exited) (workers s)).
Proof.
  intros Hr. pose proof (inv_farewell _ (ex_inv_reachable n s Hr)) as Hf. unfold farewells in Hf.
  assert (0 <= zsum farewell (packets s)) by (apply zsum_nonneg; intros [? []] _; cbn; lia).
  assert (0 <= zsum gone (workers s)) by (apply zsum_nonneg; intros [] _; cbn; lia).
  assert (zsum gone (workers s) <= 1 * Z.of_nat (length (workers s))) by (apply zsum_bound; intros [] _; cbn; lia).
  split; [intros Hm; destruct (mainst s); [lia|lia|done]|]. split; intros Hm; rewrite Hm in Hf; [done|]. intros Hlen Hnone.
  apply all_gone. lia.
Qed.

(** C38: once the first message of a connection has been answered, the event
    that was made for its accept is open and no block leads to it, and that
    stays so in every state that follows. *)
Theorem served_events_leak n s p d l bytes addrs ok s' : reachable n s -> mainst s = Accepting p ->
  ios s !! p = Some d -> buf d = Some l -> (0 < length bytes <= 960)%nat -> length addrs = 64%nat ->
  NetWork_accepted p (Some (Z.of_nat (length bytes))) true ok (receive p d l bytes addrs s) = OK (tt, s') ->
  exists e, hEvent d = Some (Some e) /\ lost e s' /\ forall s'', rtc (fun a b => step a (OK b)) s' s'' -> lost e s''.
Proof.
  intros Hr Hm Hd Hl Hb Ha Hrun. pose proof (ex_inv_reachable n s Hr) as Hinv.
  destruct (accepting_spec s p Hinv Hm) as (d' & l' & Hd' & _ & _ & _ & Hbase & _). assert (d' = d) as -> by congruence.
  pose proof (b_event _ _ _ Hbase p d Hd) as Hev. unfold event_ok in Hev. rewrite decide_True in Hev by done.
  destruct Hev as (e & He & Hin). exists e. split; [done|].
  assert (lost e s') as Hlost.
  { pose proof (inv_receive s p d l bytes addrs Hinv Hm Hd Hl (proj2 Hb) Ha) as Hinv1.
    set (s1 := receive p d l bytes addrs s) in *. set (d2 := set_buf d (accepted_buf bytes addrs l)).
    assert (ios s1 !! p = Some d2) as Hd2 by apply lookup_insert_eq.
    destruct (accepting_spec s1 p Hinv1 Hm) as (_ & _ & _ & _ & _ & _ & Hb1 & _).
    cbn [NetWork_accepted] in Hrun. rewrite (proj2 (Z.eqb_neq _ 0)) in Hrun by lia. cbn [negb] in Hrun.
    destruct (answer_spec _ _ s1 p d2 _ (Z.of_nat (length bytes)) ok Hb1 Hd2 eq_refl) as (b & s2 & Hans & Hb2 & _ & _ & Hevs & _);
      [apply written_accepted; lia|lia|].
    assert ((put_null p (Z.of_nat (length bytes));* PostWrite p ok;* s_ret ()) s1 = OK (tt, s2)) as Hrun'.
    { apply s_bind_inv in Hans as (u & s3 & H1 & H2). by rewrite (s_bind_OK _ _ _ _ _ H1), (s_bind_OK _ _ _ _ _ H2). }
    rewrite (s_bind_OK _ _ _ _ _ Hrun') in Hrun. injection Hrun as <-.
    assert (lost e s2) as Hl2; [|exact Hl2]. apply (lost_iff _ _ _ _ Hb2). rewrite Hevs. split; [done|].
    intros q d' Hq. unfold release in Hq. by rewrite decide_True in Hq. }
  split; [done|]. assert (step s (OK s')) as Hstep.
  { replace (OK s') with (after_step (NetWork_accepted p (Some (Z.of_nat (length bytes))) true ok) (receive p d l bytes addrs s))
      by (unfold after_step; by rewrite Hrun). apply step_accepted; [done|done|done|lia|done]. }
  assert (reachable n s') as Hr' by by eapply reach_step.
  intros s'' Hsteps. revert Hr' Hlost. clear Hrun Hstep. induction Hsteps as [|a b c Hab _ IH]; [done|].
  intros Ha' Hla. apply IH; [by eapply reach_step|]. eapply lost_step; [by eapply ex_inv_reachable|done|done].
Qed.


End network.

(** ** A run with one worker *)

(** A client that sends "No:1", the client that follows it, and the first one
    leaving *)
Definition all_well : answers := MkAns true true true true AcceptPending true.
Definition no1 : list Z := [78; 111; 58; 49].
Definition addresses : list Z := replicate 64 0.

Definition get_state (r : res St) (s : St) : St := match r with OK s' => s' | Er _ => s end.
Definition first_io : IoData := MkIo (Some (Some 1%nat)) (Some (replicate 1024 None)) 1024 IoREAD (Some 0%nat).
Definition ex1 : St := get_state (after_step (NetWork_accept 1 all_well) (NetWork_start 1)) (NetWork_start 1).
Definition ex2 : St := get_state (after_step (NetWork_accepted 1 0 (Some 4) true true)
  (receive 0 first_io (replicate 1024 None) no1 addresses ex1)) ex1.
Definition ex3 : St := get_state (after_step (NetWork_accept 1 all_well) ex2) ex2.
Definition ex4 : St := complete 0 0 ex3.
Definition ex5 : St := set_workers (set_queue ex4 []) [Handling (0, Some 0%nat)].
Definition ex6 : St := get_state (after_step (handle 0 (0, Some 0%nat) true) ex5) ex5.

Lemma ex1_reachable : reachable 1 1 ex1.
Proof.
  eapply reach_step; [apply reach_start|].
  assert (after_step (NetWork_accept 1 all_well) (NetWork_start 1) = OK ex1) as <- by (by vm_compute).
  by apply step_accept.
Qed.

Lemma ex2_step : step 1 ex1 (OK ex2).
Proof.
  assert (after_step (NetWork_accepted 1 0 (Some (Z.of_nat (length no1))) true true)
    (receive 0 first_io (replicate 1024 None) no1 addresses ex1) = OK ex2) as <- by (by vm_compute).
  apply step_accepted; [done|by vm_compute|done|cbn; lia|done].
Qed.

Lemma ex6_reachable : reachable 1 1 ex6.
Proof.
  assert (reachable 1 1 ex2) as H2 by exact (reach_step _ _ _ _ ex1_reachable ex2_step).
  assert (reachable 1 1 ex3) as H3.
  { eapply reach_step; [exact H2|]. assert (after_step (NetWork_accept 1 all_well) ex2 = OK ex3) as <- by (by vm_compute).
    by apply step_accept. }
  assert (reachable 1 1 ex4) as H4.
  { eapply reach_step; [exact H3|]. apply step_failed. assert (pending ex3 = {[0%nat]}) as -> by (by vm_compute). set_solver. }
  assert (reachable 1 1 ex5) as H5.
  { eapply reach_step; [exact H4|]. apply (step_take 1 ex4 0 (0, Some 0%nat) []); by vm_compute. }
  eapply reach_step; [exact H5|]. assert (after_step (handle 0 (0, Some 0%nat) true) ex5 = OK ex6) as <- by (by vm_compute).
  by apply step_handle.
Qed.

(** A client that is served, and a wait that fails *)
Definition no_wait : answers := MkAns true true true true AcceptPending false.


(** The first client alone, and the second one after the first has left *)
Lemma sockets_and_the_signal_witness :
  (reachable 1 1 ex1 /\ exists s1 s2, step 1 ex1 (OK s1) /\ step 1 s1 (OK s2) /\ mainst s2 = Left /\ stale s2 = [0%nat]) /\
  (reachable 1 1 ex6 /\ mainst ex6 = Accepting 2 /\ OnSignal ex6 = OK (tt, set_signalled ex6 true)).
Proof.
  split; split; [exact ex1_reachable| |exact ex6_reachable|split; [by vm_compute|]].
  - destruct (sockets_and_the_signal 1 1 ex1 ex1_reachable) as (_ & H & _); [by vm_compute|].
    apply (H 0%nat); by vm_compute.
  - destruct (sockets_and_the_signal 1 1 ex6 ex6_reachable) as (_ & _ & H); [by vm_compute|]. apply H. by vm_compute.
Defined.

Lemma served_events_leak_witness : reachable 1 1 ex1 /\ reachable 1 1 ex2 /\
  exists e, hEvent first_io = Some (Some e) /\ lost e ex2 /\ forall s'', rtc (fun a b => step 1 a (OK b)) ex2 s'' -> lost e s''.
Proof.
  split; [exact ex1_reachable|]. split; [exact (reach_step _ _ _ _ ex1_reachable ex2_step)|].
  apply (served_events_leak 1 1 ex1 0 first_io (replicate 1024 None) no1 addresses true ex2);
    [exact ex1_reachable|by vm_compute|by vm_compute|done|cbn; lia|done|by vm_compute].
Defined.

Lemma every_worker_is_told_witness : reachable 1 1 ex6 /\ zsum gone (workers ex6) = 0.
Proof. split; [exact ex6_reachable|]. apply (every_worker_is_told 1 1 ex6 ex6_reachable). by vm_compute. Defined.
