(* ===== verification/IoUring.v ===== *)
(** * Reading a file through a ring: [cmake/io_uring/main.c]

    One read request goes through an io_uring.  What the calls of the system and
    of liburing answer is a parameter; the state is what the program holds. *)

From S2P Require Import Prelude Bytes Monad.

Local Open Scope Z_scope.
Local Open Scope st_scope.

Definition BUF_SIZE : Z := 4096.

(** The answers; [a_res] is [cqe->res] and [a_data] what the kernel has written
    to the buffer by then. *)
Record answers : Type := MkAns {
  a_init : Z; a_cwd : list Z; a_open : Z; a_sqe : bool; a_submit : Z; a_wait : Z; a_res : Z; a_data : list Z
}.

Inductive line : Type :=
  | LInit (e : Z) | LOpen | LSqe | LSubmit (e : Z) | LWait (e : Z)
  | LFailed (e : Z)                 (* "Async read failed" *)
  | LRead (n : Z)                   (* "Read %d bytes:" *)
  | LText (l : list Z).

(** [prepared]: how many bytes the request in the queue asks for; [seen]:
    whether no completion waits to be marked *)
Record St : Type := MkSt {
  ring : bool; fd : bool; prepared : option Z; in_flight : option Z; seen : bool;
  buf : list (option Z); out : list line
}.
Notation ST := (ST St).

Definition print (l : line) : ST unit :=
  s_mod (fun s => MkSt (ring s) (fd s) (prepared s) (in_flight s) (seen s) (buf s) (out s ++ [l])).

(** The first bytes of the buffer are overwritten. *)
Definition fill (l : list Z) : ST unit := fun s =>
  if Z.of_nat (length l) <=? Z.of_nat (length (buf s)) then
    OK (tt, MkSt (ring s) (fd s) (prepared s) (in_flight s) (seen s) (map Some l ++ drop (length l) (buf s)) (out s))
  else Er OutOfBounds.

Definition io_uring_queue_init (ret : Z) : ST Z :=
  s_mod (fun s => MkSt (negb (ret <? 0)) (fd s) (prepared s) (in_flight s) (seen s) (buf s) (out s)) ;* s_ret ret.

Definition io_uring_queue_exit : ST unit :=
  let* r := s_get ring in
  if r then s_mod (fun s => MkSt false (fd s) None None (seen s) (buf s) (out s)) else s_fail BadFree.

Definition open_ (ret : Z) : ST Z :=
  s_mod (fun s => MkSt (ring s) (negb (ret <? 0)) (prepared s) (in_flight s) (seen s) (buf s) (out s)) ;* s_ret ret.

Definition close_ : ST unit :=
  let* f := s_get fd in
  if f then s_mod (fun s => MkSt (ring s) false (prepared s) (in_flight s) (seen s) (buf s) (out s)) else s_fail BadFree.

Definition io_uring_prep_read (n : Z) : ST unit :=
  s_mod (fun s => MkSt (ring s) (fd s) (Some n) (in_flight s) (seen s) (buf s) (out s)).

Definition io_uring_submit (ret : Z) : ST Z :=
  s_mod (fun s => if ret <? 0 then s else MkSt (ring s) (fd s) None (prepared s) (seen s) (buf s) (out s)) ;* s_ret ret.

(** The completion of the request arrives with its data. *)
Definition io_uring_wait_cqe (ret : Z) (data : list Z) : ST Z :=
  if ret <? 0 then s_ret ret else
  fill data ;*
  s_mod (fun s => MkSt (ring s) (fd s) (prepared s) None false (buf s) (out s)) ;* s_ret ret.

Definition io_uring_cqe_seen : ST unit :=
  s_mod (fun s => MkSt (ring s) (fd s) (prepared s) (in_flight s) true (buf s) (out s)).

(** [printf("%.*s", n, buf)]: at most [n] characters *)
Fixpoint bounded_string (n : nat) (l : list (option Z)) : res (list Z) :=
  match n with
  | O => OK []
  | S n =>
      match l with
      | [] => Er OutOfBounds
      | None :: _ => Er Uninit
      | Some c :: l =>
          if c =? 0 then OK [] else
          match bounded_string n l with OK s => OK (c :: s) | Er e => Er e end
      end
  end.

Definition print_text (n : Z) : ST unit :=
  let* l := s_get buf in
  let* t := (fun s => match bounded_string (Z.to_nat n) l with OK t => OK (t, s) | Er e => Er e end) in
  print (LText t).

Definition main (a : answers) : ST Z :=
  let* ret := io_uring_queue_init (a_init a) in
  if ret <? 0 then print (LInit (- ret)) ;* s_ret 1 else
  fill (a_cwd a) ;*                 (* getcwd *)
  let* fd := open_ (a_open a) in
  if fd <? 0 then print LOpen ;* io_uring_queue_exit ;* s_ret 1 else
  if negb (a_sqe a) then print LSqe ;* close_ ;* io_uring_queue_exit ;* s_ret 1 else
  io_uring_prep_read BUF_SIZE ;*
  let* ret := io_uring_submit (a_submit a) in
  if ret <? 0 then print (LSubmit (- ret)) ;* close_ ;* io_uring_queue_exit ;* s_ret 1 else
  let* ret := io_uring_wait_cqe (a_wait a) (a_data a) in
  if ret <? 0 then print (LWait (- ret)) ;* close_ ;* io_uring_queue_exit ;* s_ret 1 else
  (if a_res a <? 0 then print (LFailed (- a_res a))
   else print (LRead (a_res a)) ;* print_text (a_res a)) ;*
  io_uring_cqe_seen ;*
  close_ ;*
  io_uring_queue_exit ;*
  s_ret 0.

Definition start : St := MkSt false false None None true (replicate (Z.to_nat BUF_SIZE) None) [].

(** ** What it does *)

(** The documentation of [getcwd] and [read]: at most as much is written as was
    asked for, and the result is how much that was. *)
Record lawful (a : answers) : Prop := {
  lw_cwd : (length (a_cwd a) <= Z.to_nat BUF_SIZE)%nat;
  lw_data : (length (a_data a) <= Z.to_nat BUF_SIZE)%nat;
  lw_res : 0 <= a_res a -> a_res a = Z.of_nat (length (a_data a))
}.

Lemma bounded_string_map l rest : bounded_string (length l) (map Some l ++ rest) = OK (before_null l).
Proof. induction l as [|c l IH]; [done|]. cbn. destruct (c =? 0); [done|]. by rewrite IH. Qed.

(** The result and the lines: the first call that fails is named. *)
Definition outcome (a : answers) : Z * list line :=
  if a_init a <? 0 then (1, [LInit (- a_init a)]) else
  if a_open a <? 0 then (1, [LOpen]) else
  if negb (a_sqe a) then (1, [LSqe]) else
  if a_submit a <? 0 then (1, [LSubmit (- a_submit a)]) else
  if a_wait a <? 0 then (1, [LWait (- a_wait a)]) else
  if a_res a <? 0 then (0, [LFailed (- a_res a)]) else
  (0, [LRead (a_res a); LText (before_null (a_data a))]).

Lemma fill_fits l s : (length l <= length (buf s))%nat ->
  fill l s = OK (tt, MkSt (ring s) (fd s) (prepared s) (in_flight s) (seen s) (map Some l ++ drop (length l) (buf s)) (out s)) /\
  length (map Some l ++ drop (length l) (buf s)) = length (buf s).
Proof.
  intros Hl. unfold fill. rewrite (proj2 (Z.leb_le _ _)) by lia. split; [done|].
  rewrite length_app, length_map, length_drop. lia.
Qed.

(** Whatever the system answers, the program ends without reading
    beyond what has been written to its buffer, names the first call that
    failed or prints the file up to its first null byte, and has closed the
    ring and the file on every path. *)
Theorem uring_main (a : answers) : lawful a -> exists s,
  main a start = OK ((outcome a).1, s) /\ out s = (outcome a).2 /\ ring s = false /\ fd s = false /\ in_flight s = None.
Proof.
  intros [Hcwd Hdata Hres]. unfold main, outcome. cbn -[fill BUF_SIZE start].
  unfold s_bind at 1. cbn -[fill BUF_SIZE start]. destruct (a_init a <? 0); [by eexists|].
  destruct (fill_fits (a_cwd a) (MkSt true false None None true (buf start) [])) as [Hf Hlen].
  { cbn [buf start]. by rewrite length_replicate. }
  unfold s_bind at 1. cbn [ring fd prepared in_flight seen out start negb] in Hf |- *. rewrite Hf. set (b1 := map Some _ ++ _) in *.
  unfold s_bind at 1. cbn -[fill BUF_SIZE start b1]. destruct (a_open a <? 0); [by eexists|].
  destruct (a_sqe a); cbn -[fill BUF_SIZE start b1]; [|by eexists].
  unfold s_bind at 1. cbn -[fill BUF_SIZE start b1]. unfold s_bind at 1. cbn -[fill BUF_SIZE start b1].
  destruct (a_submit a <? 0); cbn -[fill BUF_SIZE start b1]; [by eexists|].
  unfold s_bind at 1, io_uring_wait_cqe. destruct (a_wait a <? 0) eqn:Hw; cbn -[fill BUF_SIZE start b1].
  { rewrite Hw. by eexists. }
  destruct (fill_fits (a_data a) (MkSt true true None (Some BUF_SIZE) true b1 [])) as [Hf2 _].
  { cbn [buf] in Hlen |- *. rewrite Hlen. cbn [buf start]. by rewrite length_replicate. }
  unfold s_bind at 1. rewrite Hf2. cbn -[fill BUF_SIZE start b1]. rewrite Hw.
  destruct (a_res a <? 0) eqn:Hr; [by eexists|]. apply Z.ltb_ge in Hr. unfold print_text, s_bind. cbn -[b1].
  rewrite (Hres Hr), Nat2Z.id, bounded_string_map. by eexists.
Qed.

(** A file of three bytes, the last of them null *)
Lemma uring_main_witness : exists s,
  main (MkAns 0 [47] 3 true 1 0 3 [72; 105; 0]) start = OK (0, s) /\ out s = [LRead 3; LText [72; 105]] /\
  ring s = false /\ fd s = false /\ in_flight s = None.
Proof. apply (uring_main (MkAns 0 [47] 3 true 1 0 3 [72; 105; 0])). split; [by apply Nat.leb_le; vm_compute..|done]. Defined.
