(* ===== verification/Cobj.v ===== *)
(** * Objects with virtual functions: [cmake/cobj]

    shape.h, shape.c and the C part of main.c.  An object is a block whose
    first fields are those of [Shape]; a table of functions says how to treat
    what follows.  A [Shape*] may lead to a block of either class, so the
    private fields of one class are read through a cast that nothing checks.

    What [malloc] answers is the parameter [mem], by the number of the block. *)

From Stdlib Require Import Floats.SpecFloat.
From stdpp Require Import gmap.
From S2P Require Import Prelude Words Monad.

Local Open Scope Z_scope.
Local Open Scope st_scope.

(** ** [double]: binary64 *)

Definition d_of_int (z : Z) : spec_float := binary_normalize 53 1024 z 0 false.
Definition d_mul (x y : spec_float) : spec_float := SFmul 53 1024 x y.

(** The literal [3.14], the double next to 314/100 *)
Definition d_314 : spec_float := S754_finite false 7070651414971679 (-51).

(** [(int)x], of the integer part *)
Definition d_trunc (x : spec_float) : option Z :=
  match x with
  | S754_zero _ => Some 0
  | S754_finite s m e =>
      let a := if 0 <=? e then Z.pos m * 2 ^ e else Z.pos m / 2 ^ (- e) in
      Some (if s then - a else a)
  | _ => None
  end.

(** ** Classes *)

Inductive Color : Type := Black | Red | White | Yellow.

(** The two tables, and the functions their members point to *)
Inductive table : Type := vtRect | vtCircle.
Inductive ShapeGetArea : Type := RectArea_ | CircleArea_.
Inductive ShapeDtor : Type := RectRelease_ | CircleRelease_.
Record vtShape : Type := MkVt { GetArea : ShapeGetArea; Dtor : ShapeDtor }.

Definition rect_members : vtShape := MkVt RectArea_ RectRelease_.
Definition circle_members : vtShape := MkVt CircleArea_ CircleRelease_.
Definition vt_at (t : table) : vtShape :=
  match t with vtRect => rect_members | vtCircle => circle_members end.

Record Shape : Type := MkShape { vtb : option table; name : option nat; color : Color }.

(** What follows the [Shape] in a [realRect] and in a [realCircle] *)
Inductive private : Type := PRect (w h : Z) | PCircle (r : Z).

Inductive block : Type := BObj (sh : Shape) (pr : private) | BStr (s : list Z).

Inductive line : Type :=
  | LShapeCtor (n : list Z)
  | LShapeDtor (n : list Z)
  | LRectArea
  | LRectDtor (n : list Z)
  | LRectCtor
  | LRectSize (n : Z)
  | LCircleArea
  | LCircleDtor (n : list Z)
  | LCircleCtor
  | LCircleSize (n : Z).

Record St : Type := MkSt { heap : gmap nat block; next : nat; out : list line }.
Notation ST := (ST St).

Definition set_heap (s : St) h := MkSt h (next s) (out s).
Definition print (l : line) : ST unit := s_mod (fun s => MkSt (heap s) (next s) (out s ++ [l])).

Definition sRect : list Z := [82; 101; 99; 116].
Definition sCircle : list Z := [67; 105; 114; 99; 108; 101].

Section code.
Variable mem : nat -> bool.
Variable ptr : Z.                 (* the size of a pointer: 4 or 8 *)

(** A new block, or a null pointer *)
Definition malloc (b : block) : ST (option nat) := fun s =>
  let n := next s in
  if mem n then OK (Some n, MkSt (<[n := b]> (heap s)) (S n) (out s))
  else OK (None, MkSt (heap s) (S n) (out s)).

Definition free (p : nat) : ST unit :=
  let* h := s_get heap in
  match h !! p with
  | Some _ => s_mod (fun s => set_heap s (delete p (heap s)))
  | None => s_fail BadFree
  end.

Definition free_opt (p : option nat) : ST unit :=
  match p with Some p => free p | None => s_ret tt end.

(** A block read as an object: its [Shape] can be reached through any pointer
    to one, its private part only through the right one. *)
Definition get_obj (p : nat) : ST (Shape * private) :=
  let* h := s_get heap in
  match h !! p with
  | Some (BObj sh pr) => s_ret (sh, pr)
  | _ => s_fail OutOfBounds
  end.
Definition get_shape (p : nat) : ST Shape := let* o := get_obj p in s_ret o.1.
Definition put_obj (p : nat) (sh : Shape) (pr : private) : ST unit :=
  s_mod (fun s => set_heap s (<[p := BObj sh pr]> (heap s))).

(** [printf("%s")] of the name *)
Definition get_name (p : nat) : ST (list Z) :=
  let* sh := get_shape p in
  let* q := s_some NullDeref (name sh) in
  let* h := s_get heap in
  match h !! q with
  | Some (BStr l) => s_ret l
  | _ => s_fail OutOfBounds
  end.

Definition shapeCtor (p : nat) (nm : list Z) : ST unit :=
  print (LShapeCtor nm) ;*
  let* q := malloc (BStr nm) in
  let* o := get_obj p in
  put_obj p (MkShape (vtb o.1) q (color o.1)) o.2.

Definition shapeDtor (p : nat) : ST unit :=
  let* nm := get_name p in
  print (LShapeDtor nm) ;*
  let* sh := get_shape p in
  free_opt (name sh).

Definition int_range (z : Z) : bool := (- 2 ^ 31 <=? z) && (z <? 2 ^ 31).

(** [s->w * s->h]; a circle has nothing where [h] would be. *)
Definition RectArea (p : nat) : ST Z :=
  print LRectArea ;*
  let* o := get_obj p in
  match o.2 with
  | PRect w h => if int_range (w * h) then s_ret (w * h) else s_fail IntOverflow
  | PCircle _ => s_fail OutOfBounds
  end.

(** The destructors are not called with a null pointer. *)
Definition RectRelease (p : nat) : ST unit :=
  let* nm := get_name p in
  print (LRectDtor nm) ;*
  shapeDtor p ;*
  free p.

Definition round_up (n a : Z) : Z := (n + a - 1) / a * a.

(** [sizeof] of a [Shape] followed by [k] members of type [int] *)
Definition size_of (k : Z) : Z := round_up (round_up (2 * ptr + 4) ptr + 4 * k) ptr.

Definition newRect (w h : Z) : ST (option nat) :=
  let* p := malloc (BObj (MkShape None None Black) (PRect 0 0)) in
  match p with
  | None => s_ret None
  | Some p =>
      shapeCtor p sRect ;*
      let* o := get_obj p in
      put_obj p (MkShape (Some vtRect) (name o.1) (color o.1)) (PRect w h) ;*
      print LRectCtor ;*
      print (LRectSize (size_of 2)) ;*
      s_ret (Some p)
  end.

(** [(int)(3.14 * s->r * s->r)] *)
Definition circle_area (r : Z) : option Z :=
  d_trunc (d_mul (d_mul d_314 (d_of_int r)) (d_of_int r)).

(** Reading [r] from a rectangle, whose width lies there, counts as an error as
    well. *)
Definition CircleArea (p : nat) : ST Z :=
  print LCircleArea ;*
  let* o := get_obj p in
  match o.2 with
  | PCircle r =>
      let* a := s_some IntOverflow (circle_area r) in
      if int_range a then s_ret a else s_fail IntOverflow
  | PRect _ _ => s_fail OutOfBounds
  end.

Definition CircleRelease (p : nat) : ST unit :=
  let* nm := get_name p in
  print (LCircleDtor nm) ;*
  shapeDtor p ;*
  free p.

Definition newCircle (r : Z) : ST (option nat) :=
  let* p := malloc (BObj (MkShape None None Black) (PCircle 0)) in
  match p with
  | None => s_ret None
  | Some p =>
      shapeCtor p sCircle ;*
      let* o := get_obj p in
      put_obj p (MkShape (Some vtCircle) (name o.1) (color o.1)) (PCircle r) ;*
      print LCircleCtor ;*
      print (LCircleSize (size_of 1)) ;*
      s_ret (Some p)
  end.

(** ** Calls through the table *)

Definition get_vtb (p : nat) : ST vtShape :=
  let* sh := get_shape p in
  let* t := s_some NullDeref (vtb sh) in
  s_ret (vt_at t).

Definition call_area (f : ShapeGetArea) (p : nat) : ST Z :=
  match f with RectArea_ => RectArea p | CircleArea_ => CircleArea p end.
Definition call_dtor (f : ShapeDtor) (p : nat) : ST unit :=
  match f with RectRelease_ => RectRelease p | CircleRelease_ => CircleRelease p end.

Definition set_color (p : nat) (c : Color) : ST unit :=
  let* o := get_obj p in
  put_obj p (MkShape (vtb o.1) (name o.1) c) o.2.

(** [main] of main.c after its calls of other languages *)
Definition main : ST (Z * Z) :=
  let* r := newRect 10 20 in
  let* c := newCircle 10 in
  let* r := s_some NullDeref r in
  set_color r Red ;*
  let* c := s_some NullDeref c in
  set_color c Yellow ;*
  let* rt := get_vtb r in
  let* ct := get_vtb c in
  let* a1 := call_area (GetArea rt) r in
  let* a2 := call_area (GetArea ct) c in
  call_dtor (Dtor rt) r ;*
  call_dtor (Dtor ct) c ;*
  s_ret (a1, a2).

End code.
