(* ===== verification/CobjSpec.v ===== *)
(** * Objects with virtual functions: specification

    A client holds references to rectangles and circles and never learns which
    is which; the specification keeps the shapes themselves.  The program
    refines it: a call through the table reaches the function of the class the
    object was made with, and every block is released with its object. *)

From Stdlib Require Import Floats.SpecFloat.
From stdpp Require Import gmap.
From S2P Require Import Prelude Words Monad Cobj.

Local Open Scope Z_scope.
Local Open Scope st_scope.

(** ** The specification *)

Record object : Type := MkO { o_shape : private; o_color : Color; o_named : bool }.

(** The objects by the numbers of their blocks, and the number of the next
    allocation: one for the object, one for the name *)
Record Spec : Type := MkSpec { objs : gmap nat object; count : nat }.
Definition spec_start : Spec := MkSpec ∅ 0.

Definition table_of (pr : private) : table := match pr with PRect _ _ => vtRect | PCircle _ => vtCircle end.
Definition class_name (pr : private) : list Z := match pr with PRect _ _ => sRect | PCircle _ => sCircle end.

Definition area_of (pr : private) : res Z :=
  match pr with
  | PRect w h => if int_range (w * h) then OK (w * h) else Er IntOverflow
  | PCircle r =>
      match circle_area r with
      | Some a => if int_range a then OK a else Er IntOverflow
      | None => Er IntOverflow
      end
  end.

(** The lines of the functions of a class *)
Definition ctor_lines (ptr : Z) (pr : private) : list line :=
  match pr with
  | PRect _ _ => [LShapeCtor sRect; LRectCtor; LRectSize (size_of ptr 2)]
  | PCircle _ => [LShapeCtor sCircle; LCircleCtor; LCircleSize (size_of ptr 1)]
  end.
Definition area_line (pr : private) : line := match pr with PRect _ _ => LRectArea | PCircle _ => LCircleArea end.
Definition dtor_lines (pr : private) : list line :=
  match pr with
  | PRect _ _ => [LRectDtor sRect; LShapeDtor sRect]
  | PCircle _ => [LCircleDtor sCircle; LShapeDtor sCircle]
  end.

Inductive op : Type :=
  | New (pr : private)
  | SetColor (p : nat) (c : Color)
  | Area (p : nat)
  | Destroy (p : nat).

Inductive answer : Type := APtr (p : option nat) | AInt (a : Z) | AUnit.

Section spec.
Variable mem : nat -> bool.
Variable ptr : Z.

(** [None]: the client uses a reference that is not to a live object. *)
Definition spec_step (o : op) (T : Spec) : option (res (answer * list line * Spec)) :=
  match o with
  | New pr =>
      let n := count T in
      Some (OK (if mem n
        then (APtr (Some n), ctor_lines ptr pr, MkSpec (<[n := MkO pr Black (mem (S n))]> (objs T)) (S (S n)))
        else (APtr None, [], MkSpec (objs T) (S n))))
  | SetColor p c =>
      match objs T !! p with
      | Some o => Some (OK (AUnit, [], MkSpec (<[p := MkO (o_shape o) c (o_named o)]> (objs T)) (count T)))
      | None => None
      end
  | Area p =>
      match objs T !! p with
      | Some o =>
          Some (match area_of (o_shape o) with
                | OK a => OK (AInt a, [area_line (o_shape o)], T)
                | Er e => Er e
                end)
      | None => None
      end
  | Destroy p =>
      match objs T !! p with
      | Some o =>
          Some (if o_named o then OK (AUnit, dtor_lines (o_shape o), MkSpec (delete p (objs T)) (count T))
                else Er NullDeref)
      | None => None
      end
  end.

Fixpoint spec_run (l : list op) (T : Spec) : option (res (list answer * list line * Spec)) :=
  match l with
  | [] => Some (OK ([], [], T))
  | o :: l =>
      match spec_step o T with
      | Some (OK (a, ls, T1)) =>
          match spec_run l T1 with
          | Some (OK (al, ls', T2)) => Some (OK (a :: al, ls ++ ls', T2))
          | r => r
          end
      | Some (Er e) => Some (Er e)
      | None => None
      end
  end.

(** The same calls of the program *)
Definition step (o : op) : ST answer :=
  match o with
  | New (PRect w h) => let* p := newRect mem ptr w h in s_ret (APtr p)
  | New (PCircle r) => let* p := newCircle mem ptr r in s_ret (APtr p)
  | SetColor p c => set_color p c ;* s_ret AUnit
  | Area p => let* t := get_vtb p in let* a := call_area (GetArea t) p in s_ret (AInt a)
  | Destroy p => let* t := get_vtb p in call_dtor (Dtor t) p ;* s_ret AUnit
  end.

Fixpoint run (l : list op) : ST (list answer) :=
  match l with
  | [] => s_ret []
  | o :: l => let* a := step o in let* al := run l in s_ret (a :: al)
  end.

Definition start : St := MkSt ∅ 0 [].

(** ** The blocks of the objects *)

Definition name_of (p : nat) (o : object) : option nat := if o_named o then Some (S p) else None.
Definition block_of (p : nat) (o : object) : block :=
  BObj (MkShape (Some (table_of (o_shape o))) (name_of p o) (o_color o)) (o_shape o).

Definition block_at (m : gmap nat object) (q : nat) : option block :=
  match m !! q with
  | Some o => Some (block_of q o)
  | None =>
      match q with
      | O => None
      | S p => match m !! p with
               | Some o => if o_named o then Some (BStr (class_name (o_shape o))) else None
               | None => None
               end
      end
  end.

Record repr (T : Spec) (s : St) : Prop := {
  rp_heap : forall q, heap s !! q = block_at (objs T) q;
  rp_next : next s = count T;
  rp_apart : forall p, is_Some (objs T !! p) -> objs T !! (S p) = None;
  rp_below : forall p, is_Some (objs T !! p) -> (S p < count T)%nat
}.

Lemma repr_start : repr spec_start start.
Proof.
  split; [|done| |]; cbn.
  - intros [|q]; unfold block_at; cbn; by rewrite !lookup_empty.
  - intros p [? Hp]. by rewrite lookup_empty in Hp.
  - intros p [? Hp]. by rewrite lookup_empty in Hp.
Qed.

Lemma repr_obj T s p o : repr T s -> objs T !! p = Some o ->
  get_obj p s = OK ((MkShape (Some (table_of (o_shape o))) (name_of p o) (o_color o), o_shape o), s).
Proof.
  intros [Hh _ _ _] Ho. unfold get_obj. erewrite s_bind_OK by reflexivity. rewrite Hh. unfold block_at. by rewrite Ho.
Qed.

Lemma repr_named T s p o : repr T s -> objs T !! p = Some o -> o_named o = true ->
  heap s !! S p = Some (BStr (class_name (o_shape o))).
Proof.
  intros [Hh _ Ha _] Ho Hn. rewrite Hh. unfold block_at. by rewrite Ha, Ho, Hn by eauto.
Qed.

(** ** The operations *)

Lemma get_name_at T s p o : repr T s -> objs T !! p = Some o ->
  get_name p s = if o_named o then OK (class_name (o_shape o), s) else Er NullDeref.
Proof.
  intros Hr Ho. unfold get_name, get_shape, s_bind. rewrite (repr_obj T s p o) by done. cbn.
  unfold name_of. destruct (o_named o) eqn:Hn; [|done]. cbn. by rewrite (repr_named T s p o).
Qed.

Lemma get_vtb_at T s p o : repr T s -> objs T !! p = Some o -> get_vtb p s = OK (vt_at (table_of (o_shape o)), s).
Proof. intros Hr Ho. unfold get_vtb, get_shape, s_bind. by rewrite (repr_obj T s p o). Qed.

(** The outcome of a step, as the specification has it *)
Definition agrees (r : res (answer * St)) (s : St) (e : res (answer * list line * Spec)) : Prop :=
  match e with
  | OK (a, ls, T) => exists s', r = OK (a, s') /\ out s' = out s ++ ls /\ repr T s'
  | Er e => r = Er e
  end.

Lemma repr_print T s l : repr T s -> repr T (MkSt (heap s) (next s) (out s ++ [l])).
Proof. by intros []. Qed.

Lemma area_agrees T s p o : repr T s -> objs T !! p = Some o ->
  agrees (step (Area p) s) s
    (match area_of (o_shape o) with OK a => OK (AInt a, [area_line (o_shape o)], T) | Er e => Er e end).
Proof.
  intros Hr Ho. unfold step. rewrite (s_bind_OK _ _ _ _ _ (get_vtb_at T s p o Hr Ho)).
  pose proof (repr_print T s (area_line (o_shape o)) Hr) as Hr1. pose proof (repr_obj T _ p o Hr1 Ho) as Hget.
  assert (call_area (GetArea (vt_at (table_of (o_shape o)))) p s =
    match area_of (o_shape o) with
    | OK a => OK (a, MkSt (heap s) (next s) (out s ++ [area_line (o_shape o)]))
    | Er e => Er e
    end) as Hcall.
  { destruct o as [[w h|r] c nm]; unfold call_area, RectArea, CircleArea, print, s_mod, s_bind; cbn -[get_obj circle_area] in *;
      rewrite Hget; cbn -[circle_area].
    - by destruct (int_range _).
    - destruct (circle_area r) as [a|]; [|done]. cbn. by destruct (int_range a). }
  unfold s_bind. rewrite Hcall. destruct (area_of _) as [a|]; [|done]. by eexists.
Qed.

Lemma color_agrees T s p o c : repr T s -> objs T !! p = Some o ->
  agrees (step (SetColor p c) s) s (OK (AUnit, [], MkSpec (<[p := MkO (o_shape o) c (o_named o)]> (objs T)) (count T))).
Proof.
  intros Hr Ho. unfold step, set_color, s_bind. rewrite (repr_obj T s p o) by done. cbn. eexists. split; [reflexivity|].
  split; [by rewrite app_nil_r|]. destruct Hr as [Hh Hn Ha Hb]. split; cbn; [|done| |].
  - intros q. unfold block_at. destruct (decide (p = q)) as [<-|Hne]; [by rewrite !lookup_insert_eq|].
    rewrite !lookup_insert_ne, Hh by done. unfold block_at. destruct (objs T !! q); [done|].
    destruct q as [|q]; [done|]. destruct (decide (p = q)) as [<-|]; [|by rewrite lookup_insert_ne].
    by rewrite Ho, lookup_insert_eq.
  - intros q [o' Hq]. assert (objs T !! S q = None) as HS.
    { apply Ha. apply lookup_insert_Some in Hq as [[<- _]|[_ Hq]]; eauto. }
    rewrite lookup_insert_ne; [done|]. intros ->. congruence.
  - intros q [o' Hq]. apply Hb. apply lookup_insert_Some in Hq as [[<- _]|[_ Hq]]; eauto.
Qed.

Lemma release_run T s p o l : repr T s -> objs T !! p = Some o -> o_named o = true ->
  (print l ;* shapeDtor p ;* free p) s =
    OK (tt, MkSt (delete p (delete (S p) (heap s))) (next s) (out s ++ [l; LShapeDtor (class_name (o_shape o))])).
Proof.
  intros Hr Ho Hn. pose proof (repr_print T s l Hr) as Hr1. set (s1 := MkSt _ _ _) in Hr1.
  pose proof (repr_print T s1 (LShapeDtor (class_name (o_shape o))) Hr1) as Hr2. set (s2 := MkSt _ _ _) in Hr2.
  assert (shapeDtor p s1 = OK (tt, set_heap s2 (delete (S p) (heap s)))) as Hdtor.
  { unfold shapeDtor. rewrite (s_bind_OK _ _ s1 (class_name (o_shape o)) s1) by (rewrite (get_name_at T s1 p o), Hn by done; done).
    rewrite (s_bind_OK _ _ s1 tt s2) by done. unfold get_shape, s_bind. rewrite (repr_obj T s2 p o) by done. cbn.
    unfold name_of. rewrite Hn. unfold free_opt, free, s_bind. cbn. by rewrite (repr_named T s p o). }
  rewrite (s_bind_OK _ _ s tt s1) by done. rewrite (s_bind_OK _ _ _ _ _ Hdtor). unfold free, s_bind. cbn.
  rewrite lookup_delete_ne by lia. destruct Hr as [Hh _ _ _]. rewrite Hh. unfold block_at. rewrite Ho. cbn.
  unfold s2, s1, set_heap. cbn. by rewrite <- app_assoc.
Qed.

Lemma destroy_agrees T s p o : repr T s -> objs T !! p = Some o ->
  agrees (step (Destroy p) s) s
    (if o_named o then OK (AUnit, dtor_lines (o_shape o), MkSpec (delete p (objs T)) (count T)) else Er NullDeref).
Proof.
  intros Hr Ho. unfold step. rewrite (s_bind_OK _ _ _ _ _ (get_vtb_at T s p o Hr Ho)).
  pose proof (get_name_at T s p o Hr Ho) as Hname. destruct (o_named o) eqn:Hn.
  - assert (call_dtor (Dtor (vt_at (table_of (o_shape o)))) p s =
      OK (tt, MkSt (delete p (delete (S p) (heap s))) (next s) (out s ++ dtor_lines (o_shape o)))) as Hcall.
    { destruct (o_shape o) eqn:Hs; cbn [table_of vt_at rect_members circle_members Dtor call_dtor dtor_lines]; unfold RectRelease, CircleRelease;
        rewrite (s_bind_OK _ _ _ _ _ Hname), (release_run T s p o) by done; by rewrite Hs. }
    rewrite (s_bind_OK _ _ _ _ _ Hcall). eexists. split; [reflexivity|]. split; [done|].
    destruct Hr as [Hh Hx Ha Hb]. split; cbn; [|done| |].
    + intros q. unfold block_at. destruct (decide (p = q)) as [<-|Hne].
      { rewrite !lookup_delete_eq. destruct p as [|p']; [done|].
        rewrite lookup_delete_ne by lia. destruct (objs T !! p') as [o'|] eqn:Hp'; [|done].
        rewrite Ha in Ho; [done|by eexists]. }
      rewrite !lookup_delete_ne with (i := p) by done. destruct (decide (S p = q)) as [<-|Hne'].
      { by rewrite !lookup_delete_eq, Ha by eauto. }
      rewrite lookup_delete_ne, Hh by done. unfold block_at. destruct (objs T !! q); [done|].
      destruct q as [|q]; [done|]. by rewrite lookup_delete_ne by lia.
    + intros q [o' Hq]. apply lookup_delete_Some in Hq as [_ Hq]. apply lookup_delete_None. right. eauto.
    + intros q [o' Hq]. apply lookup_delete_Some in Hq as [_ Hq]. eauto.
  - unfold agrees, s_bind.
    assert (call_dtor (Dtor (vt_at (table_of (o_shape o)))) p s = Er NullDeref) as ->; [|done].
    destruct (o_shape o); cbn [table_of vt_at rect_members circle_members Dtor call_dtor]; unfold RectRelease, CircleRelease, s_bind; by rewrite Hname.
Qed.

(** *** Creation *)

(** The fresh blocks *)
Lemma repr_new T s : repr T s -> let n := count T in
  (forall q, (n <= q)%nat -> objs T !! q = None) /\ heap s !! n = None /\ heap s !! S n = None.
Proof.
  intros [Hh Hn Ha Hb] n. assert (forall q, (n <= q)%nat -> objs T !! q = None) as Hq.
  { intros q Hle. destruct (objs T !! q) eqn:E; [|done]. assert (S q < n)%nat by (apply Hb; eauto). lia. }
  split; [done|]. rewrite !Hh. unfold block_at. rewrite !Hq by lia. split; [|done].
  destruct n as [|n'] eqn:En; [done|]. destruct (objs T !! n') eqn:E; [|done].
  assert (S n' < count T)%nat by (apply Hb; eauto). lia.
Qed.

Lemma create_agrees T s pr : repr T s ->
  agrees (step (New pr) s) s
    (OK (if mem (count T)
         then (APtr (Some (count T)), ctor_lines ptr pr, MkSpec (<[count T := MkO pr Black (mem (S (count T)))]> (objs T)) (S (S (count T))))
         else (APtr None, [], MkSpec (objs T) (S (count T))))).
Proof.
  intros Hr. destruct (repr_new T s Hr) as (Hfresh & _). destruct Hr as [Hh Hx Ha Hb]. set (n := count T) in *.
  set (o := MkO pr Black (mem (S n))). set (first := BObj (MkShape None None Black) (match pr with PRect _ _ => PRect 0 0 | PCircle _ => PCircle 0 end)).
  destruct (mem n) eqn:Hmem.
  - set (h1 := <[n := first]> (heap s)). set (h2 := if mem (S n) then <[S n := BStr (class_name pr)]> h1 else h1).
    assert (h2 !! n = Some first) as Hfirst.
    { unfold h2, h1. destruct (mem (S n)); [rewrite lookup_insert_ne by lia|]; apply lookup_insert_eq. }
    set (h3 := <[n := block_of n o]> (<[n := BObj (MkShape None (name_of n o) Black) (match pr with PRect _ _ => PRect 0 0 | PCircle _ => PCircle 0 end)]> h2)).
    assert (step (New pr) s = OK (APtr (Some n), MkSt h3 (S (S n)) (out s ++ ctor_lines ptr pr))) as Hrun.
    { unfold h3, h2, h1, first in *. destruct pr; unfold step, newRect, newCircle, shapeCtor, malloc, print, put_obj, get_obj, s_bind, s_mod, s_get;
        cbn; rewrite Hx; fold n; rewrite Hmem; cbn -[lookup insert]; destruct (mem (S n)) eqn:HmS; cbn -[lookup insert] in *; rewrite Hfirst; cbn -[lookup insert];
        rewrite lookup_insert_eq; unfold block_of, name_of, o; cbn -[lookup insert]; rewrite <- ?app_assoc; done. }
    rewrite Hrun. eexists. split; [reflexivity|]. split; [done|].
    assert (forall q, h3 !! q = if decide (q = n) then Some (block_of n o) else
              if decide (q = S n) then (if mem (S n) then Some (BStr (class_name pr)) else None) else heap s !! q) as Hh3.
    { intros q. unfold h3. rewrite insert_insert_eq. destruct (decide (q = n)) as [->|Hne]; [apply lookup_insert_eq|].
      rewrite lookup_insert_ne by done. unfold h2, h1. destruct (decide (q = S n)) as [->|Hne'].
      - destruct (mem (S n)); [apply lookup_insert_eq|]. rewrite lookup_insert_ne, Hh by lia. unfold block_at.
        rewrite !Hfresh by lia. done.
      - destruct (mem (S n)); by rewrite ?lookup_insert_ne. }
    split; cbn; [|done| |].
    + intros q. rewrite Hh3. unfold block_at. destruct (decide (q = n)) as [->|Hne]; [by rewrite lookup_insert_eq|].
      rewrite lookup_insert_ne by done. destruct (decide (q = S n)) as [->|Hne'].
      { rewrite Hfresh by lia. rewrite lookup_insert_eq. cbn. done. }
      rewrite Hh. unfold block_at. destruct (objs T !! q); [done|]. destruct q as [|q]; [done|]. by rewrite lookup_insert_ne by lia.
    + intros q [o' Hq]. apply lookup_insert_Some in Hq as [[<- _]|[Hne Hq]]; apply lookup_insert_None.
      * split; [apply Hfresh|]; lia.
      * assert (S q < n)%nat by (apply Hb; eauto). split; [eauto|lia].
    + intros q [o' Hq]. apply lookup_insert_Some in Hq as [[<- _]|[Hne Hq]]; [lia|].
      assert (S q < n)%nat by (apply Hb; eauto). lia.
  - assert (step (New pr) s = OK (APtr None, MkSt (heap s) (S n) (out s))) as Hrun.
    { destruct pr; unfold step, newRect, newCircle, malloc, s_bind; rewrite Hx; fold n; by rewrite Hmem. }
    rewrite Hrun. eexists. split; [reflexivity|]. split; [by rewrite app_nil_r|]. split; cbn; [done|done|done|].
    intros q Hq. apply Hb in Hq. lia.
Qed.

(** ** Sessions *)

Lemma step_agrees T s o e : repr T s -> spec_step o T = Some e -> agrees (step o s) s e.
Proof.
  intros Hr. destruct o as [pr|p c|p|p]; cbn [spec_step].
  - intros [= <-]. by apply create_agrees.
  - destruct (objs T !! p) eqn:Hp; intros [= <-]. by apply color_agrees.
  - destruct (objs T !! p) eqn:Hp; intros [= <-]. by apply area_agrees.
  - destruct (objs T !! p) eqn:Hp; intros [= <-]. by apply destroy_agrees.
Qed.

Lemma run_agrees l : forall T s e, repr T s -> spec_run l T = Some e ->
  match e with
  | OK (al, ls, T') => exists s', run l s = OK (al, s') /\ out s' = out s ++ ls /\ repr T' s'
  | Er e => run l s = Er e
  end.
Proof.
  induction l as [|o l IH]; intros T s e Hr; cbn [spec_run].
  { intros [= <-]. exists s. split; [done|]. by rewrite app_nil_r. }
  destruct (spec_step o T) as [r|] eqn:Hs; [|done]. pose proof (step_agrees T s o r Hr Hs) as Ha.
  cbn [run]. unfold agrees in Ha. destruct r as [[[a ls] T1]|e1]; [|intros [= <-]; by rewrite (s_bind_Er _ _ _ _ Ha)].
  destruct Ha as (s1 & Hrun & Hout & Hr1). rewrite (s_bind_OK _ _ _ _ _ Hrun).
  destruct (spec_run l T1) as [r|] eqn:Hrest; [|done]. specialize (IH T1 s1 r Hr1 Hrest).
  destruct r as [[[al ls'] T2]|e2]; intros [= <-].
  - destruct IH as (s2 & Hrun2 & Hout2 & Hr2). rewrite (s_bind_OK _ _ _ _ _ Hrun2). exists s2. split; [done|].
    split; [|done]. by rewrite Hout2, Hout, app_assoc.
  - by rewrite (s_bind_Er _ _ _ _ IH).
Qed.

End spec.

(** C30: whatever [malloc] answers, any session of a client that uses only
    references to live objects gives the answers and prints the lines of the
    specification, in which an object is a shape with a color; it fails when
    and as the specification does (an area that is not an [int], the name of an
    object whose name could not be allocated), and when all objects are
    destroyed no block is left. *)
Theorem objects_refine (mem : nat -> bool) (ptr : Z) (l : list op) e :
  spec_run mem ptr l spec_start = Some e ->
  match e with
  | OK (al, ls, T) => exists s, run mem ptr l start = OK (al, s) /\ out s = ls /\ repr T s /\
      (objs T = ∅ -> heap s = ∅)
  | Er e => run mem ptr l start = Er e
  end.
Proof.
  intros He. pose proof (run_agrees mem ptr l _ _ e repr_start He) as Ha. destruct e as [[[al ls] T]|e]; [|done].
  destruct Ha as (s & Hrun & Hout & Hr). exists s. split; [done|]. split; [done|]. split; [done|].
  intros Hempty. apply map_eq. intros q. destruct Hr as [Hh _ _ _]. rewrite Hh, lookup_empty. unfold block_at.
  rewrite Hempty, lookup_empty. destruct q; by rewrite ?lookup_empty.
Qed.

(** C31: in every state such a client reaches, the table of an object is that of
    the class whose members its block holds. *)
Theorem vtable_matches (mem : nat -> bool) (ptr : Z) (l : list op) al ls T s p sh pr :
  spec_run mem ptr l spec_start = Some (OK (al, ls, T)) -> run mem ptr l start = OK (al, s) ->
  heap s !! p = Some (BObj sh pr) -> vtb sh = Some (table_of pr).
Proof.
  intros He Hrun Hp. destruct (run_agrees mem ptr l _ _ _ repr_start He) as (s' & Hrun' & _ & Hr).
  assert (s' = s) as -> by congruence. destruct Hr as [Hh _ _ _]. rewrite Hh in Hp. unfold block_at in Hp.
  destruct (objs T !! p) as [o|]; [by injection Hp as <- <-|]. destruct p as [|p]; [done|].
  destruct (objs T !! p) as [o|]; [|done]. by destruct (o_named o).
Qed.

(** The area of a circle, computed in floating point, is the integer part of
    3.14 times the square of its radius, for radii up to a thousand. *)
Theorem circle_area_exact (r : Z) : -1000 <= r <= 1000 -> circle_area r = Some (314 * (r * r) / 100).
Proof.
  intros Hr. set (good r := bool_decide (circle_area r = Some (314 * (r * r) / 100))).
  assert (forallb good (seqZ (-1000) 2001) = true) as Hall by (by vm_compute).
  rewrite forallb_forall in Hall. specialize (Hall r). apply bool_decide_eq_true in Hall; [done|].
  apply list_elem_of_In, elem_of_seqZ. lia.
Qed.

Definition main_lines (ptr : Z) : list line :=
  ctor_lines ptr (PRect 10 20) ++ ctor_lines ptr (PCircle 10) ++ [LRectArea; LCircleArea] ++
  dtor_lines (PRect 10 20) ++ dtor_lines (PCircle 10).

(** The program computes the areas 200 and 314, prints the lines of the
    constructors, the areas and the destructors and leaves no block behind when
    its four allocations succeed; when one fails, it dereferences null. *)
Theorem main_areas (b0 b1 b2 b3 : bool) (ptr : Z) : ptr = 4 \/ ptr = 8 ->
  main (fun n => nth n [b0; b1; b2; b3] true) ptr start =
    if b0 && b1 && b2 && b3 then OK ((200, 314), MkSt ∅ 4 (main_lines ptr)) else Er NullDeref.
Proof. intros [-> | ->]; destruct b0, b1, b2, b3; by vm_compute. Qed.

(** ** Concrete sessions *)

Definition session : list op :=
  [New (PRect 2 3); New (PCircle 10); SetColor 0 Red; Area 0; Area 2; Destroy 2; Destroy 0].

Lemma objects_refine_witness : exists s,
  run (fun _ => true) 8 session start =
    OK ([APtr (Some 0%nat); APtr (Some 2%nat); AUnit; AInt 6; AInt 314; AUnit; AUnit], s) /\ heap s = ∅.
Proof.
  destruct (objects_refine (fun _ => true) 8 session
    (OK ([APtr (Some 0%nat); APtr (Some 2%nat); AUnit; AInt 6; AInt 314; AUnit; AUnit],
      ctor_lines 8 (PRect 2 3) ++ ctor_lines 8 (PCircle 10) ++ [LRectArea; LCircleArea] ++
        dtor_lines (PCircle 10) ++ dtor_lines (PRect 2 3), MkSpec ∅ 4))) as (s & Hrun & _ & _ & Hheap); [by vm_compute|].
  exists s. split; [exact Hrun|by apply Hheap].
Defined.

Lemma vtable_matches_witness : exists s sh,
  run (fun _ => true) 8 (take 3 session) start = OK ([APtr (Some 0%nat); APtr (Some 2%nat); AUnit], s) /\
  heap s !! 0%nat = Some (BObj sh (PRect 2 3)) /\ vtb sh = Some (table_of (PRect 2 3)).
Proof.
  set (h := (<[0%nat := BObj (MkShape (Some vtRect) (Some 1%nat) Red) (PRect 2 3)]> (<[1%nat := BStr sRect]>
    (<[2%nat := BObj (MkShape (Some vtCircle) (Some 3%nat) Black) (PCircle 10)]> {[3%nat := BStr sCircle]}))) : gmap nat block).
  set (ls := ctor_lines 8 (PRect 2 3) ++ ctor_lines 8 (PCircle 10)).
  exists (MkSt h 4 ls), (MkShape (Some vtRect) (Some 1%nat) Red). split; [by vm_compute|]. split; [by vm_compute|].
  apply (vtable_matches (fun _ => true) 8 (take 3 session) [APtr (Some 0%nat); APtr (Some 2%nat); AUnit] ls
    (MkSpec (<[0%nat := MkO (PRect 2 3) Red true]> {[2%nat := MkO (PCircle 10) Black true]}) 4) (MkSt h 4 ls) 0); by vm_compute.
Defined.

Lemma circle_area_exact_witness : -1000 <= 10 <= 1000 /\ circle_area 10 = Some (314 * (10 * 10) / 100).
Proof. split; [lia|]. apply (circle_area_exact 10). lia. Defined.

Lemma main_areas_witness : (8 = 4 \/ 8 = 8) /\
  main (fun n => nth n [true; true; true; true] true) 8 start = OK ((200, 314), MkSt ∅ 4 (main_lines 8)).
Proof. split; [by right|]. apply (main_areas true true true true 8). by right. Defined.
