(* ===== verification/CobjCC.v ===== *)
(** * The same classes in C++: [cmake/cobj/shape.cc]

    The directory has its classes twice: in C, with tables of functions written
    out (Cobj), and in C++, with virtual functions.  Here the C++ classes are
    modelled and compared with the C ones: a session of a client gives the same
    answers in both, and prints the same lines but for their spelling and for
    the line with the size that only the C constructors have.

    The dynamic type of an object is its class; a virtual call selects the
    function by it.  [new] throws when there is no memory, which nothing
    catches; here it succeeds. *)

From Stdlib Require Import Floats.SpecFloat.
From stdpp Require Import gmap.
From S2P Require Import Prelude Words Monad Cobj CobjSpec.

Local Open Scope Z_scope.
Local Open Scope st_scope.

(** ** The classes *)

(** The members of [CShape] *)
Record CShape : Type := MkCShape { m_name : list Z; cc_color : Color }.

(** An object with its dynamic type; what follows the [CShape] *)
Inductive CObject : Type :=
  | CRect (base : CShape) (_w _h : Z)
  | CCircle (base : CShape) (_r : Z).

Inductive cc_line : Type :=
  | LCShapeCtor (n : list Z)
  | LCShapeDtor
  | LCRectCtor
  | LCRectDtor
  | LCRectArea
  | LCCircleCtor
  | LCCircleDtor
  | LCCircleArea
  | LCRectSize (n : Z)
  | LCCircleSize (n : Z).

Record CC : Type := MkCC { cc_heap : gmap nat CObject; cc_next : nat; cc_out : list cc_line }.
Notation CCM := (Monad.ST CC).

Definition cc_print (l : cc_line) : CCM unit := s_mod (fun s => MkCC (cc_heap s) (cc_next s) (cc_out s ++ [l])).

(** The block of [new]: it is there before the constructor runs. *)
Definition operator_new : CCM nat := fun s => OK (cc_next s, MkCC (cc_heap s) (S (cc_next s)) (cc_out s)).
Definition construct (p : nat) (o : CObject) : CCM unit :=
  s_mod (fun s => MkCC (<[p := o]> (cc_heap s)) (cc_next s) (cc_out s)).
Definition operator_delete (p : nat) : CCM unit :=
  s_mod (fun s => MkCC (delete p (cc_heap s)) (cc_next s) (cc_out s)).
Definition object_at (p : nat) : CCM CObject :=
  let* h := s_get cc_heap in s_some OutOfBounds (h !! p).

Definition CShape_Ctor (nm : list Z) : CCM CShape :=
  let c := MkCShape nm Black in
  cc_print (LCShapeCtor nm) ;*
  s_ret c.
Definition CShape_Dtor : CCM unit := cc_print LCShapeDtor.

(** The base, then the members, then the body *)
Definition CRect_Ctor (p : nat) (w h : Z) : CCM unit :=
  let* base := CShape_Ctor sRect in
  construct p (CRect base w h) ;*
  cc_print LCRectCtor.

(** The body, then the base *)
Definition CRect_Dtor : CCM unit := cc_print LCRectDtor ;* CShape_Dtor.

Definition CRect_GetArea (w h : Z) : CCM Z :=
  cc_print LCRectArea ;*
  (if int_range (w * h) then s_ret (w * h) else s_fail IntOverflow).

Definition CCircle_Ctor (p : nat) (r : Z) : CCM unit :=
  let* base := CShape_Ctor sCircle in
  construct p (CCircle base r) ;*
  cc_print LCCircleCtor.

Definition CCircle_Dtor : CCM unit := cc_print LCCircleDtor ;* CShape_Dtor.

(** [3.14 * _r * _r] in [double], converted to [int] by the return *)
Definition CCircle_GetArea (r : Z) : CCM Z :=
  cc_print LCCircleArea ;*
  let* a := s_some IntOverflow (circle_area r) in
  if int_range a then s_ret a else s_fail IntOverflow.

(** ** Expressions of a client *)

Definition new_CRect (w h : Z) : CCM nat := let* p := operator_new in CRect_Ctor p w h ;* s_ret p.
Definition new_CCircle (r : Z) : CCM nat := let* p := operator_new in CCircle_Ctor p r ;* s_ret p.

(** [p->GetArea()] and [delete p], both virtual *)
Definition GetArea (p : nat) : CCM Z :=
  let* o := object_at p in
  match o with CRect _ w h => CRect_GetArea w h | CCircle _ r => CCircle_GetArea r end.
Definition delete_object (p : nat) : CCM unit :=
  let* o := object_at p in
  match o with CRect _ _ _ => CRect_Dtor | CCircle _ _ => CCircle_Dtor end ;*
  operator_delete p.

(** [sizeof]: the pointer to the table, the name, the color and [k] members of
    type [int].  Where [reuse] (as in the C++ ABI of Itanium), the members may
    lie in the padding behind the color. *)
Definition cc_size_of (reuse : bool) (ptr k : Z) : Z :=
  let base := 2 * ptr + 4 in
  round_up ((if reuse then base else round_up base ptr) + 4 * k) ptr.

Definition testCC (reuse : bool) (ptr : Z) : CCM (Z * Z) :=
  cc_print (LCRectSize (cc_size_of reuse ptr 2)) ;*
  cc_print (LCCircleSize (cc_size_of reuse ptr 1)) ;*
  let* r := new_CRect 10 20 in
  let* a1 := GetArea r in
  let* c := new_CCircle 10 in
  let* a2 := GetArea c in
  delete_object r ;*
  delete_object c ;*
  s_ret (a1, a2).

(** ** Sessions *)

(** What a client can do; it cannot reach the color.  Objects are named in the
    order of their creation. *)
Inductive cc_op : Type := CNew (pr : private) | CArea (k : nat) | CDelete (k : nat).

Definition cc_step (o : cc_op) : CCM answer :=
  match o with
  | CNew (PRect w h) => let* p := new_CRect w h in s_ret (APtr (Some p))
  | CNew (PCircle r) => let* p := new_CCircle r in s_ret (APtr (Some p))
  | CArea k => let* a := GetArea k in s_ret (AInt a)
  | CDelete k => delete_object k ;* s_ret AUnit
  end.

Fixpoint cc_run (l : list cc_op) : CCM (list answer) :=
  match l with
  | [] => s_ret []
  | o :: l => let* a := cc_step o in let* al := cc_run l in s_ret (a :: al)
  end.

Definition cc_start : CC := MkCC ∅ 0 [].

(** The session of the C classes: a block for the object and one for its name,
    so the object [k] is the block [2 * k]. *)
Definition c_op (o : cc_op) : op :=
  match o with
  | CNew pr => New pr
  | CArea k => Area (2 * k)
  | CDelete k => Destroy (2 * k)
  end.
Definition c_answer (a : answer) : answer :=
  match a with APtr p => APtr (option_map (fun k => 2 * k)%nat p) | a => a end.

(** A line of the C classes as C++ spells it *)
Definition cc_spelling (l : line) : list cc_line :=
  match l with
  | LShapeCtor n => [LCShapeCtor n]
  | LShapeDtor _ => [LCShapeDtor]
  | LRectArea => [LCRectArea]
  | LRectDtor _ => [LCRectDtor]
  | LRectCtor => [LCRectCtor]
  | LCircleArea => [LCCircleArea]
  | LCircleDtor _ => [LCCircleDtor]
  | LCircleCtor => [LCCircleCtor]
  | LRectSize _ | LCircleSize _ => []
  end.
Definition respell (ls : list line) : list cc_line := concat (map cc_spelling ls).

Lemma respell_app l1 l2 : respell (l1 ++ l2) = respell l1 ++ respell l2.
Proof. unfold respell. by rewrite map_app, concat_app. Qed.

(** ** The simulation *)

Definition always (n : nat) : bool := true.

Definition cc_object (pr : private) : CObject :=
  let base := MkCShape (class_name pr) Black in
  match pr with PRect w h => CRect base w h | PCircle r => CCircle base r end.

(** The C++ objects stand for the shapes of the specification of the C classes. *)
Record same (T : Spec) (s : CC) : Prop := {
  sm_objects : forall k, cc_heap s !! k = cc_object ∘ o_shape <$> objs T !! (2 * k)%nat;
  sm_fields : forall p o, objs T !! p = Some o -> o_color o = Black /\ o_named o = true;
  sm_next : count T = (2 * cc_next s)%nat
}.

Lemma same_start : same spec_start cc_start.
Proof. split; [|done|done]. intros k. cbn. by rewrite !lookup_empty. Qed.

Lemma same_print T s l : same T s -> same T (MkCC (cc_heap s) (cc_next s) (cc_out s ++ l)).
Proof. by intros []. Qed.

(** The outcome of a step of the C++ session, given that of the specification *)
Definition cc_agrees (r : res (answer * CC)) (s : CC) (e : res (answer * list line * Spec)) : Prop :=
  match e with
  | OK (a, ls, T) => exists a' s', r = OK (a', s') /\ c_answer a' = a /\ cc_out s' = cc_out s ++ respell ls /\ same T s'
  | Er e => r = Er e
  end.

Lemma cc_new_agrees ptr T s pr : same T s ->
  exists e, spec_step always ptr (New pr) T = Some e /\ cc_agrees (cc_step (CNew pr) s) s e.
Proof.
  intros [Ho Hf Hn]. eexists. split; [reflexivity|]. cbn [always cc_agrees].
  exists (APtr (Some (cc_next s))), (MkCC (<[cc_next s := cc_object pr]> (cc_heap s)) (S (cc_next s)) (cc_out s ++ respell (ctor_lines ptr pr))).
  split. { destruct pr; cbn; by rewrite <- !app_assoc. }
  split; [cbn; do 2 f_equal; lia|]. split; [done|]. split; cbn [objs count cc_heap cc_next].
  - intros k. destruct (decide (k = cc_next s)) as [->|Hk].
    + rewrite lookup_insert_eq. rewrite Hn, lookup_insert_eq. done.
    + rewrite !lookup_insert_ne by lia. apply Ho.
  - intros p o. rewrite lookup_insert_Some. intros [[_ <-]|[_ H]]; [done|by eapply Hf].
  - lia.
Qed.

Lemma object_at_same T s k o : same T s -> objs T !! (2 * k)%nat = Some o ->
  object_at k s = OK (cc_object (o_shape o), s).
Proof. intros [Hh _ _] Ho. unfold object_at, s_bind. cbn. by rewrite Hh, Ho. Qed.

Lemma cc_area_agrees ptr T s k e : same T s ->
  spec_step always ptr (Area (2 * k)) T = Some e -> cc_agrees (cc_step (CArea k) s) s e.
Proof.
  intros Hs. cbn [spec_step]. destruct (objs T !! _) as [o|] eqn:Ho; [|done]. intros [= <-].
  assert (GetArea k s = match area_of (o_shape o) with
    | OK a => OK (a, MkCC (cc_heap s) (cc_next s) (cc_out s ++ respell [area_line (o_shape o)]))
    | Er e => Er e end) as Hrun.
  { unfold GetArea. rewrite (s_bind_OK _ _ _ _ _ (object_at_same T s k o Hs Ho)).
    destruct (o_shape o) as [w h|r]; cbn [cc_object area_of]; unfold CRect_GetArea, CCircle_GetArea, s_bind; cbn -[circle_area].
    - by destruct (int_range (w * h)).
    - destruct (circle_area r) as [a|]; [|done]. cbn. by destruct (int_range a). }
  cbn [cc_step]. unfold s_bind. rewrite Hrun. destruct (area_of (o_shape o)) as [a|e]; [|done].
  do 2 eexists. split; [reflexivity|]. split; [done|]. split; [done|]. by apply same_print.
Qed.

Lemma cc_delete_agrees ptr T s k e : same T s ->
  spec_step always ptr (Destroy (2 * k)) T = Some e -> cc_agrees (cc_step (CDelete k) s) s e.
Proof.
  intros Hs. cbn [spec_step]. destruct (objs T !! _) as [o|] eqn:Ho; [|done].
  destruct (sm_fields T s Hs _ _ Ho) as [_ ->]. intros [= <-].
  exists AUnit, (MkCC (delete k (cc_heap s)) (cc_next s) (cc_out s ++ respell (dtor_lines (o_shape o)))).
  split.
  { cbn [cc_step]. unfold delete_object, s_bind. rewrite (object_at_same T s k o Hs Ho).
    destruct (o_shape o); cbn; by rewrite <- app_assoc. }
  split; [done|]. split; [done|]. destruct Hs as [Hh Hf Hn]. split; cbn [objs count cc_heap cc_next]; [| |done].
  - intros j. destruct (decide (j = k)) as [->|Hj]; [by rewrite !lookup_delete_eq|].
    rewrite !lookup_delete_ne by lia. apply Hh.
  - intros p o'. rewrite lookup_delete_Some. intros [_ H]. by eapply Hf.
Qed.

Lemma cc_step_agrees ptr o T s e : same T s ->
  spec_step always ptr (c_op o) T = Some e -> cc_agrees (cc_step o s) s e.
Proof.
  intros Hs He. destruct o as [pr|k|k]; [|by eapply cc_area_agrees|by eapply cc_delete_agrees].
  destruct (cc_new_agrees ptr T s pr Hs) as (e' & He' & Ha). cbn [c_op] in He. congruence.
Qed.

Lemma cc_run_agrees ptr l : forall T s e, same T s ->
  spec_run always ptr (map c_op l) T = Some e ->
  match e with
  | OK (al, ls, T') => exists al' s', cc_run l s = OK (al', s') /\ map c_answer al' = al /\
      cc_out s' = cc_out s ++ respell ls /\ same T' s'
  | Er e => cc_run l s = Er e
  end.
Proof.
  induction l as [|o l IH]; intros T s e Hs; cbn [spec_run map].
  { intros [= <-]. exists [], s. split; [done|]. split; [done|]. by rewrite app_nil_r. }
  destruct (spec_step always ptr (c_op o) T) as [r|] eqn:Hstep; [|done].
  pose proof (cc_step_agrees ptr o T s r Hs Hstep) as Ha. cbn [cc_run].
  destruct r as [[[a ls] T1]|e1]; cbn [cc_agrees] in Ha; [|intros [= <-]; by rewrite (s_bind_Er _ _ _ _ Ha)].
  destruct Ha as (a' & s1 & Hrun & Hans & Hout & Hs1). rewrite (s_bind_OK _ _ _ _ _ Hrun).
  destruct (spec_run always ptr (map c_op l) T1) as [r|] eqn:Hrest; [|done]. specialize (IH T1 s1 r Hs1 Hrest).
  destruct r as [[[al ls'] T2]|e2]; intros [= <-].
  - destruct IH as (al' & s2 & Hrun2 & Hans2 & Hout2 & Hs2). rewrite (s_bind_OK _ _ _ _ _ Hrun2).
    exists (a' :: al'), s2. split; [done|]. split; [cbn; by rewrite Hans, Hans2|].
    split; [|done]. by rewrite Hout2, Hout, respell_app, app_assoc.
  - by rewrite (s_bind_Er _ _ _ _ IH).
Qed.

(** C32: the tables of functions that shape.c writes out do what the virtual
    functions of shape.cc do: in any session of a client that uses only live
    objects, when every allocation succeeds (where one fails C has a null pointer
    and C++ an exception), both have the same answers (the object [k] of C++
    being the block [2 * k] of C), fail together, when an area is not an [int],
    and print the same lines after [respell], which drops the lines with sizes
    that only C prints and the names in the lines of the destructors. *)
Theorem c_classes_are_cc_classes (ptr : Z) (l : list cc_op) :
  is_Some (spec_run always ptr (map c_op l) spec_start) ->
  match cc_run l cc_start, run always ptr (map c_op l) start with
  | OK (al, s), OK (al', s') => al' = map c_answer al /\ cc_out s = respell (out s')
  | Er e, Er e' => e = e'
  | _, _ => False
  end.
Proof.
  intros [e He]. pose proof (cc_run_agrees ptr l _ _ e same_start He) as Hcc.
  pose proof (run_agrees always ptr (map c_op l) _ _ e repr_start He) as Hc. destruct e as [[[al ls] T]|e].
  - destruct Hcc as (al' & s & -> & <- & Hout & _). destruct Hc as (s' & -> & Hout' & _). split; [done|].
    by rewrite Hout, Hout'.
  - by rewrite Hcc, Hc.
Qed.

(** The calls of [testCC] *)
Lemma c_classes_are_cc_classes_witness :
  let l := [CNew (PRect 10 20); CArea 0; CNew (PCircle 10); CArea 1; CDelete 0; CDelete 1] in
  match cc_run l cc_start, run always 8 (map c_op l) start with
  | OK (al, s), OK (al', s') => al' = map c_answer al /\ cc_out s = respell (out s')
  | Er e, Er e' => e = e'
  | _, _ => False
  end.
Proof. intros l. apply (c_classes_are_cc_classes 8 l). by eexists; vm_compute. Defined.

(** [testCC] finds the areas of the C program, deletes what it has made, and
    finds circles smaller than C does where members may use the padding. *)
Theorem testCC_runs (reuse : bool) (ptr : Z) : ptr = 4 \/ ptr = 8 -> exists n,
  testCC reuse ptr cc_start = OK ((200, 314), MkCC ∅ n
    ([LCRectSize (size_of ptr 2); LCCircleSize (size_of ptr 1 - if reuse && (ptr =? 8) then 8 else 0)] ++
     [LCShapeCtor sRect; LCRectCtor; LCRectArea; LCShapeCtor sCircle; LCCircleCtor; LCCircleArea] ++
     [LCRectDtor; LCShapeDtor; LCCircleDtor; LCShapeDtor])).
Proof. intros [-> | ->]; destruct reuse; eexists; by vm_compute. Qed.

Lemma testCC_runs_witness : exists n,
  testCC true 8 cc_start = OK ((200, 314), MkCC ∅ n
    ([LCRectSize 32; LCCircleSize 24] ++
     [LCShapeCtor sRect; LCRectCtor; LCRectArea; LCShapeCtor sCircle; LCCircleCtor; LCCircleArea] ++
     [LCRectDtor; LCShapeDtor; LCCircleDtor; LCShapeDtor])).
Proof. apply (testCC_runs true 8). by right. Defined.
