(* ===== verification/GrpcClient.v ===== *)
(** * The gRPC client [xmake/grpc-c/client.c]

    The program is one sequence of calls of the gRPC and protobuf-c libraries,
    with an exit at every call that can fail (the lines that report progress are
    left out).  The libraries are not part of the model: the program is the tree of its calls, with a branch for every
    answer, and an [oracle] gives the answers.

    The rules that the documentation of the libraries states for their objects
    are a monitor of the calls: an object is used between its creation and its
    release, is released once, what a batch was given stays alive until the
    batch has completed, the queue is shut down and drained before it is
    destroyed, and nothing is left when the library is shut down. *)

From stdpp Require Import list.
From S2P Require Import Prelude.

Local Open Scope Z_scope.

(** ** Calls *)

(** The objects of the program; there is at most one of each. *)
Inductive resource : Type :=
  | Library | Queue | Creds | Channel | Method | Call
  | RequestBuf | RequestSlice | RequestPayload
  | StatusDetails | InitialMetadata | TrailingMetadata
  | ResponsePayload | Reader | ResponseSlice | Reply
  | Batch                           (* a batch that has not completed *)
  | Closing                         (* the queue was told to shut down *)
  | Drained.                        (* and it has said that it is empty *)

#[global] Instance resource_eq_dec : EqDecision resource.
Proof. solve_decision. Defined.

Inductive event_type : Type := QUEUE_SHUTDOWN | QUEUE_TIMEOUT | OP_COMPLETE | OTHER_EVENT.

(** An event, and what the library has written to the variables of the batch
    when it has completed *)
Record grpc_event : Type := MkEvent {
  ev_type : event_type;
  ev_success : bool;
  response : bool;                  (* [response_payload] is not null *)
  status : Z;
  details : list Z
}.

(** What stderr says *)
Inductive failure : Type :=
  | FQueue | FCreds | FChannel | FCall | FMalloc | FPayload | FBatch (err : Z)
  | FTimeout | FShutdown | FEvent | FSuccess | FStatus (s : Z) | FNoResponse | FReader | FUnpack.

Inductive line : Type :=
  | LError (f : failure)
  | LDetails (l : list Z)
  | LResult (name message : list Z).

(** A call and the type of its answer; creations that may yield a null pointer
    answer whether they did not. *)
Inductive call : Type -> Type :=
  | grpc_init : call unit
  | grpc_shutdown : call unit
  | completion_queue_create : call bool
  | completion_queue_destroy : call unit
  | insecure_credentials_create : call bool
  | channel_credentials_release : call unit
  | channel_create : call bool
  | channel_destroy : call unit
  | slice_from_static_string : call unit
  | channel_create_call : call bool
  | call_unref : call unit
  | call_cancel : call unit
  | get_packed_size (name : list Z) : call Z
  | malloc (n : Z) : call bool
  | pack (name : list Z) : call unit
  | slice_from_copied_buffer (n : Z) : call unit
  | free : call unit
  | raw_byte_buffer_create : call bool
  | slice_unref (r : resource) : call unit
  | byte_buffer_destroy (r : resource) : call unit
  | empty_slice : call unit
  | metadata_array_init (r : resource) : call unit
  | metadata_array_destroy (r : resource) : call unit
  | call_start_batch : call Z
  | completion_queue_next : call grpc_event
  | byte_buffer_reader_init : call bool
  | byte_buffer_reader_readall : call unit
  | unpack : call (option (option (list Z)))   (* the reply, if it is one, and its message *)
  | free_unpacked : call unit
  | completion_queue_shutdown : call unit
  | print (l : line) : call unit.

Inductive prog : Type :=
  | Exit (code : Z)
  | Stuck                           (* out of fuel *)
  | Do {R : Type} (c : call R) (k : R -> prog).

Declare Scope grpc_scope.
Notation "'do' x <- c ;; k" := (Do c (fun x => k)) (at level 100, x name, c at next level, right associativity) : grpc_scope.
Notation "c ;;; k" := (Do c (fun _ => k)) (at level 100, right associativity) : grpc_scope.
Local Open Scope grpc_scope.

(** ** The program *)

(** A line on stderr *)
Definition fail_with (f : failure) (k : prog) : prog := print (LError f) ;;; k.

(** The releases that end the early exits *)
Definition release_queue : prog := completion_queue_destroy ;;; grpc_shutdown ;;; Exit 1.
Definition release_channel : prog := channel_destroy ;;; release_queue.
Definition release_call : prog := call_unref ;;; release_channel.
Definition release_batch : prog :=
  slice_unref StatusDetails ;;;
  metadata_array_destroy InitialMetadata ;;;
  metadata_array_destroy TrailingMetadata ;;;
  release_call.

(** [if (response_payload != NULL) grpc_byte_buffer_destroy(response_payload)] *)
Definition release_response (b : bool) (k : prog) : prog :=
  if b then byte_buffer_destroy ResponsePayload ;;; k else k.

(** The loop at the end *)
Fixpoint drain (fuel : nat) : prog :=
  match fuel with
  | O => Stuck
  | S fuel =>
      do ev <- completion_queue_next ;;
      match ev_type ev with
      | QUEUE_SHUTDOWN => completion_queue_destroy ;;; grpc_shutdown ;;; Exit 0
      | _ => drain fuel
      end
  end.

(** Steps 16 to 19: the reply *)
Definition finish (fuel : nat) (name : list Z) : prog :=
  byte_buffer_reader_readall ;;;
  do reply <- unpack ;;
  slice_unref ResponseSlice ;;;
  match reply with
  | None =>
      fail_with FUnpack (
      byte_buffer_destroy RequestPayload ;;;
      byte_buffer_destroy ResponsePayload ;;;
      release_batch)
  | Some message =>
      print (LResult name (default [40; 110; 117; 108; 108; 41] message)) ;;;
      free_unpacked ;;;
      byte_buffer_destroy RequestPayload ;;;
      byte_buffer_destroy ResponsePayload ;;;
      slice_unref StatusDetails ;;;
      metadata_array_destroy InitialMetadata ;;;
      metadata_array_destroy TrailingMetadata ;;;
      call_unref ;;;
      channel_destroy ;;;
      completion_queue_shutdown ;;;
      drain fuel
  end.

(** Steps 12 to 15: the event and the status *)
Definition completed (fuel : nat) (name : list Z) (ev : grpc_event) : prog :=
  match ev_type ev with
  | QUEUE_TIMEOUT =>
      fail_with FTimeout (call_cancel ;;; byte_buffer_destroy RequestPayload ;;; release_batch)
  | QUEUE_SHUTDOWN =>
      fail_with FShutdown (byte_buffer_destroy RequestPayload ;;; release_batch)
  | OTHER_EVENT =>
      fail_with FEvent (byte_buffer_destroy RequestPayload ;;; release_batch)
  | OP_COMPLETE =>
      if negb (ev_success ev) then
        fail_with FSuccess (byte_buffer_destroy RequestPayload ;;; release_response (response ev) release_batch)
      else if negb (status ev =? 0) then
        fail_with (FStatus (status ev))
          (let rest := byte_buffer_destroy RequestPayload ;;; release_response (response ev) release_batch in
           if negb (bool_decide (details ev = [])) then print (LDetails (details ev)) ;;; rest else rest)
      else if negb (response ev) then
        fail_with FNoResponse (byte_buffer_destroy RequestPayload ;;; release_batch)
      else
        do ok <- byte_buffer_reader_init ;;
        if negb ok then
          fail_with FReader (byte_buffer_destroy RequestPayload ;;; byte_buffer_destroy ResponsePayload ;;; release_batch)
        else finish fuel name
  end.

(** Steps 7 to 11: the batch *)
Definition batch (fuel : nat) (name : list Z) : prog :=
  empty_slice ;;;
  metadata_array_init InitialMetadata ;;;
  metadata_array_init TrailingMetadata ;;;
  do err <- call_start_batch ;;
  if negb (err =? 0) then
    fail_with (FBatch err) (byte_buffer_destroy RequestPayload ;;; release_batch)
  else
    do ev <- completion_queue_next ;;
    completed fuel name ev.

(** Steps 5 and 6: the request *)
Definition request (fuel : nat) (name : list Z) : prog :=
  do size <- get_packed_size name ;;
  do buf <- malloc size ;;
  if negb buf then fail_with FMalloc release_call else
  pack name ;;;
  slice_from_copied_buffer size ;;;
  free ;;;
  do payload <- raw_byte_buffer_create ;;
  slice_unref RequestSlice ;;;
  if negb payload then fail_with FPayload release_call else
  batch fuel name.

Definition main (fuel : nat) (name : list Z) : prog :=
  grpc_init ;;;
  do cq <- completion_queue_create ;;
  if negb cq then fail_with FQueue (grpc_shutdown ;;; Exit 1) else
  do creds <- insecure_credentials_create ;;
  if negb creds then fail_with FCreds release_queue else
  do channel <- channel_create ;;
  channel_credentials_release ;;;
  if negb channel then fail_with FChannel release_queue else
  slice_from_static_string ;;;
  do call <- channel_create_call ;;
  slice_unref Method ;;;
  if negb call then fail_with FCall release_channel else
  request fuel name.
