(* ===== verification/GrpcRules.v ===== *)
(** * The gRPC client keeps the rules of the library

    Runs of the client for any answers of the libraries, the monitor of its
    calls, and what the program prints and returns. *)

From stdpp Require Import list.
From S2P Require Import Prelude GrpcClient.

Local Open Scope Z_scope.

(** ** Runs *)

Record event : Type := Ev { ev_ty : Type; ev_call : call ev_ty; ev_ans : ev_ty }.

(** The answer to the [n]-th call *)
Definition oracle : Type := forall R, call R -> nat -> R.

(** The calls of a run with their answers, and the exit code *)
Fixpoint exec (o : oracle) (p : prog) (n : nat) : list event * option Z :=
  match p with
  | Exit code => ([], Some code)
  | Stuck => ([], None)
  | @Do R c k =>
      let a := o R c n in
      let r := exec o (k a) (S n) in
      (Ev R c a :: r.1, r.2)
  end.

(** ** The rules *)

(** The calls of gRPC itself, which need the library to be initialised *)
Definition of_grpc {R} (c : call R) : bool :=
  match c with
  | grpc_init | get_packed_size _ | malloc _ | pack _ | free | unpack | free_unpacked | print _ => false
  | _ => true
  end.

(** What a call needs alive *)
Definition uses {R} (c : call R) : list resource :=
  (if of_grpc c then [Library] else []) ++
  match c with
  | channel_create => [Creds]
  | channel_create_call => [Channel; Queue; Method]
  | call_cancel => [Call]
  | pack _ => [RequestBuf]
  | slice_from_copied_buffer _ => [RequestBuf]
  | raw_byte_buffer_create => [RequestSlice]
  | call_start_batch => [Call; RequestPayload; InitialMetadata; TrailingMetadata; StatusDetails]
  | completion_queue_next => [Queue]
  | completion_queue_shutdown => [Queue]
  | byte_buffer_reader_init => [ResponsePayload]
  | byte_buffer_reader_readall => [Reader; ResponsePayload]
  | unpack => [ResponseSlice]
  | print (LResult _ _) => [Reply]
  | print (LDetails _) => [StatusDetails]
  | _ => []
  end.

(** What it releases *)
Definition takes {R} (c : call R) : list resource :=
  match c with
  | grpc_shutdown => [Library]
  | completion_queue_destroy => [Queue]
  | channel_credentials_release => [Creds]
  | channel_destroy => [Channel]
  | call_unref => [Call]
  | free => [RequestBuf]
  | slice_unref r => [r]
  | byte_buffer_destroy r => [r]
  | metadata_array_destroy r => [r]
  | free_unpacked => [Reply]
  | _ => []
  end.

(** What it creates, by its answer *)
Definition gives {R} (c : call R) : R -> list resource :=
  match c with
  | grpc_init => fun _ => [Library]
  | completion_queue_create => fun b => if b then [Queue] else []
  | insecure_credentials_create => fun b => if b then [Creds] else []
  | channel_create => fun b => if b then [Channel] else []
  | slice_from_static_string => fun _ => [Method]
  | channel_create_call => fun b => if b then [Call] else []
  | malloc _ => fun b => if b then [RequestBuf] else []
  | slice_from_copied_buffer _ => fun _ => [RequestSlice]
  | raw_byte_buffer_create => fun b => if b then [RequestPayload] else []
  | empty_slice => fun _ => [StatusDetails]
  | metadata_array_init r => fun _ => [r]
  | call_start_batch => fun err => if err =? 0 then [Batch] else []
  | byte_buffer_reader_init => fun b => if b then [Reader] else []
  | byte_buffer_reader_readall => fun _ => [ResponseSlice]
  | completion_queue_shutdown => fun _ => [Closing]
  | unpack => fun m => if m then [Reply] else []
  | _ => fun _ => []
  end.

(** What a batch holds until it completes *)
Definition lent (r : resource) : bool :=
  match r with
  | Queue | RequestPayload | StatusDetails | InitialMetadata | TrailingMetadata => true
  | _ => false
  end.

Definition mem (r : resource) (live : list resource) : bool := bool_decide (r ∈ live).
Definition remove (rs live : list resource) : list resource := filter (fun r => r ∉ rs) live.

(** What an event of the queue changes: a batch that ends is no longer pending,
    and has written the response; a queue that was told to shut down says when
    it is empty. *)
Definition settle {R} (c : call R) : R -> list resource -> list resource :=
  match c with
  | completion_queue_next => fun ev live =>
      match ev_type ev with
      | OP_COMPLETE =>
          if mem Batch live then (if response ev then [ResponsePayload] else []) ++ remove [Batch] live else live
      | QUEUE_SHUTDOWN => if mem Closing live then Drained :: live else live
      | _ => live
      end
  | completion_queue_destroy => fun _ => remove [Closing; Drained]
  | _ => fun _ live => live
  end.

(** The ways to break a rule *)
Inductive violation : Type :=
  | NotAlive (r : resource)         (* used or released before its creation or after its release *)
  | MadeTwice (r : resource)        (* created while it was alive *)
  | StillHeld (r : resource)        (* released though a pending batch holds it *)
  | NotDrained                      (* the queue is destroyed without having been shut down and drained *)
  | LeftAtShutdown (r : resource).  (* not released when the library is shut down *)

(** The rules that one call breaks when [live] is alive *)
Definition broken_by (e : event) (live : list resource) : list violation :=
  let c := ev_call e in
  (NotAlive <$> filter (fun r => r ∉ live) (uses c ++ takes c)) ++
  (StillHeld <$> filter (fun r => mem Batch live && lent r) (takes c)) ++
  (MadeTwice <$> filter (fun r => r ∈ live) (gives c (ev_ans e))) ++
  match c with
  | completion_queue_destroy => if mem Drained live then [] else [NotDrained]
  | grpc_shutdown => LeftAtShutdown <$> remove [Library] live
  | _ => []
  end.

(** What is alive after it *)
Definition after_call (e : event) (live : list resource) : list resource :=
  let c := ev_call e in settle c (ev_ans e) (gives c (ev_ans e) ++ remove (takes c) live).

(** The monitor: the rules that were broken, and what is alive *)
Definition watch (m : list violation * list resource) (e : event) : list violation * list resource :=
  (m.1 ++ broken_by e m.2, after_call e m.2).
Definition monitor (tr : list event) : list violation * list resource := foldl watch ([], []) tr.

(** ** What a run shows *)

(** The failure that an answer reports *)
Definition failure_of (e : event) : option failure :=
  match ev_call e in call R return R -> option failure with
  | completion_queue_create => fun b => if b then None else Some FQueue
  | insecure_credentials_create => fun b => if b then None else Some FCreds
  | channel_create => fun b => if b then None else Some FChannel
  | channel_create_call => fun b => if b then None else Some FCall
  | malloc _ => fun b => if b then None else Some FMalloc
  | raw_byte_buffer_create => fun b => if b then None else Some FPayload
  | call_start_batch => fun err => if err =? 0 then None else Some (FBatch err)
  | completion_queue_next => fun ev =>
      match ev_type ev with
      | QUEUE_TIMEOUT => Some FTimeout
      | QUEUE_SHUTDOWN => Some FShutdown
      | OTHER_EVENT => Some FEvent
      | OP_COMPLETE =>
          if negb (ev_success ev) then Some FSuccess
          else if negb (status ev =? 0) then Some (FStatus (status ev))
          else if response ev then None else Some FNoResponse
      end
  | byte_buffer_reader_init => fun b => if b then None else Some FReader
  | unpack => fun m => if m then None else Some FUnpack
  | _ => fun _ => None
  end (ev_ans e).

(** The queue is told to shut down: the call was a success, and what the queue
    says from here on is not about it. *)
Definition closes (e : event) : bool := match ev_call e with completion_queue_shutdown => true | _ => false end.

Fixpoint first_failure (tr : list event) : option failure :=
  match tr with
  | [] => None
  | e :: tr => if closes e then None else match failure_of e with Some f => Some f | None => first_failure tr end
  end.

Definition line_of (e : event) : option line :=
  match ev_call e with print l => Some l | _ => None end.

(** The reply and its message *)
Definition reply_of (e : event) : option (option (list Z)) :=
  match ev_call e in call R return R -> option (option (list Z)) with
  | unpack => fun m => m
  | _ => fun _ => None
  end (ev_ans e).

(** The details that came with a status *)
Definition details_of (e : event) : option (list Z) :=
  match ev_call e in call R return R -> option (list Z) with
  | completion_queue_next => fun ev => Some (details ev)
  | _ => fun _ => None
  end (ev_ans e).

(** The rules that a run breaks, by the failure that it meets: a call that
    fails before or after the batch has it destroy the queue at once; one that
    ends without the batch has it release what the batch still holds; and the
    reader is never destroyed. *)
Definition breaks (f : option failure) : list violation :=
  match f with
  | None => [LeftAtShutdown Reader]
  | Some FQueue => []
  | Some (FTimeout | FShutdown | FEvent) =>
      [StillHeld RequestPayload; StillHeld StatusDetails; StillHeld InitialMetadata; StillHeld TrailingMetadata;
       StillHeld Queue; NotDrained; LeftAtShutdown Batch]
  | Some FUnpack => [NotDrained; LeftAtShutdown Reader]
  | Some _ => [NotDrained]
  end.
Definition left_of (v : violation) : option resource := match v with LeftAtShutdown r => Some r | _ => None end.

(** The lines that a run prints, by the failure, the details of the status and
    the reply *)
Definition lines_for (name : list Z) (f : option failure) (ds : list (list Z)) (reply : list (option (list Z))) : list line :=
  match f with
  | None => (fun m => LResult name (default [40; 110; 117; 108; 108; 41] m)) <$> reply
  | Some (FStatus s) => LError (FStatus s) :: (LDetails <$> filter (fun d => d <> []) ds)
  | Some f => [LError f]
  end.

(** What is observed of a run, event by event *)
Record tally : Type := MkTally {
  t_rules : list violation * list resource;
  t_fail : option failure;
  t_closed : bool;
  t_details : list (list Z);        (* before the queue was told to shut down *)
  t_reply : list (option (list Z));
  t_lines : list line
}.

Definition opt_list {A} (x : option A) : list A := match x with Some a => [a] | None => [] end.

Definition count (t : tally) (e : event) : tally :=
  let closed := t_closed t || closes e in
  MkTally (watch (t_rules t) e)
    (match t_fail t with Some f => Some f | None => if closed then None else failure_of e end)
    closed
    (if closed then t_details t else t_details t ++ opt_list (details_of e))
    (t_reply t ++ opt_list (reply_of e)) (t_lines t ++ opt_list (line_of e)).

Definition nothing_yet : tally := MkTally ([], []) None false [] [] [].
Definition observe (tr : list event) : tally := foldl count nothing_yet tr.

(** The details before the queue was told to shut down *)
Fixpoint all_details (tr : list event) : list (list Z) :=
  match tr with [] => [] | e :: tr => if closes e then [] else opt_list (details_of e) ++ all_details tr end.

(** The expected observation of a run with exit code [c] *)
Definition verdict (name : list Z) (t : tally) (c : Z) : Prop :=
  t_rules t = (breaks (t_fail t), omap left_of (breaks (t_fail t))) /\
  c = (if t_fail t then 1 else 0) /\
  t_lines t = lines_for name (t_fail t) (t_details t) (t_reply t) /\
  length (t_reply t) = (if t_fail t then 0%nat else 1%nat).

(** ** Proofs *)

Section proofs.
Variable o : oracle.

(** [Q] holds of the observation and the exit code of every run of [p] that
    starts after [t]. *)
Definition wp (p : prog) (t : tally) (Q : tally -> option Z -> Prop) : Prop :=
  forall n, Q (foldl count t (exec o p n).1) (exec o p n).2.

Lemma wp_do {R} (c : call R) k t Q : (forall a, wp (k a) (count t (Ev R c a)) Q) -> wp (Do c k) t Q.
Proof. intros Hk n. apply Hk. Qed.

Lemma wp_exit code t (Q : tally -> option Z -> Prop) : Q t (Some code) -> wp (Exit code) t Q.
Proof. by intros HQ n. Qed.

(** The loop at the end finds nothing but events that it drops. *)
Lemma wp_drain fuel ds reply ls (Q : tally -> option Z -> Prop) :
  (forall t, Q t None) ->
  Q (MkTally ([LeftAtShutdown Reader], [Reader]) None true ds reply ls) (Some 0) ->
  wp (drain fuel) (MkTally ([], [Closing; Reader; Queue; Library]) None true ds reply ls) Q.
Proof.
  intros Hn HQ. induction fuel as [|fuel IH]; [intros n; apply Hn|]. apply wp_do. intros [ty su re st de].
  set (t := MkTally ([], [Closing; Reader; Queue; Library]) None true ds reply ls).
  assert (count t (Ev _ completion_queue_next (MkEvent ty su re st de)) =
    if ty is QUEUE_SHUTDOWN then MkTally ([], [Drained; Closing; Reader; Queue; Library]) None true ds reply ls else t) as ->.
  { unfold count, t. cbn [t_reply t_lines t_details t_closed t_fail t_rules orb reply_of line_of ev_call ev_ans opt_list].
    rewrite !app_nil_r. by destruct ty. }
  cbn [ev_type]. destruct ty; [|exact IH..].
  do 2 (apply wp_do; intros []). apply wp_exit.
  unfold count. cbn -[watch]. rewrite !app_nil_r. exact HQ.
Qed.

End proofs.

Ltac take_apart a :=
  match type of a with
  | bool => destruct a
  | unit => destruct a
  | option _ => destruct a
  | grpc_event => destruct a as [[] [] [] [] [|? ?]]
  end.

(** One call: its answer is taken apart and the observation computed. *)
Ltac call_step :=
  match goal with
  | |- wp _ (Do call_start_batch _) _ _ => apply wp_do; intros [|?|?]
  | _ => apply wp_do; let a := fresh "a" in intros a; try take_apart a
  end;
  cbn [negb andb Z.eqb fail_with release_queue release_channel release_call release_batch release_response
    finish completed batch request ev_type ev_success response status details];
  match goal with |- wp _ _ ?t _ => let t' := eval vm_compute in t in change t with t' end.

Lemma client_wp (o : oracle) fuel name (Q : tally -> option Z -> Prop) : (forall t, Q t None) ->
  (forall t c, verdict name t c -> Q t (Some c)) ->
  wp o (main fuel name) nothing_yet Q.
Proof.
  intros HQ0 HQ. unfold main, nothing_yet. repeat call_step.
  all: try (apply wp_exit, HQ; vm_compute; eauto 10; done).
  all: apply wp_drain; [done|]; apply HQ; vm_compute; eauto 10.
Qed.

(** The observation, function by function *)
Lemma count_closed tr t : t_closed t = true ->
  foldl count t tr = MkTally (foldl watch (t_rules t) tr) (t_fail t) true (t_details t)
    (t_reply t ++ omap reply_of tr) (t_lines t ++ omap line_of tr).
Proof.
  revert t. induction tr as [|e tr IH]; intros t Ht; [destruct t; cbn in *; by rewrite Ht, !app_nil_r|].
  cbn [foldl]. rewrite IH by (cbn; by rewrite Ht). cbn -[watch reply_of line_of]. rewrite Ht. cbn [orb].
  rewrite <- !app_assoc. f_equal; [by destruct (t_fail t)|by destruct (reply_of e)|by destruct (line_of e)].
Qed.

Lemma count_all tr t : t_closed t = false ->
  foldl count t tr = MkTally (foldl watch (t_rules t) tr)
    (match t_fail t with Some f => Some f | None => first_failure tr end) (existsb closes tr)
    (t_details t ++ all_details tr) (t_reply t ++ omap reply_of tr) (t_lines t ++ omap line_of tr).
Proof.
  revert t. induction tr as [|e tr IH]; intros t Ht.
  { destruct t as [? [] ? ? ? ?]; cbn in *; by rewrite Ht, !app_nil_r. }
  cbn [foldl existsb first_failure all_details]. destruct (closes e) eqn:He.
  - rewrite count_closed by (cbn; by rewrite He, orb_true_r). cbn -[watch reply_of line_of]. rewrite He, orb_true_r, app_nil_r.
    rewrite <- !app_assoc. f_equal; [by destruct (reply_of e)|by destruct (line_of e)].
  - rewrite IH by (cbn; by rewrite Ht, He). cbn -[watch reply_of line_of failure_of details_of]. rewrite Ht, He. cbn [orb].
    rewrite <- !app_assoc. f_equal; [by destruct (t_fail t), (failure_of e)|by destruct (reply_of e)|by destruct (line_of e)].
Qed.

Lemma client_verdict (o : oracle) fuel name tr code : exec o (main fuel name) 0 = (tr, Some code) ->
  verdict name (MkTally (monitor tr) (first_failure tr) (existsb closes tr) (all_details tr) (omap reply_of tr) (omap line_of tr)) code.
Proof.
  intros Hrun. pose proof (client_wp o fuel name (fun t c => forall code, c = Some code -> verdict name t code)
    ltac:(done) ltac:(by intros t c Hv code' [= <-]) 0%nat code) as Hv.
  rewrite Hrun in Hv. cbn [fst snd] in Hv. rewrite count_all in Hv by done. by apply Hv.
Qed.

(** The loop at the end stops at the first shutdown event. *)
Lemma drain_ends (o : oracle) fuel m n : (m < fuel)%nat ->
  ev_type (o grpc_event completion_queue_next (n + m)%nat) = QUEUE_SHUTDOWN -> is_Some (exec o (drain fuel) n).2.
Proof.
  revert m n. induction fuel as [|fuel IH]; intros m n Hm Hev; [lia|]. cbn [drain exec].
  destruct (ev_type (o grpc_event completion_queue_next n)) eqn:Hn; cbn [fst snd exec]; [by eexists|..];
    (destruct m as [|m]; [rewrite Nat.add_0_r in Hev; congruence|]; apply (IH m); [lia|]; by rewrite Nat.add_succ_comm).
Qed.

Lemma client_ends (o : oracle) fuel name :
  (forall n, exists m, (m < fuel)%nat /\ ev_type (o grpc_event completion_queue_next (n + m)%nat) = QUEUE_SHUTDOWN) ->
  exists tr code, exec o (main fuel name) 0 = (tr, Some code).
Proof.
  intros Hs. assert (is_Some (exec o (main fuel name) 0).2) as [code Hc].
  { cut (wp o (main fuel name) nothing_yet (fun _ c => is_Some c)); [intros Hwp; apply Hwp|].
    unfold main, nothing_yet. repeat call_step. all: try (by apply wp_exit).
    all: intros n; destruct (Hs n) as (m & Hm & Hev); by apply (drain_ends o fuel m). }
  exists (exec o (main fuel name) 0).1, code. by rewrite <- Hc, <- surjective_pairing.
Qed.

(** ** Theorems *)

(** C24: whatever the libraries answer, these are all the rules that a run
    breaks and all that it leaves behind, by the failure that it meets: a call
    that succeeds leaves the reader of the response; every other end once there
    is a queue destroys the queue without having shut it down and drained it;
    and one where the wait ends without the batch (its deadline is that of the
    call) releases also what the pending batch holds. *)
Theorem client_keeps_rules (o : oracle) fuel name tr code : exec o (main fuel name) 0 = (tr, Some code) ->
  monitor tr = (breaks (first_failure tr), omap left_of (breaks (first_failure tr))).
Proof. intros Hrun. apply (client_verdict o fuel name tr code Hrun). Qed.

(** C25: when the queue reports its shutdown in time the program ends.  If an
    answer of a library is a failure, the first that is decides: the exit code
    is 1 and what stderr says is the line of that failure, with the details, if
    there are any, when it is the status of the call.  If none is, the exit
    code is 0 and the one reply is printed, with its message or "(null)". *)
Theorem client_outcome (o : oracle) fuel name :
  (forall n, exists m, (m < fuel)%nat /\ ev_type (o grpc_event completion_queue_next (n + m)%nat) = QUEUE_SHUTDOWN) ->
  exists tr code, exec o (main fuel name) 0 = (tr, Some code) /\
    code = (if first_failure tr then 1 else 0) /\
    omap line_of tr = lines_for name (first_failure tr) (all_details tr) (omap reply_of tr) /\
    length (omap reply_of tr) = (if first_failure tr then 0%nat else 1%nat).
Proof.
  intros Hs. destruct (client_ends o fuel name Hs) as (tr & code & Hrun). exists tr, code. split; [done|].
  by destruct (client_verdict o fuel name tr code Hrun) as (_ & Hc & Hl & Hr).
Qed.

(** Libraries on which every call succeeds, with the given first event and reply *)
Definition answers (first : grpc_event) (reply : option (option (list Z))) : oracle := fun R c n =>
  match c in call R return R with
  | completion_queue_create | insecure_credentials_create | channel_create | channel_create_call
  | malloc _ | raw_byte_buffer_create | byte_buffer_reader_init => true
  | get_packed_size _ | call_start_batch => 0
  | completion_queue_next => if (n <? 22)%nat then first else MkEvent QUEUE_SHUTDOWN false false 0 []
  | unpack => reply
  | _ => tt
  end.

Definition sWorld : list Z := [87; 111; 114; 108; 100].
Definition completed_event : grpc_event := MkEvent OP_COMPLETE true true 0 [].
Definition run_with (first : grpc_event) : list event * option Z :=
  exec (answers first (Some (Some sWorld))) (main 30 sWorld) 0.

(** The run that succeeds, and the run whose wait times out *)
Lemma client_keeps_rules_witness :
  monitor (run_with completed_event).1 = ([LeftAtShutdown Reader], [Reader]) /\
  monitor (run_with (MkEvent QUEUE_TIMEOUT false false 2 [])).1 =
    ([StillHeld RequestPayload; StillHeld StatusDetails; StillHeld InitialMetadata; StillHeld TrailingMetadata;
      StillHeld Queue; NotDrained; LeftAtShutdown Batch], [Batch]).
Proof.
  set (lost := MkEvent QUEUE_TIMEOUT false false 2 []).
  assert (forall ev code, (run_with ev).2 = Some code -> run_with ev = ((run_with ev).1, Some code)) as Hrun.
  { intros ev code <-. apply surjective_pairing. }
  split.
  - rewrite (client_keeps_rules (answers completed_event (Some (Some sWorld))) 30 sWorld _ 0
      (Hrun completed_event 0 ltac:(by vm_compute))). by vm_compute.
  - rewrite (client_keeps_rules (answers lost (Some (Some sWorld))) 30 sWorld _ 1
      (Hrun lost 1 ltac:(by vm_compute))). by vm_compute.
Defined.

(** A call that the server ends with a status *)
Definition refused_event : grpc_event := MkEvent OP_COMPLETE true false 14 [110; 111].

Lemma client_outcome_witness :
  exists tr code, run_with refused_event = (tr, Some code) /\ code = 1 /\
    omap line_of tr = [LError (FStatus 14); LDetails [110; 111]].
Proof.
  destruct (client_outcome (answers refused_event (Some (Some sWorld))) 30 sWorld) as (tr & code & Hrun & Hcode & Hlines & _).
  { intros n. exists 22%nat. split; [lia|]. cbn [answers].
    by rewrite (proj2 (Nat.ltb_ge (n + 22) 22)) by lia. }
  exists tr, code. split; [exact Hrun|].
  assert (tr = (run_with refused_event).1) as -> by (by rewrite (Hrun : run_with refused_event = _)).
  split; [rewrite Hcode; by vm_compute|rewrite Hlines; by vm_compute].
Defined.
