(* ===== verification/GrpcServer.v ===== *)
(** * The gRPC server [xmake/grpc-c/server.c]

    One thread takes events off a completion queue.  Every operation it starts
    has a [server_tag] of its own, which the event of the operation brings
    back: one tag waits for the next call, and each answered call has one until
    its answer has been sent.  A step of the program is what it does between
    two calls of [grpc_completion_queue_next]; which operation ends next, and
    how, is up to the library.

    The packing and unpacking of protobuf-c are parameters, as is what the
    allocator and the library answer. *)

From stdpp Require Import gmap.
From S2P Require Import Prelude Words Monad.

Local Open Scope Z_scope.
Local Open Scope st_scope.

Inductive tag_type : Type := TAG_NEW_CALL | TAG_FINISH.

Record server_tag : Type := MkTag {
  type : tag_type;
  call : option nat;
  metadata : bool;                  (* the array is initialised *)
  payload : option (nat * list Z)   (* the byte buffer and its bytes *)
}.

(** Where the program is *)
Inductive phase : Type :=
  | Serving                         (* in the event loop *)
  | Draining                        (* in the loop that follows *)
  | Ended.

Record St : Type := MkSt {
  tags : gmap nat server_tag;       (* the live blocks *)
  next : nat;                       (* the number of the next block or object *)
  calls : gset nat;                 (* the calls of the library that are held *)
  objs : gset nat;                  (* its buffers and slices, and other blocks *)
  pending : gset nat;               (* the tags of the operations under way *)
  at_ : phase;
  received : list (list Z);         (* the names that were printed *)
  sent : list (nat * list Z);       (* the answers handed to the library *)
  readers : nat                     (* the readers that are open *)
}.

Notation ST := (ST St).

Definition set_tags (s : St) x := MkSt x (next s) (calls s) (objs s) (pending s) (at_ s) (received s) (sent s) (readers s).
Definition set_next (s : St) x := MkSt (tags s) x (calls s) (objs s) (pending s) (at_ s) (received s) (sent s) (readers s).
Definition set_calls (s : St) x := MkSt (tags s) (next s) x (objs s) (pending s) (at_ s) (received s) (sent s) (readers s).
Definition set_objs (s : St) x := MkSt (tags s) (next s) (calls s) x (pending s) (at_ s) (received s) (sent s) (readers s).
Definition set_pending (s : St) x := MkSt (tags s) (next s) (calls s) (objs s) x (at_ s) (received s) (sent s) (readers s).
Definition set_at (s : St) x := MkSt (tags s) (next s) (calls s) (objs s) (pending s) x (received s) (sent s) (readers s).
Definition set_received (s : St) x := MkSt (tags s) (next s) (calls s) (objs s) (pending s) (at_ s) x (sent s) (readers s).
Definition set_sent (s : St) x := MkSt (tags s) (next s) (calls s) (objs s) (pending s) (at_ s) (received s) x (readers s).
Definition set_readers (s : St) x := MkSt (tags s) (next s) (calls s) (objs s) (pending s) (at_ s) (received s) (sent s) x.

(** ** Blocks and objects *)

Definition get_tag (p : nat) : ST server_tag := let* m := s_get tags in s_some OutOfBounds (m !! p).
Definition put_tag (p : nat) (t : server_tag) : ST unit := s_mod (fun s => set_tags s (<[p := t]> (tags s))).

(** [calloc(1, sizeof(server_tag))] *)
Definition calloc_tag (mem : bool) : ST (option nat) :=
  if mem then
    let* n := s_get next in
    s_mod (fun s => set_tags (set_next s (S n)) (<[n := MkTag TAG_NEW_CALL None false None]> (tags s))) ;*
    s_ret (Some n)
  else s_ret None.

Definition free_tag (p : nat) : ST unit :=
  let* t := get_tag p in s_mod (fun s => set_tags s (delete p (tags s))).

(** A new buffer, slice or block, and its release *)
Definition new_obj : ST nat :=
  let* n := s_get next in
  s_mod (fun s => set_objs (set_next s (S n)) ({[n]} ∪ objs s)) ;* s_ret n.
Definition release_obj (n : nat) : ST unit :=
  let* o := s_get objs in
  if decide (n ∈ o) then s_mod (fun s => set_objs s (objs s ∖ {[n]})) else s_fail BadFree.

(** [grpc_byte_buffer_reader_init] that succeeds: the reader is open until
    [grpc_byte_buffer_reader_destroy], which this program does not call. *)
Definition reader_init : ST unit := s_mod (fun s => set_readers s (S (readers s))).

Definition grpc_call_unref (c : option nat) : ST unit :=
  let* c := s_some NullDeref c in
  let* cs := s_get calls in
  if decide (c ∈ cs) then s_mod (fun s => set_calls s (calls s ∖ {[c]})) else s_fail BadFree.

Definition metadata_array_destroy (p : nat) : ST unit :=
  let* t := get_tag p in
  if metadata t then put_tag p (MkTag (type t) (call t) false (payload t)) else s_fail BadFree.

(** ** The functions of the program *)

Section code.
(** [None]: the bytes are not a request; else its name, if it has one *)
Variable unpack : list Z -> option (option (list Z)).
Variable pack : list Z -> list Z.

(** [ok]: [grpc_server_request_registered_call] takes the request. *)
Definition request_new_call (mem ok : bool) : ST unit :=
  let* tag := calloc_tag mem in
  let* tag := s_some NullDeref tag in
  put_tag tag (MkTag TAG_NEW_CALL None true None) ;*
  if ok then s_mod (fun s => set_pending s ({[tag]} ∪ pending s))
  else metadata_array_destroy tag ;* free_tag tag.

Definition sHello : list Z := [72; 101; 108; 108; 111; 44; 32].
Definition sUnknown : list Z := [117; 110; 107; 110; 111; 119; 110].

(** [snprintf(response_msg, 256, "Hello, %s!", name)] *)
Definition response_msg (name : list Z) : list Z := take 255 (sHello ++ name ++ [33]).

(** The answers of the library and the allocator during one call *)
Record answers : Type := MkAns {
  a_reader : bool;                  (* [grpc_byte_buffer_reader_init] *)
  a_reply : bool;                   (* [malloc] of the reply *)
  a_finish : bool;                  (* [calloc] of the second tag *)
  a_batch : bool;                   (* [grpc_call_start_batch] *)
  a_tag : bool;                     (* [calloc] of the next tag *)
  a_request : bool                  (* the next request is taken *)
}.

(** The request of a tag: the object it takes, and its name *)
Definition parse_request (a : answers) (tag : nat) : ST (option (nat * option (list Z))) :=
  let* t := get_tag tag in
  match payload t with
  | None => s_ret None
  | Some (b, bytes) =>
      let* request :=
        (if a_reader a then
           reader_init ;*
           let* slice := new_obj in
           let* request :=
             (match unpack bytes with
              | Some name => let* r := new_obj in s_ret (Some (r, name))
              | None => s_ret None
              end) in
           release_obj slice ;*
           s_ret request
         else s_ret None) in
      release_obj b ;*
      put_tag tag (MkTag (type t) (call t) (metadata t) None) ;*
      s_ret request
  end.

Definition request_name (request : option (nat * option (list Z))) : list Z :=
  match request with Some (_, Some name) => name | _ => sUnknown end.

Definition handle_new_call (a : answers) (tag : nat) : ST unit :=
  let* request := parse_request a tag in
  let name := request_name request in
  s_mod (fun s => set_received s (received s ++ [name])) ;*
  let bytes := pack (response_msg name) in
  (if a_reply a then s_ret tt else s_fail NullDeref) ;*
  let* reply_buf := new_obj in
  let* reply_slice := new_obj in
  let* reply_bb := new_obj in
  let* finish_tag := calloc_tag (a_finish a) in
  let* finish_tag := s_some NullDeref finish_tag in
  let* t := get_tag tag in
  put_tag finish_tag (MkTag TAG_FINISH (call t) false None) ;*
  let* c := s_some NullDeref (call t) in
  (if a_batch a then
     s_mod (fun s => set_sent s (sent s ++ [(c, bytes)])) ;*
     s_mod (fun s => set_pending s ({[finish_tag]} ∪ pending s))
   else
     let* ft := get_tag finish_tag in
     grpc_call_unref (call ft) ;*
     free_tag finish_tag) ;*
  (match request with Some (r, _) => release_obj r | None => s_ret tt end) ;*
  release_obj reply_slice ;*
  release_obj reply_bb ;*
  release_obj reply_buf ;*
  metadata_array_destroy tag ;*
  free_tag tag.

(** What the queue delivers *)
Inductive event : Type :=
  | QUEUE_TIMEOUT
  | QUEUE_SHUTDOWN
  | OP_COMPLETE (tag : nat) (success : bool).

(** The body of the event loop; [false] for [break] *)
Definition loop_body (a : answers) (ev : event) : ST bool :=
  match ev with
  | QUEUE_TIMEOUT => s_ret true
  | QUEUE_SHUTDOWN => s_ret false
  | OP_COMPLETE tag success =>
      let* t := get_tag tag in
      match type t with
      | TAG_NEW_CALL =>
          if negb success then
            metadata_array_destroy tag ;*
            free_tag tag ;*
            s_ret false
          else
            handle_new_call a tag ;*
            request_new_call (a_tag a) (a_request a) ;*
            s_ret true
      | TAG_FINISH =>
          grpc_call_unref (call t) ;*
          free_tag tag ;*
          s_ret true
      end
  end.

Definition serve (a : answers) (ev : event) : ST unit :=
  let* b := loop_body a ev in
  s_mod (fun s => if b : bool then s else set_at s Draining).

(** ** Steps *)

(** What [main] holds of the library *)
Record held : Type := MkHeld { runtime : bool; cq : bool; server : bool; server_creds : bool }.

(** The releases at its ends; the credentials are not among them. *)
Definition release_all (h : held) : held := MkHeld false false false (server_creds h).

(** [main] up to [grpc_server_start], with the answers of
    [grpc_server_add_http2_port] and [grpc_server_register_method]: whether it
    goes on, and what it holds *)
Definition set_up (port : Z) (registered : bool) : bool * held :=
  let h := MkHeld true true true true in
  if port <=? 0 then (false, release_all h)
  else if negb registered then (false, release_all h)
  else (true, h).

(** [main] up to the event loop: the first request *)
Definition start (mem ok : bool) : res St :=
  match request_new_call mem ok (MkSt ∅ 0 ∅ ∅ ∅ Serving [] [] 0) with
  | OK (_, s) => OK s
  | Er e => Er e
  end.

Definition after_step (c : ST unit) (s : St) : res St :=
  match c s with OK (_, s') => OK s' | Er e => Er e end.

(** The operation of a tag ends. *)
Definition done_ (p : nat) (s : St) : St := set_pending s (pending s ∖ {[p]}).

(** A call has arrived: the library has written it, and its message if there is
    one, to the tag. *)
Definition arrives (p : nat) (message : option (list Z)) (s : St) : St :=
  let c := next s in
  let b := S c in
  let s := set_next s (S b) in
  let s := set_calls s ({[c]} ∪ calls s) in
  match message with
  | None => set_tags s (<[p := MkTag TAG_NEW_CALL (Some c) true None]> (tags s))
  | Some bytes =>
      set_objs (set_tags s (<[p := MkTag TAG_NEW_CALL (Some c) true (Some (b, bytes))]> (tags s))) ({[b]} ∪ objs s)
  end.

Inductive step (a : answers) (s : St) : res St -> Prop :=
  | step_timeout : at_ s = Serving -> step a s (after_step (serve a QUEUE_TIMEOUT) s)
  | step_call p t message :
      at_ s = Serving -> p ∈ pending s -> tags s !! p = Some t -> type t = TAG_NEW_CALL ->
      step a s (after_step (serve a (OP_COMPLETE p true)) (arrives p message (done_ p s)))
  | step_no_call p t :
      at_ s = Serving -> p ∈ pending s -> tags s !! p = Some t -> type t = TAG_NEW_CALL ->
      step a s (after_step (serve a (OP_COMPLETE p false)) (done_ p s))
  | step_sent p t success :
      at_ s = Serving -> p ∈ pending s -> tags s !! p = Some t -> type t = TAG_FINISH ->
      step a s (after_step (serve a (OP_COMPLETE p success)) (done_ p s))
  | step_drop p : at_ s = Draining -> p ∈ pending s -> step a s (OK (done_ p s))
  | step_end : at_ s = Draining -> pending s = ∅ -> step a s (OK (set_at s Ended)).

Inductive reachable : St -> Prop :=
  | reach_start mem ok s : start mem ok = OK s -> reachable s
  | reach_step a s s' : reachable s -> step a s (OK s') -> reachable s'.

End code.
