(* ===== verification/GrpcServe.v ===== *)
(** * The gRPC server: its invariant

    While the server serves, the live tags are those of the operations under
    way, at most one waits for a call, and the calls that are held are those
    of the tags whose answer is being sent: every tag is freed and every call
    released exactly once.  What is under way when the loop ends is lost, as
    is the reader of every request. *)

From stdpp Require Import gmap.
From S2P Require Import Prelude Words Monad GrpcServer.

Local Open Scope Z_scope.
Local Open Scope st_scope.

(** ** The invariant *)

(** The calls that tags hold *)
Definition calls_of (m : gmap nat server_tag) : list nat := omap (fun x => call x.2) (map_to_list m).

Lemma calls_of_insert m p t : m !! p = None -> calls_of (<[p := t]> m) ≡ₚ option_list (call t) ++ calls_of m.
Proof. intros Hp. unfold calls_of. rewrite map_to_list_insert by done. cbn. by destruct (call t). Qed.

Lemma calls_of_delete m p t : m !! p = Some t -> calls_of m ≡ₚ option_list (call t) ++ calls_of (delete p m).
Proof. intros Hp. unfold calls_of. rewrite <- (map_to_list_delete m p t) by done. cbn. by destruct (call t). Qed.

(** A tag as the program leaves it when it waits for the next event *)
Definition tag_ok (t : server_tag) : Prop :=
  match type t with
  | TAG_NEW_CALL => t = MkTag TAG_NEW_CALL None true None
  | TAG_FINISH => exists c, t = MkTag TAG_FINISH (Some c) false None
  end.

(** The tags [m] of the operations [pend], with the calls [cs], below [nx] *)
Record core (m : gmap nat server_tag) (cs pend : gset nat) (nx : nat) : Prop := {
  co_pending : pend = dom m;
  co_tags : map_Forall (fun _ => tag_ok) m;
  co_calls : calls_of m ≡ₚ elements cs;
  co_below : forall p, is_Some (m !! p) -> (p < nx)%nat;
  co_calls_below : forall c, c ∈ cs -> (c < nx)%nat
}.

(** At most one tag, or none, waits for a call. *)
Definition one_waits (m : gmap nat server_tag) : Prop := forall p q t u, m !! p = Some t -> m !! q = Some u ->
  type t = TAG_NEW_CALL -> type u = TAG_NEW_CALL -> p = q.
Definition none_waits (m : gmap nat server_tag) : Prop := map_Forall (fun _ t => type t = TAG_FINISH) m.

(** After the loop, [lost] tags and calls stay. *)
Record inv (s : St) : Prop := {
  inv_serving : at_ s = Serving -> core (tags s) (calls s) (pending s) (next s) /\ one_waits (tags s);
  inv_over : at_ s <> Serving -> none_waits (tags s) /\ calls_of (tags s) ≡ₚ elements (calls s) /\ pending s ⊆ dom (tags s);
  inv_ended : at_ s = Ended -> pending s = ∅;
  inv_objs : objs s = ∅;
  inv_readers : (readers s <= length (received s))%nat
}.

Lemma get_tag_at s p t : tags s !! p = Some t -> get_tag p s = OK (t, s).
Proof. intros Hp. unfold get_tag, s_bind. cbn. by rewrite Hp. Qed.

Lemma free_tag_at s p t : tags s !! p = Some t -> free_tag p s = OK (tt, set_tags s (delete p (tags s))).
Proof. intros Hp. unfold free_tag. by rewrite (s_bind_OK _ _ _ _ _ (get_tag_at s p t Hp)). Qed.

Lemma destroy_at s p t : tags s !! p = Some t -> metadata t = true ->
  metadata_array_destroy p s = OK (tt, set_tags s (<[p := MkTag (type t) (call t) false (payload t)]> (tags s))).
Proof. intros Hp Hm. unfold metadata_array_destroy. rewrite (s_bind_OK _ _ _ _ _ (get_tag_at s p t Hp)). by rewrite Hm. Qed.

(** [grpc_metadata_array_destroy(&tag->metadata); free(tag)] *)
Lemma drop_tag s p t : tags s !! p = Some t -> metadata t = true ->
  (metadata_array_destroy p ;* free_tag p) s = OK (tt, set_tags s (delete p (tags s))).
Proof.
  intros Hp Hm. rewrite (s_bind_OK _ _ _ _ _ (destroy_at s p t Hp Hm)).
  erewrite free_tag_at by apply lookup_insert_eq. cbn. by rewrite delete_insert_eq.
Qed.

Lemma release_at s n : n ∈ objs s -> release_obj n s = OK (tt, set_objs s (objs s ∖ {[n]})).
Proof. intros Hn. unfold release_obj, s_bind. cbn. by rewrite decide_True. Qed.

Lemma unref_at s c : c ∈ calls s -> grpc_call_unref (Some c) s = OK (tt, set_calls s (calls s ∖ {[c]})).
Proof. intros Hc. unfold grpc_call_unref, s_bind. cbn. by rewrite decide_True. Qed.

(** ** Waiting for a call *)

Lemma request_spec s mem ok : objs s = ∅ -> (forall p, is_Some (tags s !! p) -> (p < next s)%nat) ->
  request_new_call mem ok s =
    if mem then OK (tt, if ok then MkSt (<[next s := MkTag TAG_NEW_CALL None true None]> (tags s)) (S (next s))
                                 (calls s) (objs s) ({[next s]} ∪ pending s) (at_ s) (received s) (sent s) (readers s)
                        else set_next s (S (next s)))
    else Er NullDeref.
Proof.
  intros Ho Hb. unfold request_new_call, calloc_tag. destruct mem; [|done]. unfold s_bind at 1. cbn -[metadata_array_destroy free_tag].
  rewrite insert_insert_eq. destruct ok; [done|].
  erewrite drop_tag; [|apply lookup_insert_eq|done]. cbn. rewrite delete_insert_id; [by destruct s|].
  destruct (tags s !! next s) eqn:E; [|done]. assert (next s < next s)%nat by (apply Hb; eauto). lia.
Qed.

(** ** A call *)

Section call.
Variable unpack : list Z -> option (option (list Z)).
Variable pack : list Z -> list Z.

(** The name the server takes a message to give *)
Definition name_of (a : answers) (message : option (list Z)) : list Z :=
  match message with
  | Some bytes => if a_reader a then match unpack bytes with Some (Some name) => name | _ => sUnknown end else sUnknown
  | None => sUnknown
  end.

(** The readers that a call with this message opens *)
Definition opened (a : answers) (message : option (list Z)) : nat := if message then if a_reader a then 1 else 0 else 0.

(** What the part of a state that a step leaves alone is *)
Definition frame (s s' : St) : Prop :=
  calls s' = calls s /\ pending s' = pending s /\ at_ s' = at_ s /\ received s' = received s /\ sent s' = sent s.

Lemma parse_spec a s p c pl : tags s !! p = Some (MkTag TAG_NEW_CALL (Some c) true pl) ->
  objs s = match pl with Some (b, _) => {[b]} | None => ∅ end ->
  (forall b, b ∈ objs s -> (b < next s)%nat) -> exists req s',
  parse_request unpack a p s = OK (req, s') /\ frame s s' /\ (next s <= next s')%nat /\
  tags s' = <[p := MkTag TAG_NEW_CALL (Some c) true None]> (tags s) /\
  objs s' = match req with Some (r, _) => {[r]} | None => ∅ end /\
  (forall r, r ∈ objs s' -> (r < next s')%nat) /\
  request_name req = name_of a (snd <$> pl) /\ readers s' = (readers s + opened a (snd <$> pl))%nat.
Proof.
  intros Hp Ho Hb. unfold parse_request. rewrite (s_bind_OK _ _ _ _ _ (get_tag_at s p _ Hp)). cbn [payload].
  destruct pl as [[b bytes]|].
  2:{ exists None, s. split; [done|]. split; [done|]. split; [done|]. split; [by rewrite insert_id|]. split; [done|].
      split; [done|]. split; [done|]. cbn. lia. }
  assert (b < next s)%nat as Hbn by (apply Hb; set_solver). cbn [fmap option_fmap option_map snd name_of opened].
  destruct (a_reader a).
  - destruct (unpack bytes) as [name|]; unfold s_bind; cbn -[release_obj].
    + rewrite release_at by set_solver. cbn -[release_obj]. rewrite release_at by (cbn; rewrite Ho; set_solver by lia).
      do 2 eexists. split; [reflexivity|]. split; [done|]. split; [cbn; lia|]. split; [done|]. cbn. rewrite Ho.
      assert (({[S (next s)]} ∪ ({[next s]} ∪ {[b]})) ∖ {[next s]} ∖ {[b]} =@{gset nat} {[S (next s)]}) as -> by set_solver by lia.
      split; [done|]. split; [set_solver by lia|]. split; [by destruct name|lia].
    + rewrite release_at by set_solver. cbn -[release_obj]. rewrite release_at by (cbn; rewrite Ho; set_solver by lia).
      do 2 eexists. split; [reflexivity|]. split; [done|]. split; [cbn; lia|]. split; [done|]. cbn. rewrite Ho.
      assert (({[next s]} ∪ {[b]}) ∖ {[next s]} ∖ {[b]} =@{gset nat} ∅) as -> by set_solver by lia.
      split; [done|]. split; [set_solver|]. split; [done|lia].
  - unfold s_bind; cbn -[release_obj]. rewrite release_at by (rewrite Ho; set_solver).
    do 2 eexists. split; [reflexivity|]. split; [done|]. split; [cbn; lia|]. split; [done|]. cbn. rewrite Ho.
    assert ({[b]} ∖ {[b]} =@{gset nat} ∅) as -> by set_solver. split; [done|]. split; [set_solver|]. split; [done|lia].
Qed.

(** The end of the handler: everything that was made for the answer is
    released, and the tag. *)
Lemma cleanup_spec u p t req k : tags u !! p = Some t -> metadata t = true ->
  objs u = {[S (S k)]} ∪ ({[S k]} ∪ ({[k]} ∪ match req with Some (r, _) => {[r]} | None => ∅ end)) ->
  match req with Some (r, _) => (r < k)%nat | None => True end ->
  ((match req : option (nat * option (list Z)) with Some (r, _) => release_obj r | None => s_ret tt end) ;*
   release_obj (S k) ;* release_obj (S (S k)) ;* release_obj k ;* metadata_array_destroy p ;* free_tag p) u =
  OK (tt, set_tags (set_objs u ∅) (delete p (tags u))).
Proof.
  intros Hp Hm Ho Hr.
  assert ((match req : option (nat * option (list Z)) with Some (r, _) => release_obj r | None => s_ret tt end) u =
    OK (tt, set_objs u ({[S (S k)]} ∪ ({[S k]} ∪ {[k]})))) as Hreq.
  { destruct req as [[r name]|].
    - rewrite release_at by (rewrite Ho; set_solver). do 2 f_equal. rewrite Ho. f_equal. set_solver by lia.
    - unfold s_ret. do 2 f_equal. rewrite union_empty_r_L in Ho. rewrite <- Ho. by destruct u. }
  rewrite (s_bind_OK _ _ _ _ _ Hreq).
  erewrite s_bind_OK by (apply release_at; cbn; set_solver). erewrite s_bind_OK by (apply release_at; cbn; set_solver by lia).
  erewrite s_bind_OK by (apply release_at; cbn; set_solver by lia). erewrite drop_tag by done. cbn. do 2 f_equal.
  unfold set_tags, set_objs. cbn. f_equal. set_solver by lia.
Qed.

(** The whole handler: the tag of the call is gone, and there is a tag for its
    answer unless the library refused the answer. *)
Lemma handle_spec a s p c pl : tags s !! p = Some (MkTag TAG_NEW_CALL (Some c) true pl) ->
  objs s = match pl with Some (b, _) => {[b]} | None => ∅ end ->
  (forall b, b ∈ objs s -> (b < next s)%nat) -> (forall q, is_Some (tags s !! q) -> (q < next s)%nat) -> c ∈ calls s ->
  (a_reply a && a_finish a = false /\ handle_new_call unpack pack a p s = Er NullDeref) \/
  exists n s', a_reply a && a_finish a = true /\ (next s <= n < next s')%nat /\
  handle_new_call unpack pack a p s = OK (tt, s') /\ objs s' = ∅ /\ at_ s' = at_ s /\
  received s' = received s ++ [name_of a (snd <$> pl)] /\ readers s' = (readers s + opened a (snd <$> pl))%nat /\
  if a_batch a then
    tags s' = <[n := MkTag TAG_FINISH (Some c) false None]> (delete p (tags s)) /\ calls s' = calls s /\
    pending s' = {[n]} ∪ pending s /\ sent s' = sent s ++ [(c, pack (response_msg (name_of a (snd <$> pl))))]
  else
    tags s' = delete p (tags s) /\ calls s' = calls s ∖ {[c]} /\ pending s' = pending s /\ sent s' = sent s.
Proof.
  intros Hp Ho Hbo Hbt Hc. unfold handle_new_call.
  destruct (parse_spec a s p c pl Hp Ho Hbo) as (req & s1 & Hrun & (Hca & Hpe & Hat & Hre & Hse) & Hn & Hta & Hob & Hbo1 & Hname & Hrd).
  rewrite (s_bind_OK _ _ _ _ _ Hrun), Hname. erewrite s_bind_OK by reflexivity.
  destruct (a_reply a); [|by left]. erewrite s_bind_OK by reflexivity.
  do 3 (erewrite s_bind_OK by reflexivity). destruct (a_finish a); [right|by left].
  erewrite s_bind_OK by reflexivity. erewrite s_bind_OK by reflexivity. cbn [next set_next set_objs objs set_received tags].
  set (n := S (S (S (next s1)))).
  assert (p < n)%nat as Hpn by (assert (p < next s)%nat by (apply Hbt; eauto); lia).
  assert (tags s1 !! n = None) as Hfresh.
  { rewrite Hta. rewrite lookup_insert_ne by lia. destruct (tags s !! n) eqn:E; [|done]. assert (n < next s)%nat by (apply Hbt; eauto). lia. }
  erewrite s_bind_OK by (apply get_tag_at; cbn; rewrite lookup_insert_ne, Hta by lia; apply lookup_insert_eq).
  erewrite s_bind_OK by reflexivity. cbn [call]. erewrite s_bind_OK by reflexivity.
  assert (match req with Some (r, _) => (r < next s1)%nat | None => True end) as Hrr.
  { destruct req as [[r nm]|]; [|done]. apply Hbo1. rewrite Hob. set_solver. }
  cbn [tags set_tags]. rewrite insert_insert_eq, Hta.
  set (f := MkTag TAG_FINISH (Some c) false None). set (w := MkTag TAG_NEW_CALL (Some c) true None).
  assert (delete p (<[n := f]> (<[p := w]> (tags s))) = <[n := f]> (delete p (tags s))) as Hdel.
  { rewrite delete_insert_ne, delete_insert_eq by lia. done. }
  exists n. destruct (a_batch a).
  - erewrite s_bind_OK by reflexivity. cbn [set_sent set_pending set_tags pending sent].
    rewrite (cleanup_spec _ p w req (next s1)); [|cbn; rewrite lookup_insert_ne by lia; apply lookup_insert_eq|done|cbn; by rewrite Hob|done].
    eexists. split; [done|]. split; [|split; [reflexivity|]]; [cbn; lia|].
    cbn -[response_msg]. split; [done|]. split; [done|]. split; [by rewrite Hre|]. split; [exact Hrd|]. by rewrite Hdel, Hca, Hpe, Hse.
  - erewrite s_bind_OK.
    2:{ erewrite s_bind_OK by (apply get_tag_at; cbn; apply lookup_insert_eq).
        erewrite s_bind_OK by (apply unref_at; cbn; by rewrite Hca). by eapply free_tag_at; cbn; apply lookup_insert_eq. }
    cbn [set_calls set_tags tags calls]. rewrite delete_insert_id by (rewrite Hta in Hfresh; exact Hfresh).
    rewrite (cleanup_spec _ p w req (next s1)); [|cbn; apply lookup_insert_eq|done|cbn; by rewrite Hob|done].
    eexists. split; [done|]. split; [|split; [reflexivity|]]; [cbn; lia|].
    cbn -[response_msg]. split; [done|]. split; [done|]. split; [by rewrite Hre|]. split; [exact Hrd|]. by rewrite delete_insert_eq, Hca, Hpe, Hse.
Qed.
End call.

(** ** What steps do to the tags *)

Lemma core_mono m cs pend nx nx' : core m cs pend nx -> (nx <= nx')%nat -> core m cs pend nx'.
Proof.
  intros [H1 H2 H3 H4 H5] Hle. split; try done; [intros p Hp; apply H4 in Hp; lia|intros c Hc; apply H5 in Hc; lia].
Qed.

Lemma core_drop m cs pend nx p t : core m cs pend nx -> m !! p = Some t -> type t = TAG_NEW_CALL ->
  core (delete p m) cs (pend ∖ {[p]}) nx.
Proof.
  intros [H1 H2 H3 H4 H5] Hp Ht. pose proof (H2 p t Hp) as Hok. unfold tag_ok in Hok. rewrite Ht in Hok. subst t.
  split; [by rewrite dom_delete_L, H1|by apply map_Forall_delete| | |done].
  - rewrite <- H3, (calls_of_delete m p _ Hp). done.
  - intros q [u Hq]. apply lookup_delete_Some in Hq as [_ Hq]. eauto.
Qed.

Lemma core_answer m cs pend nx n c nx' : core m cs pend nx -> (nx <= n < nx')%nat -> (c < nx')%nat -> c ∉ cs ->
  core (<[n := MkTag TAG_FINISH (Some c) false None]> m) ({[c]} ∪ cs) ({[n]} ∪ pend) nx'.
Proof.
  intros [H1 H2 H3 H4 H5] Hn Hc Hcs.
  assert (m !! n = None) as Hfresh by (destruct (m !! n) eqn:E; [assert (n < nx)%nat by (apply H4; eauto); lia|done]).
  split; [by rewrite dom_insert_L, H1|apply map_Forall_insert_2; [by exists c|done]| | |].
  - rewrite calls_of_insert by done. cbn. by rewrite elements_union_singleton, H3.
  - intros q [u Hq]. apply lookup_insert_Some in Hq as [[<- _]|[_ Hq]]; [lia|]. assert (q < nx)%nat by (apply H4; eauto). lia.
  - intros d [->%elem_of_singleton|Hd]%elem_of_union; [done|]. apply H5 in Hd. lia.
Qed.

Lemma core_wait m cs pend nx : core m cs pend nx -> none_waits m ->
  core (<[nx := MkTag TAG_NEW_CALL None true None]> m) cs ({[nx]} ∪ pend) (S nx) /\
  one_waits (<[nx := MkTag TAG_NEW_CALL None true None]> m).
Proof.
  intros [H1 H2 H3 H4 H5] Hw.
  assert (m !! nx = None) as Hfresh by (destruct (m !! nx) eqn:E; [assert (nx < nx)%nat by (apply H4; eauto); lia|done]).
  split; [split; [by rewrite dom_insert_L, H1|by apply map_Forall_insert_2| | |]|].
  - by rewrite calls_of_insert.
  - intros q [u Hq]. apply lookup_insert_Some in Hq as [[<- _]|[_ Hq]]; [lia|]. assert (q < nx)%nat by (apply H4; eauto). lia.
  - intros d Hd. apply H5 in Hd. lia.
  - assert (forall q u, <[nx := MkTag TAG_NEW_CALL None true None]> m !! q = Some u -> type u = TAG_NEW_CALL -> q = nx) as Honly.
    { intros q u Hq Hu. apply lookup_insert_Some in Hq as [[<- _]|[_ Hq]]; [done|]. apply Hw in Hq. congruence. }
    intros p q t u Hp Hq Ht Hu. by rewrite (Honly p t), (Honly q u).
Qed.

Lemma core_sent m cs pend nx p c : core m cs pend nx -> m !! p = Some (MkTag TAG_FINISH (Some c) false None) ->
  c ∈ cs /\ core (delete p m) (cs ∖ {[c]}) (pend ∖ {[p]}) nx.
Proof.
  intros [H1 H2 H3 H4 H5] Hp. pose proof (calls_of_delete m p _ Hp) as Hd. cbn in Hd.
  assert (c ∈ cs) as Hc by (apply elem_of_elements; rewrite <- H3, Hd; left).
  split; [done|]. split; [by rewrite dom_delete_L, H1|by apply map_Forall_delete| | |].
  - rewrite (union_difference_singleton_L c cs) in H3 by done. rewrite elements_union_singleton in H3 by set_solver.
    rewrite Hd in H3. by apply Permutation_cons_inv in H3.
  - intros q [u Hq]. apply lookup_delete_Some in Hq as [_ Hq]. eauto.
  - intros d Hdc. apply H5. set_solver.
Qed.

(** Without the tag that waited, none waits. *)
Lemma none_left m p t : one_waits m -> m !! p = Some t -> type t = TAG_NEW_CALL -> none_waits (delete p m).
Proof.
  intros Hone Hp Ht q u Hq. apply lookup_delete_Some in Hq as [Hne Hq]. destruct (type u) eqn:Hu; [|done].
  by destruct Hne; apply (Hone p q t u).
Qed.

Lemma one_fewer m p : one_waits m -> one_waits (delete p m).
Proof. intros Hone q r t u Hq Hr. apply lookup_delete_Some in Hq as [_ Hq], Hr as [_ Hr]. by eapply Hone. Qed.

(** ** Every step *)

Section steps.
Variable unpack : list Z -> option (option (list Z)).
Variable pack : list Z -> list Z.

Definition mem_ok (a : answers) : bool := a_reply a && a_finish a && a_tag a.

Lemma start_inv mem ok s : start mem ok = OK s -> inv s /\ at_ s = Serving.
Proof.
  unfold start. set (s0 := MkSt ∅ 0 ∅ ∅ ∅ Serving [] [] 0).
  assert (core ∅ ∅ ∅ 0) as Hc.
  { split; [by rewrite dom_empty_L|apply map_Forall_empty| | |]; [|by intros p [? Hp]|set_solver].
    unfold calls_of. by rewrite map_to_list_empty. }
  rewrite request_spec by (try done; by intros p [? Hp]). destruct mem; [|done]. intros [= <-].
  destruct ok; (split; [|done]); split; cbn; try done; intros _.
  - apply core_wait; [exact Hc|apply map_Forall_empty].
  - split; [eapply core_mono; [exact Hc|lia]|]. by intros p q t u Hp.
Qed.

Lemma serve_break a ev s s' : loop_body unpack pack a ev s = OK (false, s') -> serve unpack pack a ev s = OK (tt, set_at s' Draining).
Proof. intros Hrun. unfold serve. by rewrite (s_bind_OK _ _ _ _ _ Hrun). Qed.

Lemma serve_on a ev s s' : loop_body unpack pack a ev s = OK (true, s') -> serve unpack pack a ev s = OK (tt, s').
Proof. intros Hrun. unfold serve. by rewrite (s_bind_OK _ _ _ _ _ Hrun). Qed.

(** A call arrives. *)
Lemma call_spec a s p t message : inv s -> at_ s = Serving -> tags s !! p = Some t -> type t = TAG_NEW_CALL ->
  (mem_ok a = false /\ serve unpack pack a (OP_COMPLETE p true) (arrives p message (done_ p s)) = Er NullDeref) \/
  exists s', serve unpack pack a (OP_COMPLETE p true) (arrives p message (done_ p s)) = OK (tt, s') /\ inv s' /\ at_ s' = Serving /\
    received s' = received s ++ [name_of unpack a message] /\
    sent s' = sent s ++ (if a_batch a then [(next s, pack (response_msg (name_of unpack a message)))] else []) /\
    readers s' = (readers s + opened a message)%nat /\
    if a_request a then exists q, tags s' !! q = Some (MkTag TAG_NEW_CALL None true None) /\ q ∈ pending s' else none_waits (tags s').
Proof.
  intros Hinv Hat Hp Ht. destruct (inv_serving s Hinv Hat) as [Hco Hone]. pose proof Hco as [_ Hok _ Hb Hcb].
  pose proof (none_left _ _ _ Hone Hp Ht) as Hnone.
  set (c := next s). set (s0 := arrives p message (done_ p s)).
  set (pl := (fun bytes : list Z => (S c, bytes)) <$> message).
  assert (tags s0 = <[p := MkTag TAG_NEW_CALL (Some c) true pl]> (tags s)) as Htags by (by destruct message).
  assert (objs s0 = match pl with Some (b, _) => {[b]} | None => ∅ end) as Hobjs.
  { pose proof (inv_objs s Hinv) as Ho. destruct message; cbn; rewrite Ho; [set_solver|done]. }
  assert (next s0 = S (S c) /\ calls s0 = {[c]} ∪ calls s /\ pending s0 = pending s ∖ {[p]} /\ at_ s0 = Serving /\
    received s0 = received s /\ sent s0 = sent s /\ readers s0 = readers s) as (Hnext & Hcalls & Hpend & Hat0 & Hrec & Hsent & Hrd0) by (by destruct message).
  assert (p < c)%nat as Hpc by (apply Hb; eauto).
  assert (c ∉ calls s) as Hcs by (intros Hc%Hcb; unfold c in Hc; lia).
  assert (snd <$> pl = message) as Hsnd by (by destruct message).
  assert (tags s0 !! p = Some (MkTag TAG_NEW_CALL (Some c) true pl)) as Hp0 by (rewrite Htags; apply lookup_insert_eq).
  destruct (handle_spec unpack pack a s0 p c pl Hp0 Hobjs) as [[Hmem Hrun]|(n & s1 & Hmem & Hn & Hrun & Hob1 & Hat1 & Hrec1 & Hrd1 & Hrest)].
  { rewrite Hobjs, Hnext. destruct message; set_solver by lia. }
  { intros q Hq. rewrite Hnext. rewrite Htags in Hq. destruct (decide (p = q)) as [<-|]; [lia|].
    rewrite lookup_insert_ne in Hq by done. apply Hb in Hq. unfold c. lia. }
  { rewrite Hcalls. set_solver. }
  { left. split; [unfold mem_ok; by rewrite Hmem|]. unfold serve, loop_body, s_bind at 1 2.
    rewrite (get_tag_at s0 p _ Hp0). cbn [type negb]. by rewrite (s_bind_Er _ _ _ _ Hrun). }
  rewrite Htags, delete_insert_eq, Hcalls, Hpend, Hsent, Hsnd in Hrest. rewrite Hrec, Hsnd in Hrec1. rewrite Hrd0, Hsnd in Hrd1. rewrite Hat0 in Hat1.
  assert (core (tags s1) (calls s1) (pending s1) (next s1) /\ none_waits (tags s1)) as [Hco1 Hn1].
  { pose proof (core_drop _ _ _ _ p t Hco Hp Ht) as Hdrop. destruct (a_batch a); destruct Hrest as (-> & -> & -> & _).
    - split; [apply (core_answer _ _ _ (next s)); [done|lia|lia|done]|]. by apply map_Forall_insert_2.
    - split; [|done]. assert (({[c]} ∪ calls s) ∖ {[c]} = calls s) as -> by set_solver. eapply core_mono; [done|lia]. }
  assert (forall q, is_Some (tags s1 !! q) -> (q < next s1)%nat) as Hb1 by apply Hco1.
  pose proof (request_spec s1 (a_tag a) (a_request a) Hob1 Hb1) as Hreq.
  assert (loop_body unpack pack a (OP_COMPLETE p true) s0 =
    match request_new_call (a_tag a) (a_request a) s1 with OK (_, s2) => OK (true, s2) | Er e => Er e end) as Hbody.
  { unfold loop_body, s_bind at 1. rewrite (get_tag_at s0 p _ Hp0). cbn [type negb]. rewrite (s_bind_OK _ _ _ _ _ Hrun).
    unfold s_bind. by destruct (request_new_call _ _ _) as [[[] ?]|]. }
  rewrite Hreq in Hbody. destruct (a_tag a) eqn:Htag; [right|left].
  2:{ unfold mem_ok. rewrite Htag, andb_false_r. split; [done|]. unfold serve. by rewrite (s_bind_Er _ _ _ _ Hbody). }
  eexists. split; [by apply serve_on|]. assert (sent s1 = sent s ++ (if a_batch a then [(next s, pack (response_msg (name_of unpack a message)))] else [])) as Hsent1.
  { destruct (a_batch a); destruct Hrest as (_ & _ & _ & ->); [done|by rewrite app_nil_r]. }
  assert (readers s1 <= length (received s1))%nat as Hrd2.
  { rewrite Hrd1, Hrec1, length_app. cbn. pose proof (inv_readers s Hinv). unfold opened. destruct message, (a_reader a); lia. }
  destruct (a_request a); cbn -[response_msg]; (split; [split; cbn|split; [done|split; [done|split; [done|split; [done|]]]]]).
  - intros _. by apply core_wait.
  - by rewrite Hat1.
  - by rewrite Hat1.
  - done.
  - exact Hrd2.
  - exists (next s1). split; [apply lookup_insert_eq|set_solver].
  - intros _. split; [eapply core_mono; [done|lia]|]. intros q r u v Hq Hr Hu. apply Hn1 in Hq. congruence.
  - by rewrite Hat1.
  - by rewrite Hat1.
  - done.
  - exact Hrd2.
  - exact Hn1.
Qed.

(** The other events *)
Lemma no_call_spec a s p t : inv s -> at_ s = Serving -> tags s !! p = Some t -> type t = TAG_NEW_CALL ->
  exists s', serve unpack pack a (OP_COMPLETE p false) (done_ p s) = OK (tt, s') /\ inv s' /\ received s' = received s /\
    readers s' = readers s.
Proof.
  intros Hinv Hat Hp Ht. destruct (inv_serving s Hinv Hat) as [Hco Hone].
  pose proof (core_drop _ _ _ _ p t Hco Hp Ht) as [H1 H2 H3 H4 H5]. pose proof (none_left _ _ _ Hone Hp Ht) as Hnone.
  pose proof (co_tags _ _ _ _ Hco p t Hp) as Hok. unfold tag_ok in Hok. rewrite Ht in Hok.
  eexists. split; [apply serve_break|].
  - unfold loop_body, s_bind at 1. rewrite (get_tag_at (done_ p s) p t Hp), Ht. cbn [negb].
    assert ((metadata_array_destroy p ;* free_tag p) (done_ p s) = OK (tt, set_tags (done_ p s) (delete p (tags s)))) as Hdrop
      by (rewrite (drop_tag _ p t); [done|done|by rewrite Hok]).
    unfold s_bind in Hdrop |- *. destruct (metadata_array_destroy p (done_ p s)) as [[[] s1]|]; [|done]. by rewrite Hdrop.
  - split; [|done]. split; cbn; [done| |done|by apply Hinv|by apply Hinv]. intros _. split; [done|]. split; [done|]. by rewrite H1.
Qed.

Lemma sent_spec a s p t success : inv s -> at_ s = Serving -> tags s !! p = Some t -> type t = TAG_FINISH ->
  exists s', serve unpack pack a (OP_COMPLETE p success) (done_ p s) = OK (tt, s') /\ inv s' /\ received s' = received s /\
    readers s' = readers s /\ tags s' = delete p (tags s) /\ at_ s' = Serving.
Proof.
  intros Hinv Hat Hp Ht. destruct (inv_serving s Hinv Hat) as [Hco Hone].
  pose proof (co_tags _ _ _ _ Hco p t Hp) as Hok. unfold tag_ok in Hok. rewrite Ht in Hok. destruct Hok as [c ->].
  destruct (core_sent _ _ _ _ p c Hco Hp) as [Hc Hco'].
  eexists. split; [apply serve_on|].
  - unfold loop_body, s_bind at 1. rewrite (get_tag_at (done_ p s) p _ Hp). cbn [type call].
    erewrite s_bind_OK by (by apply unref_at). erewrite s_bind_OK by (by eapply free_tag_at). reflexivity.
  - split; [|done]. split; cbn; [|by rewrite Hat|by rewrite Hat|by apply Hinv|by apply Hinv]. intros _. split; [done|]. by apply one_fewer.
Qed.

Lemma srv_inv_step a s r : inv s -> step unpack pack a s r ->
  (exists s', r = OK s' /\ inv s') \/ (r = Er NullDeref /\ mem_ok a = false).
Proof.
  intros Hinv Hstep. destruct Hstep as [Hat|p t message Hat Hpp Hp Ht|p t Hat Hpp Hp Ht|p t success Hat Hpp Hp Ht|p Hat Hpp|Hat Hpp];
    unfold after_step.
  - left. exists s. done.
  - destruct (call_spec a s p t message Hinv Hat Hp Ht) as [[Hmem ->]|(s' & -> & Hinv' & _)]; [by right|left; eauto].
  - destruct (no_call_spec a s p t Hinv Hat Hp Ht) as (s' & -> & Hinv' & _). left. eauto.
  - destruct (sent_spec a s p t success Hinv Hat Hp Ht) as (s' & -> & Hinv' & _). left. eauto.
  - left. eexists. split; [reflexivity|]. destruct Hinv as [H1 H2 H3 H4 H5].
    split; cbn; try (by rewrite Hat); [|done..]. intros Hne. destruct (H2 Hne) as (H6 & H7 & H8). split; [done|]. split; [done|]. set_solver.
  - left. eexists. split; [reflexivity|]. destruct Hinv as [H1 H2 H3 H4 H5].
    split; cbn; [done| |done..]. intros _. apply H2. by rewrite Hat.
Qed.

Lemma srv_inv_reachable s : reachable unpack pack s -> inv s.
Proof.
  induction 1 as [mem ok s Hs|a s s' _ IH Hstep]; [by apply (start_inv mem ok)|].
  destruct (srv_inv_step a s _ IH Hstep) as [(s2 & [= ->] & ?)|[? _]]; done.
Qed.

(** The readers: a call opens that of its message, and nothing closes one. *)
Lemma call_readers a s p t message s' : reachable unpack pack s -> at_ s = Serving -> tags s !! p = Some t -> type t = TAG_NEW_CALL ->
  after_step (serve unpack pack a (OP_COMPLETE p true)) (arrives p message (done_ p s)) = OK s' ->
  readers s' = (readers s + opened a message)%nat.
Proof.
  intros Hr Hat Hp Ht. destruct (call_spec a s p t message (srv_inv_reachable _ Hr) Hat Hp Ht)
    as [[_ Hrun]|(s2 & Hrun & _ & _ & _ & _ & Hrd & _)]; unfold after_step; rewrite Hrun; [done|]. by intros [= <-].
Qed.

Lemma step_readers a s s' : reachable unpack pack s -> step unpack pack a s (OK s') -> (readers s <= readers s')%nat.
Proof.
  intros Hr Hstep. pose proof (srv_inv_reachable _ Hr) as Hinv. remember (OK s') as r eqn:Heq.
  destruct Hstep as [Hat|p t message Hat Hpp Hp Ht|p t Hat Hpp Hp Ht|p t success Hat Hpp Hp Ht|p Hat Hpp|Hat Hpp].
  - by injection Heq as <-.
  - rewrite (call_readers a s p t message s') by done. lia.
  - destruct (no_call_spec a s p t Hinv Hat Hp Ht) as (s2 & Hrun & _ & _ & Hrd). unfold after_step in Heq. rewrite Hrun in Heq.
    injection Heq as <-. lia.
  - destruct (sent_spec a s p t success Hinv Hat Hp Ht) as (s2 & Hrun & _ & _ & Hrd & _). unfold after_step in Heq.
    rewrite Hrun in Heq. injection Heq as <-. lia.
  - by injection Heq as <-.
  - by injection Heq as <-.
Qed.

End steps.

(** The greeting, cut off *)
Lemma response_msg_eq name :
  response_msg name = if (length name <=? 247)%nat then sHello ++ name ++ [33] else sHello ++ take 248 name.
Proof.
  unfold response_msg. destruct (Nat.leb_spec (length name) 247) as [Hle|Hgt].
  - rewrite take_ge; [done|]. rewrite !length_app. cbn. lia.
  - rewrite take_app_ge by (cbn; lia). f_equal. cbn [length sHello]. by rewrite take_app_le by lia.
Qed.

(** ** Theorems *)

(** C21: whatever calls arrive with whatever messages, in whatever order
    operations end, and whatever the library answers, no step uses a freed tag,
    frees one twice or releases a call or a buffer twice; only an allocation
    that fails makes the server dereference null. *)
Theorem server_never_fails unpack pack a s r : reachable unpack pack s -> step unpack pack a s r ->
  (exists s', r = OK s') \/ (r = Er NullDeref /\ mem_ok a = false).
Proof.
  intros Hr Hstep. destruct (srv_inv_step unpack pack a s r (srv_inv_reachable _ _ _ Hr) Hstep) as [(s' & -> & _)|?]; [left|by right].
  by exists s'.
Qed.

(** C22: while it serves, the live tags are those of the operations under way,
    at most one waits for a call, the calls that are held are, each once, those
    of the answers being sent, and no buffer, slice or other block is left:
    what is lost are the readers of the requests, one for each message that
    could be opened, and nothing ever closes one. *)
Theorem only_readers_are_lost unpack pack s : reachable unpack pack s -> at_ s = Serving ->
  dom (tags s) = pending s /\ one_waits (tags s) /\ calls_of (tags s) ≡ₚ elements (calls s) /\
  (forall p t, tags s !! p = Some t -> tag_ok t) /\ objs s = ∅ /\ (readers s <= length (received s))%nat /\
  (forall a s', step unpack pack a s (OK s') -> (readers s <= readers s')%nat) /\
  (forall a p t message s', tags s !! p = Some t -> type t = TAG_NEW_CALL ->
     after_step (serve unpack pack a (OP_COMPLETE p true)) (arrives p message (done_ p s)) = OK s' ->
     readers s' = if message then if a_reader a then S (readers s) else readers s else readers s).
Proof.
  intros Hr Hat. pose proof (srv_inv_reachable _ _ _ Hr) as Hinv. destruct (inv_serving s Hinv Hat) as [[H1 H2 H3 _ _] Hone].
  split; [done|]. split; [done|]. split; [done|]. split; [exact H2|]. split; [by apply Hinv|]. split; [by apply Hinv|].
  split; [intros a s'; by apply step_readers|].
  intros a p t message s' Hp Ht Hrun. rewrite (call_readers unpack pack a s p t message s') by done.
  unfold opened. destruct message, (a_reader a); lia.
Qed.

(** C23: a call is answered, unless the library refuses to send, by the greeting
    of the name in its message, or of "unknown" when there is none or it cannot
    be read, cut off after 255 bytes; and the server stays in its loop, where a
    new tag waits for the next call if the library has taken the request for
    it, and none waits, for ever, if it has not. *)
Theorem call_is_greeted unpack pack a s p t message : reachable unpack pack s -> at_ s = Serving ->
  tags s !! p = Some t -> type t = TAG_NEW_CALL -> mem_ok a = true ->
  exists s' name, after_step (serve unpack pack a (OP_COMPLETE p true)) (arrives p message (done_ p s)) = OK s' /\
    name = match message with
           | Some bytes => if a_reader a then match unpack bytes with Some (Some name) => name | _ => sUnknown end else sUnknown
           | None => sUnknown
           end /\
    received s' = received s ++ [name] /\
    (let bytes := pack (if (length name <=? 247)%nat then sHello ++ name ++ [33] else sHello ++ take 248 name) in
     sent s' = if a_batch a then sent s ++ [(next s, bytes)] else sent s) /\
    at_ s' = Serving /\
    if a_request a then exists q, q ∈ pending s' /\ tags s' !! q = Some (MkTag TAG_NEW_CALL None true None)
    else map_Forall (fun _ u => type u = TAG_FINISH) (tags s').
Proof.
  intros Hr Hat Hp Ht Hmem. pose proof (srv_inv_reachable _ _ _ Hr) as Hinv.
  destruct (call_spec unpack pack a s p t message Hinv Hat Hp Ht)
    as [[? _]|(s' & Hrun & _ & Hat' & Hrec & Hsent & _ & Hnext)]; [congruence|].
  exists s', (name_of unpack a message). unfold after_step. rewrite Hrun. split; [done|]. split; [done|]. split; [done|].
  split; [|split; [done|]].
  - rewrite <- response_msg_eq, Hsent. destruct (a_batch a); [done|apply app_nil_r].
  - destruct (a_request a); [|done]. destruct Hnext as (q & ? & ?). by exists q.
Qed.

(** Once the library has refused to take the request for the next call (or
    whenever no tag waits for one), no call is ever answered again, though the
    server stays in its loop. *)
Theorem refused_request_is_final unpack pack a s s' : reachable unpack pack s -> at_ s = Serving -> none_waits (tags s) ->
  step unpack pack a s (OK s') -> at_ s' = Serving /\ none_waits (tags s') /\ received s' = received s.
Proof.
  intros Hr Hat Hnone Hstep. pose proof (srv_inv_reachable _ _ _ Hr) as Hinv.
  remember (OK s') as r eqn:Heq.
  destruct Hstep as [_|p t message _ Hpp Hp Ht|p t _ Hpp Hp Ht|p t success _ Hpp Hp Ht|p Hat'|Hat']; try congruence.
  - injection Heq as <-. done.
  - apply Hnone in Hp. congruence.
  - apply Hnone in Hp. congruence.
  - destruct (sent_spec unpack pack a s p t success Hinv Hat Hp Ht) as (s2 & Hrun & _ & Hrec & _ & Htags & Hat2).
    unfold after_step in Heq. rewrite Hrun in Heq. injection Heq as <-. split; [done|]. split; [|done].
    rewrite Htags. by apply map_Forall_delete.
Qed.

(** *** One call *)

(** A message that is the name itself *)
Definition whole (bytes : list Z) : option (option (list Z)) := Some (Some bytes).
Definition all_well : answers := MkAns true true true true true true.
Definition sWorld : list Z := [87; 111; 114; 108; 100].

(** The server waits for its first call, or could not ask for one. *)
Definition listening : St := MkSt {[0%nat := MkTag TAG_NEW_CALL None true None]} 1 ∅ ∅ {[0%nat]} Serving [] [] 0.
Definition deaf : St := MkSt ∅ 1 ∅ ∅ ∅ Serving [] [] 0.

Lemma listening_reachable : reachable whole id listening.
Proof. by apply (reach_start _ _ true true). Qed.

Lemma deaf_reachable : reachable whole id deaf.
Proof. by apply (reach_start _ _ true false). Qed.

Lemma server_never_fails_witness : reachable whole id listening /\
  let r := after_step (serve whole id all_well (OP_COMPLETE 0 true)) (arrives 0 (Some sWorld) (done_ 0 listening)) in
  step whole id all_well listening r /\ ((exists s', r = OK s') \/ (r = Er NullDeref /\ mem_ok all_well = false)).
Proof.
  split; [exact listening_reachable|]. intros r. assert (step whole id all_well listening r) as Hs.
  { by apply (step_call _ _ _ listening 0 (MkTag TAG_NEW_CALL None true None) (Some sWorld)). }
  split; [exact Hs|]. exact (server_never_fails whole id all_well listening r listening_reachable Hs).
Defined.

Lemma only_readers_are_lost_witness : reachable whole id listening /\
  dom (tags listening) = pending listening /\ one_waits (tags listening) /\ objs listening = ∅ /\
  exists s', after_step (serve whole id all_well (OP_COMPLETE 0 true)) (arrives 0 (Some sWorld) (done_ 0 listening)) = OK s' /\
    readers s' = 1%nat.
Proof.
  destruct (only_readers_are_lost whole id listening listening_reachable eq_refl) as (H1 & H2 & _ & _ & H5 & _ & _ & H7).
  split; [exact listening_reachable|]. split; [exact H1|]. split; [exact H2|]. split; [exact H5|].
  eexists. split; [vm_compute; reflexivity|].
  by apply (H7 all_well 0%nat (MkTag TAG_NEW_CALL None true None) (Some sWorld)).
Defined.

Lemma call_is_greeted_witness : exists s',
  after_step (serve whole id all_well (OP_COMPLETE 0 true)) (arrives 0 (Some sWorld) (done_ 0 listening)) = OK s' /\
  received s' = [sWorld] /\ sent s' = [(1%nat, sHello ++ sWorld ++ [33])] /\ at_ s' = Serving /\
  exists q, q ∈ pending s' /\ tags s' !! q = Some (MkTag TAG_NEW_CALL None true None).
Proof.
  destruct (call_is_greeted whole id all_well listening 0 (MkTag TAG_NEW_CALL None true None) (Some sWorld) listening_reachable)
    as (s' & name & Hrun & Hname & Hrec & Hsent & Hat & Hnext); [done..|].
  exists s'. subst name. split; [exact Hrun|]. split; [exact Hrec|]. split; [exact Hsent|]. split; [exact Hat|exact Hnext].
Defined.

Lemma refused_request_is_final_witness : step whole id all_well deaf (OK deaf) /\ none_waits (tags deaf) /\
  at_ deaf = Serving /\ received deaf = [].
Proof.
  assert (step whole id all_well deaf (OK deaf)) as Hs by (by apply (step_timeout _ _ _ deaf)).
  destruct (refused_request_is_final whole id all_well deaf deaf deaf_reachable eq_refl) as (H1 & H2 & H3);
    [by intros p t Hp|exact Hs|done].
Defined.

(** ** The start and the end *)

(** The server starts when the port is bound and the method registered; at each
    of its ends all is released but the credentials. *)
Lemma set_up_releases port registered :
  let '(ok, h) := set_up port registered in
  ok = (0 <? port) && registered /\
  (if ok then h else release_all h) = h /\ (ok = false -> h = MkHeld false false false true) /\
  release_all h = MkHeld false false false true.
Proof. unfold set_up. destruct (Z.leb_spec port 0), (Z.ltb_spec 0 port); try lia; by destruct registered. Qed.
