(* ===== verification/Sexagenary.v ===== *)
(** * Two small programs

    The names of years in the cycle of sixty: main.c of the directory called
    after the ten stems and twelve branches (under src/).  And [sum_positive]
    of go/cgo/sum.c, which Go calls.  Texts are lists of UTF-8 bytes. *)

From S2P Require Import Prelude Words.

Local Open Scope Z_scope.

(** ** The names of years *)

Definition stems : list (list Z) :=
  [[231; 148; 178]; [228; 185; 153]; [228; 184; 153]; [228; 184; 129]; [230; 136; 138]; [229; 183;
  177]; [229; 186; 154]; [232; 190; 155]; [229; 163; 172]; [231; 153; 184]].
Definition branches : list (list Z) :=
  [[229; 173; 144]; [228; 184; 145]; [229; 175; 133]; [229; 141; 175]; [232; 190; 176]; [229; 183;
  179]; [229; 141; 136]; [230; 156; 170]; [231; 148; 179]; [233; 133; 137]; [230; 136; 140]; [228;
  186; 165]].
Definition animals : list (list Z) :=
  [[233; 188; 160]; [231; 137; 155]; [232; 153; 142]; [229; 133; 148]; [233; 190; 153]; [232; 155;
  135]; [233; 169; 172]; [231; 190; 138]; [231; 140; 180]; [233; 184; 161]; [231; 139; 151]; [231;
  140; 170]].

(** What [main] prints: the number of the year and three names.  [input]: what
    [scanf] has stored, if it has stored anything. *)
Definition main (input : option Z) : res (Z * list Z * list Z * list Z) :=
  let year := default 0 input in
  let year := u32 (year - 4) in
  match stems !! Z.to_nat (year mod 10), branches !! Z.to_nat (year mod 12), animals !! Z.to_nat (year mod 12) with
  | Some a, Some b, Some c => OK (u32 (year + 4), a, b, c)
  | _, _, _ => Er OutOfBounds
  end.

(** The names of the year [y]: year 4 is the first of a cycle. *)
Definition names (y : Z) : list Z * list Z * list Z :=
  (stems !!! Z.to_nat ((y - 4) mod 10), branches !!! Z.to_nat ((y - 4) mod 12), animals !!! Z.to_nat ((y - 4) mod 12)).

Lemma nth_mod (l : list (list Z)) (n : Z) : 0 < Z.of_nat (length l) ->
  l !! Z.to_nat (n mod Z.of_nat (length l)) = Some (l !!! Z.to_nat (n mod Z.of_nat (length l))).
Proof.
  intros Hl. pose proof (Z.mod_pos_bound n (Z.of_nat (length l)) Hl). apply list_lookup_lookup_total_lt. lia.
Qed.

(** The names of a year tell its place in the cycle. *)
Lemma names_cycle y y' : names y = names y' <-> (y - 4) mod 60 = (y' - 4) mod 60.
Proof.
  assert (forall y, names y = names (4 + (y - 4) mod 60)) as Hmod.
  { intros x. unfold names. assert (forall k, (k | 60) -> (4 + (x - 4) mod 60 - 4) mod k = (x - 4) mod k) as Hk.
    { intros k Hk. replace (4 + (x - 4) mod 60 - 4) with ((x - 4) mod 60) by lia. by apply Z.mod_mod_divide. }
    rewrite !Hk; [done|by exists 5|by exists 6]. }
  split; [|intros H; by rewrite (Hmod y), (Hmod y'), H]. rewrite (Hmod y), (Hmod y').
  pose proof (Z.mod_pos_bound (y - 4) 60 ltac:(lia)). pose proof (Z.mod_pos_bound (y' - 4) 60 ltac:(lia)).
  set (a := (y - 4) mod 60) in *. set (b := (y' - 4) mod 60) in *. clearbody a b. intros Hn.
  assert (forallb (fun a => forallb (fun b => implb (bool_decide (names (4 + a) = names (4 + b))) (a =? b)) (seqZ 0 60)) (seqZ 0 60) = true)
    as Hall by (by vm_compute).
  rewrite forallb_forall in Hall. specialize (Hall a). rewrite forallb_forall in Hall.
  specialize (Hall ltac:(apply list_elem_of_In, elem_of_seqZ; lia) b ltac:(apply list_elem_of_In, elem_of_seqZ; lia)).
  rewrite bool_decide_eq_true_2 in Hall by done. by apply Z.eqb_eq in Hall.
Qed.

(** The program never reads past its tables; it prints the year and its
    names from the year 4 on.  Before, the difference wraps, and because 2^32
    is no multiple of 60 the names are those of the year sixteen years later. *)
Theorem year_names (y : Z) : 0 <= y < 2 ^ 32 -> exists a b c, main (Some y) = OK (y, a, b, c) /\
  (4 <= y -> (a, b, c) = names y) /\
  (y < 4 -> (a, b, c) = names (y + 16) /\ (a, b, c) <> names y).
Proof.
  intros Hy. unfold main. change (default 0 (Some y)) with y. set (x := u32 (y - 4)).
  pose proof (nth_mod stems x ltac:(done)) as H1. pose proof (nth_mod branches x ltac:(done)) as H2.
  pose proof (nth_mod animals x ltac:(done)) as H3.
  change (Z.of_nat (length stems)) with 10 in H1. change (Z.of_nat (length branches)) with 12 in H2.
  change (Z.of_nat (length animals)) with 12 in H3. rewrite H1, H2, H3.
  assert (u32 (x + 4) = y) as ->.
  { unfold x, u32, wrap. rewrite Z.add_mod_idemp_l by lia. rewrite Z.sub_add. apply Z.mod_small. lia. }
  do 3 eexists. split; [reflexivity|]. split; intros Hle.
  - assert (x = y - 4) as -> by (unfold x, u32, wrap; apply Z.mod_small; lia). done.
  - assert (forallb (fun y => bool_decide (names (u32 (y - 4) + 4) = names (y + 16) /\ names (u32 (y - 4) + 4) <> names y)) (seqZ 0 4) = true)
      as Hall by (by vm_compute).
    rewrite forallb_forall in Hall. specialize (Hall y ltac:(apply list_elem_of_In, elem_of_seqZ; lia)).
    apply bool_decide_eq_true in Hall. fold x in Hall. unfold names in Hall at 1 3. by rewrite Z.add_simpl_r in Hall.
Qed.

Lemma year_names_witness : exists a b c, main (Some 2024) = OK (2024, a, b, c) /\ (a, b, c) = names 2024.
Proof.
  destruct (year_names 2024) as (a & b & c & Hrun & H & _); [lia|]. exists a, b, c. split; [exact Hrun|]. apply H. lia.
Defined.

(** ** [sum_positive] *)

Definition EINVAL : Z := 22.

(** The sum, and what [errno] is set to if it is *)
Definition sum_positive (a b : Z) : res (Z * option Z) :=
  if (a <=? 0) || (b <=? 0) then OK (0, Some EINVAL)
  else if a + b <? 2 ^ 31 then OK (a + b, None) else Er IntOverflow.

(** The sum of two positive numbers is exact, or overflows; others are refused. *)
Lemma sum_positive_spec a b : - 2 ^ 31 <= a < 2 ^ 31 -> - 2 ^ 31 <= b < 2 ^ 31 ->
  sum_positive a b =
    if decide (0 < a /\ 0 < b) then if decide (a + b < 2 ^ 31) then OK (a + b, None) else Er IntOverflow
    else OK (0, Some EINVAL).
Proof. intros Ha Hb. unfold sum_positive. repeat case_decide; repeat case_if; done || lia. Qed.
