(* ===== verification/FzTry.v ===== *)
(** * The exceptions of MuPDF

    Functions of MuPDF throw by [longjmp] to the innermost [fz_try]; the
    programs of src/mupdf catch some.  A computation on a state [S] ends with a
    value or has thrown, unless it has an error of C.  [triple] says what a
    computation makes of the state in both cases. *)

From S2P Require Import Prelude.

Inductive outcome (A : Type) : Type := Ended (a : A) | Thrown.
Arguments Ended {A} a.
Arguments Thrown {A}.

(** Errors of C on top of exceptions *)
Definition EX (S A : Type) : Type := S -> res (outcome A * S).

Section operations.
Context {S : Type}.

Definition e_ret {A} (a : A) : EX S A := fun s => OK (Ended a, s).
Definition e_bind {A B} (c : EX S A) (f : A -> EX S B) : EX S B := fun s =>
  match c s with
  | OK (Ended a, s) => f a s
  | OK (Thrown, s) => OK (Thrown, s)
  | Er e => Er e
  end.
Definition e_throw {A} : EX S A := fun s => OK (Thrown, s).
Definition e_mod (f : S -> S) : EX S unit := fun s => OK (Ended tt, f s).
Definition e_get {A} (f : S -> A) : EX S A := fun s => OK (Ended (f s), s).
Definition e_fail {A} (e : error) : EX S A := fun _ => Er e.

(** [fz_try(ctx) c; fz_catch(ctx) h] *)
Definition fz_try {A} (c h : EX S A) : EX S A := fun s =>
  match c s with OK (Thrown, s) => h s | r => r end.

(** A call that throws unless [ok] *)
Definition may_throw (ok : bool) : EX S unit := if ok then e_ret tt else e_throw.

End operations.

Declare Scope ex_scope.
Notation "'let^' x := c 'in' k" := (e_bind c (fun x => k))
  (at level 10, x binder, c at level 100, k at level 200) : ex_scope.
Notation "c ;^ k" := (e_bind c (fun _ => k)) (at level 100, right associativity) : ex_scope.

(** ** What a computation does *)

Section triples.
Context {S : Type}.
Local Open Scope ex_scope.

(** From a state with [P], the computation ends with [Q], has thrown with [E],
    or has an error of which [bad] holds. *)
Definition triple {A} (bad : error -> Prop) (P : S -> Prop) (c : EX S A) (Q : A -> S -> Prop) (E : S -> Prop) : Prop :=
  forall s, P s ->
  match c s with
  | OK (Ended a, s') => Q a s'
  | OK (Thrown, s') => E s'
  | Er e => bad e
  end.

Context (bad : error -> Prop).
Implicit Types (P E : S -> Prop).

Lemma t_ret {A} P (a : A) (Q : A -> S -> Prop) E : (forall s, P s -> Q a s) -> triple bad P (e_ret a) Q E.
Proof. intros H s Hs. by apply H. Qed.

Lemma t_bind {A B} P (c : EX S A) R (f : A -> EX S B) Q E :
  triple bad P c R E -> (forall a, triple bad (R a) (f a) Q E) -> triple bad P (e_bind c f) Q E.
Proof.
  intros Hc Hf s Hs. specialize (Hc s Hs). unfold e_bind.
  destruct (c s) as [[[a|] s']|e]; [by apply Hf|done|done].
Qed.

Lemma t_weaken {A} P P' (c : EX S A) (Q Q' : A -> S -> Prop) E E' :
  (forall s, P' s -> P s) -> (forall a s, Q a s -> Q' a s) -> (forall s, E s -> E' s) ->
  triple bad P c Q E -> triple bad P' c Q' E'.
Proof.
  intros HP HQ HE Hc s Hs. specialize (Hc s (HP s Hs)). destruct (c s) as [[[a|] s']|e]; auto.
Qed.

Lemma t_mod P f (Q : unit -> S -> Prop) E : (forall s, P s -> Q tt (f s)) -> triple bad P (e_mod f) Q E.
Proof. intros H s Hs. by apply H. Qed.

(** What is read can be named in what follows. *)
Lemma t_get {A B} P (g : S -> A) (f : A -> EX S B) Q E :
  (forall a, triple bad (fun s => P s /\ g s = a) (f a) Q E) -> triple bad P (e_bind (e_get g) f) Q E.
Proof. intros H s Hs. by apply (H (g s)). Qed.

Lemma t_try {A} P (c h : EX S A) Q E E' :
  triple bad P c Q E -> triple bad E h Q E' -> triple bad P (fz_try c h) Q E'.
Proof.
  intros Hc Hh s Hs. specialize (Hc s Hs). unfold fz_try. destruct (c s) as [[[a|] s']|e]; [done|by apply Hh|done].
Qed.

Lemma t_pure {A} (X : Prop) P (c : EX S A) Q E :
  (X -> triple bad P c Q E) -> triple bad (fun s => X /\ P s) c Q E.
Proof. intros H s [HX Hs]. by apply H. Qed.

Lemma t_pre {A} P P' (c : EX S A) Q E : (forall s, P' s -> P s) -> triple bad P c Q E -> triple bad P' c Q E.
Proof. intros H. by apply t_weaken. Qed.

Lemma t_exn {A} P (c : EX S A) Q E E' : (forall s, E s -> E' s) -> triple bad P c Q E -> triple bad P c Q E'.
Proof. intros H. by apply t_weaken. Qed.

End triples.

Lemma t_bad {S A} (bad bad' : error -> Prop) (P : S -> Prop) (c : EX S A) Q E :
  (forall e, bad e -> bad' e) -> triple bad P c Q E -> triple bad' P c Q E.
Proof. intros Hb H s Hs. specialize (H s Hs). destruct (c s) as [[[a|] s']|e]; auto. Qed.
