(* ===== verification/AsioNet.v ===== *)
(** * A message server on coroutines: [cmake/asio/net/net.cc]

    Each connection has a session with two coroutines, a reader and a writer,
    which one thread runs between their suspensions.  Boost.Asio is the
    environment: bytes arrive in any portions, [async_read] ends when it has all
    it was asked for and throws when the connection ends before.  Messages of
    protobuf are a parameter, and so is whether a handler throws. *)

From stdpp Require Import gmap.
From S2P Require Import Prelude Words Bytes Monad.

Local Open Scope Z_scope.
Local Open Scope st_scope.

(** Where a coroutine is suspended *)
Inductive reader_at : Type := ReadLen | ReadBody (len : Z) | ReaderDone.
Inductive writer_at : Type := TimerWait | WriterDone.

(** [inbox]: what has arrived and was not read; [got]: all that has arrived;
    [ended]: the peer has closed the connection.  [m_write_msgs] is always
    empty: nothing puts a message there. *)
Record session : Type := MkSession {
  is_open : bool; inbox : list Z; got : list Z; ended : bool;
  reader : reader_at; writer : writer_at; cancelled : bool
}.

Section code.
Context {M : Type}.
Variable parse : list Z -> M.       (* [ParseFromArray] *)

Inductive event : Type :=
  | ERecv (len cmdId : Z)           (* "Recv Len:{0} CmdID:{1}" *)
  | EHandled (h : nat) (m : M)      (* the handler is called *)
  | EUnknown (cmdId : Z).           (* "unimplement msg handler" *)

(** [handlers] is [mapMsgHandler], whose messages hold what was parsed last. *)
Record St : Type := MkSt {
  sessions : gmap nat session; next : nat; listening : bool;
  handlers : gmap Z nat; messages : gmap Z M; events : list (nat * event)
}.
Notation ST := (ST St).

Definition set_session (s : St) (k : nat) (x : session) : St :=
  MkSt (<[k := x]> (sessions s)) (next s) (listening s) (handlers s) (messages s) (events s).
Definition emit (k : nat) (e : event) : ST unit :=
  s_mod (fun s => MkSt (sessions s) (next s) (listening s) (handlers s) (messages s) (events s ++ [(k, e)])).
Definition set_message (c : Z) (m : M) : ST unit :=
  s_mod (fun s => MkSt (sessions s) (next s) (listening s) (handlers s) (<[c := m]> (messages s)) (events s)).

Definition get_session (k : nat) : ST session := let* m := s_get sessions in s_some OutOfBounds (m !! k).
Definition put_session (k : nat) (x : session) : ST unit := s_mod (fun s => set_session s k x).

(** A new message and its handler take the place of those for the same number. *)
Definition regNetMsg (cmdId : Z) (m : M) (h : nat) : ST unit :=
  s_mod (fun s => MkSt (sessions s) (next s) (listening s) (<[cmdId := h]> (handlers s)) (<[cmdId := m]> (messages s)) (events s)).

(** The constructor, and [start] up to the first suspensions *)
Definition new_session : session := MkSession true [] [] false ReadLen TimerWait false.
Definition accept_session : ST unit :=
  s_mod (fun s => MkSt (<[next s := new_session]> (sessions s)) (S (next s)) (listening s) (handlers s) (messages s) (events s)).

(** [stop], at the end of a coroutine that has caught an exception *)
Definition stopped (x : session) : session :=
  MkSession false (inbox x) (got x) (ended x) ReaderDone (writer x) true.
Definition at_ (x : session) (r : reader_at) (inbox : list Z) : session :=
  MkSession (is_open x) inbox (got x) (ended x) r (writer x) (cancelled x).

(** [reader] behind its second [async_read], with the bytes in [data].  Bytes of
    [data] that were not read are indeterminate. *)
Definition handle_body (k : nat) (len : Z) (data : list Z) (throws : bool) : ST bool :=
  if len <? 2 then s_fail Uninit else
  let cmdId := le_value (take 2 data) in
  emit k (ERecv len cmdId) ;*
  let* hs := s_get handlers in
  match hs !! cmdId with
  | Some h =>
      let m := parse (drop 2 data) in
      set_message cmdId m ;*
      emit k (EHandled h m) ;*
      s_ret throws
  | None => emit k (EUnknown cmdId) ;* s_ret false
  end.

(** The reader runs on from where it is suspended, when it can. *)
Definition reader_runs (k : nat) (throws : bool) : ST unit :=
  let* x := get_session k in
  match reader x with
  | ReadLen =>
      if (2 <=? length (inbox x))%nat then
        put_session k (at_ x (ReadBody (le_value (take 2 (inbox x)))) (drop 2 (inbox x)))
      else if ended x then put_session k (stopped x) else s_ret tt
  | ReadBody len =>
      let n := Z.to_nat len in
      if (n <=? length (inbox x))%nat then
        let* thrown := handle_body k len (take n (inbox x)) throws in
        let y := at_ x ReaderDone (drop n (inbox x)) in
        put_session k (if thrown : bool then stopped y else y)
      else if ended x then put_session k (stopped x) else s_ret tt
  | ReaderDone => s_ret tt
  end.

(** The writer runs on when its wait was cancelled: it looks at the socket, and
    waits again while that is open. *)
Definition writer_runs (k : nat) : ST unit :=
  let* x := get_session k in
  match writer x with
  | TimerWait =>
      if cancelled x then
        put_session k (MkSession (is_open x) (inbox x) (got x) (ended x) (reader x)
          (if is_open x then TimerWait else WriterDone) false)
      else s_ret tt
  | WriterDone => s_ret tt
  end.

(** What the network does with an open connection *)
Definition arrives (k : nat) (bytes : list Z) : ST unit :=
  let* x := get_session k in
  if is_open x && negb (ended x) then
    put_session k (MkSession true (inbox x ++ bytes) (got x ++ bytes) false (reader x) (writer x) (cancelled x))
  else s_ret tt.
Definition peer_closes (k : nat) : ST unit :=
  let* x := get_session k in
  put_session k (MkSession (is_open x) (inbox x) (got x) true (reader x) (writer x) (cancelled x)).

(** An exception of [async_accept] ends the listener. *)
Definition listener_fails : ST unit :=
  s_mod (fun s => MkSt (sessions s) (next s) false (handlers s) (messages s) (events s)).

Definition after {A} (c : ST A) (s : St) : res St := match c s with OK (_, s') => OK s' | Er e => Er e end.

Inductive step (s : St) : res St -> Prop :=
  | step_accept : listening s = true -> step s (after accept_session s)
  | step_accept_fails : listening s = true -> step s (after listener_fails s)
  | step_arrives k bytes : is_Some (sessions s !! k) -> is_bytes bytes -> step s (after (arrives k bytes) s)
  | step_closes k : is_Some (sessions s !! k) -> step s (after (peer_closes k) s)
  | step_reader k throws : is_Some (sessions s !! k) -> step s (after (reader_runs k throws) s)
  | step_writer k : is_Some (sessions s !! k) -> step s (after (writer_runs k) s).

(** [initNet] with the registered handlers, up to [io_context.run()]: an acceptor
    or a signal set that cannot be made throws, and [initNet] returns false. *)
Definition initNet (made : bool) (hs : gmap Z nat) (ms : gmap Z M) : St + bool :=
  if made then inl (MkSt ∅ 0 true hs ms []) else inr false.

(** [io_context.run()]: a state of the server, or the result of [initNet].  A
    signal stops the context, wherever the coroutines are; what a coroutine
    throws stays in it, since it is detached. *)
Inductive runs (hs : gmap Z nat) (ms : gmap Z M) : St + bool -> Prop :=
  | run_start made : runs hs ms (initNet made hs ms)
  | run_step s s' : runs hs ms (inl s) -> step s (OK s') -> runs hs ms (inl s')
  | run_signal s : runs hs ms (inl s) -> runs hs ms (inr true).

Definition reachable (hs : gmap Z nat) (ms : gmap Z M) (s : St) : Prop := runs hs ms (inl s).

(** ** What becomes of a session *)

(** The events of a session *)
Definition log (k : nat) (s : St) : list event := omap (fun x => if Nat.eqb k x.1 then Some x.2 else None) (events s).

(** What a message of [len] bytes, [data], gives rise to *)
Definition message_events (hs : gmap Z nat) (len : Z) (data : list Z) : list event :=
  let cmdId := le_value (take 2 data) in
  ERecv len cmdId :: match hs !! cmdId with Some h => [EHandled h (parse (drop 2 data))] | None => [EUnknown cmdId] end.

(** The first message of what has arrived was handled, and nothing else. *)
Definition served (hs : gmap Z nat) (x : session) (l : list event) : Prop :=
  exists data rest, let len := Z.of_nat (length data) in
    got x = le_bytes 2 len ++ data ++ rest /\ 2 <= len < 65536 /\ l = message_events hs len data.

(** Where the reader is says what it has read. *)
Definition session_ok (hs : gmap Z nat) (x : session) (l : list event) : Prop :=
  is_bytes (got x) /\
  match reader x with
  | ReadLen => is_open x = true /\ inbox x = got x /\ l = []
  | ReadBody len => is_open x = true /\ got x = le_bytes 2 len ++ inbox x /\ 0 <= len < 65536 /\ l = []
  | ReaderDone => served hs x l \/ (is_open x = false /\ l = [])
  end /\
  (is_open x = true -> writer x = TimerWait /\ cancelled x = false) /\
  (is_open x = false -> reader x = ReaderDone /\ (cancelled x = true \/ writer x = WriterDone)).

Record inv (hs : gmap Z nat) (s : St) : Prop := {
  iv_handlers : handlers s = hs;
  iv_sessions : forall k x, sessions s !! k = Some x -> session_ok hs x (log k s);
  iv_fresh : forall k, (next s <= k)%nat -> sessions s !! k = None /\ log k s = []
}.

Lemma log_app k s s' e : events s' = events s ++ e ->
  log k s' = log k s ++ omap (fun x => if Nat.eqb k x.1 then Some x.2 else None) e.
Proof. unfold log. intros ->. apply omap_app. Qed.

Lemma log_tagged k j (e : list event) :
  omap (fun x => if Nat.eqb k x.1 then Some x.2 else None) (map (pair j) e) = if Nat.eqb k j then e else [].
Proof.
  destruct (Nat.eqb_spec k j) as [-> |Hne]; induction e as [|a e IH]; try done; cbn.
  - rewrite Nat.eqb_refl. f_equal. apply IH.
  - by rewrite (proj2 (Nat.eqb_neq k j)).
Qed.

Lemma asio_start hs ms : inv hs (MkSt ∅ 0 true hs ms []).
Proof. split; [done| |]. - intros k x. cbn. by rewrite lookup_empty. - intros k _. cbn. by rewrite lookup_empty. Qed.

(** A step that changes one session and adds events of that session only *)
Lemma inv_update hs s s' k y e : inv hs s -> is_Some (sessions s !! k) ->
  handlers s' = handlers s -> next s' = next s -> sessions s' = <[k := y]> (sessions s) ->
  events s' = events s ++ map (pair k) e -> session_ok hs y (log k s ++ e) -> inv hs s'.
Proof.
  intros [Hh Hs Hf] [x Hx] Hh' Hn Hsess He Hy.
  assert (forall j, log j s' = log j s ++ if Nat.eqb j k then e else []) as Hlog.
  { intros j. rewrite (log_app j s s' _ He). by rewrite log_tagged. }
  split; [congruence| |].
  - intros j z. rewrite Hsess, Hlog. destruct (Nat.eqb_spec j k) as [-> |Hne].
    + rewrite lookup_insert_eq. by intros [= <-].
    + rewrite lookup_insert_ne, app_nil_r by done. apply Hs.
  - intros j Hj. rewrite Hn in Hj. destruct (Hf j Hj) as [Hnone Hl]. rewrite Hsess, Hlog.
    assert (j <> k) by (intros ->; congruence). rewrite lookup_insert_ne by done.
    rewrite (proj2 (Nat.eqb_neq j k)), app_nil_r by done. done.
Qed.

Lemma inv_quiet hs s s' k y : inv hs s -> is_Some (sessions s !! k) ->
  s' = set_session s k y -> session_ok hs y (log k s) -> inv hs s'.
Proof.
  intros Hi Hk -> Hy. apply (inv_update hs s _ k y []); try done; [by rewrite app_nil_r..].
Qed.

(** *** The steps *)

Lemma get_session_at k s x : sessions s !! k = Some x -> get_session k s = OK (x, s).
Proof. intros Hx. unfold get_session, s_bind. cbn. by rewrite Hx. Qed.

Lemma step_accept_inv hs s : inv hs s -> exists s', after accept_session s = OK s' /\ inv hs s'.
Proof.
  intros [Hh Hs Hf]. eexists. split; [reflexivity|]. destruct (Hf (next s)) as [Hnone Hl]; [lia|]. split; [done| |].
  - intros k x. cbn [sessions]. destruct (decide (k = next s)) as [-> |Hne].
    + rewrite lookup_insert_eq. intros [= <-]. change (log (next s) _) with (log (next s) s). rewrite Hl. split; [by apply Forall_nil|]. cbn. split; [done|]. by split.
    + rewrite lookup_insert_ne by done. apply Hs.
  - intros k Hk. cbn in Hk |- *. rewrite lookup_insert_ne by lia. apply Hf. lia.
Qed.

Lemma step_arrives_inv hs s k bytes : inv hs s -> is_Some (sessions s !! k) -> is_bytes bytes ->
  exists s', after (arrives k bytes) s = OK s' /\ inv hs s'.
Proof.
  intros Hi [x Hx] Hb. unfold arrives, after. rewrite (s_bind_OK _ _ _ _ _ (get_session_at k s x Hx)).
  destruct (iv_sessions hs s Hi k x Hx) as (Hg & Hr & Ho & Hc).
  destruct (is_open x) eqn:Eo; cbn [andb]; [|by exists s]. destruct (ended x); cbn [negb]; [by exists s|].
  eexists. split; [reflexivity|]. eapply inv_quiet; [done|by eexists|reflexivity|].
  split; [by apply Forall_app|]. cbn -[le_bytes]. split; [|by split].
  destruct (reader x) as [|len|]; cbn -[le_bytes] in *.
  - destruct Hr as (_ & -> & ->). done.
  - destruct Hr as (_ & -> & Hl & ->). by rewrite app_assoc.
  - destruct Hr as [(data & rest & Hd & Hl & Hlog)|[? _]]; [|done]. left. exists data, (rest ++ bytes). cbn -[le_bytes].
    by rewrite Hd, <- !app_assoc.
Qed.

Lemma step_closes_inv hs s k : inv hs s -> is_Some (sessions s !! k) ->
  exists s', after (peer_closes k) s = OK s' /\ inv hs s'.
Proof.
  intros Hi [x Hx]. unfold peer_closes, after. rewrite (s_bind_OK _ _ _ _ _ (get_session_at k s x Hx)).
  eexists. split; [reflexivity|]. eapply inv_quiet; [done|by eexists|reflexivity|]. apply (iv_sessions hs s Hi k x Hx).
Qed.

Lemma step_writer_inv hs s k : inv hs s -> is_Some (sessions s !! k) ->
  exists s', after (writer_runs k) s = OK s' /\ inv hs s'.
Proof.
  intros Hi [x Hx]. unfold writer_runs, after. rewrite (s_bind_OK _ _ _ _ _ (get_session_at k s x Hx)).
  destruct (iv_sessions hs s Hi k x Hx) as (Hg & Hr & Ho & Hc).
  destruct (writer x) eqn:Ew; [|by exists s]. destruct (cancelled x) eqn:Ec; [|by exists s].
  assert (is_open x = false) as Eo by (destruct (is_open x); [by destruct (Ho eq_refl)|done]).
  eexists. split; [reflexivity|]. eapply inv_quiet; [done|by eexists|reflexivity|]. rewrite Eo.
  split; [done|]. cbn. destruct (Hc Eo) as [Hrd _]. rewrite Hrd in *. split; [|split; [done|by split; [|right]]].
  destruct Hr as [Hs|[? ?]]; [by left|by right].
Qed.

Lemma stopped_ok hs x : is_bytes (got x) -> session_ok hs (stopped x) [].
Proof. intros Hg. split; [done|]. cbn. split; [by right|]. split; [done|]. by split; [|left]. Qed.

Lemma two_bytes_value l : length l = 2%nat -> is_bytes l -> 0 <= le_value l < 65536 /\ le_bytes 2 (le_value l) = l.
Proof.
  intros Hl Hb. destruct l as [|a [|b [|]]]; try done. apply Forall_cons in Hb as [Ha Hb]. apply Forall_cons in Hb as [Hb _].
  unfold is_byte in *. cbn [le_value le_bytes]. split; [lia|].
  replace (a + 256 * (b + 256 * 0)) with (a + b * 256) by lia.
  rewrite Z_mod_plus_full, (Z.mod_small a), Z_div_plus_full, (Z.div_small a) by lia. cbn. by rewrite Z.mod_small by lia.
Qed.

(** A message of fewer than two bytes, the only thing that goes wrong *)
Definition too_short (s : St) (k : nat) : Prop :=
  exists x len, sessions s !! k = Some x /\ reader x = ReadBody len /\ len < 2.

Lemma handle_body_run hs s k len data throws : handlers s = hs -> 2 <= len -> exists b ms,
  handle_body k len data throws s = OK (b, MkSt (sessions s) (next s) (listening s) (handlers s) ms
    (events s ++ map (pair k) (message_events hs len data))).
Proof.
  intros <- Hl. unfold handle_body, message_events. rewrite (proj2 (Z.ltb_ge _ _)) by lia. unfold s_bind. cbn -[le_value].
  destruct (handlers s !! le_value (take 2 data)) as [h|]; cbn -[le_value]; do 2 eexists; by rewrite <- app_assoc.
Qed.

Lemma step_reader_inv hs s k throws : inv hs s -> is_Some (sessions s !! k) ->
  (exists s', after (reader_runs k throws) s = OK s' /\ inv hs s') \/
  (after (reader_runs k throws) s = Er Uninit /\ too_short s k).
Proof.
  intros Hi [x Hx]. unfold reader_runs, after. rewrite (s_bind_OK _ _ _ _ _ (get_session_at k s x Hx)).
  pose proof (iv_sessions hs s Hi k x Hx) as Hok. pose proof Hok as (Hg & Hr & Ho & Hc).
  destruct (reader x) as [|len|] eqn:Er; [| |left; by exists s].
  - left. destruct Hr as (Eo & Hin & Hlog). destruct (Nat.leb_spec 2 (length (inbox x))) as [Hle|Hlt].
    + eexists. split; [reflexivity|]. eapply inv_quiet; [done|by eexists|reflexivity|]. rewrite Hlog.
      destruct (two_bytes_value (take 2 (inbox x))) as [Hl Hb]; [rewrite length_take; lia|rewrite Hin; by apply Forall_take|].
      split; [done|]. cbn -[le_value le_bytes take]. split; [|split; [done|intros ?; congruence]].
      split; [done|]. split; [by rewrite Hb, take_drop|by split].
    + destruct (ended x); [|by exists s]. eexists. split; [reflexivity|]. eapply inv_quiet; [done|by eexists|reflexivity|].
      rewrite Hlog. by apply stopped_ok.
  - destruct Hr as (Eo & Hgot & Hl & Hlog). destruct (Nat.leb_spec (Z.to_nat len) (length (inbox x))) as [Hle|Hlt].
    2:{ left. destruct (ended x); [|by exists s]. eexists. split; [reflexivity|]. eapply inv_quiet; [done|by eexists|reflexivity|].
        rewrite Hlog. by apply stopped_ok. }
    destruct (Z.ltb_spec len 2) as [Hs|Hs].
    { right. split; [|by exists x, len]. unfold s_bind, handle_body. by rewrite (proj2 (Z.ltb_lt _ _)). }
    left. set (data := take (Z.to_nat len) (inbox x)).
    destruct (handle_body_run hs s k len data throws (iv_handlers hs s Hi) Hs) as (b & ms & Hrun).
    rewrite (s_bind_OK _ _ _ _ _ Hrun). eexists. split; [reflexivity|].
    set (y := at_ x ReaderDone (drop (Z.to_nat len) (inbox x))).
    apply (inv_update hs s _ k (if b then stopped y else y) (message_events hs len data) Hi); [by eexists|done|done|done|done|]. rewrite Hlog. cbn [app].
    assert (Z.of_nat (length data) = len) as Hlen by (unfold data; rewrite length_take; lia).
    assert (served hs x (message_events hs len data)) as Hserved.
    { exists data, (drop (Z.to_nat len) (inbox x)). cbn. rewrite Hlen. unfold data at 1. rewrite take_drop.
      split; [done|]. split; [lia|done]. }
    split; [by destruct b|]. destruct b; cbn; [split; [by left|split; [done|by split; [|left]]]|].
    split; [by left|]. split; [done|]. intros Ec. congruence.
Qed.

Lemma asio_step hs s r : inv hs s -> step s r ->
  (exists s', r = OK s' /\ inv hs s') \/ (r = Er Uninit /\ exists k, too_short s k).
Proof.
  intros Hi Hs. destruct Hs as [Hl|Hl|k bytes Hk Hb|k Hk|k throws Hk|k Hk].
  - left. by apply step_accept_inv.
  - left. eexists. split; [reflexivity|]. destruct Hi. by split.
  - left. by apply step_arrives_inv.
  - left. by apply step_closes_inv.
  - destruct (step_reader_inv hs s k throws Hi Hk) as [|[? ?]]; [by left|]. right. eauto.
  - left. by apply step_writer_inv.
Qed.

Lemma asio_reachable hs ms s : reachable hs ms s -> inv hs s.
Proof.
  unfold reachable. remember (inl s) as r eqn:Hs. intros Hr. revert s Hs.
  induction Hr as [[|]|s s' Hr IH Hstep|]; intros s0 [= <-]; [apply asio_start|].
  destruct (asio_step hs s _ (IH s eq_refl) Hstep) as [(s2 & [= <-] & Hi)|[? _]]; done.
Qed.

(** [initNet] returns false only before it has accepted anything; otherwise it
    returns when a signal comes, which can be at any time. *)
Lemma initNet_result hs ms b : runs hs ms (inr b) <->
  b = false \/ (b = true /\ exists s, reachable hs ms s).
Proof.
  split.
  - intros Hr. remember (inr b) as r eqn:Hb. destruct Hr as [[|]|s s'|s Hr]; try done; injection Hb as <-; [by left|].
    right. split; [done|]. by exists s.
  - intros [-> |(-> & s & Hs)]; [apply (run_start hs ms false)|by eapply run_signal].
Qed.

(** *** A session that has been served *)

(** What happens to one session does not touch the others. *)
Definition kept (k : nat) (s s' : St) : Prop := sessions s' !! k = sessions s !! k /\ log k s' = log k s.

Lemma kept_put j k s y : k <> j -> kept k s (set_session s j y).
Proof. intros Hne. split; [|done]. cbn. by rewrite lookup_insert_ne. Qed.

Lemma reader_keeps j k s throws s' : k <> j -> is_Some (sessions s !! j) ->
  after (reader_runs j throws) s = OK s' -> kept k s s'.
Proof.
  intros Hne [x Hx]. unfold reader_runs, after. rewrite (s_bind_OK _ _ _ _ _ (get_session_at j s x Hx)).
  destruct (reader x) as [|len|].
  - destruct (2 <=? _)%nat; [|destruct (ended x)]; intros [= <-]; [by apply kept_put..|done].
  - destruct (Z.to_nat len <=? _)%nat; [|destruct (ended x); intros [= <-]; [by apply kept_put|done]].
    destruct (Z.ltb_spec len 2) as [Hs|Hs].
    { unfold s_bind, handle_body. by rewrite (proj2 (Z.ltb_lt _ _)). }
    destruct (handle_body_run (handlers s) s j len (take (Z.to_nat len) (inbox x)) throws eq_refl Hs) as (b & ms & Hrun).
    set (ev := message_events _ _ _) in Hrun. clearbody ev. rewrite (s_bind_OK _ _ _ _ _ Hrun). intros [= <-].
    split; [cbn; by rewrite lookup_insert_ne|].
    etransitivity; [eapply log_app; reflexivity|].
    rewrite log_tagged, (proj2 (Nat.eqb_neq k j)) by done. by rewrite app_nil_r.
  - by intros [= <-].
Qed.

(** The reader is gone, the socket is open. *)
Definition abandoned (x : session) : Prop := reader x = ReaderDone /\ is_open x = true.

Lemma abandoned_stays hs s s' k x : inv hs s -> sessions s !! k = Some x -> abandoned x -> step s (OK s') ->
  exists x', sessions s' !! k = Some x' /\ abandoned x' /\ log k s' = log k s.
Proof.
  intros Hi Hx [Hr Ho] Hs. destruct (iv_sessions hs s Hi k x Hx) as (_ & _ & Hw & _). destruct (Hw Ho) as [Hw1 Hw2].
  assert (kept k s s' -> exists x', sessions s' !! k = Some x' /\ abandoned x' /\ log k s' = log k s) as Hkept.
  { intros [Hk Hl]. exists x. by rewrite Hk. }
  inversion Hs as [Hl E|Hl E|j bytes Hj Hb E|j Hj E|j throws Hj E|j Hj E].
  - subst s'. apply Hkept. split; [|done]. cbn. rewrite lookup_insert_ne; [done|]. intros <-.
    destruct (iv_fresh hs s Hi (next s)) as [? _]; [done|congruence].
  - subst s'. by apply Hkept.
  - destruct Hj as [y Hy]. unfold arrives, after in E. rewrite (s_bind_OK _ _ _ _ _ (get_session_at j s y Hy)) in E.
    destruct (decide (k = j)) as [<-|Hne].
    + assert (y = x) as -> by congruence. destruct (is_open x && negb (ended x)); injection E as <-; [|by apply Hkept].
      eexists. cbn. rewrite lookup_insert_eq. by split.
    + apply Hkept. destruct (is_open y && negb (ended y)); injection E as <-; [by apply kept_put|done].
  - destruct Hj as [y Hy]. unfold peer_closes, after in E. rewrite (s_bind_OK _ _ _ _ _ (get_session_at j s y Hy)) in E.
    injection E as <-. destruct (decide (k = j)) as [<-|Hne]; [|by apply Hkept, kept_put].
    assert (y = x) as -> by congruence. eexists. cbn. rewrite lookup_insert_eq. by split.
  - destruct (decide (k = j)) as [<-|Hne]; [|by apply Hkept, (reader_keeps j k s throws)].
    unfold reader_runs, after in E. rewrite (s_bind_OK _ _ _ _ _ (get_session_at k s x Hx)), Hr in E. injection E as <-. by apply Hkept.
  - destruct Hj as [y Hy]. unfold writer_runs, after in E. rewrite (s_bind_OK _ _ _ _ _ (get_session_at j s y Hy)) in E.
    destruct (decide (k = j)) as [<-|Hne].
    + assert (y = x) as -> by congruence. rewrite Hw1, Hw2 in E. injection E as <-. by apply Hkept.
    + apply Hkept. destruct (writer y); [destruct (cancelled y)|]; injection E as <-; [by apply kept_put|done..].
Qed.

(** C28: whatever arrives on the connections, in whatever portions and order, a
    session handles the first message it receives, with the handler that is
    registered for it, and no other.  Once it has, it stays as it is for ever:
    no step closes its socket or reads from it, not even after the peer has
    closed the connection; it is closed only where the connection ends within
    that message or the handler throws.  The one step that goes wrong is a
    message of fewer than two bytes, whose number is read from bytes that
    nothing was written to. *)
Theorem one_message_each (hs : gmap Z nat) (ms : gmap Z M) (s : St) (k : nat) (x : session) :
  reachable hs ms s -> sessions s !! k = Some x ->
  (reader x = ReaderDone /\ served hs x (log k s) \/ log k s = []) /\
  (abandoned x -> served hs x (log k s) /\
     forall s', step s (OK s') -> exists x', sessions s' !! k = Some x' /\ abandoned x' /\ log k s' = log k s) /\
  (forall e, step s (Er e) -> e = Uninit /\ exists j, too_short s j).
Proof.
  intros Hreach Hx. pose proof (asio_reachable hs ms s Hreach) as Hi.
  destruct (iv_sessions hs s Hi k x Hx) as (_ & Hr & _ & _). split; [|split].
  - destruct (reader x); [right; by destruct Hr as (_ & _ & ?)|right; by destruct Hr as (_ & _ & _ & ?)|].
    destruct Hr as [?|[_ ?]]; [by left|by right].
  - intros Hab. split; [|by intros s'; apply (abandoned_stays hs s s' k x)]. destruct Hab as [Hrd Ho]. rewrite Hrd in Hr.
    destruct Hr as [?|[? _]]; [done|congruence].
  - intros e Hs. destruct (asio_step hs s _ Hi Hs) as [(? & ? & _)|[[= ->] ?]]; [done|by split].
Qed.

End code.

(** *** A run *)

(** A login message (number 1, with two bytes) to a server with one handler *)
Definition one_handler : gmap Z nat := {[1 := 0%nat]}.
Definition login : list Z := [4; 0; 1; 0; 65; 66].

Definition connected : St (M := list Z) := MkSt {[0%nat := new_session]} 1 true one_handler {[1 := []]} [].
Definition logged_in : St (M := list Z) :=
  MkSt {[0%nat := MkSession true [] login false ReaderDone TimerWait false]} 1 true one_handler {[1 := [65; 66]]}
    [(0%nat, ERecv 4 1); (0%nat, EHandled 0 [65; 66])].

(** A step to a state that is computed *)
Lemma reach_to {M} (parse : list Z -> M) hs ms s r s' :
  reachable parse hs ms s -> step parse s r -> r = OK s' -> reachable parse hs ms s'.
Proof. intros Hr Hs ->. by eapply run_step. Qed.

Notation same := (fun l : list Z => l).
Definition login_arrived : St (M := list Z) :=
  MkSt {[0%nat := MkSession true login login false ReadLen TimerWait false]} 1 true one_handler {[1 := []]} [].
Definition login_begun : St (M := list Z) :=
  MkSt {[0%nat := MkSession true [1; 0; 65; 66] login false (ReadBody 4) TimerWait false]} 1 true one_handler {[1 := []]} [].

Lemma logged_in_reachable : reachable same one_handler {[1 := []]} logged_in.
Proof.
  eapply (reach_to _ _ _ login_begun); [|apply (step_reader same login_begun 0 false); by eexists|by vm_compute].
  eapply (reach_to _ _ _ login_arrived); [|apply (step_reader same login_arrived 0 false); by eexists|by vm_compute].
  eapply (reach_to _ _ _ connected); [|apply (step_arrives same connected 0 login); [by eexists|]|by vm_compute].
  - eapply reach_to; [apply (run_start _ _ _ true)|by apply step_accept|by vm_compute].
  - repeat constructor; by vm_compute.
Qed.

Lemma one_message_each_witness :
  served same one_handler (MkSession true [] login false ReaderDone TimerWait false) (log 0 logged_in) /\
  exists s, step same logged_in (OK s).
Proof.
  split.
  - apply (one_message_each same one_handler {[1 := []]} logged_in 0 (MkSession true [] login false ReaderDone TimerWait false));
      [exact logged_in_reachable|done|done].
  - eexists. apply (step_closes same logged_in 0). by eexists.
Defined.

(** A message of one byte makes the reader look at bytes that are not there. *)
Definition short_arrived : St (M := list Z) :=
  MkSt {[0%nat := MkSession true [1; 0; 7] [1; 0; 7] false ReadLen TimerWait false]} 1 true ∅ ∅ [].
Definition short_begun : St (M := list Z) :=
  MkSt {[0%nat := MkSession true [7] [1; 0; 7] false (ReadBody 1) TimerWait false]} 1 true ∅ ∅ [].

Lemma short_message_uninit : reachable same ∅ ∅ short_begun /\ step same short_begun (Er Uninit).
Proof.
  split.
  - eapply (reach_to _ _ _ short_arrived); [|apply (step_reader same short_arrived 0 false); by eexists|by vm_compute].
    eapply reach_to; [eapply reach_to; [apply (run_start _ _ _ true)|by apply step_accept|reflexivity]| |].
    + apply (step_arrives _ _ 0 [1; 0; 7]); [by eexists|]. repeat constructor; by vm_compute.
    + by vm_compute.
  - refine (step_reader same short_begun 0 false _). by eexists.
Qed.
