(* ===== verification/GlibTests.v ===== *)
(** * Tests run by GLib: [cmake/pkg/main.c]

    The program registers five tests with GLib and runs them.  GLib is a
    parameter: its table with keys of type [int] is the class [IntTable] with
    what its documentation promises, its primes and the order in which it runs
    the tests are arguments.  [g_malloc] does not return without memory. *)

From stdpp Require Import gmap.
From S2P Require Import Prelude Words Bytes Monad.

Local Open Scope Z_scope.
Local Open Scope st_scope.

(** ** The table *)

(** Integers of the program by their addresses *)
Definition cells : Type := nat -> Z.
Definition set_cell (m : cells) (a : nat) (v : Z) : cells := fun b => if Nat.eqb a b then v else m b.

(** [g_hash_table_new(g_int_hash, g_int_equal)]: the table keeps the pointers it
    is given as keys and reads through them whenever it compares. *)
Class IntTable (T : Type) : Type := {
  t_new : T;
  t_keys : T -> list nat;
  t_insert : cells -> T -> nat -> Z -> T;
  t_lookup : cells -> T -> nat -> option Z;
  t_size : T -> Z
}.

Class IntTableLaws (T : Type) `{IntTable T} : Prop := {
  new_empty m q : t_lookup m t_new q = None;
  new_size : t_size t_new = 0;
  new_keys : t_keys t_new = [];
  insert_lookup m m' t p v q : m p = m' p -> (forall k, k ∈ t_keys t -> m k = m' k) ->
    t_lookup m' (t_insert m t p v) q = if m' p =? m' q then Some v else t_lookup m' t q;
  insert_size m t p v : t_lookup m t p = None -> t_size (t_insert m t p v) = t_size t + 1;
  insert_keys m t p v q : q ∈ t_keys (t_insert m t p v) -> q = p \/ q ∈ t_keys t
}.

(** ** State *)

Inductive line : Type := LTest | LValue (v : Z) | LMessage (v : Z).

Record St : Type := MkSt { heap : gmap nat (list (option Z)); next : nat; out : list line }.
Notation ST := (ST St).

Definition print (l : line) : ST unit := s_mod (fun s => MkSt (heap s) (next s) (out s ++ [l])).

Definition alloc (l : list (option Z)) : ST nat := fun s =>
  OK (next s, MkSt (<[next s := l]> (heap s)) (S (next s)) (out s)).
Definition g_malloc (n : Z) : ST nat := alloc (replicate (Z.to_nat n) None).

(** A null pointer may be freed. *)
Definition g_free (p : option nat) : ST unit :=
  match p with
  | None => s_ret tt
  | Some p =>
      let* h := s_get heap in
      match h !! p with
      | Some _ => s_mod (fun s => MkSt (delete p (heap s)) (next s) (out s))
      | None => s_fail BadFree
      end
  end.

Definition get_block (p : nat) : ST (list (option Z)) :=
  let* h := s_get heap in s_some OutOfBounds (h !! p).

(** [p[i] = v] *)
Definition set_byte (p : nat) (i : Z) (v : Z) : ST unit :=
  let* l := get_block p in
  if (0 <=? i) && (i <? Z.of_nat (length l)) then
    s_mod (fun s => MkSt (<[p := <[Z.to_nat i := Some v]> l]> (heap s)) (next s) (out s))
  else s_fail OutOfBounds.

Section code.
Context {T : Type} `{IntTable T}.
Variable g_spaced_primes_closest : Z -> Z.

(** ** The tests *)

Definition test : ST unit := print LTest.

(** The argument points to an [A], whose [v] this is. *)
Definition foo (v : Z) : ST unit := print (LValue v).

(** [Fixturetest]; [None]: indeterminate or zero, as GLib makes it *)
Record Fixturetest : Type := MkFix { seed : Z; prime : Z; msg : option nat }.

(** [(void * )0xc0cac01a] *)
Definition cookie : Z := 0xc0cac01a.

Definition fixturetest_setup (test_data : Z) : ST Fixturetest :=
  s_assert (test_data =? cookie) ;*
  let* p := alloc (map Some (decimal 9 19 ++ [0])) in
  s_ret (MkFix 18 19 (Some p)).

(** [g_ascii_strtoull] of a decimal numeral that does not start with zero *)
Fixpoint numeral_in (l : list (option Z)) : list Z :=
  match l with
  | Some c :: l => if (48 <=? c) && (c <? 58) then c :: numeral_in l else []
  | _ => []
  end.

Definition fixturetest_test (fix_ : Fixturetest) (test_data : Z) : ST unit :=
  s_assert (g_spaced_primes_closest (seed fix_) =? prime fix_) ;*
  let* p := s_some NullDeref (msg fix_) in
  let* l := get_block p in
  s_assert (of_decimal (numeral_in l) =? prime fix_) ;*
  s_assert (test_data =? cookie).

Definition fixturetest_teardown (fix_ : Fixturetest) (test_data : Z) : ST unit :=
  s_assert (test_data =? cookie) ;*
  g_free (msg fix_).

(** The two loops of [int_hash_test]: [values] is at the addresses 0 to 19,
    [key] at 20. *)
Fixpoint fill_loop (n : nat) (i : nat) (m : cells) (h : T) : cells * T :=
  match n with
  | O => (m, h)
  | S n =>
      let m := set_cell m i (Z.of_nat i + 42) in
      fill_loop n (S i) m (t_insert m h i (Z.of_nat i + 42))
  end.

Fixpoint lookup_loop (n : nat) (i : nat) (m : cells) (h : T) : ST unit :=
  match n with
  | O => s_ret tt
  | S n =>
      let m := set_cell m 20 (Z.of_nat i + 42) in
      let rc := default 0 (t_lookup m h 20) in
      s_assert (rc =? Z.of_nat i + 42) ;*
      lookup_loop n (S i) m h
  end.

Definition int_hash_test (m : cells) : ST unit :=
  let '(m, h) := fill_loop 20 0 m t_new in
  s_assert (t_size h =? 20) ;*
  lookup_loop 20 0 m h.

(** [g_autofree]: the block of a variable is freed where its scope ends. *)
Definition test_autofree : ST unit :=
  let alwaysnull := None in
  let* p := g_malloc 10 in
  let* p2 := g_malloc 42 in
  set_byte p 0 1 ;*
  set_byte p2 0 1 ;*
  (let* buf := g_malloc 128 in
   let alwaysnull_again := None in
   set_byte buf 0 1 ;*
   s_assert (bool_decide (alwaysnull_again = @None nat)) ;*
   g_free alwaysnull_again ;*
   g_free (Some buf)) ;*
  (let* buf2 := g_malloc 256 in
   set_byte buf2 255 42 ;*
   g_free (Some buf2)) ;*
  s_assert (bool_decide (alwaysnull = @None nat)) ;*
  g_free alwaysnull ;*
  g_free (Some p2) ;*
  g_free (Some p).

(** ** The program *)

Inductive case : Type := Autofree | IntHash | Tt | Td | T1.

(** A registered test; [a] is the [v] of the [A] in [main], [m] what its stack
    holds when it is called. *)
Definition run_case (a : Z) (m : cells) (c : case) : ST unit :=
  match c with
  | Autofree => test_autofree
  | IntHash => int_hash_test m
  | Tt => test
  | Td => foo a
  | T1 =>
      let* f := fixturetest_setup cookie in
      fixturetest_test f cookie ;*
      fixturetest_teardown f cookie
  end.

Fixpoint g_test_run (a : Z) (l : list (case * cells)) : ST Z :=
  match l with
  | [] => s_ret 0
  | (c, m) :: l => run_case a m c ;* g_test_run a l
  end.

(** [base]: the name that [g_path_get_basename] copies.  [order]: the registered
    tests as GLib runs them. *)
Definition main (base : list Z) (order : list (case * cells)) : ST Z :=
  let* base_name := alloc (map Some (base ++ [0])) in
  g_free (Some base_name) ;*
  let a := 100 in
  let* ret := g_test_run a order in
  print (LMessage a) ;*
  s_ret ret.

End code.

Definition start : St := MkSt ∅ 0 [].

(** ** What they do *)

Lemma set_cell_ne m a v b : a <> b -> set_cell m a v b = m b.
Proof. intros Hne. unfold set_cell. by destruct (Nat.eqb_spec a b). Qed.
Lemma set_cell_eq m a v : set_cell m a v a = v.
Proof. unfold set_cell. by rewrite Nat.eqb_refl. Qed.

(** The first [i] elements of [values] *)
Definition values (i : nat) (m : cells) : Prop := forall j, (j < i)%nat -> m j = Z.of_nat j + 42.

Section specs.
Context {T : Type} `{IntTableLaws T}.
Variable primes : Z -> Z.

(** A table with these as its keys, whatever else is in memory *)
Record filled (i : nat) (h : T) : Prop := {
  fl_keys : forall q, q ∈ t_keys h -> (q < i)%nat;
  fl_size : t_size h = Z.of_nat i;
  fl_lookup : forall m q, values i m ->
    t_lookup m h q = if (42 <=? m q) && (m q <? Z.of_nat i + 42) then Some (m q) else None
}.

Lemma filled_new : filled 0 t_new.
Proof.
  split; [intros q; rewrite new_keys; by intros ?%elem_of_nil|apply new_size|].
  intros m q _. rewrite new_empty. destruct (Z.leb_spec 42 (m q)); [|done].
  cbn. by rewrite (proj2 (Z.ltb_ge _ _)) by lia.
Qed.

Lemma filled_insert i m h : filled i h -> values (S i) m -> filled (S i) (t_insert m h i (Z.of_nat i + 42)).
Proof.
  intros [Hk Hs Hl] Hm. split.
  - intros q Hq. apply insert_keys in Hq as [-> |Hq]; [lia|]. specialize (Hk q Hq). lia.
  - rewrite insert_size, Hs; [lia|]. rewrite Hl by (intros j Hj; apply Hm; lia). rewrite (Hm i) by lia.
    rewrite (proj2 (Z.ltb_ge _ _)) by lia. by rewrite andb_false_r.
  - intros m' q Hm'. rewrite insert_lookup.
    + rewrite (Hm' i), Hl by (lia || intros j Hj; apply Hm'; lia).
      destruct (Z.eqb_spec (Z.of_nat i + 42) (m' q)) as [He|Hne].
      * rewrite <- He, (proj2 (Z.leb_le _ _)), (proj2 (Z.ltb_lt _ _)) by lia. done.
      * destruct (Z.leb_spec 42 (m' q)); [|done]. cbn.
        destruct (Z.ltb_spec (m' q) (Z.of_nat i + 42)), (Z.ltb_spec (m' q) (Z.of_nat (S i) + 42)); done || lia.
    + rewrite (Hm i), (Hm' i) by lia. done.
    + intros k Hkk. specialize (Hk k Hkk). rewrite Hm, Hm' by lia. done.
Qed.

Lemma fill_loop_spec n : forall i m h, filled i h -> values i m ->
  let r := fill_loop n i m h in filled (n + i) r.2 /\ values (n + i) r.1.
Proof.
  induction n as [|n IH]; intros i m h Hh Hm; [done|]. cbn [fill_loop].
  replace (S n + i)%nat with (n + S i)%nat by lia.
  assert (values (S i) (set_cell m i (Z.of_nat i + 42))) as Hm1.
  { intros j Hj. destruct (decide (j = i)) as [-> |Hne]; [apply set_cell_eq|]. rewrite set_cell_ne by done. apply Hm. lia. }
  apply IH; [by apply filled_insert|done].
Qed.

Lemma lookup_loop_spec n : forall i m h s, filled 20 h -> values 20 m -> (n + i <= 20)%nat ->
  lookup_loop n i m h s = OK (tt, s).
Proof.
  induction n as [|n IH]; intros i m h s Hh Hm Hn; [done|]. cbn [lookup_loop].
  assert (values 20 (set_cell m 20 (Z.of_nat i + 42))) as Hm1.
  { intros j Hj. rewrite set_cell_ne by lia. by apply Hm. }
  rewrite (fl_lookup 20 h Hh _ 20 Hm1), set_cell_eq.
  rewrite (proj2 (Z.leb_le _ _)), (proj2 (Z.ltb_lt _ _)) by lia. cbn [andb default].
  rewrite Z.eqb_refl. apply IH; [done|done|lia].
Qed.

(** Every test passes from any state, adds its lines and leaves no block. *)
Definition case_lines (a : Z) (c : case) : list line := match c with Tt => [LTest] | Td => [LValue a] | _ => [] end.

Lemma set_byte_at p i v s l : heap s !! p = Some l -> 0 <= i < Z.of_nat (length l) ->
  set_byte p i v s = OK (tt, MkSt (<[p := <[Z.to_nat i := Some v]> l]> (heap s)) (next s) (out s)).
Proof.
  intros Hp Hi. unfold set_byte, get_block, s_bind. cbn. rewrite Hp. cbn.
  by rewrite (proj2 (Z.leb_le _ _)), (proj2 (Z.ltb_lt _ _)) by lia.
Qed.

Lemma g_free_at p s : is_Some (heap s !! p) -> g_free (Some p) s = OK (tt, MkSt (delete p (heap s)) (next s) (out s)).
Proof. intros [l Hl]. unfold g_free, s_bind. cbn. by rewrite Hl. Qed.

(** What is allocated from [n] on is new. *)
Definition fresh (s : St) : Prop := forall p, (next s <= p)%nat -> heap s !! p = None.

(** One step of a run: an allocation, a release or a write *)
Ltac elsewhere := repeat first [rewrite lookup_delete_ne by lia | rewrite lookup_insert_ne by lia].
Ltac block_step :=
  repeat rewrite s_bind_assoc;
  erewrite s_bind_OK; [|first
    [ reflexivity
    | eapply set_byte_at; [cbn [heap]; elsewhere; apply lookup_insert_eq
                          |rewrite ?length_insert, ?length_replicate; lia]
    | apply g_free_at; cbn [heap]; elsewhere; rewrite lookup_insert_eq; by eexists ]];
  cbn [heap next out].

Lemma test_autofree_spec s : fresh s -> test_autofree s = OK (tt, MkSt (heap s) (4 + next s) (out s)).
Proof.
  destruct s as [h n o]. intros Hf. unfold fresh in Hf. cbn [heap next] in Hf. unfold test_autofree.
  do 15 block_step. rewrite g_free_at by (cbn [heap]; elsewhere; rewrite lookup_insert_eq; by eexists).
  cbn [heap next out]. do 3 f_equal. apply map_eq. intros q.
  destruct (decide (q = n)) as [-> |Hn]; [by rewrite lookup_delete_eq, Hf|].
  destruct (decide (q = S n)) as [-> |Hn1]; [elsewhere; by rewrite lookup_delete_eq, Hf by lia|].
  destruct (decide (q = S (S n))) as [-> |Hn2]; [elsewhere; by rewrite lookup_delete_eq, Hf by lia|].
  destruct (decide (q = S (S (S n)))) as [-> |Hn3]; [elsewhere; by rewrite lookup_delete_eq, Hf by lia|].
  by elsewhere.
Qed.

(** The text of the fixture is read back as its prime. *)
Lemma fixture_spec s : fresh s -> primes 18 = 19 ->
  (let* f := fixturetest_setup cookie in fixturetest_test primes f cookie ;* fixturetest_teardown f cookie) s =
    OK (tt, MkSt (heap s) (S (next s)) (out s)).
Proof.
  destruct s as [h n o]. intros Hf Hp. unfold fresh in Hf. cbn [heap next] in Hf.
  unfold fixturetest_setup, fixturetest_test, fixturetest_teardown, get_block.
  do 3 block_step. cbn [seed prime msg]. rewrite Hp.
  do 2 block_step. block_step. rewrite lookup_insert_eq. do 3 block_step. block_step.
  rewrite g_free_at by (cbn [heap]; rewrite lookup_insert_eq; by eexists). cbn [heap next out]. do 3 f_equal.
  apply delete_insert_id, Hf. done.
Qed.

Lemma run_case_spec a m c s : fresh s -> primes 18 = 19 -> exists k,
  run_case primes a m c s = OK (tt, MkSt (heap s) (k + next s) (out s ++ case_lines a c)).
Proof.
  intros Hf Hp. destruct c; cbn [run_case case_lines]; rewrite ?app_nil_r.
  - exists 4%nat. by apply test_autofree_spec.
  - exists 0%nat. unfold int_hash_test. destruct (fill_loop_spec 20 0 m t_new filled_new) as [Hh Hm]; [intros j; lia|].
    destruct (fill_loop 20 0 m t_new) as [m' h]. cbn [fst snd Nat.add] in Hh, Hm. rewrite (fl_size _ _ Hh).
    unfold s_bind. cbn [s_assert Z.eqb]. change (Z.of_nat 20 =? 20) with true. cbn [s_assert]. unfold s_ret.
    rewrite (lookup_loop_spec 20 0 m' h s) by (done || lia). by destruct s.
  - by exists 0%nat.
  - by exists 0%nat.
  - exists 1%nat. by apply fixture_spec.
Qed.

Lemma g_test_run_spec a l : forall s, fresh s -> primes 18 = 19 -> exists k,
  g_test_run primes a l s = OK (0, MkSt (heap s) (k + next s) (out s ++ concat (map (fun c => case_lines a c.1) l))).
Proof.
  induction l as [|[c m] l IH]; intros s Hf Hp; cbn [g_test_run map concat].
  { exists 0%nat. rewrite app_nil_r. by destruct s. }
  destruct (run_case_spec a m c s Hf Hp) as [k Hk]. rewrite (s_bind_OK _ _ _ _ _ Hk).
  destruct (IH (MkSt (heap s) (k + next s) (out s ++ case_lines a c))) as [k' Hk']; [|done|].
  - intros p Hle. cbn in Hle |- *. apply Hf. lia.
  - exists (k' + k)%nat. rewrite Hk'. cbn. by rewrite <- app_assoc, Nat.add_assoc.
Qed.

(** In whatever order GLib runs the registered tests, with whatever is on the
    stack, and with any table that keeps the promises of [IntTable], every
    assertion holds, no block is left, and the lines come in the order of the
    tests. *)
Theorem all_tests_pass (base : list Z) (order : list (case * cells)) : primes 18 = 19 -> exists k,
  main primes base order start =
    OK (0, MkSt ∅ k (concat (map (fun c => case_lines 100 c.1) order) ++ [LMessage 100])).
Proof.
  intros Hp. unfold main, start. do 2 block_step. rewrite delete_insert_id by done.
  destruct (g_test_run_spec 100 order (MkSt ∅ 1 [])) as [k Hk]; [intros p _; apply lookup_empty|done|].
  exists (k + 1)%nat. rewrite (s_bind_OK _ _ _ _ _ Hk). by block_step.
Qed.

End specs.

(** ** A table that keeps the promises: the pointers with their values *)

Fixpoint assoc_lookup (m : cells) (t : list (nat * Z)) (q : nat) : option Z :=
  match t with [] => None | (p, v) :: t => if m p =? m q then Some v else assoc_lookup m t q end.

#[export] Instance assoc_table : IntTable (list (nat * Z)) := {
  t_new := [];
  t_keys := map fst;
  t_insert m t p v := (p, v) :: t;
  t_lookup := assoc_lookup;
  t_size t := Z.of_nat (length t)
}.

#[export] Instance assoc_laws : IntTableLaws (list (nat * Z)).
Proof.
  split; try done.
  - intros m t p v _. cbn. lia.
  - intros m t p v q. cbn. by rewrite elem_of_cons.
Qed.

Lemma all_tests_pass_witness : exists k,
  main (fun n => n + 1) [97] [(Tt, fun _ => 0); (T1, fun _ => 0); (IntHash, fun _ => 7); (Td, fun _ => 0); (Autofree, fun _ => 0)] start =
    OK (0, MkSt ∅ k [LTest; LValue 100; LMessage 100]).
Proof.
  exact (all_tests_pass (fun n => n + 1) [97]
    [(Tt, fun _ => 0); (T1, fun _ => 0); (IntHash, fun _ => 7); (Td, fun _ => 0); (Autofree, fun _ => 0)] eq_refl).
Defined.
