(* ===== verification/PdfObjects.v ===== *)
(** * Objects of a PDF made and dropped: [mupdf/t.c]

    The program opens a document, makes objects of each kind, puts them into an
    array and a dictionary, and drops what it has made.  The references it holds
    are counted; which calls of MuPDF throw is a parameter. *)

From S2P Require Import Prelude FzTry.

Local Open Scope Z_scope.
Local Open Scope ex_scope.

(** What is put into an array or a dictionary: an object or a constant *)
Inductive item : Type := Obj (o : nat) | Bool (b : bool) | Null.

(** The context and the document, the objects the program has a reference to,
    how many were made, what was put where, and how often the library was called *)
Record St : Type := MkSt {
  ctx : bool; doc : bool; owned : list nat; made : nat; puts : list (nat * item); calls : nat
}.
Notation EX := (EX St).

Definition EXIT_FAILURE : Z := 1.

Section code.
Variable throws : nat -> bool.

(** The context is read by every function. *)
Definition with_ctx {A} (c : EX A) : EX A := fun s => if ctx s then c s else Er NullDeref.

Definition call : EX unit := with_ctx (fun s =>
  OK (if throws (calls s) then Thrown else Ended tt, MkSt (ctx s) (doc s) (owned s) (made s) (puts s) (S (calls s)))).

(** A call with an object: it must be one the program has a reference to. *)
Definition use (o : nat) : EX unit := fun s =>
  if existsb (Nat.eqb o) (owned s) then OK (Ended tt, s) else Er OutOfBounds.

Definition new_obj : EX nat :=
  call ;^ (fun s => OK (Ended (made s), MkSt (ctx s) (doc s) (owned s ++ [made s]) (S (made s)) (puts s) (calls s))).

Definition drop_obj (o : nat) : EX unit := with_ctx (
  use o ;^ e_mod (fun s => MkSt (ctx s) (doc s) (List.filter (fun x => negb (Nat.eqb o x)) (owned s)) (made s) (puts s) (calls s))).

(** Putting an object takes a reference of its own. *)
Definition put (c : nat) (i : item) : EX unit :=
  use c ;^
  match i with Obj o => use o | _ => e_ret tt end ;^
  call ;^
  e_mod (fun s => MkSt (ctx s) (doc s) (owned s) (made s) (puts s ++ [(c, i)]) (calls s)).

Definition new_context (ok : bool) : EX unit := e_mod (fun s => MkSt ok (doc s) (owned s) (made s) (puts s) (calls s)).
Definition drop_context : EX unit := e_mod (fun s => MkSt false (doc s) (owned s) (made s) (puts s) (calls s)).
Definition open_document : EX unit :=
  call ;^ e_mod (fun s => MkSt (ctx s) true (owned s) (made s) (puts s) (calls s)).
Definition drop_document : EX unit :=
  with_ctx (e_mod (fun s => MkSt (ctx s) false (owned s) (made s) (puts s) (calls s))).

(** An exception that nothing catches ends the process. *)
Definition main (context : bool) : EX Z :=
  new_context context ;^
  let^ ok := with_ctx (fz_try (open_document ;^ e_ret true) (e_ret false)) in
  if negb ok then drop_context ;^ e_ret EXIT_FAILURE else
  let^ Int := new_obj in
  let^ Real := new_obj in
  let^ Str := new_obj in
  let^ Name := new_obj in
  let^ ar := new_obj in
  put ar (Obj Int) ;^
  put ar (Obj Real) ;^
  put ar (Obj Str) ;^
  put ar (Bool true) ;^
  put ar (Bool false) ;^
  put ar Null ;^
  let^ dict := new_obj in
  put dict (Obj Int) ;^
  put dict (Obj Real) ;^
  put dict (Obj Str) ;^
  put dict (Obj Name) ;^
  put dict (Obj ar) ;^
  let^ ref := new_obj in
  drop_obj Int ;^
  drop_obj Real ;^
  drop_obj Str ;^
  drop_obj Name ;^
  drop_obj ar ;^
  drop_obj dict ;^
  drop_obj ref ;^
  drop_document ;^
  drop_context ;^
  e_ret 0.

End code.

Definition start : St := MkSt false false [] 0 [] 0.

(** The array holds three objects, two truth values and null, the dictionary
    four objects and the array. *)
Definition all_puts : list (nat * item) :=
  map (pair 4%nat) [Obj 0; Obj 1; Obj 2; Bool true; Bool false; Null] ++
  map (pair 5%nat) [Obj 0; Obj 1; Obj 2; Obj 3; Obj 4].

(** The operations with a context and a document *)
Section steps.
Variable throws : nat -> bool.
Context (l : list nat) (n k : nat) (p : list (nat * item)).
Notation s := (MkSt true true l n p k).

Lemma bind_new {A} (f : nat -> EX A) : e_bind (new_obj throws) f s =
  if throws k then OK (Thrown, MkSt true true l n p (S k)) else f n (MkSt true true (l ++ [n]) (S n) p (S k)).
Proof. unfold new_obj, e_bind, call, with_ctx. cbn. by destruct (throws k). Qed.

Lemma bind_put {A} c i (f : unit -> EX A) :
  existsb (Nat.eqb c) l && match i with Obj o => existsb (Nat.eqb o) l | _ => true end = true ->
  e_bind (put throws c i) f s =
    if throws k then OK (Thrown, MkSt true true l n p (S k)) else f tt (MkSt true true l n (p ++ [(c, i)]) (S k)).
Proof.
  intros [Hc Hi]%andb_true_iff. unfold put, use, e_bind, call, with_ctx. cbn. rewrite Hc.
  destruct i as [o|b|]; cbn; [rewrite Hi; cbn| |]; by destruct (throws k).
Qed.

Lemma bind_drop {A} o (f : unit -> EX A) : existsb (Nat.eqb o) l = true ->
  e_bind (drop_obj o) f s = f tt (MkSt true true (List.filter (fun x => negb (Nat.eqb o x)) l) n p k).
Proof. intros Ho. unfold drop_obj, use, e_bind, with_ctx. cbn. by rewrite Ho. Qed.
End steps.

(** The program makes no use of an object it has dropped, and drops each once.
    It ends with everything released, after having put all its objects in place,
    or at once when the document cannot be opened; it reads through null when
    there is no context, and dies of the first exception after the document
    was opened, since no [fz_try] is around it. *)
Theorem objects_dropped (throws : nat -> bool) (context : bool) :
  match main throws context start with
  | OK (Ended r, s) =>
      ctx s = false /\ doc s = false /\ owned s = [] /\
      ((r = 0 /\ puts s = all_puts /\ (forall k, (k < 19)%nat -> throws k = false)) \/
       (r = EXIT_FAILURE /\ throws 0%nat = true))
  | OK (Thrown, s) => doc s = true /\ exists k, (0 < k < 19)%nat /\ throws k = true
  | Er e => context = false /\ e = NullDeref
  end.
Proof.
  destruct context; [|done]. unfold main, e_bind at 1. cbn [new_context e_mod].
  unfold e_bind at 1, with_ctx, fz_try, open_document, e_bind at 1 2, call, with_ctx. cbn [ctx start calls doc owned made puts].
  destruct (throws 0%nat) eqn:H0; cbn [e_mod e_ret negb ctx doc owned made puts calls]; [by naive_solver|].
  do 18 (first [rewrite bind_new | rewrite bind_put by done];
    match goal with |- context [throws ?k] => destruct (throws k) eqn:?;
    [split; [done|]; exists k; split; [lia|done]|] end; cbn [app]).
  rewrite !bind_drop by done. cbn. repeat (split; [done|]). left. repeat (split; [done|]). intros k Hk.
  do 19 (destruct k as [|k]; [done|]). lia.
Qed.
