(* ===== verification/PrintText.v ===== *)
(** * Text of a PDF: [mupdf/print_text.c]

    The program opens a document with MuPDF, prints the text of its pages and
    saves it under another name.  MuPDF throws exceptions (by [longjmp]) that
    [main] catches; where it throws, what the document holds and how a rune is
    written in UTF-8 are parameters.

    [live] counts what has been made and not been dropped. *)

From S2P Require Import Prelude FzTry.

Local Open Scope Z_scope.
Local Open Scope ex_scope.

(** ** The document, as MuPDF shows it *)

(** A block of a page: text as lines of runes, or something else *)
Inductive block : Type := Text (lines : list (list Z)) | OtherBlock.

Record page : Type := MkPage {
  p_load : bool;                    (* [fz_load_page] does not throw *)
  p_stext : bool;                   (* nor does [fz_new_stext_page_from_page] *)
  p_blocks : list block
}.

(** ** State *)

Record live : Type := MkLive { contexts : Z; documents : Z; pages : Z; stext_pages : Z }.
Record St : Type := MkSt { lives : live; out : list Z }.

Notation EX := (FzTry.EX St).

Definition add_live (c d p x : Z) : EX unit := e_mod (fun s =>
  let l := lives s in MkSt (MkLive (contexts l + c) (documents l + d) (pages l + p) (stext_pages l + x)) (out s)).
Definition print (l : list Z) : EX unit := e_mod (fun s => MkSt (lives s) (out s ++ l)).

(** ** The program *)

Section code.
(** [fz_runetochar]: the bytes it writes *)
Variable runetochar : Z -> list Z.

(** [printf("%s")] prints up to the first null byte. *)
Fixpoint until_null (l : list Z) : list Z :=
  match l with [] => [] | c :: l => if c =? 0 then [] else c :: until_null l end.

(** [char buf[8]]; [buf[num] = 0] *)
Definition print_char (c : Z) : EX unit :=
  let l := runetochar c in
  if Z.of_nat (length l) <? 8 then print (until_null l) else (fun _ => Er OutOfBounds).

Fixpoint each {A} (f : A -> EX unit) (l : list A) : EX unit :=
  match l with [] => e_ret tt | a :: l => f a ;^ each f l end.

Definition print_block (b : block) : EX unit :=
  match b with
  | OtherBlock => e_ret tt
  | Text lines => each (each print_char) lines ;^ print [10]
  end.

Definition handle_page (p : page) : EX unit :=
  may_throw (p_stext p) ;^
  add_live 0 0 0 1 ;^
  each print_block (p_blocks p) ;^
  add_live 0 0 0 (-1).

(** The body of the loop of [handle_pdf] *)
Definition page_round (p : page) : EX unit :=
  may_throw (p_load p) ;^
  add_live 0 0 1 0 ;^
  handle_page p ;^
  add_live 0 0 (-1) 0.

(** [count]: [fz_count_pages] does not throw. *)
Definition handle_pdf (count : bool) (ps : list page) : EX unit :=
  may_throw count ;^
  each page_round ps.

(** The answers of the library to [main] *)
Record answers : Type := MkAns {
  a_context : bool; a_register : bool; a_open : bool; a_count : bool; a_save : bool
}.

Definition EXIT_SUCCESS : Z := 0.
Definition EXIT_FAILURE : Z := 1.

(** [main] with [argc]; the lines it prints itself are left out. *)
Definition main (argc : Z) (a : answers) (ps : list page) : EX Z :=
  if argc <? 3 then e_ret EXIT_FAILURE else
  if negb (a_context a) then e_ret EXIT_FAILURE else
  add_live 1 0 0 0 ;^
  let^ ok := fz_try (may_throw (a_register a) ;^ e_ret true) (e_ret false) in
  if negb ok then add_live (-1) 0 0 0 ;^ e_ret EXIT_FAILURE else
  let^ ok := fz_try (may_throw (a_open a) ;^ add_live 0 1 0 0 ;^ e_ret true) (e_ret false) in
  if negb ok then add_live (-1) 0 0 0 ;^ e_ret EXIT_FAILURE else
  let^ ok := fz_try (handle_pdf (a_count a) ps ;^ may_throw (a_save a) ;^ e_ret true) (e_ret false) in
  if negb ok then add_live 0 (-1) 0 0 ;^ add_live (-1) 0 0 0 ;^ e_ret EXIT_FAILURE else
  add_live 0 (-1) 0 0 ;^
  add_live (-1) 0 0 0 ;^
  e_ret EXIT_SUCCESS.

(** ** What it prints *)

Definition char_text (c : Z) : list Z := until_null (runetochar c).
Definition block_text (b : block) : list Z :=
  match b with Text lines => concat (map (fun l => concat (map char_text l)) lines) ++ [10] | OtherBlock => [] end.
Definition page_text (p : page) : list Z := concat (map block_text (p_blocks p)).

(** The pages up to the first at which MuPDF throws, and that page *)
Fixpoint good_pages (ps : list page) : list page * option page :=
  match ps with
  | [] => ([], None)
  | p :: ps => if p_load p && p_stext p then let '(l, o) := good_pages ps in (p :: l, o) else ([], Some p)
  end.

(** The library writes at most seven bytes for a rune (its documentation: four). *)
Hypothesis Hrune : forall c, (length (runetochar c) <= 7)%nat.

Definition says (s : St) (l : list Z) : St := MkSt (lives s) (out s ++ l).

Lemma each_says {A} (f : A -> EX unit) (g : A -> list Z) l s :
  (forall a s, f a s = OK (Ended tt, says s (g a))) -> each f l s = OK (Ended tt, says s (concat (map g l))).
Proof.
  intros Hf. revert s. induction l as [|a l IH]; intros s; cbn [each map concat].
  - unfold says. rewrite app_nil_r. by destruct s.
  - unfold e_bind. rewrite Hf, IH. unfold says. cbn. by rewrite app_assoc.
Qed.

Lemma print_block_says b s : print_block b s = OK (Ended tt, says s (block_text b)).
Proof.
  destruct b as [lines|]; cbn [print_block block_text].
  - unfold e_bind at 1. rewrite (each_says _ (fun l => concat (map char_text l))).
    + unfold says, print, e_mod. cbn. by rewrite app_assoc.
    + intros l s'. apply each_says. intros c s2. unfold print_char. specialize (Hrune c).
      by rewrite (proj2 (Z.ltb_lt _ _)) by lia.
  - unfold says. rewrite app_nil_r. by destruct s.
Qed.

(** What is left behind when a page throws *)
Definition leaked (o : option page) (l : live) : live :=
  match o with
  | Some p => MkLive (contexts l) (documents l) (pages l + if p_load p then 1 else 0) (stext_pages l)
  | None => l
  end.

Lemma live_back l : MkLive (contexts l + 0) (documents l + 0) (pages l + 1 + -1) (stext_pages l + 0) = l.
Proof. destruct l as [c d p x]. cbn. f_equal; lia. Qed.

Lemma handle_pages_says ps s : let '(l, o) := good_pages ps in
  each page_round ps s =
    OK (if o then Thrown else Ended tt, MkSt (leaked o (lives s)) (out s ++ concat (map page_text l))).
Proof.
  revert s. induction ps as [|p ps IH]; intros s; cbn [good_pages each].
  - cbn. rewrite app_nil_r. by destruct s.
  - unfold page_round at 1. destruct (p_load p) eqn:Hl; cbn [andb may_throw].
    2:{ unfold e_bind, e_throw. cbn. rewrite Hl, Z.add_0_r, app_nil_r. by destruct s as [[] ?]. }
    destruct (p_stext p) eqn:Hx; cbn [andb].
    2:{ unfold e_bind, handle_page, e_bind. rewrite Hx. cbn. rewrite Hl, !Z.add_0_r, app_nil_r. done. }
    specialize (IH (says s (page_text p))). destruct (good_pages ps) as [l o].
    assert (handle_page p (MkSt (MkLive (contexts (lives s) + 0) (documents (lives s) + 0) (pages (lives s) + 1) (stext_pages (lives s) + 0)) (out s)) =
      OK (Ended tt, MkSt (MkLive (contexts (lives s)) (documents (lives s)) (pages (lives s) + 1) (stext_pages (lives s))) (out s ++ page_text p)))
      as Hpage.
    { unfold handle_page, e_bind at 1. rewrite Hx. cbn [may_throw]. unfold e_ret, e_bind at 1. unfold add_live at 1, e_mod. unfold e_bind at 1.
      rewrite (each_says print_block block_text _ _ print_block_says). unfold says, add_live, e_mod. cbn. rewrite !Z.add_0_r. by replace (stext_pages (lives s) + 1 + -1) with (stext_pages (lives s)) by lia. }
    unfold e_bind at 1. unfold e_ret. unfold e_bind at 1. unfold add_live at 1, e_mod. unfold e_bind at 1. unfold e_bind at 1. rewrite Hpage.
    unfold add_live at 1, e_mod. cbn [lives out contexts documents pages stext_pages]. rewrite live_back.
    change (MkSt (lives s) (out s ++ page_text p)) with (says s (page_text p)). rewrite IH. unfold says. cbn. by rewrite <- app_assoc.
Qed.

End code.

Definition nothing : live := MkLive 0 0 0 0.

(** C39: a run prints the text of the text blocks, a line feed after each (not
    after each line), page by page, up to the first page that MuPDF cannot load
    or extract; it succeeds when there is none and the document can be saved.
    Document and context are always released; of a page that could be loaded
    but not extracted, the page is not. *)
Theorem text_is_printed (runetochar : Z -> list Z) (argc : Z) (a : answers) (ps : list page) :
  (forall c, (length (runetochar c) <= 7)%nat) ->
  let '(l, o) := good_pages ps in
  let started := (3 <=? argc) && a_context a && a_register a && a_open a && a_count a in
  main runetochar argc a ps (MkSt nothing []) =
    OK (Ended (if started && bool_decide (o = None) && a_save a then EXIT_SUCCESS else EXIT_FAILURE),
      if started then MkSt (leaked o nothing) (concat (map (page_text runetochar) l)) else MkSt nothing []).
Proof.
  intros Hrune. pose proof (handle_pages_says runetochar Hrune ps (MkSt (MkLive 1 1 0 0) [])) as Hpages.
  destruct (good_pages ps) as [l o]. unfold main. rewrite Z.leb_antisym.
  destruct (argc <? 3); cbn [negb andb]; [done|].
  destruct a as [[] [] [] [] save]; cbn [a_context a_register a_open a_count a_save negb andb]; try done.
  cbn -[handle_pdf]. unfold handle_pdf. unfold fz_try, e_bind. cbn [may_throw]. unfold e_ret at 1.
  change (0 + 1 + 0) with 1. change (0 + 0 + 1) with 1. change (0 + 0 + 0) with 0.
  rewrite Hpages. destruct o as [[[] ? ?]|]; [done|done|]. by destruct save.
Qed.

(** Two pages, of which the second cannot be extracted *)
Lemma text_is_printed_witness :
  let ps := [MkPage true true [Text [[72]; [105]]; OtherBlock]; MkPage true false []] in
  main (fun c => [c]) 3 (MkAns true true true true true) ps (MkSt nothing []) =
    OK (Ended EXIT_FAILURE, MkSt (MkLive 0 0 1 0) [72; 105; 10]).
Proof.
  intros ps. refine (text_is_printed (fun c => [c]) 3 (MkAns true true true true true) ps _).
  intros c. cbn. lia.
Defined.
