(* ===== verification/ReplaceFonts.v ===== *)
(** * Replacing fonts of a PDF: [mupdf/replace_builtin.c]

    Fonts that are declared with the encoding of Windows but have a Chinese name
    in GBK are replaced by a font that MuPDF makes.  The objects of MuPDF are
    behind an interface: the class [Pdf] has the functions the program calls,
    [PdfLaws] what it relies on.  Objects are meant up to indirection, which the
    functions of MuPDF resolve.  Which calls throw is a parameter. *)

From S2P Require Import Prelude Bytes FzTry.

Local Open Scope Z_scope.
Local Open Scope ex_scope.

Notation name := (list Z).

(** ** The interface *)

Class Pdf (D obj : Type) : Type := {
  count_pages : D -> nat;
  page_resources : D -> nat -> option obj;
  is_dict : D -> option obj -> bool;
  is_name : D -> option obj -> bool;
  to_name : D -> option obj -> name;            (* empty when it is not a name *)
  dict_gets : D -> obj -> name -> option obj;
  dict_len : D -> obj -> nat;
  dict_get_key : D -> obj -> nat -> option obj;
  dict_puts : D -> obj -> name -> obj -> D;
  new_name : D -> name -> obj * D;
  add_cjk_font : D -> obj * D                   (* simplified Chinese, horizontal, with serifs *)
}.

(** A key that is there is given a new value, and nothing else is touched.  The
    keys keep their places in a dictionary of at most a hundred entries: MuPDF
    sorts a larger one that is not sorted when something is put into it. *)
Class PdfLaws (D obj : Type) `{Pdf D obj, EqDecision obj} : Prop := {
  gets_puts d o k x o' k' : is_Some (dict_gets d o k) ->
    dict_gets (dict_puts d o k x) o' k' = if decide (o' = o /\ k' = k) then Some x else dict_gets d o' k';
  puts_pages d o k x : count_pages (dict_puts d o k x) = count_pages d /\
    forall p, page_resources (dict_puts d o k x) p = page_resources d p;
  puts_kinds d o k x y : is_dict (dict_puts d o k x) y = is_dict d y /\
    is_name (dict_puts d o k x) y = is_name d y /\ to_name (dict_puts d o k x) y = to_name d y;
  puts_keys d o k x o' : is_Some (dict_gets d o k) ->
    dict_len (dict_puts d o k x) o' = dict_len d o' /\
    ((dict_len d o' <= 100)%nat -> forall j, dict_get_key (dict_puts d o k x) o' j = dict_get_key d o' j);
  none_kind d : is_dict d None = false /\ is_name d None = false
}.

Definition sFont : name := [70; 111; 110; 116].
Definition sEncoding : name := [69; 110; 99; 111; 100; 105; 110; 103].
Definition sBaseFont : name := [66; 97; 115; 101; 70; 111; 110; 116].
Definition sWinAnsi : name := [87; 105; 110; 65; 110; 115; 105; 69; 110; 99; 111; 100; 105; 110; 103].
Definition sGBK : name := [71; 66; 75; 45; 69; 85; 67; 45; 72].

(** ** State *)

(** What has been made and not been dropped *)
Record held : Type := MkHeld { contexts : Z; documents : Z; pages : Z; fonts_held : Z; objects : Z }.

(** The document, the number of calls so far, and what has been written *)
Record St (D : Type) : Type := MkSt { pdf : D; calls : nat; refs : held; saved : option D }.
Arguments MkSt {D} _ _ _ _.
Arguments pdf {D} _.
Arguments calls {D} _.
Arguments refs {D} _.
Arguments saved {D} _.

Definition EXIT_SUCCESS : Z := 0.
Definition EXIT_FAILURE : Z := 1.

Section code.
Context {D obj : Type} `{Pdf D obj}.
(** Which calls of the library throw, by their number.  The functions named
    [pdf_is_] and [pdf_to_], the dropping functions and [pdf_dict_len] do not. *)
Variable throws : nat -> bool.

Notation EX := (EX (St D)).

Definition tick (s : St D) : St D := MkSt (pdf s) (S (calls s)) (refs s) (saved s).
Definition call {A} (f : D -> A) : EX A := fun s =>
  OK (if throws (calls s) then Thrown else Ended (f (pdf s)), tick s).
Definition change {A} (f : D -> A * D) : EX A := fun s =>
  if throws (calls s) then OK (Thrown, tick s)
  else OK (Ended (f (pdf s)).1, MkSt (f (pdf s)).2 (S (calls s)) (refs s) (saved s)).
Definition look {A} (f : D -> A) : EX A := e_get (fun s => f (pdf s)).
Definition hold (c d p f o : Z) : EX unit := e_mod (fun s =>
  let h := refs s in
  MkSt (pdf s) (calls s) (MkHeld (contexts h + c) (documents h + d) (pages h + p) (fonts_held h + f) (objects h + o)) (saved s)).

(** The font the others are replaced by *)
Definition build_ckj_font : EX obj :=
  call (fun _ => tt) ;^            (* fz_new_cjk_font *)
  hold 0 0 0 1 0 ;^
  let^ font_obj := change add_cjk_font in
  hold 0 0 0 0 1 ;^
  let^ n := change (fun d => new_name d sGBK) in
  hold 0 0 0 0 1 ;^
  change (fun d => (tt, dict_puts d font_obj sEncoding n)) ;^
  e_ret font_obj.

(** [*(uint32_t* )fontname]: the name and the null byte behind it *)
Definition read_u32 (l : name) : res Z :=
  match l ++ [0] with
  | a :: b :: c :: e :: _ => OK (le_value [a; b; c; e])
  | _ => Er OutOfBounds
  end.

(** The cases of the [switch] *)
Definition is_gbk (v : Z) : bool := (v =? 0xe5cccecb) || (v =? 0xe5ccdaba) || (v =? 0xe5ccacbf).

(** The body of the loop over the fonts; a null pointer is not a dictionary. *)
Definition font_round (fonts font_obj : obj) (j : nat) : EX unit :=
  let^ key_obj := call (fun d => dict_get_key d fonts j) in
  let^ key := look (fun d => to_name d key_obj) in
  let^ font := call (fun d => dict_gets d fonts key) in
  match font with
  | None => e_ret tt
  | Some f =>
      let^ b := look (fun d => is_dict d (Some f)) in
      if negb b then e_ret tt else
      let^ enc := call (fun d => dict_gets d f sEncoding) in
      let^ encoding := look (fun d => to_name d enc) in
      if negb (bool_decide (encoding = sWinAnsi)) then e_ret tt else
      let^ bf := call (fun d => dict_gets d f sBaseFont) in
      let^ b := look (fun d => is_name d bf) in
      if negb b then e_ret tt else
      let^ fontname := look (fun d => to_name d bf) in
      match read_u32 fontname with
      | OK v => if is_gbk v then change (fun d => (tt, dict_puts d fonts key font_obj)) else e_ret tt
      | Er e => e_fail e
      end
  end.

(** [n] rounds from [j] on *)
Fixpoint font_loop (fonts font_obj : obj) (n j : nat) : EX unit :=
  match n with
  | O => e_ret tt
  | S n => font_round fonts font_obj j ;^ font_loop fonts font_obj n (S j)
  end.

Definition handle_page (font_obj : obj) (p : nat) : EX unit :=
  let^ r := call (fun d => page_resources d p) in
  match r with
  | Some resources =>
      let^ b := look (fun d => is_dict d (Some resources)) in
      if negb b then e_ret tt else
      let^ f := call (fun d => dict_gets d resources sFont) in
      match f with
      | Some fonts =>
          let^ b := look (fun d => is_dict d (Some fonts)) in
          if negb b then e_ret tt else
          let^ fontCount := look (fun d => dict_len d fonts) in
          font_loop fonts font_obj fontCount 0
      | None => e_ret tt
      end
  | None => e_ret tt
  end.

Fixpoint page_loop (font_obj : obj) (n i : nat) : EX unit :=
  match n with
  | O => e_ret tt
  | S n =>
      call (fun _ => tt) ;^        (* pdf_load_page *)
      hold 0 0 1 0 0 ;^
      handle_page font_obj i ;^
      hold 0 0 (-1) 0 0 ;^
      page_loop font_obj n (S i)
  end.

Definition handle_pdf : EX unit :=
  let^ font_obj := build_ckj_font in
  let^ page_count := call count_pages in
  page_loop font_obj page_count 0.

Definition save : EX unit :=
  call (fun _ => tt) ;^
  e_mod (fun s => MkSt (pdf s) (calls s) (refs s) (Some (pdf s))).

(** [main]; [context] is whether there is one, and the document is that of the
    file [argv[1]].  The lines it prints are left out. *)
Definition main (context : bool) : EX Z :=
  if negb context then e_ret EXIT_FAILURE else
  hold 1 0 0 0 0 ;^
  let^ ok := fz_try (call (fun _ => tt) ;^ e_ret true) (e_ret false) in
  if negb ok then hold (-1) 0 0 0 0 ;^ e_ret EXIT_FAILURE else
  let^ ok := fz_try (call (fun _ => tt) ;^ hold 0 1 0 0 0 ;^ e_ret true) (e_ret false) in
  if negb ok then hold (-1) 0 0 0 0 ;^ e_ret EXIT_FAILURE else
  let^ ok := fz_try (handle_pdf ;^ save ;^ e_ret true) (e_ret false) in
  if negb ok then hold 0 (-1) 0 0 0 ;^ hold (-1) 0 0 0 0 ;^ e_ret EXIT_FAILURE else
  hold 0 (-1) 0 0 0 ;^
  hold (-1) 0 0 0 0 ;^
  e_ret EXIT_SUCCESS.

End code.

(** ** What becomes of the document when nothing throws *)

Section results.
Context {D obj : Type} `{Pdf D obj}.

(** Whether a font is to be replaced *)
Definition to_replace (d : D) (font : option obj) : res bool :=
  match font with
  | Some f =>
      if negb (is_dict d font) then OK false else
      if negb (bool_decide (to_name d (dict_gets d f sEncoding) = sWinAnsi)) then OK false else
      let bf := dict_gets d f sBaseFont in
      if negb (is_name d bf) then OK false else
      match read_u32 (to_name d bf) with OK v => OK (is_gbk v) | Er e => Er e end
  | None => OK false
  end.

Fixpoint fonts_result (fonts font_obj : obj) (n j : nat) (d : D) : res D :=
  match n with
  | O => OK d
  | S n =>
      let key := to_name d (dict_get_key d fonts j) in
      match to_replace d (dict_gets d fonts key) with
      | OK b => fonts_result fonts font_obj n (S j) (if b : bool then dict_puts d fonts key font_obj else d)
      | Er e => Er e
      end
  end.

(** The fonts of a page, if it has any *)
Definition fonts_of d (p : nat) : option obj :=
  match page_resources d p with
  | Some r => if is_dict d (Some r) then
      match dict_gets d r sFont with Some f => if is_dict d (Some f) then Some f else None | None => None end else None
  | None => None
  end.

Definition page_result (font_obj : obj) (p : nat) (d : D) : res D :=
  match fonts_of d p with Some fonts => fonts_result fonts font_obj (dict_len d fonts) 0 d | None => OK d end.

Fixpoint pages_result (font_obj : obj) (n i : nat) (d : D) : res D :=
  match n with
  | O => OK d
  | S n => match page_result font_obj i d with OK d => pages_result font_obj n (S i) d | Er e => Er e end
  end.

Definition pdf_result (d : D) : res D :=
  let '(font_obj, d) := add_cjk_font d in
  let '(n, d) := new_name d sGBK in
  let d := dict_puts d font_obj sEncoding n in
  pages_result font_obj (count_pages d) 0 d.

(** *** The program against it *)

Variable throws : nat -> bool.
Notation EX := (EX (St D)).
Notation triple bad P c Q E := (triple (S := St D) bad P c Q E).

Definition thrown : Prop := exists k, throws k = true.

(** The document, what is held, what is saved *)
Definition at_ (d : D) (h : held) (v : option D) (s : St D) : Prop := pdf s = d /\ refs s = h /\ saved s = v.

(** After an exception: the document is one of [X]. *)
Definition broken (X : D -> Prop) (h : held) (v : option D) (s : St D) : Prop :=
  thrown /\ exists d, X d /\ at_ d h v s.

Lemma t_call {A B} bad d h v (X : D -> Prop) (f : D -> A) (g : A -> EX B) Q :
  X d -> triple bad (at_ d h v) (g (f d)) Q (broken X h v) ->
  triple bad (at_ d h v) (e_bind (call throws f) g) Q (broken X h v).
Proof.
  intros HX Hg. apply t_bind with (fun a s => a = f d /\ at_ d h v s).
  - intros s (Hd & Hs). unfold call. destruct (throws (calls s)) eqn:Ht.
    + split; [by eexists|]. by exists d.
    + split; [by rewrite Hd|]. by split.
  - intros a. apply t_pure. by intros ->.
Qed.

Lemma t_call1 {A} bad d h v (f : D -> A) :
  triple bad (at_ d h v) (call throws f) (fun a s => a = f d /\ at_ d h v s) (broken (fun _ => True) h v).
Proof.
  intros s (Hd & Hs). unfold call. destruct (throws (calls s)) eqn:Ht.
  - split; [by eexists|]. by exists d.
  - split; [by rewrite Hd|by split].
Qed.

Lemma t_look {A B} bad d h v (f : D -> A) (g : A -> EX B) Q E :
  triple bad (at_ d h v) (g (f d)) Q E -> triple bad (at_ d h v) (e_bind (look f) g) Q E.
Proof.
  intros Hg. apply t_get. intros a s [Hs <-]. destruct Hs as (Hd & Hr). rewrite Hd. by apply Hg.
Qed.

Lemma t_change {A} bad d h v (X : D -> Prop) (f : D -> A * D) (Q : A -> St D -> Prop) :
  X d -> (forall s, at_ (f d).2 h v s -> Q (f d).1 s) ->
  triple bad (at_ d h v) (change throws f) Q (broken X h v).
Proof.
  intros HX HQ s (Hd & Hs). unfold change. destruct (throws (calls s)) eqn:Ht.
  - split; [by eexists|]. by exists d.
  - rewrite Hd. apply HQ. by split.
Qed.

Definition plus (h : held) (c d p f o : Z) : held :=
  MkHeld (contexts h + c) (documents h + d) (pages h + p) (fonts_held h + f) (objects h + o).

Lemma t_hold bad d h v c m p f o E : triple bad (at_ d h v) (hold c m p f o) (fun _ => at_ d (plus h c m p f o) v) E.
Proof. intros s (Hd & Hh & Hv). cbn. rewrite Hh. by split. Qed.

(** A round changes what [to_replace] says, and nothing when it throws. *)
Lemma font_round_result d h v fonts fo j (X : D -> Prop) : X d ->
  let key := to_name d (dict_get_key d fonts j) in
  let r := to_replace d (dict_gets d fonts key) in
  triple (fun e => r = Er e) (at_ d h v) (font_round throws fonts fo j)
    (fun _ s => exists b, r = OK b /\ at_ (if b : bool then dict_puts d fonts key fo else d) h v s) (broken X h v).
Proof.
  intros HX key r. unfold font_round. apply t_call; [done|]. apply t_look. apply t_call; [done|]. fold key.
  unfold r, to_replace. destruct (dict_gets d fonts key) as [f|]; [|apply t_ret; by exists false].
  apply t_look. destruct (is_dict d (Some f)); cbn [negb]; [|apply t_ret; by exists false].
  apply t_call; [done|]. apply t_look. destruct (bool_decide _); cbn [negb]; [|apply t_ret; by exists false].
  apply t_call; [done|]. apply t_look. destruct (is_name d _); cbn [negb]; [|apply t_ret; by exists false].
  apply t_look. destruct (read_u32 _) as [w|e]; [|by intros s Hs].
  destruct (is_gbk w); [|apply t_ret; by exists false]. apply t_change; [done|]. by exists true.
Qed.

(** The loop stops after some of its rounds when it throws. *)
Lemma font_loop_result fonts fo h v n : forall j d,
  triple (fun e => fonts_result fonts fo n j d = Er e) (at_ d h v) (font_loop throws fonts fo n j)
    (fun _ s => exists d', fonts_result fonts fo n j d = OK d' /\ at_ d' h v s)
    (broken (fun d' => exists m, (m <= n)%nat /\ fonts_result fonts fo m j d = OK d') h v).
Proof.
  induction n as [|n IH]; intros j d; cbn [font_loop fonts_result]; [apply t_ret; by exists d|].
  pose proof (font_round_result d h v fonts fo j
    (fun d' => exists m, (m <= S n)%nat /\ fonts_result fonts fo m j d = OK d')) as Hr. cbv zeta in Hr.
  set (key := to_name d (dict_get_key d fonts j)) in *. destruct (to_replace d (dict_gets d fonts key)) as [b|e] eqn:Eb.
  - set (d1 := if b : bool then dict_puts d fonts key fo else d).
    apply t_bind with (fun _ => at_ d1 h v).
    + eapply t_bad; [|eapply t_weaken; [..|apply Hr]]; [done|done| |done|by exists 0%nat; split; [lia|]].
      intros _ s (b' & [= <-] & Hs). done.
    + intros _. eapply t_weaken; [..|apply IH]; [done|done|]. intros s (Ht & d' & (m & Hm & Hd') & Hs).
      split; [done|]. exists d'. split; [|done]. exists (S m). split; [lia|]. cbn. fold key. by rewrite Eb.
  - intros s Hs. specialize (Hr ltac:(exists 0%nat; split; [lia|done]) s Hs). unfold e_bind.
    destruct (font_round _ _ _ _ s) as [[[[]|] s']|e']; [by destruct Hr as (b' & ? & _)|done|congruence].
Qed.

Lemma handle_page_result fo p h v d :
  triple (fun e => page_result fo p d = Er e) (at_ d h v) (handle_page throws fo p)
    (fun _ s => exists d', page_result fo p d = OK d' /\ at_ d' h v s)
    (broken (fun d' => d' = d \/ exists fonts m, fonts_of d p = Some fonts /\ (m <= dict_len d fonts)%nat /\
       fonts_result fonts fo m 0 d = OK d') h v).
Proof.
  unfold handle_page, page_result, fonts_of. apply t_call; [by left|].
  destruct (page_resources d p) as [r|]; [|apply t_ret; by exists d].
  apply t_look. destruct (is_dict d (Some r)); cbn [negb]; [|apply t_ret; by exists d].
  apply t_call; [by left|]. destruct (dict_gets d r sFont) as [f|]; [|apply t_ret; by exists d].
  apply t_look. destruct (is_dict d (Some f)); cbn [negb]; [|apply t_ret; by exists d].
  apply t_look. eapply t_weaken; [..|apply font_loop_result]; [done|done|].
  intros s (Ht & d' & (m & Hm & Hd') & Hs). split; [done|]. exists d'. split; [|done]. right. by exists f, m.
Qed.

(** *** The document and the program *)

(** What may be held after an exception: the page that was being handled, the
    font, and the objects *)
Definition stuck (h : held) (v : option D) (s : St D) : Prop :=
  thrown /\ exists d p f o, at_ d (plus h 0 0 p f o) v s /\ 0 <= p <= 1 /\ 0 <= f <= 1 /\ 0 <= o <= 2.

Lemma plus_plus h a b c d e a' b' c' d' e' :
  plus (plus h a b c d e) a' b' c' d' e' = plus h (a + a') (b + b') (c + c') (d + d') (e + e').
Proof. destruct h. unfold plus. cbn. f_equal; lia. Qed.

Lemma plus_0 h : plus h 0 0 0 0 0 = h.
Proof. destruct h. unfold plus. cbn. f_equal; lia. Qed.

Lemma broken_stuck X h v p f o s : 0 <= p <= 1 -> 0 <= f <= 1 -> 0 <= o <= 2 ->
  broken X (plus h 0 0 p f o) v s -> stuck h v s.
Proof. intros Hp Hf Ho (Ht & d & _ & Hs). split; [done|]. by exists d, p, f, o. Qed.

Lemma page_loop_result fo n v h : forall i d,
  triple (fun e => pages_result fo n i d = Er e) (at_ d (plus h 0 0 0 1 2) v) (page_loop throws fo n i)
    (fun _ s => exists d', pages_result fo n i d = OK d' /\ at_ d' (plus h 0 0 0 1 2) v s) (stuck h v).
Proof.
  induction n as [|n IH]; intros i d; cbn [page_loop pages_result]; [apply t_ret; by exists d|].
  apply t_bind with (fun _ => at_ d (plus h 0 0 0 1 2) v).
  { eapply t_weaken; [done| | |apply t_call1]; [by intros u s1 [Hu Hs1]|]. intros s. by apply broken_stuck. }
  intros _. eapply t_bind; [apply t_hold|]. intros ?. cbv beta. rewrite plus_plus.
  pose proof (handle_page_result fo i (plus h 0 0 1 1 2) v d) as Hp.
  destruct (page_result fo i d) as [d1|e] eqn:Ep.
  - apply t_bind with (fun _ => at_ d1 (plus h 0 0 1 1 2) v).
    { eapply t_bad; [|eapply t_weaken; [..|exact Hp]]; [done|done| |].
      - by intros _ s (d' & [= <-] & Hs).
      - intros s. by apply broken_stuck. }
    intros _. eapply t_bind; [apply t_hold|]. intros ?. cbv beta. rewrite plus_plus. apply IH.
  - apply t_bind with (fun _ _ => False); [|by intros _ s []].
    eapply t_bad; [|eapply t_weaken; [..|exact Hp]]; [by intros e' [= ->]|done| |].
    + by intros _ s (d' & ? & _).
    + intros s. by apply broken_stuck.
Qed.

Lemma handle_pdf_result d v h :
  triple (fun e => pdf_result d = Er e) (at_ d h v) (handle_pdf throws)
    (fun _ s => exists d', pdf_result d = OK d' /\ at_ d' (plus h 0 0 0 1 2) v s) (stuck h v).
Proof.
  unfold handle_pdf, pdf_result, build_ckj_font. destruct (add_cjk_font d) as [fo d1] eqn:E1.
  destruct (new_name d1 sGBK) as [n d2] eqn:E2. set (d3 := dict_puts d2 fo sEncoding n).
  rewrite <- (plus_0 h) at 1. apply t_bind with (fun x s => x = fo /\ at_ d3 (plus h 0 0 0 1 2) v s).
  - apply t_bind with (fun _ => at_ d (plus h 0 0 0 0 0) v).
    { eapply t_weaken; [done| | |apply t_call1]; [by intros u s1 [Hu Hs1]|]. intros s. by apply broken_stuck. }
    intros _. eapply t_bind; [apply t_hold|]. intros ?. cbv beta. rewrite plus_plus.
    apply t_bind with (fun x s => x = fo /\ at_ d1 (plus h 0 0 0 1 0) v s).
    { eapply t_exn; [|apply (t_change _ _ _ _ (fun _ => True)); [done|rewrite E1; done]]. intros s. by apply broken_stuck. }
    intros x. apply t_pure. intros ->. eapply t_bind; [apply t_hold|]. intros ?. cbv beta. rewrite plus_plus.
    apply t_bind with (fun x s => x = n /\ at_ d2 (plus h 0 0 0 1 1) v s).
    { eapply t_exn; [|apply (t_change _ _ _ _ (fun _ => True)); [done|rewrite E2; done]]. intros s. by apply broken_stuck. }
    intros x. apply t_pure. intros ->. eapply t_bind; [apply t_hold|]. intros ?. cbv beta. rewrite plus_plus.
    apply t_bind with (fun _ => at_ d3 (plus h 0 0 0 1 2) v).
    { eapply t_exn; [|apply (t_change _ _ _ _ (fun _ => True)); [done|done]]. intros s. by apply broken_stuck. }
    intros _. by apply t_ret.
  - intros x. apply t_pure. intros ->. apply t_bind with (fun k s => k = count_pages d3 /\ at_ d3 (plus h 0 0 0 1 2) v s).
    { eapply t_exn; [|apply t_call1]. intros s. by apply broken_stuck. }
    intros k. apply t_pure. intros ->. apply page_loop_result.
Qed.

Definition nothing : held := MkHeld 0 0 0 0 0.

(** The attempts of [main] *)
Lemma t_attempt bad P (c : EX bool) Q E :
  triple bad P c (fun ok s => ok = true /\ Q s) E ->
  triple bad P (fz_try c (e_ret false)) (fun ok s => if ok : bool then Q s else E s) (fun _ => False).
Proof.
  intros Hc. apply t_try with E; [|by apply t_ret].
  eapply t_weaken; [..|exact Hc]; [done| |done]. intros ok s [-> Hs]. exact Hs.
Qed.

Lemma try_register d h v bad :
  triple bad (at_ d h v) (fz_try (call throws (fun _ => tt) ;^ e_ret true) (e_ret false))
    (fun ok s => if ok : bool then at_ d h v s else broken (fun _ => True) h v s) (fun _ => False).
Proof.
  apply t_attempt. eapply t_bind; [apply t_call1|]. intros []. apply t_ret. by intros s [_ Hs].
Qed.

Lemma try_open d h v bad :
  triple bad (at_ d h v) (fz_try (call throws (fun _ => tt) ;^ hold 0 1 0 0 0 ;^ e_ret true) (e_ret false))
    (fun ok s => if ok : bool then at_ d (plus h 0 1 0 0 0) v s else broken (fun _ => True) h v s) (fun _ => False).
Proof.
  apply t_attempt. eapply t_bind; [apply t_call1|]. intros []. apply t_pure. intros _.
  eapply t_bind; [apply t_hold|]. intros []. by apply t_ret.
Qed.

Lemma try_pages d h :
  triple (fun e => pdf_result d = Er e) (at_ d h None)
    (fz_try (handle_pdf throws ;^ save throws ;^ e_ret true) (e_ret false))
    (fun ok s => if ok : bool then exists d', pdf_result d = OK d' /\ at_ d' (plus h 0 0 0 1 2) (Some d') s else stuck h None s)
    (fun _ => False).
Proof.
  apply t_attempt. eapply t_bind; [apply handle_pdf_result|]. intros [] s (d' & Hd' & Hs). revert s Hs.
  change (triple (fun e => pdf_result d = Er e) (at_ d' (plus h 0 0 0 1 2) None) (save throws ;^ e_ret true)
    (fun ok s => ok = true /\ exists d', pdf_result d = OK d' /\ at_ d' (plus h 0 0 0 1 2) (Some d') s) (stuck h None)).
  apply t_bind with (fun _ => at_ d' (plus h 0 0 0 1 2) (Some d')); [|intros _; apply t_ret; intros s Hs; split; [done|by exists d']].
  unfold save. eapply t_bind.
  { eapply t_exn; [|apply t_call1]. intros s. by apply broken_stuck. }
  intros []. apply t_pure. intros _. apply t_mod. intros s (Hd & Hh & _). by rewrite <- Hd.
Qed.

(** How the program ends, and in which state *)
Definition main_post (context : bool) (d : D) (r : Z) (s : St D) : Prop :=
  contexts (refs s) = 0 /\ documents (refs s) = 0 /\
  ((r = EXIT_SUCCESS /\ context = true /\ saved s = Some (pdf s) /\ pdf_result d = OK (pdf s) /\
      pages (refs s) = 0 /\ fonts_held (refs s) = 1 /\ objects (refs s) = 2) \/
   (r = EXIT_FAILURE /\ (context = false \/ thrown) /\ saved s = None /\ 0 <= pages (refs s) <= 1)).

Lemma main_triple context d : triple (fun e => pdf_result d = Er e) (at_ d nothing None) (main throws context)
  (main_post context d) (fun _ => False).
Proof.
  unfold main. destruct context; cbn [negb].
  2:{ apply t_ret. intros s (Hd & Hh & Hv). unfold main_post. rewrite Hh. cbn. by naive_solver lia. }
  eapply t_bind; [apply t_hold|]. intros []. cbv beta. eapply t_bind; [apply try_register|]. intros [|]; cbn [negb].
  2:{ intros s (Ht & d' & _ & Hd & Hh & Hv). unfold main_post. cbn. rewrite Hh, Hv. cbn. by naive_solver lia. }
  eapply t_bind; [apply try_open|]. intros [|]; cbn [negb].
  2:{ intros s (Ht & d' & _ & Hd & Hh & Hv). unfold main_post. cbn. rewrite Hh, Hv. cbn. by naive_solver lia. }
  eapply t_bind; [apply try_pages|]. intros [|]; cbn [negb].
  - intros s (d' & Hd' & Hd & Hh & Hv). unfold main_post. cbn. rewrite Hh, Hv, Hd. cbn. by naive_solver lia.
  - intros s (Ht & d' & p & f & o & (Hd & Hh & Hv) & Hp & _). unfold main_post. cbn. rewrite Hh, Hv. cbn. by naive_solver lia.
Qed.

(** [main] always releases the context and the document.  When it succeeds, it
    has saved the document with the fonts of all its pages replaced, and only
    the font and the two objects made for it are left; it fails when the library
    has no context or has thrown, with nothing saved and at most a page left. *)
Theorem main_saves_replaced (context : bool) (d : D) :
  match main throws context (MkSt d 0 nothing None) with
  | OK (Ended r, s) => main_post context d r s
  | OK (Thrown, _) => False
  | Er e => pdf_result d = Er e
  end.
Proof. by apply main_triple. Qed.

End results.

(** ** What it does, from the laws *)

Section laws.
Context {D obj : Type} `{!Pdf D obj, !EqDecision obj, !PdfLaws D obj}.
Implicit Types d : D.

(** Only values of existing keys have changed, to [font_obj]. *)
Record after (font_obj : obj) (changed : obj -> name -> Prop) d d' : Prop := {
  af_pages : count_pages d' = count_pages d /\ forall p, page_resources d' p = page_resources d p;
  af_kinds : forall y, is_dict d' y = is_dict d y /\ is_name d' y = is_name d y /\ to_name d' y = to_name d y;
  af_keys : forall o, dict_len d' o = dict_len d o /\
    ((dict_len d o <= 100)%nat -> forall j, dict_get_key d' o j = dict_get_key d o j);
  af_gets : forall o k, (changed o k -> dict_gets d' o k = Some font_obj) /\ (~ changed o k -> dict_gets d' o k = dict_gets d o k)
}.

Lemma change_refl fo d : after fo (fun _ _ => False) d d.
Proof. split; try done. Qed.

Lemma after_puts fo P d d' fonts key : after fo P d d' -> is_Some (dict_gets d' fonts key) ->
  after fo (fun o k => P o k \/ (o = fonts /\ k = key)) d (dict_puts d' fonts key fo).
Proof.
  intros [[H1 H1'] H2 H3 H4] Hk. destruct (puts_pages d' fonts key fo) as [Hp Hp']. split.
  - split; [congruence|]. intros p. by rewrite Hp'.
  - intros y. destruct (puts_kinds d' fonts key fo y) as (-> & -> & ->). apply H2.
  - intros o. destruct (puts_keys d' fonts key fo o Hk) as [-> Hj], (H3 o) as [Hlen Hj'].
    split; [done|]. intros Ho j. rewrite Hj by lia. by apply Hj'.
  - intros o k. rewrite gets_puts by done. destruct (decide (o = fonts /\ k = key)) as [?|Hne]; split.
    + done.
    + tauto.
    + intros [?|?]; [by apply H4|tauto].
    + intros Hn. apply H4. tauto.
Qed.

(** The choice of a font does not depend on other dictionaries. *)
Lemma to_replace_after fo P d d' o : after fo P d d' -> (forall f k, o = Some f -> ~ P f k) ->
  to_replace d' o = to_replace d o.
Proof.
  intros [_ H2 _ H4] Hf. unfold to_replace. destruct o as [f|]; [|done].
  destruct (H2 (Some f)) as [-> _]. destruct (is_dict d (Some f)); cbn [negb]; [|done].
  rewrite (proj2 (H4 f sEncoding)) by (by apply Hf). rewrite (proj2 (H4 f sBaseFont)) by (by apply Hf).
  destruct (H2 (dict_gets d f sEncoding)) as (_ & _ & ->). destruct (H2 (dict_gets d f sBaseFont)) as (_ & -> & ->). done.
Qed.

Lemma after_iff fo (P Q : obj -> name -> Prop) d d' : (forall o k, P o k <-> Q o k) -> after fo P d d' -> after fo Q d d'.
Proof.
  intros HPQ [H1 H2 H3 H4]. split; try done. intros o k. destruct (H4 o k). split; intros; naive_solver.
Qed.

(** The keys of the first [n] entries, and what becomes of them *)
Definition key_at d (fonts : obj) (j : nat) : name := to_name d (dict_get_key d fonts j).
Definition replaced d (fonts : obj) (n : nat) (o : obj) (k : name) : Prop :=
  o = fonts /\ k ∈ map (key_at d fonts) (seq 0 n) /\ to_replace d (dict_gets d fonts k) = OK true.

Lemma replaced_S d fonts j o k : replaced d fonts (S j) o k <->
  replaced d fonts j o k \/ (o = fonts /\ k = key_at d fonts j /\ to_replace d (dict_gets d fonts k) = OK true).
Proof.
  unfold replaced. rewrite seq_S, map_app, elem_of_app, Nat.add_0_l. cbn [map]. rewrite list_elem_of_singleton. tauto.
Qed.

(** No font of the dictionary is the dictionary, the new font is neither it nor
    one to replace, there are at most a hundred fonts, and the names that are
    read have at least three bytes. *)
Record proper d (fonts font_obj : obj) : Prop := {
  pr_self : forall k, dict_gets d fonts k <> Some fonts;
  pr_other : font_obj <> fonts;
  pr_new : to_replace d (Some font_obj) = OK false;
  pr_few : (dict_len d fonts <= 100)%nat;
  pr_read : forall j, (j < dict_len d fonts)%nat -> exists b, to_replace d (dict_gets d fonts (key_at d fonts j)) = OK b
}.

Lemma to_replace_Some d o : to_replace d o = OK true -> is_Some o.
Proof. destruct o; [by eexists|done]. Qed.

Lemma fonts_result_spec d fonts fo n j d' : proper d fonts fo -> (n + j <= dict_len d fonts)%nat ->
  after fo (replaced d fonts j) d d' ->
  exists d'', fonts_result fonts fo n j d' = OK d'' /\ after fo (replaced d fonts (n + j)) d d''.
Proof.
  intros [Hself Hfo Hnew Hfew Hread]. revert j d'. induction n as [|n IH]; intros j d' Hn Haf; cbn [fonts_result].
  { by exists d'. }
  pose proof Haf as [_ H2 H3 H4]. destruct (H3 fonts) as [_ Hkeys]. rewrite (Hkeys Hfew).
  destruct (H2 (dict_get_key d fonts j)) as (_ & _ & ->). fold (key_at d fonts j). set (k := key_at d fonts j).
  destruct (Hread j) as [b Hb]; [lia|]. fold k in Hb. rewrite Nat.add_succ_comm in Hn |- *.
  assert (forall f k', replaced d fonts j f k' -> f = fonts) as Hin by (by intros f k' (? & _)).
  assert (Decision (replaced d fonts j fonts k)) as Hdec by apply _.
  destruct Hdec as [Hr|Hr].
  - pose proof (proj1 (H4 _ _) Hr) as ->. rewrite (to_replace_after fo _ d d' _ Haf), Hnew.
    + apply IH; [lia|]. eapply after_iff; [|exact Haf]. intros o k'. rewrite replaced_S. split; [tauto|].
      intros [?|(-> & -> & _)]; done.
    + intros f k' [= <-] Hf. by apply Hin in Hf.
  - pose proof (proj2 (H4 _ _) Hr) as Hgets. rewrite Hgets, (to_replace_after fo _ d d' _ Haf), Hb.
    + apply IH; [lia|]. destruct b.
      * eapply after_iff; [|apply (after_puts fo _ d d' fonts k Haf); rewrite Hgets; by apply (to_replace_Some d)].
        intros o k'. rewrite replaced_S. cbn. split; [intros [?|(-> & ->)]|intros [?|(-> & -> & _)]]; tauto.
      * eapply after_iff; [|exact Haf]. intros o k'. rewrite replaced_S. split; [tauto|].
        intros [?|(-> & -> & Ht)]; [done|]. fold k in Ht. congruence.
    + intros f k' Hf Hrep. apply Hin in Hrep as ->. by apply (Hself k).
Qed.

(** C40: handling a page with at most a hundred fonts, whose BaseFont names of
    interest have at least three bytes (a shorter one is read beyond its end),
    whichever calls of the library throw: if it ends, it
    has replaced, in the dictionary of the fonts of the page, those that are
    declared with the encoding of Windows and have one of the three names in
    GBK; if it has thrown, it has done so for the first of them only.  Nothing
    else in the document has changed, and nothing more is held. *)
Theorem page_fonts_replaced (throws : nat -> bool) fo p s fonts :
  let d := pdf s in
  fonts_of d p = Some fonts -> proper d fonts fo ->
  exists o s' m, handle_page throws fo p s = OK (o, s') /\
    match o with
    | Ended _ => m = dict_len d fonts
    | Thrown => (m <= dict_len d fonts)%nat /\ exists k, throws k = true
    end /\
    (forall o k, dict_gets (pdf s') o k =
       if decide (o = fonts /\ k ∈ map (key_at d fonts) (seq 0 m) /\ to_replace d (dict_gets d fonts k) = OK true)
       then Some fo else dict_gets d o k) /\
    count_pages (pdf s') = count_pages d /\ (forall q, page_resources (pdf s') q = page_resources d q) /\
    (forall o, dict_len (pdf s') o = dict_len d o) /\ refs s' = refs s.
Proof.
  intros d Hf Hp.
  assert (forall m, (m <= dict_len d fonts)%nat -> exists d', fonts_result fonts fo m 0 d = OK d' /\ after fo (replaced d fonts m) d d') as Hres.
  { intros m Hm. destruct (fonts_result_spec d fonts fo m 0 d Hp) as (d' & Hd' & Ha); [lia| |].
    - eapply after_iff; [|apply change_refl]. intros o k. split; [done|]. intros (_ & Hin & _). by apply elem_of_nil in Hin.
    - rewrite Nat.add_0_r in Ha. by exists d'. }
  assert (exists o s' m, handle_page throws fo p s = OK (o, s') /\
    match o with Ended _ => m = dict_len d fonts | Thrown => (m <= dict_len d fonts)%nat /\ exists k, throws k = true end /\
    after fo (replaced d fonts m) d (pdf s') /\ refs s' = refs s) as (o & s' & m & Hrun & Ho & [[H1 H1'] _ H3 H4] & Hrefs).
  { pose proof (handle_page_result throws fo p (refs s) (saved s) d s ltac:(by split)) as Hrun. unfold page_result in Hrun.
    rewrite Hf in Hrun. destruct (Hres (dict_len d fonts)) as (d1 & Hd1 & Ha1); [done|]. rewrite Hd1 in Hrun.
    destruct (handle_page throws fo p s) as [[[u|] s']|e]; [| |done].
    - destruct Hrun as (d' & [= <-] & Hs & Hh & _). exists (Ended u), s', (dict_len d fonts). by rewrite Hs.
    - destruct Hrun as (Ht & d' & Hd' & Hs & Hh & _). destruct Hd' as [-> |(fonts' & m & [= <-] & Hm & Hd')].
      + destruct (Hres 0%nat) as (d' & [= <-] & Ha); [lia|]. exists Thrown, s', 0%nat. rewrite Hs. split; [done|]. split; [split; [lia|done]|]. done.
      + destruct (Hres m Hm) as (d2 & Hd2 & Ha). exists Thrown, s', m. rewrite Hs. assert (d2 = d') as <- by congruence. done. }
  exists o, s', m. split; [done|]. split; [done|]. split; [|split; [done|split; [done|split; [by intros o'; apply H3|done]]]].
  intros o' k. destruct (decide _) as [Hr|Hr]; by apply H4.
Qed.

End laws.

(** ** A document that satisfies the laws

    An object is a name or a dictionary in the store. *)

Abbreviation object := (nat + name)%type.
Record doc : Type := MkDoc { store : gmap nat (list (name * object)); next : nat; resources : list (option object) }.

Fixpoint assoc (k : name) (l : list (name * object)) : option object :=
  match l with [] => None | (k', x) :: l => if decide (k = k') then Some x else assoc k l end.
Fixpoint assoc_set (k : name) (x : object) (l : list (name * object)) : list (name * object) :=
  match l with
  | [] => [(k, x)]
  | (k', y) :: l => if decide (k = k') then (k', x) :: l else (k', y) :: assoc_set k x l
  end.

Definition entries (d : doc) (o : object) : list (name * object) :=
  match o with inl o => default [] (store d !! o) | inr _ => [] end.
Definition doc_puts (d : doc) (o : object) (k : name) (x : object) : doc :=
  match o with
  | inl p => match store d !! p with
             | Some l => MkDoc (<[p := assoc_set k x l]> (store d)) (next d) (resources d)
             | None => d
             end
  | inr _ => d
  end.

#[export] Instance doc_pdf : Pdf doc object := {
  count_pages d := length (resources d);
  page_resources d p := default None (resources d !! p);
  is_dict d o := match o with Some (inl p) => bool_decide (is_Some (store d !! p)) | _ => false end;
  is_name d o := match o with Some (inr _) => true | _ => false end;
  to_name d o := match o with Some (inr n) => n | _ => [] end;
  dict_gets d o k := assoc k (entries d o);
  dict_len d o := length (entries d o);
  dict_get_key d o j := (fun e => inr e.1) <$> entries d o !! j;
  dict_puts := doc_puts;
  new_name d n := (inr n, d);
  add_cjk_font d := (inl (next d), MkDoc (<[next d := []]> (store d)) (S (next d)) (resources d))
}.

Lemma assoc_set_lookup k x l k' : assoc k' (assoc_set k x l) = if decide (k' = k) then Some x else assoc k' l.
Proof.
  induction l as [|[q y] l IH]; cbn [assoc_set assoc].
  - by destruct (decide (k' = k)).
  - destruct (decide (k = q)) as [->|Hne]; cbn [assoc].
    + by destruct (decide (k' = q)).
    + rewrite IH. destruct (decide (k' = q)) as [->|]; [by rewrite decide_False by done|done].
Qed.

Lemma assoc_set_keys k x l : is_Some (assoc k l) -> map fst (assoc_set k x l) = map fst l.
Proof.
  induction l as [|[q y] l IH]; cbn [assoc_set assoc]; [by intros []|]. destruct (decide (k = q)); [done|].
  intros Hs. cbn. by rewrite IH.
Qed.

Lemma entries_puts d o k x o' : is_Some (dict_gets d o k) ->
  entries (doc_puts d o k x) o' = if decide (o' = o) then assoc_set k x (entries d o) else entries d o'.
Proof.
  intros [v Hv]. destruct o as [p|n]; [|done]. cbn in Hv |- *. destruct (store d !! p) as [l|] eqn:Hp; [|done].
  destruct o' as [p'|n']; cbn; [|done]. destruct (decide (p' = p)) as [->|Hne].
  - rewrite decide_True by done. by rewrite lookup_insert_eq.
  - rewrite decide_False by congruence. by rewrite lookup_insert_ne.
Qed.

#[export] Instance doc_laws : PdfLaws doc object.
Proof.
  split.
  - intros d o k x o' k' Hs. cbn. rewrite (entries_puts d o k x o' Hs). destruct (decide (o' = o)) as [->|Hne].
    + rewrite assoc_set_lookup. destruct (decide (k' = k)) as [->|]; [by rewrite decide_True|].
      rewrite decide_False; [done|]. naive_solver.
    + rewrite decide_False; [done|]. naive_solver.
  - intros d o k x. cbn. destruct o as [p|]; cbn; [|done]. by destruct (store d !! p).
  - intros d o k x y. cbn. split; [|done]. destruct y as [[p'|]|]; [|done..]. destruct o as [p|]; cbn; [|done].
    destruct (store d !! p) as [l|] eqn:Hp; [|done]. cbn. apply bool_decide_ext.
    destruct (decide (p' = p)) as [->|Hne]; [rewrite lookup_insert_eq, Hp; by split; eexists|by rewrite lookup_insert_ne].
  - intros d o k x o' Hs. cbn. rewrite (entries_puts d o k x o' Hs). destruct (decide (o' = o)) as [->|]; [|done].
    assert (map fst (assoc_set k x (entries d o)) = map fst (entries d o)) as Hk by (by apply assoc_set_keys).
    split; [by rewrite <- (length_map fst), Hk, length_map|]. intros _ j.
    assert (fst <$> assoc_set k x (entries d o) !! j = fst <$> entries d o !! j) as Hj by (rewrite <- !list_lookup_fmap; by f_equal).
    destruct (assoc_set k x (entries d o) !! j), (entries d o !! j); cbn in *; congruence.
  - done.
Qed.

(** A page with two fonts: F1, declared as in Windows and called after the
    Song typeface in GBK, and F2, an ordinary one; dictionary 3 is the new font. *)
Definition sF1 : name := [70; 49].
Definition sF2 : name := [70; 50].
Definition song : name := [203; 206; 204; 229].
Definition sample : doc := MkDoc
  {[0%nat := [(sFont, inl 1%nat)];
    1%nat := [(sF1, inl 2%nat); (sF2, inl 4%nat)];
    2%nat := [(sBaseFont, inr song); (sEncoding, inr sWinAnsi)];
    3%nat := [(sEncoding, inr sGBK)];
    4%nat := [(sBaseFont, inr [65; 114; 105; 97; 108]); (sEncoding, inr sWinAnsi)]]} 5 [Some (inl 0%nat)].

Lemma sample_proper : proper sample (inl 1%nat) (inl 3%nat).
Proof.
  split; [|done|by vm_compute|change (2 <= 100)%nat; lia|].
  - intros k. change (dict_gets sample (inl 1%nat) k) with (assoc k [(sF1, inl 2%nat); (sF2, inl 4%nat)]). cbn.
    by repeat case_decide.
  - intros [|[|j]] Hj; [exists true; by vm_compute|exists false; by vm_compute|]. change (dict_len sample (inl 1%nat)) with 2%nat in Hj. lia.
Qed.

Lemma page_fonts_replaced_witness : exists s', 
  handle_page (fun _ => false) (inl 3%nat : object) 0 (MkSt sample 0 nothing None) = OK (Ended tt, s') /\
  dict_gets (pdf s') (inl 1%nat) sF1 = Some (inl 3%nat) /\ dict_gets (pdf s') (inl 1%nat) sF2 = Some (inl 4%nat).
Proof.
  destruct (page_fonts_replaced (fun _ => false) (inl 3%nat : object) 0 (MkSt sample 0 nothing None) (inl 1%nat))
    as ([[]|] & s' & m & Hrun & Ho & Hgets & _); [by vm_compute|exact sample_proper| |].
  - exists s'. split; [exact Hrun|]. rewrite !Hgets, Ho. split; by vm_compute.
  - exfalso. by destruct Ho as (_ & k & ?).
Defined.

(** The result of the program, the font F1 of what it saves, and what it leaves *)
Definition run_sample (throws : nat -> bool) : option (Z * option (option object) * held) :=
  match main throws true (MkSt sample 0 nothing None) with
  | OK (Ended r, s) => Some (r, option_map (fun d => dict_gets d (inl 1%nat) sF1) (saved s), refs s)
  | _ => None
  end.

(** The program replaces the font of the sample; with an exception at its ninth
    call (the resources of the page), it saves nothing. *)
Lemma main_runs_on_sample :
  run_sample (fun _ => false) = Some (EXIT_SUCCESS, Some (Some (inl 5%nat)), MkHeld 0 0 0 1 2) /\
  run_sample (fun k => Nat.eqb k 8) = Some (EXIT_FAILURE, None, MkHeld 0 0 1 1 2).
Proof. split; by vm_compute. Qed.
